(* ===== verification/_CoqProject ===== *)
-Q . S2P
Prelude.v
Bytes.v
Crc.v
BytesUtil.v
CoreTypes.v
WalFrame.v
Wal.v
WalSegment.v
WalRecovery.v
FileWal.v
FileWalSpec.v
S3Format.v
LogCache.v
BlockCache.v
ObjectStore.v
S3Client.v
Stream.v
KafkaWire.v
Batch.v
Partition.v
Concurrent.v
GroupCommit.v
StartOffset.v
MessageTypes.v
MsgCodec.v
MsgMeta.v
MsgData.v
MsgGroup.v
MsgTxn.v
MsgAuth.v
MsgAdmin.v
Messages.v
MsgSafe.v
Cluster.v
TopicThreads.v
Txn.v
Group.v
Acl.v
State.v
Text.v
Sasl.v
SchemaRegistry.v
Chaos.v
Http.v
Broker.v
Server.v
Tls.v
Bench.v
BrokerSpec.v
BrokerLive.v
System.v
Retention.v
