(* ===== verification/Prelude.v ===== *)
(** * oxideMq: a verification library

    oxideMq is a Kafka-compatible message broker whose records are acknowledged
    from a write-ahead log (WAL), cached in memory and offloaded to S3-compatible
    object storage.  This library models the storage engine, the wire protocol, the
    request handler with all the state it serves and the HTTP endpoints, and
    proves what they promise.

    ** The program and its model

    A produce request goes through a [Partition], which numbers the batch and
    appends it to its [S3Stream]; the stream writes the WAL, then the log cache,
    and advances its next offset.  Batches are uploaded to object storage in the
    background and compacted there; a fetch reads the log cache, then the block
    cache, then object storage.  On a restart the WAL is recovered from its
    segment files.  A connection sends length-prefixed frames; the handler decodes
    the header and the request, checks that the session is authenticated (SASL) and
    its principal permitted (ACLs), calls the tables of the broker (topics and
    partitions, transactions, consumer groups, schema registry) and encodes the
    response.

    - [Prelude]: results with panics, machine integers, [HashOrder] (the
      unspecified iteration order of a hash map), sorting, shared lemmas and
      automation; [Bytes]: big-endian integers, slices, cursor reads, UTF-8.
    - oxidemq-core: [Crc] (CRC32C of bytes_util.rs), [BytesUtil] (aligned buffer,
      as a value and over a heap with undefined behaviour; accumulator), [CoreTypes] (types.rs, error.rs).
    - oxidemq-wal: [WalFrame] (frame.rs), [WalSegment] (segment.rs over a model of
      the file system: durable prefixes, directory entries that a crash may lose,
      calls that fail), [WalRecovery]
      (recovery.rs), [FileWal] and [FileWalSpec] (file.rs), [Wal] (the
      [WalEngine] trait of lib.rs as a class with laws, and memory.rs).
    - oxidemq-s3stream: [S3Format] (format.rs), [LogCache], [BlockCache],
      [ObjectStore] (the [ObjectStorage] trait of client.rs as a class with laws,
      the in-memory store and the retrying decorator), [S3Client] (the client of
      an S3 service, over a class for the AWS SDK), [Stream] (stream.rs,
      uploader.rs, compactor.rs), written and proved for any WAL and any store
      that meet the two classes; [GroupCommit] (appends by many threads over a
      group-commit WAL), [StartOffset] (the compare-and-swap loop of the start
      offset).
    - oxidemq-protocol: [KafkaWire] (parser.rs, header.rs, codec.rs, error_code.rs,
      lib.rs), [Batch] (the record-batch routines of messages.rs),
      [MessageTypes] and [MsgMeta], [MsgData], [MsgGroup], [MsgTxn], [MsgAuth],
      [MsgAdmin] (every request and response of messages.rs with its encoder and
      decoder, written with the combinators of [MsgCodec]), [Messages] (their
      unions by API key), [MsgSafe] (which decoders can panic).
    - oxidemq-broker: [Partition] (partition.rs), [Concurrent] (its appends by
      many threads), [Cluster] (router.rs), [TopicThreads] (the same by many
      threads, in sections under locks), [Txn]
      (transaction.rs), [Group] (coordinator.rs), [Acl] (acl.rs), [State]
      (state.rs), [Sasl] (sasl.rs and the SASL branches of handler.rs),
      [SchemaRegistry] (schema_registry.rs), [Chaos] (chaos.rs), [Broker]
      (handler.rs: every API, frames and the connection loop), with its theorems
      in [BrokerSpec] and [BrokerLive]; [Text] has the string operations they use.
    - oxidemq-server: [Http] (schema_registry_http.rs and admin.rs), [Server]
      (main.rs: options, the engine built from them, command line), [Tls] (tls.rs:
      the certificate of the encrypted listener), [System] (the
      running server: the requests of connections and of HTTP clients, one after the
      other in any order, on the shared tables), [Retention] (what these steps keep of acknowledged records).
    - oxidemq-benchmarks: [Bench] (oxidemq_bench.rs: producers, statistics).

    ** Conventions

    The semantics is that of the release profile: integers wrap at their width
    ([u64], [i32], ...: [Z] with the wrap written out) and a panic aborts the
    process, the third outcome [Panic] of [res].  A method that takes [&self] and
    changes the object is a function from state to state; the locks of the code
    make a call one step, and the order in which concurrent calls take the lock is
    the order of the steps.  Where a call takes several locks or uses atomics, the
    finer steps and their interleavings are modelled too ([Concurrent],
    [GroupCommit], [StartOffset], [TopicThreads]), and the one step is proved to be
    justified, or is shown not to be.  The WAL, the object store and the caches are shared
    by all streams: they are the [World] that operations thread.  Clock readings,
    the outcomes of I/O calls and what a channel delivers are arguments.  In the
    WAL every I/O call may fail: [Io] is the monad of the code that returns at the
    first error, a run takes a list of outcomes, and theorems that need more say so
    ([quiet]: no call fails; [clean]: a failing write leaves no bytes behind).
    [crash] is what a power failure may leave: of each file at least what
    [sync_data] made durable, followed by any bytes, and of the directory, which
    the code never syncs, any of the entries.
    Compression libraries are the class [CompressionLib]; the round trips assume
    [CompressionLaws] (what is compressed is decompressed to itself).  Likewise
    [ScramCrypto] stands for ring and base64, [SerdeJson] and [JsonBody] for JSON
    parsing, [S3Api] with [S3ApiLaws] for the AWS SDK and what the service
    documents, [TlsLib] for rustls, [HeapAlloc] for the global allocator, and
    [Allocator] says which capacities it grants.  A
    request handler is a computation on the whole [Broker]; in [Broker], [System]
    and [Retention] requests of different connections are executed one after the
    other, in any order.  The server runs them on concurrent tasks: what may happen
    in between is the subject of the modules on threads.

    Loops that follow lengths taken from the input run on fuel.  Those of
    [WalRecovery], [FileWal] and [S3Format] consume at least one byte a round and
    have one unit of fuel per byte plus one: the fuel never runs out, and the
    theorems state results, not partial correctness.  The loops of [Batch]
    advance by a wrapping length and can diverge: they return [None] when one unit
    per byte is not enough, the round trips prove that they return, and
    [decompress_record_batch_diverges] that one input keeps the loop running.
    [validate_loop] and [trim_with] have one unit per byte; [list_loop] has the
    service's bound on the pages ([list_loop_total]);
    [process_connection] and [produce_loop] take their fuel as an argument;
    [connection_terminates] shows that more than one unit per byte received is
    enough, [bench_producer_finishes] that more than one per record is.
    [None] from a handler means that it never returns.

    ** What is proved

    - Durability: when writes and syncs fail cleanly or not at all, an acknowledged
      append of the group-commit worker is in the synced part of a segment file and
      survives a power failure at any later point as long as that file stays listed
      in its directory (if not, it is lost, [unsynced_directory_loses_acks]);
      sequence numbers, reopening and reading ([FileWalSpec]); recovery returns
      the longest valid prefix of each segment, repairs torn tails, and loses no
      record whichever of its calls fail ([WalRecovery]); a frame round-trips, and a corrupted one is never decoded
      as another record when the corruption stays within four consecutive bytes
      ([WalFrame], [Crc]).
    - Storage: objects and their footer index round-trip ([S3Format]); caches
      respect their capacity and refine an LRU list and a finite map
      ([BlockCache], [LogCache]); what is appended is fetched from the cache,
      what is uploaded is fetched from the store, compaction replaces the merged
      objects, and only them, by one with their blocks ([Stream]); the in-memory WAL refines an abstract log with fencing ([Wal]);
      the S3 client, as long as it answers, refines the in-memory store
      ([S3Client]); the raw memory of an aligned buffer is used within its bounds,
      initialised before it is read and freed once ([BytesUtil]).
    - Wire: primitives, headers, frames cut anywhere into chunks, and record
      batches under every codec round-trip ([KafkaWire], [Batch]); every request and
      response decodes to what was encoded, as far as its version carries it (a
      flexible header needs the tagged fields that the repository's own encoder
      leaves out, [own_flexible_request_misread]), and
      the decoders that panic on short input are exactly those listed ([MsgSafe]).
    - Broker: offsets are assigned consecutively, and the log has each idempotent
      batch once, however often it is sent; the last stable offset never passes an
      open transaction ([Partition]); ending a transaction writes one marker with
      its outcome to each of its partitions, producer ids are unique and old epochs
      fenced ([Txn]); partitions never share a stream ([Cluster]); group leaders,
      deletions and offsets ([Group]); the ACL decision and deletion ([Acl]); what
      snapshots restore and what they do not ([State]).
    - Requests: no session is authenticated without the password or a valid proof
      of it, and the honest SCRAM client always is ([Sasl]); before a connection
      authenticates it changes nothing, and a principal without permissions
      changes nothing; what Produce acknowledges Fetch returns; responses carry
      the request's correlation id and decode ([BrokerSpec]); connections are
      served to their end ([BrokerLive]).  Whatever requests
      clients, administrators and registry users send, in any order, the tables stay
      well-formed, and clients without credentials have no effect ([System]); a record that was acknowledged
      stays readable at its offset whatever they do, unless it is deleted or the
      log cache overflows ([Retention]).  Schema ids are permanent ([SchemaRegistry],
      [Http]).

    - Threads: concurrent appends have the results and the final state of the same
      appends in the order in which they reached the WAL, and they neither deadlock
      nor run forever ([Concurrent]); over a group-commit WAL, whatever was
      acknowledged is on stable storage at any point of any interleaving, under
      offsets that do not overlap ([GroupCommit]); concurrent advances of the start
      offset end at the largest ([StartOffset]); concurrent topic operations never
      let two partitions share a stream, and callers agree on the partition they
      get ([TopicThreads]).

    Theorems that show the code doing something it does not mean to (for example
    [partial_write_loses_later_ack], [unsynced_directory_loses_acks], [fetch_after_compaction_wrong_block],
    [next_batch_after_two_records_rejected], [committed_transaction_stays_open],
    [eviction_loses_acknowledged], [reset_race_shares_stream]) stand at the end of their file.

    ** Not modelled

    Calls into libraries and the operating system: the AWS SDK, sockets, the
    argument parser, rustls, serde's JSON encodings; other clients of the same S3
    bucket; log lines and printed text; the embedded web page.  The compatibility tests and the benches are tests of the program, not
    parts of it. *)

From Stdlib Require Import Strings.Byte.
From stdpp Require Import base numbers list gmap strings pretty sorting.

#[export] Set Default Goal Selector "!".
#[global] Open Scope Z_scope.
#[export] Set Warnings "-notation-overridden".
Notation "x ≥ y" := (Z.le y x) (only parsing) : Z_scope.
Notation "x > y" := (Z.lt y x) (only parsing) : Z_scope.

(** ** Results

    Rust's [Result] with a third outcome: the process aborts.  The release
    profile of the workspace sets [panic = "abort"], so a panic (an index or
    slice out of range, a [get_*] on a buffer that is too short, an
    [unwrap] of nothing) takes the whole broker down; it is not an error
    that a caller can observe. *)
Inductive res (E A : Type) : Type :=
| Ok (a : A)
| Err (e : E)
| Panic.
Arguments Ok {E A} a.
Arguments Err {E A} e.
Arguments Panic {E A}.

#[export] Instance res_ret {E} : MRet (res E) := λ A a, Ok a.
#[export] Instance res_bind {E} : MBind (res E) := λ A B k m,
  match m with Ok a => k a | Err e => Err e | Panic => Panic end.
#[export] Instance res_fmap {E} : FMap (res E) := λ A B f m,
  match m with Ok a => Ok (f a) | Err e => Err e | Panic => Panic end.

(** [Option::ok_or] *)
Definition ok_or {E A} (o : option A) (e : E) : res E A :=
  match o with Some a => Ok a | None => Err e end.

Definition is_Ok {E A} (r : res E A) : bool :=
  match r with Ok _ => true | _ => false end.

Definition is_Panic {E A} (r : res E A) : bool :=
  match r with Panic => true | _ => false end.

(** ** Machine integers

    A [w]-bit integer is a [Z]; the release profile has no overflow checks,
    so [+], [-], [*] and [as] casts wrap. *)
Definition wrap_u (w z : Z) : Z := z mod 2 ^ w.
Definition wrap_s (w z : Z) : Z := (z + 2 ^ (w - 1)) mod 2 ^ w - 2 ^ (w - 1).

Abbreviation u8 := (wrap_u 8).
Abbreviation u16 := (wrap_u 16).
Abbreviation u32 := (wrap_u 32).
Abbreviation u64 := (wrap_u 64).
Abbreviation i16 := (wrap_s 16).
Abbreviation i32 := (wrap_s 32).
Abbreviation i64 := (wrap_s 64).

Definition in_u (w z : Z) : Prop := 0 ≤ z < 2 ^ w.
Definition in_s (w z : Z) : Prop := - 2 ^ (w - 1) ≤ z < 2 ^ (w - 1).

#[export] Instance in_u_dec w z : Decision (in_u w z).
Proof. unfold in_u. apply _. Defined.
#[export] Instance in_s_dec w z : Decision (in_s w z).
Proof. unfold in_s. apply _. Defined.

Definition i64_max : Z := 2 ^ 63 - 1.
Definition i64_min : Z := - 2 ^ 63.

(** [Vec::len] and [Bytes::len] as an integer. *)
Definition zlen {A} (l : list A) : Z := Z.of_nat (length l).

(** ** Hash tables

    [std::collections::HashMap] iterates in an unspecified order that may
    change with the table's contents.  A definition that iterates over a hash
    table takes the order from this class; every theorem about it is proved
    for every order. *)
Class HashOrder := {
  hash_iter : ∀ {K : Type} `{Countable K} {V : Type}, gmap K V → list (K * V);
  hash_iter_perm : ∀ `{Countable K} {V} (m : gmap K V),
    hash_iter m ≡ₚ map_to_list m }.

(** One concrete order, for evaluation. *)
#[export] Instance hash_order_default : HashOrder | 100 := {|
  hash_iter := λ K _ _ V m, map_to_list m;
  hash_iter_perm := λ K _ _ V m, reflexivity _ |}.

(** ** Hint databases and tactics *)
Create HintDb oxide.
Create Rewrite HintDb len.

Ltac inv_res :=
  repeat match goal with
  | H : Ok _ = Ok _ |- _ => injection H as H
  | H : Err _ = Err _ |- _ => injection H as H
  | H : Some _ = Some _ |- _ => injection H as H
  | H : Ok _ = Err _ |- _ => discriminate H
  | H : Err _ = Ok _ |- _ => discriminate H
  | H : Panic = Ok _ |- _ => discriminate H
  | H : Ok _ = Panic |- _ => discriminate H
  | H : Panic = Err _ |- _ => discriminate H
  | H : Err _ = Panic |- _ => discriminate H
  | H : None = Some _ |- _ => discriminate H
  | H : Some _ = None |- _ => discriminate H
  end; simplify_eq/=.

(** Split a [bind] hypothesis. *)
Ltac bind_inv H :=
  let E := fresh "E" in
  match type of H with
  | mbind _ ?m = _ => destruct m eqn:E; simpl in H; inv_res
  end.

(** Rewriting lengths. *)
Ltac lens := autorewrite with len in *; simpl in *.

(** ** Arithmetic lemmas *)
Lemma pow2_pos w : 0 ≤ w → 0 < 2 ^ w.
Proof. intros. apply Z.pow_pos_nonneg; lia. Qed.

Lemma wrap_u_small w z : in_u w z → wrap_u w z = z.
Proof. intros [??]. unfold wrap_u. by apply Z.mod_small. Qed.

Lemma wrap_u_range w z : 0 ≤ w → in_u w (wrap_u w z).
Proof. intros. apply Z.mod_pos_bound. by apply pow2_pos. Qed.

Lemma pow2_split w : 0 < w → 2 ^ w = 2 * 2 ^ (w - 1).
Proof. intros. rewrite <- Z.pow_succ_r by lia. f_equal. lia. Qed.

Lemma wrap_s_small w z : 0 < w → in_s w z → wrap_s w z = z.
Proof.
  intros Hw [??]. unfold wrap_s. pose proof (pow2_split w Hw).
  rewrite Z.mod_small; lia.
Qed.

Lemma wrap_s_range w z : 0 < w → in_s w (wrap_s w z).
Proof.
  intros Hw. pose proof (pow2_split w Hw). pose proof (pow2_pos w).
  unfold wrap_s, in_s. pose proof (Z.mod_pos_bound (z + 2 ^ (w - 1)) (2 ^ w)). lia.
Qed.

(** Reading back a signed integer from its two's complement residue. *)
Lemma wrap_s_mod w z : 0 < w → wrap_s w (z mod 2 ^ w) = wrap_s w z.
Proof. intros. unfold wrap_s. by rewrite Zplus_mod_idemp_l. Qed.

Lemma wrap_s_of_residue w z : 0 < w → in_s w z → wrap_s w (z mod 2 ^ w) = z.
Proof. intros. rewrite wrap_s_mod by done. by apply wrap_s_small. Qed.

#[export] Hint Resolve wrap_u_small wrap_u_range wrap_s_small wrap_s_range : oxide.

Lemma zlen_nil {A} : zlen (@nil A) = 0.
Proof. done. Qed.
Lemma zlen_cons {A} (x : A) l : zlen (x :: l) = 1 + zlen l.
Proof. unfold zlen. simpl. lia. Qed.
Lemma zlen_app {A} (l k : list A) : zlen (l ++ k) = zlen l + zlen k.
Proof. unfold zlen. rewrite length_app. lia. Qed.
Lemma zlen_nonneg {A} (l : list A) : 0 ≤ zlen l.
Proof. unfold zlen. lia. Qed.
#[export] Hint Rewrite @zlen_nil @zlen_cons @zlen_app : len.
#[export] Hint Rewrite @length_app @length_take @length_drop @length_replicate
  @length_nil @length_cons @length_fmap @length_insert : len.
#[export] Hint Resolve zlen_nonneg : oxide.

(** ** Lemmas on hash iteration *)
Section hash.
Context `{HO : HashOrder} `{Countable K} {V : Type}.
Implicit Types m : gmap K V.

Lemma elem_of_hash_iter m k v : (k, v) ∈ hash_iter m ↔ m !! k = Some v.
Proof. by rewrite hash_iter_perm, elem_of_map_to_list. Qed.

Lemma NoDup_fst_hash_iter m : NoDup (hash_iter m).*1.
Proof. rewrite hash_iter_perm. apply NoDup_fst_map_to_list. Qed.

Lemma hash_iter_nil m : hash_iter m = [] ↔ m = ∅.
Proof.
  split; [|intros ->].
  - intros E. apply map_eq. intros k. rewrite lookup_empty.
    destruct (m !! k) eqn:Hk; [|done]. apply elem_of_hash_iter in Hk.
    rewrite E in Hk. set_solver.
  - apply Permutation_nil_r. by rewrite hash_iter_perm, map_to_list_empty.
Qed.
End hash.

(** ** List lemmas *)
Lemma sum_list_Z_perm (l k : list Z) : l ≡ₚ k → foldr Z.add 0 l = foldr Z.add 0 k.
Proof. induction 1; simpl; lia. Qed.

Lemma foldr_add_app (l k : list Z) :
  foldr Z.add 0 (l ++ k) = foldr Z.add 0 l + foldr Z.add 0 k.
Proof. induction l; simpl; lia. Qed.

(** Lists that are updated in place. *)
Lemma lookup_alter_cases {A} (g : A → A) i (l : list A) x k y : l !! i = Some x →
  alter g i l !! k = Some y ↔ (k = i ∧ y = g x) ∨ (k ≠ i ∧ l !! k = Some y).
Proof.
  intros Hi. destruct (decide (k = i)) as [->|Hne].
  - rewrite list_lookup_alter_eq, Hi. cbn. naive_solver.
  - rewrite list_lookup_alter_ne by done. naive_solver.
Qed.

Lemma fmap_alter_same {A B} (f : A → B) (g : A → A) i (l : list A) :
  (∀ x, f (g x) = f x) → f <$> alter g i l = f <$> l.
Proof.
  intros Hf. apply list_eq. intros k. rewrite !list_lookup_fmap. destruct (decide (k = i)) as [->|].
  - rewrite list_lookup_alter_eq. destruct (l !! i); [|done]. cbn. by rewrite Hf.
  - by rewrite list_lookup_alter_ne.
Qed.

(** Sums over the elements of a list that is updated in place. *)
Section zsum.
Context {A : Type} (f : A → Z).
Definition zsum (l : list A) : Z := foldr Z.add 0 (f <$> l).

Lemma zsum_alter g i l x : l !! i = Some x → zsum (alter g i l) = zsum l - f x + f (g x).
Proof.
  revert i. induction l as [|y l IH]; intros [|i]; [done..|intros [= ->]|intros Hi].
  - unfold zsum. simpl. lia.
  - specialize (IH i Hi). unfold zsum in *. cbn in *. lia.
Qed.

Lemma zsum_nonneg l : (∀ x, 0 ≤ f x) → 0 ≤ zsum l.
Proof. intros Hf. unfold zsum. induction l as [|y l IH]; cbn in *; [done|]. pose proof (Hf y). lia. Qed.

Lemma zsum_ge i l x : (∀ x, 0 ≤ f x) → l !! i = Some x → f x ≤ zsum l.
Proof.
  intros Hf. revert i. induction l as [|y l IH]; intros [|i]; [done..|intros [= ->]|intros Hi].
  - pose proof (zsum_nonneg l Hf). unfold zsum in *. cbn in *. lia.
  - specialize (IH i Hi). pose proof (Hf y). unfold zsum in *. cbn in *. lia.
Qed.
End zsum.

Lemma take_app_exact {A} (l k : list A) n : n = length l → take n (l ++ k) = l.
Proof. intros ->. apply take_app_length. Qed.

Lemma drop_app_exact {A} (l k : list A) n : n = length l → drop n (l ++ k) = k.
Proof. intros ->. apply drop_app_length. Qed.

Lemma list_filter_ext_in {A} (P Q : A → Prop) `{!∀ x, Decision (P x), !∀ x, Decision (Q x)}
    (l : list A) : (∀ x, x ∈ l → P x ↔ Q x) → filter P l = filter Q l.
Proof.
  induction l as [|x l IH]; intros HPQ; [done|]. rewrite !filter_cons.
  rewrite IH by (intros; apply HPQ; set_solver).
  pose proof (HPQ x ltac:(set_solver)). repeat case_decide; tauto.
Qed.

(** ** Stable sorting: [slice::sort_by_key] *)
Fixpoint insert_by_key {A} (key : A → Z) (x : A) (l : list A) : list A :=
  match l with
  | [] => [x]
  | y :: l' => if decide (key x ≤ key y) then x :: l else y :: insert_by_key key x l'
  end.

Definition sort_by_key {A} (key : A → Z) : list A → list A :=
  foldr (insert_by_key key) [].

Section sort.
Context {A : Type} (key : A → Z).

Lemma insert_by_key_perm x l : insert_by_key key x l ≡ₚ x :: l.
Proof.
  induction l as [|y l IH]; simpl; [done|]. case_decide; [done|].
  rewrite IH. apply Permutation_swap.
Qed.

Lemma sort_by_key_perm l : sort_by_key key l ≡ₚ l.
Proof. induction l as [|x l IH]; simpl; [done|]. by rewrite insert_by_key_perm, IH. Qed.

Lemma elem_of_sort_by_key x l : x ∈ sort_by_key key l ↔ x ∈ l.
Proof. by rewrite sort_by_key_perm. Qed.

Lemma insert_by_key_sorted x l :
  StronglySorted (λ a b, key a ≤ key b) l →
  StronglySorted (λ a b, key a ≤ key b) (insert_by_key key x l).
Proof.
  induction 1 as [|y l Hl IH Hy]; simpl; [by repeat constructor|]. case_decide.
  - constructor; [by constructor|]. constructor; [done|].
    eapply Forall_impl; [done|]. simpl. lia.
  - constructor; [done|]. rewrite insert_by_key_perm. constructor; [lia|done].
Qed.

Lemma sort_by_key_sorted l : StronglySorted (λ a b, key a ≤ key b) (sort_by_key key l).
Proof. induction l; simpl; [constructor|]. by apply insert_by_key_sorted. Qed.

(** A sorted list is left as it is. *)
Lemma sort_by_key_id l : StronglySorted (λ a b, key a ≤ key b) l → sort_by_key key l = l.
Proof.
  induction 1 as [|x l Hl IH Hx]; simpl; [done|]. rewrite IH.
  destruct l as [|y l]; simpl; [done|]. inversion Hx. by rewrite decide_True.
Qed.

Definition key_lt (a b : A) : Prop := key a < key b.

Lemma strict_sorted_unique l k : StronglySorted key_lt l → StronglySorted key_lt k →
  (∀ x, x ∈ l ↔ x ∈ k) → l = k.
Proof.
  intros Hl. revert k. induction Hl as [|x l Hl IH Hx]; intros k Hk Hlk.
  { destruct k as [|y k]; [done|]. exfalso. specialize (Hlk y). set_solver. }
  destruct Hk as [|y k Hk Hy]; [exfalso; specialize (Hlk x); set_solver|].
  rewrite Forall_forall in Hx, Hy. unfold key_lt in Hx, Hy.
  assert (x = y) as ->.
  { assert (x ∈ y :: k) as Hxk by (apply Hlk; set_solver).
    assert (y ∈ x :: l) as Hyl by (apply Hlk; set_solver).
    apply elem_of_cons in Hxk as [->|Hxk]; [done|].
    apply elem_of_cons in Hyl as [->|Hyl]; [done|].
    apply Hx in Hyl. apply Hy in Hxk. lia. }
  f_equal. apply IH; [done|]. intros z. specialize (Hlk z).
  rewrite !elem_of_cons in Hlk. split; intros Hz.
  - destruct Hlk as [[->|?] _]; [by right| |done]. apply Hx in Hz. lia.
  - destruct Hlk as [_ [->|?]]; [by right| |done]. apply Hy in Hz. lia.
Qed.

Lemma key_lt_NoDup l : StronglySorted key_lt l → NoDup l.
Proof.
  induction 1 as [|x l Hl IH Hx]; constructor; [|done].
  intros Hin. rewrite Forall_forall in Hx. apply Hx in Hin. unfold key_lt in Hin. lia.
Qed.

Lemma key_lt_NoDup_key l : StronglySorted key_lt l → NoDup (key <$> l).
Proof.
  induction 1 as [|x k Hk IH Hx]; simpl; constructor; [|done].
  intros (y & Hy & Hin)%list_elem_of_fmap. rewrite Forall_forall in Hx.
  apply Hx in Hin. unfold key_lt in Hin. lia.
Qed.

Lemma key_lt_inj l x y : StronglySorted key_lt l → x ∈ l → y ∈ l → key x = key y → x = y.
Proof.
  induction 1 as [|z l Hl IH Hz]; [set_solver|]. rewrite Forall_forall in Hz. unfold key_lt in Hz.
  intros [->|Hx]%elem_of_cons [->|Hy]%elem_of_cons E; [done| | |by apply IH].
  - apply Hz in Hy. lia.
  - apply Hz in Hx. lia.
Qed.

(** With distinct keys the result is strictly sorted. *)
Lemma sort_by_key_strict l : NoDup (key <$> l) → StronglySorted key_lt (sort_by_key key l).
Proof.
  rewrite <- (sort_by_key_perm l) at 1. pose proof (sort_by_key_sorted l) as Hs.
  induction Hs as [|x s Hs IH Hx]; intros Hnd; constructor.
  - apply IH. by inversion Hnd.
  - rewrite fmap_cons in Hnd. apply NoDup_cons in Hnd as [Hn _].
    rewrite Forall_forall in Hx |- *. intros y Hy. unfold key_lt. specialize (Hx y Hy).
    simpl in Hx. destruct (decide (key x = key y)) as [E|]; [|lia].
    destruct Hn. rewrite E. by apply list_elem_of_fmap_2.
Qed.

(** Sorting any arrangement of a strictly sorted list gives that list. *)
Lemma sort_by_key_unique l k : l ≡ₚ k → StronglySorted key_lt k → sort_by_key key l = k.
Proof.
  intros Hlk Hk. apply strict_sorted_unique; [|done|].
  - apply sort_by_key_strict. rewrite Hlk. by apply key_lt_NoDup_key.
  - intros x. by rewrite elem_of_sort_by_key, Hlk.
Qed.

Lemma key_lt_snoc l x : StronglySorted key_lt l → Forall (λ y, key y < key x) l →
  StronglySorted key_lt (l ++ [x]).
Proof.
  induction 1 as [|y l Hl IH Hy]; simpl; [by repeat constructor|].
  intros [? ?]%Forall_cons. constructor; [by apply IH|]. apply Forall_app. by repeat constructor.
Qed.

Lemma key_lt_filter (P : A → Prop) `{!∀ x, Decision (P x)} l :
  StronglySorted key_lt l → StronglySorted key_lt (filter P l).
Proof.
  induction 1 as [|y l Hl IH Hy]; [constructor|]. rewrite filter_cons. case_decide; [|done].
  constructor; [done|]. rewrite Forall_forall in Hy |- *. intros z [_ ?]%list_elem_of_filter. auto.
Qed.
End sort.

(** ** Sums over maps *)
Definition msum {K V} `{Countable K} (f : V → Z) (m : gmap K V) : Z :=
  foldr Z.add 0 (f <$> (map_to_list m).*2).

Section msum.
Context {K V : Type} `{Countable K} (f : V → Z).

Lemma msum_empty : msum f (∅ : gmap K V) = 0.
Proof. unfold msum. by rewrite map_to_list_empty. Qed.

Lemma msum_insert_new (m : gmap K V) k v : m !! k = None → msum f (<[k := v]> m) = f v + msum f m.
Proof.
  intros Hk. unfold msum.
  rewrite (sum_list_Z_perm _ (f <$> ((k, v) :: map_to_list m).*2)); [done|].
  by rewrite map_to_list_insert.
Qed.

Lemma msum_delete (m : gmap K V) k v : m !! k = Some v → msum f m = f v + msum f (delete k m).
Proof.
  intros Hk. rewrite <- (insert_delete_id m k v Hk) at 1.
  apply msum_insert_new, lookup_delete_eq.
Qed.

Lemma msum_insert (m : gmap K V) k v :
  msum f (<[k := v]> m) = f v + msum f m - match m !! k with Some w => f w | None => 0 end.
Proof.
  destruct (m !! k) as [w|] eqn:Hk; [|rewrite msum_insert_new by done; lia].
  rewrite <- insert_delete_eq, msum_insert_new by apply lookup_delete_eq.
  rewrite (msum_delete m k w Hk). lia.
Qed.

Lemma msum_nonneg (m : gmap K V) : (∀ v, 0 ≤ f v) → 0 ≤ msum f m.
Proof.
  intros Hf. unfold msum. induction (map_to_list m).*2 as [|a l IH]; [done|].
  rewrite fmap_cons. cbn [foldr]. specialize (Hf a). lia.
Qed.

Lemma msum_le (m : gmap K V) k v : (∀ v, 0 ≤ f v) → m !! k = Some v → f v ≤ msum f m.
Proof. intros Hf Hk. rewrite (msum_delete m k v Hk). pose proof (msum_nonneg (delete k m) Hf). lia. Qed.

Lemma msum_zero (m : gmap K V) : (∀ k v, m !! k = Some v → f v = 0) → msum f m = 0.
Proof.
  intros Hf. unfold msum.
  assert (∀ v, v ∈ (map_to_list m).*2 → f v = 0) as Hl.
  { intros v ([k v'] & -> & Hin)%list_elem_of_fmap. apply elem_of_map_to_list in Hin. by eapply Hf. }
  induction (map_to_list m).*2 as [|a l IH]; [done|]. rewrite fmap_cons. cbn [foldr].
  rewrite IH, Hl by set_solver. done.
Qed.
End msum.

(** ** Ordered maps: [BTreeMap] as a finite map with sorted iteration *)
Definition ordered {V} (m : gmap Z V) : list (Z * V) := sort_by_key fst (map_to_list m).

Definition btree_first {V} (m : gmap Z V) : option (Z * V) := head (ordered m).

Section ordered.
Context {V : Type}.
Implicit Types m : gmap Z V.

Lemma ordered_sorted m : StronglySorted (key_lt fst) (ordered m).
Proof. apply sort_by_key_strict, NoDup_fst_map_to_list. Qed.

Lemma elem_of_ordered m k v : (k, v) ∈ ordered m ↔ m !! k = Some v.
Proof. unfold ordered. by rewrite elem_of_sort_by_key, elem_of_map_to_list. Qed.

Lemma ordered_nil m : ordered m = [] ↔ m = ∅.
Proof.
  split; [|intros ->; unfold ordered; by rewrite map_to_list_empty].
  intros E. apply map_eq. intros k. rewrite lookup_empty. destruct (m !! k) eqn:Hk; [|done].
  apply elem_of_ordered in Hk. rewrite E in Hk. set_solver.
Qed.

Lemma btree_first_Some m k v : btree_first m = Some (k, v) →
  m !! k = Some v ∧ ∀ k' v', m !! k' = Some v' → k ≤ k'.
Proof.
  unfold btree_first. pose proof (ordered_sorted m) as Hs.
  pose proof (elem_of_ordered m) as He. destruct (ordered m) as [|[k0 v0] l]; [done|].
  simpl. intros [= -> ->]. split; [apply He; set_solver|]. intros k' v' Hk'.
  apply He in Hk'. apply elem_of_cons in Hk' as [[= -> ->]|Hin]; [done|].
  inversion Hs as [|?? _ Hf]; subst. rewrite Forall_forall in Hf. apply Hf in Hin.
  unfold key_lt in Hin. simpl in Hin. lia.
Qed.

Lemma btree_first_None m : btree_first m = None ↔ m = ∅.
Proof. rewrite <- ordered_nil. unfold btree_first. by destruct (ordered m). Qed.
End ordered.
