(* ===== verification/Bytes.v ===== *)
(** * Byte buffers

    The byte-level vocabulary shared by every component: buffers as lists of
    bytes, Rust's [to_be_bytes] / [from_be_bytes], the cursor reads of a
    [&[u8]] or [Bytes] buffer as a reader monad, [str] validity, and
    CRC32C of [crates/oxidemq-core/src/bytes_util.rs]. *)

From Stdlib Require Import Strings.Byte.
From stdpp Require Import base numbers list strings sets.
From S2P Require Import Prelude.

Abbreviation bytes := (list byte).

#[export] Instance byte_eq_decision : EqDecision byte := Byte.byte_eq_dec.

(** ** Bytes and integers *)
Definition Z_of_byte (b : byte) : Z := Z.of_N (Byte.to_N b).

Definition byte_of_Z (z : Z) : byte :=
  match Byte.of_N (Z.to_N (z mod 256)) with Some b => b | None => x00 end.

(** [i32::to_be_bytes] and its siblings: the [n] low-order bytes of [z], most
    significant first. *)
Fixpoint to_be (n : nat) (z : Z) : bytes :=
  match n with
  | O => []
  | S n' => byte_of_Z (z / 256 ^ Z.of_nat n') :: to_be n' z
  end.

(** [u32::from_be_bytes] and its siblings, unsigned. *)
Fixpoint from_be (l : bytes) : Z :=
  match l with
  | [] => 0
  | b :: l' => Z_of_byte b * 256 ^ zlen l' + from_be l'
  end.

(** [&buf[start..end]]: panics when the range is not inside the buffer. *)
Definition slice {E} (l : bytes) (start stop : Z) : res E bytes :=
  if decide (0 ≤ start ≤ stop ∧ stop ≤ zlen l)
  then Ok (take (Z.to_nat (stop - start)) (drop (Z.to_nat start) l))
  else Panic.

(** [buf[i]]: panics out of range. *)
Definition index {E} (l : bytes) (i : Z) : res E Z :=
  if decide (0 ≤ i) then
    match l !! Z.to_nat i with Some b => Ok (Z_of_byte b) | None => Panic end
  else Panic.

(** [buf[start..start+n].copy_from_slice(src)] with [n = src.len()]. *)
Definition copy_at {E} (l : bytes) (start : Z) (src : bytes) : res E bytes :=
  if decide (0 ≤ start ∧ start + zlen src ≤ zlen l)
  then Ok (take (Z.to_nat start) l ++ src ++ drop (Z.to_nat start + length src) l)
  else Panic.

(** ** Cursor reads

    A read consumes a prefix of the buffer.  The [get_*] operations panic on
    a buffer that is too short. *)
Definition reader (E A : Type) : Type := bytes → res E (A * bytes).

#[export] Instance reader_ret {E} : MRet (reader E) := λ A a l, Ok (a, l).
#[export] Instance reader_bind {E} : MBind (reader E) := λ A B k m l,
  match m l with Ok (a, l') => k a l' | Err e => Err e | Panic => Panic end.

Definition fail {E A} (e : E) : reader E A := λ _, Err e.

(** [src.len()], [src.remaining()] *)
Definition remaining {E} : reader E Z := λ l, Ok (zlen l, l).

(** [src.copy_to_bytes(n)], [src.split_to(n)]; with [n] a [usize]. *)
Definition take_bytes {E} (n : Z) : reader E bytes := λ l,
  if decide (zlen l < n) then Panic
  else Ok (take (Z.to_nat n) l, drop (Z.to_nat n) l).

Definition get_u {E} (n : nat) : reader E Z := λ l,
  if decide (length l < n)%nat then Panic
  else Ok (from_be (take n l), drop n l).

Definition get_s {E} (n : nat) : reader E Z := λ l,
  if decide (length l < n)%nat then Panic
  else Ok (wrap_s (8 * Z.of_nat n) (from_be (take n l)), drop n l).

Abbreviation get_u8 := (get_u 1).
Abbreviation get_u16 := (get_u 2).
Abbreviation get_u32 := (get_u 4).
Abbreviation get_u64 := (get_u 8).
Abbreviation get_i8 := (get_s 1).
Abbreviation get_i16 := (get_s 2).
Abbreviation get_i32 := (get_s 4).
Abbreviation get_i64 := (get_s 8).

Abbreviation put_8 := (to_be 1).
Abbreviation put_16 := (to_be 2).
Abbreviation put_32 := (to_be 4).
Abbreviation put_64 := (to_be 8).

(** A loop [for _ in 0..n]. *)
Fixpoint read_n {E A} (n : nat) (r : reader E A) : reader E (list A) :=
  match n with
  | O => mret []
  | S n' => x ← r; xs ← read_n n' r; mret (x :: xs)
  end.

(** ** Strings: a Rust [String] is its UTF-8 bytes *)
Definition str_bytes (s : string) : bytes := String.list_byte_of_string s.
Definition bytes_str (l : bytes) : string := String.string_of_list_byte l.

(** [str::len] *)
Definition str_len (s : string) : Z := Z.of_nat (String.length s).

Definition in_range (lo hi : Z) (b : byte) : bool :=
  bool_decide (lo ≤ Z_of_byte b ≤ hi).

Definition cont_byte : byte → bool := in_range 128 191.

(** [std::str::from_utf8]: well-formed byte sequences. *)
Fixpoint utf8_valid (l : bytes) : bool :=
  match l with
  | [] => true
  | b0 :: l1 =>
      if in_range 0 127 b0 then utf8_valid l1 else
      match l1 with
      | [] => false
      | b1 :: l2 =>
          if in_range 194 223 b0 then cont_byte b1 && utf8_valid l2 else
          match l2 with
          | [] => false
          | b2 :: l3 =>
              if in_range 224 239 b0 then
                (if in_range 224 224 b0 then in_range 160 191 b1
                 else if in_range 237 237 b0 then in_range 128 159 b1
                 else cont_byte b1) && cont_byte b2 && utf8_valid l3
              else
              match l3 with
              | [] => false
              | b3 :: l4 =>
                  if in_range 240 244 b0 then
                    (if in_range 240 240 b0 then in_range 144 191 b1
                     else if in_range 244 244 b0 then in_range 128 143 b1
                     else cont_byte b1)
                    && cont_byte b2 && cont_byte b3 && utf8_valid l4
                  else false
              end
          end
      end
  end.

(** [String::from_utf8] *)
Definition from_utf8 (l : bytes) : option string :=
  if utf8_valid l then Some (bytes_str l) else None.

(** ** Lemmas: bytes and integers *)
Lemma Z_of_byte_range b : 0 ≤ Z_of_byte b < 256.
Proof.
  unfold Z_of_byte. pose proof (Byte.to_N_bounded b). lia.
Qed.

Lemma byte_of_Z_of_byte b : byte_of_Z (Z_of_byte b) = b.
Proof. destruct b; vm_compute; reflexivity. Qed.

Lemma Z_of_byte_inj b c : Z_of_byte b = Z_of_byte c → b = c.
Proof. intros E. by rewrite <- (byte_of_Z_of_byte b), <- (byte_of_Z_of_byte c), E. Qed.

Lemma Z_of_byte_of_Z z : Z_of_byte (byte_of_Z z) = z mod 256.
Proof.
  unfold byte_of_Z, Z_of_byte. pose proof (Z.mod_pos_bound z 256).
  destruct (Byte.of_N _) eqn:E.
  - apply Byte.to_of_N in E. rewrite E. lia.
  - apply Byte.of_N_None_iff in E. lia.
Qed.

Lemma byte_of_Z_mod z m : (256 | m) → 0 < m → byte_of_Z (z mod m) = byte_of_Z z.
Proof.
  intros [k ->] ?. apply Z_of_byte_inj. rewrite !Z_of_byte_of_Z.
  assert (0 < k) by lia.
  rewrite (Z.mul_comm k 256), Z.rem_mul_r by lia.
  rewrite Z.mul_comm, Z_mod_plus_full. apply Zmod_mod.
Qed.

Lemma length_to_be n z : length (to_be n z) = n.
Proof. induction n; cbn [to_be length]; congruence. Qed.
Lemma zlen_to_be n z : zlen (to_be n z) = Z.of_nat n.
Proof. unfold zlen. by rewrite length_to_be. Qed.
#[export] Hint Rewrite length_to_be zlen_to_be : len.

Lemma from_be_range l : 0 ≤ from_be l < 256 ^ zlen l.
Proof.
  induction l as [|b l IH]; [done|]. cbn [from_be].
  pose proof (Z_of_byte_range b). rewrite zlen_cons, Z.pow_add_r by (auto with oxide; lia).
  pose proof (Z.pow_pos_nonneg 256 (zlen l)). pose proof (zlen_nonneg l). nia.
Qed.

Lemma from_be_to_be n z : from_be (to_be n z) = z mod 256 ^ Z.of_nat n.
Proof.
  induction n as [|n IH]; cbn [to_be from_be].
  { change (256 ^ Z.of_nat 0) with 1. by rewrite Z.mod_1_r. }
  rewrite zlen_to_be, Z_of_byte_of_Z, IH, Nat2Z.inj_succ, Z.pow_succ_r by lia.
  rewrite (Z.mul_comm 256), Z.rem_mul_r by (try apply Z.pow_nonzero; lia). lia.
Qed.

Lemma to_be_mod n m z : (n ≤ m)%nat → to_be n (z mod 256 ^ Z.of_nat m) = to_be n z.
Proof.
  revert m. induction n as [|n IH]; intros m Hm; [done|]. cbn [to_be].
  rewrite IH by lia. f_equal.
  replace (256 ^ Z.of_nat m) with (256 ^ Z.of_nat n * 256 ^ Z.of_nat (m - n)).
  2: { rewrite <- Z.pow_add_r by lia. f_equal. lia. }
  rewrite Z.rem_mul_r by (try apply Z.pow_nonzero; lia).
  rewrite Z.mul_comm, Z.div_add by (apply Z.pow_nonzero; lia).
  rewrite Z.div_small, Z.add_0_l by (apply Z.mod_pos_bound; lia).
  apply byte_of_Z_mod; [|lia]. exists (256 ^ Z.of_nat (m - n - 1)).
  rewrite Z.mul_comm, <- Z.pow_succ_r by lia. f_equal. lia.
Qed.

Lemma to_be_from_be n l : length l = n → to_be n (from_be l) = l.
Proof.
  revert n. induction l as [|b l IH]; intros n <-; [done|]. cbn [length to_be from_be].
  fold (zlen l). pose proof (from_be_range l) as Hl. f_equal.
  - rewrite Z.div_add_l by lia. rewrite (Z.div_small (from_be l)) by done.
    rewrite Z.add_0_r. apply byte_of_Z_of_byte.
  - rewrite <- (to_be_mod _ (length l)) by lia. fold (zlen l).
    rewrite Z.add_comm, Z_mod_plus_full, Z.mod_small by done. by apply IH.
Qed.

Lemma pow256 n : 256 ^ Z.of_nat n = 2 ^ (8 * Z.of_nat n).
Proof. rewrite Z.pow_mul_r by lia. done. Qed.

Lemma from_be_inj l k : length l = length k → from_be l = from_be k → l = k.
Proof.
  intros Hl E. rewrite <- (to_be_from_be _ l eq_refl), <- (to_be_from_be _ k eq_refl).
  by rewrite Hl, E.
Qed.

Lemma from_be_app l k : from_be (l ++ k) = from_be l * 256 ^ zlen k + from_be k.
Proof.
  induction l as [|b l IH]; [done|]. cbn [app from_be]. rewrite IH, zlen_app.
  rewrite Z.pow_add_r by apply zlen_nonneg. ring.
Qed.

#[global] Opaque to_be from_be.

(** ** Lemmas: cursor reads *)
Lemma get_u_app {E} n z k w : w = 8 * Z.of_nat n → in_u w z →
  get_u (E:=E) n (to_be n z ++ k) = Ok (z, k).
Proof.
  intros -> Hz. unfold get_u. lens.
  rewrite decide_False by lia.
  rewrite take_app_exact, drop_app_exact by (by lens).
  rewrite from_be_to_be, pow256. f_equal. f_equal. by apply Z.mod_small.
Qed.

Lemma get_s_app {E} n z k w : w = 8 * Z.of_nat n → (0 < n)%nat → in_s w z →
  get_s (E:=E) n (to_be n z ++ k) = Ok (z, k).
Proof.
  intros -> ? Hz. unfold get_s. lens. rewrite decide_False by lia.
  rewrite take_app_exact, drop_app_exact by (by lens).
  rewrite from_be_to_be, pow256, wrap_s_of_residue by (done || lia). done.
Qed.

Lemma take_bytes_app {E} n l k : n = zlen l →
  take_bytes (E:=E) n (l ++ k) = Ok (l, k).
Proof.
  intros ->. unfold take_bytes. lens. pose proof (zlen_nonneg k).
  rewrite decide_False by lia. unfold zlen. rewrite Nat2Z.id.
  by rewrite take_app_length, drop_app_length.
Qed.

Lemma get_u_short {E} n l : (length l < n)%nat → get_u (E:=E) n l = Panic.
Proof. intros. unfold get_u. by rewrite decide_True. Qed.

(** A successful unsigned read is the inverse of the write. *)
Lemma get_u_inv {E} n l z k : get_u (E:=E) n l = Ok (z, k) →
  l = to_be n z ++ k ∧ in_u (8 * Z.of_nat n) z.
Proof.
  unfold get_u. case_decide; [done|]. intros [= <- <-].
  assert (length (take n l) = n) as Hl by (rewrite length_take; lia). split.
  - rewrite (to_be_from_be n (take n l)) by done. by rewrite take_drop.
  - pose proof (from_be_range (take n l)) as Hr. unfold zlen in Hr.
    rewrite Hl, pow256 in Hr. done.
Qed.

Lemma get_s_inv {E} n l z k : (0 < n)%nat → get_s (E:=E) n l = Ok (z, k) →
  l = to_be n z ++ k ∧ in_s (8 * Z.of_nat n) z.
Proof.
  intros Hn. unfold get_s. case_decide; [done|]. intros [= <- <-].
  assert (length (take n l) = n) as Hl by (rewrite length_take; lia). split.
  - rewrite <- (take_drop n l) at 1. f_equal.
    apply from_be_inj; [by lens; rewrite Hl|].
    rewrite from_be_to_be, pow256. unfold wrap_s.
    rewrite Zminus_mod_idemp_l, Z.add_simpl_r.
    pose proof (from_be_range (take n l)) as Hr. unfold zlen in Hr.
    rewrite Hl, pow256 in Hr. by rewrite Z.mod_small.
  - apply wrap_s_range. lia.
Qed.

Lemma reader_bind_ok {E A B} (m : reader E A) (f : A → reader E B) l a l' :
  m l = Ok (a, l') → (m ≫= f) l = f a l'.
Proof. intros Hm. unfold mbind, reader_bind. by rewrite Hm. Qed.

(** Running a loop over the concatenation of the items' encodings. *)
Lemma read_n_concat {E A} (r : reader E A) (enc : A → bytes) (xs : list A) k :
  (∀ x l, x ∈ xs → r (enc x ++ l) = Ok (x, l)) →
  read_n (length xs) r (concat (enc <$> xs) ++ k) = Ok (xs, k).
Proof.
  intros Hr. induction xs as [|x xs IH]; [done|]. cbn [length read_n fmap list_fmap concat].
  rewrite <- app_assoc. erewrite reader_bind_ok by (apply Hr; set_solver).
  erewrite reader_bind_ok by (apply IH; intros; apply Hr; set_solver). done.
Qed.

(** ** Lemmas: strings *)
Lemma bytes_str_bytes s : bytes_str (str_bytes s) = s.
Proof. apply String.string_of_list_byte_of_string. Qed.

Lemma str_bytes_str l : str_bytes (bytes_str l) = l.
Proof. apply String.list_byte_of_string_of_list_byte. Qed.

Lemma length_str_bytes s : zlen (str_bytes s) = str_len s.
Proof.
  unfold zlen, str_len, str_bytes, String.list_byte_of_string. rewrite length_map.
  induction s; simpl; [done|]. lia.
Qed.
#[export] Hint Rewrite length_str_bytes : len.
