(* ===== verification/Crc.v ===== *)
(** * CRC32C and byte utilities

    [crates/oxidemq-core/src/bytes_util.rs]: the table-driven CRC32C, the
    aligned buffer and the byte accumulator.  The table-driven routine is
    proved equal to the bit-by-bit definition, and the checksum is proved to
    detect every corruption confined to four consecutive bytes. *)

From Stdlib Require Import Strings.Byte.
From stdpp Require Import base numbers list strings.
From S2P Require Import Prelude Bytes.

(** ** The table *)

Definition poly : Z := 0x82F63B78.

(** One iteration of the inner [while j < 8] loop. *)
Definition crc_shift (crc : Z) : Z :=
  if decide (Z.land crc 1 ≠ 0) then Z.lxor (Z.shiftr crc 1) poly
  else Z.shiftr crc 1.

Definition crc_entry (i : nat) : Z := Nat.iter 8 crc_shift (Z.of_nat i).

Definition CRC32C_TABLE : list Z := crc_entry <$> seq 0 256.

(** The body of the [for &b in data] loop.  The index is masked to a byte, so
    the table access is always in range. *)
Definition crc_step (crc : Z) (b : byte) : Z :=
  let index := Z.land (Z.lxor crc (Z_of_byte b)) 0xFF in
  Z.lxor (Z.shiftr crc 8) (nth (Z.to_nat index) CRC32C_TABLE 0).

Definition compute_crc32c (data : bytes) : Z :=
  Z.lxor (foldl crc_step 0xFFFFFFFF data) 0xFFFFFFFF.

(** ** Reference definition: polynomial division bit by bit *)
Definition crc_bits (crc : Z) (b : byte) : Z :=
  Nat.iter 8 crc_shift (Z.lxor crc (Z_of_byte b)).

#[global] Arguments crc_bits : simpl never.
#[global] Arguments crc_shift : simpl never.

Definition crc32c_ref (data : bytes) : Z :=
  Z.lxor (foldl crc_bits 0xFFFFFFFF data) 0xFFFFFFFF.

(** ** Bit-level lemmas *)
Lemma land1_testbit x : Z.land x 1 = Z.b2z (Z.testbit x 0).
Proof.
  change 1 with (Z.ones 1). rewrite Z.land_ones by lia. change (2 ^ 1) with 2.
  by rewrite Z.bit0_mod.
Qed.

Lemma crc_shift_odd x : crc_shift x =
  if Z.testbit x 0 then Z.lxor (Z.shiftr x 1) poly else Z.shiftr x 1.
Proof.
  unfold crc_shift. rewrite land1_testbit. by destruct (Z.testbit x 0).
Qed.

(** A shift step is linear over exclusive or. *)
Lemma crc_shift_lxor x y : crc_shift (Z.lxor x y) = Z.lxor (crc_shift x) (crc_shift y).
Proof.
  rewrite !crc_shift_odd, Z.lxor_spec, Z.shiftr_lxor.
  apply Z.bits_inj'. intros n Hn.
  destruct (Z.testbit x 0), (Z.testbit y 0); simpl; rewrite ?Z.lxor_spec;
    repeat match goal with |- context[Z.testbit ?a n] => destruct (Z.testbit a n) end;
    done.
Qed.

Lemma crc_shifts_lxor k x y : Nat.iter k crc_shift (Z.lxor x y) =
  Z.lxor (Nat.iter k crc_shift x) (Nat.iter k crc_shift y).
Proof. induction k as [|k IH]; simpl; [done|]. by rewrite IH, crc_shift_lxor. Qed.

Lemma crc_shifts_0 k : Nat.iter k crc_shift 0 = 0.
Proof. induction k as [|k IH]; simpl; [done|]. by rewrite IH. Qed.

(** Bits shifted in from above reach the bottom unchanged. *)
Lemma crc_shifts_shiftl k x : Nat.iter k crc_shift (Z.shiftl x (Z.of_nat k)) = x.
Proof.
  revert x. induction k as [|k IH]; intros x; [by rewrite Z.shiftl_0_r|].
  rewrite Nat.iter_succ_r, crc_shift_odd, Z.shiftl_spec_low by lia.
  rewrite Z.shiftr_shiftl_l by lia. rewrite <- (IH x) at 2. do 2 f_equal. lia.
Qed.

Lemma lxor_split8 x : x = Z.lxor (Z.land x 0xFF) (Z.shiftl (Z.shiftr x 8) 8).
Proof.
  change 0xFF with (Z.ones 8). apply Z.bits_inj'. intros n Hn.
  rewrite Z.lxor_spec, Z.land_spec, Z.testbit_ones_nonneg, Z.shiftl_spec by lia.
  destruct (Z.ltb_spec n 8).
  - rewrite (Z.testbit_neg_r _ (n - 8)) by lia. by rewrite andb_true_r, xorb_false_r.
  - rewrite Z.shiftr_spec, andb_false_r by lia. simpl. f_equal. lia.
Qed.

Lemma land_ff_range x : 0 ≤ Z.land x 0xFF < 256.
Proof. change 0xFF with (Z.ones 8). rewrite Z.land_ones by lia. by apply Z.mod_pos_bound. Qed.

Lemma crc_table_lookup i : 0 ≤ i < 256 →
  nth (Z.to_nat i) CRC32C_TABLE 0 = Nat.iter 8 crc_shift i.
Proof.
  intros Hi. unfold CRC32C_TABLE.
  rewrite (nth_indep _ 0 (crc_entry 0%nat)) by (rewrite length_fmap, length_seq; lia).
  change (crc_entry <$> seq 0 256) with (map crc_entry (seq 0 256)).
  rewrite map_nth, seq_nth by lia. unfold crc_entry. f_equal. lia.
Qed.

(** The table step is eight bit steps. *)
Lemma crc_step_bits crc b : crc_step crc b = crc_bits crc b.
Proof.
  unfold crc_step, crc_bits. set (x := Z.lxor crc (Z_of_byte b)).
  rewrite crc_table_lookup by apply land_ff_range.
  assert (Z.shiftr crc 8 = Z.shiftr x 8) as ->.
  { unfold x. rewrite Z.shiftr_lxor.
    rewrite (Z.shiftr_eq_0 (Z_of_byte b) 8), Z.lxor_0_r; [done|..].
    - apply Z_of_byte_range.
    - pose proof (Z_of_byte_range b). destruct (decide (Z_of_byte b = 0)) as [->|]; [done|].
      apply Z.log2_lt_pow2; [lia|]. apply Z_of_byte_range. }
  rewrite (lxor_split8 x) at 3. rewrite crc_shifts_lxor.
  pose proof (crc_shifts_shiftl 8 (Z.shiftr x 8)) as Hs.
  change (Z.of_nat 8) with 8 in Hs. rewrite Hs. apply Z.lxor_comm.
Qed.

Lemma foldl_crc_bits s l : foldl crc_step s l = foldl crc_bits s l.
Proof. revert s. induction l as [|b l IH]; intros s; simpl; [done|]. by rewrite crc_step_bits, IH. Qed.

Lemma crc_table_is_bitwise data : compute_crc32c data = crc32c_ref data.
Proof. unfold compute_crc32c, crc32c_ref. by rewrite foldl_crc_bits. Qed.

(** ** Error detection *)

(** The register stays a 32-bit value. *)
Lemma crc_shift_range x : in_u 32 x → in_u 32 (crc_shift x).
Proof.
  intros [Hx0 Hx]. rewrite crc_shift_odd.
  assert (0 ≤ Z.shiftr x 1 < 2 ^ 31) as Hs.
  { rewrite Z.shiftr_div_pow2 by lia. change (2 ^ 1) with 2.
    split; [apply Z.div_pos; lia|apply Z.div_lt_upper_bound; lia]. }
  destruct (Z.testbit x 0); [|unfold in_u; lia].
  assert (0 ≤ Z.lxor (Z.shiftr x 1) poly) as H0.
  { apply Z.lxor_nonneg. split; [done|lia]. }
  split; [done|].
  destruct (decide (Z.lxor (Z.shiftr x 1) poly = 0)) as [->|]; [lia|].
  apply Z.log2_lt_pow2; [lia|].
  eapply Z.le_lt_trans; [apply Z.log2_lxor; [lia|done]|].
  apply Z.max_lub_lt; [|done].
  destruct (decide (Z.shiftr x 1 = 0)) as [->|]; [done|].
  apply Z.log2_lt_pow2; lia.
Qed.

(** Bit 31 of the shifted register is the bit that was shifted out, so a step
    loses nothing. *)
Lemma crc_shift_bit31 x : in_u 32 x → Z.testbit (crc_shift x) 31 = Z.testbit x 0.
Proof.
  intros [Hx0 Hx]. rewrite crc_shift_odd.
  assert (Z.testbit (Z.shiftr x 1) 31 = false) as Hs.
  { rewrite Z.shiftr_spec by lia. destruct (decide (x = 0)) as [->|]; [done|].
    apply Z.bits_above_log2; [done|]. apply Z.log2_lt_pow2; lia. }
  destruct (Z.testbit x 0); [|done]. by rewrite Z.lxor_spec, Hs.
Qed.

Lemma crc_shift_inj x y : in_u 32 x → in_u 32 y → crc_shift x = crc_shift y → x = y.
Proof.
  intros Hx Hy E. pose proof (crc_shift_bit31 x Hx) as Bx.
  pose proof (crc_shift_bit31 y Hy) as By. rewrite <- E, Bx in By.
  rewrite !crc_shift_odd, By in E.
  assert (Z.shiftr x 1 = Z.shiftr y 1) as Es.
  { destruct (Z.testbit y 0); [|done].
    apply (f_equal (λ z, Z.lxor z poly)) in E.
    by rewrite !Z.lxor_assoc, Z.lxor_nilpotent, !Z.lxor_0_r in E. }
  apply Z.bits_inj'. intros n Hn. destruct (decide (n = 0)) as [->|]; [done|].
  apply (f_equal (λ z, Z.testbit z (n - 1))) in Es.
  rewrite !Z.shiftr_spec in Es by lia. by rewrite Z.sub_add in Es.
Qed.

Lemma crc_shifts_range k x : in_u 32 x → in_u 32 (Nat.iter k crc_shift x).
Proof. intros. induction k; simpl; auto using crc_shift_range. Qed.

Lemma crc_shifts_inj k x y : in_u 32 x → in_u 32 y →
  Nat.iter k crc_shift x = Nat.iter k crc_shift y → x = y.
Proof.
  intros. induction k as [|k IH]; simpl in *; [done|].
  apply IH. apply crc_shift_inj; auto using crc_shifts_range.
Qed.

Lemma lxor_range w x y : 0 ≤ w → in_u w x → in_u w y → in_u w (Z.lxor x y).
Proof.
  intros Hw [Hx0 Hx] [Hy0 Hy].
  assert (0 ≤ Z.lxor x y) by (apply Z.lxor_nonneg; lia). split; [done|].
  destruct (decide (Z.lxor x y = 0)) as [->|]; [by apply pow2_pos|].
  destruct (decide (x = 0)) as [->|]; [by rewrite Z.lxor_0_l|].
  destruct (decide (y = 0)) as [->|]; [by rewrite Z.lxor_0_r|].
  apply Z.log2_lt_pow2; [lia|].
  eapply Z.le_lt_trans; [by apply Z.log2_lxor|].
  apply Z.max_lub_lt; apply Z.log2_lt_pow2; lia.
Qed.

Lemma in_u_mono w w' x : 0 ≤ w ≤ w' → in_u w x → in_u w' x.
Proof.
  intros ? [??]. pose proof (Z.pow_le_mono_r 2 w w'). unfold in_u. lia.
Qed.

Lemma Z_of_byte_u32 b : in_u 32 (Z_of_byte b).
Proof. apply (in_u_mono 8); [lia|]. apply Z_of_byte_range. Qed.

Lemma crc_bits_range s b : in_u 32 s → in_u 32 (crc_bits s b).
Proof. intros. apply crc_shifts_range, lxor_range; auto using Z_of_byte_u32. lia. Qed.

Lemma crc_run_range s l : in_u 32 s → in_u 32 (foldl crc_bits s l).
Proof. revert s. induction l; simpl; auto using crc_bits_range. Qed.

Lemma lxor_cancel_r x y z : Z.lxor x z = Z.lxor y z → x = y.
Proof.
  intros E. apply (f_equal (λ u, Z.lxor u z)) in E.
  by rewrite !Z.lxor_assoc, Z.lxor_nilpotent, !Z.lxor_0_r in E.
Qed.

Lemma lxor_cancel_l x y z : Z.lxor z x = Z.lxor z y → x = y.
Proof. rewrite !(Z.lxor_comm z). apply lxor_cancel_r. Qed.

Lemma crc_bits_eq s b : crc_bits s b = Nat.iter 8 crc_shift (Z.lxor s (Z_of_byte b)).
Proof. done. Qed.

Lemma crc_bits_inj s t b : in_u 32 s → in_u 32 t → crc_bits s b = crc_bits t b → s = t.
Proof.
  intros Hs Ht E. rewrite !crc_bits_eq in E. apply (crc_shifts_inj 8) in E.
  - by apply lxor_cancel_r in E.
  - apply lxor_range; auto using Z_of_byte_u32. lia.
  - apply lxor_range; auto using Z_of_byte_u32. lia.
Qed.

(** Different registers stay different over equal data. *)
Lemma crc_run_inj l s t : in_u 32 s → in_u 32 t →
  foldl crc_bits s l = foldl crc_bits t l → s = t.
Proof.
  revert s t. induction l as [|b l IH]; intros s t Hs Ht E; [done|].
  cbn [foldl] in E. apply IH in E; auto using crc_bits_range. by apply crc_bits_inj in E.
Qed.

(** Up to four bytes enter the register as one little-endian word. *)
Fixpoint le_word (l : bytes) : Z :=
  match l with
  | [] => 0
  | b :: l' => Z.lxor (Z_of_byte b) (Z.shiftl (le_word l') 8)
  end.

Lemma le_word_range l : in_u (8 * zlen l) (le_word l).
Proof.
  induction l as [|b l IH]; [done|]. cbn [le_word].
  apply lxor_range; [lens; pose proof (zlen_nonneg l); lia|..].
  - apply (in_u_mono 8); [lens; pose proof (zlen_nonneg l); lia|apply Z_of_byte_range].
  - lens. rewrite Z.mul_add_distr_l, Z.shiftl_mul_pow2 by lia. pose proof (zlen_nonneg l).
    unfold in_u in *. rewrite Z.pow_add_r by lia. change (2 ^ (8 * 1)) with 256.
    change (2 ^ 8) with 256. nia.
Qed.

Lemma low_byte_lxor b w : Z.land (Z.lxor (Z_of_byte b) (Z.shiftl w 8)) 0xFF = Z_of_byte b.
Proof.
  change 0xFF with (Z.ones 8). transitivity (Z.land (Z_of_byte b) (Z.ones 8)).
  - apply Z.bits_inj'. intros n Hn. rewrite !Z.land_spec, Z.lxor_spec, Z.testbit_ones_nonneg by lia.
    destruct (Z.ltb_spec n 8); [|by rewrite !andb_false_r].
    by rewrite Z.shiftl_spec_low, xorb_false_r by lia.
  - rewrite Z.land_ones by lia. apply Z.mod_small, Z_of_byte_range.
Qed.

Lemma le_word_inj l k : length l = length k → le_word l = le_word k → l = k.
Proof.
  revert k. induction l as [|b l IH]; intros [|c k] Hl E; try done.
  cbn [le_word] in E. simplify_eq/=.
  assert (b = c) as ->.
  { apply Z_of_byte_inj. rewrite <- (low_byte_lxor b (le_word l)), E. apply low_byte_lxor. }
  f_equal. apply IH; [done|]. apply lxor_cancel_l in E.
  apply (f_equal (λ z, Z.shiftr z 8)) in E.
  by rewrite !Z.shiftr_shiftl_l, !Z.shiftl_0_r in E by lia.
Qed.

Lemma crc_run_word s l : 
  foldl crc_bits s l = Nat.iter (8 * length l) crc_shift (Z.lxor s (le_word l)).
Proof.
  revert s. induction l as [|b l IH]; intros s; [symmetry; apply Z.lxor_0_r|].
  cbn [foldl length le_word]. rewrite IH, crc_bits_eq.
  replace (8 * S (length l))%nat with (8 * length l + 8)%nat by lia.
  rewrite Nat.iter_add. f_equal.
  rewrite <- (Z.lxor_assoc s), (crc_shifts_lxor 8 (Z.lxor s (Z_of_byte b))). f_equal.
  pose proof (crc_shifts_shiftl 8 (le_word l)) as Hs. by change (Z.of_nat 8) with 8 in Hs.
Qed.

Lemma crc_burst_state s l k : in_u 32 s → length l = length k → (length l ≤ 4)%nat →
  foldl crc_bits s l = foldl crc_bits s k → l = k.
Proof.
  intros Hs Hlk Hl E. rewrite !crc_run_word, Hlk in E.
  assert (∀ w : bytes, (length w ≤ 4)%nat → in_u 32 (le_word w)) as Hw.
  { intros w Hw. apply (in_u_mono (8 * zlen w)); [unfold zlen; lia|apply le_word_range]. }
  apply crc_shifts_inj, lxor_cancel_l, le_word_inj in E;
    auto; apply lxor_range; auto with lia.
Qed.

Lemma compute_crc32c_range l : in_u 32 (compute_crc32c l).
Proof.
  rewrite crc_table_is_bitwise. apply lxor_range; [lia|by apply crc_run_range|done].
Qed.

(** Replacing at most four consecutive bytes by different ones changes the
    checksum. *)
Lemma crc_detects_burst pre w w' post : length w = length w' → (length w ≤ 4)%nat → w ≠ w' →
  compute_crc32c (pre ++ w ++ post) ≠ compute_crc32c (pre ++ w' ++ post).
Proof.
  intros Hl Hw Hne. rewrite !crc_table_is_bitwise. intros E. apply lxor_cancel_r in E.
  rewrite !foldl_app in E. assert (in_u 32 (foldl crc_bits 4294967295 pre)) by by apply crc_run_range.
  apply crc_run_inj in E; auto using crc_run_range. by apply crc_burst_state in E.
Qed.

(** The check value of the CRC-32C specification. *)
Example crc_check_value :
  compute_crc32c (str_bytes "123456789") = 0xE3069283.
Proof. vm_compute. reflexivity. Qed.

(** C40: the table-driven checksum is CRC-32C: for every input it equals the
    bit-at-a-time reflected division by the Castagnoli polynomial. *)
Theorem crc32c_table_correct data : compute_crc32c data = crc32c_ref data.
Proof. apply crc_table_is_bitwise. Qed.
