(* ===== verification/BytesUtil.v ===== *)
(** * Aligned buffer and byte accumulator

    The remaining containers of [crates/oxidemq-core/src/bytes_util.rs]:
    [AlignedBuffer] (the direct-I/O staging buffer), [slice_range] and
    [ByteAccumulator]. *)

From Stdlib Require Import Strings.Byte.
From stdpp Require Import base numbers list strings gmap fin_maps.
From S2P Require Import Prelude Bytes.

Definition usize_max : Z := 2 ^ 64 - 1.
Definition isize_max : Z := 2 ^ 63 - 1.

(** [usize::is_power_of_two] *)
Definition is_power_of_two (n : Z) : bool :=
  bool_decide (0 < n) && bool_decide (Z.land n (n - 1) = 0).

(** [Layout::from_size_align(size, align).is_ok()], for a power-of-two [align]. *)
Definition layout_ok (size align : Z) : bool :=
  bool_decide (size ≤ isize_max - (align - 1)).

Module AlignedBuffer.
(** The allocation ([ptr], [capacity] bytes) and the initialised length. *)
Record t := mk { memory : bytes; capacity : Z; len : Z }.

Definition DEFAULT_ALIGNMENT : Z := 4096.

Section buffer.
(** [std::alloc::alloc]: the contents of a fresh allocation are arbitrary. *)
Variable alloc : Z → bytes.

Definition new (cap alignment : Z) : res Empty_set t :=
  if negb (is_power_of_two alignment) then Panic else
  let rounded_capacity :=
    Z.land (u64 (cap + alignment - 1)) (u64 (Z.lnot (alignment - 1))) in
  if negb (layout_ok rounded_capacity alignment) then Panic else
  Ok (mk (alloc rounded_capacity) rounded_capacity 0).

Definition with_default_alignment (cap : Z) : res Empty_set t :=
  new cap DEFAULT_ALIGNMENT.
End buffer.

Definition is_empty (b : t) : bool := bool_decide (len b = 0).

Definition clear (b : t) : t := mk (memory b) (capacity b) 0.

(** Writes [data] at [ptr + len]; [false] and no change when it does not fit. *)
Definition extend_from_slice (b : t) (data : bytes) : t * bool :=
  if decide (capacity b < len b + zlen data) then (b, false)
  else
    (mk (take (Z.to_nat (len b)) (memory b) ++ data
           ++ drop (Z.to_nat (len b) + length data) (memory b))
        (capacity b) (len b + zlen data), true).

Definition set_len (b : t) (new_len : Z) : res Empty_set t :=
  if decide (new_len ≤ capacity b) then Ok (mk (memory b) (capacity b) new_len)
  else Panic.

(** [Deref]: the initialised prefix. *)
Definition deref (b : t) : bytes := take (Z.to_nat (len b)) (memory b).

Definition to_bytes (b : t) : bytes := deref b.

(** The allocation is exactly [capacity] bytes and [len] stays inside it, so
    no write or read leaves the allocation. *)
Definition wf (b : t) : Prop :=
  zlen (memory b) = capacity b ∧ 0 ≤ len b ≤ capacity b.
End AlignedBuffer.

(** [Bytes::slice(start..start + len)] *)
Definition slice_range {E} (b : bytes) (start len : Z) : res E bytes :=
  slice b start (u64 (start + len)).

Module ByteAccumulator.
Record t := mk { inner : bytes }.
Definition with_capacity (capacity : Z) : t := mk [].
Definition extend_from_slice (a : t) (slice : bytes) : t := mk (inner a ++ slice).
(** [self.inner.split().freeze()]: hands out the contents and empties the buffer. *)
Definition freeze (a : t) : t * bytes := (mk [], inner a).
Definition len (a : t) : Z := zlen (inner a).
Definition is_empty (a : t) : bool := bool_decide (inner a = []).
End ByteAccumulator.

(** ** Lemmas *)
Section aligned.
Import AlignedBuffer.

Lemma power_of_two_pow n : is_power_of_two n = true → ∃ k, 0 ≤ k ∧ n = 2 ^ k.
Proof.
  unfold is_power_of_two. rewrite andb_true_iff, !bool_decide_eq_true.
  intros [Hn Hl]. exists (Z.log2 n). split; [apply Z.log2_nonneg|].
  pose proof (Z.log2_spec n Hn) as [Hle Hlt].
  destruct (decide (n = 2 ^ Z.log2 n)) as [|Hne]; [done|exfalso].
  (* the top bit survives in both n and n-1 *)
  assert (Z.log2 (n - 1) = Z.log2 n) as Hlog.
  { apply Z.log2_unique; [apply Z.log2_nonneg|].
    pose proof (Z.pow_succ_r 2 (Z.log2 n) (Z.log2_nonneg n)). lia. }
  assert (1 < n) as Hn1.
  { destruct (decide (n = 1)) as [->|]; [done|lia]. }
  pose proof (Z.bit_log2 n Hn) as B1. pose proof (Z.bit_log2 (n - 1)) as B2.
  rewrite Hlog in B2. apply (f_equal (λ z, Z.testbit z (Z.log2 n))) in Hl.
  rewrite Z.land_spec, B1, B2, Z.bits_0 in Hl by lia. done.
Qed.

Lemma land_round_down x k : 0 ≤ k → in_u 64 x → k < 64 →
  Z.land x (u64 (Z.lnot (2 ^ k - 1))) = x - x mod 2 ^ k.
Proof.
  intros Hk Hx Hk64. rewrite <- (Z.ones_equiv k) at 1.
  unfold wrap_u. rewrite <- Z.land_ones by lia.
  rewrite (Z.land_comm (Z.lnot _)), Z.land_assoc, Z.land_ones, Z.mod_small by (done || lia).
  rewrite <- Z.ldiff_land, Z.ldiff_ones_r, Z.shiftl_mul_pow2, Z.shiftr_div_pow2 by lia.
  pose proof (pow2_pos k Hk). pose proof (Z.div_mod x (2 ^ k)). lia.
Qed.

Lemma new_capacity alloc cap al b : 0 ≤ cap → in_u 64 al → cap + al - 1 ≤ usize_max →
  new alloc cap al = Ok b →
  (al | capacity b) ∧ cap ≤ capacity b < cap + al ∧ len b = 0.
Proof.
  unfold new. intros Hc [_ Hal] Hov. destruct (is_power_of_two al) eqn:Hp; [|done].
  apply power_of_two_pow in Hp as (k & Hk & ->). pose proof (pow2_pos k Hk).
  simpl. destruct (layout_ok _ _); simpl; [|done]. intros [= <-]. simpl.
  assert (k < 64).
  { apply (Z.pow_lt_mono_r_iff 2); [lia|lia|]. unfold usize_max in Hov. lia. }
  rewrite (wrap_u_small 64 (cap + 2 ^ k - 1)) by (unfold in_u, usize_max in *; lia).
  rewrite land_round_down by (unfold in_u, usize_max in *; lia).
  pose proof (Z.mod_pos_bound (cap + 2 ^ k - 1) (2 ^ k)).
  pose proof (Z.div_mod (cap + 2 ^ k - 1) (2 ^ k)).
  split; [|lia]. exists ((cap + 2 ^ k - 1) / 2 ^ k). lia.
Qed.

Lemma extend_wf b data : wf b → wf (extend_from_slice b data).1.
Proof.
  unfold extend_from_slice, wf. intros [Hm Hl]. case_decide; simpl; [done|].
  pose proof (zlen_nonneg data). split; [|lia].
  unfold zlen in *. lens. lia.
Qed.

Lemma extend_spec b data : wf b →
  let '(b', ok) := extend_from_slice b data in
  wf b' ∧ capacity b' = capacity b ∧
  (ok = true ↔ len b + zlen data ≤ capacity b) ∧
  to_bytes b' = if ok then to_bytes b ++ data else to_bytes b.
Proof.
  intros Hwf. pose proof (extend_wf b data Hwf) as Hwf'.
  unfold extend_from_slice in *. destruct Hwf as [Hm Hl]. case_decide; simpl in *.
  { split_and!; auto. split; [done|lia]. }
  split_and!; auto; [split; [lia|done]|].
  unfold to_bytes, deref. simpl. pose proof (zlen_nonneg data).
  rewrite app_assoc, take_app_exact; [done|]. lens. unfold zlen in *. lia.
Qed.
End aligned.

(** ** The allocation behind an aligned buffer

    The raw pointer of [AlignedBuffer]: its block on the heap, from [alloc] in
    [new] to [dealloc] in [drop].  What Rust leaves undefined is an outcome of
    its own: allocating no bytes, accesses outside a live block, and freeing a
    block that is not live or with another layout. *)
Module AlignedHeap.

Record Layout := mkLayout { l_size : Z; l_align : Z }.
#[export] Instance Layout_eq_dec : EqDecision Layout.
Proof. solve_decision. Defined.

Abbreviation heap := (gmap Z (Layout * bytes)).

Inductive outcome (A : Type) := Done (a : A) | Aborts | Undefined.
Arguments Done {A} a.
Arguments Aborts {A}.
Arguments Undefined {A}.

#[export] Instance outcome_bind : MBind outcome := λ A B k m,
  match m with Done a => k a | Aborts => Aborts | Undefined => Undefined end.

(** The allocator: an address that is free and aligned and the bytes found
    there, or none when memory is exhausted. *)
Class HeapAlloc := {
  place : Layout → heap → option (Z * bytes);
  place_fresh l h a m : place l h = Some (a, m) → h !! a = None;
  place_aligned l h a m : place l h = Some (a, m) → 0 < a ∧ (l_align l | a) ∧ zlen m = l_size l }.

Record t := mk { ptr : Z; layout : Layout; capacity : Z; len : Z }.

Section ops.
Context `{HeapAlloc}.

Definition heap_alloc (l : Layout) (h : heap) : outcome (option Z * heap) :=
  if decide (l_size l = 0) then Undefined else
  match place l h with
  | Some (a, m) => Done (Some a, <[a := (l, m)]> h)
  | None => Done (None, h)
  end.

Definition heap_dealloc (a : Z) (l : Layout) (h : heap) : outcome heap :=
  match h !! a with
  | Some (l', _) => if decide (l' = l) then Done (delete a h) else Undefined
  | None => Undefined
  end.

(** [copy_nonoverlapping(src, a + i, src.len())] *)
Definition heap_write (a i : Z) (src : bytes) (h : heap) : outcome heap :=
  match h !! a with
  | Some (l, m) =>
      if decide (0 ≤ i ∧ i + zlen src ≤ zlen m)
      then Done (<[a := (l, take (Z.to_nat i) m ++ src ++ drop (Z.to_nat i + length src) m)]> h) else Undefined
  | None => Undefined
  end.

(** [from_raw_parts(a, n)] *)
Definition heap_read (a n : Z) (h : heap) : outcome bytes :=
  match h !! a with
  | Some (_, m) => if decide (0 ≤ n ≤ zlen m) then Done (take (Z.to_nat n) m) else Undefined
  | None => Undefined
  end.

Definition new (cap alignment : Z) (h : heap) : outcome (t * heap) :=
  if negb (is_power_of_two alignment) then Aborts else
  let rounded_capacity := Z.land (u64 (cap + alignment - 1)) (u64 (Z.lnot (alignment - 1))) in
  if negb (layout_ok rounded_capacity alignment) then Aborts else
  let layout := mkLayout rounded_capacity alignment in
  '(a, h) ← heap_alloc layout h;
  match a with
  | Some a => Done (mk a layout rounded_capacity 0, h)
  | None => Aborts
  end.

Definition clear (b : t) : t := mk (ptr b) (layout b) (capacity b) 0.

Definition extend_from_slice (data : bytes) (b : t) (h : heap) : outcome (bool * t * heap) :=
  if decide (len b + zlen data > capacity b) then Done (false, b, h) else
  h ← heap_write (ptr b) (len b) data h;
  Done (true, mk (ptr b) (layout b) (capacity b) (len b + zlen data), h).

Definition set_len (new_len : Z) (b : t) : outcome t :=
  if decide (new_len ≤ capacity b) then Done (mk (ptr b) (layout b) (capacity b) new_len) else Aborts.

Definition deref (b : t) (h : heap) : outcome bytes := heap_read (ptr b) (len b) h.

Definition drop (b : t) (h : heap) : outcome heap := heap_dealloc (ptr b) (layout b) h.

(** What a caller does with a buffer between [new] and [drop]. *)
Inductive use := UExtend (data : bytes) | USetLen (new_len : Z) | UClear | UDeref.

Definition use_run (u : use) (b : t) (h : heap) : outcome (t * heap) :=
  match u with
  | UExtend data => '(_, b, h) ← extend_from_slice data b h; Done (b, h)
  | USetLen n => b ← set_len n b; Done (b, h)
  | UClear => Done (clear b, h)
  | UDeref => _ ← deref b h; Done (b, h)
  end.

Fixpoint uses_run (us : list use) (b : t) (h : heap) : outcome (t * heap) :=
  match us with
  | [] => Done (b, h)
  | u :: us => '(b, h) ← use_run u b h; uses_run us b h
  end.

Definition lifetime (cap alignment : Z) (us : list use) (h : heap) : outcome heap :=
  '(b, h) ← new cap alignment h;
  '(b, h) ← uses_run us b h;
  drop b h.

(** The buffer owns one block of [h1], and the rest is [h]. *)
Record owns (h : heap) (b : t) (h1 : heap) : Prop := {
  ow_free : h !! ptr b = None;
  ow_block : ∃ m, h1 = <[ptr b := (layout b, m)]> h ∧ zlen m = capacity b;
  ow_len : 0 ≤ len b ≤ capacity b }.

(** A caller passes lengths that are unsigned. *)
Definition use_ok (u : use) : Prop := match u with USetLen n => 0 ≤ n | _ => True end.

Lemma use_run_owns h u b h1 : use_ok u → owns h b h1 →
  match use_run u b h1 with Done (b', h1') => owns h b' h1' | Aborts => True | Undefined => False end.
Proof.
  intros Hu [Hf (m & -> & Hm) Hl]. destruct u as [data|n| |]; cbn [use_run].
  - unfold extend_from_slice. case_decide; [cbn; split; [done|eauto|done]|]. unfold heap_write. rewrite lookup_insert_eq.
    pose proof (zlen_nonneg data). rewrite decide_True by lia. cbn. split; cbn; [done| |lia].
    eexists. rewrite insert_insert_eq. split; [done|]. unfold zlen in *. lens. lia.
  - unfold set_len. case_decide; cbn; [|done]. split; cbn; [done|eauto|]. cbn in Hu. lia.
  - split; cbn; [done|eauto|lia].
  - unfold deref, heap_read. rewrite lookup_insert_eq, decide_True by lia. cbn. split; [done|eauto|done].
Qed.

Lemma uses_run_owns h us b h1 : Forall use_ok us → owns h b h1 →
  match uses_run us b h1 with Done (b', h1') => owns h b' h1' | Aborts => True | Undefined => False end.
Proof.
  intros Hu. revert b h1. induction Hu as [|u us Hu _ IH]; intros b h1 Hb; cbn [uses_run]; [done|].
  pose proof (use_run_owns h u b h1 Hu Hb) as H1. destruct (use_run u b h1) as [[b' h']| |]; [|done..]. by apply IH.
Qed.

(** Aligned buffers are memory-safe.  Allocate a buffer of at least one byte that
    the address space can hold, use it in any way and drop it: nothing undefined
    happens, and unless the process aborts the heap is the one from before, with
    the block freed exactly once and under the layout it was allocated with. *)
Theorem aligned_buffer_memory_safe cap alignment us h :
  0 < cap → in_u 64 alignment → cap + alignment - 1 ≤ usize_max → Forall use_ok us →
  match lifetime cap alignment us h with Done h' => h' = h | Aborts => True | Undefined => False end.
Proof.
  intros Hc Ha Hov Hu. unfold lifetime, new.
  destruct (is_power_of_two alignment) eqn:Hp; cbn [negb]; [|done].
  destruct (layout_ok _ _) eqn:Hl; cbn [negb]; [|done].
  set (rc := Z.land _ _) in *.
  assert (0 < rc) as Hrc.
  { destruct (new_capacity (λ n, replicate (Z.to_nat n) x00) cap alignment
      (AlignedBuffer.mk (replicate (Z.to_nat rc) x00) rc 0)) as (_ & Hle & _); [lia|done|done| |cbn in Hle; lia].
    unfold AlignedBuffer.new. rewrite Hp. cbn [negb]. fold rc. by rewrite Hl. }
  unfold heap_alloc. cbn [l_size]. rewrite decide_False by lia.
  destruct (place _ h) as [[a m]|] eqn:E; [|done]. cbn [mbind outcome_bind].
  assert (owns h (mk a (mkLayout rc alignment) rc 0) (<[a := (mkLayout rc alignment, m)]> h)) as Hown.
  { split; cbn; [by eapply place_fresh| |lia]. exists m. split; [done|]. by apply place_aligned in E as (_ & _ & ?). }
  pose proof (uses_run_owns h us _ _ Hu Hown) as H1.
  destruct (uses_run us _ _) as [[b' h']| |]; [|done..]. cbn [mbind outcome_bind].
  destruct H1 as [Hf (m' & -> & _) _]. unfold drop, heap_dealloc. rewrite lookup_insert_eq, decide_True by done.
  by rewrite delete_insert_id.
Qed.

(** A buffer of no bytes asks the allocator for a block of size zero, which is
    undefined behaviour of a safe function. *)
Theorem empty_buffer_undefined h : new 0 4096 h = Undefined.
Proof. reflexivity. Qed.
End ops.

(** A bump allocator. *)
Definition top (h : heap) : Z := foldr Z.max 0 (map_to_list h).*1.

Lemma top_above h a x : h !! a = Some x → a ≤ top h.
Proof.
  intros Ha. apply elem_of_map_to_list in Ha. unfold top.
  assert (a ∈ (map_to_list h).*1) as Hin by (apply list_elem_of_fmap; by exists (a, x)).
  revert Hin. generalize (map_to_list h).*1. induction l as [|y l IH]; [by intros ?%not_elem_of_nil|].
  intros [->|Hin]%elem_of_cons; cbn; [lia|]. apply IH in Hin. lia.
Qed.

Lemma top_nonneg h : 0 ≤ top h.
Proof. unfold top. induction (map_to_list h).*1; cbn; lia. Qed.

#[local] Instance bump : HeapAlloc.
Proof.
  refine {| place l h := if decide (0 < l_align l ∧ 0 ≤ l_size l)
              then Some ((top h / l_align l + 1) * l_align l, replicate (Z.to_nat (l_size l)) x00) else None |}.
  - intros l h a m. case_decide as Hl; [|done]. intros [= <- <-].
    destruct (h !! _) as [x|] eqn:E; [|done]. apply top_above in E.
    pose proof (Z.mod_pos_bound (top h) (l_align l)). pose proof (Z.div_mod (top h) (l_align l)). lia.
  - intros l h a m. case_decide as Hl; [|done]. intros [= <- <-]. pose proof (top_nonneg h).
    pose proof (Z.div_pos (top h) (l_align l)). split_and!; [nia|by exists (top h / l_align l + 1)|].
    unfold zlen. rewrite length_replicate. lia.
Defined.

Lemma aligned_buffer_memory_safe_witness :
  match lifetime 100 4096 [UExtend [x61; x62]; UDeref; USetLen 3000; UExtend (replicate 2000 x00); UClear] ∅ with
  | Done h' => h' = ∅
  | Aborts => True
  | Undefined => False
  end.
Proof.
  apply (aligned_buffer_memory_safe 100 4096); [lia|unfold in_u; lia|unfold usize_max; lia|].
  repeat constructor; cbn; lia.
Defined.
End AlignedHeap.
