(* ===== verification/CoreTypes.v ===== *)
(** * Shared types

    [crates/oxidemq-core/src/types.rs] and [error.rs]: the error type,
    topic-partitions, compression codecs, records and record batches. *)

From Stdlib Require Import Strings.Byte.
From stdpp Require Import base numbers list gmap strings pretty countable.
From S2P Require Import Prelude Bytes.

(** ** Formatting integers *)

(** [{}] of an integer *)
Definition dec (z : Z) : string := pretty z.

Fixpoint zeros (n : nat) : string :=
  match n with O => "" | S n' => "0" +:+ zeros n' end.

Definition pad0 (w : nat) (s : string) : string :=
  zeros (w - String.length s) +:+ s.

(** [{:0w}] of an integer: sign first, then zeros. *)
Definition dec0 (w : nat) (z : Z) : string :=
  if decide (z < 0) then "-" +:+ pad0 (w - 1) (dec (- z)) else pad0 w (dec z).

Definition hex_digit (d : Z) : string :=
  match d with
  | 0 => "0" | 1 => "1" | 2 => "2" | 3 => "3" | 4 => "4" | 5 => "5" | 6 => "6"
  | 7 => "7" | 8 => "8" | 9 => "9" | 10 => "A" | 11 => "B" | 12 => "C" | 13 => "D"
  | 14 => "E" | _ => "F"
  end.

(** [{:08X}] of a [u32] *)
Fixpoint hex0 (w : nat) (z : Z) : string :=
  match w with
  | O => ""
  | S w' => hex0 w' (z / 16) +:+ hex_digit (z mod 16)
  end.

(** ** Errors *)
Inductive OxideMqError : Type :=
| EIo (msg : string)
| ESerialization (msg : string)
| ECorruptedRecord (expected_crc actual_crc : Z)
| EInvalidOffset (requested min max : Z)
| EStreamNotFound (id : Z)
| ETopicNotFound (topic : string)
| EPartitionNotFound (topic : string) (partition : Z)
| EStorage (msg : string)
| EWal (msg : string)
| EProtocol (msg : string)
| ECompression (msg : string)
| EConfiguration (msg : string)
| EChaosInjected (msg : string)
| EInternal (msg : string).

(** The [Display] implementation derived from the [#[error(...)]] attributes. *)
Definition error_to_string (e : OxideMqError) : string :=
  match e with
  | EIo m => "I/O error: " +:+ m
  | ESerialization m => "Serialization error: " +:+ m
  | ECorruptedRecord x a =>
      "Record corrupted: expected CRC 0x" +:+ hex0 8 x +:+ ", found 0x" +:+ hex0 8 a
  | EInvalidOffset r lo hi =>
      "Invalid offset: requested " +:+ dec r +:+ ", valid range [" +:+ dec lo
        +:+ ", " +:+ dec hi +:+ "]"
  | EStreamNotFound i => "Stream not found: ID " +:+ dec i
  | ETopicNotFound t => "Topic not found: " +:+ t
  | EPartitionNotFound t p =>
      "Partition not found: topic '" +:+ t +:+ "', partition " +:+ dec p
  | EStorage m => "Storage engine error: " +:+ m
  | EWal m => "WAL error: " +:+ m
  | EProtocol m => "Protocol error: " +:+ m
  | ECompression m => "Compression error: " +:+ m
  | EConfiguration m => "Configuration error: " +:+ m
  | EChaosInjected m => "Chaos injected failure: " +:+ m
  | EInternal m => "Internal error: " +:+ m
  end.

Abbreviation result := (res OxideMqError).

(** ** Topic partitions *)
Record TopicPartition := mkTP { tp_topic : string; tp_partition : Z }.

#[export] Instance TopicPartition_eq_dec : EqDecision TopicPartition.
Proof. solve_decision. Defined.
#[export] Instance TopicPartition_countable : Countable TopicPartition.
Proof.
  refine (inj_countable' (λ tp, (tp_topic tp, tp_partition tp))
            (λ p, mkTP p.1 p.2) _). by intros [].
Defined.

(** [Display] of a stream id and of a topic partition. *)
Definition StreamId_display (id : Z) : string := "stream-" +:+ dec id.
Definition TopicPartition_display (tp : TopicPartition) : string :=
  tp_topic tp +:+ "-" +:+ dec (tp_partition tp).

(** ** Compression codecs *)
Inductive CompressionCodec := CNone | Gzip | Snappy | Lz4 | Zstd.

#[export] Instance CompressionCodec_eq_dec : EqDecision CompressionCodec.
Proof. solve_decision. Defined.

Definition from_attributes (attributes : Z) : CompressionCodec :=
  match Z.land attributes 0x07 with
  | 1 => Gzip
  | 2 => Snappy
  | 3 => Lz4
  | 4 => Zstd
  | _ => CNone
  end.

Definition to_attributes (c : CompressionCodec) : Z :=
  match c with CNone => 0 | Gzip => 1 | Snappy => 2 | Lz4 => 3 | Zstd => 4 end.

(** A streaming encoder can fail in [write_all] or in [finish]. *)
Inductive encode_error := EncWrite (msg : string) | EncFinish (msg : string).

(** The compression crates (flate2, snap, lz4_flex, zstd), as the codec calls
    them; [inl] carries the crate's error text. *)
Class CompressionLib := {
  gzip_encode : bytes → encode_error + bytes;
  gzip_decode : bytes → string + bytes;
  snappy_raw_encode : bytes → string + bytes;
  snappy_raw_decode : bytes → string + bytes;
  snappy_frame_decode : bytes → string + bytes;
  lz4_frame_encode : bytes → encode_error + bytes;
  lz4_frame_decode : bytes → string + bytes;
  lz4_block_decode : bytes → string + bytes;
  zstd_encode_all : bytes → string + bytes;
  zstd_decode_all : bytes → string + bytes }.

Definition map_err_str {A} (prefix : string) (r : string + A) : result A :=
  match r with
  | inl e => Err (ECompression (prefix +:+ e))
  | inr a => Ok a
  end.

Definition map_err_enc {A} (name : string) (r : encode_error + A) : result A :=
  match r with
  | inl (EncWrite e) => Err (ECompression (name +:+ " compress error: " +:+ e))
  | inl (EncFinish e) => Err (ECompression (name +:+ " finish error: " +:+ e))
  | inr a => Ok a
  end.

Definition starts_with (data prefix : bytes) : bool :=
  bool_decide (take (length prefix) data = prefix).

(** [b"\xff\x06\x00\x00sNaPpY"], the Snappy framing stream identifier. *)
Definition snappy_frame_id : bytes :=
  [xff; x06; x00; x00] ++ str_bytes "sNaPpY".

(** The LZ4 frame magic number. *)
Definition lz4_frame_id : bytes := [x04; x22; x4d; x18].

Section codec.
Context `{CompressionLib}.

Definition compress (c : CompressionCodec) (data : bytes) : result bytes :=
  match c with
  | CNone => Ok data
  | Gzip => map_err_enc "Gzip" (gzip_encode data)
  | Snappy => map_err_str "Snappy compress error: " (snappy_raw_encode data)
  | Lz4 => map_err_enc "LZ4" (lz4_frame_encode data)
  | Zstd => map_err_str "Zstd compress error: " (zstd_encode_all data)
  end.

Definition decompress (c : CompressionCodec) (data : bytes) : result bytes :=
  match c with
  | CNone => Ok data
  | Gzip => map_err_str "Gzip decompress error: " (gzip_decode data)
  | Snappy =>
      if starts_with data snappy_frame_id
      then map_err_str "Snappy framed decompress error: " (snappy_frame_decode data)
      else map_err_str "Snappy raw decompress error: " (snappy_raw_decode data)
  | Lz4 =>
      if starts_with data lz4_frame_id
      then map_err_str "LZ4 frame decompress error: " (lz4_frame_decode data)
      else map_err_str "LZ4 block decompress error: " (lz4_block_decode data)
  | Zstd => map_err_str "Zstd decompress error: " (zstd_decode_all data)
  end.
End codec.

(** What the codec relies on: each crate's decoder inverts its encoder, an LZ4
    frame starts with the frame magic, and the raw Snappy format (a varint
    length followed by tagged elements) never starts with the framing
    identifier. *)
Class CompressionLaws `{CompressionLib} : Prop := {
  gzip_inverse : ∀ d x, gzip_encode d = inr x → gzip_decode x = inr d;
  snappy_inverse : ∀ d x, snappy_raw_encode d = inr x → snappy_raw_decode x = inr d;
  snappy_raw_unframed : ∀ d x, snappy_raw_encode d = inr x →
    starts_with x snappy_frame_id = false;
  lz4_inverse : ∀ d x, lz4_frame_encode d = inr x → lz4_frame_decode x = inr d;
  lz4_framed : ∀ d x, lz4_frame_encode d = inr x → starts_with x lz4_frame_id = true;
  zstd_inverse : ∀ d x, zstd_encode_all d = inr x → zstd_decode_all x = inr d }.

(** ** Records *)
Record RecordHeader := mkHeader { hdr_key : string; hdr_value : bytes }.

Record Record' := mkRecord {
  rec_offset : Z;
  rec_timestamp : Z;
  rec_key : option bytes;
  rec_value : option bytes;
  rec_headers : list RecordHeader }.

#[export] Instance RecordHeader_eq_dec : EqDecision RecordHeader.
Proof. solve_decision. Defined.
#[export] Instance Record_eq_dec : EqDecision Record'.
Proof. solve_decision. Defined.

Definition Record_new (offset timestamp : Z) (key value : option bytes) : Record' :=
  mkRecord offset timestamp key value [].

Definition opt_len (o : option bytes) : Z :=
  match o with Some k => zlen k | None => 0 end.

Definition Record_size_in_bytes (r : Record') : Z :=
  let headers_len :=
    foldr Z.add 0 ((λ h, str_len (hdr_key h) + zlen (hdr_value h) + 8) <$> rec_headers r) in
  16 + opt_len (rec_key r) + opt_len (rec_value r) + headers_len.

(** ** Record batches *)
Record RecordBatch := mkBatch {
  base_offset : Z;
  partition_leader_epoch : Z;
  magic : Z;
  crc : Z;
  attributes : Z;
  last_offset_delta : Z;
  base_timestamp : Z;
  max_timestamp : Z;
  producer_id : Z;
  producer_epoch : Z;
  base_sequence : Z;
  records : list Record';
  raw_bytes : bytes }.

(** [now] is the clock reading [chrono::Utc::now().timestamp_millis()]. *)
Definition RecordBatch_new (now base_off : Z) (recs : list Record') (raw : bytes) : RecordBatch :=
  let lod := match recs with [] => 0 | _ => i32 (zlen recs - 1) end in
  mkBatch base_off 0 2 0 0 lod now now (-1) (-1) (-1) recs raw.

Definition RecordBatch_count (b : RecordBatch) : Z := zlen (records b).
Definition RecordBatch_is_empty (b : RecordBatch) : bool := bool_decide (records b = []).
Definition last_offset (b : RecordBatch) : Z := i64 (base_offset b + last_offset_delta b).
Definition RecordBatch_size_in_bytes (b : RecordBatch) : Z := zlen (raw_bytes b).

Definition is_transactional (b : RecordBatch) : bool :=
  bool_decide (Z.land (attributes b) 0x0010 ≠ 0).
Definition is_control_batch (b : RecordBatch) : bool :=
  bool_decide (Z.land (attributes b) 0x0020 ≠ 0).

(** The type field of the first record's control key: bytes 2 and 3. *)
Definition control_key_is (b : RecordBatch) (ty : byte) : bool :=
  if negb (is_control_batch b) then false else
  match records b with
  | [] => false
  | r :: _ =>
      match rec_key r with
      | Some key =>
          bool_decide (4 ≤ zlen key) &&
          bool_decide (key !! 2%nat = Some x00) && bool_decide (key !! 3%nat = Some ty)
      | None => false
      end
  end.

Definition is_commit_control (b : RecordBatch) : bool := control_key_is b x01.
Definition is_abort_control (b : RecordBatch) : bool := control_key_is b x00.

Definition new_control_batch (now base_off pid epoch : Z) (is_commit : bool) : RecordBatch :=
  let control_type := if is_commit then 1 else 0 in
  let key := put_16 0 ++ put_16 control_type in
  let record := mkRecord base_off now (Some key) (Some []) [] in
  mkBatch base_off 0 2 0 0x0030 0 now now pid epoch (-1) [record] [].

(** ** Lemmas *)
Lemma codec_attributes_roundtrip c : from_attributes (to_attributes c) = c.
Proof. by destruct c. Qed.

Lemma codec_roundtrip_gen `{CompressionLaws} c d x :
  compress c d = Ok x → decompress c x = Ok d.
Proof.
  destruct c; simpl; unfold map_err_str, map_err_enc; intros E.
  - congruence.
  - destruct (gzip_encode d) as [[]|] eqn:Hc; [done..|]. inv_res. by rewrite (gzip_inverse _ _ Hc).
  - destruct (snappy_raw_encode d) eqn:Hc; [done|]. inv_res.
    by rewrite (snappy_raw_unframed _ _ Hc), (snappy_inverse _ _ Hc).
  - destruct (lz4_frame_encode d) as [[]|] eqn:Hc; [done..|]. inv_res.
    by rewrite (lz4_framed _ _ Hc), (lz4_inverse _ _ Hc).
  - destruct (zstd_encode_all d) eqn:Hc; [done|]. inv_res. by rewrite (zstd_inverse _ _ Hc).
Qed.

Lemma control_batch_kind now off pid ep c :
  is_control_batch (new_control_batch now off pid ep c) = true ∧
  is_transactional (new_control_batch now off pid ep c) = true ∧
  is_commit_control (new_control_batch now off pid ep c) = c ∧
  is_abort_control (new_control_batch now off pid ep c) = negb c.
Proof. by destruct c. Qed.

(** For every codec the broker supports, decompressing what was compressed
    gives the original bytes (the Snappy and LZ4 branches of [decompress] pick
    the decoder that matches what [compress] wrote). *)
Theorem compression_roundtrip `{CompressionLaws} c d x :
  compress c d = Ok x → decompress c x = Ok d.
Proof. apply codec_roundtrip_gen. Qed.

(** Codecs that store the bytes behind a marker: an instance for evaluation. *)
#[local] Instance stored_lib : CompressionLib := {|
  gzip_encode := inr; gzip_decode := inr;
  snappy_raw_encode d := inr (x00 :: d);
  snappy_raw_decode d := match d with _ :: d' => inr d' | [] => inl "empty" end;
  snappy_frame_decode := inr;
  lz4_frame_encode d := inr (lz4_frame_id ++ d);
  lz4_frame_decode d := inr (drop 4 d);
  lz4_block_decode := inr;
  zstd_encode_all := inr; zstd_decode_all := inr |}.

#[local] Instance stored_laws : CompressionLaws.
Proof.
  split; simpl; try (by intros ? ? [= <-]).
  all: intros d x [= <-]; unfold starts_with; try done.
  all: by destruct d as [|? [|? [|? [|? [|? [|? [|? [|? [|??]]]]]]]]].
Qed.

Lemma compression_roundtrip_witness :
  ∃ x, compress Lz4 [x01; x02] = Ok x ∧ decompress Lz4 x = Ok [x01; x02].
Proof.
  exists (lz4_frame_id ++ [x01; x02]). split; [reflexivity|].
  apply (compression_roundtrip Lz4 [x01; x02]). reflexivity.
Defined.
