(* ===== verification/WalFrame.v ===== *)
(** * WAL frames

    [crates/oxidemq-wal/src/frame.rs]: the on-disk framing of a write-ahead
    log record, magic, CRC32C, sequence number, stream, offset and payload. *)

From Stdlib Require Import Strings.Byte.
From stdpp Require Import base numbers list strings.
From S2P Require Import Prelude Bytes Crc CoreTypes.

Definition WAL_MAGIC : Z := 0x5F57414C.
Definition HEADER_SIZE : Z := 36.

Record WalRecord := mkWal {
  seq : Z;
  stream_id : Z;
  offset : Z;
  payload : bytes }.

#[export] Instance WalRecord_eq_dec : EqDecision WalRecord.
Proof. solve_decision. Defined.

(** [WalRecord::encode]: appends the frame to [dst]; the checksum is written
    over a placeholder once the body is in the buffer. *)
Definition encode {E} (r : WalRecord) (dst : bytes) : res E bytes :=
  let payload_len := u32 (zlen (payload r)) in
  let dst := dst ++ put_32 WAL_MAGIC in
  let crc_pos := zlen dst in
  let dst := dst ++ put_32 0 in
  let body_start := zlen dst in
  let dst := dst ++ put_64 (seq r) in
  let dst := dst ++ put_64 (stream_id r) in
  let dst := dst ++ put_64 (offset r) in
  let dst := dst ++ put_32 payload_len in
  let dst := dst ++ payload r in
  body ← slice dst body_start (zlen dst);
  let crc := compute_crc32c body in
  copy_at dst crc_pos (to_be 4 crc).

(** The fields read by [decode] through the cursor, before the length check. *)
Definition decode_header : reader OxideMqError (Z * Z * Z * Z * Z) :=
  magic ← get_u32;
  if decide (magic ≠ WAL_MAGIC) then
    fail (EStorage ("Invalid WAL magic byte: expected 0x" +:+ hex0 8 WAL_MAGIC
                      +:+ ", found 0x" +:+ hex0 8 magic))
  else
  expected_crc ← get_u32;
  seq ← get_u64;
  stream_id ← get_u64;
  offset ← get_i64;
  payload_len ← get_u32;
  mret (expected_crc, seq, stream_id, offset, payload_len).

(** [WalRecord::decode]: [Ok None] asks for more data, [Err] reports
    corruption. *)
Definition decode (src : bytes) : result (option (WalRecord * Z)) :=
  if decide (zlen src < HEADER_SIZE) then Ok None else
  match decode_header src with
  | Err e => Err e
  | Panic => Panic
  | Ok ((expected_crc, seq, stream_id, offset, payload_len), _) =>
      let body_start_offset := 8 in
      let total_record_len := HEADER_SIZE + payload_len in
      if decide (zlen src < total_record_len) then Ok None else
      body_bytes ← slice src body_start_offset total_record_len;
      let actual_crc := compute_crc32c body_bytes in
      if decide (actual_crc ≠ expected_crc)
      then Err (ECorruptedRecord expected_crc actual_crc)
      else
        payload ← slice src HEADER_SIZE total_record_len;
        Ok (Some (mkWal seq stream_id offset payload, total_record_len))
  end.

(** ** The frame as a closed expression *)
Definition body (r : WalRecord) : bytes :=
  put_64 (seq r) ++ put_64 (stream_id r) ++ put_64 (offset r)
    ++ put_32 (zlen (payload r)) ++ payload r.

Definition frame (r : WalRecord) : bytes :=
  put_32 WAL_MAGIC ++ put_32 (compute_crc32c (body r)) ++ body r.

(** The ranges of the Rust fields; a payload of 4 GiB or more would overflow
    its [u32] length field. *)
Definition wf (r : WalRecord) : Prop :=
  in_u 64 (seq r) ∧ in_u 64 (stream_id r) ∧ in_s 64 (offset r) ∧ in_u 32 (zlen (payload r)).

#[export] Instance wf_dec r : Decision (wf r).
Proof. unfold wf. apply _. Defined.

Lemma zlen_body r : zlen (body r) = 28 + zlen (payload r).
Proof. unfold body. lens. lia. Qed.
Lemma zlen_frame r : zlen (frame r) = HEADER_SIZE + zlen (payload r).
Proof. unfold frame, HEADER_SIZE. lens. rewrite zlen_body. lia. Qed.
#[export] Hint Rewrite zlen_body zlen_frame : len.

Lemma slice_app {E} (l m k : bytes) s t : s = zlen l → t = zlen l + zlen m →
  slice (E:=E) (l ++ m ++ k) s t = Ok m.
Proof.
  intros -> ->. unfold slice. rewrite decide_True.
  2: { lens. pose proof (zlen_nonneg l). pose proof (zlen_nonneg m).
       pose proof (zlen_nonneg k). lia. }
  unfold zlen. rewrite Nat2Z.id, drop_app_length.
  by rewrite take_app_exact by lia.
Qed.

Lemma slice_app_end {E} (l m : bytes) s t : s = zlen l → t = zlen l + zlen m →
  slice (E:=E) (l ++ m) s t = Ok m.
Proof. intros. rewrite <- (app_nil_r m) at 1. by apply slice_app. Qed.

Lemma copy_at_app {E} (l m k src : bytes) s : s = zlen l → zlen src = zlen m →
  copy_at (E:=E) (l ++ m ++ k) s src = Ok (l ++ src ++ k).
Proof.
  intros -> Hs. unfold copy_at. rewrite decide_True.
  2: { lens. pose proof (zlen_nonneg l). pose proof (zlen_nonneg k). lia. }
  unfold zlen in *. rewrite Nat2Z.id, take_app_length.
  rewrite drop_app_add. replace (length src) with (length m) by lia.
  by rewrite drop_app_length.
Qed.

(** The code's [encode] appends exactly the frame. *)
Lemma encode_frame {E} r dst : in_u 32 (zlen (payload r)) →
  encode (E:=E) r dst = Ok (dst ++ frame r).
Proof.
  intros Hp. unfold encode. rewrite wrap_u_small by done.
  rewrite <- !app_assoc. rewrite (app_assoc dst (put_32 WAL_MAGIC)).
  rewrite (app_assoc (dst ++ _) (put_32 0)) at 1.
  rewrite slice_app_end by (lens; lia). simpl.
  rewrite copy_at_app by (lens; done). unfold frame. by rewrite <- !app_assoc.
Qed.

(** ** Decoding *)

(** The 36 header bytes with checksum [c]. *)
Definition header (c : Z) (r : WalRecord) : bytes :=
  put_32 WAL_MAGIC ++ put_32 c ++ put_64 (seq r) ++ put_64 (stream_id r)
    ++ put_64 (offset r) ++ put_32 (zlen (payload r)).

Lemma zlen_header c r : zlen (header c r) = HEADER_SIZE.
Proof. unfold header, HEADER_SIZE. by lens. Qed.
#[export] Hint Rewrite zlen_header : len.

Lemma frame_header r : frame r = header (compute_crc32c (body r)) r ++ payload r.
Proof. unfold frame, header, body. by rewrite <- !app_assoc. Qed.

Lemma header_body c r : header c r ++ payload r = put_32 WAL_MAGIC ++ put_32 c ++ body r.
Proof. unfold header, body. by rewrite <- !app_assoc. Qed.

(** Read back fixed-width fields one after another. *)
Ltac read_fields :=
  repeat first
    [ erewrite reader_bind_ok by (eapply get_u_app; [reflexivity|done])
    | erewrite reader_bind_ok by (eapply get_s_app; [reflexivity|lia|done]) ].

Lemma decode_header_ok c r k : in_u 32 c → wf r →
  decode_header (header c r ++ k) =
    Ok ((c, seq r, stream_id r, offset r, zlen (payload r)), k).
Proof.
  intros Hc (?&?&?&?). unfold decode_header, header. rewrite <- !app_assoc.
  erewrite reader_bind_ok by (eapply get_u_app; [reflexivity|done]).
  rewrite decide_False by auto. by read_fields.
Qed.

(** What [decode] does once a whole frame is present. *)
Lemma decode_complete c r k : in_u 32 c → wf r →
  decode (header c r ++ payload r ++ k) =
    if decide (compute_crc32c (body r) ≠ c)
    then Err (ECorruptedRecord c (compute_crc32c (body r)))
    else Ok (Some (r, zlen (frame r))).
Proof.
  intros Hc Hwf. unfold decode. pose proof (zlen_nonneg (payload r)). pose proof (zlen_nonneg k).
  rewrite decide_False by (lens; lia). rewrite decode_header_ok by done.
  rewrite decide_False by (lens; lia).
  rewrite (app_assoc (header c r)), header_body, <- !app_assoc.
  rewrite (app_assoc (put_32 WAL_MAGIC)), (slice_app (_ ++ _) (body r) _ 8) by (lens; unfold HEADER_SIZE; lia).
  cbn [mbind res_bind]. case_decide; [done|].
  rewrite <- (app_assoc (put_32 WAL_MAGIC)), (app_assoc (put_32 c)), (app_assoc (put_32 WAL_MAGIC)), <- header_body.
  rewrite <- app_assoc, slice_app by (by lens). cbn [mbind res_bind]. rewrite zlen_frame.
  by destruct r.
Qed.

Lemma decode_frame r k : wf r → decode (frame r ++ k) = Ok (Some (r, zlen (frame r))).
Proof.
  intros Hwf. rewrite frame_header, <- app_assoc, decode_complete; [|apply compute_crc32c_range|done].
  rewrite decide_False by auto. by rewrite <- frame_header.
Qed.

(** A torn write leaves a strict prefix of the frame on disk. *)
Lemma decode_torn r n : wf r → (n < length (frame r))%nat →
  decode (take n (frame r)) = Ok None.
Proof.
  intros Hwf Hn. unfold decode. case_decide as Hl; [done|].
  pose proof (zlen_frame r) as Hf. unfold HEADER_SIZE, zlen in *. rewrite length_take in Hl.
  rewrite frame_header. set (c := compute_crc32c (body r)).
  assert (length (header c r) = 36%nat) as Hh.
  { pose proof (zlen_header c r) as Hh. unfold zlen, HEADER_SIZE in Hh. lia. }
  rewrite take_app_ge by lia. rewrite decode_header_ok by (done || apply compute_crc32c_range).
  rewrite decide_True; [done|]. unfold zlen. lens. lia.
Qed.

(** Invert a sequence of field reads. *)
Ltac read_inv H :=
  repeat match type of H with
  | context[get_u ?n ?l] =>
      let G := fresh "G" in
      destruct (get_u n l) as [[??]| |] eqn:G; [|done..];
      apply get_u_inv in G as [-> ?]
  | context[get_s ?n ?l] =>
      let G := fresh "G" in
      destruct (get_s n l) as [[??]| |] eqn:G; [|done..];
      apply get_s_inv in G as [-> ?]; [|lia]
  end.

Lemma decode_header_inv src c s sid off plen rest :
  decode_header src = Ok ((c, s, sid, off, plen), rest) →
  src = put_32 WAL_MAGIC ++ put_32 c ++ put_64 s ++ put_64 sid ++ put_64 off ++ put_32 plen ++ rest
  ∧ in_u 32 c ∧ in_u 64 s ∧ in_u 64 sid ∧ in_s 64 off ∧ in_u 32 plen.
Proof.
  unfold decode_header, mbind, reader_bind. intros H.
  destruct (get_u 4 src) as [[mg l0]| |] eqn:H0; [|done..]. apply get_u_inv in H0 as [-> _].
  case_decide as Hm; [done|]. subst mg.
  read_inv H. injection H as <- <- <- <- <- <-. by split_and!.
Qed.

(** Whatever [decode] accepts is the frame of the record it returns. *)
Lemma decode_inv src r n : decode src = Ok (Some (r, n)) →
  wf r ∧ n = zlen (frame r) ∧ ∃ k, src = frame r ++ k.
Proof.
  intros H. pose proof H as H'. unfold decode in H'. case_decide; [done|].
  destruct (decode_header src) as [[[[[[c s] sid] off] plen] rest]| |] eqn:Hd; [|done..].
  apply decode_header_inv in Hd as (-> & Hc & Hs & Hsid & Ho & Hp).
  case_decide as Hlen; [done|]. clear H'.
  set (p := take (Z.to_nat plen) rest). set (k := drop (Z.to_nat plen) rest).
  assert (zlen p = plen) as Hzp.
  { unfold p. revert Hlen. unfold HEADER_SIZE, in_u, zlen in *. lens. lia. }
  set (r0 := mkWal s sid off p).
  assert (wf r0) as Hwf by (unfold wf; simpl; rewrite Hzp; by split_and!).
  assert (header c r0 ++ payload r0 ++ k = put_32 WAL_MAGIC ++ put_32 c ++ put_64 s
            ++ put_64 sid ++ put_64 off ++ put_32 plen ++ rest) as Hsrc.
  { unfold header, k. simpl. rewrite Hzp, <- !app_assoc. unfold p. by rewrite take_drop. }
  rewrite <- Hsrc, decode_complete in H by done. case_decide as He; [done|].
  injection H as <- <-. split_and!; [done|done|].
  exists k. rewrite <- Hsrc, frame_header, <- app_assoc. by rewrite He.
Qed.

(** A body changed in at most four consecutive bytes, under the checksum of
    the original body, is rejected. *)
Lemma decode_burst r r' pre w w' post k : wf r' →
  body r = pre ++ w ++ post → body r' = pre ++ w' ++ post →
  length w = length w' → (length w ≤ 4)%nat → w ≠ w' →
  decode (put_32 WAL_MAGIC ++ put_32 (compute_crc32c (body r)) ++ body r' ++ k) =
    Err (ECorruptedRecord (compute_crc32c (body r)) (compute_crc32c (body r'))).
Proof.
  intros Hwf Hb Hb' Hl Hw Hne.
  rewrite (app_assoc (put_32 (compute_crc32c (body r)))), app_assoc, <- header_body, <- app_assoc.
  rewrite decode_complete by (done || apply compute_crc32c_range).
  rewrite decide_True; [done|]. rewrite Hb, Hb'. apply not_eq_sym. by apply crc_detects_burst.
Qed.

(** [decode] checks lengths before every access: it never panics. *)
Lemma get_u_long {E} n l : (n ≤ length l)%nat → get_u (E:=E) n l = Ok (from_be (take n l), drop n l).
Proof. intros. unfold get_u. by rewrite decide_False by lia. Qed.

Lemma get_s_long {E} n l : (n ≤ length l)%nat →
  get_s (E:=E) n l = Ok (wrap_s (8 * Z.of_nat n) (from_be (take n l)), drop n l).
Proof. intros. unfold get_s. by rewrite decide_False by lia. Qed.

Lemma slice_ok {E} l s t : 0 ≤ s ≤ t → t ≤ zlen l → ∃ m, slice (E:=E) l s t = Ok m.
Proof. intros. unfold slice. rewrite decide_True by done. by eexists. Qed.

Lemma decode_header_no_panic l : (36 ≤ length l)%nat → decode_header l ≠ Panic.
Proof.
  intros Hl. unfold decode_header, mbind, reader_bind.
  rewrite get_u_long by lia. case_decide; [done|].
  repeat first [rewrite get_u_long by (rewrite !length_drop; lia)
               |rewrite get_s_long by (rewrite !length_drop; lia)]. done.
Qed.

Lemma decode_no_panic src : decode src ≠ Panic.
Proof.
  unfold decode, HEADER_SIZE. case_decide as Hl; [done|]. unfold zlen in Hl.
  pose proof (decode_header_no_panic src ltac:(lia)) as Hnp.
  destruct (decode_header src) as [[[[[[c s] sid] off] plen] rest]| |] eqn:Hd; [|done..].
  apply decode_header_inv in Hd as (_ & _ & _ & _ & _ & Hp). unfold in_u in Hp.
  case_decide; [done|].
  destruct (slice_ok (E:=OxideMqError) src 8 (36 + plen)) as [m ->]; [lia..|]. simpl.
  case_decide; [done|].
  destruct (slice_ok (E:=OxideMqError) src 36 (36 + plen)) as [m' ->]; [lia..|]. done.
Qed.

Lemma decode_nil : decode [] = Ok None.
Proof. done. Qed.

Lemma frame_nonempty r : (0 < length (frame r))%nat.
Proof. pose proof (zlen_frame r). pose proof (zlen_nonneg (payload r)). unfold zlen, HEADER_SIZE in *. lia. Qed.

(** A sequence of frames. *)
Definition frames (rs : list WalRecord) : bytes := concat (frame <$> rs).

Lemma frames_cons r rs : frames (r :: rs) = frame r ++ frames rs.
Proof. done. Qed.
Lemma frames_app rs rs' : frames (rs ++ rs') = frames rs ++ frames rs'.
Proof. unfold frames. by rewrite fmap_app, concat_app. Qed.
Lemma frames_nil : frames [] = [].
Proof. done. Qed.
#[global] Opaque frames.

(** ** Theorems *)

(** A WAL record survives its frame: what [encode] writes, followed by
    anything, decodes to the record and the exact number of bytes written. *)
Theorem wal_frame_roundtrip r : wf r →
  ∃ bs, encode (E:=OxideMqError) r [] = Ok bs ∧ ∀ k, decode (bs ++ k) = Ok (Some (r, zlen bs)).
Proof.
  intros Hwf. exists (frame r). split; [by apply encode_frame; destruct Hwf as (_&_&_&?)|].
  intros k. by apply decode_frame.
Qed.

Lemma wal_frame_roundtrip_witness :
  ∃ bs, encode (E:=OxideMqError) (mkWal 7 3 (-1) [x01; x02]) [] = Ok bs
    ∧ ∀ k, decode (bs ++ k) = Ok (Some (mkWal 7 3 (-1) [x01; x02], zlen bs)).
Proof. apply wal_frame_roundtrip. apply (bool_decide_unpack _). vm_compute. exact I. Defined.

(** [decode] is sound: whatever bytes it accepts are exactly the frame
    that [encode] writes for the record it returns. *)
Theorem wal_decode_sound src r n : decode src = Ok (Some (r, n)) →
  ∃ k, src = k ++ drop (Z.to_nat n) src ∧ zlen k = n ∧ encode (E:=OxideMqError) r [] = Ok k.
Proof.
  intros H. apply decode_inv in H as (Hwf & -> & k & ->). exists (frame r).
  rewrite drop_app_exact by (unfold zlen; lia). split_and!; [done|done|].
  apply encode_frame. by destruct Hwf as (_&_&_&?).
Qed.

Lemma wal_decode_sound_witness :
  ∃ k, zlen k = 38 ∧ encode (E:=OxideMqError) (mkWal 7 3 (-1) [x01; x02]) [] = Ok k.
Proof.
  destruct (wal_decode_sound (frame (mkWal 7 3 (-1) [x01; x02]) ++ [xff])
    (mkWal 7 3 (-1) [x01; x02]) 38) as (k & _ & H1 & H2); [vm_compute; reflexivity|].
  exact (ex_intro _ k (conj H1 H2)).
Defined.

(** C13: corruption is detected.  If up to four consecutive bytes of a record's
    body change in place (anywhere but in the length field), decoding the
    damaged frame reports a corrupted record. *)
Theorem wal_corruption_detected r r' bs pre w w' post k : wf r → wf r' →
  encode (E:=OxideMqError) r [] = Ok bs →
  body r = pre ++ w ++ post → body r' = pre ++ w' ++ post →
  length w = length w' → (length w ≤ 4)%nat → w ≠ w' →
  ∃ x a, decode (take 8 bs ++ body r' ++ k) = Err (ECorruptedRecord x a).
Proof.
  intros Hwf Hwf' He Hb Hb' Hl Hw Hne.
  rewrite encode_frame in He by (by destruct Hwf as (_&_&_&?)). injection He as <-.
  change ([] ++ frame r) with (frame r). unfold frame.
  rewrite (app_assoc (put_32 WAL_MAGIC)), take_app_exact by (by rewrite length_app, !length_to_be).
  rewrite <- app_assoc. eexists _, _. eapply decode_burst; eauto.
Qed.

Lemma wal_corruption_detected_witness :
  ∃ x a, decode (take 8 (frame (mkWal 7 3 0 [x01; x02]))
                 ++ body (mkWal 7 3 0 [x01; xff]) ++ []) = Err (ECorruptedRecord x a).
Proof.
  eapply (wal_corruption_detected (mkWal 7 3 0 [x01; x02]) (mkWal 7 3 0 [x01; xff])
    (frame (mkWal 7 3 0 [x01; x02]))
    (take 29 (body (mkWal 7 3 0 [x01; x02]))) [x02] [xff] []);
    [apply (bool_decide_unpack _); vm_compute; exact I..|vm_compute; reflexivity
    |vm_compute; reflexivity|vm_compute; reflexivity|reflexivity|simpl; lia|congruence].
Defined.
