(* ===== verification/Wal.v ===== *)
(** * The WAL engine contract and the in-memory WAL

    [crates/oxidemq-wal/src/lib.rs] (the [WalEngine] trait) and [memory.rs].
    Each method of [MemoryWal] is a transition of the whole structure: the
    locks of the code make the individual map updates atomic, and a call is
    modelled as one uninterrupted transition. *)

From Stdlib Require Import Strings.Byte.
From stdpp Require Import base numbers list gmap strings sorting.
From S2P Require Import Prelude Bytes CoreTypes WalFrame.

(** ** The trait *)
Class WalEngine (W : Type) := {
  wal_append : Z → Z → bytes → W → result Z * W;
  wal_flush : W → result unit * W;
  wal_trim : Z → Z → W → result unit * W }.

(** What a client of the trait may rely on, in terms of the records an engine
    holds ([wal_contents], in the order they were appended) under the
    engine's invariant: an append that reports a sequence number adds exactly
    that record at the end, and a trim only ever drops records of the
    trimmed stream below the given offset. *)
Class WalEngineLaws (W : Type) `{!WalEngine W} := {
  wal_inv : W → Prop;
  wal_contents : W → list WalRecord;
  wal_append_inv sid off data w r w' :
    in_u 64 sid → in_s 64 off → in_u 32 (zlen data) →
    wal_inv w → wal_append sid off data w = (Ok r, w') → 0 ≤ r < 2 ^ 64 - 2 →
    wal_inv w' ∧ wal_contents w' = wal_contents w ++ [mkWal r sid off data];
  wal_append_fresh sid off data w r w' :
    in_u 64 sid → in_s 64 off → in_u 32 (zlen data) →
    wal_inv w → wal_append sid off data w = (Ok r, w') →
    Forall (λ rec, seq rec < r) (wal_contents w);
  wal_flush_inv w : wal_inv w →
    wal_inv (wal_flush w).2 ∧ wal_contents (wal_flush w).2 = wal_contents w;
  wal_trim_inv sid off w : wal_inv w → wal_inv (wal_trim sid off w).2;
  wal_trim_sub sid off w : wal_inv w →
    sublist (wal_contents (wal_trim sid off w).2) (wal_contents w);
  wal_trim_keeps sid off w rec : wal_inv w → rec ∈ wal_contents w →
    stream_id rec ≠ sid ∨ off ≤ offset rec →
    rec ∈ wal_contents (wal_trim sid off w).2 }.

(** ** Bounded reads

    Both engines collect matching records until the accumulated payload
    reaches [max_bytes]; the record that crosses the bound is included. *)
Fixpoint budget (total max_bytes : Z) (l : list WalRecord) : list WalRecord :=
  match l with
  | [] => []
  | r :: l' =>
      let total := total + zlen (payload r) in
      r :: if decide (total ≥ max_bytes) then [] else budget total max_bytes l'
  end.

Definition payload_total (l : list WalRecord) : Z :=
  foldr Z.add 0 ((λ r, zlen (payload r)) <$> l).

Lemma payload_total_app l k : payload_total (l ++ k) = payload_total l + payload_total k.
Proof. unfold payload_total. by rewrite fmap_app, foldr_add_app. Qed.

Lemma payload_total_cons r l : payload_total (r :: l) = zlen (payload r) + payload_total l.
Proof. done. Qed.

Lemma budget_prefix t m l : budget t m l `prefix_of` l.
Proof.
  revert t. induction l as [|r l IH]; intros t; simpl; [done|].
  apply prefix_cons. case_decide; [apply prefix_nil|apply IH].
Qed.

(** All the records, or enough bytes and not more than needed: dropping the
    last record would fall short of the bound. *)
Lemma budget_spec t m l :
  (budget t m l = l) ∨
  (∃ k r, budget t m l = k ++ [r] ∧ t + payload_total (k ++ [r]) ≥ m
          ∧ (k = [] ∨ t + payload_total k < m)).
Proof.
  revert t. induction l as [|r l IH]; intros t; simpl; [by left|]. case_decide as Hm.
  - right. exists [], r. split_and!; [done| |by left]. unfold payload_total. simpl. lia.
  - destruct (IH (t + zlen (payload r))) as [->|(k & r' & -> & Hk & Hk')]; [by left|].
    right. exists (r :: k), r'. split_and!; [done| |right].
    + rewrite <- app_comm_cons, payload_total_cons. lia.
    + destruct Hk' as [->|]; rewrite payload_total_cons; [|lia].
      unfold payload_total. simpl. lia.
Qed.

Lemma budget_nonempty t m l : l ≠ [] → budget t m l ≠ [].
Proof. by destruct l. Qed.

(** ** MemoryWal *)
Module MemoryWal.

Record MemoryWal := mk {
  next_seq : Z;
  records : gmap Z WalRecord;
  stream_indexes : gmap Z (list Z);
  active_epochs : gmap Z Z }.

Definition new : MemoryWal := mk 1 ∅ ∅ ∅.

Fixpoint read_loop (recs : gmap Z WalRecord) (start_offset max_bytes : Z)
    (seqs : list Z) (total_bytes : Z) (result : list WalRecord) : list WalRecord :=
  match seqs with
  | [] => result
  | s :: seqs' =>
      match recs !! s with
      | Some rec =>
          if decide (offset rec ≥ start_offset) then
            let total_bytes := total_bytes + zlen (payload rec) in
            let result := result ++ [rec] in
            if decide (total_bytes ≥ max_bytes) then result
            else read_loop recs start_offset max_bytes seqs' total_bytes result
          else read_loop recs start_offset max_bytes seqs' total_bytes result
      | None => read_loop recs start_offset max_bytes seqs' total_bytes result
      end
  end.

Definition read_stream (w : MemoryWal) (sid start_offset max_bytes : Z) : list WalRecord :=
  match stream_indexes w !! sid with
  | Some seqs => read_loop (records w) start_offset max_bytes seqs 0 []
  | None => []
  end.

Definition len (w : MemoryWal) : Z := Z.of_nat (size (records w)).
Definition is_empty (w : MemoryWal) : bool := bool_decide (records w = ∅).

Definition acquire_lease (sid epoch : Z) (w : MemoryWal) : result unit * MemoryWal :=
  let grant := (Ok (), mk (next_seq w) (records w) (stream_indexes w)
                         (<[sid := epoch]> (active_epochs w))) in
  match active_epochs w !! sid with
  | Some active =>
      if decide (epoch < active) then
        (Err (EWal ("WAL lease fenced for stream " +:+ dec sid +:+ ": requested epoch "
                      +:+ dec epoch +:+ " < active epoch " +:+ dec active)), w)
      else grant
  | None => grant
  end.

Definition append (sid off : Z) (data : bytes) (w : MemoryWal) : result Z * MemoryWal :=
  let s := next_seq w in
  let record := mkWal s sid off data in
  (Ok s, mk (u64 (s + 1)) (<[s := record]> (records w))
            (<[sid := default [] (stream_indexes w !! sid) ++ [s]]> (stream_indexes w))
            (active_epochs w)).

Definition append_with_epoch (sid epoch off : Z) (data : bytes) (w : MemoryWal)
    : result Z * MemoryWal :=
  match active_epochs w !! sid with
  | Some active =>
      if decide (epoch < active) then
        (Err (EWal ("WAL append fenced for stream " +:+ dec sid +:+ ": epoch "
                      +:+ dec epoch +:+ " < active epoch " +:+ dec active)), w)
      else append sid off data w
  | None => append sid off data w
  end.

Definition flush (w : MemoryWal) : result unit * MemoryWal := (Ok (), w).

Fixpoint trim_loop (up_to_offset : Z) (seqs : list Z)
    (recs : gmap Z WalRecord) (retained_seqs : list Z) : gmap Z WalRecord * list Z :=
  match seqs with
  | [] => (recs, retained_seqs)
  | s :: seqs' =>
      match recs !! s with
      | Some rec =>
          if decide (offset rec < up_to_offset)
          then trim_loop up_to_offset seqs' (delete s recs) retained_seqs
          else trim_loop up_to_offset seqs' recs (retained_seqs ++ [s])
      | None => trim_loop up_to_offset seqs' recs retained_seqs
      end
  end.

Definition trim (sid up_to_offset : Z) (w : MemoryWal) : result unit * MemoryWal :=
  match stream_indexes w !! sid with
  | Some seqs =>
      let '(recs, retained_seqs) := trim_loop up_to_offset seqs (records w) [] in
      (Ok (), mk (next_seq w) recs (<[sid := retained_seqs]> (stream_indexes w))
                 (active_epochs w))
  | None => (Ok (), w)
  end.

#[export] Instance MemoryWal_engine : WalEngine MemoryWal := {|
  wal_append := append; wal_flush := flush; wal_trim := trim |}.

(** *** Invariant and abstraction *)

(** The records, in sequence order. *)
Definition contents (w : MemoryWal) : list WalRecord :=
  sort_by_key seq (map_to_list (records w)).*2.

Record wf (w : MemoryWal) : Prop := {
  wf_records : map_Forall (λ s r, seq r = s ∧ s < next_seq w) (records w);
  wf_index : map_Forall (λ sid seqs, StronglySorted Z.lt seqs ∧
    Forall (λ s, ∃ r, records w !! s = Some r ∧ stream_id r = sid) seqs) (stream_indexes w);
  wf_indexed : map_Forall (λ s r,
    ∃ seqs, stream_indexes w !! stream_id r = Some seqs ∧ s ∈ seqs) (records w) }.

Lemma wf_new : wf new.
Proof. split; apply map_Forall_empty. Qed.

(** Two records under the same sequence number are the same record. *)
Lemma records_snd_NoDup w : wf w → NoDup (seq <$> (map_to_list (records w)).*2).
Proof.
  intros [Hr _ _]. rewrite <- list_fmap_compose.
  rewrite (list_fmap_ext _ fst).
  - apply NoDup_fst_map_to_list.
  - intros i [s r] Hi. apply list_elem_of_lookup_2, elem_of_map_to_list in Hi.
    by apply Hr in Hi as [??].
Qed.

Lemma contents_sorted w : wf w → StronglySorted (key_lt seq) (contents w).
Proof. intros. by apply sort_by_key_strict, records_snd_NoDup. Qed.

Lemma elem_of_contents w r : wf w → r ∈ contents w ↔ records w !! seq r = Some r.
Proof.
  intros [Hr _ _]. unfold contents. rewrite elem_of_sort_by_key, list_elem_of_fmap. split.
  - intros ([s r'] & -> & Hin). apply elem_of_map_to_list in Hin. simpl.
    by destruct (Hr _ _ Hin) as [-> _].
  - intros Hin. exists (seq r, r). by rewrite elem_of_map_to_list.
Qed.

Definition view (w : MemoryWal) (sid : Z) : list WalRecord :=
  omap (records w !!.) (default [] (stream_indexes w !! sid)).

(** The index of a stream selects its records in sequence order. *)
Lemma view_contents w sid : wf w →
  view w sid = filter (λ r, stream_id r = sid) (contents w).
Proof.
  intros Hwf. apply (strict_sorted_unique seq).
  - unfold view. destruct (stream_indexes w !! sid) as [seqs|] eqn:Hi; simpl; [|constructor].
    destruct (wf_index w Hwf _ _ Hi) as [Hs Hf]. clear Hi.
    induction Hs as [|s seqs Hs IH Hlt]; simpl; [constructor|].
    apply Forall_cons in Hf as [(r & Hr & _) Hf]. rewrite Hr. constructor; [by apply IH|].
    apply Forall_forall. intros r' (s' & Hs' & Hr')%list_elem_of_omap.
    rewrite Forall_forall in Hlt, Hf. unfold key_lt. specialize (Hlt _ Hs').
    pose proof (wf_records w Hwf _ _ Hr) as [-> _]. pose proof (wf_records w Hwf _ _ Hr') as [-> _]. done.
  - by apply key_lt_filter, contents_sorted.
  - intros r. rewrite list_elem_of_filter, elem_of_contents by done. unfold view.
    rewrite list_elem_of_omap. split.
    + intros (s & Hs & Hr). destruct (stream_indexes w !! sid) as [seqs|] eqn:Hi; [|set_solver].
      destruct (wf_index w Hwf _ _ Hi) as [_ Hf]. rewrite Forall_forall in Hf.
      destruct (Hf _ Hs) as (r' & Hr' & <-). simplify_eq.
      by destruct (wf_records w Hwf _ _ Hr) as [-> _].
    + intros [<- Hr]. destruct (wf_indexed w Hwf _ _ Hr) as (seqs & -> & Hs). by exists (seq r).
Qed.

(** *** Operations against the abstraction *)

Lemma read_loop_budget recs start m seqs t acc :
  read_loop recs start m seqs t acc =
    acc ++ budget t m (filter (λ r, start ≤ offset r) (omap (recs !!.) seqs)).
Proof.
  revert t acc. induction seqs as [|s seqs IH]; intros t acc; simpl; [by rewrite app_nil_r|].
  destruct (recs !! s) as [r|]; [|by rewrite IH]. rewrite filter_cons.
  case_decide; [|by rewrite IH]. simpl. case_decide; [done|].
  by rewrite IH, <- app_assoc.
Qed.

Lemma read_stream_contents w sid start m : wf w →
  read_stream w sid start m =
    budget 0 m (filter (λ r, start ≤ offset r) (filter (λ r, stream_id r = sid) (contents w))).
Proof.
  intros Hwf. rewrite <- view_contents by done. unfold read_stream, view.
  destruct (stream_indexes w !! sid); [|done]. by rewrite read_loop_budget.
Qed.

Lemma append_wf sid off data w : wf w → 0 ≤ next_seq w < 2 ^ 64 - 1 →
  wf (append sid off data w).2.
Proof.
  intros Hwf Hs. pose proof (wf_records w Hwf) as Hr. unfold append. simpl.
  assert (records w !! next_seq w = None) as Hfr.
  { destruct (_ !! _) eqn:E; [|done]. apply Hr in E as [? ?]. lia. }
  rewrite wrap_u_small by (unfold in_u; lia). split; simpl.
  - apply map_Forall_insert_2; simpl; [lia|]. eapply map_Forall_impl; [done|].
    simpl. intros ?? [-> ?]. lia.
  - assert (∀ sid' s, (∃ r, records w !! s = Some r ∧ stream_id r = sid') →
              ∃ r, <[next_seq w := mkWal (next_seq w) sid off data]> (records w) !! s = Some r
                   ∧ stream_id r = sid') as Hmono.
    { intros sid' s (r & ? & ?). exists r. rewrite lookup_insert_ne; [done|].
      intros <-. congruence. }
    apply map_Forall_insert_2.
    + assert (StronglySorted Z.lt (default [] (stream_indexes w !! sid)) ∧
              Forall (λ s, ∃ r, records w !! s = Some r ∧ stream_id r = sid)
                     (default [] (stream_indexes w !! sid))) as [Hss Hf].
      { destruct (stream_indexes w !! sid) eqn:Hi; simpl; [by apply (wf_index w Hwf)|].
        by repeat constructor. }
      split.
      * apply (key_lt_snoc id); [done|]. eapply Forall_impl; [done|].
        intros s (r & Hin & _). by apply Hr in Hin as [_ ?].
      * apply Forall_app. split; [eapply Forall_impl; [done|]; apply Hmono|].
        repeat constructor. exists (mkWal (next_seq w) sid off data).
        by rewrite lookup_insert_eq.
    + eapply map_Forall_impl; [apply (wf_index w Hwf)|]. simpl. intros sid' seqs [? Hf].
      split; [done|]. eapply Forall_impl; [done|]. apply Hmono.
  - apply map_Forall_insert_2; simpl.
    + rewrite lookup_insert_eq. eexists. split; [done|]. set_solver.
    + eapply map_Forall_impl; [apply (wf_indexed w Hwf)|]. simpl. intros s r (seqs & Hi & Hin).
      destruct (decide (stream_id r = sid)) as [E|].
      * rewrite E in *. rewrite lookup_insert_eq, Hi. eexists. split; [done|]. set_solver.
      * rewrite lookup_insert_ne by done. by exists seqs.
Qed.

Lemma append_contents sid off data w : wf w → 0 ≤ next_seq w < 2 ^ 64 - 1 →
  contents (append sid off data w).2 = contents w ++ [mkWal (next_seq w) sid off data].
Proof.
  intros Hwf Hs. pose proof (wf_records w Hwf) as Hr. unfold append. simpl.
  assert (records w !! next_seq w = None) as Hfr.
  { destruct (_ !! _) eqn:E; [|done]. apply Hr in E as [? ?]. lia. }
  unfold contents at 1. simpl. apply sort_by_key_unique.
  - rewrite map_to_list_insert by done. simpl. unfold contents.
    rewrite sort_by_key_perm. by rewrite Permutation_cons_append.
  - apply key_lt_snoc; [by apply contents_sorted|]. apply Forall_forall. intros r Hin.
    apply elem_of_contents in Hin; [|done]. by apply Hr in Hin as [_ ?].
Qed.

(** The index entries that survive a trim. *)
Definition retained (up : Z) (recs : gmap Z WalRecord) (s : Z) : bool :=
  match recs !! s with Some r => bool_decide (up ≤ offset r) | None => false end.

Lemma trim_loop_spec up seqs recs acc : NoDup seqs →
  trim_loop up seqs recs acc =
    (filter (λ kv, ¬ (kv.1 ∈ seqs ∧ offset kv.2 < up)) recs,
     acc ++ filter (retained up recs) seqs).
Proof.
  intros Hnd. revert recs acc. induction Hnd as [|s seqs Hs Hnd IH]; intros recs acc; simpl.
  { rewrite app_nil_r. f_equal. symmetry. apply map_filter_id. set_solver. }
  rewrite filter_cons.
  assert (retained up recs s = match recs !! s with
            Some r => bool_decide (up ≤ offset r) | None => false end) as Hret by done.
  destruct (recs !! s) as [r|] eqn:Hr.
  - destruct (decide (offset r < up)).
    + case_bool_decide; [lia|]. rewrite Hret. simpl. rewrite IH. f_equal.
      * apply map_eq. intros k. apply option_eq. intros v.
        rewrite !map_lookup_filter_Some, lookup_delete_Some. simpl.
        rewrite elem_of_cons. destruct (decide (k = s)) as [->|]; naive_solver.
      * f_equal. apply list_filter_ext_in. intros k Hk. unfold retained.
        rewrite lookup_delete_ne by set_solver. done.
    + case_bool_decide; [|lia]. rewrite Hret. simpl. rewrite IH, <- app_assoc. f_equal.
      apply map_filter_ext. simpl. intros k v Hk. rewrite elem_of_cons.
      destruct (decide (k = s)) as [->|]; naive_solver.
  - rewrite Hret. simpl. rewrite IH. f_equal.
    apply map_filter_ext. simpl. intros k v Hk. rewrite elem_of_cons.
    destruct (decide (k = s)) as [->|]; naive_solver.
Qed.

Definition trimmed (sid up : Z) (r : WalRecord) : Prop := stream_id r = sid ∧ offset r < up.

#[export] Instance trimmed_dec sid up r : Decision (trimmed sid up r).
Proof. unfold trimmed. apply _. Defined.

(** Under the invariant the index of [sid] covers exactly its records. *)
Lemma trim_eq sid up w : wf w →
  ∃ idx, trim sid up w =
    (Ok (), mk (next_seq w) (filter (λ kv, ¬ trimmed sid up kv.2) (records w)) idx (active_epochs w))
  ∧ idx = match stream_indexes w !! sid with
          | Some seqs => <[sid := filter (λ s, retained up (records w) s) seqs]> (stream_indexes w)
          | None => stream_indexes w
          end.
Proof.
  intros Hwf. unfold trim. destruct (stream_indexes w !! sid) as [seqs|] eqn:Hi.
  - destruct (wf_index w Hwf _ _ Hi) as [Hss Hf].
    rewrite trim_loop_spec by (by eapply (key_lt_NoDup id)).
    eexists. split; [|done]. do 2 f_equal. apply map_filter_ext. intros s r Hr. simpl.
    unfold trimmed. rewrite Forall_forall in Hf. split; intros Hn [??]; destruct Hn; split; try done.
    + destruct (wf_indexed w Hwf _ _ Hr) as (seqs' & ? & ?). naive_solver.
    + destruct (Hf s) as (r' & ? & ?); naive_solver.
  - eexists. split; [|done]. f_equal. destruct w as [ns recs idx ep]. simpl in *. f_equal.
    symmetry. apply map_filter_id. intros s r Hr [Hs _].
    destruct (wf_indexed _ Hwf _ _ Hr) as (? & E & _). simpl in E. naive_solver.
Qed.

Lemma trim_wf sid up w : wf w → wf (trim sid up w).2.
Proof.
  intros Hwf. destruct (trim_eq sid up w Hwf) as (idx & -> & Hidx). simpl.
  assert (∀ sid' seqs, idx !! sid' = Some seqs → ∃ seqs0, stream_indexes w !! sid' = Some seqs0
    ∧ seqs = if decide (sid' = sid) then filter (λ s, retained up (records w) s) seqs0 else seqs0)
    as Hix.
  { intros sid' seqs. subst idx. destruct (stream_indexes w !! sid) as [q|] eqn:Hq.
    - destruct (decide (sid' = sid)) as [->|].
      + rewrite lookup_insert_eq. intros [= <-]. eauto.
      + rewrite lookup_insert_ne by done. eauto.
    - intros. exists seqs. by rewrite decide_False by naive_solver. }
  split; simpl.
  - intros s r [Hr _]%map_lookup_filter_Some. by apply (wf_records w Hwf).
  - intros sid' seqs Hi. apply Hix in Hi as (seqs0 & Hi & ->).
    destruct (wf_index w Hwf _ _ Hi) as [Hss Hf]. split.
    + case_decide; [|done]. by apply (key_lt_filter id).
    + apply Forall_forall. intros s Hs. rewrite Forall_forall in Hf.
      destruct (Hf s) as (r & Hr & Hsid); [case_decide; [|done]; by apply list_elem_of_filter in Hs as [_ ?]|].
      exists r. split; [|done]. apply map_lookup_filter_Some. split; [done|]. intros [Hs1 Hs2].
      simpl in *. rewrite decide_True in Hs by congruence. apply list_elem_of_filter in Hs as [Hs _].
      unfold retained in Hs. rewrite Hr in Hs. case_bool_decide; [lia|done].
  - intros s r [Hr Hn]%map_lookup_filter_Some. simpl in Hn.
    destruct (wf_indexed w Hwf _ _ Hr) as (seqs & Hi & Hs). subst idx.
    destruct (decide (stream_id r = sid)) as [<-|].
    + rewrite Hi, lookup_insert_eq. eexists. split; [done|]. apply list_elem_of_filter. split; [|done].
      unfold retained. rewrite Hr. unfold trimmed in Hn. case_bool_decide; [done|]. destruct Hn. split; [done|lia].
    + exists seqs. split; [|done]. destruct (stream_indexes w !! sid); [|done].
      by rewrite lookup_insert_ne.
Qed.

Lemma trim_contents sid up w : wf w →
  contents (trim sid up w).2 = filter (λ r, ¬ trimmed sid up r) (contents w).
Proof.
  intros Hwf. pose proof (trim_wf sid up w Hwf) as Hwf'. apply (strict_sorted_unique seq).
  - by apply contents_sorted.
  - by apply key_lt_filter, contents_sorted.
  - intros r. rewrite list_elem_of_filter, !elem_of_contents by done.
    destruct (trim_eq sid up w Hwf) as (idx & -> & _). simpl.
    rewrite map_lookup_filter_Some. simpl. tauto.
Qed.

#[export] Instance MemoryWal_laws : WalEngineLaws MemoryWal.
Proof.
  refine {| wal_inv := wf; wal_contents := contents |}; simpl.
  - intros sid off data w r w' _ _ _ Hwf. unfold append. intros [= <- <-] Hr.
    split; [apply (append_wf sid off data)|apply (append_contents sid off data)]; done || lia.
  - intros sid off data w r w' _ _ _ Hwf. unfold append. intros [= <- <-]. apply Forall_forall.
    intros r Hr%elem_of_contents; [|done]. by apply (wf_records w Hwf) in Hr as [_ ?].
  - done.
  - apply trim_wf.
  - intros. rewrite trim_contents by done. apply sublist_filter.
  - intros sid off w r Hwf Hr Hc. rewrite trim_contents by done. apply list_elem_of_filter.
    split; [|done]. unfold trimmed. lia.
Defined.

(** *** Epoch fencing *)
Inductive op :=
| OAppend (sid off : Z) (data : bytes)
| OAppendEpoch (sid epoch off : Z) (data : bytes)
| OLease (sid epoch : Z)
| OTrim (sid up : Z)
| OFlush.

Definition run_op (o : op) (w : MemoryWal) : MemoryWal :=
  match o with
  | OAppend sid off data => (append sid off data w).2
  | OAppendEpoch sid epoch off data => (append_with_epoch sid epoch off data w).2
  | OLease sid epoch => (acquire_lease sid epoch w).2
  | OTrim sid up => (trim sid up w).2
  | OFlush => (flush w).2
  end.

Definition run (ops : list op) (w : MemoryWal) : MemoryWal := foldl (flip run_op) w ops.

Lemma run_op_epoch o w sid e : active_epochs w !! sid = Some e →
  ∃ e', active_epochs (run_op o w) !! sid = Some e' ∧ e ≤ e'.
Proof.
  intros He. destruct o as [| |sid' ep|sid' up|]; simpl; try (exists e; split; [done|lia]).
  - exists e. split; [|lia]. unfold append_with_epoch. repeat case_match; done.
  - unfold acquire_lease. destruct (decide (sid' = sid)) as [->|].
    + rewrite He. case_decide; simpl; [exists e; split; [done|lia]|].
      exists ep. rewrite lookup_insert_eq. split; [done|lia].
    + exists e. split; [|lia]. repeat case_match; simpl; try done; by rewrite lookup_insert_ne.
  - exists e. split; [|lia]. unfold trim. by repeat case_match.
Qed.

Lemma run_epoch ops w sid e : active_epochs w !! sid = Some e →
  ∃ e', active_epochs (run ops w) !! sid = Some e' ∧ e ≤ e'.
Proof.
  revert w e. induction ops as [|o ops IH]; intros w e He; simpl; [exists e; split; [done|lia]|].
  destruct (run_op_epoch o w sid e He) as (e1 & H1 & ?).
  destruct (IH _ _ H1) as (e2 & ? & ?). exists e2. split; [done|lia].
Qed.

(** *** The in-memory WAL as a list of records *)
Record Spec := mkSpec {
  log : list WalRecord;          (* the live records, oldest first *)
  appended : Z;                  (* appends accepted so far *)
  leases : gmap Z Z }.

Definition spec_append (sid off : Z) (data : bytes) (s : Spec) : Spec :=
  mkSpec (log s ++ [mkWal (1 + appended s) sid off data]) (1 + appended s) (leases s).

Definition spec_fenced (sid epoch : Z) (s : Spec) : bool :=
  match leases s !! sid with Some active => bool_decide (epoch < active) | None => false end.

Definition spec_op (o : op) (s : Spec) : Spec :=
  match o with
  | OAppend sid off data => spec_append sid off data s
  | OAppendEpoch sid epoch off data =>
      if spec_fenced sid epoch s then s else spec_append sid off data s
  | OLease sid epoch =>
      if spec_fenced sid epoch s then s
      else mkSpec (log s) (appended s) (<[sid := epoch]> (leases s))
  | OTrim sid up =>
      mkSpec (filter (λ r, ¬ trimmed sid up r) (log s)) (appended s) (leases s)
  | OFlush => s
  end.

Definition spec_run (ops : list op) (s : Spec) : Spec := foldl (flip spec_op) s ops.

Record abs (w : MemoryWal) (s : Spec) : Prop := {
  abs_wf : wf w;
  abs_log : contents w = log s;
  abs_next : next_seq w = 1 + appended s;
  abs_pos : 0 ≤ appended s;
  abs_leases : active_epochs w = leases s }.

Lemma abs_append w s sid off data : abs w s → appended s < 2 ^ 64 - 2 →
  abs (append sid off data w).2 (spec_append sid off data s).
Proof.
  intros [Hwf Hl Hn Hp He] Hs. split; simpl.
  - apply append_wf; [done|lia].
  - change (contents (append sid off data w).2 = log s ++ [mkWal (1 + appended s) sid off data]).
    rewrite append_contents by (done || lia). by rewrite Hl, Hn.
  - rewrite wrap_u_small; unfold in_u; lia.
  - lia.
  - done.
Qed.

Lemma abs_op o w s : abs w s → appended s < 2 ^ 64 - 2 →
  abs (run_op o w) (spec_op o s) ∧ appended (spec_op o s) ≤ appended s + 1.
Proof.
  intros Ha Hs. pose proof Ha as [Hwf Hl Hn Hp He].
  destruct o as [sid off data|sid e off data|sid e|sid up|]; simpl.
  - split; [by apply abs_append|lia].
  - unfold append_with_epoch, spec_fenced. rewrite He. destruct (leases s !! sid) as [a|].
    + case_decide; [rewrite bool_decide_eq_true_2 by done|rewrite bool_decide_eq_false_2 by done];
        simpl; (split; [|lia]); [done|by apply abs_append].
    + simpl. split; [by apply abs_append|lia].
  - unfold acquire_lease, spec_fenced. rewrite He.
    assert (abs (mk (next_seq w) (records w) (stream_indexes w) (<[sid:=e]> (leases s)))
                (mkSpec (log s) (appended s) (<[sid:=e]> (leases s)))) as Hg.
    { split; simpl; [|done..]. destruct Hwf. by split. }
    destruct (leases s !! sid) as [a|]; [|split; [done|simpl; lia]].
    case_decide; [rewrite bool_decide_eq_true_2 by done|rewrite bool_decide_eq_false_2 by done];
      (split; [done|simpl; lia]).
  - split; [|lia]. split; simpl; [by apply trim_wf| | |done|].
    + by rewrite trim_contents, Hl.
    + by destruct (trim_eq sid up w Hwf) as (? & -> & _).
    + by destruct (trim_eq sid up w Hwf) as (? & -> & _).
  - split; [done|lia].
Qed.

Lemma abs_run ops w s : abs w s → appended s + zlen ops < 2 ^ 64 - 2 →
  abs (run ops w) (spec_run ops s).
Proof.
  revert w s. induction ops as [|o ops IH]; intros w s Ha Hs; [done|].
  rewrite zlen_cons in Hs. pose proof (zlen_nonneg ops).
  destruct (abs_op o w s Ha) as [Ha' Hc]; [lia|]. apply IH; [done|]. unfold flip. lia.
Qed.

Lemma abs_new : abs new (mkSpec [] 0 ∅).
Proof. by split; try apply wf_new. Qed.

(** C39: after any sequence of appends, epoch-checked appends, lease
    acquisitions, trims and flushes on a fresh in-memory WAL (fewer than
    2^64 - 2 of them), reading a stream returns exactly what the abstract
    log holds: its records of that stream at or above the start offset, in
    append order, cut after the record that reaches [max_bytes]; and the
    record count is that of the abstract log. *)
Theorem memory_wal_refines ops sid start m : zlen ops < 2 ^ 64 - 2 →
  let w := run ops new in
  let s := spec_run ops (mkSpec [] 0 ∅) in
  read_stream w sid start m =
    budget 0 m (filter (λ r, start ≤ offset r) (filter (λ r, stream_id r = sid) (log s)))
  ∧ len w = zlen (log s).
Proof.
  intros Hn w s. destruct (abs_run ops new _ abs_new Hn) as [Hwf Hl _ _ _].
  change (wf w) in Hwf. change (contents w = log s) in Hl. split.
  - by rewrite read_stream_contents, Hl.
  - unfold len, zlen. rewrite <- Hl. unfold contents.
    by rewrite sort_by_key_perm, length_fmap, length_map_to_list.
Qed.

Definition demo_ops : list op :=
  [OAppend 1 0 [x61]; OAppend 2 0 [x62]; OAppend 1 1 [x63]; OTrim 1 1].

Lemma memory_wal_refines_witness :
  read_stream (run demo_ops new) 1 0 1024 = [mkWal 3 1 1 [x63]].
Proof.
  assert (zlen demo_ops < 2 ^ 64 - 2) as H by (vm_compute; reflexivity).
  etrans; [exact (proj1 (memory_wal_refines demo_ops 1 0 1024 H))|]. vm_compute. reflexivity.
Defined.

(** Epoch fencing.  Once a lease of stream [sid] at epoch [e] has been
    granted, then whatever operations follow, an append to [sid] under an
    older epoch is refused with a WAL error and leaves the log unchanged. *)
Theorem memory_wal_fencing sid e w w' ops e' off data :
  acquire_lease sid e w = (Ok (), w') → e' < e →
  ∃ msg, append_with_epoch sid e' off data (run ops w') = (Err (EWal msg), run ops w').
Proof.
  intros Hl He. assert (active_epochs w' !! sid = Some e) as Ha.
  { unfold acquire_lease in Hl. repeat case_match; simplify_eq; simpl; apply lookup_insert_eq. }
  destruct (run_epoch ops w' sid e Ha) as (e2 & H2 & ?). unfold append_with_epoch.
  rewrite H2, decide_True by lia. by eexists.
Qed.

Lemma memory_wal_fencing_witness :
  ∃ msg, append_with_epoch 42 10 2 [x00] (run [OAppendEpoch 42 11 1 [x01]] (acquire_lease 42 11 new).2)
         = (Err (EWal msg), run [OAppendEpoch 42 11 1 [x01]] (acquire_lease 42 11 new).2).
Proof. apply (memory_wal_fencing 42 11 new); [vm_compute; reflexivity|lia]. Defined.

End MemoryWal.
