(* ===== verification/WalSegment.v ===== *)
(** * WAL segment files

    [crates/oxidemq-wal/src/segment.rs] over a model of the part of the file
    system it uses.  A directory maps names to inodes; an inode has its
    current contents and the length of the prefix that is on stable storage
    ([sync_data] makes all of it durable).  Nothing makes an entry of the
    directory durable: the code never syncs the directory itself.  An open
    file is an inode number: like a descriptor it outlives the removal of the
    name.  A segment's file position is always the end of its file
    ([open_append] and [truncate] seek there, [read_all] leaves it there), so
    [append] writes at the end.

    Every I/O call may fail.  Its outcome is an argument of the operation; a
    run consumes a list of outcomes, one a call, and a call after the end of
    the list succeeds.  [Io] is the state and error monad of the code that
    only makes such calls and returns at the first error (the [?] operator). *)

From Stdlib Require Import Strings.Byte Strings.Ascii.
From stdpp Require Import base numbers list gmap strings sorting pretty fin_maps.
From S2P Require Import Prelude Bytes CoreTypes WalFrame.

(** ** Strings *)

(** [str::strip_suffix] *)
Fixpoint strip_suffix (suf s : string) : option string :=
  if decide (s = suf) then Some "" else
  match s with
  | EmptyString => None
  | String c s' => String c <$> strip_suffix suf s'
  end.

Definition ends_with (suf s : string) : bool := bool_decide (is_Some (strip_suffix suf s)).

Definition digit (c : Ascii.ascii) : option Z :=
  let n := Z.of_N (Ascii.N_of_ascii c) in
  if decide (48 ≤ n ≤ 57) then Some (n - 48) else None.

Fixpoint parse_digits (acc : Z) (s : string) : option Z :=
  match s with
  | EmptyString => Some acc
  | String c s' =>
      d ← digit c;
      let acc := acc * 10 + d in
      if decide (acc < 2 ^ 64) then parse_digits acc s' else None
  end.

(** [str::parse::<u64>]: an optional plus sign and at least one digit; an
    error when the value does not fit. *)
Definition parse_u64 (s : string) : option Z :=
  match s with
  | EmptyString => None
  | String "+"%char EmptyString => None
  | String "+"%char s' => parse_digits 0 s'
  | _ => parse_digits 0 s
  end.

(** ** Files *)
Record Inode := mkInode { data : bytes; durable : nat }.

Record Fs := mkFs { names : gmap string nat; inodes : gmap nat Inode }.

Definition inode_of (ino : nat) (fs : Fs) : Inode := default (mkInode [] 0) (inodes fs !! ino).

Definition set_inode (ino : nat) (i : Inode) (fs : Fs) : Fs :=
  mkFs (names fs) (<[ino := i]> (inodes fs)).

(** [OpenOptions::create(true).truncate(true)] *)
Definition fs_create (name : string) (fs : Fs) : nat * Fs :=
  match names fs !! name with
  | Some ino => (ino, set_inode ino (mkInode [] 0) fs)
  | None =>
      let ino := fresh (dom (inodes fs)) in
      (ino, mkFs (<[name := ino]> (names fs)) (<[ino := mkInode [] 0]> (inodes fs)))
  end.

(** [write_all] at the end of the file *)
Definition fs_write (ino : nat) (d : bytes) (fs : Fs) : Fs :=
  let i := inode_of ino fs in set_inode ino (mkInode (data i ++ d) (durable i)) fs.

Definition fs_sync (ino : nat) (fs : Fs) : Fs :=
  let i := inode_of ino fs in set_inode ino (mkInode (data i) (length (data i))) fs.

(** [set_len] to at most the current length *)
Definition fs_set_len (ino : nat) (n : nat) (fs : Fs) : Fs :=
  let i := inode_of ino fs in
  set_inode ino (mkInode (take n (data i)) (durable i `min` n)) fs.

Definition fs_remove (name : string) (fs : Fs) : Fs :=
  mkFs (delete name (names fs)) (inodes fs).

(** What may be found after a power failure.  Entries of the directory may be
    gone (no operation of the program syncs a directory); of every file that
    is still listed there is at least the durable prefix, followed by whatever
    happened to reach the disk. *)
Definition crash (fs fs' : Fs) : Prop :=
  names fs' ⊆ names fs ∧
  ∀ name ino, names fs' !! name = Some ino → ∃ junk,
    data (inode_of ino fs') = take (durable (inode_of ino fs)) (data (inode_of ino fs)) ++ junk.

(** ** Outcomes of I/O calls *)

(** A failing operation may have been carried out in part: [progress] is the
    number of bytes that a failing write has written, and the number of calls
    that have succeeded in a [truncate], which makes three. *)
Inductive IoOutcome :=
| IoOk
| IoErr (progress : nat) (msg : string).

#[export] Instance IoOutcome_eq_dec : EqDecision IoOutcome.
Proof. solve_decision. Defined.

Definition next_io (io : list IoOutcome) : IoOutcome * list IoOutcome :=
  match io with [] => (IoOk, []) | o :: io => (o, io) end.

Definition Io (A : Type) : Type := Fs * list IoOutcome → result A * (Fs * list IoOutcome).

#[export] Instance Io_ret : MRet Io := λ A a st, (Ok a, st).
#[export] Instance Io_bind : MBind Io := λ A B k m st,
  match m st with
  | (Ok a, st) => k a st
  | (Err e, st) => (Err e, st)
  | (Panic, st) => (Panic, st)
  end.

(** One call, with the next outcome. *)
Definition os {A} (f : IoOutcome → Fs → result A * Fs) : Io A := λ st,
  let '(o, io) := next_io st.2 in
  let '(r, fs) := f o st.1 in (r, (fs, io)).

(** No call fails. *)
Definition quiet (io : list IoOutcome) : Prop := Forall (eq IoOk) io.
#[export] Instance quiet_dec io : Decision (quiet io).
Proof. unfold quiet. apply _. Defined.

(** A failing write leaves nothing behind. *)
Definition clean (o : IoOutcome) : Prop := match o with IoErr (S _) _ => False | _ => True end.
#[export] Instance clean_dec o : Decision (clean o).
Proof. destruct o as [|[|n] m]; simpl; apply _. Defined.

(** ** Segments *)
Definition WAL_FILE_EXTENSION : string := "wal".

Record WalSegment := mkSegment {
  base_seq : Z;
  path : string;
  file : nat;
  size : Z }.

Definition segment_filename (base : Z) : string :=
  dec0 20 base +:+ "." +:+ WAL_FILE_EXTENSION.

Definition parse_base_seq_from_filename (filename : string) : option Z :=
  stem ← strip_suffix ("." +:+ WAL_FILE_EXTENSION) filename;
  parse_u64 stem.

Definition create (base : Z) (io : IoOutcome) (fs : Fs) : result WalSegment * Fs :=
  let filename := segment_filename base in
  match io with
  | IoErr _ msg => (Err (EIo msg), fs)
  | IoOk =>
      let '(ino, fs') := fs_create filename fs in
      (Ok (mkSegment base filename ino 0), fs')
  end.

Definition open_append (p : string) (base : Z) (io : IoOutcome) (fs : Fs)
    : result WalSegment * Fs :=
  match io with
  | IoErr _ msg => (Err (EIo msg), fs)
  | IoOk =>
      match names fs !! p with
      | None => (Err (EIo "entity not found"), fs)
      | Some ino => (Ok (mkSegment base p ino (zlen (data (inode_of ino fs)))), fs)
      end
  end.

Definition append (d : bytes) (seg : WalSegment) (io : IoOutcome) (fs : Fs)
    : result Z * WalSegment * Fs :=
  match io with
  | IoErr written msg => (Err (EIo msg), seg, fs_write (file seg) (take written d) fs)
  | IoOk =>
      let seg' := mkSegment (base_seq seg) (path seg) (file seg) (size seg + zlen d) in
      (Ok (size seg'), seg', fs_write (file seg) d fs)
  end.

Definition sync (seg : WalSegment) (io : IoOutcome) (fs : Fs) : result unit * Fs :=
  match io with
  | IoErr _ msg => (Err (EIo msg), fs)
  | IoOk => (Ok (), fs_sync (file seg) fs)
  end.

(** [set_len], [seek], then [sync_data]. *)
Definition truncate (valid_len : Z) (seg : WalSegment) (io : IoOutcome) (fs : Fs)
    : result WalSegment * Fs :=
  let fs' := fs_set_len (file seg) (Z.to_nat valid_len) fs in
  match io with
  | IoErr O msg => (Err (EIo msg), fs)
  | IoErr (S _) msg => (Err (EIo msg), fs')
  | IoOk =>
      (Ok (mkSegment (base_seq seg) (path seg) (file seg) valid_len), fs_sync (file seg) fs')
  end.

Definition read_all (seg : WalSegment) (io : IoOutcome) (fs : Fs) : result bytes * Fs :=
  match io with
  | IoErr _ msg => (Err (EIo msg), fs)
  | IoOk => (Ok (data (inode_of (file seg) fs)), fs)
  end.

Definition remove_file (name : string) (io : IoOutcome) (fs : Fs) : result unit * Fs :=
  match io with
  | IoErr _ msg => (Err (EIo msg), fs)
  | IoOk => (Ok (), fs_remove name fs)
  end.

Definition remove (seg : WalSegment) (io : IoOutcome) (fs : Fs) : result unit * Fs :=
  match names fs !! path seg with
  | Some _ => remove_file (path seg) io fs
  | None => (Ok (), fs)
  end.

(** [fs::read_dir], with its entries. *)
Definition read_dir (io : IoOutcome) (fs : Fs) : result (gmap string nat) * Fs :=
  match io with
  | IoErr _ msg => (Err (EIo msg), fs)
  | IoOk => (Ok (names fs), fs)
  end.

Lemma next_io_quiet io : quiet io → ∃ io', next_io io = (IoOk, io') ∧ quiet io'.
Proof.
  intros H. destruct H as [|o io <- H]; [exists []|by exists io]. split; [done|constructor].
Qed.

Lemma next_io_suffix io : (next_io io).2 `suffix_of` io.
Proof. destruct io as [|o io]; [done|]. by exists [o]. Qed.

Lemma suffix_quiet io io' : io' `suffix_of` io → quiet io → quiet io'.
Proof. intros [k ->] H. by apply Forall_app in H as [_ ?]. Qed.

(** An outcome that is an error is not from a quiet list. *)
Lemma next_io_err io n m io' : next_io io = (IoErr n m, io') → ¬ quiet io.
Proof. intros E H. destruct (next_io_quiet io H) as (? & E' & _). congruence. Qed.

(** ** File names *)
Lemma str_length_app s t : String.length (s +:+ t) = (String.length s + String.length t)%nat.
Proof. induction s; simpl; [done|]. by rewrite IHs. Qed.

Lemma str_app_assoc s t u : (s +:+ t) +:+ u = s +:+ (t +:+ u).
Proof. induction s as [|c s IH]; [done|]. exact (f_equal (String c) IH). Qed.

Lemma strip_suffix_app p suf : strip_suffix suf (p +:+ suf) = Some p.
Proof.
  induction p as [|c p IH].
  - change ("" +:+ suf) with suf. destruct suf; cbn [strip_suffix]; by rewrite decide_True.
  - simpl. rewrite decide_False; [by rewrite IH|]. intros E.
    apply (f_equal String.length) in E. simpl in E. rewrite str_length_app in E. lia.
Qed.

Lemma parse_digits_zeros n s : parse_digits 0 (zeros n +:+ s) = parse_digits 0 s.
Proof. induction n as [|n IH]; [done|exact IH]. Qed.

Lemma digit_pretty x : (x < 10)%N → digit (pretty_N_char x) = Some (Z.of_N x).
Proof.
  intros. assert (x = 0 ∨ x = 1 ∨ x = 2 ∨ x = 3 ∨ x = 4 ∨ x = 5 ∨ x = 6 ∨ x = 7 ∨ x = 8 ∨ x = 9)%N
    as H' by lia. destruct_or! H'; by subst.
Qed.

Lemma parse_digits_pretty x s : Z.of_N x < 2 ^ 64 →
  parse_digits 0 (pretty_N_go x s) = parse_digits (Z.of_N x) s.
Proof.
  revert s. induction (N.lt_wf_0 x) as [x _ IH]. intros s Hx.
  destruct (decide (x = 0%N)) as [->|Hn]; [by rewrite pretty_N_go_0|].
  assert (0 < x)%N by lia. rewrite pretty_N_go_step by done.
  pose proof (N.div_lt x 10). pose proof (N.mod_lt x 10). pose proof (N.div_mod x 10).
  rewrite IH by lia. cbn [parse_digits]. rewrite digit_pretty by lia. cbn.
  replace (Z.of_N (x / 10) * 10 + Z.of_N (x mod 10)) with (Z.of_N x) by lia.
  by rewrite decide_True.
Qed.

(** A string of digits is never the lone plus sign nor starts with one. *)
Lemma parse_u64_digits s : s ≠ "" → (∀ s', s ≠ String "+"%char s') →
  parse_u64 s = parse_digits 0 s.
Proof.
  destruct s as [|c s]; [done|]. intros _ Hp. unfold parse_u64.
  destruct (decide (c = "+"%char)) as [->|Hc]; [by destruct (Hp s)|].
  repeat case_match; simplify_eq; done.
Qed.

Lemma pretty_N_go_plus x s s' : (∀ s'', s ≠ String "+"%char s'') → pretty_N_go x s ≠ String "+"%char s'.
Proof.
  revert s. induction (N.lt_wf_0 x) as [x _ IH]. intros s Hs.
  destruct (decide (x = 0%N)) as [->|Hn]; [by rewrite pretty_N_go_0|].
  assert (0 < x)%N by lia. rewrite pretty_N_go_step by done.
  apply IH; [apply N.div_lt; lia|]. intros s'' E. injection E as E _. revert E.
  unfold pretty_N_char. by repeat case_match.
Qed.

Lemma dec_nonneg z : 0 ≤ z → dec z = pretty (Z.to_N z).
Proof. intros. unfold dec. by destruct z. Qed.

Lemma parse_digits_dec z : in_u 64 z → parse_digits 0 (dec z) = Some z.
Proof.
  intros [? ?]. rewrite dec_nonneg by done. unfold pretty, pretty_N. case_decide as E.
  - simpl. f_equal. lia.
  - rewrite parse_digits_pretty by lia. simpl. f_equal. lia.
Qed.

Lemma dec_no_plus z s : 0 ≤ z → dec z ≠ String "+"%char s.
Proof.
  intros. rewrite dec_nonneg by done. unfold pretty, pretty_N. case_decide; [done|].
  by apply pretty_N_go_plus.
Qed.

(** The name written by [create] parses back to the base sequence. *)
Lemma segment_filename_parse b : in_u 64 b →
  parse_base_seq_from_filename (segment_filename b) = Some b.
Proof.
  intros Hb. assert (0 ≤ b) by (destruct Hb; done).
  unfold parse_base_seq_from_filename, segment_filename. rewrite strip_suffix_app. simpl.
  unfold dec0. rewrite decide_False by lia. unfold pad0.
  rewrite parse_u64_digits.
  - by rewrite parse_digits_zeros, parse_digits_dec.
  - destruct (20 - _)%nat; [|done]. intros E. change (dec b = "") in E.
    pose proof (parse_digits_dec b Hb) as Hp. rewrite E in Hp. injection Hp as <-. done.
  - intros s'. destruct (20 - _)%nat; [by apply dec_no_plus|done].
Qed.

Lemma segment_filename_wal b : ends_with WAL_FILE_EXTENSION (segment_filename b) = true.
Proof.
  unfold ends_with, segment_filename. apply bool_decide_eq_true_2.
  replace (dec0 20 b +:+ "." +:+ WAL_FILE_EXTENSION)
    with ((dec0 20 b +:+ ".") +:+ WAL_FILE_EXTENSION).
  - by rewrite strip_suffix_app.
  - by rewrite str_app_assoc.
Qed.

(** ** Inodes *)

(** No two names share a file. *)
Definition fs_ok (fs : Fs) : Prop :=
  ∀ n1 n2 ino, names fs !! n1 = Some ino → names fs !! n2 = Some ino → n1 = n2.

Lemma inode_of_set i j x fs :
  inode_of j (set_inode i x fs) = if decide (j = i) then x else inode_of j fs.
Proof.
  unfold inode_of, set_inode. simpl. case_decide as E; [subst; by rewrite lookup_insert_eq|].
  by rewrite lookup_insert_ne.
Qed.

(** The bytes a name stands for. *)
Definition contents_of (fs : Fs) (name : string) : bytes :=
  match names fs !! name with Some ino => data (inode_of ino fs) | None => [] end.
