(* ===== verification/WalRecovery.v ===== *)
(** * WAL crash recovery

    [crates/oxidemq-wal/src/recovery.rs]: scanning and healing the segment
    files of a directory, and reconciling recovered records with the offsets
    already committed to object storage. *)

From Stdlib Require Import Strings.Byte.
From stdpp Require Import base numbers list gmap strings sorting fin_maps.
From S2P Require Import Prelude Bytes Crc CoreTypes WalFrame WalSegment.

Record StreamWatermark := mkWM {
  wm_stream_id : Z;
  start_offset : Z;
  next_offset : Z;
  record_count : Z }.

#[export] Instance StreamWatermark_eq_dec : EqDecision StreamWatermark.
Proof. solve_decision. Defined.

Record RecoveryReport := mkReport {
  segment_files_scanned : Z;
  total_records_recovered : Z;
  highest_seq : Z;
  stream_watermarks : gmap Z StreamWatermark;
  truncated_bytes : Z }.

Definition report_default : RecoveryReport := mkReport 0 0 0 ∅ 0.

(** The bookkeeping for one decoded record. *)
Definition note_record (record : WalRecord) (report : RecoveryReport) : RecoveryReport :=
  let total := u64 (total_records_recovered report + 1) in
  let highest :=
    if decide (seq record > highest_seq report) then seq record else highest_seq report in
  let wm := default (mkWM (stream_id record) (offset record) (i64 (offset record + 1)) 0)
                    (stream_watermarks report !! stream_id record) in
  let wm := mkWM (wm_stream_id wm) (start_offset wm) (next_offset wm)
                 (u64 (record_count wm + 1)) in
  let wm :=
    if decide (offset record ≥ next_offset wm)
    then mkWM (wm_stream_id wm) (start_offset wm) (i64 (offset record + 1)) (record_count wm)
    else wm in
  mkReport (segment_files_scanned report) total highest
           (<[stream_id record := wm]> (stream_watermarks report)) (truncated_bytes report).

Definition note_truncated (n : Z) (report : RecoveryReport) : RecoveryReport :=
  mkReport (segment_files_scanned report) (total_records_recovered report)
           (highest_seq report) (stream_watermarks report) (u64 (truncated_bytes report + n)).

(** The [while] loop over one segment's bytes.  Every decoded frame is at
    least one byte long, so a fuel of one more than the length suffices; an
    exhausted fuel is reported as [Panic] and shown impossible below. *)
Fixpoint recover_loop (fuel : nat) (raw_data : bytes) (cursor : Z) (segment : WalSegment)
    (report : RecoveryReport) : Io RecoveryReport :=
  match fuel with
  | O => λ st, (Panic, st)
  | S fuel' =>
      let total_len := zlen raw_data in
      if decide (cursor < total_len) then
        match decode (drop (Z.to_nat cursor) raw_data) with
        | Ok (Some (record, bytes_consumed)) =>
            recover_loop fuel' raw_data (cursor + bytes_consumed) segment
                         (note_record record report)
        | Ok None =>
            let incomplete_len := total_len - cursor in
            _ ← os (truncate cursor segment);
            mret (note_truncated incomplete_len report)
        | Err err =>
            let corrupted_len := total_len - cursor in
            _ ← os (truncate cursor segment);
            mret (note_truncated corrupted_len report)
        | Panic => λ st, (Panic, st)
        end
      else mret report
  end.

(** One iteration of the loop over the sorted segments. *)
Definition recover_segment (bp : Z * string) (report : RecoveryReport) : Io RecoveryReport :=
  segment ← os (open_append bp.2 bp.1);
  raw_data ← os (read_all segment);
  recover_loop (S (length raw_data)) raw_data 0 segment report.

Fixpoint recover_segments (paths : list (Z * string)) (report : RecoveryReport)
    : Io RecoveryReport :=
  match paths with
  | [] => mret report
  | bp :: paths' => report ← recover_segment bp report; recover_segments paths' report
  end.

Section dir.
Context `{HO : HashOrder}.

(** The segment files among the entries, in the order [read_dir] lists them,
    then sorted. *)
Definition wal_entry (e : string * nat) : option (Z * string) :=
  if ends_with WAL_FILE_EXTENSION e.1
  then base ← parse_base_seq_from_filename e.1; Some (base, e.1) else None.

Definition list_segments (entries : gmap string nat) : list (Z * string) :=
  sort_by_key fst (omap wal_entry (hash_iter entries)).

Definition segment_paths (fs : Fs) : list (Z * string) := list_segments (names fs).

Definition recover_dir : Io RecoveryReport :=
  entries ← os read_dir;
  let paths := list_segments entries in
  recover_segments paths (mkReport (zlen paths) 0 0 ∅ 0).

(** [WalRecovery::recover]; [None] is a directory that does not exist. *)
Definition recover (wal_dir : option Fs) (io : list IoOutcome)
    : result RecoveryReport * (option Fs * list IoOutcome) :=
  match wal_dir with
  | None => (Ok report_default, (None, io))
  | Some fs => let '(r, (fs, io)) := recover_dir (fs, io) in (r, (Some fs, io))
  end.
End dir.

(** ** [reconcile_stream_records] *)
Definition group (records : list WalRecord) : gmap Z (list WalRecord) :=
  foldl (λ g r, <[stream_id r := default [] (g !! stream_id r) ++ [r]]> g) ∅ records.

Fixpoint reconcile_loop (end_offset expected_offset : Z) (recs valid : list WalRecord)
    : list WalRecord :=
  match recs with
  | [] => valid
  | r :: recs' =>
      if decide (offset r < end_offset) then reconcile_loop end_offset expected_offset recs' valid
      else if decide (offset r = expected_offset) then
        reconcile_loop end_offset (i64 (offset r + 1)) recs' (valid ++ [r])
      else if decide (offset r > expected_offset) then valid
      else reconcile_loop end_offset expected_offset recs' valid
  end.

Definition reconcile_stream (stream_end_offsets : gmap Z Z) (sid : Z) (recs : list WalRecord)
    (reconciled : gmap Z (list WalRecord)) : gmap Z (list WalRecord) :=
  match stream_end_offsets !! sid with
  | None => reconciled
  | Some end_offset =>
      let valid := reconcile_loop end_offset end_offset (sort_by_key offset recs) [] in
      if decide (valid = []) then reconciled else <[sid := valid]> reconciled
  end.

Definition reconcile_stream_records `{HashOrder} (records : list WalRecord)
    (stream_end_offsets : gmap Z Z) : gmap Z (list WalRecord) :=
  foldl (λ acc kv, reconcile_stream stream_end_offsets kv.1 kv.2 acc) ∅
        (hash_iter (group records)).

(** ** The records of a segment file *)

(** Nothing more can be decoded. *)
Definition stuck (tail : bytes) : Prop := ∀ r n, decode tail ≠ Ok (Some (r, n)).

(** The file is the frames of [rs] followed by bytes that do not decode. *)
Definition decodes (raw : bytes) (rs : list WalRecord) (tail : bytes) : Prop :=
  raw = frames rs ++ tail ∧ Forall wf rs ∧ stuck tail.

Fixpoint scan (fuel : nat) (raw : bytes) : list WalRecord * bytes :=
  match fuel with
  | O => ([], raw)
  | S fuel' =>
      match decode raw with
      | Ok (Some (r, n)) =>
          let '(rs, tail) := scan fuel' (drop (Z.to_nat n) raw) in (r :: rs, tail)
      | _ => ([], raw)
      end
  end.

Definition file_records (raw : bytes) : list WalRecord := (scan (S (length raw)) raw).1.

Lemma scan_decodes fuel raw : (length raw < fuel)%nat →
  decodes raw (scan fuel raw).1 (scan fuel raw).2.
Proof.
  revert raw. induction fuel as [|fuel IH]; intros raw Hf; [lia|]. simpl.
  destruct (decode raw) as [[[r n]|]| |] eqn:Hd; simpl.
  2-4: by split_and!; [done|done|intros ? ?; rewrite Hd].
  apply decode_inv in Hd as (Hwf & -> & k & ->).
  rewrite drop_app_exact by (unfold zlen; lia).
  specialize (IH k). destruct (scan fuel k) as [rs tail]. simpl in *.
  destruct IH as (-> & ? & ?).
  { rewrite length_app in Hf. pose proof (frame_nonempty r). lia. }
  split_and!; [by rewrite frames_cons, <- app_assoc|by constructor|done].
Qed.

Lemma decodes_file_records raw : ∃ tail, decodes raw (file_records raw) tail.
Proof. eexists. apply scan_decodes. lia. Qed.

Lemma decodes_det raw rs tail rs' tail' :
  decodes raw rs tail → decodes raw rs' tail' → rs = rs' ∧ tail = tail'.
Proof.
  revert raw rs'. induction rs as [|r rs IH]; intros raw rs' (-> & Hwf & Hs) (E & Hwf' & Hs').
  - destruct rs' as [|r' rs']; [done|]. rewrite frames_nil, frames_cons, <- app_assoc in E. exfalso. simpl in E.
    apply Forall_cons in Hwf' as [? _]. apply (Hs r' (zlen (frame r'))).
    rewrite E. by apply decode_frame.
  - rewrite frames_cons, <- app_assoc in E. apply Forall_cons in Hwf as [Hr Hwf].
    destruct rs' as [|r' rs'].
    { exfalso. rewrite frames_nil in E. simpl in E. apply (Hs' r (zlen (frame r))). rewrite <- E. by apply decode_frame. }
    apply Forall_cons in Hwf' as [Hr' Hwf']. rewrite frames_cons, <- app_assoc in E.
    pose proof (decode_frame r (frames rs ++ tail) Hr) as Hd.
    rewrite E, decode_frame in Hd by done. injection Hd as -> _.
    apply app_inv_head in E. destruct (IH _ rs' ltac:(by split_and!) ltac:(by split_and!)). by subst.
Qed.

Lemma file_records_decodes raw rs tail : decodes raw rs tail → file_records raw = rs.
Proof.
  intros H. destruct (decodes_file_records raw) as [t Ht]. by destruct (decodes_det _ _ _ _ _ Ht H).
Qed.

Lemma stuck_nil : stuck [].
Proof. by intros r n. Qed.

Lemma stuck_torn r n : wf r → (n < length (frame r))%nat → stuck (take n (frame r)).
Proof. intros ? ? r' n'. by rewrite decode_torn. Qed.

Lemma decodes_frames rs : Forall wf rs → decodes (frames rs) rs [].
Proof. intros. split_and!; [by rewrite app_nil_r|done|apply stuck_nil]. Qed.

(** Bytes after whole frames are decoded after them. *)
Lemma decodes_app rs raw rs' tail : Forall wf rs → decodes raw rs' tail →
  decodes (frames rs ++ raw) (rs ++ rs') tail.
Proof.
  intros Hwf (-> & ? & ?). split_and!; [|by apply Forall_app|done].
  by rewrite frames_app, <- app_assoc.
Qed.

Lemma recover_loop_spec fuel raw cursor seg rep rs tail st :
  0 ≤ cursor ≤ zlen raw → (length (drop (Z.to_nat cursor) raw) < fuel)%nat →
  decodes (drop (Z.to_nat cursor) raw) rs tail →
  recover_loop fuel raw cursor seg rep st =
    let rep := foldl (flip note_record) rep rs in
    if decide (tail = []) then (Ok rep, st)
    else (_ ← os (truncate (zlen raw - zlen tail) seg); mret (note_truncated (zlen tail) rep)) st.
Proof.
  revert cursor rep rs. induction fuel as [|fuel IH]; intros cursor rep rs Hc Hf Hd; [lia|].
  cbn [recover_loop]. destruct Hd as (Hraw & Hwf & Hs).
  assert (zlen (drop (Z.to_nat cursor) raw) = zlen raw - cursor) as Hl
    by (unfold zlen in *; rewrite length_drop; lia).
  destruct (decide (cursor < zlen raw)) as [Hlt|Hlt].
  - destruct rs as [|r rs]; [rewrite frames_nil in Hraw; simpl in Hraw|].
    + rewrite Hraw in Hl |- *. pose proof (decode_no_panic tail) as Hnp.
      rewrite decide_False by (intros ->; rewrite zlen_nil in Hl; lia).
      replace (zlen raw - zlen tail) with cursor by lia. rewrite <- Hl.
      destruct (decode tail) as [[[r n]|]| |] eqn:Hd; [by destruct (Hs r n)|done..].
    + apply Forall_cons in Hwf as [Hr Hwf]. rewrite frames_cons, <- app_assoc in Hraw.
      pose proof (decode_frame r (frames rs ++ tail) Hr) as Hd.
      rewrite <- Hraw in Hd. rewrite Hd.
      assert (drop (Z.to_nat (cursor + zlen (frame r))) raw = frames rs ++ tail) as Hdr.
      { rewrite Z2Nat.inj_add by (unfold zlen; lia). rewrite <- drop_drop, Hraw.
        apply drop_app_exact. unfold zlen. lia. }
      pose proof (zlen_nonneg (frames rs ++ tail)).
      apply (f_equal zlen) in Hraw. rewrite zlen_app in Hraw. pose proof (frame_nonempty r).
      rewrite (IH _ _ rs); [done|unfold zlen in *; lia| |rewrite Hdr; by split_and!].
      rewrite Hdr. unfold zlen in *. lia.
  - assert (rs = [] ∧ tail = []) as [-> ->]; [|done].
    assert (zlen (frames rs ++ tail) = 0) as H0 by (rewrite <- Hraw, Hl; lia).
    destruct rs as [|r rs].
    + split; [done|]. by destruct tail.
    + pose proof (frame_nonempty r). rewrite frames_cons, <- app_assoc, zlen_app in H0.
      pose proof (zlen_nonneg (frames rs ++ tail)). unfold zlen in *. lia.
Qed.

(** ** Recovering a directory *)

(** What recovery leaves of a file: its valid frames. *)
Definition heal (i : Inode) : Inode :=
  let valid := frames (file_records (data i)) in
  if decide (valid = data i) then i else mkInode valid (length valid).

Lemma heal_data i : data (heal i) = frames (file_records (data i)).
Proof. unfold heal. by case_decide. Qed.

(** The records of the files in [paths], and the bytes after them. *)
Definition log_of (paths : list (Z * string)) (fs : Fs) : list WalRecord :=
  paths ≫= λ bp, file_records (contents_of fs bp.2).

Definition tails_of (paths : list (Z * string)) (fs : Fs) : Z :=
  foldr Z.add 0 ((λ bp, zlen (contents_of fs bp.2)
                        - zlen (frames (file_records (contents_of fs bp.2)))) <$> paths).

Lemma decodes_tail raw rs tail : decodes raw rs tail →
  (frames rs = raw ↔ tail = []) ∧ zlen tail = zlen raw - zlen (frames rs).
Proof.
  intros (-> & _ & _). rewrite zlen_app. split; [|lia]. split.
  - intros E. rewrite <- (app_nil_r (frames rs)) in E at 1. by apply app_inv_head in E.
  - intros ->. by rewrite app_nil_r.
Qed.

Lemma note_truncated_0 rep : in_u 64 (truncated_bytes rep) → note_truncated 0 rep = rep.
Proof. intros. destruct rep. unfold note_truncated. simpl in *. by rewrite Z.add_0_r, wrap_u_small. Qed.

Lemma note_truncated_add a b rep :
  note_truncated a (note_truncated b rep) = note_truncated (b + a) rep.
Proof.
  unfold note_truncated. simpl. f_equal. unfold wrap_u.
  by rewrite Zplus_mod_idemp_l, Z.add_assoc.
Qed.

Lemma note_truncated_records a rep rs :
  foldl (flip note_record) (note_truncated a rep) rs
  = note_truncated a (foldl (flip note_record) rep rs).
Proof. revert rep. induction rs as [|r rs IH]; intros rep; [done|]. simpl. by rewrite <- IH. Qed.

Lemma truncated_range rep rs : in_u 64 (truncated_bytes rep) →
  in_u 64 (truncated_bytes (foldl (flip note_record) rep rs)).
Proof. revert rep. induction rs as [|r rs IH]; intros rep Ht; [done|]. by apply IH. Qed.

Lemma log_of_one bp fs : log_of [bp] fs = file_records (contents_of fs bp.2).
Proof. apply app_nil_r. Qed.

Lemma tails_of_one bp fs : tails_of [bp] fs =
  zlen (contents_of fs bp.2) - zlen (frames (file_records (contents_of fs bp.2))).
Proof. apply Z.add_0_r. Qed.

(** The same names, and files with the same records. *)
Definition same_records (fs fs' : Fs) : Prop :=
  names fs' = names fs ∧
  ∀ ino, file_records (data (inode_of ino fs')) = file_records (data (inode_of ino fs)).

#[export] Instance same_records_preorder : PreOrder same_records.
Proof.
  split; [by split|]. intros a b c [H1 H2] [H3 H4]. split; [by rewrite H3|]. intros. by rewrite H4.
Qed.

Lemma file_records_wf raw : Forall wf (file_records raw).
Proof. by destruct (decodes_file_records raw) as (? & _ & ? & _). Qed.

Lemma file_records_frames rs : Forall wf rs → file_records (frames rs) = rs.
Proof. intros. eapply file_records_decodes. by apply decodes_frames. Qed.

(** An operation of recovery on the files in [fs], with the outcomes [io] of the calls
    to come: whatever fails, no record is lost and only an I/O error is
    returned, which takes a failing call. *)
Definition recovers {A} (fs : Fs) (io : list IoOutcome) (ok : A → Fs → Prop)
    (out : result A * (Fs * list IoOutcome)) : Prop :=
  let '(r, (fs', io')) := out in
  same_records fs fs' ∧ io' `suffix_of` io ∧
  match r with
  | Ok a => ok a fs'
  | Err e => ¬ quiet io ∧ ∃ m, e = EIo m
  | Panic => False
  end.

Lemma recovers_bind {A B} (m : Io A) (k : A → Io B) fs io ok ok' :
  recovers fs io ok (m (fs, io)) →
  (∀ a fs' io', ok a fs' → same_records fs fs' → recovers fs' io' ok' (k a (fs', io'))) →
  recovers fs io ok' ((m ≫= k) (fs, io)).
Proof.
  unfold recovers, mbind, Io_bind. destruct (m (fs, io)) as [[a|e|] [fs1 io1]]; [|done..].
  intros (Hs & Hio & Ha) Hk. specialize (Hk a fs1 io1 Ha Hs). destruct (k a (fs1, io1)) as [r [fs2 io2]].
  destruct Hk as (Hs2 & Hio2 & Hr). split_and!; [by etrans|by etrans|].
  destruct r; [done| |done]. destruct Hr as [Hq ?]. split; [|done]. intros ?. apply Hq. by eapply suffix_quiet.
Qed.

Lemma recovers_mono {A} (ok ok' : A → Fs → Prop) fs io out :
  (∀ a fs', ok a fs' → ok' a fs') → recovers fs io ok out → recovers fs io ok' out.
Proof. intros Hok. destruct out as [[a|e|] [fs' io']]; [|done..]. intros (? & ? & ?). split_and!; [done..|auto]. Qed.

(** A call that changes nothing. *)
Lemma recovers_read {A} (f : IoOutcome → Fs → result A * Fs) (a : A) fs io :
  f IoOk fs = (Ok a, fs) → (∀ n m, f (IoErr n m) fs = (Err (EIo m), fs)) →
  recovers fs io (λ a' fs', a' = a ∧ fs' = fs) (os f (fs, io)).
Proof.
  intros Hok Herr. unfold os. cbn [fst snd]. pose proof (next_io_suffix io).
  destruct (next_io io) as [[|n m] io'] eqn:E; [rewrite Hok|rewrite Herr];
    (split; [done|]); (split; [done|]); [done|]. split; [by eapply next_io_err|by eexists].
Qed.

(** Cutting a file down to its valid frames. *)
Lemma recovers_truncate seg fs io raw tail :
  let ino := file seg in
  raw = data (inode_of ino fs) → decodes raw (file_records raw) tail → tail ≠ [] →
  recovers fs io
    (λ _ fs', ∀ j, inode_of j fs' = if decide (j = ino) then heal (inode_of ino fs) else inode_of j fs)
    (os (truncate (zlen raw - zlen tail) seg) (fs, io)).
Proof.
  intros ino Hraw Hd Ht. pose proof (decodes_tail _ _ _ Hd) as [Htl Hz].
  set (n := Z.to_nat (zlen raw - zlen tail)).
  assert (take n raw = frames (file_records raw)) as Htake.
  { destruct Hd as (E & _ & _). rewrite E at 1. apply take_app_exact. unfold n. rewrite Hz. unfold zlen. lia. }
  assert (same_records fs (fs_set_len ino n fs)) as Hsame.
  { split; [done|]. intros j. unfold fs_set_len. rewrite inode_of_set. case_decide; [|done]. subst j. cbn [data].
    rewrite <- Hraw, Htake. apply file_records_frames, file_records_wf. }
  unfold os. cbn [fst snd]. pose proof (next_io_suffix io).
  destruct (next_io io) as [[|[|k] m] io'] eqn:E; cbn [truncate]; fold ino n.
  - split_and!; [|done|].
    + etrans; [exact Hsame|]. split; [done|]. intros j. unfold fs_sync. rewrite inode_of_set.
      by case_decide; subst.
    + intros j. unfold fs_sync, fs_set_len. rewrite !inode_of_set. destruct (decide (j = ino)) as [->|]; [|done].
      rewrite decide_True by done. cbn [data]. rewrite <- Hraw, Htake. unfold heal. rewrite <- Hraw.
      by rewrite decide_False by (by intros ?%Htl).
  - split_and!; [done|done|by eapply next_io_err|by eexists].
  - split_and!; [done|done|by eapply next_io_err|by eexists].
Qed.

Lemma recover_segment_spec b p ino rep fs io : names fs !! p = Some ino →
  in_u 64 (truncated_bytes rep) →
  recovers fs io (λ rep' fs',
      rep' = note_truncated (tails_of [(b, p)] fs) (foldl (flip note_record) rep (log_of [(b, p)] fs))
    ∧ (∀ j, inode_of j fs' = if decide (j = ino) then heal (inode_of ino fs) else inode_of j fs)
    ∧ (frames (file_records (contents_of fs p)) = contents_of fs p → fs' = fs))
    (recover_segment (b, p) rep (fs, io)).
Proof.
  intros Hp Ht. set (raw := data (inode_of ino fs)).
  assert (contents_of fs p = raw) as Hraw by (unfold contents_of; by rewrite Hp).
  rewrite log_of_one, tails_of_one. cbn [snd]. rewrite Hraw. unfold recover_segment. cbn [fst snd].
  eapply recovers_bind.
  { apply (recovers_read _ (mkSegment b p ino (zlen raw))); [|done]. unfold open_append. by rewrite Hp. }
  intros seg ? io1 [-> ->] _. eapply recovers_bind; [by apply (recovers_read _ raw)|].
  intros ? ? io2 [-> ->] _. clear Hraw.
  destruct (decodes_file_records raw) as [tail Hd]. pose proof (decodes_tail _ _ _ Hd) as [Htl Hz].
  rewrite (recover_loop_spec _ _ _ _ _ (file_records raw) tail);
    [|pose proof (zlen_nonneg raw); lia|simpl; rewrite drop_0; lia|by simpl; rewrite drop_0].
  cbv zeta. destruct (decide (tail = [])) as [E|E].
  - split; [done|]. split; [done|]. rewrite <- Hz, E, zlen_nil, note_truncated_0 by (by apply truncated_range).
    split_and!; [done| |done]. intros j. case_decide; [|done]. subst j.
    unfold heal. fold raw. by rewrite decide_True by (by apply Htl).
  - eapply recovers_bind; [by eapply recovers_truncate|].
    intros seg' fs' io' Hi Hs. split_and!; [done|done|by rewrite <- Hz|done|].
    intros ?. by destruct E; apply Htl.
Qed.

(** A file of whole frames is not touched, whatever call fails. *)
Lemma recover_segment_whole b p rep fs io :
  frames (file_records (contents_of fs p)) = contents_of fs p →
  (recover_segment (b, p) rep (fs, io)).2.1 = fs.
Proof.
  intros Hw. unfold recover_segment, mbind, Io_bind, os. cbn [fst snd].
  destruct (next_io io) as [[|n m] io1]; [|done]. cbn [open_append]. unfold contents_of in Hw.
  destruct (names fs !! p) as [ino|]; [|done]. cbn [snd]. destruct (next_io io1) as [[|n m] io2]; [|done].
  cbn [read_all file fst snd]. set (raw := data (inode_of ino fs)) in *.
  rewrite (recover_loop_spec _ _ _ _ _ (file_records raw) []);
    [done|pose proof (zlen_nonneg raw); lia|simpl; rewrite drop_0; lia|].
  simpl. rewrite drop_0. split_and!; [by rewrite app_nil_r|apply file_records_wf|apply stuck_nil].
Qed.

Lemma log_of_cons bp paths fs : log_of (bp :: paths) fs = log_of [bp] fs ++ log_of paths fs.
Proof. by rewrite log_of_one. Qed.

Lemma log_of_app p q fs : log_of (p ++ q) fs = log_of p fs ++ log_of q fs.
Proof. unfold log_of. apply bind_app. Qed.

Lemma tails_of_cons bp paths fs : tails_of (bp :: paths) fs = tails_of [bp] fs + tails_of paths fs.
Proof. by rewrite tails_of_one. Qed.

Lemma contents_of_ext fs fs' name : names fs' = names fs →
  (∀ ino, names fs !! name = Some ino → inode_of ino fs' = inode_of ino fs) →
  contents_of fs' name = contents_of fs name.
Proof.
  intros Hn Hi. unfold contents_of. rewrite Hn. destruct (names fs !! name) eqn:E; [|done].
  by rewrite Hi.
Qed.

(** [log_of] and [tails_of] only read the files they name. *)
Lemma log_of_ext paths fs fs' :
  (∀ bp, bp ∈ paths → contents_of fs' bp.2 = contents_of fs bp.2) →
  log_of paths fs' = log_of paths fs ∧ tails_of paths fs' = tails_of paths fs.
Proof.
  induction paths as [|bp paths IH]; intros Hc; [done|].
  destruct IH as [IH1 IH2]; [intros; apply Hc; set_solver|].
  rewrite !(log_of_cons bp paths), !(tails_of_cons bp paths), IH1, IH2.
  rewrite !log_of_one, !tails_of_one. by rewrite Hc by set_solver.
Qed.

(** [fs'] is [fs] with the files in [paths] healed. *)
Definition healed (paths : list (Z * string)) (fs fs' : Fs) : Prop :=
  names fs' = names fs ∧
  (∀ ino, (∃ bp, bp ∈ paths ∧ names fs !! bp.2 = Some ino) →
          inode_of ino fs' = heal (inode_of ino fs)) ∧
  (∀ ino, ¬ (∃ bp, bp ∈ paths ∧ names fs !! bp.2 = Some ino) →
          inode_of ino fs' = inode_of ino fs).

Definition paths_ok (paths : list (Z * string)) (fs : Fs) : Prop :=
  fs_ok fs ∧ NoDup paths.*2 ∧ ∀ bp, bp ∈ paths → is_Some (names fs !! bp.2).

Lemma recover_segments_spec paths rep fs io : paths_ok paths fs → in_u 64 (truncated_bytes rep) →
  recovers fs io (λ rep' fs',
      rep' = note_truncated (tails_of paths fs) (foldl (flip note_record) rep (log_of paths fs))
    ∧ healed paths fs fs')
    (recover_segments paths rep (fs, io))
  ∧ ((∀ bp, bp ∈ paths → frames (file_records (contents_of fs bp.2)) = contents_of fs bp.2) →
     (recover_segments paths rep (fs, io)).2.1 = fs).
Proof.
  revert rep fs io. induction paths as [|[b p] paths IH]; intros rep fs io (Hok & Hnd & Hin) Ht.
  { split; [|done]. split; [done|]. split; [done|]. split; [by rewrite note_truncated_0|].
    split_and!; [done| |done]. intros ino (bp & Hbp & _). set_solver. }
  rewrite fmap_cons in Hnd. apply NoDup_cons in Hnd as [Hp Hnd]. simpl in Hp.
  destruct (Hin (b, p)) as [ino Hino]; [set_solver|]. simpl in Hino.
  pose proof (recover_segment_spec b p ino rep fs io Hino Ht) as Hr.
  assert (∀ bp, bp ∈ paths → names fs !! bp.2 ≠ Some ino) as Hne.
  { intros bp Hbp Hbp'. destruct Hp. rewrite (Hok p bp.2 ino) by done.
    by apply list_elem_of_fmap_2. }
  cbn [recover_segments].
  assert (∀ fs1, same_records fs fs1 → paths_ok paths fs1) as Hok1.
  { intros fs1 [Hn1 _]. unfold paths_ok, fs_ok. rewrite Hn1. split_and!; [done|done|].
    intros. apply Hin. set_solver. }
  split.
  - eapply recovers_bind; [exact Hr|]. intros rep1 fs1 io1 (-> & Hi1 & _) Hs1.
    pose proof Hs1 as [Hn1 _].
    destruct (IH (note_truncated (tails_of [(b, p)] fs) (foldl (flip note_record) rep (log_of [(b, p)] fs))) fs1 io1)
      as [Hrs _]; [by apply Hok1|by apply wrap_u_range|]. eapply recovers_mono; [|exact Hrs].
    intros rep' fs' (-> & Hn' & Hi' & Ho'). rewrite Hn1 in *.
    destruct (log_of_ext paths fs fs1) as [Hlog Htails].
    { intros bp Hbp. apply contents_of_ext; [done|]. intros j Hj. rewrite Hi1.
      rewrite decide_False; [done|]. intros ->. by apply (Hne bp Hbp). }
    split.
    + rewrite Hlog, Htails, note_truncated_records, note_truncated_add, <- foldl_app.
      by rewrite <- log_of_cons, <- tails_of_cons.
    + split_and!; [done| |].
      * intros j (bp & Hbp & Hj). apply elem_of_cons in Hbp as [->|Hbp].
        -- simpl in Hj. simplify_eq. rewrite Ho', Hi1, decide_True; [done|done|].
           intros (bp & Hbp & Hj'). by apply (Hne bp Hbp).
        -- rewrite Hi' by eauto. rewrite Hi1, decide_False; [done|]. intros ->. by apply (Hne bp Hbp).
      * intros j Hj. rewrite Ho' by (intros (bp & ? & ?); apply Hj; exists bp; set_solver).
        rewrite Hi1, decide_False; [done|]. intros ->. apply Hj. exists (b, p). set_solver.
  - intros Hall. unfold mbind, Io_bind.
    assert ((recover_segment (b, p) rep (fs, io)).2.1 = fs) as Hid by (by apply recover_segment_whole; set_solver).
    destruct (recover_segment (b, p) rep (fs, io)) as [[rep1|e|] [fs1 io1]]; cbn in Hid; subst fs1; [|done..].
    destruct Hr as (_ & _ & -> & _). apply IH; [by apply Hok1|by apply wrap_u_range|]. intros. apply Hall. set_solver.
Qed.

Section recover.
Context `{HO : HashOrder}.

Lemma elem_of_segment_paths fs b p : (b, p) ∈ segment_paths fs ↔
  is_Some (names fs !! p) ∧ ends_with WAL_FILE_EXTENSION p = true
  ∧ parse_base_seq_from_filename p = Some b.
Proof.
  unfold segment_paths, list_segments. rewrite elem_of_sort_by_key, list_elem_of_omap. split.
  - intros ([p' ino] & Hin%elem_of_hash_iter & He). unfold wal_entry in He. simpl in He.
    case_match; [|done]. destruct (parse_base_seq_from_filename p') eqn:Hp; [|done].
    simpl in He. simplify_eq. by split_and!.
  - intros ([ino Hino] & He & Hp). exists (p, ino). rewrite elem_of_hash_iter. split; [done|].
    unfold wal_entry. simpl. by rewrite He, Hp.
Qed.

Lemma omap_entry_NoDup l : NoDup l.*1 → NoDup (omap wal_entry l).*2.
Proof.
  induction l as [|[p i] l IH]; [by constructor|]. rewrite fmap_cons. intros [Hp Hnd]%NoDup_cons.
  simpl in *. unfold wal_entry at 1. simpl.
  destruct (ends_with _ p); simpl; [|by apply IH].
  destruct (parse_base_seq_from_filename p) as [b|]; simpl; [|by apply IH].
  constructor; [|by apply IH]. intros ([b' p'] & Hb & Hin)%list_elem_of_fmap.
  apply list_elem_of_omap in Hin as ([p'' i'] & Hin & He). unfold wal_entry in He. simpl in *.
  case_match; [|done]. destruct (parse_base_seq_from_filename p''); [|done]. simpl in He. simplify_eq.
  destruct Hp. by apply (list_elem_of_fmap_2 fst) in Hin.
Qed.

Lemma segment_paths_ok fs : fs_ok fs → paths_ok (segment_paths fs) fs.
Proof.
  intros Hok. split_and!; [done| |].
  - unfold segment_paths, list_segments. rewrite sort_by_key_perm. apply omap_entry_NoDup, NoDup_fst_hash_iter.
  - intros [b p] Hin. by apply elem_of_segment_paths in Hin as [? _].
Qed.

(** The log a directory holds. *)
Definition wal_log (fs : Fs) : list WalRecord := log_of (segment_paths fs) fs.

Definition report_of (fs : Fs) (log : list WalRecord) : RecoveryReport :=
  foldl (flip note_record) (mkReport (zlen (segment_paths fs)) 0 0 ∅ 0) log.

(** Recovering a directory, whatever calls fail. *)
Lemma recover_spec fs io : fs_ok fs →
  ∃ r fs' io', recover (Some fs) io = (r, (Some fs', io'))
  ∧ recovers fs io (λ rep fs',
      rep = note_truncated (tails_of (segment_paths fs) fs) (report_of fs (wal_log fs))
      ∧ healed (segment_paths fs) fs fs') (r, (fs', io'))
  ∧ ((∀ bp, bp ∈ segment_paths fs →
        frames (file_records (contents_of fs bp.2)) = contents_of fs bp.2) → fs' = fs).
Proof.
  intros Hok. unfold recover.
  destruct (recover_dir (fs, io)) as [r [fs' io']] eqn:E. exists r, fs', io'. split; [done|]. rewrite <- E.
  unfold recover_dir. pose proof (λ io, recover_segments_spec (segment_paths fs)
    (mkReport (zlen (segment_paths fs)) 0 0 ∅ 0) fs io (segment_paths_ok fs Hok) ltac:(by vm_compute)) as Hr.
  split.
  - eapply recovers_bind; [by apply (recovers_read _ (names fs))|]. intros ? ? io1 [-> ->] _. apply Hr.
  - intros Hw. change fs' with (r, (fs', io')).2.1. rewrite <- E. unfold recover_dir, mbind, Io_bind, os. cbn [fst snd].
    destruct (next_io io) as [[|n m] io1]; [|done]. cbn [read_dir]. by apply Hr.
Qed.

(** When no call fails recovery returns its report. *)
Lemma recover_quiet fs io : fs_ok fs → quiet io →
  ∃ fs' io', recover (Some fs) io =
    (Ok (note_truncated (tails_of (segment_paths fs) fs) (report_of fs (wal_log fs))), (Some fs', io'))
  ∧ quiet io' ∧ healed (segment_paths fs) fs fs'
  ∧ ((∀ bp, bp ∈ segment_paths fs →
        frames (file_records (contents_of fs bp.2)) = contents_of fs bp.2) → fs' = fs).
Proof.
  intros Hok Hq. destruct (recover_spec fs io Hok) as (r & fs' & io' & -> & (_ & Hio & Hr) & Hid).
  destruct r as [rep|e|]; [|by destruct Hr|done]. destruct Hr as [-> Hh].
  exists fs', io'. split_and!; [done|by eapply suffix_quiet|done|done].
Qed.

Lemma same_records_log fs fs' : same_records fs fs' →
  segment_paths fs' = segment_paths fs ∧ wal_log fs' = wal_log fs.
Proof.
  intros [Hn Hr]. assert (segment_paths fs' = segment_paths fs) as Hp by (unfold segment_paths, list_segments; by rewrite Hn).
  split; [done|]. unfold wal_log, log_of. rewrite Hp. apply list_bind_ext; [|done]. intros bp. unfold contents_of.
  rewrite Hn. by destruct (names fs !! bp.2).
Qed.

Lemma wal_log_wf fs : Forall wf (wal_log fs).
Proof.
  unfold wal_log, log_of. apply Forall_forall. intros r (bp & Hin & _)%list_elem_of_bind.
  pose proof (file_records_wf (contents_of fs bp.2)) as Hwf. rewrite Forall_forall in Hwf. auto.
Qed.

Lemma healed_contents fs fs' b p : healed (segment_paths fs) fs fs' → (b, p) ∈ segment_paths fs →
  contents_of fs' p = frames (file_records (contents_of fs p)).
Proof.
  intros (Hn & Hi & _) Hin. unfold contents_of. rewrite Hn.
  destruct (names fs !! p) as [ino|] eqn:Hp; [|done].
  rewrite Hi by (by exists (b, p)). apply heal_data.
Qed.

(** After healing every segment is whole frames, and the log is the same. *)
Lemma healed_log fs fs' : healed (segment_paths fs) fs fs' →
  segment_paths fs' = segment_paths fs ∧ wal_log fs' = wal_log fs ∧
  tails_of (segment_paths fs') fs' = 0 ∧
  (∀ bp, bp ∈ segment_paths fs' →
     frames (file_records (contents_of fs' bp.2)) = contents_of fs' bp.2).
Proof.
  intros Hh. assert (segment_paths fs' = segment_paths fs) as Hp
    by (unfold segment_paths, list_segments; by destruct Hh as [-> _]).
  unfold wal_log. rewrite Hp. split; [done|].
  assert (∀ bp, bp ∈ segment_paths fs →
    contents_of fs' bp.2 = frames (file_records (contents_of fs bp.2))) as Hc
    by (intros [b p] Hin; by eapply healed_contents).
  revert Hc. clear. induction (segment_paths fs) as [|bp paths IH]; intros Hc; [set_solver|].
  destruct IH as (IH1 & IH2 & IH3); [intros; apply Hc; set_solver|].
  rewrite !(log_of_cons bp paths), (tails_of_cons bp paths), IH1, IH2.
  pose proof (Hc bp ltac:(set_solver)) as Hbp.
  pose proof (file_records_wf (contents_of fs bp.2)) as Hwf.
  split_and!.
  - f_equal. by rewrite !log_of_one, Hbp, file_records_frames.
  - rewrite tails_of_one, Hbp, file_records_frames by done. lia.
  - intros bp' [->|Hin]%elem_of_cons; [|by apply IH3]. by rewrite Hbp, file_records_frames.
Qed.
End recover.

(** ** What the report says *)
Definition max_seq (l : list WalRecord) : Z := foldr (λ r m, Z.max (seq r) m) 0 l.
Definition max_next (l : list WalRecord) : Z := foldr (λ r m, Z.max (offset r + 1) m) i64_min l.

Definition of_stream (sid : Z) (l : list WalRecord) : list WalRecord :=
  filter (λ r, stream_id r = sid) l.

(** The watermark of a stream whose records are [l], in log order. *)
Definition watermark (l : list WalRecord) : option StreamWatermark :=
  match l with
  | [] => None
  | r :: _ => Some (mkWM (stream_id r) (offset r) (max_next l) (zlen l))
  end.

Lemma max_seq_snoc l r : max_seq (l ++ [r]) = Z.max (max_seq l) (seq r) ∨ seq r < 0.
Proof.
  destruct (decide (seq r < 0)); [by right|left]. induction l; cbn; [lia|].
  unfold max_seq in *. rewrite IHl. lia.
Qed.

Lemma max_next_snoc l r : i64_min ≤ offset r →
  max_next (l ++ [r]) = Z.max (max_next l) (offset r + 1).
Proof. intros. induction l; cbn; [lia|]. unfold max_next in *. rewrite IHl. lia. Qed.

Lemma max_next_ge l : i64_min ≤ max_next l.
Proof. unfold max_next. induction l; simpl; lia. Qed.

Lemma of_stream_snoc sid l r :
  of_stream sid (l ++ [r]) = of_stream sid l ++ (if decide (stream_id r = sid) then [r] else []).
Proof. unfold of_stream. rewrite filter_app, filter_cons. by case_decide. Qed.

(** The offsets for which [offset + 1] does not overflow. *)
Definition next_fits (r : WalRecord) : Prop := i64_min ≤ offset r < i64_max.
#[export] Instance next_fits_dec r : Decision (next_fits r).
Proof. unfold next_fits. apply _. Defined.

Lemma i64_next r : next_fits r → i64 (offset r + 1) = offset r + 1.
Proof.
  intros [? ?]. apply wrap_s_small; [lia|]. unfold in_s, i64_min, i64_max in *.
  change (64 - 1) with 63. lia.
Qed.

Section report.
Context (n : Z).

Definition report_from (l : list WalRecord) : RecoveryReport :=
  foldl (flip note_record) (mkReport n 0 0 ∅ 0) l.

Lemma report_snoc l r : report_from (l ++ [r]) = note_record r (report_from l).
Proof. unfold report_from. by rewrite foldl_app. Qed.

Lemma report_total l : total_records_recovered (report_from l) = u64 (zlen l).
Proof.
  induction l as [|r l IH] using rev_ind; [done|]. lens. rewrite report_snoc. unfold note_record.
  cbn [total_records_recovered]. rewrite IH. unfold wrap_u. by rewrite Zplus_mod_idemp_l.
Qed.

Lemma report_highest l : Forall wf l → highest_seq (report_from l) = max_seq l.
Proof.
  induction l as [|r l IH] using rev_ind; [done|]. intros [Hl Hr]%Forall_app.
  apply Forall_cons in Hr as [[Hs _] _]. unfold in_u in Hs.
  rewrite report_snoc. unfold note_record. cbn [highest_seq]. rewrite IH by done.
  destruct (max_seq_snoc l r) as [->|]; [|lia]. case_decide; lia.
Qed.

Lemma report_truncated l : truncated_bytes (report_from l) = 0.
Proof. induction l as [|r l IH] using rev_ind; [done|]. by rewrite report_snoc. Qed.

Lemma report_watermark sid l : Forall next_fits l → zlen l < 2 ^ 64 →
  stream_watermarks (report_from l) !! sid = watermark (of_stream sid l).
Proof.
  induction l as [|r l IH] using rev_ind; [done|]. intros [Hl Hr]%Forall_app. lens. intros Hz.
  apply Forall_cons in Hr as [Hr _]. specialize (IH Hl ltac:(lia)).
  rewrite report_snoc, of_stream_snoc. unfold note_record. cbn [stream_watermarks].
  destruct (decide (stream_id r = sid)) as [E|]; [|by rewrite lookup_insert_ne, app_nil_r].
  subst sid. rewrite lookup_insert_eq, IH, !i64_next by done.
  assert (zlen (of_stream (stream_id r) l) ≤ zlen l) as Hle.
  { unfold zlen, of_stream. pose proof (length_filter (λ r0, stream_id r0 = stream_id r) l). lia. }
  destruct Hr as [Hr1 Hr2].
  destruct (of_stream (stream_id r) l) as [|r0 l0] eqn:E; cbn [watermark app from_option]; unfold id.
  - cbn [next_offset start_offset wm_stream_id record_count]. rewrite decide_False by lia.
    unfold max_next. simpl. rewrite Z.max_l by lia. done.
  - cbn [next_offset start_offset wm_stream_id record_count].
    rewrite app_comm_cons, max_next_snoc by done. rewrite zlen_app.
    pose proof (zlen_nonneg (r0 :: l0)). rewrite wrap_u_small by (unfold in_u; lia).
    assert (stream_id r0 = stream_id r) as ->.
    { assert (r0 ∈ of_stream (stream_id r) l) as Hin by (rewrite E; set_solver).
      by apply list_elem_of_filter in Hin as [? _]. }
    change (zlen [r]) with 1. case_decide; f_equal; f_equal; lia.
Qed.
End report.

(** ** Reconciliation *)
Lemma group_lookup sid records :
  group records !! sid =
    match of_stream sid records with [] => None | l => Some l end.
Proof.
  induction records as [|r l IH] using rev_ind; [done|].
  unfold group in *. rewrite foldl_app, of_stream_snoc. simpl.
  destruct (decide (stream_id r = sid)) as [<-|].
  - rewrite lookup_insert_eq, IH. by destruct (of_stream (stream_id r) l).
  - by rewrite lookup_insert_ne, IH, app_nil_r.
Qed.

(** The entry that [reconcile_stream] adds for its own stream. *)
Definition reconciled_entry (ends : gmap Z Z) (sid : Z) (recs : list WalRecord)
    : option (list WalRecord) :=
  match ends !! sid with
  | None => None
  | Some e =>
      let valid := reconcile_loop e e (sort_by_key offset recs) [] in
      if decide (valid = []) then None else Some valid
  end.

Lemma reconcile_stream_lookup ends sid recs acc k :
  reconcile_stream ends sid recs acc !! k =
    if decide (k = sid) then reconciled_entry ends sid recs ∪ acc !! k else acc !! k.
Proof.
  unfold reconcile_stream, reconciled_entry.
  destruct (ends !! sid) as [e|]; [|case_decide; [|done]; by destruct (acc !! k)].
  destruct (decide (_ = [])); [case_decide; [|done]; by destruct (acc !! k)|].
  case_decide as E; [subst; rewrite lookup_insert_eq; by destruct (acc !! sid)|].
  by rewrite lookup_insert_ne.
Qed.

Lemma reconcile_fold_lookup ends l acc k : NoDup l.*1 → acc !! k = None →
  foldl (λ acc kv, reconcile_stream ends kv.1 kv.2 acc) acc l !! k =
    match list_find (λ kv, kv.1 = k) l with
    | Some (_, kv) => reconciled_entry ends k kv.2
    | None => None
    end.
Proof.
  revert acc. induction l as [|[sid recs] l IH]; intros acc Hnd Ha; [done|].
  rewrite fmap_cons in Hnd. apply NoDup_cons in Hnd as [Hn Hnd]. cbn [foldl list_find fst snd].
  destruct (decide (sid = k)) as [->|Hne].
  - assert (reconcile_stream ends k recs acc !! k = reconciled_entry ends k recs) as Hk.
    { rewrite reconcile_stream_lookup, decide_True, Ha by done.
      by destruct (reconciled_entry ends k recs). }
    revert Hk. generalize (reconcile_stream ends k recs acc). clear -Hn. simpl in Hn.
    induction l as [|[sid' recs'] l IH]; intros acc Hk; [done|]. simpl. apply IH; [set_solver|].
    rewrite reconcile_stream_lookup, decide_False; [done|]. set_solver.
  - rewrite IH; [|done|].
    + by destruct (list_find _ l) as [[i [k' r']]|].
    + by rewrite reconcile_stream_lookup, decide_False.
Qed.

Lemma reconcile_lookup `{HashOrder} records ends sid :
  reconcile_stream_records records ends !! sid =
    reconciled_entry ends sid (of_stream sid records).
Proof.
  unfold reconcile_stream_records.
  rewrite reconcile_fold_lookup by (apply NoDup_fst_hash_iter || done).
  destruct (list_find _ _) as [[i [k recs]]|] eqn:Hf.
  - apply list_find_Some in Hf as (Hi & Hk & _). simpl in *. subst k.
    apply list_elem_of_lookup_2, elem_of_hash_iter in Hi. rewrite group_lookup in Hi.
    destruct (of_stream sid records); by simplify_eq.
  - apply list_find_None in Hf. rewrite Forall_forall in Hf.
    assert (group records !! sid = None) as Hg.
    { destruct (group records !! sid) as [v|] eqn:Hg; [|done].
      apply elem_of_hash_iter in Hg. by apply Hf in Hg. }
    rewrite group_lookup in Hg. destruct (of_stream sid records); [|done].
    unfold reconciled_entry. by destruct (ends !! sid).
Qed.

(** The loop takes the maximal consecutive run from the expected offset. *)
Lemma reconcile_loop_spec e x l acc : e ≤ x → Forall next_fits l →
  StronglySorted (λ a b, offset a ≤ offset b) l →
  ∃ k, reconcile_loop e x l acc = acc ++ k
     ∧ offset <$> k = seqZ x (zlen k)
     ∧ k ⊆ l
     ∧ ∀ r, r ∈ l → offset r ≠ x + zlen k.
Proof.
  intros Hx Hf Hs. revert x acc Hx. induction Hs as [|r l Hs IH Hr]; intros x acc Hx.
  { exists []. simpl. split_and!; [by rewrite app_nil_r|done|done|set_solver]. }
  apply Forall_cons in Hf as [Hfr Hf]. specialize (IH Hf). simpl.
  assert (offset r < x → ∃ k, reconcile_loop e x l acc = acc ++ k ∧ offset <$> k = seqZ x (zlen k)
     ∧ k ⊆ r :: l ∧ ∀ r', r' ∈ r :: l → offset r' ≠ x + zlen k) as Hskip.
  { intros Hlt. destruct (IH x acc Hx) as (k & ? & ? & ? & Hm). exists k.
    split_and!; [done..|set_solver|]. intros r' [->|Hr']%elem_of_cons; [|by apply Hm].
    pose proof (zlen_nonneg k). lia. }
  destruct (decide (offset r < e)); [apply Hskip; lia|].
  destruct (decide (offset r = x)) as [E|].
  - rewrite i64_next, E by done. destruct (IH (x + 1) (acc ++ [r])) as (k & -> & Hk & Hsub & Hm); [lia|].
    exists (r :: k). rewrite zlen_cons. pose proof (zlen_nonneg k). split_and!.
    + by rewrite <- app_assoc.
    + rewrite fmap_cons, Hk, E. rewrite (seqZ_cons x) by lia. f_equal. f_equal; lia.
    + set_solver.
    + intros r' [->|Hr']%elem_of_cons; [lia|]. specialize (Hm r' Hr'). lia.
  - destruct (decide (x < offset r)); [|apply Hskip; lia].
    exists []. rewrite app_nil_r. split_and!; [done|done|set_solver|].
    rewrite zlen_nil. intros r' [->|Hr']%elem_of_cons; [lia|].
    rewrite Forall_forall in Hr. specialize (Hr r' Hr'). simpl in Hr. lia.
Qed.

(** ** Theorems *)
Section theorems.
Context `{HO : HashOrder}.

(** C4: recovery is exact, and never loses a record.  Whatever bytes the segment
    files hold and whichever of its I/O calls fail ([io]: listing the
    directory, opening, reading or truncating a file), recovery does not
    panic, and the directory holds the same log as before (the frames that
    decode from the start of each segment, segments in base-sequence order).
    It fails only with an I/O error, and only if a call failed.  When it
    succeeds, each segment file is exactly its valid frames, and the report
    has the number of records of the log and of the bytes cut off (as 64-bit
    counters), the highest sequence number and, provided that the log has
    fewer than 2^64 records and none at offset i64::MAX (whose successor
    wraps), for every stream its first offset, one past its largest offset
    and its record count. *)
Theorem recover_exact fs io : fs_ok fs →
  ∃ r fs' io', recover (Some fs) io = (r, (Some fs', io'))
    ∧ wal_log fs' = wal_log fs
    ∧ match r with
      | Ok rep =>
          total_records_recovered rep = u64 (zlen (wal_log fs))
          ∧ highest_seq rep = max_seq (wal_log fs)
          ∧ (Forall next_fits (wal_log fs) → zlen (wal_log fs) < 2 ^ 64 → ∀ sid,
               stream_watermarks rep !! sid = watermark (of_stream sid (wal_log fs)))
          ∧ truncated_bytes rep = u64 (tails_of (segment_paths fs) fs)
          ∧ ∀ b p, (b, p) ∈ segment_paths fs →
              contents_of fs' p = frames (file_records (contents_of fs p))
      | Err e => ¬ quiet io ∧ ∃ m, e = EIo m
      | Panic => False
      end.
Proof.
  intros Hok. destruct (recover_spec fs io Hok) as (r & fs' & io' & Hr & (Hs & _ & Ho) & _).
  exists r, fs', io'. split_and!; [done|by apply same_records_log|].
  destruct r as [rep|e|]; [|done..]. destruct Ho as [-> Hh].
  change (report_of fs (wal_log fs)) with (report_from (zlen (segment_paths fs)) (wal_log fs)).
  unfold note_truncated.
  cbn [total_records_recovered highest_seq stream_watermarks truncated_bytes]. split_and!.
  - by apply report_total.
  - apply report_highest, wal_log_wf.
  - intros. by apply report_watermark.
  - f_equal. rewrite <- (Z.add_0_l (tails_of _ _)) at 2. f_equal.
    by apply report_truncated.
  - intros b p Hin. by eapply healed_contents.
Qed.

(** Recovery is idempotent: run again on what it left, it truncates
    nothing, changes no file and reports the same records. *)
Theorem recover_idempotent fs io rep fs' io' : fs_ok fs → quiet io →
  recover (Some fs) io = (Ok rep, (Some fs', io')) →
  ∃ rep' io'', recover (Some fs') io' = (Ok rep', (Some fs', io''))
    ∧ truncated_bytes rep' = 0
    ∧ total_records_recovered rep' = total_records_recovered rep
    ∧ highest_seq rep' = highest_seq rep
    ∧ stream_watermarks rep' = stream_watermarks rep.
Proof.
  intros Hok Hq Hr. destruct (recover_quiet fs io Hok Hq) as (fs1 & io1 & Hr1 & Hq1 & Hh & _).
  rewrite Hr in Hr1. injection Hr1 as -> <- <-.
  destruct (healed_log fs fs' Hh) as (Hp & Hl & Ht & Hall).
  destruct (recover_quiet fs' io') as (fs2 & io2 & Hr2 & _ & _ & Hid); [|done|].
  { unfold fs_ok. by destruct Hh as [-> _]. }
  rewrite Hid in Hr2 by done. eexists _, io2. split; [exact Hr2|].
  rewrite Ht, Hl. unfold report_of. rewrite Hp. unfold note_truncated.
  cbn [total_records_recovered highest_seq stream_watermarks truncated_bytes]. split_and!; [|done..].
  change (u64 (truncated_bytes (report_from (zlen (segment_paths fs)) (wal_log fs)) + 0) = 0).
  by rewrite report_truncated.
Qed.

(** C5: a torn write loses only itself.  If a segment holds the frames of
    [rs] followed by any strict prefix of the frame of one more record, as
    after a crash in the middle of an append, recovery keeps exactly [rs]. *)
Theorem recover_torn_tail fs b p rs r n : fs_ok fs → (b, p) ∈ segment_paths fs →
  Forall wf rs → wf r → (n < length (frame r))%nat →
  contents_of fs p = frames rs ++ take n (frame r) →
  ∃ rep fs', recover (Some fs) [] = (Ok rep, (Some fs', [])) ∧ contents_of fs' p = frames rs.
Proof.
  intros Hok Hin Hwf Hr Hn Hc.
  destruct (recover_spec fs [] Hok) as (res & fs' & io' & -> & (_ & Hio & Ho) & _).
  apply suffix_nil_inv in Hio as ->.
  destruct res as [rep|e|]; [|by destruct Ho as [[] _]; constructor|done]. destruct Ho as [-> Hh].
  eexists _, _. split; [done|]. rewrite (healed_contents _ _ _ _ Hh Hin), Hc. f_equal.
  eapply file_records_decodes. split_and!; [done|done|by apply stuck_torn].
Qed.

(** Reconciliation with the committed end offsets.  A stream that is not
    registered, or that has no record at its end offset, is absent; any
    other is given records of that stream whose offsets are consecutive from
    the committed end offset on, and no record of the stream continues the
    run. *)
Theorem reconcile_spec records ends sid : Forall next_fits records →
  match reconcile_stream_records records ends !! sid with
  | None => ∀ e r, ends !! sid = Some e → r ∈ of_stream sid records → offset r ≠ e
  | Some v => ∃ e, ends !! sid = Some e ∧ v ≠ [] ∧ v ⊆ of_stream sid records
      ∧ offset <$> v = seqZ e (zlen v)
      ∧ ∀ r, r ∈ of_stream sid records → offset r ≠ e + zlen v
  end.
Proof.
  intros Hf. rewrite reconcile_lookup. unfold reconciled_entry.
  destruct (ends !! sid) as [e|]; [|naive_solver].
  destruct (reconcile_loop_spec e e (sort_by_key offset (of_stream sid records)) [])
    as (k & Hk & Ho & Hsub & Hm); [lia| |apply sort_by_key_sorted|].
  { rewrite sort_by_key_perm. apply Forall_forall. intros r [_ Hin]%list_elem_of_filter.
    rewrite Forall_forall in Hf. auto. }
  rewrite Hk. simpl in *. setoid_rewrite elem_of_sort_by_key in Hm. case_decide as E.
  - intros e1 r [= <-] Hin. specialize (Hm r Hin). by rewrite E, zlen_nil, Z.add_0_r in Hm.
  - exists e. split_and!; [done|done| |done|done].
    intros r Hr. apply Hsub in Hr. by rewrite elem_of_sort_by_key in Hr.
Qed.
End theorems.

(** *** Witnesses *)
Definition demo_r1 : WalRecord := mkWal 1 10 0 [x61].
Definition demo_r2 : WalRecord := mkWal 2 10 1 [x62; x63].

Definition demo_fs : Fs :=
  mkFs {[ segment_filename 1 := 0%nat ]}
       {[ 0%nat := mkInode (frames [demo_r1] ++ take 20 (frame demo_r2)) 37 ]}.

Lemma demo_fs_ok : fs_ok demo_fs.
Proof.
  intros n1 n2 ino. simpl. rewrite !lookup_singleton_Some. naive_solver.
Qed.

Lemma recover_exact_witness :
  ∃ r fs' io', recover (Some demo_fs) [IoOk; IoErr 0 "Permission denied"] = (r, (Some fs', io'))
    ∧ wal_log fs' = [demo_r1].
Proof.
  destruct (recover_exact demo_fs [IoOk; IoErr 0 "Permission denied"] demo_fs_ok)
    as (r & fs' & io' & H & Hl & _).
  exists r, fs', io'. split; [exact H|]. rewrite Hl. vm_compute. reflexivity.
Defined.

Lemma recover_idempotent_witness :
  ∃ rep fs' io' rep' io'', recover (Some demo_fs) [] = (Ok rep, (Some fs', io')) ∧
    recover (Some fs') io' = (Ok rep', (Some fs', io'')).
Proof.
  destruct (recover_quiet demo_fs [] demo_fs_ok (Forall_nil_2 _)) as (fs' & io' & E & _).
  destruct (recover_idempotent demo_fs [] _ fs' io' demo_fs_ok (Forall_nil_2 _) E) as (rep' & io'' & H & _).
  exact (ex_intro _ _ (ex_intro _ fs' (ex_intro _ io' (ex_intro _ rep' (ex_intro _ io'' (conj E H)))))).
Defined.

Lemma recover_torn_tail_witness :
  ∃ rep fs', recover (Some demo_fs) [] = (Ok rep, (Some fs', []))
    ∧ contents_of fs' (segment_filename 1) = frames [demo_r1].
Proof.
  apply (recover_torn_tail demo_fs 1 _ [demo_r1] demo_r2 20 demo_fs_ok).
  - apply elem_of_segment_paths. split_and!; [eexists; vm_compute; reflexivity|vm_compute; reflexivity..].
  - apply (bool_decide_unpack _). vm_compute. exact I.
  - apply (bool_decide_unpack _). vm_compute. exact I.
  - vm_compute. lia.
  - vm_compute. reflexivity.
Defined.

Definition demo_recs : list WalRecord := [mkWal 1 7 3 []; mkWal 2 7 2 []; mkWal 3 7 9 []].

Lemma reconcile_spec_witness :
  ∃ v e, reconcile_stream_records demo_recs {[7 := 2]} !! 7 = Some v ∧ offset <$> v = seqZ e (zlen v).
Proof.
  pose proof (reconcile_spec demo_recs {[7 := 2]} 7
    ltac:(apply (bool_decide_unpack _); vm_compute; exact I)) as H.
  destruct (reconcile_stream_records demo_recs {[7 := 2]} !! 7) as [v|] eqn:E.
  - destruct H as (e & _ & _ & _ & Ho & _). exact (ex_intro _ v (ex_intro _ e (conj eq_refl Ho))).
  - exfalso. vm_compute in E. discriminate.
Defined.
