(* ===== verification/FileWal.v ===== *)
(** * The file-backed WAL

    [crates/oxidemq-wal/src/file.rs]: opening with recovery, the group-commit
    worker, reads and purging.  The worker is a function of the results of
    its successive [recv]/[try_recv] calls ([Some m]: a message, [None]: the
    channel is empty, or closed for the blocking [recv]; the end of the list
    is a channel on which nothing more arrives) and of the outcomes of its
    I/O calls: the list [faults] is what [open] has left of the outcomes it was
    given.  Replies are the messages sent on the callers' response channels. *)

From Stdlib Require Import Strings.Byte.
From stdpp Require Import base numbers list gmap strings sorting fin_maps.
From S2P Require Import Prelude Bytes Crc CoreTypes WalFrame Wal WalSegment WalRecovery.

(** The directory of the log is the file system that the operations take; nothing
    reads [direct_io]. *)
Record WalConfig := mkConfig {
  wal_dir : string;
  max_segment_size_bytes : Z;
  group_commit_window_micros : Z;
  max_batch_records : Z;
  sync_to_disk : bool;
  direct_io : bool }.

Inductive WalMessage :=
| Append (stream_id offset : Z) (data : bytes) (resp : nat)
| Flush (resp : nat)
| Trim (stream_id up_to_offset : Z) (resp : nat)
| Shutdown.

Inductive Reply :=
| RSeq (r : result Z)
| RUnit (r : result unit).

Record Worker := mkWorker {
  segment : WalSegment;
  next_seq : Z;
  disk : Fs;
  faults : list IoOutcome;
  replies : list (nat * Reply) }.

Definition pop_fault (w : Worker) : IoOutcome * Worker :=
  let '(o, io) := next_io (faults w) in
  (o, mkWorker (segment w) (next_seq w) (disk w) io (replies w)).

Definition set_disk (w : Worker) (seg : WalSegment) (fs : Fs) : Worker :=
  mkWorker seg (next_seq w) fs (faults w) (replies w).

Definition send (c : nat) (r : Reply) (w : Worker) : Worker :=
  mkWorker (segment w) (next_seq w) (disk w) (faults w) (replies w ++ [(c, r)]).

(** [segment.sync()] *)
Definition sync_segment (w : Worker) : result unit * Worker :=
  let '(io, w) := pop_fault w in
  let '(r, fs) := sync (segment w) io (disk w) in
  (r, set_disk w (segment w) fs).

(** [segment.append(&encode_buffer)] *)
Definition append_segment (buf : bytes) (w : Worker) : result Z * Worker :=
  let '(io, w) := pop_fault w in
  let '(r, seg, fs) := append buf (segment w) io (disk w) in
  (r, set_disk w seg fs).

Definition flush_reply (c : nat) (w : Worker) : Worker :=
  let '(r, w) := sync_segment w in send c (RUnit r) w.

Definition item : Type := Z * Z * bytes * nat.

(** The first, non-blocking drain of the channel.  The last component tells
    whether the worker returned (on [Shutdown], after syncing). *)
Fixpoint drain (max_batch_size : Z) (rx : list (option WalMessage)) (batch : list item)
    (w : Worker) : list item * list (option WalMessage) * Worker * bool :=
  if decide (zlen batch < max_batch_size) then
    match rx with
    | Some (Append sid off d c) :: rx' => drain max_batch_size rx' (batch ++ [(sid, off, d, c)]) w
    | Some (Flush c) :: rx' => drain max_batch_size rx' batch (flush_reply c w)
    | Some (Trim _ _ c) :: rx' => drain max_batch_size rx' batch (send c (RUnit (Ok ())) w)
    | Some Shutdown :: rx' => (batch, rx', (sync_segment w).2, true)
    | None :: rx' => (batch, rx', w, false)
    | [] => (batch, [], w, false)
    end
  else (batch, rx, w, false).

(** The drain after the commit window; it returns on [Shutdown] without
    syncing. *)
Fixpoint drain_window (max_batch_size : Z) (rx : list (option WalMessage)) (batch : list item)
    (w : Worker) : list item * list (option WalMessage) * Worker * bool :=
  if decide (zlen batch < max_batch_size) then
    match rx with
    | Some (Append sid off d c) :: rx' =>
        drain_window max_batch_size rx' (batch ++ [(sid, off, d, c)]) w
    | Some (Flush c) :: rx' => drain_window max_batch_size rx' batch (flush_reply c w)
    | Some (Trim _ _ c) :: rx' => drain_window max_batch_size rx' batch (send c (RUnit (Ok ())) w)
    | Some Shutdown :: rx' => (batch, rx', w, true)
    | None :: rx' => (batch, rx', w, false)
    | [] => (batch, [], w, false)
    end
  else (batch, rx, w, false).

(** Assigning sequence numbers and encoding the batch contiguously. *)
Fixpoint encode_batch (batch : list item) (next : Z) (buf : bytes) (pending : list (nat * Z))
    : result (Z * bytes * list (nat * Z)) :=
  match batch with
  | [] => Ok (next, buf, pending)
  | (sid, off, payload, c) :: batch' =>
      let s := next in
      buf ← encode (mkWal s sid off payload) buf;
      encode_batch batch' (u64 (next + 1)) buf (pending ++ [(c, s)])
  end.

Definition reply_all (f : Z → result Z) (pending : list (nat * Z)) (w : Worker) : Worker :=
  foldl (λ w cs, send cs.1 (RSeq (f cs.2)) w) w pending.

(** Rolling to a new segment. *)
Definition rotate (max_segment_size : Z) (w : Worker) : Worker :=
  if decide (size (segment w) ≥ max_segment_size) then
    let new_base_seq := next_seq w in
    let '(io, w) := pop_fault w in
    match create new_base_seq io (disk w) with
    | (Ok new_segment, fs) => set_disk w new_segment fs
    | (_, fs) => set_disk w (segment w) fs
    end
  else w.

(** Encoding, writing, syncing and acknowledging one batch. *)
Definition commit (config : WalConfig) (batch : list item) (w : Worker) : result Worker :=
  '(next, encode_buffer, pending_responses) ← encode_batch batch (next_seq w) [] [];
  let w := mkWorker (segment w) next (disk w) (faults w) (replies w) in
  let '(append_res, w) := append_segment encode_buffer w in
  let '(sync_res, w) :=
    if is_Ok append_res && sync_to_disk config then sync_segment w else (Ok (), w) in
  let final_err :=
    match append_res with
    | Err e => Some e
    | _ => match sync_res with Err e => Some e | _ => None end
    end in
  let w :=
    match final_err with
    | None => reply_all (λ s, Ok s) pending_responses w
    | Some e => reply_all (λ _, Err (EStorage (error_to_string e))) pending_responses w
    end in
  Ok (rotate (max_segment_size_bytes config) w).

(** The worker thread.  Every round consumes a message, so the length of the
    input bounds the number of rounds; exhausted fuel is reported as [Panic]
    and shown impossible below. *)
Fixpoint group_commit_loop (fuel : nat) (config : WalConfig) (rx : list (option WalMessage))
    (w : Worker) : result Worker :=
  match fuel with
  | O => Panic
  | S fuel' =>
      match rx with
      | [] => Ok w
      | None :: _ => Ok (sync_segment w).2
      | Some Shutdown :: _ => Ok (sync_segment w).2
      | Some (Flush c) :: rx' => group_commit_loop fuel' config rx' (flush_reply c w)
      | Some (Trim _ _ c) :: rx' =>
          group_commit_loop fuel' config rx' (send c (RUnit (Ok ())) w)
      | Some (Append sid off d c) :: rx' =>
          let max := max_batch_records config in
          let '(batch, rx', w, stop) := drain max rx' [(sid, off, d, c)] w in
          if stop then Ok w else
          let '(batch, rx', w, stop) :=
            if bool_decide (zlen batch < 16 ∧ group_commit_window_micros config ≠ 0)
            then drain_window max rx' batch w else (batch, rx', w, false) in
          if stop then Ok w else
          w ← commit config batch w;
          group_commit_loop fuel' config rx' w
      end
  end.

Definition run_group_commit_loop (config : WalConfig) (rx : list (option WalMessage)) (w : Worker)
    : result Worker :=
  group_commit_loop (S (length rx)) config rx w.

Section open.
Context `{HO : HashOrder}.

(** The scan in [init_active_segment]. *)
Definition highest_step (acc : option (Z * string)) (e : string * nat) : option (Z * string) :=
  match parse_base_seq_from_filename e.1 with
  | None => acc
  | Some base =>
      match acc with
      | None => Some (base, e.1)
      | Some (s, p) => if decide (base > s) then Some (base, e.1) else Some (s, p)
      end
  end.

Definition init_active_segment (start_seq : Z) : Io WalSegment :=
  entries ← os read_dir;
  match foldl highest_step None (hash_iter entries) with
  | Some (base, p) => os (open_append p base)
  | None => os (create start_seq)
  end.

(** [thread::Builder::spawn] *)
Definition spawn_worker (io : IoOutcome) (fs : Fs) : result unit * Fs :=
  match io with
  | IoErr _ msg => (Err (EStorage ("Failed to spawn WAL worker: " +:+ msg)), fs)
  | IoOk => (Ok (), fs)
  end.

(** Recovery (the directory exists by now), the active segment and the thread. *)
Definition start : Io (WalSegment * Z) :=
  report ← recover_dir;
  let start_seq := u64 (highest_seq report + 1) in
  active_segment ← init_active_segment start_seq;
  _ ← os spawn_worker;
  mret (active_segment, start_seq).

(** [FileWal::open] of a directory, which [create_dir_all] makes if it is
    missing ([None]).  What the calls in here leave of the outcomes is for the
    calls of the worker. *)
Definition open (dir : option Fs) (io : list IoOutcome) : result Worker * option Fs :=
  match next_io io with
  | (IoErr _ msg, _) => (Err (EIo msg), dir)
  | (IoOk, io) =>
      match start (default (mkFs ∅ ∅) dir, io) with
      | (Ok (active_segment, start_seq), (fs, io)) =>
          (Ok (mkWorker active_segment start_seq fs io []), Some fs)
      | (Err e, (fs, _)) => (Err e, Some fs)
      | (Panic, (fs, _)) => (Panic, Some fs)
      end
  end.

(** [FileWal::read_stream] *)
Fixpoint read_loop (fuel : nat) (raw_data : bytes) (cursor : Z) (sid start max_bytes : Z)
    (total_bytes : Z) (matching : list WalRecord) : list WalRecord * Z * bool :=
  match fuel with
  | O => (matching, total_bytes, false)
  | S fuel' =>
      if decide (cursor < zlen raw_data) then
        match decode (drop (Z.to_nat cursor) raw_data) with
        | Ok (Some (rec, consumed)) =>
            let cursor := cursor + consumed in
            if decide (stream_id rec = sid ∧ offset rec ≥ start) then
              let total_bytes := total_bytes + zlen (payload rec) in
              let matching := matching ++ [rec] in
              if decide (total_bytes ≥ max_bytes) then (matching, total_bytes, true)
              else read_loop fuel' raw_data cursor sid start max_bytes total_bytes matching
            else read_loop fuel' raw_data cursor sid start max_bytes total_bytes matching
        | _ => (matching, total_bytes, false)
        end
      else (matching, total_bytes, false)
  end.

Fixpoint read_segments (paths : list (Z * string)) (sid start max_bytes : Z)
    (total_bytes : Z) (matching : list WalRecord) : Io (list WalRecord) :=
  match paths with
  | [] => mret matching
  | (base, p) :: paths' =>
      seg ← os (open_append p base);
      raw_data ← os (read_all seg);
      let '(matching, total_bytes, returned) :=
        read_loop (S (length raw_data)) raw_data 0 sid start max_bytes total_bytes matching in
      if returned : bool then mret matching
      else read_segments paths' sid start max_bytes total_bytes matching
  end.

Definition read_stream (sid start max_bytes : Z) : Io (list WalRecord) :=
  entries ← os read_dir;
  read_segments (list_segments entries) sid start max_bytes 0 [].

(** [FileWal::purge_segments_before] *)
Fixpoint purge_loop (min_seq : Z) (entries : list (string * nat)) (purged : Z) : Io Z :=
  match entries with
  | [] => mret purged
  | e :: entries' =>
      match parse_base_seq_from_filename e.1 with
      | Some base =>
          if decide (base < min_seq)
          then _ ← os (remove_file e.1); purge_loop min_seq entries' (purged + 1)
          else purge_loop min_seq entries' purged
      | None => purge_loop min_seq entries' purged
      end
  end.

Definition purge_segments_before (min_seq : Z) : Io Z :=
  entries ← os read_dir;
  purge_loop min_seq (hash_iter entries) 0.
End open.

(** ** The worker's invariant *)
Section invariant.
Context `{HO : HashOrder}.

(** The directory is a sequence of segments in base order, each of them
    whole frames; the worker's segment is the last one, and its base does not
    exceed the next sequence number. *)
Record inv (w : Worker) (log : list WalRecord) : Prop := {
  inv_ok : fs_ok (disk w);
  inv_inodes : ∀ name ino, names (disk w) !! name = Some ino → is_Some (inodes (disk w) !! ino);
  inv_sorted : StronglySorted (key_lt fst) (segment_paths (disk w));
  inv_last : ∃ segs, segment_paths (disk w) = segs ++ [(base_seq (segment w), path (segment w))];
  inv_file : names (disk w) !! path (segment w) = Some (file (segment w));
  inv_size : size (segment w) = zlen (data (inode_of (file (segment w)) (disk w)));
  inv_whole : ∀ bp, bp ∈ segment_paths (disk w) →
    frames (file_records (contents_of (disk w) bp.2)) = contents_of (disk w) bp.2;
  inv_log : wal_log (disk w) = log;
  inv_seqs : Forall (λ r, seq r < next_seq w) log;
  inv_base : base_seq (segment w) ≤ next_seq w;
  inv_next : 0 ≤ next_seq w }.

(** What a power failure leaves of a file that stays in the directory. *)
Definition stable_contents (fs : Fs) (name : string) : bytes :=
  match names fs !! name with
  | Some ino => take (durable (inode_of ino fs)) (data (inode_of ino fs))
  | None => []
  end.

(** The durable part of every segment is whole frames. *)
Definition stable (fs : Fs) : Prop := ∀ b p ino, (b, p) ∈ segment_paths fs → names fs !! p = Some ino →
  (durable (inode_of ino fs) ≤ length (data (inode_of ino fs)))%nat
  ∧ frames (file_records (stable_contents fs p)) = stable_contents fs p.

(** The record lies in the durable part of the segment file [p]. *)
Definition kept (fs : Fs) (p : string) (r : WalRecord) : Prop :=
  (∃ b, (b, p) ∈ segment_paths fs) ∧ r ∈ file_records (stable_contents fs p).

Lemma contents_of_set_inode fs ino i name : fs_ok fs →
  contents_of (set_inode ino i fs) name =
    if decide (names fs !! name = Some ino) then data i else contents_of fs name.
Proof.
  intros Hok. unfold contents_of. simpl. destruct (names fs !! name) as [j|] eqn:Hj.
  - rewrite inode_of_set. repeat case_decide; naive_solver.
  - by rewrite decide_False.
Qed.

(** Replacing the contents of the last segment by one that decodes to more
    records. *)
Lemma set_last_log fs ino i segs b p : fs_ok fs →
  segment_paths fs = segs ++ [(b, p)] → names fs !! p = Some ino →
  wal_log (set_inode ino i fs) = log_of segs fs ++ file_records (data i)
  ∧ segment_paths (set_inode ino i fs) = segment_paths fs.
Proof.
  intros Hok Hp Hino. assert (segment_paths (set_inode ino i fs) = segment_paths fs) as Hsp by done.
  split; [|done]. unfold wal_log. rewrite Hsp, Hp, log_of_app, log_of_one. f_equal.
  - apply log_of_ext. intros [b' p'] Hin. rewrite contents_of_set_inode by done. simpl.
    rewrite decide_False; [done|]. intros Hp'.
    assert (NoDup (segment_paths fs).*2) as Hnd by (by apply segment_paths_ok).
    rewrite Hp, fmap_app, NoDup_app in Hnd. destruct Hnd as (_ & Hd & _).
    apply (Hd p'); [by apply (list_elem_of_fmap_2 snd) in Hin|].
    simpl. rewrite (Hok p' p ino); set_solver.
  - simpl. rewrite contents_of_set_inode by done. by rewrite decide_True.
Qed.

Lemma log_split fs segs b p ino : segment_paths fs = segs ++ [(b, p)] → names fs !! p = Some ino →
  wal_log fs = log_of segs fs ++ file_records (data (inode_of ino fs)).
Proof.
  intros Hp Hino. unfold wal_log. rewrite Hp, log_of_app, log_of_one. simpl.
  unfold contents_of. by rewrite Hino.
Qed.

(** The effect of writing frames to the active segment. *)
Lemma write_inv w log rs next : inv w log → Forall wf rs →
  next_seq w ≤ next → Forall (λ r, seq r < next) rs →
  inv (mkWorker (mkSegment (base_seq (segment w)) (path (segment w)) (file (segment w))
                   (size (segment w) + zlen (frames rs)))
                next (fs_write (file (segment w)) (frames rs) (disk w)) (faults w) (replies w))
      (log ++ rs).
Proof.
  intros I Hwf Hn Hrs. destruct (inv_last _ _ I) as [segs Hsegs].
  pose proof (inv_ok _ _ I) as Hok. pose proof (inv_file _ _ I) as Hfile.
  set (ino := file (segment w)) in *. set (fs := disk w) in *.
  assert (data (inode_of ino fs) = frames (file_records (data (inode_of ino fs)))) as Hd.
  { pose proof (inv_whole _ _ I (base_seq (segment w), path (segment w))) as Hw. fold fs in Hw.
    unfold contents_of in Hw. simpl in Hw. rewrite Hfile in Hw. symmetry. apply Hw.
    rewrite Hsegs. set_solver. }
  set (i := mkInode (data (inode_of ino fs) ++ frames rs) (durable (inode_of ino fs))).
  assert (file_records (data i) = file_records (data (inode_of ino fs)) ++ rs) as Hi.
  { simpl. rewrite Hd at 1. rewrite <- frames_app. apply file_records_frames.
    apply Forall_app. split; [apply file_records_wf|done]. }
  destruct (set_last_log fs ino i segs _ _ Hok Hsegs Hfile) as [Hlog Hsp].
  unfold fs_write. fold i.
  split; cbn [disk segment next_seq base_seq path file size].
  - exact Hok.
  - intros name j Hj. simpl. apply (inv_inodes _ _ I) in Hj. fold fs in Hj.
    destruct (decide (ino = j)) as [<-|]; [by rewrite lookup_insert_eq|by rewrite lookup_insert_ne].
  - rewrite Hsp. by apply (inv_sorted _ _ I).
  - by exists segs.
  - done.
  - rewrite inode_of_set, decide_True by done. simpl. rewrite zlen_app, (inv_size _ _ I). done.
  - intros bp Hbp. rewrite contents_of_set_inode by done. case_decide.
    + rewrite Hi, frames_app. simpl. by rewrite <- Hd.
    + by apply (inv_whole _ _ I).
  - rewrite Hlog, Hi, app_assoc. f_equal. rewrite <- (inv_log _ _ I). symmetry. by eapply log_split.
  - apply Forall_app. split; [|done]. eapply Forall_impl; [apply (inv_seqs _ _ I)|]. simpl. lia.
  - pose proof (inv_base _ _ I). lia.
  - pose proof (inv_next _ _ I). lia.
Qed.
End invariant.

Section steps.
Context `{HO : HashOrder}.

Lemma file_records_prefix rs junk : Forall wf rs → rs `prefix_of` file_records (frames rs ++ junk).
Proof.
  intros Hwf. destruct (decodes_file_records junk) as [tail Hd].
  erewrite file_records_decodes by (by apply decodes_app, Hd). by eexists.
Qed.

(** Records of a prefix of whole frames are records of the whole. *)
Lemma file_records_take n raw : frames (file_records (take n raw)) = take n raw →
  file_records (take n raw) ⊆ file_records raw.
Proof.
  intros Hw r Hr. rewrite <- (take_drop n raw), <- Hw.
  destruct (file_records_prefix (file_records (take n raw)) (drop n raw) (file_records_wf _)) as [k ->].
  set_solver.
Qed.

Lemma stable_contents_set_inode fs ino i name : fs_ok fs →
  stable_contents (set_inode ino i fs) name =
    if decide (names fs !! name = Some ino) then take (durable i) (data i) else stable_contents fs name.
Proof.
  intros Hok. unfold stable_contents. simpl. destruct (names fs !! name) as [j|] eqn:Hj.
  - rewrite inode_of_set. repeat case_decide; naive_solver.
  - by rewrite decide_False.
Qed.

(** Replacing an inode by one whose durable part has at least the same
    records. *)
Lemma set_inode_stable fs ino i : fs_ok fs → stable fs →
  (durable i ≤ length (data i))%nat →
  frames (file_records (take (durable i) (data i))) = take (durable i) (data i) →
  file_records (take (durable (inode_of ino fs)) (data (inode_of ino fs)))
    ⊆ file_records (take (durable i) (data i)) →
  stable (set_inode ino i fs) ∧ ∀ p r, kept fs p r → kept (set_inode ino i fs) p r.
Proof.
  intros Hok Hs Hle Hw Hsub. split.
  - intros b p j Hin Hj. rewrite inode_of_set, stable_contents_set_inode by done. simpl in Hj.
    destruct (decide (j = ino)) as [->|Hne]; [by rewrite decide_True|].
    rewrite decide_False by congruence. by apply (Hs b p j).
  - intros p r [Hp Hr]. split; [done|]. rewrite stable_contents_set_inode by done. case_decide as E; [|done].
    apply Hsub. unfold stable_contents in Hr. by rewrite E in Hr.
Qed.

(** What a step of the worker leaves to the next: the outcomes are consumed
    in order and what was durable stays so. *)
Definition later (w w' : Worker) : Prop :=
  faults w' `suffix_of` faults w ∧ ∀ p r, kept (disk w) p r → kept (disk w') p r.

#[export] Instance later_preorder : PreOrder later.
Proof.
  split; [by split|]. intros a b c [? ?] [? ?]. split; [by etrans|auto].
Qed.

(** No failing write leaves a partial frame. *)
Record good (w : Worker) (log : list WalRecord) : Prop := {
  good_inv : inv w log;
  good_faults : Forall clean (faults w);
  good_stable : stable (disk w) }.

Lemma inv_replies w log io rep : inv w log →
  inv (mkWorker (segment w) (next_seq w) (disk w) io rep) log.
Proof. intros [? ? ? ? ? ? ? ? ? ? ?]. by split. Qed.

Lemma suffix_clean io io' : io' `suffix_of` io → Forall clean io → Forall clean io'.
Proof. intros [k ->] H. by apply Forall_app in H as [_ ?]. Qed.

Lemma good_whole w log : good w log →
  let d := data (inode_of (file (segment w)) (disk w)) in frames (file_records d) = d.
Proof.
  intros [I _ _]. destruct (inv_last _ _ I) as [segs Hsegs].
  pose proof (inv_whole _ _ I (base_seq (segment w), path (segment w))) as Hw.
  unfold contents_of in Hw. simpl in Hw. rewrite (inv_file _ _ I) in Hw. apply Hw.
  rewrite Hsegs. set_solver.
Qed.

Lemma active_stable w log : good w log →
  let i := inode_of (file (segment w)) (disk w) in
  (durable i ≤ length (data i))%nat ∧ frames (file_records (take (durable i) (data i))) = take (durable i) (data i).
Proof.
  intros [I _ Hs]. destruct (inv_last _ _ I) as [segs Hsegs]. pose proof (inv_file _ _ I) as Hf.
  destruct (Hs (base_seq (segment w)) (path (segment w)) (file (segment w))) as [? Hw]; [rewrite Hsegs; set_solver|done|].
  split; [done|]. unfold stable_contents in Hw. by rewrite Hf in Hw.
Qed.

(** A sync fails and changes nothing, or makes the active segment durable. *)
Lemma sync_segment_spec w log : good w log →
  ∃ r w', sync_segment w = (r, w') ∧ good w' log ∧ later w w'
    ∧ segment w' = segment w ∧ next_seq w' = next_seq w ∧ replies w' = replies w
    ∧ match r with
      | Ok _ => disk w' = fs_sync (file (segment w)) (disk w)
      | Err _ => disk w' = disk w ∧ ¬ quiet (faults w)
      | Panic => False
      end.
Proof.
  intros Hg. pose proof Hg as [I Hf Hst]. unfold sync_segment, pop_fault. pose proof (next_io_suffix (faults w)) as Hsuf.
  destruct (next_io (faults w)) as [[|n m] io] eqn:Hio; simpl in Hsuf.
  2: { eexists _, _. split; [done|]. split_and!; [|by split|done..|by eapply next_io_err].
       split; [exact (inv_replies w log io _ I)|by eapply suffix_clean|done]. }
  eexists _, _. split; [done|]. pose proof (good_whole w log Hg) as Hw. pose proof (active_stable w log Hg) as [_ Hwd].
  destruct (inv_last _ _ I) as [segs Hsegs].
  pose proof (inv_ok _ _ I) as Hok. pose proof (inv_file _ _ I) as Hfile. cbn [segment next_seq disk faults set_disk].
  unfold fs_sync. set (ino := file (segment w)) in *. set (fs := disk w) in *.
  set (i := mkInode (data (inode_of ino fs)) _).
  destruct (set_last_log fs ino i segs _ _ Hok Hsegs Hfile) as [Hlog Hsp].
  destruct (set_inode_stable fs ino i) as [Hst' Hk]; [done|done|done|by simpl; rewrite firstn_all| |].
  { simpl. rewrite firstn_all. by apply file_records_take. }
  split_and!; [|by split|done..]. split; [|by eapply suffix_clean|done].
  split; cbn [disk segment next_seq set_disk].
  - exact Hok.
  - intros name j Hj. simpl. apply (inv_inodes _ _ I) in Hj. fold fs in Hj.
    destruct (decide (ino = j)) as [<-|]; [by rewrite lookup_insert_eq|by rewrite lookup_insert_ne].
  - rewrite Hsp. by apply (inv_sorted _ _ I).
  - by exists segs.
  - done.
  - rewrite inode_of_set, decide_True by done. simpl. apply (inv_size _ _ I).
  - intros bp Hbp. rewrite Hsp in Hbp. pose proof (inv_whole _ _ I bp Hbp) as Hwb.
    rewrite contents_of_set_inode by done. case_decide as E; [|done]. simpl.
    unfold contents_of in Hwb. fold fs in Hwb. by rewrite E in Hwb.
  - rewrite Hlog, <- (inv_log _ _ I). symmetry. by eapply log_split.
  - apply (inv_seqs _ _ I).
  - apply (inv_base _ _ I).
  - apply (inv_next _ _ I).
Qed.

Lemma last_base_max (paths segs : list (Z * string)) b p b' p' :
  StronglySorted (key_lt fst) paths → paths = segs ++ [(b, p)] → (b', p') ∈ paths → b' ≤ b.
Proof.
  intros Hs -> [Hin|Hin]%elem_of_app; [|set_solver].
  apply list_elem_of_split in Hin as (l1 & l2 & ->). rewrite <- app_assoc in Hs.
  apply StronglySorted_app_1_r in Hs. simpl in Hs. inversion Hs as [|?? _ Hf]; subst.
  rewrite Forall_forall in Hf. specialize (Hf (b, p)). unfold key_lt in Hf. simpl in Hf.
  enough (b' < b) by lia. apply Hf. set_solver.
Qed.

Lemma create_spec fs segs b p next : fs_ok fs →
  (∀ name ino, names fs !! name = Some ino → is_Some (inodes fs !! ino)) →
  StronglySorted (key_lt fst) (segment_paths fs) →
  segment_paths fs = segs ++ [(b, p)] → b < next → in_u 64 next →
  ∃ ino, create next IoOk fs =
    (Ok (mkSegment next (segment_filename next) ino 0),
     mkFs (<[segment_filename next := ino]> (names fs)) (<[ino := mkInode [] 0]> (inodes fs)))
  ∧ inodes fs !! ino = None ∧ names fs !! segment_filename next = None
  ∧ segment_paths (mkFs (<[segment_filename next := ino]> (names fs))
                        (<[ino := mkInode [] 0]> (inodes fs)))
    = segment_paths fs ++ [(next, segment_filename next)].
Proof.
  intros Hok Hin Hs Hp Hb Hn. unfold create, fs_create.
  assert (∀ b' p', (b', p') ∈ segment_paths fs → b' < next) as Hlt.
  { intros b' p' Hin'. pose proof (last_base_max _ _ _ _ _ _ Hs Hp Hin'). lia. }
  assert (names fs !! segment_filename next = None) as Hfresh.
  { destruct (names fs !! segment_filename next) eqn:E; [|done]. exfalso.
    assert ((next, segment_filename next) ∈ segment_paths fs) as Hx; [|apply Hlt in Hx; lia].
    apply elem_of_segment_paths. split_and!; [done|apply segment_filename_wal|].
    by apply segment_filename_parse. }
  rewrite Hfresh. exists (fresh (dom (inodes fs))). split_and!; [done| |done|].
  { apply not_elem_of_dom, is_fresh. }
  unfold segment_paths at 1, list_segments at 1. simpl. apply sort_by_key_unique.
  - rewrite hash_iter_perm, map_to_list_insert by done.
    simpl. unfold wal_entry at 1. simpl. rewrite segment_filename_wal, segment_filename_parse by done.
    simpl. rewrite <- hash_iter_perm.
    rewrite Permutation_cons_append. f_equiv. unfold segment_paths, list_segments. by rewrite sort_by_key_perm.
  - apply key_lt_snoc; [done|]. apply Forall_forall. intros [b' p'] Hx. simpl. by eapply Hlt.
Qed.

(** A new, empty file beside the others. *)
Lemma fresh_file fs name ino : fs_ok fs →
  (∀ p j, names fs !! p = Some j → is_Some (inodes fs !! j)) → inodes fs !! ino = None → names fs !! name = None →
  let fs' := mkFs (<[name := ino]> (names fs)) (<[ino := mkInode [] 0]> (inodes fs)) in
  fs_ok fs' ∧ (∀ p j, names fs' !! p = Some j → is_Some (inodes fs' !! j))
  ∧ (∀ j, is_Some (inodes fs !! j) → inode_of j fs' = inode_of j fs)
  ∧ (∀ p, is_Some (names fs !! p) → contents_of fs' p = contents_of fs p)
  ∧ contents_of fs' name = [].
Proof.
  intros Hok Hin Hi Hname fs'.
  assert (∀ j, is_Some (inodes fs !! j) → inode_of j fs' = inode_of j fs) as Hj.
  { intros j [x Hx]. unfold inode_of, fs'. simpl. rewrite lookup_insert_ne; [done|]. congruence. }
  split_and!; [| |done| |].
  - intros n1 n2 j. unfold fs'. simpl. rewrite !lookup_insert_Some.
    intros [[<- <-]|[? H1]] [[<- H2]|[? H2]]; [done| | |by eapply Hok].
    + apply Hin in H2. rewrite Hi in H2. by destruct H2.
    + subst. apply Hin in H1. rewrite Hi in H1. by destruct H1.
  - intros n j. unfold fs'. simpl. rewrite lookup_insert_Some. intros [[<- <-]|[? Hn']]; [by rewrite lookup_insert_eq|].
    apply Hin in Hn' as [x Hx]. rewrite lookup_insert_ne by congruence. by exists x.
  - intros p [j Hp]. unfold contents_of. unfold fs' at 1. simpl. rewrite lookup_insert_ne by congruence. rewrite Hp. f_equal.
    apply Hj. by apply Hin in Hp.
  - unfold contents_of, fs'. simpl. rewrite lookup_insert_eq. unfold inode_of. simpl. by rewrite lookup_insert_eq.
Qed.

Lemma rotate_spec m w log : good w log →
  base_seq (segment w) < next_seq w → in_u 64 (next_seq w) →
  good (rotate m w) log ∧ later w (rotate m w) ∧ next_seq (rotate m w) = next_seq w
  ∧ replies (rotate m w) = replies w.
Proof.
  intros Hg Hb Hn. pose proof Hg as [I Hf Hst]. unfold rotate. case_decide; [|done].
  unfold pop_fault. pose proof (next_io_suffix (faults w)) as Hsuf.
  destruct (next_io (faults w)) as [[|n msg] io] eqn:Hio; simpl in Hsuf.
  2: { split_and!; [|by split|done..]. split; [exact (inv_replies w log io _ I)|by eapply suffix_clean|done]. }
  cbn [disk]. destruct (inv_last _ _ I) as [segs Hsegs].
  destruct (create_spec (disk w) segs _ _ (next_seq w) (inv_ok _ _ I) (inv_inodes _ _ I)
              (inv_sorted _ _ I) Hsegs Hb Hn) as (ino & -> & Hi & Hname & Hsp).
  destruct (fresh_file (disk w) _ ino (inv_ok _ _ I) (inv_inodes _ _ I) Hi Hname) as (Hok & Hin & Hj & Hc & Hcn).
  simpl. set (fs := disk w) in *. set (name := segment_filename (next_seq w)) in *.
  set (fs' := mkFs _ _) in *.
  assert (∀ bp, bp ∈ segment_paths fs → is_Some (names fs !! bp.2)) as Hex.
  { intros [b p] Hx. by apply elem_of_segment_paths in Hx as [? _]. }
  assert (∀ p j, names fs !! p = Some j → names fs' !! p = Some j ∧ inode_of j fs' = inode_of j fs) as Hold.
  { intros p j Hp. split; [unfold fs'; simpl; rewrite lookup_insert_ne by congruence; done|].
    apply Hj. by apply (inv_inodes _ _ I) in Hp. }
  assert (∀ p, is_Some (names fs !! p) → stable_contents fs' p = stable_contents fs p) as Hsc.
  { intros p [j Hp]. unfold stable_contents. destruct (Hold p j Hp) as [-> E]. by rewrite Hp, E. }
  split_and!; [split; [|by eapply suffix_clean|]|split; [done|]|done..].
  - split; cbn [disk segment next_seq set_disk base_seq path file size]; [done|done|..].
    + rewrite Hsp. apply key_lt_snoc; [apply (inv_sorted _ _ I)|]. apply Forall_forall.
      intros [b p] Hx. simpl.
      pose proof (last_base_max _ _ _ _ _ _ (inv_sorted _ _ I) Hsegs Hx). lia.
    + by eexists.
    + unfold fs'. simpl. apply lookup_insert_eq.
    + unfold inode_of, fs'. simpl. by rewrite lookup_insert_eq.
    + intros bp. rewrite Hsp, elem_of_app, list_elem_of_singleton. intros [Hx| ->].
      * rewrite Hc by auto. by apply (inv_whole _ _ I).
      * simpl. by rewrite Hcn.
    + unfold wal_log. rewrite Hsp, log_of_app, log_of_one. simpl. rewrite Hcn, app_nil_r.
      rewrite <- (inv_log _ _ I). apply log_of_ext. intros. apply Hc. auto.
    + apply (inv_seqs _ _ I).
    + lia.
    + apply (inv_next _ _ I).
  - intros b p j. cbn [disk set_disk]. rewrite Hsp, elem_of_app, list_elem_of_singleton. intros [Hx| [= -> ->]].
    + destruct (Hex _ Hx) as [j' Hp]. simpl in Hp. destruct (Hold p j' Hp) as [-> E]. intros [= <-].
      rewrite E, Hsc by eauto. by eapply Hst.
    + unfold fs', stable_contents. simpl. rewrite lookup_insert_eq. intros [= <-].
      unfold inode_of. simpl. rewrite lookup_insert_eq. simpl. done.
  - intros p r [[b Hx] Hr]. cbn [disk set_disk]. split; [exists b; rewrite Hsp; set_solver|].
    rewrite Hsc; [done|]. by apply Hex in Hx.
Qed.
End steps.

(** ** Committing a batch *)

(** The records and acknowledgements of a batch numbered from [next]. *)
Fixpoint records_of (next : Z) (batch : list item) : list WalRecord :=
  match batch with
  | [] => []
  | (sid, off, d, _) :: batch' => mkWal next sid off d :: records_of (next + 1) batch'
  end.

Fixpoint acks_of (next : Z) (batch : list item) : list (nat * Z) :=
  match batch with
  | [] => []
  | (_, _, _, c) :: batch' => (c, next) :: acks_of (next + 1) batch'
  end.

Definition item_wf (x : item) : Prop :=
  let '(sid, off, d, _) := x in in_u 64 sid ∧ in_s 64 off ∧ in_u 32 (zlen d).

#[export] Instance item_wf_dec x : Decision (item_wf x).
Proof. destruct x as [[[sid off] d] c]. simpl. apply _. Defined.

Lemma encode_batch_spec batch next buf pend : Forall item_wf batch →
  0 ≤ next → next + zlen batch < 2 ^ 64 →
  encode_batch batch next buf pend =
    Ok (next + zlen batch, buf ++ frames (records_of next batch), pend ++ acks_of next batch).
Proof.
  intros Hb. revert next buf pend. induction Hb as [|[[[sid off] d] c] batch Hx Hb IH];
    intros next buf pend Hn Hl.
  { simpl. by rewrite Z.add_0_r, frames_nil, !app_nil_r. }
  rewrite zlen_cons in Hl |- *. pose proof (zlen_nonneg batch). destruct Hx as (_ & _ & Hd).
  cbn [encode_batch records_of acks_of]. rewrite encode_frame by done. cbn [mbind res_bind].
  rewrite wrap_u_small by (unfold in_u; lia). rewrite IH by lia.
  rewrite frames_cons, <- !app_assoc. do 3 f_equal. lia.
Qed.

Lemma records_of_wf next batch : Forall item_wf batch → 0 ≤ next → next + zlen batch < 2 ^ 64 →
  Forall wf (records_of next batch).
Proof.
  intros Hb. revert next. induction Hb as [|[[[sid off] d] c] batch (?&?&?) Hb IH];
    intros next Hn Hl; [constructor|]. rewrite zlen_cons in Hl. pose proof (zlen_nonneg batch).
  simpl. constructor; [|apply IH; lia]. unfold wf. cbn [seq stream_id offset payload]. split_and!; [unfold in_u; lia|done..].
Qed.

Lemma records_of_seqs next batch : Forall (λ r, next ≤ seq r < next + zlen batch) (records_of next batch).
Proof.
  revert next. induction batch as [|[[[sid off] d] c] batch IH]; intros next; [constructor|].
  simpl. rewrite zlen_cons. pose proof (zlen_nonneg batch). constructor; [simpl; lia|].
  eapply Forall_impl; [apply IH|]. simpl. lia.
Qed.

Lemma length_records_of next batch : length (records_of next batch) = length batch.
Proof. revert next. induction batch as [|[[[sid off] d] c] batch IH]; intros; simpl; [done|]. by rewrite IH. Qed.

Lemma records_of_seqZ next batch :
  seq <$> records_of next batch = seqZ next (zlen (records_of next batch)).
Proof.
  revert next. induction batch as [|[[[sid off] d] c] batch IH]; intros; [done|].
  cbn [records_of]. rewrite fmap_cons, IH, zlen_cons. cbn [seq].
  rewrite (seqZ_cons next) by (pose proof (zlen_nonneg (records_of (next + 1) batch)); lia).
  f_equal. f_equal; lia.
Qed.

(** An acknowledged sequence number is that of the caller's record. *)
Lemma acks_of_record next batch c s : (c, s) ∈ acks_of next batch →
  ∃ sid off d, (sid, off, d, c) ∈ batch ∧ mkWal s sid off d ∈ records_of next batch.
Proof.
  revert next. induction batch as [|[[[sid off] d] c'] batch IH]; intros next; simpl; [set_solver|].
  intros [[= -> ->]|Hin]%elem_of_cons; [exists sid, off, d; set_solver|].
  apply IH in Hin as (sid' & off' & d' & ? & ?). exists sid', off', d'. set_solver.
Qed.

(** The sequence numbers acknowledged to the callers. *)
Definition ack (cr : nat * Reply) : option (nat * Z) :=
  match cr.2 with RSeq (Ok s) => Some (cr.1, s) | _ => None end.
Definition acks (w : Worker) : list (nat * Z) := omap ack (replies w).

Lemma reply_all_spec f pend w :
  reply_all f pend w = mkWorker (segment w) (next_seq w) (disk w) (faults w)
    (replies w ++ ((λ cs, (cs.1, RSeq (f cs.2))) <$> pend)).
Proof.
  unfold reply_all. revert w. induction pend as [|[c s] pend IH]; intros w; simpl.
  { rewrite app_nil_r. by destruct w. }
  rewrite IH. simpl. by rewrite <- app_assoc.
Qed.

Lemma acks_replies (r : list (nat * Reply)) pend :
  omap ack (r ++ ((λ cs, (cs.1, RSeq (Ok cs.2))) <$> pend)) = omap ack r ++ pend.
Proof.
  rewrite omap_app. f_equal. induction pend as [|[c s] pend IH]; [done|]. exact (f_equal (cons (c, s)) IH).
Qed.

(** Error replies acknowledge nothing. *)
Lemma acks_errors (r : list (nat * Reply)) e (pend : list (nat * Z)) :
  omap ack (r ++ ((λ cs, (cs.1, RSeq (Err e))) <$> pend)) = omap ack r.
Proof.
  rewrite omap_app. rewrite <- (app_nil_r (omap ack r)) at 2. f_equal.
  induction pend as [|[c s] pend IH]; [done|]. exact IH.
Qed.

Section commit.
Context `{HO : HashOrder}.

(** Writing the frames of a batch to the active segment: all of them, or
    none. *)
Lemma append_segment_spec w log rs next : good w log → Forall wf rs →
  next_seq w ≤ next → Forall (λ r, seq r < next) rs →
  ∃ r w' new,
    append_segment (frames rs) (mkWorker (segment w) next (disk w) (faults w) (replies w)) = (r, w')
    ∧ good w' (log ++ new) ∧ later w w' ∧ next_seq w' = next ∧ replies w' = replies w
    ∧ base_seq (segment w') = base_seq (segment w)
    ∧ match r with
      | Ok _ => new = rs
      | Err _ => new = [] ∧ ¬ quiet (faults w)
      | Panic => False
      end.
Proof.
  intros Hg Hwf Hn Hrs. pose proof Hg as [I Hf Hst]. unfold append_segment, pop_fault. cbn [faults segment disk next_seq replies].
  pose proof (next_io_suffix (faults w)) as Hsuf. pose proof (active_stable w log Hg) as [Hle Hwd].
  assert (∀ d, let fs' := fs_write (file (segment w)) d (disk w) in
    stable fs' ∧ ∀ p r, kept (disk w) p r → kept fs' p r) as Hwrite.
  { intros d. unfold fs_write. apply set_inode_stable; [apply (inv_ok _ _ I)|done|..]; cbn [data durable].
    - rewrite length_app. lia.
    - by rewrite take_app_le.
    - by rewrite take_app_le. }
  destruct (next_io (faults w)) as [[|n msg] io] eqn:Hio; simpl in Hsuf; cbn [append set_disk segment next_seq disk faults replies].
  - destruct (Hwrite (frames rs)) as [Hst' Hk]. eexists _, _, rs. split; [done|].
    pose proof (inv_replies _ _ io (replies w) (write_inv w log rs next I Hwf Hn Hrs)) as I1.
    split_and!; [|by split|done..]. split; [exact I1|by eapply suffix_clean|done].
  - assert (n = 0%nat) as ->.
    { destruct (faults w) as [|o l]; [done|]. injection Hio as -> ->. apply Forall_cons in Hf as [Hc _]. by destruct n. }
    destruct (Hwrite []) as [Hst' Hk]. eexists _, _, []. split; [done|].
    pose proof (inv_replies _ _ io (replies w) (write_inv w log [] next I ltac:(done) Hn ltac:(done))) as I1.
    split_and!; [|by split|done..|by eapply next_io_err]. split; [|by eapply suffix_clean|done].
    destruct w as [[] ? ? ? ?]. rewrite frames_nil, zlen_nil, Z.add_0_r in I1. exact I1.
Qed.

Lemma append_ok_data buf w k w' n : append_segment buf (mkWorker (segment w) n (disk w) (faults w) (replies w)) = (Ok k, w') →
  file (segment w') = file (segment w)
  ∧ data (inode_of (file (segment w')) (disk w')) = data (inode_of (file (segment w)) (disk w)) ++ buf.
Proof.
  unfold append_segment, pop_fault. cbn [faults]. destruct (next_io (faults w)) as [[|? ?] io]; [|done].
  cbn [append]. intros [= _ <-]. split; [done|]. cbn [set_disk segment disk file]. unfold fs_write.
  by rewrite inode_of_set, decide_True.
Qed.

(** After a sync everything in the active segment is durable. *)
Lemma synced_kept w log new w' : good w' (log ++ new) → ∀ old,
  segment w = segment w' → disk w' = fs_sync (file (segment w)) (disk w) →
  data (inode_of (file (segment w)) (disk w)) = old ++ frames new → Forall wf new →
  frames (file_records old) = old →
  ∀ r, r ∈ new → kept (disk w') (path (segment w')) r.
Proof.
  intros Hg old Hseg Hd Hdata Hwf Hold r Hr. pose proof Hg as [I _ _]. destruct (inv_last _ _ I) as [segs Hsegs].
  split; [exists (base_seq (segment w')); rewrite Hsegs; set_solver|].
  unfold stable_contents. rewrite (inv_file _ _ I), <- Hseg, Hd. unfold fs_sync. rewrite inode_of_set, decide_True by done.
  cbn [data durable]. rewrite firstn_all, Hdata, <- Hold, <- frames_app, file_records_frames; [set_solver|].
  apply Forall_app. split; [apply file_records_wf|done].
Qed.

(** Replying and rolling. *)
Lemma finish_spec m f pend w log : good w log → base_seq (segment w) < next_seq w → in_u 64 (next_seq w) →
  let w' := rotate m (reply_all f pend w) in
  good w' log ∧ later w w' ∧ next_seq w' = next_seq w
  ∧ replies w' = replies w ++ ((λ cs, (cs.1, RSeq (f cs.2))) <$> pend).
Proof.
  intros [I Hf Hs] Hb Hn. rewrite reply_all_spec. set (w2 := mkWorker _ _ _ _ _).
  destruct (rotate_spec m w2 log) as (? & Hl & ? & ?); [|done..|by split_and!].
  split; [exact (inv_replies w _ _ _ I)|done|done].
Qed.

(** What a commit does: it numbers the batch, and either writes it and
    acknowledges every record, or answers every caller with an error. *)
Lemma commit_spec config batch w log : good w log → batch ≠ [] → Forall item_wf batch →
  next_seq w + zlen batch < 2 ^ 64 →
  ∃ w' new, commit config batch w = Ok w' ∧ good w' (log ++ new) ∧ later w w'
    ∧ next_seq w' = next_seq w + zlen batch
    ∧ (new = records_of (next_seq w) batch ∨ new = [] ∧ ¬ quiet (faults w))
    ∧ ((replies w' = replies w ++ ((λ cs, (cs.1, RSeq (Ok cs.2))) <$> acks_of (next_seq w) batch)
        ∧ new = records_of (next_seq w) batch
        ∧ (sync_to_disk config = true → ∀ r, r ∈ new → ∃ p, kept (disk w') p r))
       ∨ ∃ e, replies w' = replies w ++ ((λ cs, (cs.1, RSeq (Err e))) <$> acks_of (next_seq w) batch)
           ∧ ¬ quiet (faults w)).
Proof.
  intros Hg Hne Hb Hn. pose proof Hg as [I _ _]. pose proof (inv_next _ _ I). pose proof (inv_base _ _ I).
  assert (0 < zlen batch) by (destruct batch; [done|]; rewrite zlen_cons; pose proof (zlen_nonneg batch); lia).
  unfold commit. rewrite encode_batch_spec by done. cbn [mbind res_bind app].
  set (rs := records_of (next_seq w) batch). set (n := next_seq w + zlen batch).
  assert (Forall (λ r, seq r < n) rs) as Hrs
    by (eapply Forall_impl; [apply records_of_seqs|]; simpl; lia).
  assert (Forall wf rs) as Hwf by (by apply records_of_wf).
  destruct (append_segment_spec w log rs n Hg Hwf ltac:(lia) Hrs) as (ar & w1 & new & Hap & Hg1 & Hl1 & Hn1 & Hr1 & Hb1 & Har).
  rewrite Hap. assert (base_seq (segment w1) < next_seq w1) by lia.
  assert (in_u 64 (next_seq w1)) by (rewrite Hn1; unfold in_u; lia).
  set (m := max_segment_size_bytes config). set (pend := acks_of (next_seq w) batch).
  destruct ar as [k|e|]; [subst new|destruct Har as [-> Hq]|done]; cbn [is_Ok andb].
  2: { destruct (finish_spec m (λ _, Err (EStorage (error_to_string e))) pend w1 (log ++ [])) as (? & ? & ? & Hr); [done..|].
       eexists _, []. split; [done|]. split_and!; [done|by etrans|congruence|by right|]. right. eexists. split; [|done].
       by rewrite Hr, Hr1. }
  destruct (sync_to_disk config) eqn:Hsync; cbv beta iota zeta.
  2: { destruct (finish_spec m (λ s, Ok s) pend w1 (log ++ rs)) as (? & ? & ? & Hr); [done..|].
       eexists _, rs. split; [done|]. split_and!; [done|by etrans|congruence|by left|]. left.
       split_and!; [by rewrite Hr, Hr1|done|done]. }
  destruct (sync_segment_spec w1 _ Hg1) as (sr & w2 & -> & Hg2 & Hl2 & Hs2 & Hn2 & Hr2 & Hsr).
  assert (base_seq (segment w2) < next_seq w2) by (by rewrite Hs2, Hn2).
  assert (in_u 64 (next_seq w2)) by (by rewrite Hn2).
  destruct sr as [[]|e|]; [| |done]; cbv beta iota zeta.
  - pose proof (append_ok_data _ _ _ _ _ Hap) as [_ Hdata].
    destruct (finish_spec m (λ s, Ok s) pend w2 (log ++ rs)) as (? & Hl3 & ? & Hr); [done..|].
    eexists _, rs. split; [done|]. split_and!; [done|etrans; [exact Hl1|by etrans]|congruence|by left|]. left.
    split_and!; [by rewrite Hr, Hr2, Hr1|done|]. intros _ r Hin. exists (path (segment w2)). apply Hl3.
    eapply (synced_kept w1 log rs w2); [done|done|done|exact Hdata|done|by apply (good_whole w log)|done].
  - destruct (finish_spec m (λ _, Err (EStorage (error_to_string e))) pend w2 (log ++ rs)) as (? & ? & ? & Hr); [done..|].
    eexists _, rs. split; [done|]. split_and!; [done|etrans; [exact Hl1|by etrans]|congruence|by left|]. right. eexists.
    split; [by rewrite Hr, Hr2, Hr1|]. intros Hq. destruct Hsr as [_ []]. eapply suffix_quiet; [apply Hl1|done].
Qed.
End commit.

(** ** The worker loop *)
Definition append_item (m : option WalMessage) : option item :=
  match m with Some (Append sid off d c) => Some (sid, off, d, c) | _ => None end.

Definition msg_wf (m : option WalMessage) : Prop :=
  match append_item m with Some x => item_wf x | None => True end.

#[export] Instance msg_wf_dec m : Decision (msg_wf m).
Proof. unfold msg_wf. destruct (append_item m); apply _. Defined.

Section loop.
Context `{HO : HashOrder} (config : WalConfig).

Lemma good_send w log c r : (∀ s, r ≠ RSeq (Ok s)) → good w log →
  good (send c r w) log ∧ later w (send c r w) ∧ acks (send c r w) = acks w.
Proof.
  intros Hr [I Hf Hd]. split_and!; [|done|].
  - split; [exact (inv_replies w log _ _ I)|done|done].
  - unfold acks, send. simpl. rewrite omap_app. simpl. unfold ack at 2. simpl.
    destruct r as [[s| |]|]; [by destruct (Hr s)|by rewrite app_nil_r..].
Qed.

Lemma good_sync w log : good w log →
  ∃ r w', sync_segment w = (r, w') ∧ good w' log ∧ later w w'
    ∧ next_seq w' = next_seq w ∧ acks w' = acks w ∧ replies w' = replies w.
Proof.
  intros Hg. destruct (sync_segment_spec w log Hg) as (r & w' & Hs & Hg' & Hl & _ & Hn & Hr & _).
  exists r, w'. split_and!; [done..|unfold acks; by rewrite Hr|done].
Qed.

Lemma good_flush w log c : good w log →
  good (flush_reply c w) log ∧ later w (flush_reply c w) ∧ next_seq (flush_reply c w) = next_seq w
  ∧ acks (flush_reply c w) = acks w.
Proof.
  intros Hg. unfold flush_reply. destruct (good_sync w log Hg) as (r & w' & -> & Hg' & Hl & Hn & Ha & _).
  destruct (good_send w' log c (RUnit r)) as (? & ? & Ha'); [done..|]. rewrite Ha', Ha. split_and!; [done|by etrans|done..].
Qed.

(** Both drains extend the batch by the appends they consume. *)
Definition drained (w : Worker) (log : list WalRecord) (rx : list (option WalMessage))
    (batch : list item) (out : list item * list (option WalMessage) * Worker * bool) : Prop :=
  let '(batch', rx', w', stop) := out in
  good w' log ∧ later w w' ∧ next_seq w' = next_seq w ∧ acks w' = acks w
  ∧ ∃ used, rx = used ++ rx' ∧ batch' = batch ++ omap append_item used.

Lemma drained_refl w log rx batch stop : good w log →
  drained w log rx batch (batch, rx, w, stop).
Proof. intros. split_and!; [done..|]. exists []. by rewrite app_nil_r. Qed.

Lemma drained_step w w1 log m rx batch out : later w w1 → next_seq w1 = next_seq w → acks w1 = acks w →
  drained w1 log rx (batch ++ omap append_item [m]) out → drained w log (m :: rx) batch out.
Proof.
  intros Hl Hn Ha. destruct out as [[[batch' rx'] w'] stop].
  intros (? & ? & ? & ? & used & -> & ->). split_and!; [done|by etrans|congruence|congruence|].
  exists (m :: used). split; [done|]. rewrite <- app_assoc. f_equal. by rewrite <- omap_app.
Qed.

Lemma drained_trans w log rx batch b1 rx1 w1 r :
  drained w log rx batch (b1, rx1, w1, false) → drained w1 log rx1 b1 r → drained w log rx batch r.
Proof.
  destruct r as [[[b2 rx2] w2] s2].
  intros (_ & Hl1 & Hn1 & Ha1 & u1 & -> & ->) (? & Hl2 & Hn2 & Ha2 & u2 & -> & ->).
  split_and!; [done|by etrans|congruence|congruence|]. exists (u1 ++ u2). rewrite <- !app_assoc.
  split; [done|]. by rewrite omap_app.
Qed.

Lemma drain_spec max rx batch w log : good w log →
  drained w log rx batch (drain max rx batch w).
Proof.
  revert batch w. induction rx as [|m rx IH]; intros batch w Hg; cbn [drain];
    (case_decide; [|by apply drained_refl]); [by apply drained_refl|].
  destruct m as [[sid off d c|c|sid off c|]|].
  - apply (drained_step w w); [done..|]. by apply IH.
  - destruct (good_flush w log c Hg) as (? & ? & ? & ?).
    eapply drained_step; [done..|]. rewrite app_nil_r. by apply IH.
  - destruct (good_send w log c (RUnit (Ok ()))) as (? & ? & ?); [done..|].
    eapply (drained_step w (send c (RUnit (Ok ())) w)); [done..|]. rewrite app_nil_r. by apply IH.
  - destruct (good_sync w log Hg) as (r & w' & -> & ? & ? & ? & ? & _).
    eapply (drained_step w w'); [done..|]. rewrite app_nil_r. by apply drained_refl.
  - apply (drained_step w w); [done..|]. rewrite app_nil_r. by apply drained_refl.
Qed.

Lemma drain_window_spec max rx batch w log : good w log →
  drained w log rx batch (drain_window max rx batch w).
Proof.
  revert batch w. induction rx as [|m rx IH]; intros batch w Hg; cbn [drain_window];
    (case_decide; [|by apply drained_refl]); [by apply drained_refl|].
  destruct m as [[sid off d c|c|sid off c|]|].
  - apply (drained_step w w); [done..|]. by apply IH.
  - destruct (good_flush w log c Hg) as (? & ? & ? & ?).
    eapply drained_step; [done..|]. rewrite app_nil_r. by apply IH.
  - destruct (good_send w log c (RUnit (Ok ()))) as (? & ? & ?); [done..|].
    eapply (drained_step w (send c (RUnit (Ok ())) w)); [done..|]. rewrite app_nil_r. by apply IH.
  - apply (drained_step w w); [done..|]. rewrite app_nil_r. by apply drained_refl.
  - apply (drained_step w w); [done..|]. rewrite app_nil_r. by apply drained_refl.
Qed.

(** What the loop has done: the log grew by [new], numbered in order within
    the numbers handed out (consecutively when no call failed), and every new
    acknowledgement is for a received append whose record is in [new], and on
    stable storage when syncing is on. *)
Definition progressed (w : Worker) (log : list WalRecord) (rx : list (option WalMessage))
    (w' : Worker) (new : list WalRecord) : Prop :=
  good w' (log ++ new) ∧ later w w' ∧ next_seq w ≤ next_seq w' ∧
  Forall (λ r, next_seq w ≤ seq r < next_seq w') new ∧ StronglySorted (key_lt seq) new ∧
  (quiet (faults w) → next_seq w' = next_seq w + zlen new ∧ seq <$> new = seqZ (next_seq w) (zlen new)) ∧
  ∃ fresh, acks w' = acks w ++ fresh ∧
    ∀ c s, (c, s) ∈ fresh → ∃ sid off d,
      Some (Append sid off d c) ∈ rx ∧ mkWal s sid off d ∈ new ∧
      (sync_to_disk config = true → ∃ p, kept (disk w') p (mkWal s sid off d)).

Lemma progressed_none w log rx w' : good w' log → later w w' → next_seq w' = next_seq w →
  acks w' = acks w → progressed w log rx w' [].
Proof.
  intros ? ? ? Ha. split_and!; [by rewrite app_nil_r|done|lia|done|constructor| |].
  - rewrite zlen_nil. split; [lia|done].
  - exists []. rewrite Ha, app_nil_r. set_solver.
Qed.

Lemma progressed_trans w log rx1 rx2 rx w1 new1 w2 new2 :
  (∀ m, m ∈ rx1 ∨ m ∈ rx2 → m ∈ rx) →
  progressed w log rx1 w1 new1 → progressed w1 (log ++ new1) rx2 w2 new2 →
  progressed w log rx w2 (new1 ++ new2).
Proof.
  intros Hrx (_ & Hl1 & Hn1 & Hb1 & Ho1 & Hq1 & f1 & Ha1 & Hf1) (Hg & Hl2 & Hn2 & Hb2 & Ho2 & Hq2 & f2 & Ha2 & Hf2).
  split_and!; [by rewrite app_assoc|by etrans|lia| | | |].
  - apply Forall_app. split; [eapply Forall_impl; [exact Hb1|]|eapply Forall_impl; [exact Hb2|]]; simpl; lia.
  - apply StronglySorted_app_2; [|done|done]. intros x y Hx Hy. rewrite Forall_forall in Hb1, Hb2.
    specialize (Hb1 x Hx). specialize (Hb2 y Hy). unfold key_lt. lia.
  - intros Hq. destruct (Hq1 Hq) as [E1 Hs1]. destruct Hq2 as [E2 Hs2]; [eapply suffix_quiet; [apply Hl1|done]|].
    split; [rewrite zlen_app; lia|]. by rewrite fmap_app, Hs1, Hs2, E1, zlen_app, seqZ_app by apply zlen_nonneg.
  - exists (f1 ++ f2). rewrite Ha2, Ha1, <- app_assoc. split; [done|].
    intros c s [Hin|Hin]%elem_of_app.
    + destruct (Hf1 _ _ Hin) as (sid & off & d & ? & ? & Hk). exists sid, off, d.
      split_and!; [apply Hrx; by left|set_solver|]. intros Hs. destruct (Hk Hs) as [p ?]. exists p. by apply Hl2.
    + destruct (Hf2 _ _ Hin) as (sid & off & d & ? & ? & ?). exists sid, off, d.
      split_and!; [apply Hrx; by right|set_solver|done].
Qed.

Lemma progressed_skip m rx w w1 log w' new : good w1 log → later w w1 → next_seq w1 = next_seq w → acks w1 = acks w →
  progressed w1 log rx w' new → progressed w log (m :: rx) w' new.
Proof.
  intros ? ? ? ? Hp. apply (progressed_trans w log [] rx _ w1 [] w' new).
  - set_solver.
  - by apply progressed_none.
  - by rewrite app_nil_r.
Qed.

(** The batch after both drains. *)
Lemma windows_spec max (b : bool) w log rx batch b1 rx1 w1 : drained w log rx batch (b1, rx1, w1, false) →
  drained w log rx batch (if b then drain_window max rx1 b1 w1 else (b1, rx1, w1, false)).
Proof. intros D. destruct b; [|done]. eapply drained_trans; [exact D|]. apply drain_window_spec. by destruct D. Qed.

Lemma items_wf used : Forall msg_wf used → Forall item_wf (omap append_item used).
Proof.
  intros Hu. apply Forall_forall. intros x (m & Hm & Hx)%list_elem_of_omap.
  rewrite Forall_forall in Hu. specialize (Hu m Hm). unfold msg_wf in Hu. by rewrite Hx in Hu.
Qed.

Lemma seqZ_sorted l n : seq <$> l = seqZ n (zlen l) → StronglySorted (key_lt seq) l.
Proof.
  revert n. induction l as [|r l IH]; intros n; [constructor|].
  rewrite zlen_cons, fmap_cons. pose proof (zlen_nonneg l). rewrite (seqZ_cons n) by lia.
  intros [= Hr Hl]. replace (Z.pred (1 + zlen l)) with (zlen l) in Hl by lia. constructor; [by eapply IH|].
  apply Forall_forall. intros x Hx. apply (list_elem_of_fmap_2 seq) in Hx. rewrite Hl in Hx.
  apply elem_of_seqZ in Hx. unfold key_lt. lia.
Qed.

Lemma commit_progressed used batch w log : good w log → batch ≠ [] →
  batch = omap append_item used → Forall msg_wf used → next_seq w + zlen batch < 2 ^ 64 →
  ∃ w' new, commit config batch w = Ok w' ∧ progressed w log used w' new
    ∧ next_seq w' = next_seq w + zlen batch.
Proof.
  intros Hg Hne Hb Hu Hn. pose proof (zlen_nonneg batch).
  destruct (commit_spec config batch w log Hg Hne) as (w' & new & Hc & Hg' & Hl & Hn' & Hnew & Hrep); [|done|].
  { rewrite Hb. by apply items_wf. }
  exists w', new. split_and!; [done| |done]. split_and!; [done|done|lia| | | |].
  - destruct Hnew as [->|[-> _]]; [|done]. rewrite Hn'. apply records_of_seqs.
  - destruct Hnew as [->|[-> _]]; [|constructor]. eapply seqZ_sorted, records_of_seqZ.
  - intros Hq. destruct Hnew as [->|[_ []]]; [|done]. split; [|apply records_of_seqZ].
    rewrite Hn'. unfold zlen. by rewrite length_records_of.
  - destruct Hrep as [(Hr & -> & Hk)|(e & Hr & _)].
    + exists (acks_of (next_seq w) batch). unfold acks. rewrite Hr, acks_replies. split; [done|]. intros c s Hin.
      apply acks_of_record in Hin as (sid & off & d & Hin & Hrec). exists sid, off, d. split_and!; [|done|auto].
      rewrite Hb in Hin. apply list_elem_of_omap in Hin as (m & Hm & Hx).
      destruct m as [[]|]; simplify_eq/=. done.
    + exists []. unfold acks. rewrite Hr, acks_errors, app_nil_r. set_solver.
Qed.

Lemma zlen_omap {A B} (f : A → option B) l : zlen (omap f l) ≤ zlen l.
Proof.
  unfold zlen. apply inj_le. induction l as [|x l IH]; [done|]. simpl.
  destruct (f x); simpl; [apply le_n_S, IH|apply le_S, IH].
Qed.

Lemma group_commit_loop_spec fuel rx w log : good w log → Forall msg_wf rx →
  (length rx < fuel)%nat → next_seq w + zlen rx < 2 ^ 64 →
  ∃ w' new, group_commit_loop fuel config rx w = Ok w' ∧ progressed w log rx w' new
    ∧ next_seq w' ≤ next_seq w + zlen rx.
Proof.
  revert rx w log. induction fuel as [|fuel IH]; intros rx w log Hg Hwf Hf Hn; [lia|].
  assert (∀ m rx1 w1, rx = m :: rx1 → good w1 log → later w w1 → next_seq w1 = next_seq w → acks w1 = acks w →
    ∃ w' new, group_commit_loop fuel config rx1 w1 = Ok w' ∧ progressed w log rx w' new
      ∧ next_seq w' ≤ next_seq w + zlen rx) as Hskip.
  { intros m rx1 w1 -> Hg1 Hl1 Hn1 Ha1. rewrite zlen_cons in Hn. apply Forall_cons in Hwf as [_ Hwf]. simpl in Hf.
    destruct (IH rx1 w1 log Hg1 Hwf) as (w' & new & ? & Hp & ?); [lia..|].
    exists w', new. rewrite zlen_cons. split_and!; [done|by eapply progressed_skip|lia]. }
  assert (∀ w1, good w1 log → later w w1 → next_seq w1 = next_seq w → acks w1 = acks w →
    ∃ w' new, Ok (E:=OxideMqError) w1 = Ok w' ∧ progressed w log rx w' new ∧ next_seq w' ≤ next_seq w + zlen rx) as Hstop.
  { intros w1 ? ? ? ?. exists w1, []. pose proof (zlen_nonneg rx). split_and!; [done|by apply progressed_none|lia]. }
  pose proof (zlen_nonneg rx) as Hrx.
  cbn [group_commit_loop]. destruct rx as [|m rx]; [by apply Hstop|].
  destruct (good_sync w log Hg) as (r & ws & Hs & ? & ? & ? & ? & _).
  destruct m as [[sid off d c|c|sid off c|]|].
  2: { destruct (good_flush w log c Hg) as (? & ? & ? & ?). by eapply Hskip. }
  2: { destruct (good_send w log c (RUnit (Ok ()))) as (? & ? & ?); [done..|]. by eapply Hskip. }
  2, 3: rewrite Hs; by apply Hstop.
  pose proof (drain_spec (max_batch_records config) rx [(sid, off, d, c)] w log Hg) as D1.
  destruct (drain _ rx _ w) as [[[b1 rx1] w1] s1].
  destruct s1; [destruct D1 as (? & ? & ? & ? & _); by apply Hstop|].
  pose proof (windows_spec (max_batch_records config)
    (bool_decide (zlen b1 < 16 ∧ group_commit_window_micros config ≠ 0)) _ _ _ _ _ _ _ D1) as D2.
  destruct (if bool_decide _ then _ else _) as [[[b2 rx2] w2] s2].
  destruct D2 as (Hg2 & Hl2 & Hn2 & Ha2 & u & -> & ->).
  destruct s2; [by apply Hstop|]. clear Hskip Hstop.
  set (used := Some (Append sid off d c) :: u).
  assert (Some (Append sid off d c) :: u ++ rx2 = used ++ rx2) as Hused by done.
  rewrite Hused in Hwf, Hn, Hrx |- *. apply Forall_app in Hwf as [Hwf1 Hwf2].
  match goal with |- context [commit config ?b w2] => change b with (omap append_item used) end.
  pose proof (zlen_omap append_item used). rewrite zlen_app in Hn.
  pose proof (zlen_nonneg rx2).
  assert (omap append_item used ≠ []) as Hne by (intros Hx; discriminate Hx).
  destruct (commit_progressed used (omap append_item used) w2 log Hg2 Hne eq_refl Hwf1) as (w3 & new & -> & Hp & Hn3);
    [lia|]. cbn [mbind res_bind].
  destruct (IH rx2 w3 (log ++ new)) as (w4 & new' & -> & Hp' & Hle).
  { by destruct Hp. } { done. } { rewrite Hused, length_app in Hf. unfold used in Hf. simpl in Hf. lia. } { lia. }
  eexists w4, _. split; [done|]. split; [|rewrite zlen_app; lia].
  eapply progressed_trans; [|eapply (progressed_trans w log [] used used w2 [] w3 _)|rewrite app_nil_l; exact Hp'].
  - set_solver. - set_solver. - by apply progressed_none. - by rewrite app_nil_r.
Qed.
End loop.

(** ** Crashes, reopening and reading *)
Section durability.
Context `{HO : HashOrder}.

Lemma elem_of_wal_log fs b p r : (b, p) ∈ segment_paths fs → r ∈ file_records (contents_of fs p) → r ∈ wal_log fs.
Proof. intros Hp Hr. unfold wal_log, log_of. apply list_elem_of_bind. by exists (b, p). Qed.

(** A record in the durable part of a segment is in the log of whatever a power
    failure leaves, if the segment's entry in the directory is left. *)
Lemma crash_keeps fs fs' p r : stable fs → crash fs fs' → kept fs p r → is_Some (names fs' !! p) →
  r ∈ wal_log fs'.
Proof.
  intros Hst [Hn Hc] [[b Hp] Hr] [ino Hino]. pose proof Hp as Hp'.
  apply elem_of_segment_paths in Hp' as (_ & He & Hpb).
  assert (names fs !! p = Some ino) as Hino0 by (by eapply lookup_weaken).
  eapply (elem_of_wal_log fs' b p); [by apply elem_of_segment_paths; split_and!|].
  destruct (Hc p ino Hino) as [junk Hj]. destruct (Hst b p ino Hp Hino0) as [_ Hw].
  unfold contents_of, stable_contents in *. rewrite Hino0 in *. rewrite Hino, Hj, <- Hw.
  destruct (file_records_prefix (file_records (take (durable (inode_of ino fs)) (data (inode_of ino fs)))) junk
    (file_records_wf _)) as [k ->]. set_solver.
Qed.

Lemma crash_ok fs fs' : fs_ok fs → crash fs fs' → fs_ok fs'.
Proof. intros Hok [Hn _] n1 n2 ino H1 H2. eapply Hok; by eapply lookup_weaken. Qed.

Lemma kept_named fs p r : kept fs p r → is_Some (names fs !! p).
Proof. intros [[b Hp] _]. by apply elem_of_segment_paths in Hp as [? _]. Qed.

Lemma strip_suffix_inv suf s p : strip_suffix suf s = Some p → s = p +:+ suf.
Proof.
  revert p. induction s as [|c s IH]; intros p; cbn [strip_suffix]; case_decide as E.
  - intros [= <-]. done.
  - done.
  - intros [= <-]. by rewrite E.
  - destruct (strip_suffix suf s) eqn:Hs; [|done]. intros [= <-].
    rewrite (IH s0 eq_refl). done.
Qed.

Lemma parse_ends_with p b : parse_base_seq_from_filename p = Some b →
  ends_with WAL_FILE_EXTENSION p = true.
Proof.
  unfold parse_base_seq_from_filename. destruct (strip_suffix _ p) as [stem|] eqn:Hs; [|done].
  intros _. apply strip_suffix_inv in Hs as ->. unfold ends_with. apply bool_decide_eq_true_2.
  rewrite <- (str_app_assoc stem "." WAL_FILE_EXTENSION), strip_suffix_app. done.
Qed.

Lemma highest_spec l :
  match foldl highest_step None l with
  | None => ∀ e, e ∈ l → parse_base_seq_from_filename e.1 = None
  | Some (b, p) => (∃ ino, (p, ino) ∈ l) ∧ parse_base_seq_from_filename p = Some b
      ∧ ∀ e b', e ∈ l → parse_base_seq_from_filename e.1 = Some b' → b' ≤ b
  end.
Proof.
  induction l as [|[p0 i0] l IH] using rev_ind; [set_solver|]. rewrite foldl_app. simpl.
  unfold highest_step at 1. simpl. destruct (parse_base_seq_from_filename p0) as [b0|] eqn:H0.
  - destruct (foldl highest_step None l) as [[b p]|].
    + destruct IH as ([i Hi] & Hp & Hm). case_decide.
      * split_and!; [exists i0; set_solver|done|].
        intros e b' [He|He]%elem_of_app Hb'; [specialize (Hm e b' He Hb'); lia|].
        apply list_elem_of_singleton in He as ->. simpl in Hb'. simplify_eq. lia.
      * split_and!; [exists i; set_solver|done|].
        intros e b' [He|He]%elem_of_app Hb'; [by apply (Hm e b')|].
        apply list_elem_of_singleton in He as ->. simpl in Hb'. simplify_eq. lia.
    + split_and!; [exists i0; set_solver|done|].
      intros e b' [He|He]%elem_of_app Hb'; [by rewrite (IH e He) in Hb'|].
      apply list_elem_of_singleton in He as ->. simpl in Hb'. simplify_eq. lia.
  - destruct (foldl highest_step None l) as [[b p]|].
    + destruct IH as ([i Hi] & Hp & Hm). split_and!; [exists i; set_solver|done|].
      intros e b' [He|He]%elem_of_app Hb'; [by apply (Hm e b')|].
      apply list_elem_of_singleton in He as ->. simpl in Hb'. congruence.
    + intros e [He|He]%elem_of_app; [by apply IH|]. by apply list_elem_of_singleton in He as ->.
Qed.

Lemma os_quiet {A} (f : IoOutcome → Fs → result A * Fs) fs io : quiet io →
  ∃ io', quiet io' ∧ os f (fs, io) = ((f IoOk fs).1, ((f IoOk fs).2, io')).
Proof.
  intros Hq. destruct (next_io_quiet io Hq) as (io' & E & Hq'). exists io'. split; [done|].
  unfold os. simpl. rewrite E. by destruct (f IoOk fs).
Qed.

(** The active segment of a worker is what [init_active_segment] finds in its
    directory. *)
Lemma init_active_segment_spec w log start io : inv w log → quiet io →
  ∃ io', quiet io' ∧ init_active_segment start (disk w, io) = (Ok (segment w), (disk w, io')).
Proof.
  intros I Hq. unfold init_active_segment, mbind, Io_bind.
  destruct (os_quiet read_dir (disk w) io Hq) as (io1 & Hq1 & ->). cbn [read_dir fst snd].
  pose proof (highest_spec (hash_iter (names (disk w)))) as Hh.
  destruct (inv_last _ _ I) as [segs Hsegs].
  assert ((base_seq (segment w), path (segment w)) ∈ segment_paths (disk w)) as Hlast
    by (rewrite Hsegs; set_solver).
  pose proof Hlast as Hlast'. apply elem_of_segment_paths in Hlast' as (_ & _ & Hpl).
  pose proof (inv_file _ _ I) as Hfile. pose proof Hfile as Hfile'. apply elem_of_hash_iter in Hfile'.
  destruct (foldl highest_step None _) as [[b p]|].
  2: { specialize (Hh _ Hfile'). simpl in Hh. congruence. }
  destruct Hh as ([i Hi] & Hp & Hm). apply elem_of_hash_iter in Hi.
  assert ((b, p) ∈ segment_paths (disk w)) as Hbp.
  { apply elem_of_segment_paths. split_and!; [done|by eapply parse_ends_with|done]. }
  assert (base_seq (segment w) ≤ b) by (by apply (Hm _ _ Hfile')).
  pose proof (last_base_max _ _ _ _ _ _ (inv_sorted _ _ I) Hsegs Hbp).
  assert (b = base_seq (segment w)) as -> by lia.
  assert ((base_seq (segment w), p) = (base_seq (segment w), path (segment w))) as [= ->].
  { by apply (key_lt_inj _ _ _ _ (inv_sorted _ _ I)). }
  destruct (os_quiet (open_append (path (segment w)) (base_seq (segment w))) (disk w) io1 Hq1) as (io2 & Hq2 & ->).
  exists io2. split; [done|]. unfold open_append. rewrite Hfile. cbn [fst snd]. rewrite <- (inv_size _ _ I).
  by destruct (segment w).
Qed.

(** Opening the directory of a worker again: the files are as they were and the
    numbering goes on after the last record of the log. *)
Lemma reopen_spec w log io : inv w log → quiet io →
  ∃ io', quiet io' ∧ open (Some (disk w)) io =
    (Ok (mkWorker (segment w) (u64 (max_seq log + 1)) (disk w) io' []), Some (disk w)).
Proof.
  intros I Hq. unfold open. destruct (next_io_quiet io Hq) as (io1 & -> & Hq1). cbn [default from_option]. unfold id.
  destruct (recover_quiet (disk w) io1 (inv_ok _ _ I) Hq1) as (fs' & io2 & Hr & Hq2 & _ & Hid).
  rewrite Hid in Hr by apply (inv_whole _ _ I). unfold recover in Hr. unfold start, mbind, Io_bind.
  destruct (recover_dir (disk w, io1)) as [r [fs1 io1']]. injection Hr as -> -> ->.
  rewrite (inv_log _ _ I).
  assert (highest_seq (note_truncated (tails_of (segment_paths (disk w)) (disk w)) (report_of (disk w) log))
          = max_seq log) as ->.
  { unfold note_truncated. cbn [highest_seq].
    change (report_of (disk w) log) with (report_from (zlen (segment_paths (disk w))) log).
    apply report_highest. rewrite <- (inv_log _ _ I). apply wal_log_wf. }
  destruct (init_active_segment_spec w log (u64 (max_seq log + 1)) io2 I Hq2) as (io3 & Hq3 & ->).
  destruct (os_quiet spawn_worker (disk w) io3 Hq3) as (io4 & Hq4 & ->). by exists io4.
Qed.
End durability.

Section reading.
Context `{HO : HashOrder}.

Definition matches (sid start : Z) (r : WalRecord) : Prop := stream_id r = sid ∧ offset r ≥ start.
#[local] Instance matches_dec sid start r : Decision (matches sid start r).
Proof. unfold matches. apply _. Defined.

(** [budget] together with the running total and whether the bound was hit. *)
Fixpoint budget_run (total max_bytes : Z) (l : list WalRecord) : list WalRecord * Z * bool :=
  match l with
  | [] => ([], total, false)
  | r :: l' =>
      let total := total + zlen (payload r) in
      if decide (total ≥ max_bytes) then ([r], total, true)
      else let '(k, t, b) := budget_run total max_bytes l' in (r :: k, t, b)
  end.

Lemma budget_app t m l1 l2 : budget t m (l1 ++ l2) =
  let '(k, t', stop) := budget_run t m l1 in if stop then k else k ++ budget t' m l2.
Proof.
  revert t. induction l1 as [|r l1 IH]; intros t; [done|]. simpl. case_decide; [done|].
  rewrite IH. destruct (budget_run _ m l1) as [[k t'] []]; done.
Qed.

Lemma read_loop_spec fuel raw cursor sid start m t acc rs tail :
  0 ≤ cursor ≤ zlen raw → (length (drop (Z.to_nat cursor) raw) < fuel)%nat →
  decodes (drop (Z.to_nat cursor) raw) rs tail →
  read_loop fuel raw cursor sid start m t acc =
    let '(k, t', stop) := budget_run t m (filter (matches sid start) rs) in (acc ++ k, t', stop).
Proof.
  revert cursor t acc rs. induction fuel as [|fuel IH]; intros cursor t acc rs Hc Hf Hd; [lia|].
  cbn [read_loop]. destruct Hd as (Hraw & Hwf & Hs).
  assert (zlen (drop (Z.to_nat cursor) raw) = zlen raw - cursor) as Hl
    by (unfold zlen in *; rewrite length_drop; lia).
  destruct rs as [|r rs].
  { simpl. rewrite app_nil_r. case_decide; [|done]. rewrite frames_nil in Hraw. simpl in Hraw.
    rewrite Hraw. destruct (decode tail) as [[[r n]|]| |] eqn:Hd; [by destruct (Hs r n)|done..]. }
  apply Forall_cons in Hwf as [Hr Hwf]. rewrite frames_cons, <- app_assoc in Hraw.
  assert (drop (Z.to_nat (cursor + zlen (frame r))) raw = frames rs ++ tail) as Hdr.
  { rewrite Z2Nat.inj_add by (unfold zlen; lia). rewrite <- drop_drop, Hraw.
    apply drop_app_exact. unfold zlen. lia. }
  pose proof (decode_frame r (frames rs ++ tail) Hr) as Hd. rewrite <- Hraw in Hd.
  apply (f_equal zlen) in Hraw. rewrite zlen_app in Hraw.
  pose proof (zlen_nonneg (frames rs ++ tail)). pose proof (frame_nonempty r).
  rewrite decide_True by (unfold zlen in *; lia). rewrite Hd.
  assert (∀ t acc, read_loop fuel raw (cursor + zlen (frame r)) sid start m t acc =
    let '(k, t', stop) := budget_run t m (filter (matches sid start) rs) in (acc ++ k, t', stop))
    as Hnext.
  { intros. apply IH; [unfold zlen in *; lia| |rewrite Hdr; by split_and!].
    rewrite Hdr. unfold zlen in *. lia. }
  rewrite filter_cons. destruct (decide (stream_id r = sid ∧ start ≤ offset r)) as [Hm|Hm].
  2: { rewrite (decide_False (P := matches sid start r)) by done. apply Hnext. }
  rewrite (decide_True (P := matches sid start r)) by done. cbn [budget_run]. case_decide; [done|]. rewrite Hnext.
  destruct (budget_run _ m _) as [[k t'] stop]. by rewrite <- app_assoc.
Qed.

(** A file operation that may only fail with an I/O error, and changes
    nothing. *)
Definition reads {A} (fs : Fs) (io : list IoOutcome) (a : A) (out : result A * (Fs * list IoOutcome)) : Prop :=
  recovers fs io (λ a' fs', a' = a ∧ fs' = fs) out ∧ out.2.1 = fs.

Lemma io_reads_bind {A B} (m : Io A) (k : A → Io B) fs io a b :
  reads fs io a (m (fs, io)) → (∀ io', reads fs io' b (k a (fs, io'))) → reads fs io b ((m ≫= k) (fs, io)).
Proof.
  intros [Hr Hf] Hk. split.
  - eapply recovers_bind; [exact Hr|]. intros ? ? io' [-> ->] _. apply Hk.
  - unfold mbind, Io_bind. destruct (m (fs, io)) as [[a'|e|] [fs' io']]; cbn in Hf; subst fs'; [|done..].
    destruct Hr as (_ & _ & -> & _). apply Hk.
Qed.

Lemma io_reads_os {A} (f : IoOutcome → Fs → result A * Fs) (a : A) fs io :
  f IoOk fs = (Ok a, fs) → (∀ n m, f (IoErr n m) fs = (Err (EIo m), fs)) → reads fs io a (os f (fs, io)).
Proof.
  intros Hok Herr. split; [by apply recovers_read|]. unfold os. simpl.
  destruct (next_io io) as [[|n m] io']; simpl; [by rewrite Hok|by rewrite Herr].
Qed.

Lemma io_reads_ret {A} fs io (a : A) : reads fs io a ((mret a : Io A) (fs, io)).
Proof. by repeat split. Qed.

Lemma read_segments_spec paths sid start m fs t acc io :
  (∀ bp, bp ∈ paths → is_Some (names fs !! bp.2)) →
  reads fs io (acc ++ budget t m (filter (matches sid start) (log_of paths fs)))
    (read_segments paths sid start m t acc (fs, io)).
Proof.
  revert t acc io. induction paths as [|[b p] paths IH]; intros t acc io Hp.
  { simpl. rewrite app_nil_r. apply io_reads_ret. }
  cbn [read_segments]. destruct (Hp (b, p)) as [ino Hino]; [set_solver|]. simpl in Hino.
  set (raw := data (inode_of ino fs)).
  eapply io_reads_bind; [apply (io_reads_os _ (mkSegment b p ino (zlen raw))); [unfold open_append; by rewrite Hino|done]|].
  intros io1. eapply io_reads_bind; [by apply (io_reads_os _ raw)|]. intros io2.
  rewrite (log_of_cons (b, p)), log_of_one, filter_app, budget_app. cbn [snd].
  unfold contents_of at 1. rewrite Hino. fold raw.
  destruct (decodes_file_records raw) as [tail Hd].
  rewrite (read_loop_spec _ _ _ _ _ _ _ _ (file_records raw) tail);
    [|pose proof (zlen_nonneg raw); lia|simpl; rewrite drop_0; lia|by simpl; rewrite drop_0].
  destruct (budget_run t m _) as [[k t'] []]; [apply io_reads_ret|].
  rewrite app_assoc. apply IH. intros; apply Hp; set_solver.
Qed.

(** Purging removes the segment files below the bound, and no other file; when
    it fails it has removed some of them. *)
Definition purged (min_seq : Z) (name : string) : bool :=
  match parse_base_seq_from_filename name with Some b => bool_decide (b < min_seq) | None => false end.

Lemma purge_loop_spec min_seq l n fs io :
  let '(r, (fs', io')) := purge_loop min_seq l n (fs, io) in
  (∀ name, (∀ i, (name, i) ∉ l) ∨ purged min_seq name = false → names fs' !! name = names fs !! name)
  ∧ inodes fs' = inodes fs
  ∧ match r with
    | Ok k => k = n + zlen (filter (λ e, purged min_seq e.1) l)
        ∧ ∀ e, e ∈ l → purged min_seq e.1 = true → names fs' !! e.1 = None
    | Err e => ¬ quiet io
    | Panic => False
    end.
Proof.
  revert n fs io. induction l as [|[p i] l IH]; intros n fs io.
  { simpl. split_and!; [done|done|by rewrite Z.add_0_r|set_solver]. }
  assert (purge_loop min_seq ((p, i) :: l) n = if purged min_seq p
    then (_ ← os (remove_file p); purge_loop min_seq l (n + 1)) else purge_loop min_seq l n) as ->.
  { unfold purged. cbn [purge_loop fst]. destruct (parse_base_seq_from_filename p); [|done].
    case_decide; case_bool_decide; done || lia. }
  destruct (purged min_seq p) eqn:Hp.
  - unfold mbind, Io_bind, os. cbn [fst snd]. destruct (next_io io) as [[|k m] io1] eqn:Hio; cbn [remove_file].
    2: { split_and!; [done|done|by eapply next_io_err]. }
    specialize (IH (n + 1) (fs_remove p fs) io1). destruct (purge_loop min_seq l (n + 1) _) as [r [fs' io']].
    destruct IH as (Hn & Hi & Hr). split_and!.
    + intros name Hname. rewrite Hn by set_solver. cbn. rewrite lookup_delete_ne; [done|].
      intros <-. destruct Hname as [Hx|]; [|congruence]. destruct (Hx i). set_solver.
    + done.
    + destruct r as [k|e|]; [| |done].
      2: { intros Hq. apply Hr. destruct (next_io_quiet io Hq) as (? & E & ?). congruence. }
      destruct Hr as [-> Hr]. split; [rewrite filter_cons; case_decide as E; simpl in E; rewrite Hp in E; [rewrite zlen_cons; lia|done]|].
      intros e [->|He]%elem_of_cons Hpe; [|by apply Hr].
      destruct (decide (p ∈ l.*1)) as [([? i'] & -> & Hi')%list_elem_of_fmap|Hne]; [by apply (Hr (_, i'))|].
      cbn [fst]. rewrite Hn by (left; intros ? ?; apply Hne; by apply (list_elem_of_fmap_2 fst) in H). cbn. apply lookup_delete_eq.
  - specialize (IH n fs io). destruct (purge_loop min_seq l n _) as [r [fs' io']]. destruct IH as (Hn & Hi & Hr). split_and!.
    + intros name [Hname|Hname]; apply Hn; [left|by right]. set_solver.
    + done.
    + destruct r as [k|e|]; [|done..]. destruct Hr as [-> Hr].
      split; [rewrite filter_cons; case_decide as E; simpl in E; rewrite Hp in E; done|].
      intros e [->|He]%elem_of_cons Hpe; [simpl in Hpe; congruence|by apply Hr].
Qed.
End reading.
