(* ===== verification/FileWalSpec.v ===== *)
(** * Theorems about the file-backed WAL

    Termination of the group-commit worker, durability of acknowledged
    appends across power failures, clean restarts, reads, the [WalEngine]
    instance, and four situations in which acknowledged data is lost. *)

From Stdlib Require Import Strings.Byte.
From stdpp Require Import base numbers list gmap strings sorting fin_maps.
From S2P Require Import Prelude Bytes Crc CoreTypes WalFrame Wal WalSegment WalRecovery FileWal.

(** ** Termination *)
Lemma encode_total {E} r dst : ∃ out, encode (E:=E) r dst = Ok out.
Proof.
  unfold encode. set (d1 := dst ++ put_32 WAL_MAGIC). set (d2 := d1 ++ put_32 0).
  set (d3 := ((((d2 ++ _) ++ _) ++ _) ++ _) ++ payload r).
  assert (zlen d2 ≤ zlen d3 ∧ zlen d1 + 4 ≤ zlen d3) as [H2 H1].
  { unfold d3, d2. lens. pose proof (zlen_nonneg (payload r)). lia. }
  pose proof (zlen_nonneg d1). pose proof (zlen_nonneg d2).
  destruct (slice_ok (E:=E) d3 (zlen d2) (zlen d3)) as [m ->]; [lia..|]. cbn [mbind res_bind].
  unfold copy_at. rewrite decide_True by (lens; lia). by eexists.
Qed.

Lemma encode_batch_total batch next buf pend : ∃ out, encode_batch batch next buf pend = Ok out.
Proof.
  revert next buf pend. induction batch as [|[[[sid off] d] c] batch IH]; intros; [by eexists|].
  cbn [encode_batch]. destruct (encode_total (E:=OxideMqError) (mkWal next sid off d) buf) as [out ->].
  apply IH.
Qed.

Lemma commit_total config batch w : ∃ w', commit config batch w = Ok w'.
Proof.
  unfold commit. destruct (encode_batch_total batch (next_seq w) [] []) as [[[n buf] pend] ->].
  cbn [mbind res_bind].
  destruct (append_segment buf (mkWorker (segment w) n (disk w) (faults w) (replies w))) as [ar w1].
  destruct (is_Ok ar && sync_to_disk config); [destruct (sync_segment w1)|]; by eexists.
Qed.

Lemma drain_suffix max rx batch w : ∃ used, rx = used ++ (drain max rx batch w).1.1.2.
Proof.
  revert batch w. induction rx as [|m rx IH]; intros batch w; cbn [drain]; case_decide;
    try by exists []. destruct m as [[sid off d c|c|sid off c|]|]; simpl.
  1-3: match goal with |- ∃ used, _ :: _ = used ++ (drain _ _ ?b ?w).1.1.2 =>
         destruct (IH b w) as [u Hu]; eexists (_ :: u); by rewrite <- app_comm_cons, <- Hu end.
  all: eexists [_]; reflexivity.
Qed.

Lemma drain_window_suffix max rx batch w : ∃ used, rx = used ++ (drain_window max rx batch w).1.1.2.
Proof.
  revert batch w. induction rx as [|m rx IH]; intros batch w; cbn [drain_window]; case_decide;
    try by exists []. destruct m as [[sid off d c|c|sid off c|]|]; simpl.
  1-3: match goal with |- ∃ used, _ :: _ = used ++ (drain_window _ _ ?b ?w).1.1.2 =>
         destruct (IH b w) as [u Hu]; eexists (_ :: u); by rewrite <- app_comm_cons, <- Hu end.
  all: eexists [_]; reflexivity.
Qed.

Lemma group_commit_loop_total fuel config rx w : (length rx < fuel)%nat →
  ∃ w', group_commit_loop fuel config rx w = Ok w'.
Proof.
  revert rx w. induction fuel as [|fuel IH]; intros rx w Hf; [lia|].
  cbn [group_commit_loop]. destruct rx as [|m rx]; [by eexists|]. simpl in Hf.
  destruct m as [[sid off d c|c|sid off c|]|]; [|apply IH; lia|apply IH; lia|by eexists..].
  destruct (drain_suffix (max_batch_records config) rx [(sid, off, d, c)] w) as [u1 H1].
  destruct (drain _ rx _ w) as [[[b1 rx1] w1] s1]. simpl in H1. destruct s1; [by eexists|].
  destruct (drain_window_suffix (max_batch_records config) rx1 b1 w1) as [u2 H2].
  destruct (if bool_decide _ then _ else _) as [[[b2 rx2] w2] s2] eqn:E2.
  assert (length rx2 ≤ length rx)%nat as Hle.
  { case_bool_decide; [rewrite E2 in H2; simpl in H2|injection E2 as <- <- <- <-]; subst; lens; lia. }
  destruct s2; [by eexists|]. destruct (commit_total config b2 w2) as [w3 ->]. apply IH. lia.
Qed.

(** The group-commit worker terminates and never panics, whatever
    messages arrive in whatever order, and whichever of its I/O calls fail. *)
Theorem file_wal_worker_total config rx w : ∃ w', run_group_commit_loop config rx w = Ok w'.
Proof. apply group_commit_loop_total. lia. Qed.

(** ** A fresh directory *)
Section fresh.
Context `{HO : HashOrder}.

Lemma open_empty io w fs0 : open None io = (Ok w, fs0) → Forall clean io →
  good w [] ∧ next_seq w = 1 ∧ replies w = [] ∧ faults w `suffix_of` io.
Proof.
  assert (hash_iter (∅ : gmap string nat) = []) as He by (by apply hash_iter_nil).
  intros Ho Hcl. assert (faults w `suffix_of` io ∧ w = mkWorker
    (mkSegment 1 (segment_filename 1) (fresh (dom (∅ : gmap nat Inode))) 0) 1
    (mkFs {[segment_filename 1 := fresh (dom (∅ : gmap nat Inode))]}
          {[fresh (dom (∅ : gmap nat Inode)) := mkInode [] 0]}) (faults w) []) as [Hsuf Hw].
  { unfold open, start, recover_dir, init_active_segment, mbind, Io_bind, os in Ho. cbn [from_option default] in Ho.
    unfold id in Ho. pose proof (next_io_suffix io) as H1. destruct (next_io io) as [[|] io1]; [|done].
    cbn [fst snd] in Ho. pose proof (next_io_suffix io1) as H2. destruct (next_io io1) as [[|] io2]; [|done].
    cbn [read_dir names list_segments] in Ho. unfold list_segments in Ho. rewrite He in Ho.
    cbn [omap list_omap sort_by_key foldr recover_segments mret Io_ret fst snd highest_seq] in Ho.
    pose proof (next_io_suffix io2) as H3. destruct (next_io io2) as [[|] io3]; [|done]. cbn [read_dir names] in Ho.
    rewrite He in Ho. cbn [foldl fst snd] in Ho.
    pose proof (next_io_suffix io3) as H4. destruct (next_io io3) as [[|] io4]; [|done]. cbn [create fst snd] in Ho.
    unfold fs_create in Ho. cbn [names inodes] in Ho. rewrite lookup_empty in Ho. cbn [fst snd] in Ho.
    pose proof (next_io_suffix io4) as H5. destruct (next_io io4) as [[|] io5]; [|done].
    cbn [spawn_worker fst snd] in *. injection Ho as <- _. cbn [faults]. split; [|done].
    etrans; [exact H5|]. etrans; [exact H4|]. etrans; [exact H3|]. by etrans. }
  set (ino := fresh _) in Hw. set (name := segment_filename 1) in Hw. set (fs := mkFs _ _) in Hw.
  assert (segment_paths fs = [(1, name)]) as Hsp.
  { unfold segment_paths, list_segments. apply sort_by_key_unique; [|by repeat constructor].
    unfold fs. cbn [names]. rewrite hash_iter_perm, map_to_list_singleton.
    change (match wal_entry (name, ino) with Some x => [x] | None => [] end ≡ₚ [(1, name)]).
    unfold wal_entry, name. cbn [fst]. by rewrite segment_filename_wal, segment_filename_parse. }
  assert (names fs !! name = Some ino) as Hino by apply lookup_insert_eq.
  assert (inode_of ino fs = mkInode [] 0) as Hi by (unfold inode_of, fs; simpl; by rewrite lookup_singleton_eq).
  assert (contents_of fs name = []) as Hc by (unfold contents_of; by rewrite Hino, Hi).
  rewrite Hw. cbn [faults]. split_and!; [|done..]. split; [|by eapply suffix_clean|].
  - split; cbn [disk segment next_seq base_seq path file size].
    + intros n1 n2 j. unfold fs. simpl. rewrite !lookup_singleton_Some. naive_solver.
    + intros n j. unfold fs. simpl. rewrite lookup_singleton_Some. intros [_ <-]. by rewrite lookup_singleton_eq.
    + rewrite Hsp. by repeat constructor.
    + rewrite Hsp. by exists [].
    + done.
    + by rewrite Hi.
    + rewrite Hsp. intros bp ->%list_elem_of_singleton. simpl. by rewrite Hc.
    + unfold wal_log. rewrite Hsp, log_of_one. simpl. by rewrite Hc.
    + constructor.
    + done.
    + done.
  - intros b p j. cbn [disk]. rewrite Hsp. intros [= -> ->]%list_elem_of_singleton. rewrite Hino. intros [= <-].
    unfold stable_contents. rewrite Hino, Hi. done.
Qed.
End fresh.

(** ** Durability and restart *)
Lemma max_seq_app l k : max_seq (l ++ k) = Z.max (max_seq l) (max_seq k).
Proof. unfold max_seq. induction l as [|r l IH]; simpl; [|lia]. induction k; simpl in *; lia. Qed.

Lemma max_seq_seqZ l n : 0 ≤ n → seq <$> l = seqZ (n + 1) (zlen l) → Z.max n (max_seq l) = n + zlen l.
Proof.
  revert n. induction l as [|r l IH]; intros n Hn; [unfold max_seq; simpl; rewrite zlen_nil; lia|].
  rewrite zlen_cons. pose proof (zlen_nonneg l). rewrite fmap_cons, (seqZ_cons (n + 1)) by lia.
  intros [= Hr Hl]. specialize (IH (n + 1)).
  replace (Z.pred (1 + zlen l)) with (zlen l) in Hl by lia. rewrite <- Z.add_1_r in Hl.
  specialize (IH ltac:(lia) Hl). unfold max_seq in *. simpl. lia.
Qed.

Section theorems.
Context `{HO : HashOrder}.

(** A run from an empty directory. *)
Lemma run_spec config io rx w0 fs0 w :
  open None io = (Ok w0, fs0) → Forall clean io → Forall msg_wf rx → zlen rx < 2 ^ 64 - 1 →
  run_group_commit_loop config rx w0 = Ok w →
  ∃ log, progressed config w0 [] rx w log ∧ faults w0 `suffix_of` io ∧ acks w0 = []
    ∧ next_seq w0 = 1 ∧ next_seq w < 2 ^ 64.
Proof.
  intros Ho Hcl Hwf Hlen Hrun. destruct (open_empty io w0 fs0 Ho Hcl) as (Hg & Hn & Hr & Hsuf).
  destruct (group_commit_loop_spec config (S (length rx)) rx w0 [] Hg Hwf) as (w' & new & Hrun' & Hp & Hle);
    [lia|lia|]. unfold run_group_commit_loop in Hrun. rewrite Hrun in Hrun'. injection Hrun' as <-.
  exists new. split_and!; [done|done|unfold acks; by rewrite Hr|done|lia].
Qed.

(** C1: acknowledged appends survive a power failure, as far as the directory
    does.  Start the WAL on an empty directory with [sync_to_disk] and let the
    worker process any sequence of messages (interleaved with empty polls in
    any way).  Any of its writes, syncs and rotations may fail, provided that
    a failing write leaves nothing in the file ([clean]; a partial one loses
    later records, [partial_write_loses_later_ack]).  Then the record of every
    acknowledged append lies, under the number acknowledged, in the synced
    part of a segment file [p] listed in the directory.  Cut the power: of
    each file the synced prefix is left, followed by arbitrary bytes, and
    entries of the directory, which the code never syncs, may be missing.
    Recovery then succeeds, and its log has every acknowledged record whose
    segment file is still listed; if no entry is missing, all of them. *)
Theorem file_wal_acked_durable config io rx w0 fs0 w fs' :
  sync_to_disk config = true → open None io = (Ok w0, fs0) → Forall clean io →
  Forall msg_wf rx → zlen rx < 2 ^ 64 - 1 →
  run_group_commit_loop config rx w0 = Ok w → crash (disk w) fs' →
  ∃ rep fs'', recover (Some fs') [] = (Ok rep, (Some fs'', [])) ∧
    ∀ c s, (c, s) ∈ acks w → ∃ sid off d p,
      Some (Append sid off d c) ∈ rx ∧ kept (disk w) p (mkWal s sid off d)
      ∧ is_Some (names (disk w) !! p)
      ∧ (is_Some (names fs' !! p) → mkWal s sid off d ∈ wal_log fs'').
Proof.
  intros Hsync Ho Hcl Hwf Hlen Hrun Hcrash.
  destruct (run_spec config io rx w0 fs0 w Ho Hcl Hwf Hlen Hrun) as (log & (Hg & _ & _ & _ & _ & _ & fresh & Ha & Hf) & _ & Ha0 & _).
  rewrite Ha0 in Ha. pose proof Hg as [I _ Hst].
  destruct (recover_spec fs' [] (crash_ok _ _ (inv_ok _ _ I) Hcrash)) as (r & fs'' & io' & -> & (Hs & Hio & Hr) & _).
  apply suffix_nil_inv in Hio as ->. destruct r as [rep|e|]; [|by destruct Hr as [[] _]; constructor|done].
  destruct (same_records_log _ _ Hs) as [_ Hl]. eexists _, _. split; [done|]. intros c s. rewrite Ha. intros Hin.
  destruct (Hf c s Hin) as (sid & off & d & ? & _ & Hk). destruct (Hk Hsync) as [p Hp]. exists sid, off, d, p.
  split_and!; [done|done|by eapply kept_named|]. intros Hn. rewrite Hl. by eapply crash_keeps.
Qed.

(** C2: sequence numbers and restart.  Start the WAL on an empty directory and
    let the worker process any messages; its I/O calls may fail, provided that
    a failing write leaves nothing in the file.  The records of the log are
    numbered from 1 on in strictly increasing order, below the worker's next
    number.  Opening the directory again, with no failing call, gives a worker
    with the same files and the same log, whose next number is one more than
    that of the last record.  If none of the calls failed, the records are
    numbered consecutively from 1, and the reopened worker's next number is
    the old one's. *)
Theorem file_wal_restart config io rx w0 fs0 w :
  open None io = (Ok w0, fs0) → Forall clean io → Forall msg_wf rx → zlen rx < 2 ^ 64 - 1 →
  run_group_commit_loop config rx w0 = Ok w →
  let log := wal_log (disk w) in
  StronglySorted (key_lt seq) log ∧ Forall (λ r, 1 ≤ seq r < next_seq w) log
  ∧ (∃ w', open (Some (disk w)) [] = (Ok w', Some (disk w)) ∧ disk w' = disk w
       ∧ next_seq w' = 1 + max_seq log
       ∧ (quiet io → next_seq w' = next_seq w))
  ∧ (quiet io → seq <$> log = seqZ 1 (zlen log)).
Proof.
  intros Ho Hcl Hwf Hlen Hrun.
  destruct (run_spec config io rx w0 fs0 w Ho Hcl Hwf Hlen Hrun) as (new & (Hg & _ & Hle & Hb & Hso & Hq & _) & Hsuf & _ & Hn & Hlt).
  pose proof Hg as [I _ _]. cbv zeta. rewrite (inv_log _ _ I). rewrite Hn in Hb, Hq. simpl.
  assert (quiet io → next_seq w = 1 + zlen new ∧ seq <$> new = seqZ 1 (zlen new)) as Hq'
    by (intros; apply Hq; by eapply suffix_quiet).
  split_and!; [done|done| |apply Hq'].
  destruct (reopen_spec w new [] I ltac:(constructor)) as (io' & _ & Hop).
  assert (0 ≤ max_seq new < next_seq w) as Hm.
  { rewrite Hn in Hle. clear -Hb Hle. induction Hb as [|r l Hr _ IH]; unfold max_seq in *; simpl; lia. }
  eexists. split; [exact Hop|]. cbn [disk next_seq].
  assert (u64 (max_seq new + 1) = 1 + max_seq new) as -> by (rewrite wrap_u_small; unfold in_u; lia).
  split_and!; [done|done|]. intros [E Hs]%Hq'. pose proof (max_seq_seqZ new 0 ltac:(lia) Hs). lia.
Qed.
End theorems.

Lemma crash_refl fs : crash fs fs.
Proof. split; [done|]. intros name ino _. eexists. symmetry. apply take_drop. Qed.

(** C3: reading a stream from disk returns exactly the log's records of that
    stream at or above the start offset, in log order, cut after the record
    that reaches [max_bytes], whenever no I/O call fails.  If one fails, it
    may fail with that I/O error instead; it never panics, never returns
    other records and never changes a file. *)
Theorem file_wal_read_exact `{HashOrder} fs io sid start m : fs_ok fs →
  ∃ r io', read_stream sid start m (fs, io) = (r, (fs, io')) ∧
    match r with
    | Ok records =>
        records = budget 0 m (filter (λ r, stream_id r = sid ∧ offset r ≥ start) (wal_log fs))
    | Err e => ¬ quiet io ∧ ∃ msg, e = EIo msg
    | Panic => False
    end.
Proof.
  intros Hok.
  assert (reads fs io (budget 0 m (filter (matches sid start) (wal_log fs))) (read_stream sid start m (fs, io))) as [Hr Hf].
  { eapply io_reads_bind; [by apply (io_reads_os _ (names fs))|]. intros io'. apply (read_segments_spec _ _ _ _ _ _ []).
    intros bp Hin. by apply (segment_paths_ok fs Hok). }
  destruct (read_stream sid start m (fs, io)) as [r [fs' io']]. cbn in Hf. subst fs'. exists r, io'. split; [done|].
  destruct Hr as (_ & _ & Hr). destruct r; [by destruct Hr as [-> _]|done..].
Qed.

(** ** The [WalEngine] instance

    A single client calling the WAL: each call sends one message and waits
    for the reply on a fresh channel. *)
Module FileEngine.
Section engine.
Context `{HO : HashOrder} (config : WalConfig).

Definition call (m : nat → WalMessage) (w : Worker) : option Reply * Worker :=
  let c := length (replies w) in
  match run_group_commit_loop config [Some (m c)] w with
  | Ok w' => (snd <$> (replies w' !! c), w')
  | _ => (None, w)
  end.

Definition dropped : OxideMqError := EStorage "WAL worker dropped response channel".

Definition append (sid off : Z) (data : bytes) (w : Worker) : result Z * Worker :=
  match call (Append sid off data) w with
  | (Some (RSeq r), w) => (r, w)
  | (_, w) => (Err dropped, w)
  end.

Definition flush (w : Worker) : result unit * Worker :=
  match call Flush w with
  | (Some (RUnit r), w) => (r, w)
  | (_, w) => (Err dropped, w)
  end.

Definition trim (sid up : Z) (w : Worker) : result unit * Worker :=
  match call (Trim sid up) w with
  | (Some (RUnit r), w) => (r, w)
  | (_, w) => (Err dropped, w)
  end.

Definition FileWal_engine : WalEngine Worker := {|
  wal_append := append; wal_flush := flush; wal_trim := trim |}.

Lemma call_append sid off d w log : good w log →
  in_u 64 sid → in_s 64 off → in_u 32 (zlen d) → next_seq w + 1 < 2 ^ 64 →
  ∃ r w' new, append sid off d w = (r, w') ∧ good w' (log ++ new) ∧ next_seq w' = next_seq w + 1
    ∧ match r with Ok k => k = next_seq w ∧ new = [mkWal k sid off d] | Err _ => True | Panic => False end.
Proof.
  intros Hg Hsid Hoff Hd Hn. set (c := length (replies w)).
  destruct (commit_spec config [(sid, off, d, c)] w log Hg) as (w' & new & Hc & Hg' & _ & Hn' & _ & Hr);
    [done|by apply Forall_singleton|by lens|].
  assert (∃ r, replies w' = replies w ++ [(c, RSeq r)] ∧
    match r with Ok k => k = next_seq w ∧ new = [mkWal k sid off d] | Err _ => True | Panic => False end) as (r & Hr' & Hres).
  { destruct Hr as [(Hr & -> & _)|(e & Hr & _)]; [exists (Ok (next_seq w))|by exists (Err e)]. by split. }
  exists r, w', new. split_and!; [|done..]. unfold append, call. fold c.
  unfold run_group_commit_loop. cbn [length group_commit_loop].
  assert (drain (max_batch_records config) [] [(sid, off, d, c)] w = ([(sid, off, d, c)], [], w, false))
    as -> by (simpl; by case_decide).
  cbv beta iota zeta.
  case_bool_decide; [cbn [drain_window]; case_decide|]; cbv beta iota zeta; rewrite Hc;
    cbn [mbind res_bind]; rewrite Hr', lookup_app_r, Nat.sub_diag by (unfold c; lia); done.
Qed.

Lemma call_simple m r w w' : group_commit_loop 2 config [Some (m (length (replies w)))] w = Ok w' →
  replies w' = replies w ++ [(length (replies w), r)] → call m w = (Some r, w').
Proof.
  intros Hrun Hr. unfold call, run_group_commit_loop. cbn [length]. rewrite Hrun, Hr.
  by rewrite lookup_app_r, Nat.sub_diag by lia.
Qed.

Lemma flush_good w log : good w log →
  good (flush w).2 log ∧ next_seq (flush w).2 = next_seq w.
Proof.
  intros Hg. unfold flush.
  destruct (good_flush w log (length (replies w)) Hg) as (Hg' & _ & Hn & _).
  destruct (good_sync w log Hg) as (r & ws & Hs & _ & _ & _ & _ & Hr).
  assert (call Flush w = (Some (RUnit r), flush_reply (length (replies w)) w)) as ->; [|done].
  eapply call_simple; [done|]. unfold flush_reply. rewrite Hs. simpl. by rewrite Hr.
Qed.

Lemma trim_good sid up w log : good w log →
  good (trim sid up w).2 log ∧ next_seq (trim sid up w).2 = next_seq w.
Proof.
  intros Hg. unfold trim.
  assert (call (Trim sid up) w = (Some (RUnit (Ok ())), send (length (replies w)) (RUnit (Ok ())) w)) as ->
    by (by eapply call_simple).
  split; [by apply good_send|done].
Qed.

(** The file-backed WAL meets the contract of the trait, whichever calls fail
    as long as a failing write leaves nothing in the file.  Its [trim] keeps
    every record. *)
Definition FileWal_laws : @WalEngineLaws Worker FileWal_engine.
Proof.
  refine (@Build_WalEngineLaws Worker FileWal_engine
    (λ w, good w (wal_log (disk w)) ∧ next_seq w + 1 < 2 ^ 64)
    (λ w, wal_log (disk w)) _ _ _ _ _ _); cbn [wal_append wal_flush wal_trim FileWal_engine].
  - intros sid off d w r w' Hs Ho Hd [Hg Hn] Ha Hr.
    destruct (call_append sid off d w _ Hg Hs Ho Hd Hn) as (r1 & w1 & new & Ha' & Hg' & Hn' & Hres).
    rewrite Ha in Ha'. injection Ha' as <- <-. destruct Hres as [-> ->].
    rewrite (inv_log _ _ (good_inv _ _ Hg')). split; [|done]. split; [done|lia].
  - intros sid off d w r w' Hs Ho Hd [Hg Hn] Ha.
    destruct (call_append sid off d w _ Hg Hs Ho Hd Hn) as (r1 & w1 & new & Ha' & _ & _ & Hres).
    rewrite Ha in Ha'. injection Ha' as <- _. destruct Hres as [-> _]. apply (inv_seqs _ _ (good_inv _ _ Hg)).
  - intros w [Hg Hn]. destruct (flush_good w _ Hg) as [Hg' Hn'].
    rewrite (inv_log _ _ (good_inv _ _ Hg')). split; [|done]. split; [done|lia].
  - intros sid off w [Hg Hn]. destruct (trim_good sid off w _ Hg) as [Hg' Hn'].
    rewrite (inv_log _ _ (good_inv _ _ Hg')). split; [done|lia].
  - intros sid off w [Hg Hn]. destruct (trim_good sid off w _ Hg) as [Hg' Hn'].
    by rewrite (inv_log _ _ (good_inv _ _ Hg')).
  - intros sid off w rec [Hg Hn] Hin _. destruct (trim_good sid off w _ Hg) as [Hg' Hn'].
    by rewrite (inv_log _ _ (good_inv _ _ Hg')).
Defined.
End engine.
End FileEngine.

(** ** Witnesses *)
Definition demo_config : WalConfig := mkConfig "./data/wal" (64 * 1024 * 1024) 500 4096 true false.
Definition demo_rx : list (option WalMessage) :=
  [Some (Append 1 0 [x61] 7); Some (Flush 8); Some (Append 2 5 [x62] 9); None; None].

Definition no_worker : Worker := mkWorker (mkSegment 0 "" 0 0) 0 (mkFs ∅ ∅) [] [].
Definition worker_of (r : result Worker) : Worker := match r with Ok w => w | _ => no_worker end.
Definition demo_w0 : Worker := worker_of (open None []).1.
Definition demo_w : Worker := worker_of (run_group_commit_loop demo_config demo_rx demo_w0).

(** The sync of the first batch fails. *)
Definition demo_io : list IoOutcome := repeat IoOk 6 ++ [IoErr 0 "Input/output error"].
Definition shaky_w0 : Worker := worker_of (open None demo_io).1.
Definition shaky_w : Worker := worker_of (run_group_commit_loop demo_config
  [Some (Append 1 0 [x61] 7); None; None; Some (Append 2 5 [x62] 9); None; None] shaky_w0).

Lemma demo_rx_wf : Forall msg_wf demo_rx.
Proof. apply (bool_decide_unpack _). vm_compute. exact I. Qed.

Lemma demo_open : open None [] = (Ok demo_w0, Some (disk demo_w0)).
Proof. vm_compute. reflexivity. Qed.

Lemma demo_run : run_group_commit_loop demo_config demo_rx demo_w0 = Ok demo_w.
Proof. vm_compute. reflexivity. Qed.

Lemma file_wal_acked_durable_witness :
  acks shaky_w = [(9%nat, 2)] ∧
  ∃ rep fs'', recover (Some (disk shaky_w)) [] = (Ok rep, (Some fs'', [])) ∧
    ∃ sid off d, mkWal 2 sid off d ∈ wal_log fs''.
Proof.
  split; [vm_compute; reflexivity|].
  destruct (file_wal_acked_durable demo_config demo_io
    [Some (Append 1 0 [x61] 7); None; None; Some (Append 2 5 [x62] 9); None; None] shaky_w0
    (Some (disk shaky_w0)) shaky_w (disk shaky_w)) as (rep & fs'' & Hr & Ha).
  - reflexivity.
  - vm_compute. reflexivity.
  - apply (bool_decide_unpack _). vm_compute. exact I.
  - apply (bool_decide_unpack _). vm_compute. exact I.
  - vm_compute. reflexivity.
  - vm_compute. reflexivity.
  - apply crash_refl.
  - exists rep, fs''. split; [exact Hr|]. destruct (Ha 9%nat 2) as (sid & off & d & p & _ & _ & Hn & Hin).
    + apply (bool_decide_unpack _). vm_compute. exact I.
    + exists sid, off, d. exact (Hin Hn).
Defined.

Lemma file_wal_restart_witness : seq <$> wal_log (disk demo_w) = [1; 2].
Proof.
  pose proof (file_wal_restart demo_config [] demo_rx demo_w0 (Some (disk demo_w0)) demo_w demo_open
    (Forall_nil_2 _) demo_rx_wf ltac:(vm_compute; reflexivity) demo_run) as (_ & _ & _ & H).
  refine (eq_trans (H (Forall_nil_2 _)) _). vm_compute. reflexivity.
Defined.

Lemma file_wal_read_exact_witness :
  ∃ io', read_stream 10 0 1024 (demo_fs, []) = (Ok [demo_r1], (demo_fs, io')).
Proof.
  destruct (file_wal_read_exact demo_fs [] 10 0 1024 demo_fs_ok) as (r & io' & H & Hr). exists io'.
  destruct r as [l|e|]; [|destruct Hr as [Hq _]; destruct Hq; constructor|destruct Hr].
  refine (eq_trans H _). f_equal. f_equal. refine (eq_trans Hr _). vm_compute. reflexivity.
Defined.

(** ** Where acknowledged data is lost *)

(** After a write that fails part-way (a full disk), the worker keeps
    appending behind the partial frame: the next append succeeds and is
    acknowledged, but recovery stops at the partial frame and drops it. *)
Theorem partial_write_loses_later_ack :
  let w0 := mkWorker (segment demo_w0) (next_seq demo_w0) (disk demo_w0)
              [IoErr 10 "No space left on device"] [] in
  let w := worker_of (run_group_commit_loop demo_config
             [Some (Append 1 0 [x61] 0); None; None; Some (Append 1 1 [x62] 1); None; None] w0) in
  (1%nat, 2) ∈ acks w ∧ wal_log (disk w) = [].
Proof.
  split; [apply (bool_decide_unpack _); vm_compute; exact I|]. vm_compute. reflexivity.
Qed.

(** A directory whose last segment is ahead of the recovered numbering:
    segment 1 lost its tail, segment 3 had just been created. *)
Definition gap_fs : Fs :=
  mkFs {[ segment_filename 1 := 0%nat; segment_filename 3 := 1%nat ]}
       {[ 0%nat := mkInode (frames [demo_r1] ++ take 20 (frame demo_r2)) 37; 1%nat := mkInode [] 0 ]}.

(** Rolling to a new segment truncates a file of the same name.  When the
    numbering restarted below the active segment's base and reaches it at a
    rotation, the "new" segment is the active one: the record just written,
    synced and acknowledged is gone. *)
Theorem rotation_truncates_active_segment :
  let config := mkConfig "./data/wal" 1 0 4096 true false in
  let w0 := worker_of (open (Some gap_fs) []).1 in
  let w := worker_of (run_group_commit_loop config [Some (Append 1 1 [x62] 0)] w0) in
  next_seq w0 = 2 ∧ base_seq (segment w0) = 3 ∧
  (0%nat, 2) ∈ acks w ∧ wal_log (disk w) = [demo_r1].
Proof.
  split_and!; [vm_compute; reflexivity..|apply (bool_decide_unpack _); vm_compute; exact I|].
  vm_compute. reflexivity.
Qed.

(** A segment file that has just been created is lost with its entry: no code
    syncs the directory.  Both appends were synced and acknowledged, the power
    fails before the file system has written the directory, and the recovered
    log is empty. *)
Theorem unsynced_directory_loses_acks :
  let fs' := mkFs ∅ (inodes (disk demo_w)) in
  acks demo_w = [(7%nat, 1); (9%nat, 2)] ∧ crash (disk demo_w) fs' ∧
  ∃ rep, recover (Some fs') [] = (Ok rep, (Some fs', [])) ∧ wal_log fs' = [].
Proof.
  cbv zeta. split_and!; [vm_compute; reflexivity| |].
  - split; [apply map_empty_subseteq|]. intros name ino. cbn [names]. by rewrite lookup_empty.
  - eexists. split; vm_compute; reflexivity.
Qed.

(** [purge_segments_before(min_seq)] goes by the segments' base numbers: it
    also removes records at or above [min_seq] that live in a segment whose
    base is below it, and it removes the file the worker is appending to. *)
Theorem purge_drops_later_records :
  let fs := disk demo_w in
  Exists (λ r, seq r ≥ 2) (wal_log fs) ∧
  wal_log (purge_segments_before 2 (fs, [])).2.1 = [] ∧
  names (purge_segments_before 2 (fs, [])).2.1 !! path (segment demo_w) = None.
Proof.
  split_and!; [apply (bool_decide_unpack _); vm_compute; exact I|vm_compute; reflexivity..].
Qed.
