(* ===== verification/S3Format.v ===== *)
(** * S3 objects

    [crates/oxidemq-s3stream/src/format.rs]: packing data blocks of several
    streams into one immutable object with a footer index. *)

From Stdlib Require Import Strings.Byte.
From stdpp Require Import base numbers list strings.
From S2P Require Import Prelude Bytes Crc CoreTypes WalFrame.

Definition S3_OBJECT_MAGIC : Z := 0x53335354.
Definition S3_OBJECT_VERSION : Z := 1.
Definition BLOCK_HEADER_SIZE : Z := 36.

Record S3DataBlock := mkBlock {
  b_stream_id : Z;
  b_start_offset : Z;
  b_end_offset : Z;
  b_record_count : Z;
  b_data : bytes }.

#[export] Instance S3DataBlock_eq_dec : EqDecision S3DataBlock.
Proof. solve_decision. Defined.

Definition size_in_bytes (b : S3DataBlock) : Z := BLOCK_HEADER_SIZE + zlen (b_data b).

Record S3BlockIndex := mkIndex {
  x_stream_id : Z;
  x_start_offset : Z;
  x_end_offset : Z;
  x_record_count : Z;
  x_byte_offset : Z;
  x_byte_length : Z }.

(** The body of the [for block in blocks] loop. *)
Definition encode_block (st : bytes * list S3BlockIndex) (block : S3DataBlock)
    : bytes * list S3BlockIndex :=
  let '(buf, index_entries) := st in
  let block_start := zlen buf in
  let crc := compute_crc32c (b_data block) in
  let buf := buf ++ put_64 (b_stream_id block) in
  let buf := buf ++ put_64 (b_start_offset block) in
  let buf := buf ++ put_64 (b_end_offset block) in
  let buf := buf ++ put_32 (b_record_count block) in
  let buf := buf ++ put_32 (u32 (zlen (b_data block))) in
  let buf := buf ++ put_32 crc in
  let buf := buf ++ b_data block in
  let block_len := zlen buf - block_start in
  (buf, index_entries ++ [mkIndex (b_stream_id block) (b_start_offset block)
          (b_end_offset block) (b_record_count block) block_start block_len]).

(** The body of the [for entry in index_entries] loop. *)
Definition encode_entry (buf : bytes) (e : S3BlockIndex) : bytes :=
  buf ++ put_64 (x_stream_id e) ++ put_64 (x_start_offset e) ++ put_64 (x_end_offset e)
      ++ put_32 (x_record_count e) ++ put_64 (x_byte_offset e) ++ put_64 (x_byte_length e).

(** [S3ObjectCodec::encode] *)
Definition encode_object (blocks : list S3DataBlock) : bytes :=
  let buf := put_32 S3_OBJECT_MAGIC in
  let buf := buf ++ put_16 S3_OBJECT_VERSION in
  let buf := buf ++ put_16 (u16 (zlen blocks)) in
  let '(buf, index_entries) := foldl encode_block (buf, []) blocks in
  let index_offset := zlen buf in
  let buf := buf ++ put_16 (u16 (zlen index_entries)) in
  let buf := foldl encode_entry buf index_entries in
  let buf := buf ++ put_64 index_offset in
  buf ++ put_32 S3_OBJECT_MAGIC.

(** The body of the [for _ in 0..block_count] loop of [decode_all]. *)
Definition decode_block : reader OxideMqError S3DataBlock :=
  len ← remaining;
  if decide (len < BLOCK_HEADER_SIZE)
  then fail (EStorage "Truncated block header in S3 object") else
  stream_id ← get_u64;
  start_offset ← get_i64;
  end_offset ← get_i64;
  record_count ← get_u32;
  data_len ← get_u32;
  expected_crc ← get_u32;
  len ← remaining;
  if decide (len < data_len)
  then fail (EStorage "Truncated block data in S3 object") else
  block_bytes ← take_bytes data_len;
  let actual_crc := compute_crc32c block_bytes in
  if decide (actual_crc ≠ expected_crc)
  then fail (ECorruptedRecord expected_crc actual_crc)
  else mret (mkBlock stream_id start_offset end_offset record_count block_bytes).

Definition decode_object : reader OxideMqError (list S3DataBlock) :=
  magic ← get_u32;
  if decide (magic ≠ S3_OBJECT_MAGIC)
  then fail (EStorage ("Invalid S3 object magic: 0x" +:+ hex0 8 magic)) else
  version ← get_u16;
  if decide (version ≠ S3_OBJECT_VERSION)
  then fail (EStorage ("Unsupported S3 object version: " +:+ dec version)) else
  block_count ← get_u16;
  read_n (Z.to_nat block_count) decode_block.

(** [S3ObjectCodec::decode_all] *)
Definition decode_all (data : bytes) : result (list S3DataBlock) :=
  if decide (zlen data < 8) then Err (EStorage "S3 object too small") else
  '(blocks, _) ← decode_object data; Ok blocks.

Definition read_entry : reader OxideMqError S3BlockIndex :=
  stream_id ← get_u64;
  start_offset ← get_i64;
  end_offset ← get_i64;
  record_count ← get_u32;
  byte_offset ← get_u64;
  byte_length ← get_u64;
  mret (mkIndex stream_id start_offset end_offset record_count byte_offset byte_length).

(** [S3ObjectCodec::read_footer_index] *)
Definition read_footer_index (data : bytes) : result (list S3BlockIndex) :=
  if decide (zlen data < 12) then Err (EStorage "Object too small for footer index") else
  let footer_magic_offset := zlen data - 4 in
  let index_offset_pos := zlen data - 12 in
  magic_cursor ← slice data footer_magic_offset (zlen data);
  '(magic, _) ← get_u32 magic_cursor;
  if decide (magic ≠ S3_OBJECT_MAGIC)
  then Err (EStorage "Invalid footer magic in S3 object") else
  offset_cursor ← slice data index_offset_pos footer_magic_offset;
  '(index_offset, _) ← get_u64 offset_cursor;
  if decide (index_offset ≥ zlen data) then Err (EStorage "Invalid footer index offset") else
  index_cursor ← slice data index_offset index_offset_pos;
  '(count, index_cursor) ← get_u16 index_cursor;
  '(entries, _) ← read_n (Z.to_nat count) read_entry index_cursor;
  Ok entries.

(** ** The object as a closed expression *)
Definition block_wf (b : S3DataBlock) : Prop :=
  in_u 64 (b_stream_id b) ∧ in_s 64 (b_start_offset b) ∧ in_s 64 (b_end_offset b)
  ∧ in_u 32 (b_record_count b) ∧ in_u 32 (zlen (b_data b)).

#[export] Instance block_wf_dec b : Decision (block_wf b).
Proof. unfold block_wf. apply _. Defined.

Definition block_bytes (b : S3DataBlock) : bytes :=
  put_64 (b_stream_id b) ++ put_64 (b_start_offset b) ++ put_64 (b_end_offset b)
    ++ put_32 (b_record_count b) ++ put_32 (zlen (b_data b))
    ++ put_32 (compute_crc32c (b_data b)) ++ b_data b.

Lemma zlen_block_bytes b : zlen (block_bytes b) = size_in_bytes b.
Proof. unfold block_bytes, size_in_bytes, BLOCK_HEADER_SIZE. lens. lia. Qed.
#[export] Hint Rewrite zlen_block_bytes : len.

(** The index entries of blocks laid out from byte [pos] on. *)
Fixpoint index_of (pos : Z) (blocks : list S3DataBlock) : list S3BlockIndex :=
  match blocks with
  | [] => []
  | b :: bs =>
      mkIndex (b_stream_id b) (b_start_offset b) (b_end_offset b) (b_record_count b)
              pos (size_in_bytes b) :: index_of (pos + size_in_bytes b) bs
  end.

Definition entry_bytes (e : S3BlockIndex) : bytes :=
  put_64 (x_stream_id e) ++ put_64 (x_start_offset e) ++ put_64 (x_end_offset e)
    ++ put_32 (x_record_count e) ++ put_64 (x_byte_offset e) ++ put_64 (x_byte_length e).

Definition prologue (blocks : list S3DataBlock) : bytes :=
  put_32 S3_OBJECT_MAGIC ++ put_16 S3_OBJECT_VERSION ++ put_16 (u16 (zlen blocks)).

Definition blocks_bytes (blocks : list S3DataBlock) : bytes := concat (block_bytes <$> blocks).

Definition epilogue (blocks : list S3DataBlock) : bytes :=
  put_16 (u16 (zlen blocks)) ++ concat (entry_bytes <$> index_of 8 blocks)
    ++ put_64 (8 + zlen (blocks_bytes blocks)) ++ put_32 S3_OBJECT_MAGIC.

Lemma encode_blocks_eq blocks buf idx : Forall block_wf blocks →
  foldl encode_block (buf, idx) blocks =
    (buf ++ blocks_bytes blocks, idx ++ index_of (zlen buf) blocks).
Proof.
  intros Hwf. revert buf idx. induction Hwf as [|b bs (_&_&_&_&Hd) Hwf IH]; intros buf idx.
  { simpl. by rewrite !app_nil_r. }
  cbn [foldl]. unfold encode_block at 2. rewrite wrap_u_small by done.
  rewrite <- !app_assoc.
  change (put_64 (b_stream_id b) ++ _) with (block_bytes b).
  rewrite IH. unfold blocks_bytes. rewrite fmap_cons. cbn [concat index_of].
  rewrite <- !app_assoc, zlen_app, zlen_block_bytes. cbn [app].
  do 4 f_equal. lia.
Qed.

Lemma encode_entries_eq es buf : foldl encode_entry buf es = buf ++ concat (entry_bytes <$> es).
Proof.
  revert buf. induction es as [|e es IH]; intros buf; [by rewrite app_nil_r|].
  cbn [foldl]. rewrite IH, fmap_cons. cbn [concat]. unfold encode_entry.
  fold (entry_bytes e). by rewrite app_assoc.
Qed.

Lemma length_index_of pos bs : length (index_of pos bs) = length bs.
Proof. revert pos. induction bs; intros; simpl; [done|]. by rewrite IHbs. Qed.

Lemma encode_object_eq blocks : Forall block_wf blocks →
  encode_object blocks = prologue blocks ++ blocks_bytes blocks ++ epilogue blocks.
Proof.
  intros Hwf. unfold encode_object. rewrite encode_blocks_eq by done. cbn [app].
  rewrite encode_entries_eq. unfold prologue, epilogue.
  assert (zlen (index_of (zlen ((put_32 S3_OBJECT_MAGIC ++ put_16 S3_OBJECT_VERSION)
            ++ put_16 (u16 (zlen blocks)))) blocks) = zlen blocks) as ->
    by (unfold zlen; by rewrite length_index_of).
  rewrite <- !app_assoc. lens. change (Z.of_nat 4 + (Z.of_nat 2 + Z.of_nat 2)) with 8.
  replace (Z.of_nat 4 + (Z.of_nat 2 + (Z.of_nat 2 + zlen (blocks_bytes blocks))))
    with (8 + zlen (blocks_bytes blocks)) by lia. done.
Qed.

(** ** Decoding *)
Ltac read_field :=
  first
    [ erewrite reader_bind_ok by (eapply get_u_app; [reflexivity|done])
    | erewrite reader_bind_ok by (eapply get_s_app; [reflexivity|lia|done])
    | erewrite reader_bind_ok by (by apply take_bytes_app)
    | erewrite reader_bind_ok by reflexivity ].

Lemma decode_block_ok b k : block_wf b → decode_block (block_bytes b ++ k) = Ok (b, k).
Proof.
  intros (?&?&?&?&Hd). unfold decode_block. read_field.
  pose proof (zlen_nonneg k). pose proof (zlen_nonneg (b_data b)).
  rewrite decide_False by (lens; unfold size_in_bytes, BLOCK_HEADER_SIZE; lia).
  unfold block_bytes. rewrite <- !app_assoc. do 5 read_field.
  erewrite reader_bind_ok by (eapply get_u_app; [reflexivity|apply compute_crc32c_range]).
  read_field. rewrite decide_False by (lens; lia). read_field.
  rewrite decide_False by auto. by destruct b.
Qed.

Definition entry_wf (e : S3BlockIndex) : Prop :=
  in_u 64 (x_stream_id e) ∧ in_s 64 (x_start_offset e) ∧ in_s 64 (x_end_offset e)
  ∧ in_u 32 (x_record_count e) ∧ in_u 64 (x_byte_offset e) ∧ in_u 64 (x_byte_length e).

Lemma read_entry_ok e k : entry_wf e → read_entry (entry_bytes e ++ k) = Ok (e, k).
Proof.
  intros (?&?&?&?&?&?). unfold read_entry, entry_bytes. rewrite <- !app_assoc.
  do 6 read_field. by destruct e.
Qed.

Lemma read_n_blocks bs k : Forall block_wf bs →
  read_n (length bs) decode_block (blocks_bytes bs ++ k) = Ok (bs, k).
Proof.
  intros Hwf. rewrite Forall_forall in Hwf. apply read_n_concat.
  intros. apply decode_block_ok. auto.
Qed.

Lemma decode_all_ok bs k : Forall block_wf bs → zlen bs < 2 ^ 16 →
  decode_all (prologue bs ++ blocks_bytes bs ++ k) = Ok bs.
Proof.
  intros Hwf Hn. pose proof (zlen_nonneg bs). unfold decode_all.
  pose proof (zlen_nonneg (blocks_bytes bs ++ k)).
  rewrite decide_False by (unfold prologue; lens; lia).
  unfold decode_object, prologue. rewrite <- !app_assoc. read_field.
  rewrite decide_False by auto. read_field. rewrite decide_False by auto.
  rewrite wrap_u_small by (unfold in_u; lia).
  erewrite reader_bind_ok by (eapply get_u_app; [reflexivity|unfold in_u; lia]).
  unfold zlen at 1. rewrite Nat2Z.id, read_n_blocks by done. done.
Qed.

Lemma index_of_wf pos bs : Forall block_wf bs → 0 ≤ pos →
  pos + zlen (blocks_bytes bs) < 2 ^ 64 → Forall entry_wf (index_of pos bs).
Proof.
  intros Hwf. revert pos. induction Hwf as [|b bs Hb Hwf IH]; intros pos Hp Hl; [constructor|].
  unfold blocks_bytes in *. rewrite fmap_cons in Hl. cbn [concat] in Hl.
  rewrite zlen_app, zlen_block_bytes in Hl.
  pose proof (zlen_nonneg (concat (block_bytes <$> bs))). pose proof (zlen_nonneg (b_data b)).
  assert (0 ≤ size_in_bytes b) by (unfold size_in_bytes, BLOCK_HEADER_SIZE; lia).
  destruct Hb as (?&?&?&?&?). cbn [index_of]. constructor; [|apply IH; lia].
  unfold entry_wf. cbn. split_and!; try done; unfold in_u; lia.
Qed.

Lemma read_footer_ok bs : Forall block_wf bs → zlen bs < 2 ^ 16 →
  8 + zlen (blocks_bytes bs) < 2 ^ 64 →
  read_footer_index (encode_object bs) = Ok (index_of 8 bs).
Proof.
  intros Hwf Hn Hz. rewrite encode_object_eq by done. pose proof (zlen_nonneg bs).
  unfold epilogue. set (es := concat (entry_bytes <$> index_of 8 bs)).
  set (off := put_64 _). set (cnt := put_16 _). set (pre := prologue bs ++ blocks_bytes bs).
  assert (zlen pre = 8 + zlen (blocks_bytes bs)) as Hpre by (unfold pre, prologue; lens; lia).
  rewrite (app_assoc (prologue bs)). fold pre.
  pose proof (zlen_nonneg pre). pose proof (zlen_nonneg es).
  assert (zlen cnt = 2 ∧ zlen off = 8) as [Hc Ho] by (unfold cnt, off; by lens).
  set (data := pre ++ cnt ++ es ++ off ++ put_32 S3_OBJECT_MAGIC).
  assert (zlen data = zlen pre + 2 + zlen es + 12) as Hd
    by (unfold data; lens; rewrite Hc, Ho; lia).
  unfold read_footer_index. rewrite decide_False by lia.
  assert (data = (pre ++ cnt ++ es ++ off) ++ put_32 S3_OBJECT_MAGIC) as E1
    by (unfold data; by rewrite <- !app_assoc).
  rewrite E1 at 1. rewrite slice_app_end by (rewrite ?E1; lens; rewrite ?Hc, ?Ho; lia).
  cbn [mbind res_bind]. rewrite <- (app_nil_r (put_32 S3_OBJECT_MAGIC)).
  rewrite (get_u_app 4 _ _ 32) by done. cbn [mbind res_bind]. rewrite decide_False by auto.
  assert (data = (pre ++ cnt ++ es) ++ off ++ put_32 S3_OBJECT_MAGIC) as E2
    by (unfold data; by rewrite <- !app_assoc).
  rewrite E2 at 1. rewrite slice_app by (lens; rewrite ?Hc, ?Ho; lia).
  cbn [mbind res_bind]. unfold off at 1. rewrite <- (app_nil_r (put_64 _)).
  rewrite (get_u_app 8 _ _ 64) by (done || unfold in_u; pose proof (zlen_nonneg (blocks_bytes bs)); lia).
  cbn [mbind res_bind]. rewrite decide_False by lia.
  assert (data = pre ++ (cnt ++ es) ++ off ++ put_32 S3_OBJECT_MAGIC) as E3
    by (unfold data; by rewrite <- !app_assoc).
  rewrite E3 at 1. rewrite slice_app by (lens; rewrite ?Hc, ?Ho; lia).
  cbn [mbind res_bind]. unfold cnt. rewrite wrap_u_small by (unfold in_u; lia).
  rewrite (get_u_app 2 _ _ 16) by (done || unfold in_u; lia). cbn [mbind res_bind].
  assert (Z.to_nat (zlen bs) = length (index_of 8 bs)) as ->
    by (rewrite length_index_of; unfold zlen; lia).
  rewrite <- (app_nil_r es). unfold es. rewrite (read_n_concat _ entry_bytes); [done|].
  intros e k He. apply read_entry_ok. pose proof (index_of_wf 8 bs Hwf ltac:(lia) Hz) as Hi.
  rewrite Forall_forall in Hi. auto.
Qed.

(** The index points at the blocks. *)
Lemma index_slices {E} bs pre post i b e : bs !! i = Some b → index_of (zlen pre) bs !! i = Some e →
  slice (E:=E) (pre ++ blocks_bytes bs ++ post) (x_byte_offset e) (x_byte_offset e + x_byte_length e)
    = Ok (block_bytes b)
  ∧ x_stream_id e = b_stream_id b ∧ x_start_offset e = b_start_offset b
  ∧ x_end_offset e = b_end_offset b ∧ x_record_count e = b_record_count b.
Proof.
  revert pre i. induction bs as [|b0 bs IH]; intros pre i Hb He; [done|].
  unfold blocks_bytes in *. rewrite fmap_cons. cbn [concat index_of] in *.
  destruct i as [|i]; simpl in Hb, He; simplify_eq.
  - cbn [x_byte_offset x_byte_length]. split; [|done]. rewrite <- app_assoc.
    rewrite slice_app; [done|done|]. by rewrite zlen_block_bytes.
  - rewrite <- app_assoc, app_assoc. apply IH with i; [done|].
    by rewrite zlen_app, zlen_block_bytes.
Qed.

(** ** Theorems *)

(** C28: an S3 object decodes to the blocks it was made of, in order, for any
    list of fewer than 65536 well-formed blocks. *)
Theorem s3_object_roundtrip blocks : Forall block_wf blocks → zlen blocks < 2 ^ 16 →
  decode_all (encode_object blocks) = Ok blocks.
Proof. intros. rewrite encode_object_eq by done. by apply decode_all_ok. Qed.

Definition demo_blocks : list S3DataBlock := [mkBlock 1 0 9 10 [x61; x62]; mkBlock 2 0 4 5 [x63]].

Lemma s3_object_roundtrip_witness : decode_all (encode_object demo_blocks) = Ok demo_blocks.
Proof.
  apply s3_object_roundtrip; [apply (bool_decide_unpack _); vm_compute; exact I|vm_compute; reflexivity].
Defined.

(** The footer index of an object has one entry per block, carrying the
    block's stream, offsets and record count, and the byte range of each entry
    is exactly that block's encoding inside the object. *)
Theorem s3_footer_index_correct blocks : Forall block_wf blocks → zlen blocks < 2 ^ 16 →
  zlen (encode_object blocks) < 2 ^ 64 →
  ∃ es, read_footer_index (encode_object blocks) = Ok es ∧ length es = length blocks ∧
    ∀ i b e, blocks !! i = Some b → es !! i = Some e →
      slice (E:=OxideMqError) (encode_object blocks) (x_byte_offset e)
            (x_byte_offset e + x_byte_length e) = Ok (block_bytes b)
      ∧ x_stream_id e = b_stream_id b ∧ x_start_offset e = b_start_offset b
      ∧ x_end_offset e = b_end_offset b ∧ x_record_count e = b_record_count b.
Proof.
  intros Hwf Hn Hz. exists (index_of 8 blocks). split_and!.
  - apply read_footer_ok; [done|done|]. rewrite encode_object_eq in Hz by done.
    unfold prologue, epilogue in Hz. revert Hz. lens. intros Hz.
    pose proof (zlen_nonneg (concat (entry_bytes <$> index_of 8 blocks))). lia.
  - apply length_index_of.
  - intros i b e Hb He. rewrite encode_object_eq by done.
    assert (zlen (prologue blocks) = 8) as H8 by (unfold prologue; by lens).
    rewrite <- H8 in He. by eapply index_slices.
Qed.

Lemma s3_footer_index_correct_witness :
  ∃ es, read_footer_index (encode_object demo_blocks) = Ok es ∧ length es = 2%nat.
Proof.
  destruct (s3_footer_index_correct demo_blocks) as (es & H1 & H2 & _);
    [apply (bool_decide_unpack _); vm_compute; exact I|vm_compute; reflexivity..|].
  exact (ex_intro _ es (conj H1 H2)).
Defined.

(** The block count is a [u16]: an object of 65536 blocks says it has none. *)
Theorem s3_object_count_wraps blocks : Forall block_wf blocks → zlen blocks = 2 ^ 16 →
  decode_all (encode_object blocks) = Ok [].
Proof.
  intros Hwf Hn. rewrite encode_object_eq by done. unfold decode_all.
  pose proof (zlen_nonneg (blocks_bytes blocks ++ epilogue blocks)).
  rewrite decide_False by (unfold prologue; lens; lia).
  unfold decode_object, prologue. rewrite Hn, <- !app_assoc. read_field.
  rewrite decide_False by auto. read_field. rewrite decide_False by auto.
  erewrite reader_bind_ok by (eapply get_u_app; [reflexivity|done]). done.
Qed.

(** The bound checked on the footer's index offset is the object's length, not
    the position of the footer: an offset in between makes the slice panic. *)
Theorem s3_footer_offset_panics :
  read_footer_index (put_64 0 ++ put_64 12 ++ put_32 S3_OBJECT_MAGIC) = Panic.
Proof. vm_compute. reflexivity. Qed.
