(* ===== verification/LogCache.v ===== *)
(** * The log cache

    [crates/oxidemq-s3stream/src/log_cache.rs]: the in-memory cache of recent
    records, with a byte budget and eviction of the smallest offsets. *)

From Stdlib Require Import Strings.Byte.
From stdpp Require Import base numbers list gmap strings sorting fin_maps.
From S2P Require Import Prelude Bytes CoreTypes.

Module LC.

Record LogCache := mkCache {
  max_bytes : Z;
  current_bytes : Z;
  streams : gmap Z (gmap Z bytes);
  hits : Z;
  misses : Z }.

Definition new (max : Z) : LogCache := mkCache max 0 ∅ 0 0.

Section ops.
Context `{HO : HashOrder}.

(** The scan for the stream with the smallest first offset. *)
Definition oldest_step (acc : option Z * Z) (kv : Z * gmap Z bytes) : option Z * Z :=
  match btree_first kv.2 with
  | Some (first_off, _) => if decide (first_off < acc.2) then (Some kv.1, first_off) else acc
  | None => acc
  end.

Definition oldest (ss : gmap Z (gmap Z bytes)) : option Z * Z :=
  foldl oldest_step (None, i64_max) (hash_iter ss).

(** One round of the eviction loop: [None] is the [break]. *)
Definition evict_one (ss : gmap Z (gmap Z bytes)) (cur : Z) : option (gmap Z (gmap Z bytes) * Z) :=
  match (oldest ss).1 with
  | None => None
  | Some s_id =>
      let m := default ∅ (ss !! s_id) in
      match btree_first m with
      | Some (off, evicted) =>
          let cur := u64 (cur - zlen evicted) in
          let m := delete off m in
          Some (if decide (m = ∅) then delete s_id ss else <[s_id := m]> ss, cur)
      | None => Some (if decide (m = ∅) then delete s_id ss else ss, cur)
      end
  end.

(** Every round removes an entry: the number of entries bounds the rounds. *)
Fixpoint evict (fuel : nat) (max data_len : Z) (ss : gmap Z (gmap Z bytes)) (cur : Z)
    : gmap Z (gmap Z bytes) * Z :=
  match fuel with
  | O => (ss, cur)
  | S fuel' =>
      if decide (cur + data_len > max ∧ ss ≠ ∅) then
        match evict_one ss cur with
        | Some (ss, cur) => evict fuel' max data_len ss cur
        | None => (ss, cur)
        end
      else (ss, cur)
  end.

Definition entries (ss : gmap Z (gmap Z bytes)) : Z := msum (λ m, Z.of_nat (size m)) ss.

Definition put (sid off : Z) (data : bytes) (c : LogCache) : LogCache :=
  let data_len := zlen data in
  let '(ss, cur) :=
    evict (S (Z.to_nat (entries (streams c)))) (max_bytes c) data_len (streams c) (current_bytes c) in
  let stream_map := default ∅ (ss !! sid) in
  let cur := match stream_map !! off with Some old => u64 (cur - zlen old) | None => cur end in
  mkCache (max_bytes c) (cur + data_len) (<[sid := <[off := data]> stream_map]> ss)
          (hits c) (misses c).
End ops.

Fixpoint read_loop (expected_offset max total_bytes : Z) (l : list (Z * bytes))
    (result : list (Z * bytes)) : list (Z * bytes) :=
  match l with
  | [] => result
  | (off, payload) :: l' =>
      if decide (off ≠ expected_offset) then result else
      let result := result ++ [(off, payload)] in
      let total_bytes := total_bytes + zlen payload in
      if decide (total_bytes ≥ max) then result
      else read_loop (i64 (expected_offset + 1)) max total_bytes l' result
  end.

Definition miss (c : LogCache) : LogCache :=
  mkCache (max_bytes c) (current_bytes c) (streams c) (hits c) (u64 (misses c + 1)).
Definition hit (c : LogCache) : LogCache :=
  mkCache (max_bytes c) (current_bytes c) (streams c) (u64 (hits c + 1)) (misses c).

Definition read_range (sid start max : Z) (c : LogCache) : option (list (Z * bytes)) * LogCache :=
  match streams c !! sid with
  | None => (None, miss c)
  | Some stream_map =>
      match stream_map !! start with
      | None => (None, miss c)
      | Some _ =>
          let range := filter (λ e, start ≤ e.1) (ordered stream_map) in
          let result := read_loop start max 0 range [] in
          if decide (result = []) then (None, miss c) else (Some result, hit c)
      end
  end.

(** The [while let] loop of [trim] pops first entries below the bound. *)
Fixpoint trim_loop (fuel : nat) (up_to_offset : Z) (m : gmap Z bytes) (cur : Z)
    : gmap Z bytes * Z :=
  match fuel with
  | O => (m, cur)
  | S fuel' =>
      match btree_first m with
      | Some (first_off, evicted) =>
          if decide (first_off < up_to_offset)
          then trim_loop fuel' up_to_offset (delete first_off m) (Z.max 0 (cur - zlen evicted))
          else (m, cur)
      | None => (m, cur)
      end
  end.

Definition trim (sid up_to_offset : Z) (c : LogCache) : LogCache :=
  match streams c !! sid with
  | None => c
  | Some m =>
      let '(m, cur) := trim_loop (S (size m)) up_to_offset m (current_bytes c) in
      mkCache (max_bytes c) cur (<[sid := m]> (streams c)) (hits c) (misses c)
  end.

(** ** Accounting *)
Definition stream_size (m : gmap Z bytes) : Z := msum zlen m.
Definition total (ss : gmap Z (gmap Z bytes)) : Z := msum stream_size ss.

(** The entry of a stream at an offset. *)
Definition entry (ss : gmap Z (gmap Z bytes)) (sid off : Z) : option bytes :=
  m ← ss !! sid; m !! off.

Definition wf (c : LogCache) : Prop := current_bytes c = total (streams c).

(** Bytes in memory are far below the range of [usize]. *)
Definition fits (c : LogCache) : Prop := total (streams c) < 2 ^ 64.

Lemma stream_size_nonneg m : 0 ≤ stream_size m.
Proof. apply msum_nonneg, zlen_nonneg. Qed.
Lemma total_nonneg ss : 0 ≤ total ss.
Proof. apply msum_nonneg, stream_size_nonneg. Qed.
Lemma entries_nonneg ss : 0 ≤ entries ss.
Proof. apply msum_nonneg. intros. lia. Qed.

Section lemmas.
Context `{HO : HashOrder}.
Implicit Types ss : gmap Z (gmap Z bytes).

Lemma oldest_fold l :
  match foldl oldest_step (None, i64_max) l with
  | (Some s, o) => (∃ m d, (s, m) ∈ l ∧ btree_first m = Some (o, d)) ∧
      ∀ s' m' o' d', (s', m') ∈ l → m' !! o' = Some d' → o ≤ o'
  | (None, o) => o = i64_max ∧ ∀ s' m' o' d', (s', m') ∈ l → m' !! o' = Some d' → i64_max ≤ o'
  end.
Proof.
  induction l as [|[s0 m0] l IH] using rev_ind; [set_solver|]. rewrite foldl_app. cbn [foldl].
  destruct (foldl oldest_step (None, i64_max) l) as [acc o]. unfold oldest_step at 1. cbn [fst snd].
  destruct (btree_first m0) as [[o0 d0]|] eqn:H0.
  - apply btree_first_Some in H0 as Hm0. destruct Hm0 as [_ Hm0]. case_decide.
    + split; [exists m0, d0; set_solver|]. intros s' m' o' d' [Hin|Hin]%elem_of_app Hl.
      * destruct acc; [destruct IH as [_ IH]|destruct IH as [-> IH]]; specialize (IH _ _ _ _ Hin Hl); lia.
      * apply list_elem_of_singleton in Hin as [= -> ->]. by apply Hm0 in Hl.
    + destruct acc as [s|].
      * destruct IH as [(m & d & Hin & Hf) IH]. split; [exists m, d; set_solver|].
        intros s' m' o' d' [Hin'|Hin']%elem_of_app Hl; [by eapply IH|].
        apply list_elem_of_singleton in Hin' as [= -> ->]. apply Hm0 in Hl. lia.
      * destruct IH as [-> IH]. split; [done|].
        intros s' m' o' d' [Hin'|Hin']%elem_of_app Hl; [by eapply IH|].
        apply list_elem_of_singleton in Hin' as [= -> ->]. apply Hm0 in Hl. lia.
  - apply btree_first_None in H0 as ->. destruct acc as [s|].
    + destruct IH as [(m & d & Hin & Hf) IH]. split; [exists m, d; set_solver|].
      intros s' m' o' d' [Hin'|Hin']%elem_of_app Hl; [by eapply IH|].
      apply list_elem_of_singleton in Hin' as [= -> ->]. done.
    + destruct IH as [-> IH]. split; [done|].
      intros s' m' o' d' [Hin'|Hin']%elem_of_app Hl; [by eapply IH|].
      apply list_elem_of_singleton in Hin' as [= -> ->]. done.
Qed.

Lemma oldest_spec ss :
  match (oldest ss).1 with
  | Some s => ∃ m o d, ss !! s = Some m ∧ btree_first m = Some (o, d) ∧ entry ss s o = Some d ∧
      ∀ s' o' d', entry ss s' o' = Some d' → o ≤ o'
  | None => ∀ s' o' d', entry ss s' o' = Some d' → i64_max ≤ o'
  end.
Proof.
  unfold oldest. pose proof (oldest_fold (hash_iter ss)) as H.
  assert (∀ s' o' d', entry ss s' o' = Some d' →
    ∃ m', (s', m') ∈ hash_iter ss ∧ m' !! o' = Some d') as He.
  { intros s' o' d' (m' & Hm & Hl)%bind_Some. exists m'. by rewrite elem_of_hash_iter. }
  destruct (foldl _ _ _) as [[s|] o]; simpl.
  - destruct H as [(m & d & Hin & Hf) H]. apply elem_of_hash_iter in Hin.
    exists m, o, d. split_and!; [done|done| |].
    + unfold entry. rewrite Hin. simpl. by apply btree_first_Some in Hf as [? _].
    + intros s' o' d' (m' & ? & ?)%He. by eapply H.
  - destruct H as [_ H]. intros s' o' d' (m' & ? & ?)%He. by eapply H.
Qed.

(** The streams after the entry [(s, o)] is gone. *)
Definition without (ss : gmap Z (gmap Z bytes)) (s o : Z) (m : gmap Z bytes) : gmap Z (gmap Z bytes) :=
  if decide (delete o m = ∅) then delete s ss else <[s := delete o m]> ss.

Lemma without_entry ss s o m : ss !! s = Some m →
  ∀ s' o', entry (without ss s o m) s' o' =
    if decide (s' = s ∧ o' = o) then None else entry ss s' o'.
Proof.
  intros Hm s' o'. unfold without, entry. destruct (decide (s' = s)) as [->|Hs].
  - destruct (decide (delete o m = ∅)) as [He|He].
    + rewrite lookup_delete_eq, Hm. simpl. destruct (decide (o' = o)) as [->|Ho].
      * by rewrite decide_True.
      * rewrite decide_False by naive_solver. rewrite <- (lookup_delete_ne m o o') by done.
        by rewrite He, lookup_empty.
    + rewrite lookup_insert_eq, Hm. simpl. destruct (decide (o' = o)) as [->|Ho].
      * by rewrite lookup_delete_eq, decide_True.
      * by rewrite lookup_delete_ne, decide_False by naive_solver.
  - rewrite (decide_False (P := s' = s ∧ o' = o)) by naive_solver.
    case_decide; [by rewrite lookup_delete_ne|by rewrite lookup_insert_ne].
Qed.

Lemma without_sum (f : gmap Z bytes → Z) ss s o m : ss !! s = Some m → f ∅ = 0 →
  msum f (without ss s o m) = msum f ss - f m + f (delete o m).
Proof.
  intros Hm Hf. unfold without. rewrite (msum_delete f ss s m Hm). case_decide as E.
  - rewrite E, Hf. lia.
  - rewrite msum_insert, Hm, (msum_delete f ss s m Hm). lia.
Qed.

Lemma evict_one_spec ss cur : cur = total ss → total ss < 2 ^ 64 →
  match evict_one ss cur with
  | Some (ss', cur') => ∃ s o d, entry ss s o = Some d
      ∧ (∀ s' o' d', entry ss s' o' = Some d' → o ≤ o')
      ∧ (∀ s' o', entry ss' s' o' = if decide (s' = s ∧ o' = o) then None else entry ss s' o')
      ∧ cur' = total ss' ∧ total ss' ≤ total ss ∧ entries ss' = entries ss - 1
  | None => ∀ s' o' d', entry ss s' o' = Some d' → i64_max ≤ o'
  end.
Proof.
  intros -> Hlt. unfold evict_one. pose proof (oldest_spec ss) as Ho.
  destruct (oldest ss).1 as [s|]; [|done].
  destruct Ho as (m & o & d & Hm & Hf & He & Hmin). rewrite Hm. cbn [default from_option].
  unfold id. rewrite Hf. fold (without ss s o m).
  apply btree_first_Some in Hf as [Hmo _].
  assert (total (without ss s o m) = total ss - zlen d) as Ht.
  { unfold total. rewrite without_sum by done. unfold stream_size at 2.
    rewrite (msum_delete zlen m o d Hmo). unfold stream_size. lia. }
  assert (zlen d ≤ total ss) as Hd.
  { pose proof (total_nonneg (without ss s o m)). lia. }
  exists s, o, d. pose proof (zlen_nonneg d). split_and!; [done|done|by apply without_entry| | |].
  - rewrite wrap_u_small; [lia|]. unfold in_u. pose proof (total_nonneg ss). lia.
  - lia.
  - unfold entries. rewrite without_sum by done. rewrite map_size_delete, Hmo.
    assert (size m ≠ 0%nat) by (apply (map_size_ne_0_lookup_2 m o); by exists d). lia.
Qed.

Lemma no_entries_total ss : (∀ s o, entry ss s o = None) → total ss = 0.
Proof.
  intros He. apply msum_zero. intros s m Hm. apply msum_zero. intros o d Hd.
  specialize (He s o). unfold entry in He. rewrite Hm in He. simpl in He. congruence.
Qed.

(** The streams before and after eviction, for a batch of [len] bytes. *)
Record evicted (max len : Z) (ss ss' : gmap Z (gmap Z bytes)) (cur' : Z) : Prop := {
  ev_cur : cur' = total ss';
  ev_total : total ss' ≤ total ss;
  ev_kept : ∀ s o d, entry ss' s o = Some d → entry ss s o = Some d;
  ev_order : ∀ s o d s' o' d', entry ss s o = Some d → entry ss' s o = None →
    entry ss' s' o' = Some d' → o ≤ o';
  ev_done : total ss' + len ≤ max ∨ ∀ s o d, entry ss' s o = Some d → i64_max ≤ o }.

Lemma evict_spec fuel max len ss cur : cur = total ss → total ss < 2 ^ 64 →
  (Z.to_nat (entries ss) < fuel)%nat →
  evicted max len ss (evict fuel max len ss cur).1 (evict fuel max len ss cur).2.
Proof.
  revert ss cur. induction fuel as [|fuel IH]; intros ss cur Hc Ht Hf; [lia|]. cbn [evict].
  assert ((total ss + len ≤ max ∨ ∀ s o d, entry ss s o = Some d → i64_max ≤ o) →
          evicted max len ss ss cur) as Hstop.
  { intros. split; [done|done|done|congruence|done]. }
  case_decide as Hcond.
  - pose proof (evict_one_spec ss cur Hc Ht) as H1.
    destruct (evict_one ss cur) as [[ss1 cur1]|]; [|apply Hstop; by right].
    destruct H1 as (s & o & d & He & Hmin & Hss1 & Hc1 & Ht1 & He1).
    pose proof (entries_nonneg ss1).
    destruct (IH ss1 cur1 Hc1) as [H2 H3 H4 H5 H6]; [lia|lia|]. split; [done|lia| | |done].
    + intros s' o' d' Hk. apply H4 in Hk. rewrite Hss1 in Hk. by case_decide.
    + intros s1 o1 d1 s2 o2 d2 Hin Hout Hk. destruct (decide (s1 = s ∧ o1 = o)) as [[-> ->]|Hne].
      * apply H4 in Hk. rewrite Hss1 in Hk. case_decide; [done|]. by apply Hmin in Hk.
      * apply (H5 s1 o1 d1 s2 o2 d2); [|done|done]. by rewrite Hss1, decide_False.
  - apply Hstop. apply not_and_l in Hcond as [Hc'|Hc'].
    + left. simpl. lia.
    + right. apply dec_stable in Hc'. subst ss. intros s o d (m & Hm & _)%bind_Some. done.
Qed.

Lemma entry_insert ss s o d s' o' :
  entry (<[s := <[o := d]> (default ∅ (ss !! s))]> ss) s' o' =
    if decide (s' = s ∧ o' = o) then Some d else entry ss s' o'.
Proof.
  unfold entry. destruct (decide (s' = s)) as [->|].
  - rewrite lookup_insert_eq. simpl. destruct (decide (o' = o)) as [->|].
    + by rewrite lookup_insert_eq, decide_True.
    + rewrite lookup_insert_ne, decide_False by naive_solver. by destruct (ss !! s).
  - rewrite lookup_insert_ne by done. by rewrite decide_False by naive_solver.
Qed.

Lemma total_insert ss s o d :
  total (<[s := <[o := d]> (default ∅ (ss !! s))]> ss) =
    total ss + zlen d - match entry ss s o with Some old => zlen old | None => 0 end.
Proof.
  unfold total. rewrite msum_insert. unfold stream_size at 1. rewrite msum_insert.
  unfold entry. destruct (ss !! s) as [m|]; simpl.
  - unfold stream_size. destruct (m !! o); lia.
  - rewrite msum_empty, lookup_empty. lia.
Qed.

Lemma put_spec sid off data c : wf c → fits c → zlen data + total (streams c) < 2 ^ 64 →
  let c' := put sid off data c in
  wf c' ∧ max_bytes c' = max_bytes c
  ∧ entry (streams c') sid off = Some data
  ∧ (∀ s o d, (s, o) ≠ (sid, off) → entry (streams c') s o = Some d → entry (streams c) s o = Some d)
  ∧ (∀ s o d s' o' d', (s, o) ≠ (sid, off) → (s', o') ≠ (sid, off) →
       entry (streams c) s o = Some d → entry (streams c') s o = None →
       entry (streams c') s' o' = Some d' → o ≤ o')
  ∧ (zlen data ≤ max_bytes c →
     (∀ s o d, entry (streams c) s o = Some d → o < i64_max) → current_bytes c' ≤ max_bytes c).
Proof.
  intros Hwf Hfit Hdata c'. unfold wf in Hwf. unfold fits in Hfit.
  destruct (evict_spec (S (Z.to_nat (entries (streams c)))) (max_bytes c) (zlen data) (streams c)
    (current_bytes c) Hwf Hfit) as [H1 H2 H3 H4 H5]; [lia|].
  unfold c', put. destruct (evict _ _ _ _ _) as [ss cur]. cbn [fst snd] in *.
  cbn [streams max_bytes current_bytes].
  assert (match default ∅ (ss !! sid) !! off with Some old => u64 (cur - zlen old) | None => cur end
    = total ss - match entry ss sid off with Some old => zlen old | None => 0 end) as Hcur.
  { unfold entry. destruct (ss !! sid) as [m|] eqn:Hm; simpl; [|rewrite lookup_empty; lia].
    destruct (m !! off) as [old|] eqn:Ho; [|lia]. rewrite H1. apply wrap_u_small.
    pose proof (msum_le zlen m off old zlen_nonneg Ho) as Hle.
    pose proof (msum_le stream_size ss sid m stream_size_nonneg Hm) as Hm'.
    change (stream_size m ≤ total ss) in Hm'. change (zlen old ≤ stream_size m) in Hle.
    pose proof (zlen_nonneg old). unfold in_u. lia. }
  split_and!.
  - unfold wf. cbn [current_bytes streams]. rewrite Hcur, total_insert. lia.
  - done.
  - rewrite entry_insert. by rewrite decide_True.
  - intros s o d Hne. rewrite entry_insert, decide_False by naive_solver. apply H3.
  - intros s o d s' o' d' Hne Hne' Hin. rewrite !entry_insert, !decide_False by naive_solver.
    intros. by eapply H4.
  - intros Hle Hmax. rewrite Hcur. pose proof (total_nonneg ss).
    assert (0 ≤ match entry ss sid off with Some old => zlen old | None => 0 end).
    { destruct (entry ss sid off); [apply zlen_nonneg|done]. }
    destruct H5 as [H5|H5]; [lia|]. rewrite (no_entries_total ss); [lia|].
    intros s o. destruct (entry ss s o) as [d|] eqn:E; [|done]. pose proof (H5 _ _ _ E).
    apply H3, Hmax in E. lia.
Qed.
(** A put that fits evicts nothing. *)
Lemma put_roomy_eq sid off data c : wf c → total (streams c) + zlen data ≤ max_bytes c → max_bytes c < 2 ^ 63 →
  let ss := <[sid := <[off := data]> (default ∅ (streams c !! sid))]> (streams c) in
  put sid off data c = mkCache (max_bytes c) (total ss) ss (hits c) (misses c).
Proof.
  intros Hwf Hroom Hmax ss. pose proof (zlen_nonneg data). pose proof (total_nonneg (streams c)).
  destruct (put_spec sid off data c Hwf) as (Hwf' & _); [unfold fits; lia|lia|].
  revert Hwf'. unfold put. cbn [evict]. rewrite decide_False by (unfold wf in Hwf; lia).
  fold ss. unfold wf. cbn [current_bytes streams]. by intros ->.
Qed.

Lemma put_roomy sid off data c : wf c → total (streams c) + zlen data ≤ max_bytes c → max_bytes c < 2 ^ 63 →
  let c' := put sid off data c in
  wf c' ∧ max_bytes c' = max_bytes c ∧ total (streams c') ≤ total (streams c) + zlen data
  ∧ ∀ s o, entry (streams c') s o = if decide (s = sid ∧ o = off) then Some data else entry (streams c) s o.
Proof.
  intros Hwf Hroom Hmax c'. unfold c'. rewrite put_roomy_eq by done. cbn [max_bytes streams].
  split_and!; [done|done| |intros; apply entry_insert].
  rewrite total_insert. destruct (entry (streams c) sid off) as [old|]; [|lia]. pose proof (zlen_nonneg old). lia.
Qed.
End lemmas.

(** ** Trimming *)
Lemma cache_trim_loop_spec fuel up m cur : (size m < fuel)%nat → stream_size m ≤ cur →
  trim_loop fuel up m cur =
    (filter (λ kv, up ≤ kv.1) m, cur - stream_size m + stream_size (filter (λ kv, up ≤ kv.1) m)).
Proof.
  revert m cur. induction fuel as [|fuel IH]; intros m cur Hf Hc; [lia|]. cbn [trim_loop].
  destruct (btree_first m) as [[o d]|] eqn:Hb.
  - apply btree_first_Some in Hb as [Ho Hmin].
    assert (stream_size m = zlen d + stream_size (delete o m)) as Hs
      by (by apply msum_delete).
    case_decide.
    + pose proof (stream_size_nonneg (delete o m)).
      rewrite Z.max_r by lia. rewrite IH; [|rewrite map_size_delete, Ho|lia].
      * assert (filter (λ kv, up ≤ kv.1) (delete o m) = filter (λ kv, up ≤ kv.1) m) as ->.
        { apply map_eq. intros k. apply option_eq. intros v.
          rewrite !map_lookup_filter_Some, lookup_delete_Some. simpl. naive_solver lia. }
        f_equal. lia.
      * pose proof (map_size_ne_0_lookup_2 m o (ex_intro _ d Ho)). lia.
    + rewrite map_filter_id; [f_equal; lia|]. intros k v Hk. simpl. apply Hmin in Hk. lia.
  - apply btree_first_None in Hb as ->. rewrite map_filter_empty. f_equal. lia.
Qed.

Lemma stream_size_filter (P : Z * bytes → Prop) `{!∀ kv, Decision (P kv)} m :
  stream_size (filter P m) ≤ stream_size m.
Proof.
  induction m as [|k v m Hk IH] using map_ind; [by rewrite map_filter_empty|].
  pose proof (zlen_nonneg v). unfold stream_size in *. rewrite (msum_insert_new _ m) by done.
  destruct (decide (P (k, v))).
  - rewrite map_filter_insert_True by done. rewrite msum_insert_new; [lia|].
    apply map_lookup_filter_None. by left.
  - rewrite map_filter_insert_False by done. rewrite delete_id by done. lia.
Qed.

Lemma trim_entry sid up c s o : wf c →
  wf (trim sid up c) ∧
  entry (streams (trim sid up c)) s o =
    if decide (s = sid ∧ o < up) then None else entry (streams c) s o.
Proof.
  intros Hwf. unfold wf in Hwf. unfold trim. destruct (streams c !! sid) as [m|] eqn:Hm.
  - rewrite cache_trim_loop_spec; [|lia|].
    2: { rewrite Hwf. by apply (msum_le stream_size (streams c) sid m stream_size_nonneg). }
    split.
    + unfold wf. cbn [current_bytes streams]. unfold total. rewrite msum_insert, Hm.
      fold (total (streams c)). lia.
    + cbn [streams]. unfold entry. destruct (decide (s = sid)) as [->|].
      * rewrite lookup_insert_eq, Hm. cbn [mbind option_bind].
        destruct (decide (o < up)).
        -- rewrite decide_True by done. apply map_lookup_filter_None. right. simpl. intros; lia.
        -- rewrite decide_False by naive_solver. rewrite map_lookup_filter.
           destruct (m !! o) as [d|]; [|done]. simpl. by rewrite option_guard_True by lia.
      * rewrite lookup_insert_ne by done. by rewrite decide_False by naive_solver.
  - split; [done|]. case_decide as E; [|done]. destruct E as [-> _]. unfold entry. by rewrite Hm.
Qed.

(** ** Reading *)
Definition bytes_total (l : list (Z * bytes)) : Z := foldr Z.add 0 ((λ e, zlen e.2) <$> l).

(** The loop on a sorted list of entries: consecutive offsets, cut at the
    byte bound or at the first gap. *)
Lemma cache_read_loop_spec x max t l acc :
  StronglySorted (key_lt fst) l → Forall (λ e, x ≤ e.1 < i64_max) l → i64_min ≤ x →
  ∃ k, read_loop x max t l acc = acc ++ k
    ∧ k.*1 = seqZ x (zlen k) ∧ k ⊆ l
    ∧ (t + bytes_total k ≥ max ∧ k ≠ [] ∨ ∀ e, e ∈ l → e.1 ≠ x + zlen k).
Proof.
  intros Hs. revert x t acc. induction Hs as [|[o d] l Hs IH Hlt]; intros x t acc Hx Hmin.
  { exists []. rewrite app_nil_r. split_and!; [done|done|done|right; set_solver]. }
  apply Forall_cons in Hx as [Ho Hx]. cbn [fst] in Ho. cbn [read_loop]. case_decide as Hox.
  { exists []. rewrite app_nil_r, zlen_nil. split_and!; [done|done|set_solver|].
    right. intros e [->|He]%elem_of_cons; [simpl; lia|]. rewrite Forall_forall in Hlt.
    apply Hlt in He. unfold key_lt in He. simpl in He. lia. }
  assert (o = x) as -> by lia. case_decide as Hm.
  { exists [(x, d)]. split_and!; [done|done|set_solver|]. left. split; [|done].
    unfold bytes_total. simpl. lia. }
  assert (i64 (x + 1) = x + 1) as ->.
  { apply wrap_s_small; [lia|]. unfold in_s, i64_max, i64_min in *. change (64 - 1) with 63. lia. }
  destruct (IH (x + 1) (t + zlen d) (acc ++ [(x, d)])) as (k & -> & Hk & Hsub & Hend); [|lia|].
  { apply Forall_forall. intros e He. rewrite Forall_forall in Hlt, Hx. specialize (Hx e He).
    apply Hlt in He. unfold key_lt in He. simpl in *. lia. }
  exists ((x, d) :: k). pose proof (zlen_nonneg k). rewrite zlen_cons. split_and!.
  - by rewrite <- app_assoc.
  - rewrite fmap_cons, Hk, (seqZ_cons x) by lia. cbn [fst]. f_equal. f_equal; lia.
  - set_solver.
  - destruct Hend as [[? _]|Hend].
    + left. split; [|done]. unfold bytes_total in *. rewrite fmap_cons. cbn [foldr snd]. lia.
    + right. intros e [->|He]%elem_of_cons; [simpl; lia|]. apply Hend in He. lia.
Qed.

Lemma read_range_spec sid start max c :
  (∀ o d, entry (streams c) sid o = Some d → i64_min ≤ o < i64_max) →
  match (read_range sid start max c).1 with
  | None => entry (streams c) sid start = None
  | Some l => l ≠ [] ∧ l.*1 = seqZ start (zlen l)
      ∧ (∀ o d, (o, d) ∈ l → entry (streams c) sid o = Some d)
      ∧ (bytes_total l ≥ max ∨ entry (streams c) sid (start + zlen l) = None)
  end.
Proof.
  intros Hr. unfold read_range. unfold entry in *. destruct (streams c !! sid) as [m|]; [|done].
  cbn [mbind option_bind] in *. destruct (m !! start) as [d0|] eqn:H0; [|done].
  set (l := filter (λ e, start ≤ e.1) (ordered m)).
  assert (∀ o d, (o, d) ∈ l ↔ start ≤ o ∧ m !! o = Some d) as Hl.
  { intros o d. unfold l. by rewrite list_elem_of_filter, elem_of_ordered. }
  destruct (cache_read_loop_spec start max 0 l []) as (k & -> & Hk & Hsub & Hend).
  { apply key_lt_filter, ordered_sorted. }
  { apply Forall_forall. intros [o d] Hin. apply Hl in Hin as [? Hd]. apply Hr in Hd. simpl. lia. }
  { by apply Hr in H0 as [? _]. }
  cbn [app]. case_decide as E.
  - subst k. destruct Hend as [[_ ?]|Hend]; [done|]. exfalso.
    apply (Hend (start, d0)); [by apply Hl|]. rewrite zlen_nil. simpl. lia.
  - split_and!; [done|done| |].
    + intros o d Hin. apply Hsub in Hin. by apply Hl in Hin as [_ ?].
    + destruct Hend as [[? _]|Hend]; [by left|right].
      destruct (m !! (start + zlen k)) as [d|] eqn:Hd; [|done]. exfalso.
      apply (Hend (start + zlen k, d)); [|done]. apply Hl. split; [|done].
      pose proof (zlen_nonneg k). lia.
Qed.

(** ** Theorems *)
Section theorems.
Context `{HO : HashOrder}.

Inductive op :=
| OPut (sid off : Z) (data : bytes)
| OTrim (sid up : Z)
| ORead (sid start max : Z).

Definition run_op (o : op) (c : LogCache) : LogCache :=
  match o with
  | OPut sid off data => put sid off data c
  | OTrim sid up => trim sid up c
  | ORead sid start max => (read_range sid start max c).2
  end.

Definition run (ops : list op) (c : LogCache) : LogCache := foldl (flip run_op) c ops.

Definition op_ok (max : Z) (o : op) : Prop :=
  match o with OPut _ off data => zlen data ≤ max ∧ off < i64_max | _ => True end.

#[global] Instance op_ok_dec max o : Decision (op_ok max o).
Proof. destruct o; simpl; apply _. Defined.

Record good (max : Z) (c : LogCache) : Prop := {
  good_wf : wf c;
  good_max : max_bytes c = max;
  good_cur : current_bytes c ≤ max;
  good_offs : ∀ s o d, entry (streams c) s o = Some d → o < i64_max }.

Lemma read_range_state sid start max c :
  streams (read_range sid start max c).2 = streams c ∧
  current_bytes (read_range sid start max c).2 = current_bytes c ∧
  max_bytes (read_range sid start max c).2 = max_bytes c.
Proof. unfold read_range. by repeat case_match. Qed.

Lemma run_op_good max o c : 0 ≤ max < 2 ^ 63 → op_ok max o → good max c → good max (run_op o c).
Proof.
  intros Hmax Ho [Hwf Hm Hc Hoff]. pose proof Hwf as Hwf'. unfold wf in Hwf'.
  destruct o as [sid off data|sid up|sid start mx]; simpl in *.
  - destruct Ho as [Hlen Hi]. pose proof (zlen_nonneg data).
    destruct (put_spec sid off data c) as (H1 & H2 & H3 & H4 & _ & H6);
      [done|unfold fits; lia|lia|].
    split; [done|congruence|rewrite <- Hm; apply H6; [lia|done]|].
    intros s o d He. destruct (decide ((s, o) = (sid, off))) as [[= -> ->]|]; [done|].
    by eapply Hoff, H4.
  - assert (∀ s o, entry (streams (trim sid up c)) s o =
      if decide (s = sid ∧ o < up) then None else entry (streams c) s o) as He
      by (intros; by apply trim_entry).
    split; [by apply (trim_entry sid up c 0 0)| | |].
    + unfold trim. repeat case_match; done.
    + pose proof (trim_entry sid up c 0 0 Hwf) as [Hwt _]. unfold wf in Hwt. rewrite Hwt.
      transitivity (total (streams c)); [|lia]. unfold trim.
      destruct (streams c !! sid) as [m|] eqn:Hs; [|done].
      rewrite cache_trim_loop_spec; [|lia|].
      2: { rewrite Hwf'. by apply (msum_le stream_size (streams c) sid m stream_size_nonneg). }
      cbn [streams]. unfold total. rewrite msum_insert, Hs.
      enough (stream_size (filter (λ kv, up ≤ kv.1) m) ≤ stream_size m) by lia.
      apply stream_size_filter.
    + intros s o d. rewrite He. case_decide; [done|]. apply Hoff.
  - destruct (read_range_state sid start mx c) as (E1 & E2 & E3).
    split; [unfold wf; congruence|congruence|lia|]. intros s o d. rewrite E1. apply Hoff.
Qed.

(** C37: byte accounting and capacity of the log cache.  After any sequence of
    puts (each of at most [max] bytes, at offsets below [i64::MAX]), trims and
    reads, the byte counter is exactly the size of the cached payloads and
    does not exceed the capacity. *)
Theorem log_cache_capacity max ops : 0 ≤ max < 2 ^ 63 → Forall (op_ok max) ops →
  let c := run ops (new max) in
  current_bytes c = total (streams c) ∧ current_bytes c ≤ max.
Proof.
  intros Hmax Hops c. enough (good max c) as [Hwf _ Hc _] by done. unfold c.
  assert (good max (new max)) as Hg.
  { split; [done|done|simpl; lia|]. intros s o d (m & Hm & _)%bind_Some. done. }
  revert Hg. generalize (new max). clear c.
  induction Hops as [|o ops Ho Hops IH]; intros c Hg; [done|]. apply IH. by apply run_op_good.
Qed.

(** What a put does.  It stores the record; every other cached record is
    either unchanged or evicted; and eviction takes the smallest offsets: no
    evicted record has a larger offset than a record that is kept. *)
Theorem log_cache_put sid off data c : wf c → fits c → zlen data + total (streams c) < 2 ^ 64 →
  let c' := put sid off data c in
  entry (streams c') sid off = Some data
  ∧ (∀ s o d, (s, o) ≠ (sid, off) → entry (streams c') s o = Some d → entry (streams c) s o = Some d)
  ∧ (∀ s o d s' o' d', (s, o) ≠ (sid, off) → (s', o') ≠ (sid, off) →
       entry (streams c) s o = Some d → entry (streams c') s o = None →
       entry (streams c') s' o' = Some d' → o ≤ o').
Proof.
  intros Hwf Hf Hd c'. destruct (put_spec sid off data c Hwf Hf Hd) as (_ & _ & H3 & H4 & H5 & _). done.
Qed.

(** A cached read returns, for a start offset that is in the cache, a
    non-empty run of consecutive cached records from it, which ends only at
    the byte bound or at an offset that is not cached; a miss means the start
    offset is not cached. *)
Theorem log_cache_read sid start max c :
  (∀ o d, entry (streams c) sid o = Some d → i64_min ≤ o < i64_max) →
  match (read_range sid start max c).1 with
  | None => entry (streams c) sid start = None
  | Some l => l ≠ [] ∧ l.*1 = seqZ start (zlen l)
      ∧ (∀ o d, (o, d) ∈ l → entry (streams c) sid o = Some d)
      ∧ (bytes_total l ≥ max ∨ entry (streams c) sid (start + zlen l) = None)
  end.
Proof. apply read_range_spec. Qed.
End theorems.

(** *** Witnesses *)
Definition demo_ops : list op := [OPut 1 0 [x61; x62]; OPut 1 1 [x63]; ORead 1 0 9; OPut 2 5 [x64; x65]].

Lemma log_cache_capacity_witness : current_bytes (run demo_ops (new 4)) = 3.
Proof.
  destruct (log_cache_capacity 4 demo_ops) as [H _];
    [vm_compute; split; congruence|apply (bool_decide_unpack _); vm_compute; exact I|].
  refine (eq_trans H _). vm_compute. reflexivity.
Defined.

Lemma log_cache_put_witness : entry (streams (put 1 0 [x61] (new 10))) 1 0 = Some [x61].
Proof.
  apply (log_cache_put 1 0 [x61] (new 10)); [reflexivity|vm_compute; reflexivity..].
Defined.

Lemma log_cache_read_witness :
  ∃ l, (read_range 1 0 9 (put 1 0 [x61] (new 10))).1 = Some l ∧ l ≠ [].
Proof.
  pose proof (log_cache_read 1 0 9 (put 1 0 [x61] (new 10))) as H.
  destruct (read_range 1 0 9 (put 1 0 [x61] (new 10))).1 as [l|] eqn:E;
    [|exfalso; vm_compute in E; discriminate].
  exists l. split; [reflexivity|]. apply H. intros o d He.
  destruct (put_spec 1 0 [x61] (new 10)) as (_ & _ & _ & H4 & _); [reflexivity|vm_compute; reflexivity..|].
  destruct (decide (o = 0)) as [->|Ho]; [vm_compute; split; congruence|].
  exfalso. assert ((1, o) ≠ (1, 0)) as Hne by congruence. specialize (H4 1 o d Hne He). discriminate H4.
Defined.

(** A record at offset [i64::MAX] is never chosen for eviction, so the
    cache can be pushed over its capacity. *)
Theorem log_cache_max_offset_over_capacity :
  current_bytes (run [OPut 1 i64_max [x61; x62; x63]; OPut 1 0 [x64; x65]] (new 4)) = 5.
Proof. vm_compute. reflexivity. Qed.

End LC.
