(* ===== verification/BlockCache.v ===== *)
(** * The block cache

    [crates/oxidemq-s3stream/src/block_cache.rs]: the LRU cache of decoded S3
    blocks, a hash table with a separate recency queue, and its refinement to
    a single list ordered from least to most recently used. *)

From Stdlib Require Import Strings.Byte.
From stdpp Require Import base numbers list gmap strings countable fin_maps.
From S2P Require Import Prelude Bytes CoreTypes.

Module BC.

Record BlockKey := mkKey { object_key : string; key_stream_id : Z; key_start_offset : Z }.

#[global] Instance BlockKey_eq_dec : EqDecision BlockKey.
Proof. solve_decision. Defined.
#[global] Instance BlockKey_countable : Countable BlockKey.
Proof.
  refine (inj_countable' (λ k, (object_key k, key_stream_id k, key_start_offset k))
            (λ p, mkKey p.1.1 p.1.2 p.2) _). by intros [].
Defined.

Record BlockCache := mkBC {
  max_bytes : Z;
  current_bytes : Z;
  entries : gmap BlockKey bytes;
  lru_order : list BlockKey;
  hits : Z;
  misses : Z }.

Definition new (max : Z) : BlockCache := mkBC max 0 ∅ [] 0 0.

(** [if let Some(pos) = lru.iter().position(..) { lru.remove(pos); }] *)
Fixpoint remove_first (k : BlockKey) (l : list BlockKey) : list BlockKey :=
  match l with
  | [] => []
  | x :: l' => if decide (x = k) then l' else x :: remove_first k l'
  end.

Definition get (key : BlockKey) (c : BlockCache) : option bytes * BlockCache :=
  match entries c !! key with
  | Some data =>
      (Some data, mkBC (max_bytes c) (current_bytes c) (entries c)
                       (remove_first key (lru_order c) ++ [key]) (u64 (hits c + 1)) (misses c))
  | None =>
      (None, mkBC (max_bytes c) (current_bytes c) (entries c) (lru_order c)
                  (hits c) (u64 (misses c + 1)))
  end.

(** The eviction loop; structural in the queue it pops. *)
Fixpoint evict (max data_len : Z) (lru : list BlockKey) (es : gmap BlockKey bytes) (cur : Z)
    : list BlockKey * gmap BlockKey bytes * Z :=
  match lru with
  | [] => ([], es, cur)
  | old_key :: lru' =>
      if decide (cur + data_len > max) then
        match es !! old_key with
        | Some old_data => evict max data_len lru' (delete old_key es) (Z.max 0 (cur - zlen old_data))
        | None => evict max data_len lru' es cur
        end
      else (lru, es, cur)
  end.

Definition put (key : BlockKey) (data : bytes) (c : BlockCache) : BlockCache :=
  let data_len := zlen data in
  let '(lru, es, cur) := evict (max_bytes c) data_len (lru_order c) (entries c) (current_bytes c) in
  let '(cur, lru) :=
    match es !! key with
    | Some old => (Z.max 0 (cur - zlen old), remove_first key lru)
    | None => (cur, lru)
    end in
  mkBC (max_bytes c) (cur + data_len) (<[key := data]> es) (lru ++ [key]) (hits c) (misses c).

Definition clear (c : BlockCache) : BlockCache := mkBC (max_bytes c) 0 ∅ [] (hits c) (misses c).

(** ** The abstract LRU cache

    A list of entries with distinct keys, least recently used first. *)
Abbreviation lru_list := (list (BlockKey * bytes)).

Definition weight (l : lru_list) : Z := foldr Z.add 0 ((λ e, zlen e.2) <$> l).

Definition drop_key (k : BlockKey) (l : lru_list) : lru_list := filter (λ e, e.1 ≠ k) l.

Definition lru_get (k : BlockKey) (l : lru_list) : option bytes * lru_list :=
  match (list_to_map l : gmap BlockKey bytes) !! k with
  | Some d => (Some d, drop_key k l ++ [(k, d)])
  | None => (None, l)
  end.

(** Drop least recently used entries until [need] more bytes fit. *)
Fixpoint lru_evict (max need : Z) (l : lru_list) : lru_list :=
  match l with
  | [] => []
  | _ :: l' => if decide (weight l + need > max) then lru_evict max need l' else l
  end.

Definition lru_put (max : Z) (k : BlockKey) (d : bytes) (l : lru_list) : lru_list :=
  drop_key k (lru_evict max (zlen d) l) ++ [(k, d)].

Record abs (c : BlockCache) (l : lru_list) : Prop := {
  abs_nodup : NoDup l.*1;
  abs_entries : entries c = list_to_map l;
  abs_lru : lru_order c = l.*1;
  abs_bytes : current_bytes c = weight l }.

(** ** Lemmas *)
Lemma weight_cons e l : weight (e :: l) = zlen e.2 + weight l.
Proof. done. Qed.
Lemma weight_app l k : weight (l ++ k) = weight l + weight k.
Proof. unfold weight. by rewrite fmap_app, foldr_add_app. Qed.
Lemma weight_nonneg l : 0 ≤ weight l.
Proof. induction l as [|e l IH]; [done|]. rewrite weight_cons. pose proof (zlen_nonneg e.2). lia. Qed.

Lemma drop_key_notin k l : k ∉ l.*1 → drop_key k l = l.
Proof.
  induction l as [|[k' d] l IH]; intros Hk; [done|]. unfold drop_key in *. rewrite filter_cons.
  simpl in *. rewrite decide_True by set_solver. f_equal. apply IH. set_solver.
Qed.

Lemma drop_key_cons k d l : drop_key k ((k, d) :: l) = drop_key k l.
Proof. unfold drop_key. rewrite filter_cons. simpl. by rewrite decide_False by auto. Qed.

Lemma remove_first_drop k l : NoDup l.*1 → remove_first k l.*1 = (drop_key k l).*1.
Proof.
  induction l as [|[k' d] l IH]; [done|]. rewrite fmap_cons. intros [Hk' Hnd]%NoDup_cons. simpl in *.
  unfold drop_key in *. rewrite filter_cons. simpl. case_decide as E.
  - subst k'. rewrite decide_False by auto. fold (drop_key k l). by rewrite drop_key_notin.
  - rewrite decide_True by auto. rewrite fmap_cons. simpl. by rewrite IH.
Qed.

Lemma drop_key_nodup k l : NoDup l.*1 → NoDup (drop_key k l).*1.
Proof.
  induction l as [|[k' d] l IH]; [done|]. rewrite fmap_cons. intros [Hk' Hnd]%NoDup_cons. simpl in *.
  unfold drop_key in *. rewrite filter_cons. simpl. case_decide; [|by apply IH].
  rewrite fmap_cons. constructor; [|by apply IH]. simpl.
  intros ([k2 d2] & -> & Hin)%list_elem_of_fmap. apply list_elem_of_filter in Hin as [_ Hin].
  destruct Hk'. by apply (list_elem_of_fmap_2 fst) in Hin.
Qed.

Lemma drop_key_fresh k l : k ∉ (drop_key k l).*1.
Proof.
  intros ([k2 d2] & E & Hin)%list_elem_of_fmap. apply list_elem_of_filter in Hin as [Hne _].
  simpl in *. congruence.
Qed.

Lemma snoc_nodup k d l : NoDup l.*1 → NoDup (drop_key k l ++ [(k, d)]).*1.
Proof.
  intros Hnd. rewrite fmap_app. apply NoDup_app. split_and!; [by apply drop_key_nodup| |].
  - intros x Hx. simpl. rewrite list_elem_of_singleton. intros ->. by apply drop_key_fresh in Hx.
  - apply NoDup_singleton.
Qed.

Lemma drop_key_map k l :
  (list_to_map (drop_key k l) : gmap BlockKey bytes) = delete k (list_to_map l).
Proof.
  induction l as [|[k' d] l IH]; [symmetry; apply delete_empty|]. unfold drop_key in *.
  rewrite filter_cons. simpl. case_decide as E; simpl.
  - rewrite IH. by rewrite delete_insert_ne.
  - subst k'. by rewrite IH, delete_insert_eq.
Qed.

Lemma list_to_map_snoc' k d (l : lru_list) :
  (list_to_map (drop_key k l ++ [(k, d)]) : gmap BlockKey bytes) = <[k := d]> (list_to_map l).
Proof.
  rewrite list_to_map_app. simpl. rewrite drop_key_map.
  rewrite <- insert_union_r by apply lookup_delete_eq. rewrite map_union_empty.
  apply insert_delete_eq.
Qed.

Lemma weight_drop k l : NoDup l.*1 →
  weight (drop_key k l) =
    weight l - match (list_to_map l : gmap BlockKey bytes) !! k with Some d => zlen d | None => 0 end.
Proof.
  induction l as [|[k' d] l IH]; [done|]. rewrite fmap_cons. intros [Hk' Hnd]%NoDup_cons.
  simpl in *. unfold drop_key in *. rewrite filter_cons. simpl. rewrite weight_cons. simpl.
  case_decide as E.
  - rewrite weight_cons, lookup_insert_ne by done. simpl. rewrite IH by done. lia.
  - subst k'. rewrite lookup_insert_eq. fold (drop_key k l).
    rewrite drop_key_notin by done. lia.
Qed.

Lemma get_refines k c l : abs c l →
  (get k c).1 = (lru_get k l).1 ∧ abs (get k c).2 (lru_get k l).2.
Proof.
  intros [Hnd He Hl Hb]. unfold get, lru_get. rewrite He.
  destruct ((list_to_map l : gmap BlockKey bytes) !! k) as [d|] eqn:Hk; [|by repeat split].
  split; [done|]. split; cbn [entries lru_order current_bytes snd].
  - by apply snoc_nodup.
  - rewrite list_to_map_snoc'. by rewrite insert_id.
  - rewrite Hl, remove_first_drop by done. by rewrite fmap_app.
  - rewrite weight_app, weight_drop, Hk by done. unfold weight at 2. simpl. lia.
Qed.

Lemma evict_refines max need l : NoDup l.*1 →
  evict max need l.*1 (list_to_map l) (weight l) =
    ((lru_evict max need l).*1, list_to_map (lru_evict max need l), weight (lru_evict max need l)).
Proof.
  induction l as [|[k d] l IH]; [done|]. rewrite fmap_cons. intros [Hk Hnd]%NoDup_cons.
  cbn [evict lru_evict]. simpl in Hk. case_decide; [|done].
  cbn [list_to_map foldr fst]. change (foldr _ ∅ l) with (list_to_map l : gmap BlockKey bytes).
  rewrite lookup_insert_eq, delete_insert_id by (by apply not_elem_of_list_to_map_1).
  rewrite weight_cons. pose proof (weight_nonneg l).
  rewrite Z.max_r by (simpl; lia). replace (zlen (k, d).2 + weight l - zlen (k, d).2) with (weight l) by lia.
  by apply IH.
Qed.

Lemma lru_evict_suffix max need l : lru_evict max need l `suffix_of` l.
Proof.
  induction l as [|e l IH]; [done|]. cbn [lru_evict]. case_decide; [|done].
  by apply suffix_cons_r.
Qed.

Lemma lru_evict_fits max need l : need ≤ max → weight (lru_evict max need l) + need ≤ max.
Proof.
  intros Hn. induction l as [|e l IH]; [unfold weight; simpl; lia|]. cbn [lru_evict].
  case_decide; [done|]. lia.
Qed.

Lemma suffix_nodup (l l' : lru_list) : l' `suffix_of` l → NoDup l.*1 → NoDup l'.*1.
Proof. intros [k ->]. rewrite fmap_app. by intros (_ & _ & ?)%NoDup_app. Qed.

Lemma put_refines k d c l : abs c l → abs (put k d c) (lru_put (max_bytes c) k d l).
Proof.
  intros [Hnd He Hl Hb]. unfold put, lru_put. rewrite He, Hl, Hb, evict_refines by done.
  set (l' := lru_evict (max_bytes c) (zlen d) l).
  assert (NoDup l'.*1) as Hnd' by (eapply suffix_nodup; [apply lru_evict_suffix|done]).
  assert ((match (list_to_map l' : gmap BlockKey bytes) !! k with
           | Some old => (Z.max 0 (weight l' - zlen old), remove_first k l'.*1)
           | None => (weight l', l'.*1) end)
          = (weight (drop_key k l'), (drop_key k l').*1)) as ->.
  { pose proof (weight_drop k l' Hnd') as Hw. pose proof (weight_nonneg (drop_key k l')).
    destruct (list_to_map l' !! k) as [old|] eqn:Hk.
    - rewrite remove_first_drop by done. f_equal. lia.
    - rewrite drop_key_notin; [done|]. by apply not_elem_of_list_to_map_2 in Hk. }
  split; cbn [entries lru_order current_bytes].
  - by apply snoc_nodup.
  - by rewrite list_to_map_snoc'.
  - by rewrite fmap_app.
  - rewrite weight_app. f_equal. unfold weight. simpl. lia.
Qed.

Lemma clear_refines c l : abs c l → abs (clear c) [].
Proof. intros _. split; [constructor|done|done|done]. Qed.

(** ** Theorems *)
Inductive op := OGet (k : BlockKey) | OPut (k : BlockKey) (d : bytes) | OClear.

Definition run_op (o : op) (c : BlockCache) : BlockCache :=
  match o with OGet k => (get k c).2 | OPut k d => put k d c | OClear => clear c end.

Definition lru_op (max : Z) (o : op) (l : lru_list) : lru_list :=
  match o with OGet k => (lru_get k l).2 | OPut k d => lru_put max k d l | OClear => [] end.

Definition run (ops : list op) (c : BlockCache) : BlockCache := foldl (flip run_op) c ops.
Definition lru_run (max : Z) (ops : list op) (l : lru_list) : lru_list := foldl (flip (lru_op max)) l ops.

Lemma max_bytes_op o c : max_bytes (run_op o c) = max_bytes c.
Proof. destruct o; simpl; [unfold get; by case_match|unfold put; by repeat case_match|done]. Qed.

Lemma run_refines ops c l : abs c l → abs (run ops c) (lru_run (max_bytes c) ops l).
Proof.
  revert c l. induction ops as [|o ops IH]; intros c l Ha; [done|]. cbn [run lru_run foldl].
  assert (abs (run_op o c) (lru_op (max_bytes c) o l)) as Ha'.
  { destruct o; [by apply get_refines|by apply put_refines|by eapply clear_refines]. }
  apply IH in Ha'. by rewrite max_bytes_op in Ha'.
Qed.

(** C38: the block cache is an LRU cache.  After any sequence of gets, puts and
    clears, the hash table and the recency queue together are the abstract
    list of entries from least to most recently used, in which a hit moves the
    entry to the end and a put drops entries from the front until the new one
    fits; a lookup answers from that list, and the byte counter is the weight
    of the list. *)
Theorem block_cache_is_lru max ops k :
  let c := run ops (new max) in
  let l := lru_run max ops [] in
  (get k c).1 = (list_to_map l : gmap BlockKey bytes) !! k
  ∧ lru_order c = l.*1 ∧ dom (entries c) = list_to_set l.*1 ∧ current_bytes c = weight l.
Proof.
  intros c l. assert (abs (new max) []) as Hn by (split; [constructor|done|done|done]).
  pose proof (run_refines ops _ _ Hn) as Ha. cbn [max_bytes new] in Ha. fold c l in Ha.
  pose proof Ha as [Hnd He Hl Hb].
  split_and!; [|done| |done].
  - unfold get. rewrite He. by case_match.
  - by rewrite He, dom_list_to_map_L.
Qed.

(** Capacity of the block cache: when every stored block fits in the cache
    by itself, the cache never holds more than [max] bytes. *)
Theorem block_cache_capacity max ops : 0 ≤ max →
  Forall (λ o, match o with OPut _ d => zlen d ≤ max | _ => True end) ops →
  current_bytes (run ops (new max)) ≤ max.
Proof.
  intros Hm Hops. assert (abs (new max) []) as Hn by (split; [constructor|done|done|done]).
  destruct (run_refines ops _ _ Hn) as [_ _ _ ->]. cbn [max_bytes new].
  assert (NoDup (@nil (BlockKey * bytes)).*1 ∧ weight [] ≤ max) as H0 by (split; [constructor|done]).
  revert H0. generalize (@nil (BlockKey * bytes)).
  induction Hops as [|o ops Ho Hops IH]; intros l [Hnd Hw]; [done|]. cbn [lru_run foldl]. apply IH.
  unfold flip. destruct o as [k|k d|]; simpl in *.
  - unfold lru_get. destruct (list_to_map l !! k) as [d|] eqn:Hk; [|done]. split; [by apply snoc_nodup|].
    simpl. rewrite weight_app, weight_drop, Hk by done. unfold weight at 2. simpl. lia.
  - assert (NoDup (lru_evict max (zlen d) l).*1) by (eapply suffix_nodup; [apply lru_evict_suffix|done]).
    unfold lru_put. split; [by apply snoc_nodup|].
    rewrite weight_app, weight_drop by done. unfold weight at 2. simpl.
    pose proof (lru_evict_fits max (zlen d) l Ho).
    assert (0 ≤ match (list_to_map (lru_evict max (zlen d) l) : gmap BlockKey bytes) !! k with
                | Some x => zlen x | None => 0 end) by (case_match; [apply zlen_nonneg|done]). lia.
  - split; [constructor|done].
Qed.

Definition demo_key (n : Z) : BlockKey := mkKey "obj" 1 n.

Lemma block_cache_capacity_witness :
  current_bytes (run [OPut (demo_key 0) [x61; x62]; OPut (demo_key 1) [x63; x64]] (new 3)) ≤ 3.
Proof.
  apply (block_cache_capacity 3); [lia|].
  apply Forall_cons; split; [vm_compute; congruence|].
  apply Forall_cons; split; [vm_compute; congruence|constructor].
Defined.

End BC.
