(* ===== verification/ObjectStore.v ===== *)
(** * Object storage

    [crates/oxidemq-s3stream/src/client.rs]: the [ObjectStorage] trait, the
    in-memory store, and the decorator that retries transient failures.  The
    AWS-SDK-backed [S3ClientStorage] is in [S3Client]: a caller's theorems are
    proved for any implementation that meets the trait's laws below. *)

From Stdlib Require Import Strings.Byte.
From stdpp Require Import base numbers list gmap strings fin_maps.
From S2P Require Import Prelude Bytes CoreTypes WalSegment.

(** ** The trait *)
Class ObjectStorage (S : Type) := {
  put_object : string → bytes → S → result unit * S;
  get_object : string → S → result bytes * S;
  get_object_range : string → Z → Z → S → result bytes * S;
  delete_object : string → S → result unit * S;
  delete_objects : list string → S → result unit * S;
  list_objects : string → S → result (list string) * S }.

Definition delete_all (keys : list string) (m : gmap string bytes) : gmap string bytes :=
  foldl (λ m k, delete k m) m keys.

(** What a client relies on: a store is a map from keys to objects. *)
Class ObjectStorageLaws (S : Type) `{!ObjectStorage S} := {
  objects : S → gmap string bytes;
  put_object_ok k d s s' : put_object k d s = (Ok (), s') → objects s' = <[k := d]> (objects s);
  get_object_ok k s d s' : get_object k s = (Ok d, s') → objects s !! k = Some d;
  get_object_objects k s : objects (get_object k s).2 = objects s;
  delete_objects_ok ks s s' : delete_objects ks s = (Ok (), s') →
    objects s' = delete_all ks (objects s) }.

(** ** MemoryObjectStorage *)
Module MemoryStore.
Record MemoryObjectStorage := mk {
  objs : gmap string bytes;
  put_count : Z;
  get_count : Z;
  bytes_stored : Z }.

Definition new : MemoryObjectStorage := mk ∅ 0 0 0.

Definition clear (s : MemoryObjectStorage) : MemoryObjectStorage :=
  mk ∅ (put_count s) (get_count s) 0.

Definition put (key : string) (data : bytes) (s : MemoryObjectStorage)
    : result unit * MemoryObjectStorage :=
  let len := zlen data in
  let stored := match objs s !! key with
                | Some old => u64 (bytes_stored s - zlen old) | None => bytes_stored s end in
  (Ok (), mk (<[key := data]> (objs s)) (u64 (put_count s + 1)) (get_count s) (u64 (stored + len))).

Definition not_found (key : string) : OxideMqError := EStorage ("Object not found: " +:+ key).

Definition get (key : string) (s : MemoryObjectStorage) : result bytes * MemoryObjectStorage :=
  (ok_or (objs s !! key) (not_found key),
   mk (objs s) (put_count s) (u64 (get_count s + 1)) (bytes_stored s)).

Definition get_range (key : string) (start stop : Z) (s : MemoryObjectStorage)
    : result bytes * MemoryObjectStorage :=
  (obj ← ok_or (objs s !! key) (not_found key);
   let obj_len := zlen obj in
   if decide (start ≥ obj_len) then Ok []
   else
     let actual_end := Z.min (u64 (stop + 1)) obj_len in
     slice obj start actual_end,
   mk (objs s) (put_count s) (u64 (get_count s + 1)) (bytes_stored s)).

Definition remove (key : string) (s : MemoryObjectStorage) : MemoryObjectStorage :=
  let stored := match objs s !! key with
                | Some data => u64 (bytes_stored s - zlen data) | None => bytes_stored s end in
  mk (delete key (objs s)) (put_count s) (get_count s) stored.

Definition delete_one (key : string) (s : MemoryObjectStorage) : result unit * MemoryObjectStorage :=
  (Ok (), remove key s).

Definition delete_many (keys : list string) (s : MemoryObjectStorage)
    : result unit * MemoryObjectStorage :=
  (Ok (), foldl (λ s key, remove key s) s keys).

(** [matches.sort()]: byte-lexicographic order. *)
Fixpoint insert_str (x : string) (l : list string) : list string :=
  match l with
  | [] => [x]
  | y :: l' => if String.leb x y then x :: l else y :: insert_str x l'
  end.

Definition list_keys `{HashOrder} (prefix : string) (s : MemoryObjectStorage)
    : result (list string) * MemoryObjectStorage :=
  let ms := filter (λ k, String.prefix prefix k = true) (hash_iter (objs s)).*1 in
  (Ok (foldr insert_str [] ms), s).

#[export] Instance MemoryObjectStorage_storage `{HashOrder} : ObjectStorage MemoryObjectStorage := {|
  put_object := put; get_object := get; get_object_range := get_range;
  delete_object := delete_one; delete_objects := delete_many; list_objects := list_keys |}.

Lemma remove_objs keys s : objs (foldl (λ s key, remove key s) s keys) = delete_all keys (objs s).
Proof. revert s. induction keys as [|k keys IH]; intros s; [done|]. simpl. by rewrite IH. Qed.

#[export] Instance MemoryObjectStorage_laws `{HashOrder} : ObjectStorageLaws MemoryObjectStorage.
Proof.
  refine {| objects := objs |}; simpl.
  - intros k d s s' E. unfold put in E. by injection E as <-.
  - intros k s d s'. unfold get, ok_or. intros E. destruct (objs s !! k); by simplify_eq.
  - done.
  - intros ks s s' E. unfold delete_many in E. injection E as <-. apply remove_objs.
Defined.

(** The byte counter is the size of the stored objects. *)
Definition wf (s : MemoryObjectStorage) : Prop :=
  bytes_stored s = msum zlen (objs s) ∧ msum zlen (objs s) < 2 ^ 64.

Lemma put_wf key data s : wf s → msum zlen (<[key := data]> (objs s)) < 2 ^ 64 → wf (put key data s).2.
Proof.
  intros [Hb Hl] Hn. split; [|done]. unfold put. cbn [snd bytes_stored objs].
  pose proof (msum_nonneg zlen (<[key := data]> (objs s)) zlen_nonneg).
  rewrite msum_insert in *. destruct (objs s !! key) as [old|] eqn:Hk.
  - pose proof (msum_le zlen _ _ _ zlen_nonneg Hk). pose proof (zlen_nonneg old).
    rewrite (wrap_u_small 64 (bytes_stored s - zlen old)) by (unfold in_u; lia).
    rewrite wrap_u_small; unfold in_u; lia.
  - rewrite wrap_u_small; unfold in_u; lia.
Qed.

Lemma remove_wf key s : wf s → wf (remove key s).
Proof.
  intros [Hb Hl]. unfold wf, remove. cbn [bytes_stored objs].
  destruct (objs s !! key) as [d|] eqn:Hk.
  - pose proof (zlen_nonneg d). pose proof (msum_nonneg zlen (delete key (objs s)) zlen_nonneg).
    pose proof (msum_delete zlen (objs s) key d Hk). split; [|lia].
    rewrite wrap_u_small; unfold in_u; lia.
  - by rewrite delete_id.
Qed.
End MemoryStore.

(** ** RetryableObjectStorage *)
Fixpoint str_contains (sub s : string) : bool :=
  String.prefix sub s ||
  match s with EmptyString => false | String _ s' => str_contains sub s' end.

Definition is_transient (e : OxideMqError) : bool :=
  let err_str := error_to_string e in
  str_contains "503" err_str || str_contains "SlowDown" err_str
  || str_contains "RateLimit" err_str || str_contains "TooManyRequests" err_str.

Module Retry.
Record RetryableObjectStorage (St : Type) := mk {
  inner : St; max_retries : Z; base_backoff_ms : Z }.
Arguments mk {St}.
Arguments inner {St}.
Arguments max_retries {St}.
Arguments base_backoff_ms {St}.

Section retry.
Context {St T : Type} (op : St → result T * St).

(** The loop; [remaining] is [max_retries - attempts].  The last component is
    the sequence of sleeps. *)
Fixpoint retry_loop (remaining : nat) (backoff : Z) (s : St) : result T * St * list Z :=
  match op s with
  | (Err err, s') =>
      match remaining with
      | S r =>
          if is_transient err then
            if decide (backoff > 0) then
              let '(res, s'', sl) := retry_loop r (Z.min (u64 (backoff * 2)) 1000) s' in
              (res, s'', backoff :: sl)
            else retry_loop r backoff s'
          else (Err err, s', [])
      | O => (Err err, s', [])
      end
  | (res, s') => (res, s', [])
  end.
End retry.

Definition execute_with_retry {St T} (op : St → result T * St) (r : RetryableObjectStorage St)
    : result T * RetryableObjectStorage St :=
  let '(res, s, _) := retry_loop op (Z.to_nat (max_retries r)) (base_backoff_ms r) (inner r) in
  (res, mk s (max_retries r) (base_backoff_ms r)).

#[export] Instance Retryable_storage {St} `{!ObjectStorage St} : ObjectStorage (RetryableObjectStorage St) := {|
  put_object k d := execute_with_retry (put_object k d);
  get_object k := execute_with_retry (get_object k);
  get_object_range k a b := execute_with_retry (get_object_range k a b);
  delete_object k := execute_with_retry (delete_object k);
  delete_objects ks := execute_with_retry (delete_objects ks);
  list_objects p := execute_with_retry (list_objects p) |}.

Section lemmas.
Context {St T : Type} (op : St → result T * St).

(** [n] transient failures followed by a definitive answer. *)
Inductive attempts : nat → St → result T → St → Prop :=
| attempts_last s r s' : op s = (r, s') → (∀ e, r = Err e → is_transient e = false) → attempts 0 s r s'
| attempts_again n s e s1 r s' :
    op s = (Err e, s1) → is_transient e = true → attempts n s1 r s' → attempts (S n) s r s'.

Lemma retry_absorbs n s r s' remaining backoff : attempts n s r s' → (n ≤ remaining)%nat →
  (retry_loop op remaining backoff s).1 = (r, s').
Proof.
  intros Ha. revert remaining backoff. induction Ha as [s r s' Hop Hr|n s e s1 r s' Hop He Ha IH];
    intros remaining backoff Hn.
  - destruct remaining; simpl; rewrite Hop; destruct r as [v|e|]; try done.
    by rewrite (Hr e).
  - destruct remaining as [|remaining]; [lia|]. simpl. rewrite Hop, He.
    case_decide; [|apply IH; lia].
    specialize (IH remaining (Z.min (u64 (backoff * 2)) 1000) ltac:(lia)).
    by destruct (retry_loop _ _ _ _) as [[??]?].
Qed.

(** Every sleep after the first is at most a second. *)
Lemma retry_sleeps remaining backoff s : 0 ≤ backoff ≤ 1000 →
  Forall (λ ms, 0 < ms ≤ 1000) (retry_loop op remaining backoff s).2
  ∧ (length (retry_loop op remaining backoff s).2 ≤ remaining)%nat.
Proof.
  revert backoff s. induction remaining as [|r IH]; intros backoff s Hb; simpl.
  { repeat case_match; simpl; split; constructor. }
  destruct (op s) as [[v|e|] s1]; simpl; [split; [constructor|lia]| |split; [constructor|lia]].
  destruct (is_transient e); [|simpl; split; [constructor|lia]]. case_decide.
  - destruct (IH (Z.min (u64 (backoff * 2)) 1000) s1) as [H1 H2].
    { rewrite wrap_u_small; unfold in_u; lia. }
    destruct (retry_loop _ _ _ _) as [[??] sl]. simpl in *. split; [constructor; [lia|done]|lia].
  - destruct (IH backoff s1 Hb) as [H1 H2]. split; [done|lia].
Qed.

(** An operation that fails transiently for ever is tried [remaining + 1]
    times and its error is returned. *)
Lemma retry_ok_from remaining backoff s v s' :
  (retry_loop op remaining backoff s).1 = (Ok v, s') →
  ∃ s0, op s0 = (Ok v, s').
Proof.
  revert backoff s. induction remaining as [|r IH]; intros backoff s; simpl.
  - destruct (op s) as [[x|e|] s1] eqn:Hop; simpl; intros [= ]; subst. by exists s.
  - destruct (op s) as [[x|e|] s1] eqn:Hop; simpl; [intros [= ]; subst; by exists s| |done].
    destruct (is_transient e); [|done]. case_decide; [|apply IH].
    specialize (IH (Z.min (u64 (backoff * 2)) 1000) s1).
    destruct (retry_loop _ _ _ _) as [[??]?]. apply IH.
Qed.
End lemmas.

(** The retry decorator.  If an operation fails with transient errors [n]
    times and then gives a definitive answer (a success, or an error that is
    not transient), a decorator with at least [n] retries returns exactly that
    answer. *)
Theorem retry_transparent {St T} (op : St → result T * St) n r res s' :
  attempts op n (inner r) res s' → Z.of_nat n ≤ max_retries r →
  execute_with_retry op r = (res, mk s' (max_retries r) (base_backoff_ms r)).
Proof.
  intros Ha Hn. unfold execute_with_retry.
  pose proof (retry_absorbs op n _ _ _ (Z.to_nat (max_retries r)) (base_backoff_ms r) Ha ltac:(lia)) as H.
  destruct (retry_loop _ _ _ _) as [[??]?]. simpl in H. by injection H as -> ->.
Qed.

(** A store that answers 503 a number of times. *)
Definition flaky (s : Z) : result Z * Z :=
  if decide (s > 0) then (Err (EStorage "S3 API 503 SlowDown"), s - 1) else (Ok 7, s).

Lemma retry_transparent_witness : execute_with_retry flaky (mk 2 3 1) = (Ok 7, mk 0 3 1).
Proof.
  apply (retry_transparent flaky 2 (mk 2 3 1)); [|simpl; lia].
  eapply attempts_again; [reflexivity|vm_compute; reflexivity|].
  eapply attempts_again; [reflexivity|vm_compute; reflexivity|].
  apply attempts_last; [reflexivity|congruence].
Defined.
End Retry.
