(* ===== verification/S3Client.v ===== *)
(** * The AWS-backed object store

    [S3ClientStorage] of [crates/oxidemq-s3stream/src/client.rs]: what it asks
    of the service, how it turns the answers into results, the loop over the
    pages of a listing, and the runtime it blocks on.  The SDK and the service
    behind it are the class [S3Api]; what the service documents is
    [S3ApiLaws].  The last part shows that, seen through the [ObjectStorage]
    trait, the client cannot be told from the in-memory store as long as it
    answers. *)

From Stdlib Require Import Strings.Byte Strings.Ascii Sorting.Sorted.
From stdpp Require Import base numbers list gmap strings fin_maps sorting.
From S2P Require Import Prelude Bytes CoreTypes WalSegment ObjectStore.

(** ** The SDK *)

(** The fields of a [ListObjectsV2Output] that the client reads; an object of
    [contents] is its optional key. *)
Record ListPage := mkPage {
  contents : option (list (option string));
  is_truncated : option bool;
  next_continuation_token : option string }.

(** Whether the loop asks for another page. *)
Definition page_more (pg : ListPage) : bool :=
  default false (is_truncated pg) && bool_decide (is_Some (next_continuation_token pg)).

(** The service: [Svc] is its state as this client observes it.  Keys are in
    a bucket; the body of a download is read after the response has come, and
    may fail; a multi-delete answers with the keys it could not delete.
    [pages_left] bounds the pages that a listing still has. *)
Class S3Api (Svc : Type) := {
  SdkError : Type;
  sdk_display : SdkError → string;
  sdk_debug : SdkError → string;
  api_put_object : string → string → bytes → Svc → (SdkError + unit) * Svc;
  api_get_object : string → string → option string → Svc → (SdkError + (string + bytes)) * Svc;
  api_delete_object : string → string → Svc → (SdkError + unit) * Svc;
  build_object_identifier : string → string + string;
  build_delete : list string → string + list string;
  api_delete_objects : string → list string → Svc → (SdkError + list string) * Svc;
  api_list_objects_v2 : string → string → option string → Svc → (SdkError + ListPage) * Svc;
  pages_left : string → string → option string → Svc → nat;
  pages_left_lt b p tok c pg c' :
    api_list_objects_v2 b p tok c = (inr pg, c') → page_more pg = true →
    (pages_left b p (next_continuation_token pg) c' < pages_left b p tok c)%nat }.

(** [map_err(..)] *)
Definition map_err {E A} (f : E → OxideMqError) (r : E + A) : result A :=
  match r with inl e => Err (f e) | inr a => Ok a end.

(** ** Configuration *)
Record ClientConf := mkConf {
  cf_region : string;
  cf_access_key : string;
  cf_secret_key : string;
  cf_force_path_style : bool;
  cf_endpoint_url : option string }.

Definition client_conf (env : string → option string) (endpoint region : option string) : ClientConf :=
  mkConf (default "us-east-1"%string region)
    (default "ruststack"%string (env "AWS_ACCESS_KEY_ID"%string))
    (default "ruststack"%string (env "AWS_SECRET_ACCESS_KEY"%string))
    true endpoint.

(** ** The runtime that [run_storage_future] blocks on *)
Inductive RuntimeContext := MultiThread | CurrentThread | NoRuntime.

Class Executor := {
  runtime_context : RuntimeContext;
  runtime_builds : bool }.

Record S3ClientStorage (Svc : Type) := mkS3 { client : Svc; bucket : string }.
Arguments mkS3 {Svc}.
Arguments client {Svc}.
Arguments bucket {Svc}.

Section run.
Context `{EX : Executor} {St T : Type}.

(** Inside a multi-threaded runtime the future runs on it; elsewhere on a
    fresh runtime, in a thread of its own when there is already a runtime.
    [expect] when it cannot be built. *)
Definition run_storage_future (fut : St → result T * St) (s : St) : result T * St :=
  match runtime_context with
  | MultiThread => fut s
  | CurrentThread | NoRuntime => if runtime_builds then fut s else (Panic, s)
  end.
End run.

(** ** The operations *)
Section ops.
Context {Svc : Type} `{API : !S3Api Svc}.
Abbreviation storage := (S3ClientStorage Svc).

Definition storage_new (connect : ClientConf → Svc) (env : string → option string) (b : string)
    (endpoint region : option string) : result storage :=
  Ok (mkS3 (connect (client_conf env endpoint region)) b).

Definition from_env (connect : ClientConf → Svc) (env : string → option string) : result storage :=
  storage_new connect env (default "oxidemq-data"%string (env "OXIDEMQ_S3_BUCKET"%string))
    (env "OXIDEMQ_S3_ENDPOINT"%string) (env "OXIDEMQ_S3_REGION"%string).

Definition put_object_async (key : string) (data : bytes) (s : storage) : result unit * storage :=
  let '(r, c) := api_put_object (bucket s) key data (client s) in
  (map_err (λ e, EStorage ("S3 PutObject error for key '" +:+ key +:+ "': " +:+ sdk_display e)) r,
   mkS3 c (bucket s)).

(** The error of a download: the text of the SDK's error decides. *)
Definition get_error (what key : string) (e : SdkError) : OxideMqError :=
  let err_str := sdk_display e in
  if str_contains "NoSuchKey" err_str || str_contains "404" err_str || str_contains "NotFound" err_str
  then EStorage ("Object not found: " +:+ key)
  else EStorage ("S3 " +:+ what +:+ " error for key '" +:+ key +:+ "': " +:+ err_str).

Definition get_object_async (key : string) (s : storage) : result bytes * storage :=
  let '(r, c) := api_get_object (bucket s) key None (client s) in
  (body ← map_err (get_error "GetObject" key) r;
   map_err (λ e, EStorage ("Failed to read S3 body for key '" +:+ key +:+ "': " +:+ e)) body,
   mkS3 c (bucket s)).

Definition range_header (start stop : Z) : string := "bytes=" +:+ dec start +:+ "-" +:+ dec stop.

Definition get_object_range_async (key : string) (start stop : Z) (s : storage) : result bytes * storage :=
  let '(r, c) := api_get_object (bucket s) key (Some (range_header start stop)) (client s) in
  (body ← map_err (get_error "GetObjectRange" key) r;
   map_err (λ e, EStorage ("Failed to read S3 range body for key '" +:+ key +:+ "': " +:+ e)) body,
   mkS3 c (bucket s)).

Definition delete_object_async (key : string) (s : storage) : result unit * storage :=
  let '(r, c) := api_delete_object (bucket s) key (client s) in
  (map_err (λ e, EStorage ("S3 DeleteObject error for key '" +:+ key +:+ "': " +:+ sdk_display e)) r,
   mkS3 c (bucket s)).

Fixpoint build_ids (keys : list string) : result (list string) :=
  match keys with
  | [] => Ok []
  | k :: keys =>
      obj_id ← map_err (λ e, EStorage ("Failed to build ObjectIdentifier: " +:+ e)) (build_object_identifier k);
      ids ← build_ids keys;
      Ok (obj_id :: ids)
  end.

(** The keys of the answer, which could not be deleted, are not looked at. *)
Definition delete_objects_async (keys : list string) (s : storage) : result unit * storage :=
  if decide (keys = []) then (Ok (), s)
  else
    match (ids ← build_ids keys;
           map_err (λ e, EStorage ("Failed to build Delete request: " +:+ e)) (build_delete ids)) with
    | Ok del =>
        let '(r, c) := api_delete_objects (bucket s) del (client s) in
        ((λ _, ()) <$> map_err (λ e, EStorage ("S3 DeleteObjects error: " +:+ sdk_display e)) r, mkS3 c (bucket s))
    | Err e => (Err e, s)
    | Panic => (Panic, s)
    end.

Definition page_keys (pg : ListPage) : list string := omap id (default [] (contents pg)).

(** The loop of [list_objects_async]; [None] when [fuel] pages were not enough. *)
Fixpoint list_loop (fuel : nat) (prefix : string) (token : option string) (keys : list string) (s : storage)
    : option (result (list string) * storage) :=
  match fuel with
  | O => None
  | S fuel =>
      let '(r, c) := api_list_objects_v2 (bucket s) prefix token (client s) in
      let s := mkS3 c (bucket s) in
      match r with
      | inl e => Some (Err (EStorage ("S3 ListObjectsV2 error: " +:+ sdk_debug e)), s)
      | inr resp =>
          let keys := keys ++ page_keys resp in
          if page_more resp then list_loop fuel prefix (next_continuation_token resp) keys s
          else Some (Ok (foldr MemoryStore.insert_str [] keys), s)
      end
  end.

(** The service's bound on the pages is enough fuel ([list_loop_total]). *)
Definition list_objects_async (prefix : string) (s : storage) : result (list string) * storage :=
  default (Panic, s) (list_loop (S (pages_left (bucket s) prefix None (client s))) prefix None [] s).
End ops.

#[export] Instance S3ClientStorage_storage {Svc} `{!S3Api Svc} `{Executor}
    : ObjectStorage (S3ClientStorage Svc) := {|
  put_object k d := run_storage_future (put_object_async k d);
  get_object k := run_storage_future (get_object_async k);
  get_object_range k a b := run_storage_future (get_object_range_async k a b);
  delete_object k := run_storage_future (delete_object_async k);
  delete_objects ks := run_storage_future (delete_objects_async ks);
  list_objects p := run_storage_future (list_objects_async p) |}.

(** ** What the service documents *)
Class S3ApiLaws (Svc : Type) `{API : !S3Api Svc} := {
  bucket_objects : string → Svc → gmap string bytes;
  api_put_ok b k d c c' : api_put_object b k d c = (inr (), c') →
    bucket_objects b c' = <[k := d]> (bucket_objects b c);
  api_get_ok b k c d c' : api_get_object b k None c = (inr (inr d), c') →
    bucket_objects b c !! k = Some d;
  api_range_ok b k start stop c d c' : 0 ≤ start ≤ stop → stop < 2 ^ 64 →
    api_get_object b k (Some (range_header start stop)) c = (inr (inr d), c') →
    ∃ obj, bucket_objects b c !! k = Some obj ∧ start < zlen obj
      ∧ d = take (Z.to_nat (stop + 1 - start)) (drop (Z.to_nat start) obj);
  api_get_objects b k rg c : bucket_objects b (api_get_object b k rg c).2 = bucket_objects b c;
  api_delete_ok b k c c' : api_delete_object b k c = (inr (), c') →
    bucket_objects b c' = delete k (bucket_objects b c);
  api_delete_many_ok b ks c kept c' : api_delete_objects b ks c = (inr kept, c') →
    bucket_objects b c' = delete_all (filter (λ k, k ∉ kept) ks) (bucket_objects b c);
  build_object_identifier_ok k : build_object_identifier k = inr k;
  build_delete_ok ks : ks ≠ [] → build_delete ks = inr ks;
  api_list_objects b p tok c : bucket_objects b (api_list_objects_v2 b p tok c).2 = bucket_objects b c;
  (** the keys that a listing has still to give *)
  unlisted : string → string → option string → Svc → list string;
  unlisted_start b p c :
    unlisted b p None c ≡ₚ filter (λ k, String.prefix p k = true) (map_to_list (bucket_objects b c)).*1;
  unlisted_page b p tok c pg c' : api_list_objects_v2 b p tok c = (inr pg, c') →
    unlisted b p tok c
    = page_keys pg ++ (if page_more pg then unlisted b p (next_continuation_token pg) c' else []) }.

(** A service that never leaves a key of a multi-delete behind. *)
Class DeletesAll (Svc : Type) `{!S3Api Svc} :=
  deletes_all b ks c kept c' : api_delete_objects b ks c = (inr kept, c') → kept = [].

(** ** Sorting strings *)
Section sorting.
Implicit Types l k : list string.

Lemma insert_str_perm x l : MemoryStore.insert_str x l ≡ₚ x :: l.
Proof.
  induction l as [|y l IH]; simpl; [done|]. destruct (String.leb x y); [done|].
  by rewrite IH, Permutation_swap.
Qed.

Lemma sort_perm l : foldr MemoryStore.insert_str [] l ≡ₚ l.
Proof. induction l as [|x l IH]; simpl; [done|]. by rewrite insert_str_perm, IH. Qed.

Lemma insert_str_sorted x l : Sorted String.le l → Sorted String.le (MemoryStore.insert_str x l).
Proof.
  induction 1 as [|y l Hs IH Hd]; simpl; [by repeat constructor|].
  destruct (String.leb x y) eqn:E.
  - constructor; [by constructor|]. constructor. unfold String.le. by rewrite E.
  - constructor; [done|].
    assert (String.le y x) by (unfold String.le; destruct (String.leb_total x y); [congruence|by apply Is_true_true]).
    destruct Hd as [|z l Hz]; simpl; [by constructor|]. destruct (String.leb x z); by constructor.
Qed.

Lemma sort_sorted l : Sorted String.le (foldr MemoryStore.insert_str [] l).
Proof. induction l; simpl; [constructor|]. by apply insert_str_sorted. Qed.

(** Sorting forgets the order in which the keys came. *)
Lemma sort_unique l k : l ≡ₚ k → foldr MemoryStore.insert_str [] l = foldr MemoryStore.insert_str [] k.
Proof.
  intros E. apply (Sorted_unique String.le); [apply sort_sorted..|]. by rewrite !sort_perm.
Qed.
End sorting.

(** ** Functional behaviour *)
Section lemmas.
Context {Svc : Type} `{LAWS : S3ApiLaws Svc} `{EX : Executor}.
Implicit Types s : S3ClientStorage Svc.

Definition stored s : gmap string bytes := bucket_objects (bucket s) (client s).

Lemma run_ok {T} (fut : S3ClientStorage Svc → result T * S3ClientStorage Svc) s v s' :
  run_storage_future fut s = (Ok v, s') → fut s = (Ok v, s').
Proof. unfold run_storage_future. repeat case_match; done. Qed.

Lemma map_err_Ok {E A} (f : E → OxideMqError) r (a : A) : map_err f r = Ok a → r = inr a.
Proof. destruct r; by intros [= ->]. Qed.

Lemma put_async_ok k d s s' : put_object_async k d s = (Ok (), s') →
  stored s' = <[k := d]> (stored s) ∧ bucket s' = bucket s.
Proof.
  unfold put_object_async, stored. destruct (api_put_object _ _ _ _) as [r c] eqn:E.
  intros [= Hr%map_err_Ok <-]. subst r. simpl. by rewrite (api_put_ok _ _ _ _ _ E).
Qed.

Lemma get_async_ok k s d s' : get_object_async k s = (Ok d, s') →
  stored s !! k = Some d ∧ stored s' = stored s ∧ bucket s' = bucket s.
Proof.
  unfold get_object_async, stored. pose proof (api_get_objects (bucket s) k None (client s)) as Hc.
  destruct (api_get_object _ _ _ _) as [[e|[e|d']] c] eqn:E; simpl in *; intros [= -> <-].
  split_and!; [by eapply api_get_ok|done..].
Qed.

Lemma range_async_ok k a b s d s' : 0 ≤ a ≤ b → b < 2 ^ 64 → get_object_range_async k a b s = (Ok d, s') →
  (∃ obj, stored s !! k = Some obj ∧ a < zlen obj
    ∧ d = take (Z.to_nat (b + 1 - a)) (drop (Z.to_nat a) obj))
  ∧ stored s' = stored s ∧ bucket s' = bucket s.
Proof.
  intros Hab Hb. unfold get_object_range_async, stored.
  pose proof (api_get_objects (bucket s) k (Some (range_header a b)) (client s)) as Hc.
  destruct (api_get_object _ _ _ _) as [[e|[e|d']] c] eqn:E; simpl in *; intros [= -> <-].
  split_and!; [by eapply api_range_ok|done..].
Qed.

Lemma delete_async_ok k s s' : delete_object_async k s = (Ok (), s') →
  stored s' = delete k (stored s) ∧ bucket s' = bucket s.
Proof.
  unfold delete_object_async, stored. destruct (api_delete_object _ _ _) as [r c] eqn:E.
  intros [= Hr%map_err_Ok <-]. subst r. simpl. by rewrite (api_delete_ok _ _ _ _ E).
Qed.

Lemma build_ids_ok ks : build_ids ks = Ok ks.
Proof. induction ks as [|k ks IH]; simpl; [done|]. by rewrite build_object_identifier_ok, IH. Qed.

(** A multi-delete that answers [Ok] deleted the keys that the service did
    not keep. *)
Lemma delete_many_async_ok ks s s' : delete_objects_async ks s = (Ok (), s') →
  bucket s' = bucket s ∧
  (ks = [] ∧ s' = s ∨
   ∃ kept, api_delete_objects (bucket s) ks (client s) = (inr kept, client s')
     ∧ stored s' = delete_all (filter (λ k, k ∉ kept) ks) (stored s)).
Proof.
  unfold delete_objects_async, stored. case_decide as Hks; [intros [= <-]; auto|].
  rewrite build_ids_ok. simpl. rewrite build_delete_ok by done. simpl.
  destruct (api_delete_objects _ _ _) as [[e|kept] c] eqn:E; simpl; intros [= <-].
  split; [done|right]. exists kept. simpl. by rewrite <- (api_delete_many_ok _ _ _ _ _ E).
Qed.

Lemma filter_true {A} (P : A → Prop) `{∀ x, Decision (P x)} (l : list A) : (∀ x, P x) → filter P l = l.
Proof.
  intros HP. induction l as [|x l IH]; [done|]. by rewrite filter_cons_True, IH by done.
Qed.

Lemma delete_many_async_all `{DA : !DeletesAll Svc} ks s s' : delete_objects_async ks s = (Ok (), s') →
  stored s' = delete_all ks (stored s) ∧ bucket s' = bucket s.
Proof.
  intros [Hb [[-> ->]|(kept & E & Hs)]]%delete_many_async_ok; [done|].
  rewrite (deletes_all _ _ _ _ _ E), filter_true in Hs by set_solver. done.
Qed.

(** *** Listing *)

(** The listing returns: the pages run out. *)
Lemma list_loop_total fuel p tok keys s :
  (pages_left (bucket s) p tok (client s) < fuel)%nat → is_Some (list_loop fuel p tok keys s).
Proof.
  revert tok keys s. induction fuel as [|fuel IH]; intros tok keys s Hf; [lia|]. simpl.
  destruct (api_list_objects_v2 _ _ _ _) as [[e|pg] c] eqn:E; [eauto|].
  destruct (page_more pg) eqn:Hm; [|eauto]. apply IH. simpl.
  pose proof (pages_left_lt _ _ _ _ _ _ E Hm). lia.
Qed.

Lemma list_loop_ok fuel p tok keys s ks s' : list_loop fuel p tok keys s = Some (Ok ks, s') →
  ks = foldr MemoryStore.insert_str [] (keys ++ unlisted (bucket s) p tok (client s))
  ∧ stored s' = stored s ∧ bucket s' = bucket s.
Proof.
  revert tok keys s. induction fuel as [|fuel IH]; intros tok keys s; simpl; [done|].
  pose proof (api_list_objects (bucket s) p tok (client s)) as Hc.
  destruct (api_list_objects_v2 _ _ _ _) as [[e|pg] c] eqn:E; simpl in Hc; [done|].
  rewrite (unlisted_page _ _ _ _ _ _ E). destruct (page_more pg) eqn:Hm.
  - intros (-> & Hs & Hb)%IH. rewrite Hs, Hb. unfold stored. simpl. by rewrite <- app_assoc.
  - intros [= <- <-]. unfold stored. simpl. by rewrite app_nil_r.
Qed.

Lemma list_async_ok p s ks s' : list_objects_async p s = (Ok ks, s') →
  ks = foldr MemoryStore.insert_str []
         (filter (λ k, String.prefix p k = true) (map_to_list (stored s)).*1)
  ∧ stored s' = stored s ∧ bucket s' = bucket s.
Proof.
  unfold list_objects_async. intros H.
  destruct (list_loop_total (S (pages_left (bucket s) p None (client s))) p None [] s ltac:(lia)) as [r Hr].
  rewrite Hr in H. simpl in H. subst r. apply list_loop_ok in Hr as (-> & Hs).
  split; [|done]. apply sort_unique. simpl. apply unlisted_start.
Qed.
End lemmas.

(** The client meets the trait's laws over a service that deletes every key. *)
#[export] Instance S3ClientStorage_laws {Svc} `{LAWS : S3ApiLaws Svc} `{EX : Executor} `{DA : !DeletesAll Svc}
    : ObjectStorageLaws (S3ClientStorage Svc).
Proof.
  refine {| objects := stored |}; simpl.
  - intros k d s s' H%run_ok. by apply put_async_ok in H as [? _].
  - intros k s d s' H%run_ok. by apply get_async_ok in H as [? _].
  - intros k s. unfold run_storage_future, get_object_async, stored.
    pose proof (api_get_objects (bucket s) k None (client s)) as Hc.
    destruct (api_get_object _ _ _ _). by repeat case_match.
  - intros ks s s' H%run_ok. by apply delete_many_async_all in H as [? _].
Defined.

(** ** A service to run the client against

    Buckets in memory, one key per page of a listing, and keys in [locked]
    that a multi-delete leaves behind. *)
Module Emulator.
Record Emu (locked : gset string) := mk { buckets : gmap string (gmap string bytes) }.
Arguments mk {locked}.
Arguments buckets {locked}.

Section emu.
Context {locked : gset string}.
Implicit Types c : Emu locked.

Definition objs (b : string) c : gmap string bytes := default ∅ (buckets c !! b).
Definition set_objs (b : string) (m : gmap string bytes) c : Emu locked := mk (<[b := m]> (buckets c)).

(** [<a>-<b>], after [bytes=]. *)
Fixpoint parse_bounds (acc : Z) (h : string) : option (Z * Z) :=
  match h with
  | EmptyString => None
  | String "-"%char h => stop ← parse_digits 0 h; Some (acc, stop)
  | String ch h => d ← digit ch; if decide (acc * 10 + d < 2 ^ 64) then parse_bounds (acc * 10 + d) h else None
  end.

Definition parse_range (h : string) : option (Z * Z) :=
  match h with
  | String "b" (String "y" (String "t" (String "e" (String "s" (String "=" h))))) => parse_bounds 0 h
  | _ => None
  end%char.

Definition get (b k : string) (rg : option string) c : (string + (string + bytes)) * Emu locked :=
  (match objs b c !! k with
   | None => inl "NoSuchKey"%string
   | Some d =>
       match rg ≫= parse_range with
       | None => inr (inr d)
       | Some (start, stop) =>
           if decide (start < zlen d)
           then inr (inr (take (Z.to_nat (stop + 1 - start)) (drop (Z.to_nat start) d)))
           else inl "InvalidRange"%string
       end
   end, c).

Definition keys (b p : string) c : list string :=
  foldr MemoryStore.insert_str [] (filter (λ k, String.prefix p k = true) (map_to_list (objs b c)).*1).

(** A token is as long as the part of the listing already given. *)
Definition rest (b p : string) (tok : option string) c : list string :=
  drop (String.length (default ""%string tok)) (keys b p c).

Definition list_page (b p : string) (tok : option string) c : ListPage :=
  match rest b p tok c with
  | [] => mkPage None None None
  | [k] => mkPage (Some [Some k]) (Some false) None
  | k :: _ => mkPage (Some [Some k]) (Some true) (Some (String "*" (default ""%string tok)))
  end.

Lemma rest_next b p tok ch k l c : rest b p tok c = k :: l → rest b p (Some (String ch (default ""%string tok))) c = l.
Proof.
  unfold rest. simpl. intros E. rewrite <- (Nat.add_1_r (String.length _)), <- drop_drop, E. done.
Qed.

#[export] Instance Emu_api : S3Api (Emu locked).
Proof.
  refine {| SdkError := string; sdk_display _ := "service error"%string; sdk_debug e := e;
    api_put_object b k d c := (inr (), set_objs b (<[k := d]> (objs b c)) c);
    api_get_object := get;
    api_delete_object b k c := (inr (), set_objs b (delete k (objs b c)) c);
    build_object_identifier := inr; build_delete := inr;
    api_delete_objects b ks c :=
      (inr (filter (λ k, k ∈ locked) ks),
       set_objs b (delete_all (filter (λ k, k ∉ filter (λ k, k ∈ locked) ks) ks) (objs b c)) c);
    api_list_objects_v2 b p tok c := (inr (list_page b p tok c), c);
    pages_left b p tok c := length (rest b p tok c) |}.
  intros b p tok c pg c' [= <- <-]. unfold list_page. destruct (rest b p tok c) as [|k [|k' l]] eqn:E; [done..|].
  intros _. cbn [next_continuation_token]. rewrite (rest_next _ _ _ _ _ _ _ E). simpl. lia.
Defined.

Lemma parse_bounds_app acc h v stop : parse_digits acc h = Some v →
  parse_bounds acc (h +:+ "-" +:+ stop) = stop' ← parse_digits 0 stop; Some (v, stop').
Proof.
  revert acc. induction h as [|ch h IH]; intros acc; simpl; [by intros [= ->]|].
  intros (d & Hd & H)%bind_Some. case_decide; [|done].
  destruct (decide (ch = "-"%char)) as [->|Hn]; [done|].
  transitivity (d ← digit ch; if decide (acc * 10 + d < 2 ^ 64)
    then parse_bounds (acc * 10 + d) (h +:+ "-" +:+ stop) else None).
  { repeat case_match; done. }
  rewrite Hd. simpl. rewrite decide_True by done. by apply IH.
Qed.

Lemma parse_range_header a b : in_u 64 a → in_u 64 b → parse_range (range_header a b) = Some (a, b).
Proof.
  intros Ha Hb.
  change (parse_bounds 0 (dec a +:+ "-" +:+ dec b) = Some (a, b)).
  rewrite (parse_bounds_app _ _ a) by (by apply parse_digits_dec). by rewrite parse_digits_dec.
Qed.

Lemma objs_set b m c : objs b (set_objs b m c) = m.
Proof. unfold objs, set_objs. simpl. by rewrite lookup_insert_eq. Qed.

#[export] Instance Emu_laws : S3ApiLaws (Emu locked).
Proof.
  refine {| bucket_objects := objs; unlisted := rest |}.
  - intros b k d c c' [= <-]. apply objs_set.
  - intros b k c d c' [= E _]. destruct (objs b c !! k); by simplify_eq/=.
  - intros b k a z c d c' ?? [= E _]. destruct (objs b c !! k) as [obj|]; [|done].
    cbn in E. change (parse_bounds _ _) with (parse_range (range_header a z)) in E.
    rewrite parse_range_header in E by (unfold in_u; lia). case_decide; simplify_eq. eauto.
  - done.
  - intros b k c c' [= <-]. apply objs_set.
  - intros b ks c kept c' [= <- <-]. apply objs_set.
  - done.
  - done.
  - done.
  - intros b p c. apply sort_perm.
  - intros b p tok c pg c' [= <- <-]. unfold list_page.
    destruct (rest b p tok c) as [|k [|k' l]] eqn:E; [done..|].
    change (k :: k' :: l = [k] ++ rest b p (Some (String "*" (default ""%string tok))) c).
    by rewrite (rest_next _ _ _ _ _ _ _ E).
Defined.
End emu.

#[export] Instance Emu_deletes : DeletesAll (Emu ∅).
Proof. intros b ks c kept c' [= <- _]. induction ks as [|k ks IH]; [done|]. by rewrite filter_cons_False by set_solver. Qed.

#[export] Instance no_runtime : Executor := {| runtime_context := NoRuntime; runtime_builds := true |}.

Definition empty {locked} : S3ClientStorage (Emu locked) := mkS3 (mk ∅) "oxidemq-data".
End Emulator.

(** ** The trait as seen by a caller *)
Inductive store_op :=
| SPut (key : string) (data : bytes)
| SGet (key : string)
| SRange (key : string) (start stop : Z)
| SDelete (key : string)
| SDeleteMany (keys : list string)
| SList (prefix : string).

Inductive store_out := SDone | SData (d : bytes) | SKeys (ks : list string).

(** A range that is not empty and whose end can be incremented. *)
Definition op_ok (o : store_op) : Prop :=
  match o with SRange _ start stop => 0 ≤ start ≤ stop ∧ stop < 2 ^ 64 - 1 | _ => True end.

Section trait.
Context {S : Type} `{!ObjectStorage S}.

Definition store_step (o : store_op) (s : S) : result store_out * S :=
  match o with
  | SPut k d => let '(r, s) := put_object k d s in ((λ _, SDone) <$> r, s)
  | SGet k => let '(r, s) := get_object k s in (SData <$> r, s)
  | SRange k a b => let '(r, s) := get_object_range k a b s in (SData <$> r, s)
  | SDelete k => let '(r, s) := delete_object k s in ((λ _, SDone) <$> r, s)
  | SDeleteMany ks => let '(r, s) := delete_objects ks s in ((λ _, SDone) <$> r, s)
  | SList p => let '(r, s) := list_objects p s in (SKeys <$> r, s)
  end.

(** Calls one after the other, up to the first that fails. *)
Fixpoint store_run (ops : list store_op) (s : S) : result (list store_out) * S :=
  match ops with
  | [] => (Ok [], s)
  | o :: ops =>
      match store_step o s with
      | (Ok v, s) => let '(r, s) := store_run ops s in ((v ::.) <$> r, s)
      | (Err e, s) => (Err e, s)
      | (Panic, s) => (Panic, s)
      end
  end.
End trait.

Lemma fmap_Ok {A B} (f : A → B) (r : result A) b : f <$> r = Ok b → ∃ a, r = Ok a ∧ f a = b.
Proof. destruct r; intros [= <-]. eauto. Qed.

(** The in-memory range, where it does not wrap. *)
Lemma memory_range k a b obj (m : MemoryStore.MemoryObjectStorage) :
  0 ≤ a ≤ b → b < 2 ^ 64 - 1 → MemoryStore.objs m !! k = Some obj → a < zlen obj →
  (MemoryStore.get_range k a b m).1 = Ok (take (Z.to_nat (b + 1 - a)) (drop (Z.to_nat a) obj)).
Proof.
  intros Hab Hb Hk Ha. unfold MemoryStore.get_range. rewrite Hk. cbn.
  rewrite decide_False by lia. rewrite wrap_u_small by (unfold in_u; lia).
  unfold slice. rewrite decide_True by lia. f_equal.
  destruct (decide (b + 1 ≤ zlen obj)); [by rewrite Z.min_l by lia|]. rewrite Z.min_r by lia.
  rewrite !take_ge; [done| |]; rewrite length_drop; unfold zlen in *; lia.
Qed.

Lemma memory_delete_all ks (m : MemoryStore.MemoryObjectStorage) :
  MemoryStore.objs (MemoryStore.delete_many ks m).2 = delete_all ks (MemoryStore.objs m).
Proof. apply MemoryStore.remove_objs. Qed.

#[local] Existing Instance MemoryStore.MemoryObjectStorage_storage.
#[local] Existing Instances Emulator.Emu_api Emulator.Emu_laws Emulator.Emu_deletes Emulator.no_runtime.

Section simulation.
Context {Svc : Type} `{LAWS : S3ApiLaws Svc} `{EX : Executor} `{DA : !DeletesAll Svc} `{HO : HashOrder}.
Implicit Types (s : S3ClientStorage Svc) (m : MemoryStore.MemoryObjectStorage).

Lemma store_step_simulates o s m v s' : op_ok o → stored s = MemoryStore.objs m →
  store_step o s = (Ok v, s') →
  (store_step o m).1 = Ok v ∧ stored s' = MemoryStore.objs (store_step o m).2.
Proof.
  intros Ho Hm. destruct o as [k d|k|k a b|k|ks|p]; simpl.
  - destruct (run_storage_future _ _) as [r s1] eqn:E. intros [= ([] & -> & <-)%fmap_Ok <-].
    apply run_ok, put_async_ok in E as [E _]. by rewrite E, Hm.
  - destruct (run_storage_future _ _) as [r s1] eqn:E. intros [= (d & -> & <-)%fmap_Ok <-].
    apply run_ok, get_async_ok in E as (E & Es & _). rewrite Es, <- Hm. by rewrite E.
  - destruct (run_storage_future _ _) as [r s1] eqn:E. intros [= (d & -> & <-)%fmap_Ok <-].
    apply run_ok, range_async_ok in E as ((obj & Hk & Ha & ->) & Es & _); [|destruct Ho; lia..].
    rewrite Es. rewrite Hm in Hk. pose proof (memory_range k a b obj m ltac:(apply Ho) ltac:(apply Ho) Hk Ha) as Hr.
    split; [|by rewrite Hm]. exact (f_equal (fmap SData) Hr).
  - destruct (run_storage_future _ _) as [r s1] eqn:E. intros [= ([] & -> & <-)%fmap_Ok <-].
    apply run_ok, delete_async_ok in E as [E _]. by rewrite E, Hm.
  - destruct (run_storage_future _ _) as [r s1] eqn:E. intros [= ([] & -> & <-)%fmap_Ok <-].
    apply run_ok, delete_many_async_all in E as [E _]. split; [done|]. by rewrite E, Hm, <- memory_delete_all.
  - destruct (run_storage_future _ _) as [r s1] eqn:E. intros [= (ks & -> & <-)%fmap_Ok <-].
    apply run_ok, list_async_ok in E as (-> & Es & _). rewrite Es, Hm. split; [|done].
    do 2 f_equal. apply sort_unique. by rewrite hash_iter_perm.
Qed.

End simulation.

(** Calls that reach every operation, with a listing of two pages. *)
Definition sample_ops : list store_op :=
  [SPut "streams/2" [x61; x62; x63]; SPut "streams/1" [x64]; SPut "wal/1" [x65]; SRange "streams/2" 1 9;
   SList "streams/"; SDeleteMany ["streams/2"; "wal/1"]; SGet "streams/1"; SDelete "streams/1"; SList ""]%string.


(** ** Where the client does not tell what happened *)

(** A multi-delete answers [Ok] whatever the service reports per key, and the
    keys that it reports are still there. *)
Theorem s3_partial_delete_unnoticed {Svc} `{LAWS : S3ApiLaws Svc} ks (s : S3ClientStorage Svc) kept c k :
  ks ≠ [] → api_delete_objects (bucket s) ks (client s) = (inr kept, c) → k ∈ kept →
  delete_objects_async ks s = (Ok (), mkS3 c (bucket s))
  ∧ bucket_objects (bucket s) c !! k = stored s !! k.
Proof.
  intros Hks E Hk. split.
  - unfold delete_objects_async. rewrite decide_False by done.
    rewrite build_ids_ok. simpl. rewrite build_delete_ok by done. simpl. by rewrite E.
  - rewrite (api_delete_many_ok _ _ _ _ _ E). unfold stored.
    generalize (bucket_objects (bucket s) (client s)). clear E Hks.
    induction ks as [|k' ks IH]; intros m; [done|]. destruct (decide (k' ∈ kept)) as [Hk'|Hk'].
    + rewrite filter_cons_False by naive_solver. apply IH.
    + rewrite filter_cons_True by done.
      change (delete_all (filter (λ k, k ∉ kept) ks) (delete k' m) !! k = m !! k).
      rewrite IH, lookup_delete_ne; [done|]. set_solver.
Qed.

Lemma s3_partial_delete_unnoticed_witness :
  let s := mkS3 (Emulator.mk (locked := {["a"%string]}) {["b" := {["a" := [x61]]}]}) "b"%string in
  (delete_objects_async ["a"%string] s).1 = Ok ().
Proof.
  simpl. refine (f_equal fst (proj1 (s3_partial_delete_unnoticed ["a"%string]
    (mkS3 (Emulator.mk (locked := {["a"%string]}) {["b" := {["a" := [x61]]}]}) "b"%string)
    ["a"%string] _ "a"%string _ _ _))); [done|vm_compute; reflexivity|set_solver].
Defined.

(** *** The retrying decorator over this client *)
Definition transient_marks : list string := ["503"; "SlowDown"; "RateLimit"; "TooManyRequests"]%string.

Lemma is_transient_marks e :
  is_transient e = existsb (λ w, str_contains w (error_to_string e)) transient_marks.
Proof. unfold is_transient. simpl. by rewrite orb_false_r, !orb_assoc. Qed.

Fixpoint lacks (q : ascii) (s : string) : bool :=
  match s with EmptyString => true | String c s => bool_decide (c ≠ q) && lacks q s end.

Lemma prefix_sep q w a b : lacks q w = true → String.prefix w (a +:+ String q b) = String.prefix w a.
Proof.
  revert a. induction w as [|c w IH]; intros a; [by destruct a|]. simpl.
  intros [Hc%bool_decide_eq_true Hw]%andb_true_iff. destruct a as [|c' a]; simpl.
  - by destruct (ascii_dec c q).
  - destruct (ascii_dec c c'); [by apply IH|done].
Qed.

(** A word without the separator is on one side of it. *)
Lemma str_contains_sep q w a b : lacks q w = true → w ≠ ""%string →
  str_contains w (a +:+ String q b) = str_contains w a || str_contains w b.
Proof.
  intros Hq Hw. induction a as [|c a IH].
  - pose proof (prefix_sep q w "" b Hq) as Hp. simpl in *. rewrite Hp.
    destruct w; [done|]. done.
  - change (str_contains w (String c (a +:+ String q b)) = str_contains w (String c a) || str_contains w b).
    cbn [str_contains]. rewrite IH. pose proof (prefix_sep q w (String c a) b Hq) as Hp.
    change (String c a +:+ String q b) with (String c (a +:+ String q b)) in Hp. rewrite Hp.
    by rewrite orb_assoc.
Qed.

Lemma retry_definitive {St T} (op : St → result T * St) n backoff s e s' :
  op s = (Err e, s') → is_transient e = false → Retry.retry_loop op n backoff s = (Err e, s', []).
Proof. intros Hop He. destruct n; simpl; rewrite Hop; [done|]. by rewrite He. Qed.

Definition put_error (key text : string) : OxideMqError :=
  EStorage ("S3 PutObject error for key '" +:+ key +:+ "': " +:+ text).

(** An upload error is transient only through its key or the SDK's text. *)
Lemma put_error_transient key text :
  is_transient (put_error key text)
  = existsb (λ w, str_contains w key || str_contains w (": " +:+ text)) transient_marks.
Proof.
  rewrite is_transient_marks. unfold transient_marks. cbn [existsb].
  assert (∀ w, lacks "'" w = true → w ≠ ""%string →
    str_contains w "Storage engine error: S3 PutObject error for key " = false →
    str_contains w (error_to_string (put_error key text)) = str_contains w key || str_contains w (": " +:+ text)) as H.
  { intros w Hq Hw H0.
    change (error_to_string (put_error key text)) with
      ("Storage engine error: S3 PutObject error for key " +:+ String "'" (key +:+ String "'" (": " +:+ text))).
    by rewrite !str_contains_sep, H0. }
  by rewrite !H by (done || (vm_compute; reflexivity)).
Qed.

(** The SDK's [SdkError] displays as the kind of the failure and not as the
    answer of the service, so that an upload which the service throttles (503
    SlowDown) fails at once: the decorator makes one attempt, whatever
    [max_retries] is. *)
Theorem s3_throttling_not_retried {Svc} `{API : S3Api Svc} `{EX : Executor} key data
    (r : Retry.RetryableObjectStorage (S3ClientStorage Svc)) e c :
  runtime_builds = true →
  api_put_object (bucket (Retry.inner r)) key data (client (Retry.inner r)) = (inl e, c) →
  sdk_display e = "service error"%string →
  existsb (λ w, str_contains w key) transient_marks = false →
  Retry.execute_with_retry (put_object key data) r
  = (Err (put_error key "service error"),
     Retry.mk (mkS3 c (bucket (Retry.inner r))) (Retry.max_retries r) (Retry.base_backoff_ms r)).
Proof.
  intros Hrt E He Hk.
  assert (is_transient (put_error key "service error") = false) as Ht.
  { rewrite put_error_transient. unfold transient_marks in *. cbn [existsb] in *.
    repeat (apply orb_false_iff in Hk as [? Hk]).
    rewrite !orb_false_iff. split_and!; done. }
  assert (put_object key data (Retry.inner r) = (Err (put_error key "service error"), mkS3 c (bucket (Retry.inner r)))) as Hp.
  { cbn. unfold run_storage_future. rewrite Hrt. unfold put_object_async. rewrite E. simpl. rewrite He.
    by destruct runtime_context. }
  unfold Retry.execute_with_retry. by rewrite (retry_definitive _ _ _ _ _ _ Hp Ht).
Qed.

(** A service that throttles every request. *)
Definition throttled : S3Api unit.
Proof.
  refine {| SdkError := unit; sdk_display _ := "service error"%string; sdk_debug _ := "503 SlowDown"%string;
    api_put_object _ _ _ c := (inl (), c); api_get_object _ _ _ c := (inl (), c);
    api_delete_object _ _ c := (inl (), c); build_object_identifier := inr; build_delete := inr;
    api_delete_objects _ _ c := (inl (), c); api_list_objects_v2 _ _ _ c := (inl (), c);
    pages_left _ _ _ _ := O |}.
  done.
Defined.

Lemma s3_throttling_not_retried_witness :
  (Retry.execute_with_retry
     (put_object (ObjectStorage := @S3ClientStorage_storage () throttled Emulator.no_runtime) "k"%string [x61])
     (Retry.mk (mkS3 () "b"%string) 3 100)).1
  = Err (put_error "k" "service error").
Proof.
  refine (f_equal fst (s3_throttling_not_retried (API := throttled) "k"%string [x61]
    (Retry.mk (mkS3 () "b"%string) 3 100) () () _ _ _ _)); [done..|vm_compute; reflexivity].
Defined.
