(* ===== verification/Stream.v ===== *)
(** * Streams over WAL and object storage

    [crates/oxidemq-s3stream/src/stream.rs], [uploader.rs] and [compactor.rs].
    The WAL, the object store and the two caches are shared by all streams:
    they form a [World] that every operation threads; a stream's own state is
    its offsets and its list of uploaded objects.  Definitions and theorems
    are for any WAL and any object store ([WalEngine], [ObjectStorage]). *)

From Stdlib Require Import Strings.Byte.
From stdpp Require Import base numbers list gmap strings sorting fin_maps.
From S2P Require Import Prelude Bytes Crc CoreTypes WalFrame Wal WalSegment S3Format.
From S2P Require Import LogCache BlockCache ObjectStore.

Record S3ObjectMeta := mkMeta {
  m_key : string;
  m_start_offset : Z;
  m_end_offset : Z;
  m_record_count : Z;
  m_size_bytes : Z }.

Record S3Stream := mkStream {
  s_stream_id : Z;
  s_start_offset : Z;
  s_next_offset : Z;
  s3_objects : list S3ObjectMeta }.

Record World (W S : Type) := mkWorld {
  wal : W;
  storage : S;
  log_cache : LC.LogCache;
  block_cache : BC.BlockCache }.
Arguments mkWorld {W S}.
Arguments wal {W S}.
Arguments storage {W S}.
Arguments log_cache {W S}.
Arguments block_cache {W S}.

Definition stream_new (sid start : Z) : S3Stream := mkStream sid start start [].

Section ops.
Context `{HO : HashOrder} {W St : Type} `{!WalEngine W, !ObjectStorage St}.
Abbreviation world := (World W St).

Definition set_wal (x : W) (w : world) : world :=
  mkWorld x (storage w) (log_cache w) (block_cache w).
Definition set_storage (x : St) (w : world) : world :=
  mkWorld (wal w) x (log_cache w) (block_cache w).
Definition set_log_cache (x : LC.LogCache) (w : world) : world :=
  mkWorld (wal w) (storage w) x (block_cache w).
Definition set_block_cache (x : BC.BlockCache) (w : world) : world :=
  mkWorld (wal w) (storage w) (log_cache w) x.

Definition set_start (o : Z) (s : S3Stream) : S3Stream :=
  mkStream (s_stream_id s) o (s_next_offset s) (s3_objects s).
Definition set_next (o : Z) (s : S3Stream) : S3Stream :=
  mkStream (s_stream_id s) (s_start_offset s) o (s3_objects s).
Definition set_objects (l : list S3ObjectMeta) (s : S3Stream) : S3Stream :=
  mkStream (s_stream_id s) (s_start_offset s) (s_next_offset s) l.

(** The compare-and-swap loop succeeds at once when nobody interferes. *)
Definition advance_start_offset (new_start : Z) (s : S3Stream) (w : world) : Z * S3Stream * world :=
  if decide (new_start > s_start_offset s) then
    (new_start, set_start new_start s,
     set_log_cache (LC.trim (s_stream_id s) new_start (log_cache w)) w)
  else (s_start_offset s, s, w).

Definition append_with_count (payload : bytes) (record_count : Z) (s : S3Stream) (w : world)
    : result Z * S3Stream * world :=
  let count := Z.max record_count 1 in
  let offset := s_next_offset s in
  let s := set_next (i64 (offset + count)) s in
  match wal_append (s_stream_id s) offset payload (wal w) with
  | (Ok _, wl) =>
      let w := set_wal wl w in
      let w := set_log_cache (LC.put (s_stream_id s) offset payload (log_cache w)) w in
      (Ok offset, s, w)
  | (Err e, wl) => (Err e, s, set_wal wl w)
  | (Panic, wl) => (Panic, s, set_wal wl w)
  end.

Definition append (payload : bytes) (s : S3Stream) (w : world) : result Z * S3Stream * world :=
  append_with_count payload 1 s w.

(** The loop over the decoded blocks of a fetched object: every block enters
    the block cache, the last one of this stream that starts at the object's
    start offset is the answer. *)
Definition cache_block (key : string) (sid start : Z)
    (acc : BC.BlockCache * option bytes) (b : S3DataBlock)
    : BC.BlockCache * option bytes :=
  (BC.put (BC.mkKey key (b_stream_id b) (b_start_offset b)) (b_data b) acc.1,
   if decide (b_stream_id b = sid ∧ b_start_offset b = start) then Some (b_data b) else acc.2).

(** The first uploaded object whose range contains the offset. *)
Definition covering (o : Z) (l : list S3ObjectMeta) : option S3ObjectMeta :=
  head (filter (λ m, o ≥ m_start_offset m ∧ o ≤ m_end_offset m) l).

(** Reading the block of an uploaded object through the block cache. *)
Definition fetch_object (sid : Z) (meta : S3ObjectMeta) (w : world) : result bytes * world :=
  let block_key := BC.mkKey (m_key meta) sid (m_start_offset meta) in
  let '(cached, bc) := BC.get block_key (block_cache w) in
  let w := set_block_cache bc w in
  match cached with
  | Some cached_bytes => (Ok cached_bytes, w)
  | None =>
      let '(raw_obj, st) := get_object (m_key meta) (storage w) in
      let w := set_storage st w in
      match raw_obj with
      | Err e => (Err e, w)
      | Panic => (Panic, w)
      | Ok raw =>
          match decode_all raw with
          | Err e => (Err e, w)
          | Panic => (Panic, w)
          | Ok decoded_blocks =>
              let '(bc, found_data) :=
                foldl (cache_block (m_key meta) sid (m_start_offset meta))
                      (block_cache w, None) decoded_blocks in
              (ok_or found_data (EStorage ("Block not found in S3 object " +:+ m_key meta)),
               set_block_cache bc w)
          end
      end
  end.

Definition fetch (start max : Z) (s : S3Stream) (w : world)
    : result (list (Z * bytes)) * world :=
  if decide (start < s_start_offset s ∨ start ≥ s_next_offset s) then (Ok [], w) else
  let '(cached, lc) := LC.read_range (s_stream_id s) start max (log_cache w) in
  let w := set_log_cache lc w in
  match cached with
  | Some cached_records => (Ok cached_records, w)
  | None =>
      match covering start (s3_objects s) with
      | None => (Ok [], w)
      | Some meta =>
          let '(block_data, w) := fetch_object (s_stream_id s) meta w in
          (data ← block_data; Ok [(m_start_offset meta, data)], w)
      end
  end.

Definition object_key (sid start stop : Z) : string :=
  "streams/" +:+ dec sid +:+ "/" +:+ dec0 20 start +:+ "_" +:+ dec0 20 stop +:+ ".data".

Definition upload_batch (start stop : Z) (records : list bytes) (s : S3Stream) (w : world)
    : result string * S3Stream * world :=
  match records with
  | [] => (Ok "", s, w)
  | _ =>
      let record_count := u32 (zlen records) in
      let combined_payload := concat records in
      let block := mkBlock (s_stream_id s) start stop record_count combined_payload in
      let object_payload := encode_object [block] in
      let key := object_key (s_stream_id s) start stop in
      let size_bytes := zlen object_payload in
      match put_object key object_payload (storage w) with
      | (Ok _, st) =>
          let w := set_storage st w in
          let s := set_objects (s3_objects s ++ [mkMeta key start stop record_count size_bytes]) s in
          let '(_, wl) := wal_trim (s_stream_id s) start (wal w) in
          (Ok key, s, set_wal wl w)
      | (Err e, st) => (Err e, s, set_storage st w)
      | (Panic, st) => (Panic, s, set_storage st w)
      end
  end.

Definition s3_object_count (s : S3Stream) : Z := zlen (s3_objects s).

(** [S3StreamStorage::trim] *)
Definition trim (new_start : Z) (s : S3Stream) (w : world) : result unit * S3Stream * world :=
  let s := set_start new_start s in
  let w := set_log_cache (LC.trim (s_stream_id s) new_start (log_cache w)) w in
  let '(r, wl) := wal_trim (s_stream_id s) new_start (wal w) in
  let w := set_wal wl w in
  match r with
  | Err e => (Err e, s, w)
  | Panic => (Panic, s, w)
  | Ok _ =>
      let retained := filter (λ m, ¬ m_end_offset m < new_start) (s3_objects s) in
      let to_delete := m_key <$> filter (λ m, m_end_offset m < new_start) (s3_objects s) in
      let s := set_objects retained s in
      match to_delete with
      | [] => (Ok (), s, w)
      | _ =>
          let '(r, st) := delete_objects to_delete (storage w) in
          (r, s, set_storage st w)
      end
  end.

(** ** [BatchUploader] *)
Record BatchUploader := mkUploader { total_bytes_uploaded : Z; total_batches_uploaded : Z }.

Definition uploader_new : BatchUploader := mkUploader 0 0.

Definition upload (start stop : Z) (records : list bytes) (u : BatchUploader) (s : S3Stream) (w : world)
    : result string * BatchUploader * S3Stream * world :=
  let total := foldr Z.add 0 (zlen <$> records) in
  match upload_batch start stop records s w with
  | (Ok key, s, w) =>
      (Ok key, mkUploader (u64 (total_bytes_uploaded u + total))
                          (u64 (total_batches_uploaded u + 1)), s, w)
  | (Err e, s, w) => (Err e, u, s, w)
  | (Panic, s, w) => (Panic, u, s, w)
  end.

(** ** [StreamCompactor] *)
Record merged := mkMerged {
  merged_blocks : list S3DataBlock;
  keys_to_delete : list string;
  min_offset : Z;
  max_offset : Z;
  total_records : Z }.

Definition merge_block (m : merged) (b : S3DataBlock) : merged :=
  mkMerged (merged_blocks m ++ [b]) (keys_to_delete m)
    (if decide (b_start_offset b < min_offset m) then b_start_offset b else min_offset m)
    (if decide (b_end_offset b > max_offset m) then b_end_offset b else max_offset m)
    (u32 (total_records m + b_record_count b)).

Fixpoint merge_objects (objs : list S3ObjectMeta) (m : merged) (st : St) : result merged * St :=
  match objs with
  | [] => (Ok m, st)
  | meta :: objs' =>
      match get_object (m_key meta) st with
      | (Ok raw_data, st) =>
          match decode_all raw_data with
          | Ok blocks =>
              let m := foldl merge_block m blocks in
              merge_objects objs'
                (mkMerged (merged_blocks m) (keys_to_delete m ++ [m_key meta])
                          (min_offset m) (max_offset m) (total_records m)) st
          | Err e => (Err e, st)
          | Panic => (Panic, st)
          end
      | (Err e, st) => (Err e, st)
      | (Panic, st) => (Panic, st)
      end
  end.

Definition compacted_key (sid start stop : Z) : string :=
  "streams/" +:+ dec sid +:+ "/" +:+ dec0 20 start +:+ "_" +:+ dec0 20 stop +:+ ".compacted.data".

Definition compact_stream (target_object_size : Z) (s : S3Stream) (w : world)
    : result (option S3ObjectMeta) * S3Stream * world :=
  let objs := filter (λ m, m_size_bytes m < target_object_size) (s3_objects s) in
  if decide (zlen objs < 2) then (Ok None, s, w) else
  match merge_objects objs (mkMerged [] [] i64_max i64_min 0) (storage w) with
  | (Err e, st) => (Err e, s, set_storage st w)
  | (Panic, st) => (Panic, s, set_storage st w)
  | (Ok m, st) =>
      let w := set_storage st w in
      match merged_blocks m with
      | [] => (Ok None, s, w)
      | _ =>
          let merged_bytes := encode_object (merged_blocks m) in
          let key := compacted_key (s_stream_id s) (min_offset m) (max_offset m) in
          let size_bytes := zlen merged_bytes in
          match put_object key merged_bytes (storage w) with
          | (Err e, st) => (Err e, s, set_storage st w)
          | (Panic, st) => (Panic, s, set_storage st w)
          | (Ok _, st) =>
              let w := set_storage st w in
              let compacted_meta :=
                mkMeta key (min_offset m) (max_offset m) (total_records m) size_bytes in
              let kept := filter (λ x, m_key x ∉ keys_to_delete m) (s3_objects s) in
              let s := set_objects (sort_by_key m_start_offset (kept ++ [compacted_meta])) s in
              match delete_objects (keys_to_delete m) (storage w) with
              | (Err e, st) => (Err e, s, set_storage st w)
              | (Panic, st) => (Panic, s, set_storage st w)
              | (Ok _, st) => (Ok (Some compacted_meta), s, set_storage st w)
              end
          end
      end
  end.
End ops.

(** ** Lemmas *)
Section lemmas.
Context `{HO : HashOrder} {W St : Type}.
Context `{!WalEngine W, !WalEngineLaws W, !ObjectStorage St, !ObjectStorageLaws St}.
Abbreviation world := (World W St).
Implicit Types w : world.

(** The log cache can hold one more record and all its offsets are far from
    the ends of the [i64] range. *)
Record cache_ok (c : LC.LogCache) (extra : Z) : Prop := {
  co_wf : LC.wf c;
  co_fits : extra + LC.total (LC.streams c) < 2 ^ 64;
  co_offs : ∀ s o d, LC.entry (LC.streams c) s o = Some d → i64_min ≤ o < i64_max }.

Lemma append_inv payload n s w o s' w' : append_with_count payload n s w = (Ok o, s', w') →
  o = s_next_offset s ∧ s' = set_next (i64 (o + Z.max n 1)) s ∧
  ∃ r wl, wal_append (s_stream_id s) o payload (wal w) = (Ok r, wl) ∧
    w' = set_log_cache (LC.put (s_stream_id s) o payload (log_cache w)) (set_wal wl w).
Proof.
  unfold append_with_count. cbn [s_stream_id set_next].
  destruct (wal_append _ _ payload (wal w)) as [[r|e|] wl] eqn:Hw; intros [= <- <- <-].
  split_and!; [done|done|]. by exists r, wl.
Qed.

Lemma cache_after_put c sid off payload : cache_ok c (zlen payload) → i64_min ≤ off < i64_max →
  LC.entry (LC.streams (LC.put sid off payload c)) sid off = Some payload ∧
  ∀ s o d, LC.entry (LC.streams (LC.put sid off payload c)) s o = Some d → i64_min ≤ o < i64_max.
Proof.
  intros [Hwf Hfit Hoff] Ho. pose proof (zlen_nonneg payload).
  destruct (LC.put_spec sid off payload c Hwf) as (_ & _ & H1 & H2 & _);
    [unfold LC.fits; lia|lia|]. split; [done|].
  intros s o d He. destruct (decide ((s, o) = (sid, off))) as [[= -> ->]|Hne]; [done|].
  by eapply Hoff, H2.
Qed.

Lemma read_range_head c sid o max d :
  (∀ o' d', LC.entry (LC.streams c) sid o' = Some d' → i64_min ≤ o' < i64_max) →
  LC.entry (LC.streams c) sid o = Some d →
  ∃ rest, (LC.read_range sid o max c).1 = Some ((o, d) :: rest).
Proof.
  intros Hr He. pose proof (LC.read_range_spec sid o max c Hr) as H.
  destruct (LC.read_range sid o max c).1 as [l|]; [|congruence].
  destruct H as (Hne & Hk & Hin & _). destruct l as [|[o' d'] l]; [done|].
  rewrite fmap_cons, zlen_cons in Hk. pose proof (zlen_nonneg l).
  rewrite (seqZ_cons o) in Hk by lia. injection Hk as Ho _. simpl in Ho. subst o'.
  exists l. specialize (Hin o d' ltac:(set_solver)). congruence.
Qed.

(** The blocks that an object in the store holds. *)
Definition object_blocks (st : St) (key : string) (bs : list S3DataBlock) : Prop :=
  ∃ raw, objects st !! key = Some raw ∧ decode_all raw = Ok bs.

Lemma merge_blocks_fold bs m :
  merged_blocks (foldl merge_block m bs) = merged_blocks m ++ bs
  ∧ keys_to_delete (foldl merge_block m bs) = keys_to_delete m.
Proof.
  revert m. induction bs as [|b bs IH]; intros m; simpl; [by rewrite app_nil_r|].
  destruct (IH (merge_block m b)) as [-> ->]. simpl. by rewrite <- app_assoc.
Qed.

Lemma merge_objects_spec objs m st m' st' : merge_objects objs m st = (Ok m', st') →
  objects st' = objects st ∧ keys_to_delete m' = keys_to_delete m ++ (m_key <$> objs) ∧
  ∃ bss, Forall2 (λ meta bs, object_blocks st (m_key meta) bs) objs bss
       ∧ merged_blocks m' = merged_blocks m ++ concat bss.
Proof.
  revert m st. induction objs as [|meta objs IH]; intros m st; simpl.
  { intros [= <- <-]. rewrite !app_nil_r. split_and!; [done|done|]. exists []. by rewrite app_nil_r. }
  pose proof (get_object_objects (m_key meta) st) as Hst.
  destruct (get_object (m_key meta) st) as [[raw|e|] st1] eqn:Hg; try done. simpl in Hst.
  destruct (decode_all raw) as [bs|e|] eqn:Hd; try done. intros Hm.
  apply IH in Hm as (H1 & H2 & bss & H3 & H4). cbn [keys_to_delete merged_blocks] in *.
  destruct (merge_blocks_fold bs m) as [E1 E2]. rewrite E2 in H2. rewrite E1 in H4.
  split_and!; [congruence|by rewrite H2, <- app_assoc|].
  exists (bs :: bss). split; [|by rewrite H4, <- app_assoc]. constructor.
  - exists raw. split; [by eapply get_object_ok|done].
  - eapply Forall2_impl; [done|]. intros meta' bs' (raw' & Hr & ?). exists raw'. by rewrite <- Hst.
Qed.

Lemma delete_all_lookup keys (m : gmap string bytes) k :
  delete_all keys m !! k = if decide (k ∈ keys) then None else m !! k.
Proof.
  unfold delete_all. revert m. induction keys as [|k0 keys IH]; intros m; [done|]. simpl.
  rewrite IH. destruct (decide (k ∈ keys)) as [Hin|Hin].
  - by rewrite decide_True by set_solver.
  - destruct (decide (k = k0)) as [->|]; [by rewrite lookup_delete_eq, decide_True by set_solver|].
    rewrite lookup_delete_ne by done. by rewrite decide_False by set_solver.
Qed.

(** ** Historical reads *)

(** The data a list of blocks has for a stream at a start offset. *)
Definition block_at (sid start : Z) (bs : list S3DataBlock) : option bytes :=
  foldl (λ acc b, if decide (b_stream_id b = sid ∧ b_start_offset b = start)
                  then Some (b_data b) else acc) None bs.

Lemma evict_sub max need lru es cur k d :
  (BC.evict max need lru es cur).1.2 !! k = Some d → es !! k = Some d.
Proof.
  revert es cur. induction lru as [|x lru IH]; intros es cur; simpl; [done|].
  case_decide; [|done]. destruct (es !! x) eqn:Hx; [|apply IH].
  intros Hx2%IH. by apply lookup_delete_Some in Hx2 as [_ ?].
Qed.

Lemma block_put_lookup k d c k' x : BC.entries (BC.put k d c) !! k' = Some x →
  (k' = k ∧ x = d) ∨ (k' ≠ k ∧ BC.entries c !! k' = Some x).
Proof.
  unfold BC.put. pose proof (evict_sub (BC.max_bytes c) (zlen d) (BC.lru_order c) (BC.entries c)
    (BC.current_bytes c) k' x) as He.
  destruct (BC.evict _ _ _ _ _) as [[lru es] cur]. simpl in He.
  destruct (es !! k); simpl; rewrite lookup_insert_Some; naive_solver.
Qed.

Lemma block_get_entries k c : BC.entries (BC.get k c).2 = BC.entries c ∧ (BC.get k c).1 = BC.entries c !! k.
Proof. unfold BC.get. by case_match. Qed.

(** Every cached block is the one its object holds. *)
Definition coherent w : Prop :=
  ∀ key sid start d, BC.entries (block_cache w) !! BC.mkKey key sid start = Some d →
    ∃ bs, object_blocks (storage w) key bs ∧ block_at sid start bs = Some d.

Lemma block_at_snoc sid start bs b : block_at sid start (bs ++ [b]) =
  if decide (b_stream_id b = sid ∧ b_start_offset b = start) then Some (b_data b)
  else block_at sid start bs.
Proof. unfold block_at. by rewrite foldl_app. Qed.

Lemma cache_blocks_spec key sid start bc bs :
  let '(bc', found) := foldl (cache_block key sid start) (bc, None) bs in
  found = block_at sid start bs ∧
  ∀ k x, BC.entries bc' !! k = Some x →
    (BC.object_key k = key ∧ block_at (BC.key_stream_id k) (BC.key_start_offset k) bs = Some x)
    ∨ BC.entries bc !! k = Some x.
Proof.
  induction bs as [|b bs IH] using rev_ind; [split; [done|by right]|].
  rewrite foldl_app. simpl. destruct (foldl _ _ bs) as [bc' found]. destruct IH as [-> IH].
  unfold cache_block. simpl. split; [by rewrite block_at_snoc|].
  intros k x [[-> ->]|[Hne Hk]]%block_put_lookup.
  - left. simpl. split; [done|]. by rewrite block_at_snoc, decide_True.
  - apply IH in Hk as [[Hk Hb]|Hk]; [|by right]. left. split; [done|].
    rewrite block_at_snoc, decide_False; [done|]. intros [E1 E2]. apply Hne.
    destruct k. simpl in *. by subst.
Qed.

Lemma fetch_object_spec sid meta w bs d : coherent w →
  object_blocks (storage w) (m_key meta) bs → block_at sid (m_start_offset meta) bs = Some d →
  (∃ raw, (get_object (m_key meta) (storage w)).1 = Ok raw) →
  (fetch_object sid meta w).1 = Ok d ∧ coherent (fetch_object sid meta w).2
  ∧ objects (storage (fetch_object sid meta w).2) = objects (storage w).
Proof.
  intros Hc (raw & Hraw & Hbs) Hd [raw' Hget]. unfold fetch_object.
  set (k := BC.mkKey (m_key meta) sid (m_start_offset meta)).
  pose proof (block_get_entries k (block_cache w)) as [He Hg].
  destruct (BC.get k (block_cache w)) as [cached bc]. simpl in He, Hg.
  pose proof (get_object_objects (m_key meta) (storage w)) as Hst.
  destruct cached as [d'|].
  - simpl. split_and!; [| |done].
    + symmetry in Hg. destruct (Hc _ _ _ _ Hg) as (bs' & (raw2 & Hr2 & Hb2) & Hd').
      rewrite Hraw in Hr2. injection Hr2 as <-. rewrite Hbs in Hb2. injection Hb2 as <-. congruence.
    + intros key sid' start d2 Hk. simpl in Hk. rewrite He in Hk. by apply Hc.
  - simpl. destruct (get_object (m_key meta) (storage w)) as [r st] eqn:Hgo. simpl in Hst, Hget.
    subst r. apply get_object_ok in Hgo. rewrite Hraw in Hgo. injection Hgo as <-. rewrite Hbs.
    pose proof (cache_blocks_spec (m_key meta) sid (m_start_offset meta) bc bs) as Hcb.
    simpl. destruct (foldl _ _ bs) as [bc' found]. destruct Hcb as [-> Hcb]. rewrite Hd. simpl.
    split_and!; [done| |done]. intros key sid' start d2 Hk. simpl in Hk. apply Hcb in Hk as [[Hk Hb]|Hk].
    + simpl in Hk, Hb. subst key. exists bs. split; [|done]. exists raw. simpl. by rewrite Hst.
    + rewrite He in Hk. destruct (Hc _ _ _ _ Hk) as (bs' & (raw2 & Hr2 & Hb2) & Hd').
      exists bs'. split; [|done]. exists raw2. simpl. by rewrite Hst.
Qed.
End lemmas.

(** ** Theorems *)
Section theorems.
Context `{HO : HashOrder} {W St : Type}.
Context `{!WalEngine W, !WalEngineLaws W, !ObjectStorage St, !ObjectStorageLaws St}.
Abbreviation world := (World W St).
Implicit Types w : world.

Lemma append_fetch_spec payload n s w o s' w' max :
  append_with_count payload n s w = (Ok o, s', w') →
  wal_inv (wal w) → in_u 64 (s_stream_id s) → in_u 32 (zlen payload) →
  cache_ok (log_cache w) (zlen payload) →
  i64_min ≤ s_start_offset s ≤ s_next_offset s → s_next_offset s + Z.max n 1 < i64_max →
  o = s_next_offset s ∧ s_next_offset s' = s_next_offset s + Z.max n 1
  ∧ (∃ r, wal_append (s_stream_id s) o payload (wal w) = (Ok r, wal w')
        ∧ Forall (λ rec, seq rec < r) (wal_contents (wal w))
        ∧ (0 ≤ r < 2 ^ 64 - 2 →
           wal_contents (wal w') = wal_contents (wal w) ++ [mkWal r (s_stream_id s) o payload]))
  ∧ ∃ rest, (fetch o max s' w').1 = Ok ((o, payload) :: rest).
Proof.
  intros Ha Hwi Hsid Hlen Hc Hst Hn. apply append_inv in Ha as (-> & -> & r & wl & Hw & ->).
  set (o := s_next_offset s) in *.
  assert (in_s 64 o) as Ho64
    by (unfold in_s, i64_min, i64_max in *; change (64 - 1) with 63; lia).
  assert (i64 (o + Z.max n 1) = o + Z.max n 1) as Hnext.
  { apply wrap_s_small; [lia|]. unfold in_s, i64_min, i64_max in *. change (64 - 1) with 63. lia. }
  split_and!; [done|done| |].
  - exists r. split_and!; [done|by eapply wal_append_fresh|].
    intros Hr. by eapply wal_append_inv.
  - destruct (cache_after_put (log_cache w) (s_stream_id s) o payload Hc) as [He Hoff]; [lia|].
    destruct (read_range_head _ (s_stream_id s) o max payload (Hoff (s_stream_id s)) He) as [rest Hr].
    exists rest. unfold fetch. cbn [s_start_offset s_next_offset set_next s_stream_id].
    rewrite decide_False by (rewrite Hnext; lia). cbn [log_cache set_log_cache].
    destruct (LC.read_range (s_stream_id s) o max _) as [l lc]. simpl in Hr. by rewrite Hr.
Qed.

(** A successful append.  Whatever WAL engine is used, the returned offset
    is the stream's old next offset, the next offset advances by the record
    count (at least one), the WAL now ends with exactly this record under a
    sequence number larger than all earlier ones, and a fetch at the returned
    offset starts with the payload. *)
Theorem stream_append_then_fetch payload n s w o s' w' max :
  append_with_count payload n s w = (Ok o, s', w') →
  wal_inv (wal w) → in_u 64 (s_stream_id s) → in_u 32 (zlen payload) →
  cache_ok (log_cache w) (zlen payload) →
  i64_min ≤ s_start_offset s ≤ s_next_offset s → s_next_offset s + Z.max n 1 < i64_max →
  o = s_next_offset s ∧ s_next_offset s' = s_next_offset s + Z.max n 1
  ∧ (∃ r, wal_append (s_stream_id s) o payload (wal w) = (Ok r, wal w')
        ∧ Forall (λ rec, seq rec < r) (wal_contents (wal w))
        ∧ (0 ≤ r < 2 ^ 64 - 2 →
           wal_contents (wal w') = wal_contents (wal w) ++ [mkWal r (s_stream_id s) o payload]))
  ∧ ∃ rest, (fetch o max s' w').1 = Ok ((o, payload) :: rest).
Proof. apply append_fetch_spec. Qed.

(** A failed append returns the WAL's error and caches nothing, but the
    offsets it reserved stay reserved. *)
Lemma stream_append_error payload n s w e wl :
  wal_append (s_stream_id s) (s_next_offset s) payload (wal w) = (Err e, wl) →
  append_with_count payload n s w =
    (Err e, set_next (i64 (s_next_offset s + Z.max n 1)) s, set_wal wl w).
Proof. intros Hw. unfold append_with_count. cbn [s_stream_id set_next]. by rewrite Hw. Qed.

(** C29: historical reads.  When the block cache is coherent with the store, a
    fetch that misses the log cache and whose offset lies in an uploaded
    object that holds a block of this stream at the object's start offset
    returns exactly that block, whether from the cache or from the store, and
    leaves the cache coherent. *)
Theorem stream_fetch_historical start max s w meta bs d :
  coherent w → s_start_offset s ≤ start < s_next_offset s →
  (LC.read_range (s_stream_id s) start max (log_cache w)).1 = None →
  covering start (s3_objects s) = Some meta →
  object_blocks (storage w) (m_key meta) bs →
  block_at (s_stream_id s) (m_start_offset meta) bs = Some d →
  (∃ raw, (get_object (m_key meta) (storage w)).1 = Ok raw) →
  (fetch start max s w).1 = Ok [(m_start_offset meta, d)] ∧ coherent (fetch start max s w).2.
Proof.
  intros Hc Hs Hr Hcov Hbs Hd Hget. unfold fetch. rewrite decide_False by lia.
  destruct (LC.read_range _ _ _ _) as [cached lc]. simpl in Hr. subst cached. rewrite Hcov.
  pose proof (fetch_object_spec (s_stream_id s) meta (set_log_cache lc w) bs d) as Hf.
  destruct Hf as (H1 & H2 & _); [done..|].
  destruct (fetch_object _ meta _) as [r w']. simpl in H1, H2. subst r. done.
Qed.

(** An upload puts one decodable object under its key, registers it, and
    the object's only block is the concatenation of the records. *)
Theorem stream_upload start stop records s w key s' w' : records ≠ [] →
  upload_batch start stop records s w = (Ok key, s', w') →
  in_u 64 (s_stream_id s) → in_s 64 start → in_s 64 stop → in_u 32 (zlen (concat records)) →
  ∃ n, s3_objects s' = s3_objects s ++ [n] ∧ m_key n = key ∧ m_start_offset n = start
    ∧ m_end_offset n = stop
    ∧ object_blocks (storage w') key
        [mkBlock (s_stream_id s) start stop (u32 (zlen records)) (concat records)]
    ∧ block_at (s_stream_id s) start
        [mkBlock (s_stream_id s) start stop (u32 (zlen records)) (concat records)]
      = Some (concat records).
Proof.
  intros Hne Hu Hsid Hst Hsp Hlen. unfold upload_batch in Hu. destruct records as [|r0 rs]; [done|].
  set (records := r0 :: rs) in *. set (b := mkBlock _ start stop _ _) in *.
  assert (block_wf b) as Hb.
  { split_and!; [done|done|done| |done]. apply wrap_u_range. lia. }
  destruct (put_object _ _ (storage w)) as [[u|e|] st] eqn:Hp; [|done|done]. destruct u.
  cbn [wal set_storage] in Hu. destruct (wal_trim _ _ (wal w)) as [tr wl] eqn:Ht.
  injection Hu as <- <- <-. eexists. split_and!; [done|done|done|done| |].
  - exists (encode_object [b]). cbn [storage set_wal set_storage].
    rewrite (put_object_ok _ _ _ _ Hp), lookup_insert_eq. split; [done|].
    rewrite encode_object_eq by (by constructor). apply decode_all_ok; [by constructor|done].
  - unfold block_at. simpl. by rewrite decide_True.
Qed.

(** C31: compaction keeps the data.  When it merges objects, the stream's list of
    objects is then, in the order of the start offsets, exactly the objects it
    did not merge and the new one; nothing else of the stream changes.  Provided
    that the new key is not one of the merged objects' (a compaction of the same
    range as an earlier one reuses its key, [recompaction_deletes_its_result]):
    the merged objects are gone from the store, every object that is neither
    merged nor new is there unchanged, and, if the blocks are well-formed and
    fewer than 65536 (the block count of an object is a u16), the new object holds
    exactly the blocks of the merged ones, in order. *)
Theorem compaction_keeps_blocks target s w meta s' w' :
  compact_stream target s w = (Ok (Some meta), s', w') →
  let small := filter (λ m, m_size_bytes m < target) (s3_objects s) in
  m_key meta ∉ m_key <$> small →
  s3_objects s' ≡ₚ meta :: filter (λ m, m_key m ∉ m_key <$> small) (s3_objects s)
  ∧ StronglySorted (λ m m', m_start_offset m ≤ m_start_offset m') (s3_objects s')
  ∧ s' = set_objects (s3_objects s') s
  ∧ (∀ m, m ∈ small → objects (storage w') !! m_key m = None)
  ∧ (∀ key, key ≠ m_key meta → key ∉ m_key <$> small →
       objects (storage w') !! key = objects (storage w) !! key)
  ∧ ∃ bss, Forall2 (λ m bs, object_blocks (storage w) (m_key m) bs) small bss
    ∧ (Forall block_wf (concat bss) → zlen (concat bss) < 2 ^ 16 →
       object_blocks (storage w') (m_key meta) (concat bss)).
Proof.
  unfold compact_stream. set (objs := filter _ (s3_objects s)). case_decide; [done|].
  destruct (merge_objects objs _ (storage w)) as [[m|e|] st] eqn:Hm; [|done|done].
  apply merge_objects_spec in Hm as (Hst & Hk & bss & Hbss & Hmb). cbn [keys_to_delete merged_blocks app] in Hk, Hmb.
  destruct (merged_blocks m) as [|b0 bs0] eqn:Emb; [done|]. cbn [storage set_storage].
  rewrite <- Emb in *. clear Emb b0 bs0.
  destruct (put_object _ _ st) as [[u|e|] st1] eqn:Hp; [|done|done]. destruct u.
  cbn [storage set_storage].
  destruct (delete_objects _ st1) as [[u|e|] st2] eqn:Hd; [|done|done]. destruct u.
  intros [= <- <- <-] Hfresh. cbn [m_key] in Hfresh.
  apply put_object_ok in Hp. apply delete_objects_ok in Hd.
  cbn [s3_objects set_objects storage set_storage m_key]. rewrite Hk. split_and!.
  - rewrite sort_by_key_perm. by rewrite Permutation_app_comm.
  - apply sort_by_key_sorted.
  - by destruct s.
  - intros x Hx. rewrite Hd, delete_all_lookup, decide_True; [done|].
    rewrite Hk. by apply list_elem_of_fmap_2.
  - intros key Hne Hkey. rewrite Hd, delete_all_lookup, Hk, decide_False, Hp, lookup_insert_ne by done.
    by rewrite Hst.
  - exists bss. split; [done|]. intros Hwf Hn. exists (encode_object (merged_blocks m)).
    rewrite Hd, delete_all_lookup, Hk, decide_False, Hp, lookup_insert_eq by done.
    split; [done|]. rewrite Hmb. rewrite encode_object_eq by done. by apply decode_all_ok.
Qed.

(** Advancing the low watermark never moves it back: the stream's start
    offset becomes the maximum of the old one and the requested one, and no
    record at or above it leaves the log cache. *)
Theorem advance_start_offset_monotone o s w : LC.wf (log_cache w) →
  let '(r, s', w') := advance_start_offset o s w in
  r = Z.max (s_start_offset s) o ∧ s_start_offset s' = r ∧ s_next_offset s' = s_next_offset s ∧
  ∀ o' d, r ≤ o' → LC.entry (LC.streams (log_cache w)) (s_stream_id s) o' = Some d →
    LC.entry (LC.streams (log_cache w')) (s_stream_id s) o' = Some d.
Proof.
  intros Hwf. unfold advance_start_offset. case_decide.
  - split_and!; [lia|done|done|]. intros o' d Ho He. cbn [log_cache set_log_cache].
    destruct (LC.trim_entry (s_stream_id s) o (log_cache w) (s_stream_id s) o' Hwf) as [_ ->].
    rewrite decide_False by lia. done.
  - split_and!; [lia|done|done|done].
Qed.
End theorems.

(** ** Witnesses: the in-memory WAL and store *)
Import MemoryWal MemoryStore.

Definition demo_world : World MemoryWal MemoryObjectStorage :=
  mkWorld MemoryWal.new MemoryStore.new (LC.new 1024) (BC.new 1024).
Definition demo_stream : S3Stream := stream_new 42 0.

Definition res_of {A B C} (x : A * B * C) : A := x.1.1.
Definition stream_of {A C} (x : A * S3Stream * C) : S3Stream := x.1.2.
Definition world_of {A B C} (x : A * B * C) : C := x.2.

Lemma demo_cache_ok n : 0 ≤ n < 2 ^ 32 → cache_ok (LC.new 1024) n.
Proof.
  intros. split; [done| |].
  - unfold LC.total. cbn [LC.streams LC.new]. rewrite msum_empty. lia.
  - intros s o d (m & Hm & _)%bind_Some. done.
Qed.

Lemma stream_append_then_fetch_witness :
  let x := append_with_count [x61; x62] 3 demo_stream demo_world in
  s_next_offset (stream_of x) = 3 ∧
  ∃ rest, (fetch 0 100 (stream_of x) (world_of x)).1 = Ok ((0, [x61; x62]) :: rest).
Proof.
  set (x := append_with_count [x61; x62] 3 demo_stream demo_world). cbv zeta.
  destruct (stream_append_then_fetch [x61; x62] 3 demo_stream demo_world 0 (stream_of x) (world_of x) 100)
    as (_ & H1 & _ & H2).
  - vm_compute. reflexivity.
  - exact wf_new.
  - vm_compute. split; congruence.
  - vm_compute. split; congruence.
  - apply demo_cache_ok. vm_compute. split; congruence.
  - vm_compute. split; congruence.
  - vm_compute. reflexivity.
  - exact (conj H1 H2).
Defined.

Definition demo_up := upload_batch 0 4 [[x61]; [x62]] (set_next 5 demo_stream) demo_world.

Lemma stream_upload_witness :
  ∃ n, s3_objects (stream_of demo_up) = [n] ∧ m_start_offset n = 0.
Proof.
  destruct (stream_upload 0 4 [[x61]; [x62]] (set_next 5 demo_stream) demo_world
    (object_key 42 0 4) (stream_of demo_up) (world_of demo_up)) as (n & H1 & _ & H2 & _);
    [congruence|vm_compute; reflexivity|vm_compute; split; congruence..|].
  exact (ex_intro _ n (conj H1 H2)).
Defined.

Lemma stream_fetch_historical_witness :
  (fetch 3 100 (stream_of demo_up) (world_of demo_up)).1 = Ok [(0, [x61; x62])].
Proof.
  refine (proj1 (stream_fetch_historical 3 100 (stream_of demo_up) (world_of demo_up)
    (mkMeta (object_key 42 0 4) 0 4 2 104) [mkBlock 42 0 4 2 [x61; x62]] [x61; x62] _ _ _ _ _ _ _)).
  - intros key sid start d.
    assert (BC.entries (block_cache (world_of demo_up)) = ∅) as -> by (vm_compute; reflexivity).
    rewrite lookup_empty. discriminate.
  - vm_compute. split; congruence.
  - vm_compute. reflexivity.
  - vm_compute. reflexivity.
  - exists (encode_object [mkBlock 42 0 4 2 [x61; x62]]). split; vm_compute; reflexivity.
  - vm_compute. reflexivity.
  - exists (encode_object [mkBlock 42 0 4 2 [x61; x62]]). vm_compute. reflexivity.
Defined.

Definition demo_up2 := upload_batch 5 9 [[x63]] (set_next 10 (stream_of demo_up)) (world_of demo_up).
Definition demo_compacted := compact_stream 1000 (stream_of demo_up2) (world_of demo_up2).

Lemma compaction_keeps_blocks_witness :
  s3_objects (stream_of demo_compacted) = [mkMeta (compacted_key 42 0 9) 0 9 3 185].
Proof.
  destruct (compaction_keeps_blocks 1000 (stream_of demo_up2) (world_of demo_up2)
    (mkMeta (compacted_key 42 0 9) 0 9 3 185) (stream_of demo_compacted) (world_of demo_compacted))
    as (H & _).
  - vm_compute. reflexivity.
  - apply (bool_decide_unpack _). vm_compute. exact I.
  - assert (filter (λ m, m_key m ∉ m_key <$> filter (λ m, m_size_bytes m < 1000) (s3_objects (stream_of demo_up2)))
      (s3_objects (stream_of demo_up2)) = []) as E by (vm_compute; reflexivity).
    rewrite E in H. apply Permutation_singleton_r in H. exact H.
Defined.

Lemma advance_start_offset_monotone_witness :
  let '(r, s', w') := advance_start_offset 7 demo_stream demo_world in r = 7.
Proof.
  pose proof (advance_start_offset_monotone 7 demo_stream demo_world eq_refl) as H.
  destruct (advance_start_offset 7 demo_stream demo_world) as [[r s'] w'].
  destruct H as [H _]. exact H.
Defined.

(** After compaction the registered object covers the whole range, but a fetch
    looks only for a block that starts at the object's start offset: a read at
    offset 7 is answered with the block of offsets 0 to 4, and the records 5 to
    9 cannot be read any more. *)
Theorem fetch_after_compaction_wrong_block :
  (fetch 7 100 (stream_of demo_up2) (world_of demo_up2)).1 = Ok [(5, [x63])] ∧
  (fetch 7 100 (stream_of demo_compacted) (world_of demo_compacted)).1 = Ok [(0, [x61; x62])].
Proof. split; vm_compute; reflexivity. Qed.

(** Compacting again when the merged range is that of an earlier compacted
    object writes the new object under the old key and then deletes it. *)
Theorem recompaction_deletes_its_result :
  let up := upload_batch 2 3 [[x64]] (stream_of demo_compacted) (world_of demo_compacted) in
  let c := compact_stream 1000 (stream_of up) (world_of up) in
  is_Ok (res_of c) = true ∧ (m_key <$> s3_objects (stream_of c)) = [compacted_key 42 0 9] ∧
  objects (storage (world_of c)) = ∅.
Proof. split_and!; vm_compute; reflexivity. Qed.

(** A record batch occupies one cache entry at its first offset: a fetch at an
    offset inside the batch finds nothing, although the offset is below the
    next offset. *)
Theorem fetch_inside_batch_is_empty :
  let x := append_with_count [x61; x62] 3 demo_stream demo_world in
  s_next_offset (stream_of x) = 3 ∧ (fetch 1 100 (stream_of x) (world_of x)).1 = Ok [].
Proof. split; vm_compute; reflexivity. Qed.
