(* ===== verification/KafkaWire.v ===== *)
(** * The Kafka wire protocol: primitive types, headers and frames

    [crates/oxidemq-protocol/src/parser.rs], [header.rs], [codec.rs],
    [error_code.rs] and the [ApiKey] enumeration of [lib.rs].  Readers consume
    a prefix of the buffer; a writer is the list of bytes it appends. *)

From Stdlib Require Import Strings.Byte.
From stdpp Require Import base numbers list strings.
From S2P Require Import Prelude Bytes CoreTypes S3Format.

(** ** API keys and error codes *)
Inductive ApiKey :=
  | ApiProduce | ApiFetch | ApiListOffsets | ApiMetadata | ApiOffsetCommit | ApiOffsetFetch
  | ApiFindCoordinator | ApiJoinGroup | ApiHeartbeat | ApiLeaveGroup | ApiSyncGroup
  | ApiDescribeGroups | ApiListGroups | ApiSaslHandshake | ApiApiVersions | ApiCreateTopics
  | ApiDeleteTopics | ApiDeleteRecords | ApiInitProducerId | ApiAddPartitionsToTxn
  | ApiAddOffsetsToTxn | ApiEndTxn | ApiDescribeAcls | ApiCreateAcls | ApiDeleteAcls
  | ApiDescribeConfigs | ApiAlterConfigs | ApiSaslAuthenticate | ApiCreatePartitions
  | ApiDeleteGroups.

#[export] Instance ApiKey_eq_dec : EqDecision ApiKey.
Proof. solve_decision. Defined.

(** [self.api_key as i16] *)
Definition api_key_code (k : ApiKey) : Z :=
  match k with
  | ApiProduce => 0 | ApiFetch => 1 | ApiListOffsets => 2 | ApiMetadata => 3
  | ApiOffsetCommit => 8 | ApiOffsetFetch => 9 | ApiFindCoordinator => 10 | ApiJoinGroup => 11
  | ApiHeartbeat => 12 | ApiLeaveGroup => 13 | ApiSyncGroup => 14 | ApiDescribeGroups => 15
  | ApiListGroups => 16 | ApiSaslHandshake => 17 | ApiApiVersions => 18
  | ApiCreateTopics => 19 | ApiDeleteTopics => 20 | ApiDeleteRecords => 21
  | ApiInitProducerId => 22 | ApiAddPartitionsToTxn => 24 | ApiAddOffsetsToTxn => 25
  | ApiEndTxn => 26 | ApiDescribeAcls => 29 | ApiCreateAcls => 30 | ApiDeleteAcls => 31
  | ApiDescribeConfigs => 32 | ApiAlterConfigs => 33 | ApiSaslAuthenticate => 36
  | ApiCreatePartitions => 37 | ApiDeleteGroups => 42
  end.

Definition api_key_from_i16 (val : Z) : option ApiKey :=
  match val with
  | 0 => Some ApiProduce | 1 => Some ApiFetch | 2 => Some ApiListOffsets
  | 3 => Some ApiMetadata | 8 => Some ApiOffsetCommit | 9 => Some ApiOffsetFetch
  | 10 => Some ApiFindCoordinator | 11 => Some ApiJoinGroup | 12 => Some ApiHeartbeat
  | 13 => Some ApiLeaveGroup | 14 => Some ApiSyncGroup | 15 => Some ApiDescribeGroups
  | 16 => Some ApiListGroups | 17 => Some ApiSaslHandshake | 18 => Some ApiApiVersions
  | 19 => Some ApiCreateTopics | 20 => Some ApiDeleteTopics | 21 => Some ApiDeleteRecords
  | 22 => Some ApiInitProducerId | 24 => Some ApiAddPartitionsToTxn
  | 25 => Some ApiAddOffsetsToTxn | 26 => Some ApiEndTxn | 29 => Some ApiDescribeAcls
  | 30 => Some ApiCreateAcls | 31 => Some ApiDeleteAcls | 32 => Some ApiDescribeConfigs
  | 33 => Some ApiAlterConfigs | 36 => Some ApiSaslAuthenticate
  | 37 => Some ApiCreatePartitions | 42 => Some ApiDeleteGroups
  | _ => None
  end.

Inductive KafkaErrorCode :=
  | E_None | E_OffsetOutOfRange | E_CorruptMessage | E_UnknownTopicOrPartition
  | E_InvalidFetchSize | E_LeaderNotAvailable | E_NotLeaderOrFollower | E_RequestTimedOut
  | E_BrokerNotAvailable | E_ReplicaNotAvailable | E_MessageTooLarge | E_StaleControllerEpoch
  | E_OffsetMetadataTooLarge | E_NetworkException | E_CoordinatorLoadInProgress
  | E_CoordinatorNotAvailable | E_NotCoordinator | E_InvalidTopicException
  | E_RecordListTooLarge | E_NotEnoughReplicas | E_NotEnoughReplicasAfterAppend
  | E_InvalidRequiredAcks | E_IllegalGeneration | E_InconsistentGroupProtocol
  | E_InvalidGroupId | E_UnknownMemberId | E_InvalidSessionTimeout | E_RebalanceInProgress
  | E_InvalidCommitOffsetSize | E_TopicAuthorizationFailed | E_GroupAuthorizationFailed
  | E_ClusterAuthorizationFailed | E_InvalidTimestamp | E_UnsupportedSaslMechanism
  | E_IllegalSaslState | E_UnsupportedVersion | E_TopicAlreadyExists | E_InvalidPartitions
  | E_InvalidReplicationFactor | E_InvalidConfig | E_InvalidRequest | E_InvalidProducerEpoch
  | E_InvalidTxnState | E_InvalidProducerIdMapping | E_ConcurrentTransactions
  | E_ProducerFenced | E_TransactionalIdAuthorizationFailed | E_SaslAuthenticationFailed
  | E_NonEmptyGroup | E_GroupIdNotFound | E_InvalidRecord | E_UnknownServer.

#[export] Instance KafkaErrorCode_eq_dec : EqDecision KafkaErrorCode.
Proof. solve_decision. Defined.

Definition code (e : KafkaErrorCode) : Z :=
  match e with
  | E_None => 0 | E_OffsetOutOfRange => 1 | E_CorruptMessage => 2
  | E_UnknownTopicOrPartition => 3 | E_InvalidFetchSize => 4 | E_LeaderNotAvailable => 5
  | E_NotLeaderOrFollower => 6 | E_RequestTimedOut => 7 | E_BrokerNotAvailable => 8
  | E_ReplicaNotAvailable => 9 | E_MessageTooLarge => 10 | E_StaleControllerEpoch => 11
  | E_OffsetMetadataTooLarge => 12 | E_NetworkException => 13
  | E_CoordinatorLoadInProgress => 14 | E_CoordinatorNotAvailable => 15
  | E_NotCoordinator => 16 | E_InvalidTopicException => 17 | E_RecordListTooLarge => 18
  | E_NotEnoughReplicas => 19 | E_NotEnoughReplicasAfterAppend => 20
  | E_InvalidRequiredAcks => 21 | E_IllegalGeneration => 22
  | E_InconsistentGroupProtocol => 23 | E_InvalidGroupId => 24 | E_UnknownMemberId => 25
  | E_InvalidSessionTimeout => 26 | E_RebalanceInProgress => 27
  | E_InvalidCommitOffsetSize => 28 | E_TopicAuthorizationFailed => 29
  | E_GroupAuthorizationFailed => 30 | E_ClusterAuthorizationFailed => 31
  | E_InvalidTimestamp => 32 | E_UnsupportedSaslMechanism => 33 | E_IllegalSaslState => 34
  | E_UnsupportedVersion => 35 | E_TopicAlreadyExists => 36 | E_InvalidPartitions => 37
  | E_InvalidReplicationFactor => 38 | E_InvalidConfig => 40 | E_InvalidRequest => 42
  | E_InvalidProducerEpoch => 47 | E_InvalidTxnState => 48 | E_InvalidProducerIdMapping => 49
  | E_ConcurrentTransactions => 51 | E_ProducerFenced => 52
  | E_TransactionalIdAuthorizationFailed => 53 | E_SaslAuthenticationFailed => 58
  | E_NonEmptyGroup => 68 | E_GroupIdNotFound => 69 | E_InvalidRecord => 87
  | E_UnknownServer => -1
  end.

Definition error_from_i16 (val : Z) : KafkaErrorCode :=
  match val with
  | 0 => E_None | 1 => E_OffsetOutOfRange | 2 => E_CorruptMessage
  | 3 => E_UnknownTopicOrPartition | 4 => E_InvalidFetchSize | 5 => E_LeaderNotAvailable
  | 6 => E_NotLeaderOrFollower | 7 => E_RequestTimedOut | 8 => E_BrokerNotAvailable
  | 9 => E_ReplicaNotAvailable | 10 => E_MessageTooLarge | 11 => E_StaleControllerEpoch
  | 12 => E_OffsetMetadataTooLarge | 13 => E_NetworkException
  | 14 => E_CoordinatorLoadInProgress | 15 => E_CoordinatorNotAvailable
  | 16 => E_NotCoordinator | 17 => E_InvalidTopicException | 18 => E_RecordListTooLarge
  | 19 => E_NotEnoughReplicas | 20 => E_NotEnoughReplicasAfterAppend
  | 21 => E_InvalidRequiredAcks | 22 => E_IllegalGeneration
  | 23 => E_InconsistentGroupProtocol | 24 => E_InvalidGroupId | 25 => E_UnknownMemberId
  | 26 => E_InvalidSessionTimeout | 27 => E_RebalanceInProgress
  | 28 => E_InvalidCommitOffsetSize | 29 => E_TopicAuthorizationFailed
  | 30 => E_GroupAuthorizationFailed | 31 => E_ClusterAuthorizationFailed
  | 32 => E_InvalidTimestamp | 33 => E_UnsupportedSaslMechanism | 34 => E_IllegalSaslState
  | 35 => E_UnsupportedVersion | 36 => E_TopicAlreadyExists | 37 => E_InvalidPartitions
  | 38 => E_InvalidReplicationFactor | 40 => E_InvalidConfig | 42 => E_InvalidRequest
  | 47 => E_InvalidProducerEpoch | 48 => E_InvalidTxnState | 49 => E_InvalidProducerIdMapping
  | 51 => E_ConcurrentTransactions | 52 => E_ProducerFenced
  | 53 => E_TransactionalIdAuthorizationFailed | 58 => E_SaslAuthenticationFailed
  | 68 => E_NonEmptyGroup | 69 => E_GroupIdNotFound | 87 => E_InvalidRecord
  | _ => E_UnknownServer
  end.

(** ** Varints *)

(** The loop of [read_unsigned_varint]; structural in the buffer. *)
Fixpoint read_uvarint_loop (value shift : Z) (src : bytes) : result (Z * bytes) :=
  match src with
  | [] => Err (EProtocol "Truncated varint")
  | b :: src' =>
      let b := Z_of_byte b in
      let value := Z.lor value (u64 (Z.shiftl (Z.land b 0x7F) shift)) in
      if decide (Z.land b 0x80 = 0) then Ok (value, src')
      else
        let shift := shift + 7 in
        if decide (shift > 63) then Err (EProtocol "Varint overflow")
        else read_uvarint_loop value shift src'
  end.

Definition read_unsigned_varint : reader OxideMqError Z := read_uvarint_loop 0 0.

Definition read_varint : reader OxideMqError Z :=
  uval ← read_unsigned_varint;
  mret (Z.lxor (i64 (Z.shiftr uval 1)) (- Z.land uval 1)).

(** Ten groups of seven bits cover a [u64]. *)
Fixpoint write_uvarint_loop (fuel : nat) (value : Z) : bytes :=
  match fuel with
  | O => []
  | S fuel' =>
      if decide (value ≥ 0x80)
      then byte_of_Z (Z.lor (Z.land value 0x7F) 0x80) :: write_uvarint_loop fuel' (Z.shiftr value 7)
      else [byte_of_Z value]
  end.

Definition write_unsigned_varint (value : Z) : bytes := write_uvarint_loop 10 value.

Definition zigzag (value : Z) : Z :=
  u64 (Z.lxor (i64 (Z.shiftl value 1)) (Z.shiftr value 63)).

Definition write_varint (value : Z) : bytes := write_unsigned_varint (zigzag value).

(** ** Strings and byte strings *)

(** [String::from_utf8] with its error turned into a protocol error (the text
    of the standard library's [Utf8Error] after the colon is left out). *)
Definition utf8_or_err (l : bytes) : reader OxideMqError string :=
  match from_utf8 l with
  | Some s => mret s
  | None => fail (EProtocol "Invalid UTF-8: ")
  end.

Definition read_string : reader OxideMqError (option string) :=
  n ← remaining;
  if decide (n < 2) then fail (EProtocol "Truncated string length") else
  len ← get_i16;
  if decide (len < 0) then mret None else
  n ← remaining;
  if decide (n < len) then fail (EProtocol "Truncated string body") else
  l ← take_bytes len;
  s ← utf8_or_err l;
  mret (Some s).

Definition read_compact_string : reader OxideMqError (option string) :=
  len ← read_unsigned_varint;
  if decide (len = 0) then mret None else
  let len := len - 1 in
  n ← remaining;
  if decide (n < len) then fail (EProtocol "Truncated compact string body") else
  l ← take_bytes len;
  s ← utf8_or_err l;
  mret (Some s).

Definition read_bytes : reader OxideMqError (option bytes) :=
  n ← remaining;
  if decide (n < 4) then fail (EProtocol "Truncated bytes length") else
  len ← get_i32;
  if decide (len < 0) then mret None else
  n ← remaining;
  if decide (n < len) then fail (EProtocol "Truncated bytes body") else
  l ← take_bytes len;
  mret (Some l).

Definition read_compact_bytes : reader OxideMqError (option bytes) :=
  len ← read_unsigned_varint;
  if decide (len = 0) then mret None else
  let len := len - 1 in
  n ← remaining;
  if decide (n < len) then fail (EProtocol "Truncated compact bytes body") else
  l ← take_bytes len;
  mret (Some l).

Definition write_string (val : option string) : bytes :=
  match val with
  | Some s => put_16 (i16 (str_len s)) ++ str_bytes s
  | None => put_16 (-1)
  end.

Definition write_compact_string (val : option string) : bytes :=
  match val with
  | Some s => write_unsigned_varint (str_len s + 1) ++ str_bytes s
  | None => write_unsigned_varint 0
  end.

Definition write_bytes (val : option bytes) : bytes :=
  match val with
  | Some b => put_32 (i32 (zlen b)) ++ b
  | None => put_32 (-1)
  end.

Definition write_compact_bytes (val : option bytes) : bytes :=
  match val with
  | Some b => write_unsigned_varint (zlen b + 1) ++ b
  | None => write_unsigned_varint 0
  end.

(** ** Headers *)
Record RequestHeader := mkReqHeader {
  rh_api_key : ApiKey;
  rh_api_version : Z;
  rh_correlation_id : Z;
  rh_client_id : option string }.

Definition decode_request_header : reader OxideMqError RequestHeader :=
  n ← remaining;
  if decide (n < 8) then fail (EProtocol "Truncated request header") else
  key_raw ← get_i16;
  match api_key_from_i16 key_raw with
  | None => fail (EProtocol ("Unsupported API key: " +:+ dec key_raw))
  | Some api_key =>
      api_version ← get_i16;
      correlation_id ← get_i32;
      client_id ← read_string;
      n ← remaining;
      (if decide (api_key = ApiApiVersions ∧ api_version ≥ 3 ∧ 0 < n)
       then read_unsigned_varint else mret 0) ≫= λ _,
      mret (mkReqHeader api_key api_version correlation_id client_id)
  end.

Definition encode_request_header (h : RequestHeader) : bytes :=
  put_16 (api_key_code (rh_api_key h)) ++ put_16 (rh_api_version h)
    ++ put_32 (rh_correlation_id h) ++ write_string (rh_client_id h).

Definition decode_response_header : reader OxideMqError Z :=
  n ← remaining;
  if decide (n < 4) then fail (EProtocol "Truncated response header") else get_i32.

Definition encode_response_header (correlation_id : Z) : bytes := put_32 correlation_id.

(** ** Frames *)
Definition MAX_KAFKA_FRAME_SIZE : Z := 100 * 1024 * 1024.

(** [KafkaFrameCodec::decode]: the frame, if one is complete, and the buffer
    that remains. *)
Definition decode_kafka_frame (src : bytes) : result (option bytes * bytes) :=
  if decide (zlen src < 4) then Ok (None, src) else
  length_bytes ← slice src 0 4;
  let frame_len := wrap_s 32 (from_be length_bytes) in
  if decide (frame_len < 0)
  then Err (EProtocol ("Negative frame length: " +:+ dec frame_len)) else
  if decide (frame_len > MAX_KAFKA_FRAME_SIZE)
  then Err (EProtocol ("Frame length exceeds maximum (" +:+ dec frame_len +:+ " > "
                         +:+ dec MAX_KAFKA_FRAME_SIZE +:+ ")")) else
  let total_len := 4 + frame_len in
  if decide (zlen src < total_len) then Ok (None, src) else
  let src := drop 4 src in
  '(frame, src) ← take_bytes frame_len src;
  Ok (Some frame, src).

Definition encode_kafka_frame (item : bytes) : bytes := put_32 (i32 (zlen item)) ++ item.

(** ** Lemmas: enumerations *)
Lemma api_key_roundtrip k : api_key_from_i16 (api_key_code k) = Some k.
Proof. by destruct k. Qed.

Lemma api_key_code_range k : in_s 16 (api_key_code k).
Proof. destruct k; vm_compute; split; congruence. Qed.

Lemma error_code_roundtrip e : error_from_i16 (code e) = e.
Proof. by destruct e. Qed.

(** ** Lemmas: varints *)
Lemma land_7F v : 0 ≤ v → Z.land v 0x7F = v mod 128.
Proof. intros. change 0x7F with (Z.ones 7). by rewrite Z.land_ones. Qed.

Lemma lor_disjoint acc x s : 0 ≤ s → 0 ≤ acc < 2 ^ s →
  Z.lor acc (Z.shiftl x s) = acc + x * 2 ^ s.
Proof.
  intros Hs Ha. rewrite <- Z.shiftl_mul_pow2 by done.
  rewrite <- Z.lxor_lor, Z.add_nocarry_lxor.
  all: try done.
  all: apply Z.bits_inj'; intros n Hn; rewrite Z.land_spec, Z.bits_0.
  all: destruct (decide (n < s)); [rewrite Z.shiftl_spec_low by done; by rewrite andb_false_r|].
  all: destruct (decide (acc = 0)) as [->|]; [by rewrite Z.bits_0|].
  all: rewrite (Z.bits_above_log2 acc n); [done|lia|].
  all: assert (Z.log2 acc < s) by (apply Z.log2_lt_pow2; lia); lia.
Qed.

Lemma byte_group v : 0 ≤ v < 128 → Z_of_byte (byte_of_Z (Z.lor v 0x80)) = v + 128.
Proof.
  intros Hv. rewrite Z_of_byte_of_Z. change (Z.lor v 0x80) with (Z.lor v (Z.shiftl 1 7)).
  rewrite lor_disjoint by lia. rewrite Z.mod_small; lia.
Qed.

Lemma testbit_128 v : 0 ≤ v < 128 → Z.land v 0x80 = 0 ∧ Z.land (v + 128) 0x80 ≠ 0
  ∧ Z.land (v + 128) 0x7F = v ∧ Z.land v 0x7F = v.
Proof.
  intros Hv. assert (∀ x, 0 ≤ x < 128 → (Z.land x 0x80 =? 0) && negb (Z.land (x + 128) 0x80 =? 0)
    && (Z.land (x + 128) 0x7F =? x) && (Z.land x 0x7F =? x) = true) as H.
  { assert (forallb (λ x, (Z.land x 0x80 =? 0) && negb (Z.land (x + 128) 0x80 =? 0)
      && (Z.land (x + 128) 0x7F =? x) && (Z.land x 0x7F =? x)) (seqZ 0 128) = true) as Hall
      by (vm_compute; reflexivity).
    rewrite forallb_forall in Hall. intros x Hx. apply Hall, list_elem_of_In, elem_of_seqZ. lia. }
  specialize (H v Hv). rewrite !andb_true_iff, negb_true_iff, !Z.eqb_eq, Z.eqb_neq in H. tauto.
Qed.

(** Reading back what the loop wrote, from any intermediate state. *)
Lemma uvarint_loop_roundtrip n v acc shift k :
  0 ≤ v < 2 ^ (7 * Z.of_nat n) → (0 < n)%nat → 0 ≤ shift → shift + 7 * (Z.of_nat n - 1) ≤ 63 →
  v * 2 ^ shift < 2 ^ 64 → 0 ≤ acc < 2 ^ shift →
  read_uvarint_loop acc shift (write_uvarint_loop n v ++ k) = Ok (acc + v * 2 ^ shift, k).
Proof.
  revert v acc shift. induction n as [|n IH]; intros v acc shift Hv Hn Hs Hb Hmax Hacc; [lia|].
  cbn [write_uvarint_loop]. pose proof (pow2_pos shift Hs) as Hp.
  case_decide as Hge.
  - assert (0 < n)%nat.
    { destruct n; [|lia]. change (2 ^ (7 * Z.of_nat 1)) with 128 in Hv. lia. }
    cbn [app read_uvarint_loop]. rewrite land_7F by lia.
    pose proof (Z.mod_pos_bound v 128). rewrite byte_group by lia.
    destruct (testbit_128 (v mod 128)) as (_ & H1 & H2 & _); [lia|]. rewrite H2.
    rewrite decide_False by done. rewrite decide_False by lia.
    assert (v mod 128 * 2 ^ shift < 2 ^ 64) as Hlow.
    { pose proof (Z.mod_le v 128). nia. }
    rewrite wrap_u_small.
    2: { unfold in_u. rewrite Z.shiftl_mul_pow2 by done. nia. }
    rewrite lor_disjoint by lia. rewrite Z.shiftr_div_pow2 by lia. change (2 ^ 7) with 128.
    pose proof (Z.div_mod v 128). assert (0 ≤ v / 128) by (apply Z.div_pos; lia).
    assert (2 ^ (shift + 7) = 128 * 2 ^ shift) as Hp7 by (rewrite Z.pow_add_r; lia).
    rewrite IH; [f_equal; f_equal; rewrite Hp7; nia| | |lia|lia| |].
    + split; [done|]. apply Z.div_lt_upper_bound; [lia|].
      replace (7 * Z.of_nat (S n)) with (7 + 7 * Z.of_nat n) in Hv by lia.
      rewrite Z.pow_add_r in Hv by lia. lia.
    + done.
    + rewrite Hp7. nia.
    + rewrite Hp7. nia.
  - cbn [app read_uvarint_loop]. rewrite Z_of_byte_of_Z, Z.mod_small by lia.
    destruct (testbit_128 v) as (H1 & _ & _ & H2); [lia|]. rewrite H1, H2, decide_True by done.
    rewrite wrap_u_small.
    2: { unfold in_u. rewrite Z.shiftl_mul_pow2 by done. nia. }
    by rewrite lor_disjoint by lia.
Qed.

Lemma read_uvarint_ok v k : in_u 64 v →
  read_unsigned_varint (write_unsigned_varint v ++ k) = Ok (v, k).
Proof.
  intros [? ?]. unfold read_unsigned_varint, write_unsigned_varint.
  rewrite uvarint_loop_roundtrip; [f_equal; f_equal; lia| |lia|lia|lia|lia|done].
  split; [done|]. change (2 ^ (7 * Z.of_nat 10)) with (2 ^ 70). lia.
Qed.

Lemma zigzag_eq v : in_s 64 v → zigzag v = if decide (0 ≤ v) then 2 * v else - 2 * v - 1.
Proof.
  intros [H1 H2]. change (64 - 1) with 63 in *. unfold zigzag.
  rewrite Z.shiftl_mul_pow2 by lia. change (2 ^ 1) with 2.
  assert (∀ x, u64 (i64 x) = u64 x) as Hu.
  { intros x. unfold wrap_u, wrap_s. change (64 - 1) with 63.
    rewrite Zminus_mod_idemp_l. f_equal. lia. }
  case_decide.
  - rewrite (Z.shiftr_div_pow2 v 63), Z.div_small, Z.lxor_0_r by lia.
    rewrite Hu, wrap_u_small; [lia|]. unfold in_u. lia.
  - assert (Z.shiftr v 63 = -1) as ->.
    { rewrite Z.shiftr_div_pow2 by lia. symmetry. apply (Z.div_unique v (2 ^ 63) (-1) (v + 2 ^ 63)); lia. }
    rewrite Z.lxor_m1_r. unfold Z.lnot.
    assert (u64 (Z.pred (- i64 (v * 2))) = u64 (Z.pred (- (v * 2)))) as ->.
    { unfold wrap_u, wrap_s. change (64 - 1) with 63.
      rewrite <- (Z.sub_0_l ((v * 2 + 2 ^ 63) mod 2 ^ 64 - 2 ^ 63)).
      replace (Z.pred (0 - ((v * 2 + 2 ^ 63) mod 2 ^ 64 - 2 ^ 63)))
        with (2 ^ 63 - 1 - (v * 2 + 2 ^ 63) mod 2 ^ 64) by lia.
      rewrite Zminus_mod_idemp_r. f_equal. lia. }
    rewrite wrap_u_small; [lia|]. unfold in_u. lia.
Qed.

Lemma unzigzag v : in_s 64 v → Z.lxor (i64 (Z.shiftr (zigzag v) 1)) (- Z.land (zigzag v) 1) = v.
Proof.
  intros Hv. rewrite zigzag_eq by done. destruct Hv as [H1 H2]. change (64 - 1) with 63 in *.
  rewrite Z.shiftr_div_pow2 by lia. change (2 ^ 1) with 2.
  assert (∀ x, Z.land x 1 = x mod 2) as -> by (intros x; exact (Z.land_ones x 1 ltac:(lia))). case_decide.
  - replace (2 * v / 2) with v by (rewrite Z.mul_comm, Z.div_mul; lia).
    replace ((2 * v) mod 2) with 0 by (rewrite Z.mul_comm, Z.mod_mul; lia).
    rewrite Z.lxor_0_r. apply wrap_s_small; [lia|]. unfold in_s. change (64 - 1) with 63. lia.
  - rewrite <- (Z.div_unique (-2 * v - 1) 2 (- v - 1) 1) by lia.
    rewrite <- (Z.mod_unique (-2 * v - 1) 2 (- v - 1) 1) by lia.
    rewrite wrap_s_small; [|lia|unfold in_s; change (64 - 1) with 63; lia].
    rewrite Z.lxor_m1_r. unfold Z.lnot. lia.
Qed.

Lemma zigzag_range v : in_s 64 v → in_u 64 (zigzag v).
Proof.
  intros Hv. rewrite zigzag_eq by done. destruct Hv as [H1 H2]. change (64 - 1) with 63 in *.
  unfold in_u. case_decide; lia.
Qed.

Lemma read_varint_ok v k : in_s 64 v → read_varint (write_varint v ++ k) = Ok (v, k).
Proof.
  intros Hv. unfold read_varint, write_varint.
  erewrite reader_bind_ok by (apply read_uvarint_ok; by apply zigzag_range).
  unfold mret, reader_ret. by rewrite unzigzag.
Qed.

(** ** Lemmas: strings and byte strings *)

(** A Rust [String] holds well-formed UTF-8. *)
Definition str_ok (s : string) : Prop := utf8_valid (str_bytes s) = true.
#[export] Instance str_ok_dec s : Decision (str_ok s).
Proof. unfold str_ok. apply _. Defined.

Definition opt_all {A} (P : A → Prop) (o : option A) : Prop :=
  match o with Some x => P x | None => True end.
#[export] Instance opt_all_dec {A} (P : A → Prop) `{!∀ x, Decision (P x)} o : Decision (opt_all P o).
Proof. destruct o; simpl; apply _. Defined.

(** What a field of each wire type can carry: the length has to fit. *)
Definition wire_string (s : string) : Prop := str_ok s ∧ str_len s < 2 ^ 15.
Definition wire_cstring (s : string) : Prop := str_ok s ∧ str_len s < 2 ^ 63.
Definition wire_bytes (b : bytes) : Prop := zlen b < 2 ^ 31.
Definition wire_cbytes (b : bytes) : Prop := zlen b < 2 ^ 63.
#[export] Instance wire_string_dec s : Decision (wire_string s).
Proof. unfold wire_string. apply _. Defined.
#[export] Instance wire_cstring_dec s : Decision (wire_cstring s).
Proof. unfold wire_cstring. apply _. Defined.
#[export] Instance wire_bytes_dec b : Decision (wire_bytes b).
Proof. unfold wire_bytes. apply _. Defined.
#[export] Instance wire_cbytes_dec b : Decision (wire_cbytes b).
Proof. unfold wire_cbytes. apply _. Defined.

Lemma utf8_or_err_ok s k : str_ok s → utf8_or_err (str_bytes s) k = Ok (s, k).
Proof.
  intros Hs. unfold utf8_or_err, from_utf8. rewrite Hs. by rewrite bytes_str_bytes.
Qed.

Lemma str_len_nonneg s : 0 ≤ str_len s.
Proof. unfold str_len. lia. Qed.

Lemma read_remaining {E A} (f : Z → reader E A) l : (remaining ≫= f) l = f (zlen l) l.
Proof. done. Qed.

Lemma read_string_ok s k : opt_all wire_string s → read_string (write_string s ++ k) = Ok (s, k).
Proof.
  intros Hs. unfold read_string, write_string. rewrite read_remaining. pose proof (zlen_nonneg k).
  destruct s as [s|].
  - destruct Hs as [Hu Hl]. pose proof (str_len_nonneg s).
    rewrite <- app_assoc. rewrite decide_False by (lens; lia).
    assert (in_s 16 (str_len s)) as Hin by (unfold in_s; change (16 - 1) with 15; lia).
    rewrite wrap_s_small by (done || lia).
    erewrite reader_bind_ok by (eapply get_s_app; [reflexivity|lia|done]).
    rewrite decide_False by lia. rewrite read_remaining.
    rewrite decide_False by (lens; lia).
    erewrite reader_bind_ok by (apply take_bytes_app; by lens).
    by erewrite reader_bind_ok by (by apply utf8_or_err_ok).
  - rewrite decide_False by (lens; lia).
    erewrite reader_bind_ok by (eapply get_s_app; [reflexivity|lia|vm_compute; split; congruence]).
    done.
Qed.

Lemma read_compact_string_ok s k : opt_all wire_cstring s →
  read_compact_string (write_compact_string s ++ k) = Ok (s, k).
Proof.
  intros Hs. unfold read_compact_string, write_compact_string. pose proof (zlen_nonneg k).
  destruct s as [s|].
  - destruct Hs as [Hu Hl]. pose proof (str_len_nonneg s). rewrite <- app_assoc.
    erewrite reader_bind_ok by (apply read_uvarint_ok; unfold in_u; lia).
    rewrite decide_False by lia. rewrite read_remaining. rewrite Z.add_simpl_r.
    rewrite decide_False by (lens; lia).
    erewrite reader_bind_ok by (apply take_bytes_app; by lens).
    by erewrite reader_bind_ok by (by apply utf8_or_err_ok).
  - by erewrite reader_bind_ok by (apply read_uvarint_ok; unfold in_u; lia).
Qed.

Lemma read_bytes_ok b k : opt_all wire_bytes b → read_bytes (write_bytes b ++ k) = Ok (b, k).
Proof.
  intros Hs. unfold read_bytes, write_bytes. rewrite read_remaining. pose proof (zlen_nonneg k).
  destruct b as [b|].
  - unfold opt_all, wire_bytes in Hs. pose proof (zlen_nonneg b).
    rewrite <- app_assoc. rewrite decide_False by (lens; lia).
    assert (in_s 32 (zlen b)) as Hin by (unfold in_s; change (32 - 1) with 31; lia).
    rewrite wrap_s_small by (done || lia).
    erewrite reader_bind_ok by (eapply get_s_app; [reflexivity|lia|done]).
    rewrite decide_False by lia. rewrite read_remaining.
    rewrite decide_False by (lens; lia).
    by erewrite reader_bind_ok by (by apply take_bytes_app).
  - rewrite decide_False by (lens; lia).
    erewrite reader_bind_ok by (eapply get_s_app; [reflexivity|lia|vm_compute; split; congruence]).
    done.
Qed.

Lemma read_compact_bytes_ok b k : opt_all wire_cbytes b →
  read_compact_bytes (write_compact_bytes b ++ k) = Ok (b, k).
Proof.
  intros Hs. unfold read_compact_bytes, write_compact_bytes. pose proof (zlen_nonneg k).
  destruct b as [b|].
  - unfold opt_all, wire_cbytes in Hs. pose proof (zlen_nonneg b). rewrite <- app_assoc.
    erewrite reader_bind_ok by (apply read_uvarint_ok; unfold in_u; lia).
    rewrite decide_False by lia. rewrite read_remaining. rewrite Z.add_simpl_r.
    rewrite decide_False by (lens; lia).
    by erewrite reader_bind_ok by (by apply take_bytes_app).
  - by erewrite reader_bind_ok by (apply read_uvarint_ok; unfold in_u; lia).
Qed.

(** ** Lemmas: headers *)
Definition header_wf (h : RequestHeader) : Prop :=
  in_s 16 (rh_api_version h) ∧ in_s 32 (rh_correlation_id h) ∧ opt_all wire_string (rh_client_id h).
#[export] Instance header_wf_dec h : Decision (header_wf h).
Proof. unfold header_wf. apply _. Defined.

(** The header of an [ApiVersions] request from version 3 on is a flexible one: the
    protocol has a tagged-field section at its end, and the decoder skips one.
    [encode_request_header] does not write it. *)
Definition flexible_header (h : RequestHeader) : Prop :=
  rh_api_key h = ApiApiVersions ∧ rh_api_version h ≥ 3.
#[export] Instance flexible_header_dec h : Decision (flexible_header h).
Proof. unfold flexible_header. apply _. Defined.

(** The section, empty, as a Kafka client sends it after the client id. *)
Definition client_tags (h : RequestHeader) : bytes :=
  if decide (flexible_header h) then write_unsigned_varint 0 else [].

Lemma zlen_write_string s : 2 ≤ zlen (write_string s).
Proof. destruct s; unfold write_string; lens; [pose proof (str_len_nonneg s)|]; lia. Qed.

Lemma request_header_decodes h body : header_wf h →
  decode_request_header (encode_request_header h ++ client_tags h ++ body) = Ok (h, body).
Proof.
  intros (Hv & Hc & Hs). unfold decode_request_header, encode_request_header, client_tags, flexible_header.
  rewrite read_remaining. pose proof (zlen_write_string (rh_client_id h)).
  rewrite <- !app_assoc. match goal with |- context [write_string _ ++ ?t] => set (tl := t) end.
  rewrite decide_False by (lens; pose proof (zlen_nonneg tl); lia).
  erewrite reader_bind_ok by (eapply get_s_app; [reflexivity|lia|apply api_key_code_range]).
  rewrite api_key_roundtrip. do 2 read_field.
  erewrite reader_bind_ok by (by apply read_string_ok). rewrite read_remaining. subst tl.
  destruct (decide (rh_api_key h = ApiApiVersions ∧ rh_api_version h ≥ 3)) as [[Hk Hge]|Hn].
  - rewrite decide_True.
    2: { split; [done|]. split; [done|]. rewrite zlen_app.
      assert (0 < zlen (write_unsigned_varint 0)) by (by vm_compute).
      pose proof (zlen_nonneg body). lia. }
    erewrite reader_bind_ok by (apply read_uvarint_ok; unfold in_u; lia). by destruct h.
  - rewrite decide_False by tauto. by destruct h.
Qed.

(** ** Lemmas: frames *)
Definition frame_ok (item : bytes) : Prop := zlen item ≤ MAX_KAFKA_FRAME_SIZE.
#[export] Instance frame_ok_dec item : Decision (frame_ok item).
Proof. unfold frame_ok. apply _. Defined.

Lemma zlen_encode_frame item : zlen (encode_kafka_frame item) = 4 + zlen item.
Proof. unfold encode_kafka_frame. by lens. Qed.
#[export] Hint Rewrite zlen_encode_frame : len.

Lemma slice_prefix {E} l k n : n = zlen l → slice (E:=E) (l ++ k) 0 n = Ok l.
Proof.
  intros ->. unfold slice. pose proof (zlen_nonneg l). pose proof (zlen_nonneg k).
  rewrite decide_True by (lens; lia). change (Z.to_nat 0) with 0%nat. rewrite drop_0.
  rewrite Z.sub_0_r, take_app_exact; [done|]. unfold zlen. lia.
Qed.

(** The length prefix of a frame, however much of the frame has arrived. *)
Lemma frame_len_prefix {E} item k : frame_ok item →
  slice (E:=E) (put_32 (i32 (zlen item)) ++ k) 0 4 = Ok (put_32 (i32 (zlen item)))
  ∧ wrap_s 32 (from_be (put_32 (i32 (zlen item)))) = zlen item.
Proof.
  intros Hok. unfold frame_ok, MAX_KAFKA_FRAME_SIZE in Hok. pose proof (zlen_nonneg item).
  assert (in_s 32 (zlen item)) as Hin by (unfold in_s; change (32 - 1) with 31; lia).
  split; [by apply slice_prefix; lens|].
  rewrite (wrap_s_small 32 (zlen item)) by (lia || done). rewrite from_be_to_be.
  change (256 ^ Z.of_nat 4) with (2 ^ 32). by apply wrap_s_of_residue.
Qed.

Lemma decode_frame_full item k : frame_ok item →
  decode_kafka_frame (encode_kafka_frame item ++ k) = Ok (Some item, k).
Proof.
  intros Hok. unfold decode_kafka_frame. pose proof (zlen_nonneg k). pose proof (zlen_nonneg item).
  rewrite decide_False by (lens; lia).
  unfold encode_kafka_frame. rewrite <- app_assoc.
  destruct (frame_len_prefix (E:=OxideMqError) item (item ++ k) Hok) as [Hs Hl].
  unfold mbind, res_bind. rewrite Hs, Hl. cbv zeta. unfold frame_ok in Hok.
  rewrite decide_False by lia. rewrite decide_False by lia.
  rewrite decide_False by (lens; lia).
  rewrite drop_app_exact by (by lens). by rewrite take_bytes_app.
Qed.

Lemma decode_frame_partial item buf more : frame_ok item → more ≠ [] →
  buf ++ more = encode_kafka_frame item → decode_kafka_frame buf = Ok (None, buf).
Proof.
  intros Hok Hm He. unfold decode_kafka_frame. case_decide; [done|].
  assert (∃ p, buf = put_32 (i32 (zlen item)) ++ p ∧ item = p ++ more) as (p & -> & Hp).
  { unfold encode_kafka_frame in He. apply app_eq_inv in He as [(p & -> & Hp)|(p & Hq & Hp)].
    - by exists p.
    - exists []. destruct p; [by rewrite app_nil_r in *|].
      apply (f_equal zlen) in Hq. lens. pose proof (zlen_nonneg p). lia. }
  destruct (frame_len_prefix (E:=OxideMqError) item p Hok) as [Hs Hl].
  unfold mbind, res_bind. rewrite Hs, Hl. cbv zeta. unfold frame_ok in Hok.
  pose proof (zlen_nonneg item). rewrite decide_False by lia. rewrite decide_False by lia.
  rewrite decide_True; [done|]. apply (f_equal zlen) in Hp. lens.
  destruct more; [done|]. lens. pose proof (zlen_nonneg more). lia.
Qed.

(** The transport calls the decoder until it asks for more input, whenever a
    chunk of the connection's byte stream has arrived. *)
Fixpoint drain_frames (fuel : nat) (buf : bytes) : result (list bytes * bytes) :=
  match fuel with
  | O => Ok ([], buf)
  | S fuel' =>
      '(o, buf') ← decode_kafka_frame buf;
      match o with
      | None => Ok ([], buf')
      | Some item => '(items, rest) ← drain_frames fuel' buf'; Ok (item :: items, rest)
      end
  end.

Fixpoint feed_chunks (buf : bytes) (chunks : list bytes) : result (list bytes * bytes) :=
  match chunks with
  | [] => Ok ([], buf)
  | c :: cs =>
      let buf := buf ++ c in
      '(items, rest) ← drain_frames (S (length buf)) buf;
      '(more, rest') ← feed_chunks rest cs;
      Ok (items ++ more, rest')
  end.

Abbreviation wire items := (concat (encode_kafka_frame <$> items)).

(** [rest] stops short of the first frame of [items]. *)
Definition short_of (rest : bytes) (items : list bytes) : Prop :=
  match items with
  | [] => rest = []
  | item :: _ => (length rest < length (encode_kafka_frame item))%nat
  end.

Lemma drain_prefix items : ∀ fuel buf tail, Forall frame_ok items → buf ++ tail = wire items →
  (length buf < fuel)%nat →
  ∃ n rest, drain_frames fuel buf = Ok (take n items, rest)
    ∧ buf = wire (take n items) ++ rest ∧ short_of rest (drop n items).
Proof.
  induction items as [|item items IH]; intros fuel buf tail Hok Hb Hf; (destruct fuel as [|fuel]; [lia|]).
  { apply app_eq_nil in Hb as [-> _]. exists 0%nat, []. done. }
  apply Forall_cons in Hok as [Hi Hok]. rewrite fmap_cons in Hb. cbn [concat] in Hb.
  cbn [drain_frames]. apply app_eq_inv in Hb as [(p & -> & Hp)|(p & Hq & Hp)].
  - rewrite decode_frame_full by done.
    destruct (IH fuel p tail) as (n & rest & Hd & Hbuf & Hs); [done|done| |].
    { rewrite length_app in Hf. pose proof (zlen_encode_frame item) as Hz. unfold zlen in Hz. lia. }
    exists (S n), rest. unfold mbind, res_bind. rewrite Hd. cbn [take drop]. rewrite fmap_cons.
    cbn [concat]. rewrite <- app_assoc, <- Hbuf. done.
  - destruct p as [|b p].
    + rewrite app_nil_r in Hq. subst buf.
      pose proof (decode_frame_full item [] Hi) as Hfull. rewrite app_nil_r in Hfull. rewrite Hfull.
      destruct (IH fuel [] tail) as (n & rest & Hd & Hbuf & Hs); [done|done| |].
      { pose proof (zlen_encode_frame item) as Hz. unfold zlen in Hz. simpl. lia. }
      exists (S n), rest. unfold mbind, res_bind. rewrite Hd. cbn [take drop]. rewrite fmap_cons.
      cbn [concat]. rewrite <- app_assoc, <- Hbuf, app_nil_r. done.
    + exists 0%nat, buf. rewrite (decode_frame_partial item buf (b :: p)) by done.
      split; [done|]. split; [done|]. cbn [drop short_of]. rewrite Hq, length_app. simpl. lia.
Qed.

Lemma feed_prefix chunks : ∀ items buf tail, Forall frame_ok items → short_of buf items →
  buf ++ concat chunks ++ tail = wire items →
  ∃ n rest, feed_chunks buf chunks = Ok (take n items, rest)
    ∧ buf ++ concat chunks = wire (take n items) ++ rest ∧ short_of rest (drop n items).
Proof.
  induction chunks as [|c cs IH]; intros items buf tail Hok Hs Hb.
  { exists 0%nat, buf. cbn [concat take drop]. by rewrite app_nil_r. }
  cbn [concat feed_chunks] in *. rewrite <- app_assoc, (app_assoc buf) in Hb.
  destruct (drain_prefix items (S (length (buf ++ c))) (buf ++ c) (concat cs ++ tail))
    as (n & rest & Hd & Hbuf & Hs'); [done|done|lia|].
  destruct (IH (drop n items) rest tail) as (m & rest' & Hf & Hbuf' & Hs'').
  { by apply Forall_drop. } { done. }
  { rewrite Hbuf in Hb. rewrite <- (take_drop n items) in Hb at 2.
    rewrite fmap_app, concat_app, <- app_assoc in Hb. by apply app_inv_head in Hb. }
  exists (n + m)%nat, rest'. unfold mbind, res_bind. rewrite Hd, Hf.
  rewrite drop_drop in Hs''. split; [|split; [|done]].
  - by rewrite take_take_drop.
  - rewrite (app_assoc buf), Hbuf, <- app_assoc, Hbuf', app_assoc.
    by rewrite <- concat_app, <- fmap_app, take_take_drop.
Qed.

(** ** Properties *)

(** The wire primitives round-trip.  What the writers append for a varint of
    any [i64], a string, a compact string, a byte string or a compact byte
    string (absent or present, of a length the field can carry) is read back
    exactly, and the reader stops at the first byte that follows it. *)
Theorem wire_primitives_roundtrip v s cs b cb k :
  in_s 64 v → opt_all wire_string s → opt_all wire_cstring cs →
  opt_all wire_bytes b → opt_all wire_cbytes cb →
  (v' ← read_varint; s' ← read_string; cs' ← read_compact_string; b' ← read_bytes;
   cb' ← read_compact_bytes; mret (v', s', cs', b', cb'))
    (write_varint v ++ write_string s ++ write_compact_string cs ++ write_bytes b
       ++ write_compact_bytes cb ++ k)
  = Ok (v, s, cs, b, cb, k).
Proof.
  intros. erewrite reader_bind_ok by (by apply read_varint_ok).
  erewrite reader_bind_ok by (by apply read_string_ok).
  erewrite reader_bind_ok by (by apply read_compact_string_ok).
  erewrite reader_bind_ok by (by apply read_bytes_ok).
  by erewrite reader_bind_ok by (by apply read_compact_bytes_ok).
Qed.

Lemma wire_primitives_roundtrip_witness :
  (v' ← read_varint; s' ← read_string; cs' ← read_compact_string; b' ← read_bytes;
   cb' ← read_compact_bytes; mret (v', s', cs', b', cb'))
    (write_varint (-300) ++ write_string (Some "orders"%string) ++ write_compact_string None
       ++ write_bytes None ++ write_compact_bytes (Some [x01]) ++ [x07])
  = Ok (-300, Some "orders"%string, None, None, Some [x01], [x07]).
Proof. apply wire_primitives_roundtrip; apply (bool_decide_unpack _); vm_compute; exact I. Defined.

(** Request headers round-trip: for every API key, version, correlation id
    and client id, decoding the encoded header followed by the request's body
    gives the header back and leaves the cursor at the body, where a flexible
    [ApiVersions] header (version 3 and up) has to be followed by the
    tagged-field section, which the encoder does not write. *)
Theorem request_header_roundtrip h body : header_wf h →
  decode_request_header (encode_request_header h ++ client_tags h ++ body) = Ok (h, body).
Proof. apply request_header_decodes. Qed.

Lemma request_header_roundtrip_witness :
  let h := mkReqHeader ApiApiVersions 3 42 (Some "client"%string) in
  decode_request_header (encode_request_header h ++ client_tags h ++ [x05]) = Ok (h, [x05]).
Proof. apply request_header_roundtrip. apply (bool_decide_unpack _). vm_compute. exact I. Defined.

(** C27: Frames survive any chunking of the connection.  When the bytes that have
    arrived so far, cut into chunks in any way, are a prefix of a sequence of
    encoded frames, none larger than the decoder's limit of 100 MB, the decoder has delivered exactly the frames that are
    complete, in order; it keeps the bytes of the incomplete one untouched; and
    once everything has arrived it has delivered every frame and kept nothing. *)
Theorem kafka_frame_stream items chunks tail :
  Forall frame_ok items → concat chunks ++ tail = concat (encode_kafka_frame <$> items) →
  ∃ n rest, feed_chunks [] chunks = Ok (take n items, rest)
    ∧ concat chunks = concat (encode_kafka_frame <$> take n items) ++ rest
    ∧ (∀ next, items !! n = Some next → (length rest < length (encode_kafka_frame next))%nat)
    ∧ (tail = [] → take n items = items ∧ rest = []).
Proof.
  intros Hok Hb.
  destruct (feed_prefix chunks items [] tail) as (n & rest & Hf & Hbuf & Hs); [done| |done|].
  { destruct items as [|b items]; [done|]. pose proof (zlen_encode_frame b) as Hz. unfold zlen in Hz. simpl. lia. }
  exists n, rest. split; [done|]. split; [done|]. split.
  - intros next Hn. apply drop_S in Hn. by rewrite Hn in Hs.
  - intros ->. rewrite app_nil_r in Hb. cbn [app] in Hbuf. rewrite Hbuf in Hb.
    rewrite <- (take_drop n items) in Hb at 2. rewrite fmap_app, concat_app in Hb.
    apply app_inv_head in Hb. rewrite <- (take_drop n items) at 2.
    destruct (drop n items) as [|item rem].
    { by rewrite app_nil_r. }
    exfalso. rewrite fmap_cons in Hb. cbn [concat short_of] in *. subst rest.
    rewrite length_app in Hs. lia.
Qed.

Lemma kafka_frame_stream_witness :
  ∃ n rest, feed_chunks [] [[x00; x00]; [x00; x01; x61; x00]] = Ok (take n [[x61]; [x62]], rest)
    ∧ concat [[x00; x00]; [x00; x01; x61; x00]] = concat (encode_kafka_frame <$> take n [[x61]; [x62]]) ++ rest
    ∧ (∀ next, [[x61]; [x62]] !! n = Some next → (length rest < length (encode_kafka_frame next))%nat)
    ∧ ([x00; x00; x01; x62] = [] → take n [[x61]; [x62]] = [[x61]; [x62]] ∧ rest = []).
Proof.
  apply kafka_frame_stream.
  - apply (bool_decide_unpack _). vm_compute. exact I.
  - vm_compute. reflexivity.
Defined.

(** The length prefix of [write_string] is a wrapped [i16]: a string of 32768
    bytes or more is written with a length that is not its own. *)
Theorem write_string_length_wraps : ∃ s k, str_ok s ∧ str_len s = 2 ^ 15 ∧
  read_string (write_string (Some s) ++ k) = Ok (None, str_bytes s ++ k).
Proof.
  set (s := bytes_str (replicate (Z.to_nat (2 ^ 15)) x61)). exists s, [].
  assert (str_bytes s = replicate (Z.to_nat (2 ^ 15)) x61) as Hb by apply str_bytes_str.
  assert (str_len s = 2 ^ 15) as Hl.
  { rewrite <- length_str_bytes, Hb. unfold zlen. by rewrite length_replicate. }
  split; [|split; [done|]].
  - unfold str_ok. rewrite Hb. by vm_compute.
  - unfold write_string. rewrite Hl. unfold read_string. rewrite read_remaining.
    rewrite <- app_assoc. pose proof (zlen_nonneg (str_bytes s ++ [])).
    rewrite decide_False by (rewrite zlen_app, zlen_to_be; lia).
    erewrite reader_bind_ok by (eapply get_s_app; [reflexivity|lia|vm_compute; split; congruence]).
    done.
Qed.
