(* ===== verification/Batch.v ===== *)
(** * Record batches on the wire

    The record-batch (magic v2) routines of
    [crates/oxidemq-protocol/src/messages.rs]: [decompress_record_batch],
    [compress_record_batch], [encode_record_batch_v2],
    [parse_record_batch_records] and [encode_control_batch].

    The scanning loops of these functions advance by a length field taken from
    the input, as a wrapping [usize], so they need not terminate: a loop returns
    [None] when the fuel, one unit per byte of input, is used up. *)

From Stdlib Require Import Strings.Byte.
From stdpp Require Import base numbers list strings sets.
From S2P Require Import Prelude Bytes Crc CoreTypes S3Format KafkaWire.

(** ** The scanning loop *)

(** [while cursor + 61 <= src.len() { .. }]: the magic check, the length field
    and the two [break]s are common to the three scanning functions; [body] is
    what the function does with the batch at [cursor]. *)
Definition batch_total (src : bytes) (cursor : Z) : result Z :=
  lb ← slice src (cursor + 8) (cursor + 12);
  Ok (u64 (12 + u64 (wrap_s 32 (from_be lb)))).

Definition batch_step {St} (src : bytes) (body : Z → Z → St → result St) (cursor : Z) (st : St)
    : result (option (Z * St)) :=
  m ← index src (cursor + 16);
  if decide (m = 2) then
    total ← batch_total src cursor;
    if decide (u64 (cursor + total) > zlen src) then Ok None else
    st' ← body cursor total st;
    Ok (Some (u64 (cursor + total), st'))
  else Ok None.

Fixpoint for_batches {St} (fuel : nat) (src : bytes) (body : Z → Z → St → result St)
    (cursor : Z) (st : St) : option (result (Z * St)) :=
  match fuel with
  | O => None
  | S fuel' =>
      if decide (cursor + 61 ≤ zlen src) then
        match batch_step src body cursor st with
        | Ok (Some (cursor', st')) => for_batches fuel' src body cursor' st'
        | Ok None => Some (Ok (cursor, st))
        | Err e => Some (Err e)
        | Panic => Some Panic
        end
      else Some (Ok (cursor, st))
  end.

Definition scan_fuel (src : bytes) : nat := S (length src).

(** Continue with the outcome of a loop that returned. *)
Definition and_then {A B} (m : option (result A)) (f : A → option (result B)) : option (result B) :=
  match m with
  | None => None
  | Some (Ok a) => f a
  | Some (Err e) => Some (Err e)
  | Some Panic => Some Panic
  end.

(** ** Compression of batches *)
Definition batch_attributes (src : bytes) (cursor : Z) : result Z :=
  ab ← slice src (cursor + 21) (cursor + 23);
  Ok (wrap_s 16 (from_be ab)).

(** The header fields of the batch at [cursor] copied behind [out], with a new
    length, attributes, payload and CRC. *)
Definition put_batch (src : bytes) (cursor attrs : Z) (payload out : bytes) : result bytes :=
  let new_batch_len := i32 (49 + zlen payload) in
  let start_idx := zlen out in
  base ← slice src cursor (cursor + 8);
  epoch ← slice src (cursor + 12) (cursor + 16);
  rest ← slice src (cursor + 23) (cursor + 61);
  let out := out ++ base ++ put_32 new_batch_len ++ epoch ++ put_8 2 ++ put_32 0
               ++ put_16 attrs ++ rest ++ payload in
  crc_data ← slice out (start_idx + 21) (zlen out);
  copy_at out (start_idx + 17) (put_32 (compute_crc32c crc_data)).

Section compression.
Context `{CompressionLib}.

Definition decompress_body (src : bytes) (cursor total : Z) (st : bytes * bool)
    : result (bytes * bool) :=
  let '(out, any_decompressed) := st in
  attrs ← batch_attributes src cursor;
  let codec := from_attributes attrs in
  if decide (codec ≠ CNone) then
    payload ← slice src (cursor + 61) (u64 (cursor + total));
    decompressed ← decompress codec payload;
    out ← put_batch src cursor (Z.land attrs (Z.lnot 7)) decompressed out;
    Ok (out, true)
  else
    piece ← slice src cursor (u64 (cursor + total));
    Ok (out ++ piece, any_decompressed).

(** [&src[cursor..]] appended when the scan stopped early. *)
Definition put_rest (src : bytes) (cursor : Z) (out : bytes) : result bytes :=
  if decide (cursor < zlen src) then
    piece ← slice src cursor (zlen src); Ok (out ++ piece)
  else Ok out.

Definition decompress_record_batch (batch_bytes : bytes) : option (result bytes) :=
  if decide (zlen batch_bytes < 61) then Some (Ok batch_bytes) else
  and_then (for_batches (scan_fuel batch_bytes) batch_bytes (decompress_body batch_bytes) 0 ([], false))
    (λ '(cursor, (out, any_decompressed)),
      Some (if any_decompressed : bool then put_rest batch_bytes cursor out else Ok batch_bytes)).

Definition compress_body (target_codec : CompressionCodec) (src : bytes) (cursor total : Z)
    (out : bytes) : result bytes :=
  attrs ← batch_attributes src cursor;
  payload ← slice src (cursor + 61) (u64 (cursor + total));
  compressed ← compress target_codec payload;
  put_batch src cursor (Z.lor (Z.land attrs (Z.lnot 7)) (to_attributes target_codec)) compressed out.

Definition compress_record_batch (batch_bytes : bytes) (target_codec : CompressionCodec)
    : option (result bytes) :=
  if decide (target_codec = CNone) then decompress_record_batch batch_bytes else
  and_then (decompress_record_batch batch_bytes) (λ src,
    if decide (zlen src < 61) then Some (Ok batch_bytes) else
    and_then (for_batches (scan_fuel src) src (compress_body target_codec src) 0 [])
      (λ '(cursor, out), Some (put_rest src cursor out))).

(** ** Encoding records *)
Definition put_opt (o : option bytes) : bytes :=
  match o with
  | Some k => write_varint (zlen k) ++ k
  | None => write_varint (-1)
  end.

Definition put_header (h : RecordHeader) : bytes :=
  write_varint (str_len (hdr_key h)) ++ str_bytes (hdr_key h)
    ++ write_varint (zlen (hdr_value h)) ++ hdr_value h.

Definition record_body (base_offset base_timestamp : Z) (r : Record') : bytes :=
  put_8 0 ++ write_varint (i64 (rec_timestamp r - base_timestamp))
    ++ write_varint (i64 (rec_offset r - base_offset))
    ++ put_opt (rec_key r) ++ put_opt (rec_value r)
    ++ write_varint (zlen (rec_headers r)) ++ concat (put_header <$> rec_headers r).

Definition record_bytes (base_offset base_timestamp : Z) (r : Record') : bytes :=
  let rec_body := record_body base_offset base_timestamp r in
  write_varint (zlen rec_body) ++ rec_body.

(** [records.first().map(|r| r.timestamp).unwrap_or(0)] *)
Definition first_timestamp (recs : list Record') : Z :=
  match recs with r :: _ => rec_timestamp r | [] => 0 end.

Definition records_payload (base_offset : Z) (recs : list Record') : bytes :=
  concat (record_bytes base_offset (first_timestamp recs) <$> recs).

Definition max_ts (recs : list Record') : Z :=
  foldl (λ acc r, Z.max acc (rec_timestamp r)) (first_timestamp recs) recs.

(** The CRC over everything behind it, patched into bytes 17 to 21. *)
Definition seal_crc (out : bytes) : result bytes :=
  crc_data ← slice out 21 (zlen out);
  copy_at out 17 (put_32 (compute_crc32c crc_data)).

Definition encode_record_batch_v2 (base_offset : Z) (recs : list Record') (codec : CompressionCodec)
    : result bytes :=
  let payload := records_payload base_offset recs in
  records_payload ← (if decide (codec ≠ CNone) then compress codec payload else Ok payload);
  let count := i32 (zlen recs) in
  let last_offset_delta := Z.max (i32 (count - 1)) 0 in
  let batch_len := i32 (49 + zlen records_payload) in
  seal_crc (put_64 base_offset ++ put_32 batch_len ++ put_32 0 ++ put_8 2 ++ put_32 0
    ++ put_16 (to_attributes codec) ++ put_32 last_offset_delta ++ put_64 (first_timestamp recs)
    ++ put_64 (max_ts recs) ++ put_64 (-1) ++ put_16 (-1) ++ put_32 (-1) ++ put_32 count
    ++ records_payload).

(** [now] is the clock reading in milliseconds. *)
Definition encode_control_batch (now base_offset producer_id producer_epoch : Z) (is_commit : bool)
    : result bytes :=
  let control_type := if is_commit then 1 else 0 in
  let rec_body := put_8 0 ++ write_varint 0 ++ write_varint 0 ++ write_varint 4 ++ put_16 0
                    ++ put_16 control_type ++ write_varint 2 ++ put_16 0 ++ write_varint 0 in
  let payload := write_varint (zlen rec_body) ++ rec_body in
  let batch_len := i32 (49 + zlen payload) in
  seal_crc (put_64 base_offset ++ put_32 batch_len ++ put_32 0 ++ put_8 2 ++ put_32 0
    ++ put_16 0x0030 ++ put_32 0 ++ put_64 now ++ put_64 now ++ put_64 producer_id
    ++ put_16 producer_epoch ++ put_32 (-1) ++ put_32 1 ++ payload).

(** ** Parsing records *)
Definition read_opt (what : string) : reader OxideMqError (option bytes) :=
  len ← read_varint;
  if decide (len ≥ 0) then
    n ← remaining;
    if decide (n < len) then fail (EProtocol ("Truncated record " +:+ what)) else
    l ← take_bytes len;
    mret (Some l)
  else mret None.

Definition read_header : reader OxideMqError RecordHeader :=
  k_len ← read_varint;
  n ← remaining;
  if decide (k_len < 0 ∨ n < k_len) then fail (EProtocol "Truncated header key") else
  k_bytes ← take_bytes k_len;
  match from_utf8 k_bytes with
  | None => fail (EProtocol "Invalid header key UTF-8: ")
  | Some k_str =>
      v_len ← read_varint;
      v_bytes ← (if decide (v_len ≥ 0) then
                   n ← remaining;
                   if decide (n < v_len) then fail (EProtocol "Truncated header value")
                   else take_bytes v_len
                 else mret []);
      mret (mkHeader k_str v_bytes)
  end.

Definition read_record (base_offset base_timestamp : Z) : reader OxideMqError Record' :=
  _ ← get_i8;
  ts_delta ← read_varint;
  off_delta ← read_varint;
  key ← read_opt "key";
  value ← read_opt "value";
  headers_count ← read_varint;
  headers ← read_n (Z.to_nat (Z.max headers_count 0)) read_header;
  mret (mkRecord (i64 (base_offset + off_delta)) (i64 (base_timestamp + ts_delta))
                 key value headers).

(** [for _ in 0..num_records], with its two [break]s on an empty payload. *)
Fixpoint read_records (n : nat) (base_offset base_timestamp : Z) (payload : bytes)
    (recs : list Record') : result (list Record') :=
  match n with
  | O => Ok recs
  | S n' =>
      if decide (payload = []) then Ok recs else
      '(_, payload) ← read_varint payload;
      if decide (payload = []) then Ok recs else
      '(r, payload) ← read_record base_offset base_timestamp payload;
      read_records n' base_offset base_timestamp payload (recs ++ [r])
  end.

Definition parse_body (src : bytes) (cursor total : Z) (recs : list Record')
    : result (list Record') :=
  b8 ← slice src cursor (cursor + 8);
  t8 ← slice src (cursor + 27) (cursor + 35);
  n4 ← slice src (cursor + 57) (cursor + 61);
  payload ← slice src (cursor + 61) (u64 (cursor + total));
  read_records (Z.to_nat (wrap_s 32 (from_be n4))) (wrap_s 64 (from_be b8))
    (wrap_s 64 (from_be t8)) payload recs.

Definition parse_record_batch_records (batch_bytes : bytes) : option (result (list Record')) :=
  and_then (decompress_record_batch batch_bytes) (λ src,
    and_then (for_batches (scan_fuel src) src (parse_body src) 0 [])
      (λ '(_, recs), Some (Ok recs))).
End compression.

(** ** Layout of a batch *)
Record image := mkImage {
  im_base : bytes;      (* base offset, 8 bytes *)
  im_epoch : bytes;     (* partition leader epoch, 4 bytes *)
  im_attrs : Z;
  im_rest : bytes;      (* bytes 23 to 61 *)
  im_payload : bytes }.

Definition im_crc_data (im : image) : bytes := put_16 (im_attrs im) ++ im_rest im ++ im_payload im.

Definition im_bytes (im : image) : bytes :=
  im_base im ++ put_32 (49 + zlen (im_payload im)) ++ im_epoch im ++ put_8 2
    ++ put_32 (compute_crc32c (im_crc_data im)) ++ im_crc_data im.

Definition image_wf (im : image) : Prop :=
  zlen (im_base im) = 8 ∧ zlen (im_epoch im) = 4 ∧ in_s 16 (im_attrs im)
  ∧ zlen (im_rest im) = 38 ∧ 61 + zlen (im_payload im) < 2 ^ 31.

Definition with_payload (im : image) (attrs : Z) (payload : bytes) : image :=
  mkImage (im_base im) (im_epoch im) attrs (im_rest im) payload.

#[export] Instance image_wf_dec im : Decision (image_wf im).
Proof. unfold image_wf. apply _. Defined.

Lemma zlen_crc_data im : image_wf im → zlen (im_crc_data im) = 40 + zlen (im_payload im).
Proof. intros (?&?&?&?&?). unfold im_crc_data. lens. lia. Qed.

Lemma zlen_im_bytes im : image_wf im → zlen (im_bytes im) = 61 + zlen (im_payload im).
Proof.
  intros Hwf. pose proof (zlen_crc_data im Hwf). destruct Hwf as (?&?&?&?&?).
  unfold im_bytes. lens. lia.
Qed.

(** ** Slices and patches at a position *)
Lemma slice_at {E} src p m q i j : src = p ++ m ++ q → i = zlen p → j = i + zlen m →
  slice (E:=E) src i j = Ok m.
Proof.
  intros -> -> ->. unfold slice. pose proof (zlen_nonneg p). pose proof (zlen_nonneg m).
  pose proof (zlen_nonneg q). rewrite decide_True by (lens; lia).
  rewrite drop_app_exact by (unfold zlen; lia).
  rewrite take_app_exact by (unfold zlen; lia). done.
Qed.

Lemma index_at {E} src p b q i : src = p ++ b :: q → i = zlen p →
  index (E:=E) src i = Ok (Z_of_byte b).
Proof.
  intros -> ->. unfold index. pose proof (zlen_nonneg p). rewrite decide_True by done.
  unfold zlen. rewrite Nat2Z.id. by rewrite list_lookup_middle.
Qed.

Lemma copy_at_at {E} p m q i new : i = zlen p → zlen new = zlen m →
  copy_at (E:=E) (p ++ m ++ q) i new = Ok (p ++ new ++ q).
Proof.
  intros -> Hl. unfold copy_at. pose proof (zlen_nonneg p). pose proof (zlen_nonneg q).
  pose proof (zlen_nonneg m). rewrite decide_True by (lens; lia). unfold zlen in *.
  rewrite Nat2Z.id. f_equal. rewrite take_app_exact by done. do 2 f_equal.
  rewrite app_assoc, drop_app_exact; [done|]. rewrite length_app. lia.
Qed.

(** Solves [src = p ++ m ++ q] up to associativity. *)
Ltac app_eq := cbn [app]; rewrite <- ?app_assoc; cbn [app]; rewrite <- ?app_assoc; reflexivity.

(** ** The loop over a sequence of batches *)
Section images.
Context (im : image) (Hwf : image_wf im).
Context (pre post : bytes) (src : bytes) (Hsrc : src = pre ++ im_bytes im ++ post).

Lemma batch_total_at : batch_total src (zlen pre) = Ok (zlen (im_bytes im)).
Proof using Hwf Hsrc.
  pose proof (zlen_im_bytes im Hwf) as Hl. destruct Hwf as (?&?&?&?&?).
  pose proof (zlen_nonneg (im_payload im)). unfold batch_total.
  rewrite (slice_at src (pre ++ im_base im) (put_32 (49 + zlen (im_payload im)))
    (im_epoch im ++ put_8 2 ++ put_32 (compute_crc32c (im_crc_data im)) ++ im_crc_data im ++ post)).
  2: { rewrite Hsrc. unfold im_bytes. app_eq. }
  2: { rewrite zlen_app. lia. }
  2: { rewrite zlen_to_be. lia. }
  cbn. rewrite from_be_to_be. change (256 ^ Z.of_nat 4) with (2 ^ 32).
  rewrite wrap_s_of_residue by (try unfold in_s; change (32 - 1) with 31; lia).
  f_equal. rewrite (wrap_u_small 64 (49 + _)) by (unfold in_u; lia).
  rewrite wrap_u_small by (unfold in_u; lia). lia.
Qed.

Lemma batch_magic_at : index (E:=OxideMqError) src (zlen pre + 16) = Ok 2.
Proof using Hwf Hsrc.
  destruct Hwf as (?&?&?&?&?).
  rewrite (index_at src (pre ++ im_base im ++ put_32 (49 + zlen (im_payload im)) ++ im_epoch im) x02
    (put_32 (compute_crc32c (im_crc_data im)) ++ im_crc_data im ++ post)); [done| |].
  - rewrite Hsrc. unfold im_bytes. change (put_8 2) with [x02]. app_eq.
  - rewrite !zlen_app, zlen_to_be. lia.
Qed.

Lemma batch_attributes_at : batch_attributes src (zlen pre) = Ok (im_attrs im).
Proof using Hwf Hsrc.
  destruct Hwf as (?&?&?&?&?). unfold batch_attributes.
  rewrite (slice_at src (pre ++ im_base im ++ put_32 (49 + zlen (im_payload im)) ++ im_epoch im
    ++ put_8 2 ++ put_32 (compute_crc32c (im_crc_data im))) (put_16 (im_attrs im))
    (im_rest im ++ im_payload im ++ post)).
  2: { rewrite Hsrc. unfold im_bytes. change (im_crc_data im) with
         (put_16 (im_attrs im) ++ im_rest im ++ im_payload im) at 2. app_eq. }
  2: { rewrite !zlen_app, !zlen_to_be. lia. }
  2: { rewrite zlen_to_be. lia. }
  cbn. rewrite from_be_to_be. change (256 ^ Z.of_nat 2) with (2 ^ 16).
  by rewrite wrap_s_of_residue.
Qed.

Lemma batch_rest_at {E} : slice (E:=E) src (zlen pre + 23) (zlen pre + 61) = Ok (im_rest im).
Proof using Hwf Hsrc.
  destruct Hwf as (?&?&?&?&?).
  apply (slice_at src (pre ++ im_base im ++ put_32 (49 + zlen (im_payload im)) ++ im_epoch im
    ++ put_8 2 ++ put_32 (compute_crc32c (im_crc_data im)) ++ put_16 (im_attrs im)) _
    (im_payload im ++ post)).
  - rewrite Hsrc. unfold im_bytes. change (im_crc_data im) with
      (put_16 (im_attrs im) ++ im_rest im ++ im_payload im) at 2. app_eq.
  - rewrite !zlen_app, !zlen_to_be. lia.
  - lia.
Qed.

(** The rest and the payload, split at any field boundary of the rest. *)
Lemma batch_payload_at {E} : slice (E:=E) src (zlen pre + 61) (zlen pre + zlen (im_bytes im))
  = Ok (im_payload im).
Proof using Hwf Hsrc.
  pose proof (zlen_im_bytes im Hwf). destruct Hwf as (?&?&?&?&?).
  apply (slice_at src (pre ++ im_base im ++ put_32 (49 + zlen (im_payload im)) ++ im_epoch im
    ++ put_8 2 ++ put_32 (compute_crc32c (im_crc_data im)) ++ put_16 (im_attrs im) ++ im_rest im) _ post).
  - rewrite Hsrc. unfold im_bytes. change (im_crc_data im) with
      (put_16 (im_attrs im) ++ im_rest im ++ im_payload im) at 2. app_eq.
  - rewrite !zlen_app, !zlen_to_be. lia.
  - lia.
Qed.

Lemma put_batch_at attrs payload out : 61 + zlen payload < 2 ^ 31 →
  put_batch src (zlen pre) attrs payload out = Ok (out ++ im_bytes (with_payload im attrs payload)).
Proof using Hwf Hsrc.
  intros Hp. pose proof batch_rest_at (E:=OxideMqError) as Hrest. destruct Hwf as (Hb&He&?&?&?).
  pose proof (zlen_nonneg payload). unfold put_batch.
  rewrite (wrap_s_small 32) by (try unfold in_s; change (32 - 1) with 31; lia).
  assert (slice (E:=OxideMqError) src (zlen pre) (zlen pre + 8) = Ok (im_base im)) as ->.
  { apply (slice_at src pre (im_base im) (put_32 (49 + zlen (im_payload im)) ++ im_epoch im
      ++ put_8 2 ++ put_32 (compute_crc32c (im_crc_data im)) ++ im_crc_data im ++ post)).
    - rewrite Hsrc. unfold im_bytes. app_eq.
    - done.
    - lia. }
  assert (slice (E:=OxideMqError) src (zlen pre + 12) (zlen pre + 16) = Ok (im_epoch im)) as ->.
  { apply (slice_at src (pre ++ im_base im ++ put_32 (49 + zlen (im_payload im))) _
      (put_8 2 ++ put_32 (compute_crc32c (im_crc_data im)) ++ im_crc_data im ++ post)).
    - rewrite Hsrc. unfold im_bytes. app_eq.
    - rewrite !zlen_app, zlen_to_be. lia.
    - lia. }
  rewrite Hrest. unfold mbind, res_bind. cbv iota beta zeta.
  set (hd := im_base im ++ put_32 (49 + zlen payload) ++ im_epoch im ++ put_8 2).
  assert (zlen hd = 17) as Hhd by (unfold hd; rewrite !zlen_app, !zlen_to_be; lia).
  replace (out ++ im_base im ++ _) with
    ((out ++ hd) ++ put_32 0 ++ im_crc_data (with_payload im attrs payload)) by (unfold hd; app_eq).
  rewrite (slice_at _ (out ++ hd ++ put_32 0) (im_crc_data (with_payload im attrs payload)) []).
  2: { rewrite app_nil_r. app_eq. } 2: { rewrite !zlen_app, zlen_to_be. lia. }
  2: { rewrite !zlen_app, zlen_to_be. lia. }
  rewrite copy_at_at.
  2: { rewrite zlen_app. lia. } 2: { by rewrite !zlen_to_be. }
  unfold im_bytes, hd, with_payload at 3. cbn [im_base im_epoch im_payload]. f_equal. app_eq.
Qed.

Lemma batch_whole_at {E} : slice (E:=E) src (zlen pre) (zlen pre + zlen (im_bytes im)) = Ok (im_bytes im).
Proof using Hsrc. by apply (slice_at src pre (im_bytes im) post). Qed.

Lemma for_batches_step {St} fuel (body : Z → Z → St → result St) st :
  zlen src < 2 ^ 63 →
  for_batches (S fuel) src body (zlen pre) st =
    match body (zlen pre) (zlen (im_bytes im)) st with
    | Ok st' => for_batches fuel src body (zlen pre + zlen (im_bytes im)) st'
    | Err e => Some (Err e)
    | Panic => Some Panic
    end.
Proof using Hwf Hsrc.
  intros Hs. pose proof (zlen_im_bytes im Hwf) as Hl. pose proof (zlen_nonneg (im_payload im)).
  pose proof (zlen_nonneg pre). pose proof (zlen_nonneg post).
  assert (zlen src = zlen pre + zlen (im_bytes im) + zlen post) as Hz
    by (rewrite Hsrc, !zlen_app; lia).
  cbn [for_batches]. rewrite decide_True by lia. unfold batch_step.
  rewrite batch_magic_at. unfold mbind, res_bind. cbv iota beta. rewrite decide_True by done.
  rewrite batch_total_at. cbv iota beta.
  rewrite wrap_u_small by (unfold in_u; lia). rewrite decide_False by lia.
  by destruct (body _ _ st).
Qed.
End images.

(** ** Codec bits of the attributes *)
Lemma attrs_plain a : Z.land a 7 = a mod 8.
Proof. change 7 with (Z.ones 3). by rewrite Z.land_ones by lia. Qed.

Lemma attrs_clear a : Z.land a (Z.lnot 7) = a - a mod 8.
Proof.
  rewrite <- attrs_plain. change (Z.land a (Z.lnot 7)) with (Z.land a (Z.lnot 7)).
  rewrite <- Z.ldiff_land. rewrite <- (Z.lor_ldiff_and a 7) at 2.
  rewrite <- Z.lxor_lor, <- Z.add_nocarry_lxor.
  - lia.
  - apply Z.bits_inj'. intros n Hn. rewrite !Z.land_spec, Z.ldiff_spec, Z.bits_0.
    by destruct (Z.testbit a n), (Z.testbit 7 n).
  - apply Z.bits_inj'. intros n Hn. rewrite !Z.land_spec, Z.ldiff_spec, Z.bits_0.
    by destruct (Z.testbit a n), (Z.testbit 7 n).
Qed.

Lemma to_attributes_range c : 0 ≤ to_attributes c < 8.
Proof. by destruct c. Qed.

(** Stamping a codec into attributes whose codec bits are clear. *)
Lemma attrs_set a c : a mod 8 = 0 → Z.lor (Z.land a (Z.lnot 7)) (to_attributes c) = a + to_attributes c.
Proof.
  intros Ha. rewrite attrs_clear, Ha, Z.sub_0_r, Z.lor_comm.
  pose proof (to_attributes_range c). pose proof (Z.div_mod a 8).
  replace a with (Z.shiftl (a / 8) 3) at 1 by (rewrite Z.shiftl_mul_pow2 by lia; change (2 ^ 3) with 8; lia).
  rewrite lor_disjoint by (change (2 ^ 3) with 8; lia). change (2 ^ 3) with 8. lia.
Qed.

Lemma attrs_set_codec a c : a mod 8 = 0 → from_attributes (a + to_attributes c) = c.
Proof.
  intros Ha. unfold from_attributes. rewrite attrs_plain.
  rewrite Zplus_mod, Ha, Z.add_0_l, Zmod_mod, Z.mod_small by apply to_attributes_range.
  by destruct c.
Qed.

Lemma attrs_set_clear a c : a mod 8 = 0 → Z.land (a + to_attributes c) (Z.lnot 7) = a.
Proof.
  intros Ha. rewrite attrs_clear, Zplus_mod, Ha, Z.add_0_l, Zmod_mod, Z.mod_small
    by apply to_attributes_range. lia.
Qed.

Lemma attrs_set_range a c : in_s 16 a → a mod 8 = 0 → in_s 16 (a + to_attributes c).
Proof.
  unfold in_s. change (16 - 1) with 15. intros [H1 H2] Ha. pose proof (to_attributes_range c).
  pose proof (Z.div_mod a 8). change (2 ^ 15) with (8 * 4096) in *. lia.
Qed.

Lemma plain_codec a : a mod 8 = 0 → from_attributes a = CNone.
Proof. intros Ha. pose proof (attrs_set_codec a CNone Ha) as H. by rewrite Z.add_0_r in H. Qed.

(** ** Scanning a sequence of batches *)
Abbreviation images ims := (concat (im_bytes <$> ims)).

Lemma for_batches_images {St} (body : Z → Z → St → result St) (f : image → St → St) src ims :
  zlen src < 2 ^ 63 → Forall image_wf ims →
  (∀ im p q st, im ∈ ims → src = p ++ im_bytes im ++ q →
     body (zlen p) (zlen (im_bytes im)) st = Ok (f im st)) →
  ∀ fuel pre st, src = pre ++ images ims → (length ims < fuel)%nat →
  for_batches fuel src body (zlen pre) st = Some (Ok (zlen src, foldl (flip f) st ims)).
Proof.
  intros Hs. induction ims as [|im ims IH]; intros Hwf Hb fuel pre st Hsrc Hf;
    (destruct fuel as [|fuel]; [simpl in Hf; lia|]).
  { cbn in Hsrc. rewrite app_nil_r in Hsrc. subst pre. cbn [for_batches foldl].
    by rewrite decide_False by lia. }
  apply Forall_cons in Hwf as [Hi Hwf]. rewrite fmap_cons in Hsrc. cbn [concat] in Hsrc.
  rewrite (for_batches_step im Hi pre _ src Hsrc) by done.
  rewrite (Hb im pre _ st ltac:(set_solver) Hsrc). rewrite <- zlen_app.
  cbn [foldl]. unfold flip at 2. apply IH.
  - done.
  - intros. apply Hb with q; set_solver.
  - by rewrite <- app_assoc.
  - simpl in Hf. lia.
Qed.

Lemma images_count ims : Forall image_wf ims → 61 * zlen ims ≤ zlen (images ims).
Proof.
  induction 1 as [|im ims Hi Hwf IH]; [done|]. rewrite fmap_cons. cbn [concat].
  rewrite zlen_app, zlen_cons, zlen_im_bytes by done. pose proof (zlen_nonneg (im_payload im)). lia.
Qed.

Lemma scan_images {St} (body : Z → Z → St → result St) (f : image → St → St) ims st :
  zlen (images ims) < 2 ^ 63 → Forall image_wf ims →
  (∀ im p q st, im ∈ ims → images ims = p ++ im_bytes im ++ q →
     body (zlen p) (zlen (im_bytes im)) st = Ok (f im st)) →
  for_batches (scan_fuel (images ims)) (images ims) body 0 st
    = Some (Ok (zlen (images ims), foldl (flip f) st ims)).
Proof.
  intros Hs Hwf Hb. apply (for_batches_images body f _ ims Hs Hwf Hb _ [] st); [done|].
  pose proof (images_count ims Hwf) as Hc. unfold scan_fuel, zlen in *. lia.
Qed.

Section recompress.
Context `{CompressionLaws}.

(** A batch with its payload expanded, when the codec accepts it. *)
Definition inflate (im : image) : image :=
  match decompress (from_attributes (im_attrs im)) (im_payload im) with
  | Ok d => with_payload im (Z.land (im_attrs im) (Z.lnot 7)) d
  | _ => im
  end.

Definition deflate (c : CompressionCodec) (im : image) : image :=
  match compress c (im_payload im) with
  | Ok x => with_payload im (Z.lor (Z.land (im_attrs im) (Z.lnot 7)) (to_attributes c)) x
  | _ => im
  end.

Definition inflatable (im : image) : Prop := ∃ d,
  decompress (from_attributes (im_attrs im)) (im_payload im) = Ok d ∧ 61 + zlen d < 2 ^ 31.

Definition deflatable (c : CompressionCodec) (im : image) : Prop := ∃ x,
  compress c (im_payload im) = Ok x ∧ 61 + zlen x < 2 ^ 31.

Definition is_compressed (im : image) : bool := bool_decide (from_attributes (im_attrs im) ≠ CNone).

Definition inflate_step (im : image) (st : bytes * bool) : bytes * bool :=
  if is_compressed im then (st.1 ++ im_bytes (inflate im), true) else (st.1 ++ im_bytes im, st.2).

Lemma cursor_end (p : bytes) (im : image) q src : src = p ++ im_bytes im ++ q → zlen src < 2 ^ 63 →
  u64 (zlen p + zlen (im_bytes im)) = zlen p + zlen (im_bytes im).
Proof.
  intros Hsrc Hs. apply wrap_u_small. rewrite Hsrc, !zlen_app in Hs.
  pose proof (zlen_nonneg p). pose proof (zlen_nonneg q). pose proof (zlen_nonneg (im_bytes im)).
  unfold in_u. lia.
Qed.

Lemma decompress_body_at im p q src st : image_wf im → inflatable im → zlen src < 2 ^ 63 →
  src = p ++ im_bytes im ++ q →
  decompress_body src (zlen p) (zlen (im_bytes im)) st = Ok (inflate_step im st).
Proof.
  intros Hwf (d & Hd & Hsz) Hs Hsrc. destruct st as [out any]. unfold decompress_body.
  rewrite (batch_attributes_at im Hwf p q src Hsrc). unfold mbind, res_bind. cbv iota beta zeta.
  rewrite (cursor_end p im q src Hsrc Hs).
  unfold inflate_step, is_compressed, inflate. cbn [fst snd].
  destruct (decide (from_attributes (im_attrs im) ≠ CNone)) as [Hc|Hc].
  - rewrite (batch_payload_at im Hwf p q src Hsrc), Hd. rewrite bool_decide_true by done.
    rewrite (put_batch_at im Hwf p q src Hsrc) by done. done.
  - rewrite (batch_whole_at im p q src Hsrc). by rewrite bool_decide_false.
Qed.

Lemma inflate_plain im : is_compressed im = false → im_attrs im mod 8 = 0 → inflate im = im.
Proof.
  unfold is_compressed. intros Hc%bool_decide_eq_false Ha. unfold inflate.
  rewrite plain_codec by done. cbn. rewrite attrs_clear, Ha, Z.sub_0_r. by destruct im.
Qed.

(** Batches whose attributes name codec 5 to 7 count as uncompressed. *)
Lemma inflate_fold ims out any : Forall (λ im, is_compressed im = false → im_attrs im mod 8 = 0) ims →
  foldl (flip inflate_step) (out, any) ims
    = (out ++ images (inflate <$> ims), any || existsb is_compressed ims).
Proof.
  intros Hp. revert out any. induction Hp as [|im ims Hi Hp IH]; intros out any.
  { cbn. by rewrite app_nil_r, orb_false_r. }
  cbn [foldl existsb]. rewrite !fmap_cons. cbn [concat]. unfold flip at 2, inflate_step. cbn [fst snd].
  destruct (is_compressed im) eqn:Hc; rewrite IH, app_assoc.
  - by rewrite orb_true_r.
  - by rewrite inflate_plain by auto.
Qed.

Lemma decompress_images ims : zlen (images ims) < 2 ^ 63 → Forall image_wf ims →
  Forall inflatable ims → Forall (λ im, is_compressed im = false → im_attrs im mod 8 = 0) ims →
  decompress_record_batch (images ims) = Some (Ok (images (inflate <$> ims))).
Proof.
  intros Hs Hwf Hinf Hp. unfold decompress_record_batch.
  destruct (decide (zlen (images ims) < 61)) as [Hlt|Hge].
  { pose proof (images_count ims Hwf). destruct ims as [|im ims]; [done|].
    rewrite zlen_cons in *. pose proof (zlen_nonneg ims). lia. }
  rewrite (scan_images _ inflate_step); [|done|done|].
  2: { intros im p q st Him Hsrc. rewrite Forall_forall in Hwf, Hinf.
       by apply (decompress_body_at im p q); auto. }
  unfold and_then. rewrite inflate_fold by done. cbn [app orb].
  destruct (existsb is_compressed ims) eqn:He.
  - unfold put_rest. by rewrite decide_False by lia.
  - assert (∀ i im, ims !! i = Some im → is_compressed im = false) as Hn.
    { intros i im Hi. destruct (is_compressed im) eqn:Hc; [|done]. rewrite <- He. symmetry.
      apply existsb_exists. exists im. split; [|done]. by apply list_elem_of_In, list_elem_of_lookup_2 with i. }
    do 4 f_equal. rewrite <- (list_fmap_id ims) at 1. apply list_fmap_ext. intros i im Hi. symmetry.
    rewrite Forall_lookup in Hp. apply inflate_plain; eauto.
Qed.

Lemma compress_body_at c im p q src out : image_wf im → deflatable c im → zlen src < 2 ^ 63 →
  src = p ++ im_bytes im ++ q →
  compress_body c src (zlen p) (zlen (im_bytes im)) out = Ok (out ++ im_bytes (deflate c im)).
Proof.
  intros Hwf (x & Hx & Hsz) Hs Hsrc. unfold compress_body, deflate. rewrite Hx.
  rewrite (batch_attributes_at im Hwf p q src Hsrc). unfold mbind, res_bind. cbv iota beta.
  rewrite (cursor_end p im q src Hsrc Hs), (batch_payload_at im Hwf p q src Hsrc), Hx.
  by rewrite (put_batch_at im Hwf p q src Hsrc).
Qed.

Lemma deflate_fold c ims out :
  foldl (flip (λ im out, out ++ im_bytes (deflate c im))) out ims = out ++ images (deflate c <$> ims).
Proof.
  revert out. induction ims as [|im ims IH]; intros out; [cbn; by rewrite app_nil_r|].
  cbn [foldl]. rewrite IH, fmap_cons. unfold flip. rewrite fmap_cons. cbn [concat]. by rewrite app_assoc.
Qed.

(** A batch that carries no codec bits. *)
Definition plain (im : image) : Prop := image_wf im ∧ im_attrs im mod 8 = 0.

Lemma plain_inflatable im : plain im → inflatable im.
Proof.
  intros [Hwf Ha]. exists (im_payload im). rewrite plain_codec by done. split; [done|]. apply Hwf.
Qed.

Lemma decompress_plain ims : zlen (images ims) < 2 ^ 63 → Forall plain ims →
  decompress_record_batch (images ims) = Some (Ok (images ims)).
Proof.
  intros Hs Hp. rewrite decompress_images; [|done|..].
  - do 4 f_equal. rewrite <- (list_fmap_id ims) at 2. apply list_fmap_ext. intros i im Hi.
    rewrite Forall_lookup in Hp. destruct (Hp i im Hi) as [? Ha]. apply inflate_plain; [|done].
    unfold is_compressed. rewrite plain_codec by done. done.
  - eapply Forall_impl; [exact Hp|]. by intros ? [].
  - eapply Forall_impl; [exact Hp|]. apply plain_inflatable.
  - eapply Forall_impl; [exact Hp|]. by intros ? [].
Qed.

Lemma compress_images c ims : c ≠ CNone → zlen (images ims) < 2 ^ 63 → Forall plain ims →
  Forall (deflatable c) ims →
  compress_record_batch (images ims) c = Some (Ok (images (deflate c <$> ims))).
Proof.
  intros Hc Hs Hp Hd. unfold compress_record_batch. rewrite decide_False by done.
  rewrite decompress_plain by done. cbn [and_then].
  assert (Forall image_wf ims) as Hwf by (eapply Forall_impl; [exact Hp|]; by intros ? []).
  destruct (decide (zlen (images ims) < 61)) as [Hlt|Hge].
  { pose proof (images_count ims Hwf). destruct ims as [|im ims]; [done|].
    rewrite zlen_cons in *. pose proof (zlen_nonneg ims). lia. }
  rewrite (scan_images _ (λ im out, out ++ im_bytes (deflate c im))); [|done|done|].
  2: { intros im p q st Him Hsrc. rewrite Forall_forall in Hwf, Hd.
       by apply (compress_body_at c im p q); auto. }
  cbn [and_then]. unfold put_rest. rewrite decide_False by lia. by rewrite deflate_fold.
Qed.

Lemma inflate_deflate c im : plain im → deflatable c im →
  image_wf (deflate c im) ∧ inflatable (deflate c im) ∧ inflate (deflate c im) = im
  ∧ from_attributes (im_attrs (deflate c im)) = c.
Proof.
  intros [(?&?&?&?&?) Ha] (x & Hx & Hsz). unfold deflate. rewrite Hx, attrs_set by done.
  pose proof (attrs_set_codec _ c Ha) as Hcodec.
  assert (decompress c x = Ok (im_payload im)) as Hdec by (by apply codec_roundtrip_gen).
  split; [|split; [|split]].
  - split_and!; cbn; try done. by apply attrs_set_range.
  - exists (im_payload im). cbn. by rewrite Hcodec.
  - unfold inflate. cbn. rewrite Hcodec, Hdec, attrs_set_clear by done. by destruct im.
  - done.
Qed.

Lemma decompress_deflated c ims : c ≠ CNone → zlen (images (deflate c <$> ims)) < 2 ^ 63 →
  Forall plain ims → Forall (deflatable c) ims →
  decompress_record_batch (images (deflate c <$> ims)) = Some (Ok (images ims)).
Proof.
  intros Hc Hs Hp Hd.
  assert (Forall (λ im, image_wf (deflate c im) ∧ inflatable (deflate c im)
    ∧ inflate (deflate c im) = im ∧ from_attributes (im_attrs (deflate c im)) = c) ims) as Hall.
  { rewrite Forall_forall in *. intros im Him. apply inflate_deflate; auto. }
  rewrite decompress_images; [|done|apply Forall_fmap; (eapply Forall_impl; [exact Hall|]); cbn..].
  - do 4 f_equal. rewrite <- list_fmap_compose. rewrite <- (list_fmap_id ims) at 2.
    apply list_fmap_ext. intros i im Hi. rewrite Forall_lookup in Hall. by apply (Hall i im Hi).
  - tauto.
  - tauto.
  - intros im (_ & _ & _ & Hcd) Hf. unfold is_compressed in Hf. rewrite Hcd in Hf.
    by apply bool_decide_eq_false in Hf.
Qed.
End recompress.

(** ** Records *)
Definition header_ok (h : RecordHeader) : Prop :=
  str_ok (hdr_key h) ∧ str_len (hdr_key h) < 2 ^ 31 ∧ zlen (hdr_value h) < 2 ^ 31.

Definition record_ok (r : Record') : Prop :=
  in_s 64 (rec_offset r) ∧ in_s 64 (rec_timestamp r)
  ∧ opt_all wire_bytes (rec_key r) ∧ opt_all wire_bytes (rec_value r)
  ∧ zlen (rec_headers r) < 2 ^ 31 ∧ Forall header_ok (rec_headers r).

#[export] Instance header_ok_dec h : Decision (header_ok h).
Proof. unfold header_ok. apply _. Defined.
#[export] Instance record_ok_dec r : Decision (record_ok r).
Proof. unfold record_ok. apply _. Defined.

Lemma in_s_small n : 0 ≤ n < 2 ^ 31 → in_s 64 n.
Proof. unfold in_s. change (64 - 1) with 63. lia. Qed.

Lemma read_opt_ok what o k : opt_all wire_bytes o → read_opt what (put_opt o ++ k) = Ok (o, k).
Proof.
  intros Ho. unfold read_opt, put_opt. pose proof (zlen_nonneg k). destruct o as [b|].
  - unfold opt_all, wire_bytes in Ho. pose proof (zlen_nonneg b). rewrite <- app_assoc.
    erewrite reader_bind_ok by (apply read_varint_ok, in_s_small; lia).
    rewrite decide_True by lia. rewrite read_remaining. rewrite decide_False by (lens; lia).
    by erewrite reader_bind_ok by (by apply take_bytes_app).
  - by erewrite reader_bind_ok by (by apply read_varint_ok).
Qed.

Lemma read_header_ok h k : header_ok h → read_header (put_header h ++ k) = Ok (h, k).
Proof.
  intros (Hu & Hk & Hv). pose proof (zlen_nonneg k). pose proof (str_len_nonneg (hdr_key h)).
  pose proof (zlen_nonneg (hdr_value h)). unfold read_header, put_header. rewrite <- !app_assoc.
  erewrite reader_bind_ok by (apply read_varint_ok, in_s_small; lia). rewrite read_remaining.
  rewrite decide_False.
  2: { rewrite !zlen_app, length_str_bytes. pose proof (zlen_nonneg (write_varint (zlen (hdr_value h)))). lia. }
  erewrite reader_bind_ok by (apply take_bytes_app; by rewrite length_str_bytes).
  unfold from_utf8. rewrite Hu.
  erewrite reader_bind_ok by (apply read_varint_ok, in_s_small; lia).
  rewrite decide_True by lia.
  erewrite reader_bind_ok; [|rewrite read_remaining, decide_False by (lens; lia); by apply take_bytes_app].
  rewrite bytes_str_bytes. by destruct h.
Qed.

(** Deltas are wrapping differences, so adding them back always lands on the
    original value. *)
Lemma delta_back base x : in_s 64 x → i64 (base + i64 (x - base)) = x.
Proof.
  intros Hx. rewrite <- (wrap_s_small 64 x) at 2 by (done || lia). unfold wrap_s. f_equal.
  change (64 - 1) with 63.
  replace (base + ((x - base + 2 ^ 63) mod 2 ^ 64 - 2 ^ 63) + 2 ^ 63)
    with (base + (x - base + 2 ^ 63) mod 2 ^ 64) by lia.
  rewrite Zplus_mod_idemp_r. f_equal. lia.
Qed.

Lemma read_record_ok bo bt r k : record_ok r →
  read_record bo bt (record_body bo bt r ++ k) = Ok (r, k).
Proof.
  intros (Ho & Ht & Hk & Hv & Hn & Hh). unfold read_record, record_body. rewrite <- !app_assoc.
  erewrite reader_bind_ok by (eapply get_s_app; [reflexivity|lia|vm_compute; split; congruence]).
  erewrite reader_bind_ok by (apply read_varint_ok, wrap_s_range; lia).
  erewrite reader_bind_ok by (apply read_varint_ok, wrap_s_range; lia).
  erewrite reader_bind_ok by (by apply read_opt_ok).
  erewrite reader_bind_ok by (by apply read_opt_ok).
  pose proof (zlen_nonneg (rec_headers r)).
  erewrite reader_bind_ok by (apply read_varint_ok, in_s_small; lia).
  rewrite Z.max_l by lia. replace (Z.to_nat (zlen (rec_headers r))) with (length (rec_headers r))
    by (unfold zlen; lia).
  rewrite Forall_forall in Hh.
  erewrite reader_bind_ok by (apply read_n_concat; intros; by apply read_header_ok, Hh).
  rewrite !delta_back by done. by destruct r.
Qed.

Lemma write_varint_nonempty v k : write_varint v ++ k ≠ [].
Proof.
  unfold write_varint, write_unsigned_varint. cbn [write_uvarint_loop]. by case_decide.
Qed.

Lemma record_body_length bo bt r k : record_body bo bt r ++ k ≠ [].
Proof. done. Qed.

Lemma read_records_ok bo bt recs k acc : Forall record_ok recs →
  Forall (λ r, zlen (record_body bo bt r) < 2 ^ 31) recs →
  read_records (length recs) bo bt (concat (record_bytes bo bt <$> recs) ++ k) acc = Ok (acc ++ recs).
Proof.
  intros Hr Hl. revert acc. induction Hr as [|r recs Hr Hrs IH]; intros acc.
  { by rewrite app_nil_r. }
  apply Forall_cons in Hl as [Hl Hls]. cbn [length read_records]. rewrite fmap_cons. cbn [concat].
  change (record_bytes bo bt r) with (write_varint (zlen (record_body bo bt r)) ++ record_body bo bt r).
  rewrite <- !app_assoc.
  rewrite decide_False by (by apply write_varint_nonempty).
  pose proof (zlen_nonneg (record_body bo bt r)).
  rewrite read_varint_ok by (apply in_s_small; lia). unfold mbind, res_bind. cbv iota beta.
  rewrite decide_False by (by apply record_body_length). rewrite read_record_ok by done. cbv iota beta.
  rewrite IH by done. by rewrite <- app_assoc.
Qed.

(** ** The encoder's layout *)
Definition v2_image (base_offset : Z) (recs : list Record') (codec : CompressionCodec) (payload : bytes)
    : image :=
  let count := i32 (zlen recs) in
  mkImage (put_64 base_offset) (put_32 0) (to_attributes codec)
    (put_32 (Z.max (i32 (count - 1)) 0) ++ put_64 (first_timestamp recs) ++ put_64 (max_ts recs)
       ++ put_64 (-1) ++ put_16 (-1) ++ put_32 (-1) ++ put_32 count) payload.

(** Sealing a header of 17 bytes, a zero CRC field and the covered bytes. *)
Lemma seal_crc_eq hd body : zlen hd = 17 →
  seal_crc (hd ++ put_32 0 ++ body) = Ok (hd ++ put_32 (compute_crc32c body) ++ body).
Proof.
  intros Hh. unfold seal_crc. rewrite (slice_at _ (hd ++ put_32 0) body []).
  2: { rewrite app_nil_r. app_eq. } 2: { rewrite zlen_app, zlen_to_be. lia. }
  2: { rewrite !zlen_app, zlen_to_be. lia. }
  unfold mbind, res_bind. rewrite copy_at_at; [done|lia|by rewrite !zlen_to_be].
Qed.

Lemma seal_image im : image_wf im →
  seal_crc (im_base im ++ put_32 (i32 (49 + zlen (im_payload im))) ++ im_epoch im ++ put_8 2
    ++ put_32 0 ++ im_crc_data im) = Ok (im_bytes im).
Proof.
  intros (?&?&?&?&?). pose proof (zlen_nonneg (im_payload im)).
  rewrite wrap_s_small by (try unfold in_s; change (32 - 1) with 31; lia).
  replace (im_base im ++ _) with ((im_base im ++ put_32 (49 + zlen (im_payload im)) ++ im_epoch im
    ++ put_8 2) ++ put_32 0 ++ im_crc_data im) by app_eq.
  rewrite seal_crc_eq by (rewrite !zlen_app, !zlen_to_be; lia). unfold im_bytes. f_equal. app_eq.
Qed.

Lemma v2_image_wf bo recs c payload : 61 + zlen payload < 2 ^ 31 → image_wf (v2_image bo recs c payload).
Proof.
  intros Hp. unfold image_wf, v2_image. cbn [im_base im_epoch im_attrs im_rest im_payload].
  rewrite !zlen_app, !zlen_to_be. split_and!; try done. by destruct c.
Qed.

Section encode.
Context `{CompressionLaws}.

Lemma encode_v2_eq bo recs c out : encode_record_batch_v2 bo recs c = Ok out → zlen out < 2 ^ 31 →
  ∃ x, compress c (records_payload bo recs) = Ok x ∧ 61 + zlen x < 2 ^ 31
    ∧ out = im_bytes (v2_image bo recs c x).
Proof.
  unfold encode_record_batch_v2. intros He Hs.
  assert ((if decide (c ≠ CNone) then compress c (records_payload bo recs)
           else Ok (records_payload bo recs)) = compress c (records_payload bo recs)) as Hc.
  { case_decide as Hd; [done|]. by destruct c. }
  rewrite Hc in He. destruct (compress c (records_payload bo recs)) as [x| |] eqn:Hx; [|done..].
  unfold mbind, res_bind in He.
  match type of He with seal_crc ?l = _ =>
    replace l with ((put_64 bo ++ put_32 (i32 (49 + zlen x)) ++ put_32 0 ++ put_8 2) ++ put_32 0
      ++ im_crc_data (v2_image bo recs c x)) in He by (unfold im_crc_data, v2_image; cbn [im_attrs im_rest im_payload]; app_eq)
  end.
  pose proof He as He'. rewrite seal_crc_eq in He' by (rewrite !zlen_app, !zlen_to_be; lia).
  assert (61 + zlen x < 2 ^ 31) as Hsz.
  { injection He' as <-. rewrite !zlen_app in Hs. unfold im_crc_data, v2_image in Hs.
    cbn [im_attrs im_rest im_payload] in Hs. rewrite !zlen_app, !zlen_to_be in Hs. lia. }
  exists x. split; [done|]. split; [done|].
  pose proof (seal_image (v2_image bo recs c x) (v2_image_wf _ _ _ _ Hsz)) as Hseal.
  cbn [v2_image im_base im_epoch im_payload] in Hseal.
  rewrite <- !app_assoc in He. rewrite Hseal in He. congruence.
Qed.

(** The fields of the header of an encoded batch. *)
Lemma v2_fields bo recs p q src : 
  let im := v2_image bo recs CNone (records_payload bo recs) in
  src = p ++ im_bytes im ++ q →
  slice (E:=OxideMqError) src (zlen p) (zlen p + 8) = Ok (put_64 bo)
  ∧ slice (E:=OxideMqError) src (zlen p + 27) (zlen p + 35) = Ok (put_64 (first_timestamp recs))
  ∧ slice (E:=OxideMqError) src (zlen p + 57) (zlen p + 61) = Ok (put_32 (i32 (zlen recs))).
Proof.
  intros im Hsrc.
  set (head := put_32 (49 + zlen (im_payload im)) ++ put_32 0 ++ put_8 2
    ++ put_32 (compute_crc32c (im_crc_data im)) ++ put_16 0 ++ put_32 (Z.max (i32 (i32 (zlen recs) - 1)) 0)).
  set (mid := put_64 (max_ts recs) ++ put_64 (-1) ++ put_16 (-1) ++ put_32 (-1)).
  assert (src = p ++ put_64 bo ++ head ++ put_64 (first_timestamp recs) ++ mid
    ++ put_32 (i32 (zlen recs)) ++ im_payload im ++ q) as Hflat.
  { rewrite Hsrc. unfold im_bytes. change (im_crc_data im) with (put_16 0 ++ im_rest im ++ im_payload im) at 2.
    change (im_rest im) with (put_32 (Z.max (i32 (i32 (zlen recs) - 1)) 0) ++ put_64 (first_timestamp recs)
       ++ put_64 (max_ts recs) ++ put_64 (-1) ++ put_16 (-1) ++ put_32 (-1) ++ put_32 (i32 (zlen recs))).
    change (im_base im) with (put_64 bo). change (im_epoch im) with (put_32 0). unfold head, mid. app_eq. }
  split_and!.
  - eapply slice_at; [exact Hflat|done|by rewrite zlen_to_be].
  - eapply (slice_at src (p ++ put_64 bo ++ head)); [rewrite Hflat at 1; app_eq|unfold head|];
      rewrite ?zlen_app, !zlen_to_be; lia.
  - eapply (slice_at src (p ++ put_64 bo ++ head ++ put_64 (first_timestamp recs) ++ mid));
      [rewrite Hflat at 1; app_eq|unfold head, mid|]; rewrite ?zlen_app, !zlen_to_be; lia.
Qed.

Lemma parse_body_at bo recs p q src acc :
  in_s 64 bo → zlen recs < 2 ^ 31 → Forall record_ok recs →
  61 + zlen (records_payload bo recs) < 2 ^ 31 → zlen src < 2 ^ 63 →
  src = p ++ im_bytes (v2_image bo recs CNone (records_payload bo recs)) ++ q →
  parse_body src (zlen p) (zlen (im_bytes (v2_image bo recs CNone (records_payload bo recs)))) acc
    = Ok (acc ++ recs).
Proof.
  set (im := v2_image bo recs CNone (records_payload bo recs)).
  intros Hbo Hn Hr Hsz Hs Hsrc. assert (image_wf im) as Hwf by (by apply v2_image_wf).
  assert (∀ r, r ∈ recs → in_s 64 (rec_timestamp r)) as Hts
    by (rewrite Forall_forall in Hr; intros r Hin; apply (Hr r Hin)).
  assert (in_s 64 (first_timestamp recs)) as Hft.
  { destruct recs as [|r rs]; [done|]. apply Hts. set_solver. }
  pose proof (zlen_nonneg recs). unfold parse_body. rewrite (cursor_end p im q src Hsrc Hs).
  destruct (v2_fields bo recs p q src Hsrc) as (-> & -> & ->).
  unfold mbind, res_bind. cbv iota beta. rewrite (batch_payload_at im Hwf p q src Hsrc).
  rewrite !from_be_to_be. change (256 ^ Z.of_nat 8) with (2 ^ 64). change (256 ^ Z.of_nat 4) with (2 ^ 32).
  assert (in_s 32 (zlen recs)) by (unfold in_s; change (32 - 1) with 31; lia).
  rewrite (wrap_s_small 32 (zlen recs)) by (done || lia).
  rewrite !wrap_s_of_residue by (done || lia).
  replace (Z.to_nat (zlen recs)) with (length recs) by (unfold zlen; lia).
  change (im_payload im) with (concat (record_bytes bo (first_timestamp recs) <$> recs)).
  pose proof (read_records_ok bo (first_timestamp recs) recs [] acc Hr) as Hrr.
  rewrite app_nil_r in Hrr. apply Hrr.
  apply Forall_forall. intros r Hin.
  apply list_elem_of_split in Hin as (l1 & l2 & ->). unfold records_payload in Hsz.
  rewrite fmap_app, concat_app, fmap_cons in Hsz. cbn [concat] in Hsz. rewrite !zlen_app in Hsz.
  unfold record_bytes at 2 in Hsz. cbv zeta in Hsz. rewrite zlen_app in Hsz.
  repeat match type of Hsz with context [zlen ?l + _] => lazymatch goal with
    | _ : 0 ≤ zlen l |- _ => fail | _ => pose proof (zlen_nonneg l) end end.
  pose proof (zlen_nonneg (concat (record_bytes bo (first_timestamp (l1 ++ r :: l2)) <$> l2))).
  lia.
Qed.
End encode.

(** ** Properties *)
Section properties.
Context `{CompressionLaws}.

Lemma parse_v2_image bo recs :
  in_s 64 bo → zlen recs < 2 ^ 31 → Forall record_ok recs →
  61 + zlen (records_payload bo recs) < 2 ^ 31 →
  let im := v2_image bo recs CNone (records_payload bo recs) in
  for_batches (scan_fuel (im_bytes im)) (im_bytes im) (parse_body (im_bytes im)) 0 []
    = Some (Ok (zlen (im_bytes im), recs)).
Proof.
  intros Hbo Hn Hr Hsz im. assert (image_wf im) as Hwf by (by apply v2_image_wf).
  assert (zlen (im_bytes im) < 2 ^ 63) as Hs
    by (rewrite zlen_im_bytes by done; change (im_payload im) with (records_payload bo recs); lia).
  pose proof (scan_images (parse_body (im_bytes im)) (λ _ acc, acc ++ recs) [im] []) as Hscan.
  cbn [fmap list_fmap concat foldl] in Hscan. rewrite app_nil_r in Hscan. apply Hscan.
  - done.
  - by constructor.
  - intros im' p q st ->%list_elem_of_singleton Hsrc. by apply (parse_body_at bo recs p q).
Qed.

(** C26: A record batch survives the wire with any codec.  Parsing the bytes that
    [encode_record_batch_v2] produced, through the decompression path when the
    batch is compressed, terminates and gives back exactly the records: offsets,
    timestamps (as wrapping deltas from the first record), keys, values and
    headers. *)
Theorem record_batch_roundtrip bo recs codec out :
  in_s 64 bo → zlen recs < 2 ^ 31 → Forall record_ok recs →
  61 + zlen (records_payload bo recs) < 2 ^ 31 →
  encode_record_batch_v2 bo recs codec = Ok out → zlen out < 2 ^ 31 →
  parse_record_batch_records out = Some (Ok recs).
Proof.
  intros Hbo Hn Hr Hsz He Hout. destruct (encode_v2_eq bo recs codec out He Hout) as (x & Hx & Hxs & ->).
  pose proof (parse_v2_image bo recs Hbo Hn Hr Hsz) as Hparse. cbv zeta in Hparse.
  set (im := v2_image bo recs CNone (records_payload bo recs)) in *.
  assert (plain im) as Hplain by (split; [by apply v2_image_wf|done]).
  assert (deflate codec im = v2_image bo recs codec x) as Hdef.
  { unfold deflate. change (im_payload im) with (records_payload bo recs). rewrite Hx.
    unfold with_payload, v2_image, im. cbn. by destruct codec. }
  assert (deflatable codec im) as Hd by (by exists x).
  assert (decompress_record_batch (im_bytes (v2_image bo recs codec x)) = Some (Ok (im_bytes im))) as Hdec.
  { rewrite <- Hdef. destruct (decide (codec = CNone)) as [->|Hc].
    - assert (deflate CNone im = im) as -> by (rewrite Hdef; injection Hx as <-; done).
      pose proof (decompress_plain [im]) as Hp. cbn [fmap list_fmap concat] in Hp.
      rewrite app_nil_r in Hp. apply Hp; [|by constructor].
      rewrite zlen_im_bytes by apply Hplain. change (im_payload im) with (records_payload bo recs). lia.
    - pose proof (decompress_deflated codec [im] Hc) as Hp. cbn [fmap list_fmap concat] in Hp.
      rewrite !app_nil_r in Hp. apply Hp; [|by constructor..].
      rewrite Hdef. lia. }
  unfold parse_record_batch_records. rewrite Hdec. cbn [and_then]. by rewrite Hparse.
Qed.

(** Recompression is transparent.  For any sequence of uncompressed batches
    and any codec that accepts their payloads, [compress_record_batch] returns
    the same batches with the codec stamped into their attributes and their
    length and CRC rewritten, and [decompress_record_batch] turns that back into
    the original bytes. *)
Theorem recompress_roundtrip codec ims :
  codec ≠ CNone → Forall plain ims → Forall (deflatable codec) ims →
  zlen (concat (im_bytes <$> ims)) < 2 ^ 63 →
  zlen (concat (im_bytes <$> (deflate codec <$> ims))) < 2 ^ 63 →
  Forall (λ im, from_attributes (im_attrs (deflate codec im)) = codec) ims ∧
  ∃ out, compress_record_batch (concat (im_bytes <$> ims)) codec = Some (Ok out)
    ∧ out = concat (im_bytes <$> (deflate codec <$> ims))
    ∧ decompress_record_batch out = Some (Ok (concat (im_bytes <$> ims))).
Proof.
  intros Hc Hp Hd Hs Hs'. split.
  - rewrite Forall_forall in *. intros im Him. by apply inflate_deflate; auto.
  - eexists. split; [by apply compress_images|]. split; [done|]. by apply decompress_deflated.
Qed.
End properties.

(** ** Witnesses *)
Definition demo_records : list Record' :=
  [mkRecord 100 1700 (Some [x6b]) (Some [x76; x31]) [mkHeader "h" [x01]];
   mkRecord 101 1650 None (Some []) []].

Definition demo_wire : bytes :=
  match @encode_record_batch_v2 stored_lib 100 demo_records Lz4 with Ok out => out | _ => [] end.

Lemma record_batch_roundtrip_witness :
  @parse_record_batch_records stored_lib demo_wire = Some (Ok demo_records).
Proof.
  apply (@record_batch_roundtrip stored_lib stored_laws 100 demo_records Lz4 demo_wire).
  - apply (bool_decide_unpack _). vm_compute. exact I.
  - apply (bool_decide_unpack _). vm_compute. exact I.
  - apply (bool_decide_unpack _). vm_compute. exact I.
  - apply (bool_decide_unpack _). vm_compute. exact I.
  - vm_compute. reflexivity.
  - apply (bool_decide_unpack _). vm_compute. exact I.
Defined.

Definition demo_image : image :=
  v2_image 100 demo_records CNone (records_payload 100 demo_records).

Lemma recompress_roundtrip_witness :
  let _ := stored_lib in
  Forall (λ im, from_attributes (im_attrs (deflate Lz4 im)) = Lz4) [demo_image] ∧
  ∃ out, compress_record_batch (concat (im_bytes <$> [demo_image])) Lz4 = Some (Ok out)
    ∧ out = concat (im_bytes <$> (deflate Lz4 <$> [demo_image]))
    ∧ decompress_record_batch out = Some (Ok (concat (im_bytes <$> [demo_image]))).
Proof.
  apply (@recompress_roundtrip stored_lib stored_laws Lz4 [demo_image]).
  - discriminate.
  - constructor; [|constructor]. apply (bool_decide_unpack (_ ∧ _)). vm_compute. exact I.
  - constructor; [|constructor]. exists (lz4_frame_id ++ im_payload demo_image).
    split; [vm_compute; reflexivity|]. apply (bool_decide_unpack _). vm_compute. exact I.
  - apply (bool_decide_unpack _). vm_compute. exact I.
  - apply (bool_decide_unpack _). vm_compute. exact I.
Defined.

(** ** A length field that stops the scan from advancing *)

(** 61 bytes: magic 2, batch length -12, no codec. *)
Definition stuck_batch : bytes :=
  replicate 8 x00 ++ put_32 (-12) ++ replicate 4 x00 ++ [x02] ++ replicate 44 x00.

(** A produce request whose batch has length field -12 keeps
    [decompress_record_batch] in its loop: the cursor never moves, whatever the
    number of iterations, so the call does not return. *)
Theorem decompress_record_batch_diverges `{CompressionLib} fuel out :
  for_batches fuel stuck_batch (decompress_body stuck_batch) 0 (out, false) = None.
Proof.
  induction fuel as [|fuel IH] in out |- *; [done|].
  assert (batch_step stuck_batch (decompress_body stuck_batch) 0 (out, false)
          = Ok (Some (0, (out ++ [], false)))) as Hstep by (vm_compute; reflexivity).
  change (for_batches (S fuel) stuck_batch (decompress_body stuck_batch) 0 (out, false)) with
    (if decide (0 + 61 ≤ zlen stuck_batch) then
       match batch_step stuck_batch (decompress_body stuck_batch) 0 (out, false) with
       | Ok (Some (cursor', st')) => for_batches fuel stuck_batch (decompress_body stuck_batch) cursor' st'
       | Ok None => Some (Ok (0, (out, false)))
       | Err e => Some (Err e)
       | Panic => Some Panic
       end
     else Some (Ok (0, (out, false)))).
  rewrite Hstep. rewrite decide_True by (vm_compute; congruence). by rewrite app_nil_r.
Qed.
