(* ===== verification/Partition.v ===== *)
(** * Topic partitions

    [crates/oxidemq-broker/src/partition.rs]: the offset assignment of
    [patch_record_batches], and the [Partition] with its idempotent-producer
    table and its open and aborted transactions, on top of an [S3Stream].  The
    append lock and the producer table's lock make each operation one step; the
    clock reading is the argument [now]. *)

From Stdlib Require Import Strings.Byte.
From stdpp Require Import base numbers list strings sets gmap sorting.
From S2P Require Import Prelude Bytes Crc CoreTypes S3Format KafkaWire Batch.
From S2P Require Import WalFrame Wal LogCache BlockCache ObjectStore Stream.

(** ** Offset assignment *)

(** What the loop does with the batch at [cursor], [total] bytes long: the
    buffer with base offset and CRC rewritten, and the number of offsets taken. *)
Definition patch_batch (buf : bytes) (cursor total current_offset : Z) : result (bytes * Z) :=
  buf ← copy_at buf cursor (put_64 current_offset);
  body ← slice buf (cursor + 21) (u64 (cursor + total));
  buf ← copy_at buf (cursor + 17) (put_32 (compute_crc32c body));
  count ← (if decide (cursor + 27 ≤ zlen buf) then
             d4 ← slice buf (cursor + 23) (cursor + 27);
             Ok (Z.max (wrap_s 32 (from_be d4)) 0 + 1)
           else Ok 1);
  Ok (buf, count).

(** [while cursor + 21 <= buf.len() { .. }]; [None] when the fuel is used up. *)
Fixpoint patch_loop (fuel : nat) (buf : bytes) (cursor current_offset : Z)
    : option (result (bytes * Z)) :=
  match fuel with
  | O => None
  | S fuel' =>
      if decide (cursor + 21 ≤ zlen buf) then
        match
          (m ← index buf (cursor + 16);
           if decide (m = 2) then
             total ← batch_total buf cursor;
             if decide (u64 (cursor + total) > zlen buf) then Ok None else
             '(buf', count) ← patch_batch buf cursor total current_offset;
             Ok (Some (buf', u64 (cursor + total), i64 (current_offset + count)))
           else Ok None)
        with
        | Ok (Some (buf', cursor', current')) => patch_loop fuel' buf' cursor' current'
        | Ok None => Some (Ok (buf, current_offset))
        | Err e => Some (Err e)
        | Panic => Some Panic
        end
      else Some (Ok (buf, current_offset))
  end.

Definition patch_record_batches (records : bytes) (base_offset : Z) : result (bytes * Z) :=
  if decide (zlen records < 21) then Ok (records, 1) else
  match patch_loop (S (length records)) records 0 base_offset with
  | Some (Ok (buf, current_offset)) => Ok (buf, Z.max (i64 (current_offset - base_offset)) 1)
  | Some (Err e) => Err e
  | Some Panic => Panic
  | None => Panic
  end.

(** ** Partitions *)
Record Partition := mkPartition {
  topic_partition : TopicPartition;
  stream : S3Stream;
  producer_states : gmap Z (Z * Z * Z);   (* id: epoch, last sequence, its offset *)
  ongoing_txns : gmap Z Z;                (* producer id: first offset *)
  aborted_txns : list (Z * Z) }.

Definition partition_new (tp : TopicPartition) (s : S3Stream) : Partition := mkPartition tp s ∅ ∅ [].

Definition set_stream (s : S3Stream) (p : Partition) : Partition :=
  mkPartition (topic_partition p) s (producer_states p) (ongoing_txns p) (aborted_txns p).
Definition set_producers (m : gmap Z (Z * Z * Z)) (p : Partition) : Partition :=
  mkPartition (topic_partition p) (stream p) m (ongoing_txns p) (aborted_txns p).
Definition set_ongoing (m : gmap Z Z) (p : Partition) : Partition :=
  mkPartition (topic_partition p) (stream p) (producer_states p) m (aborted_txns p).
Definition set_aborted (l : list (Z * Z)) (p : Partition) : Partition :=
  mkPartition (topic_partition p) (stream p) (producer_states p) (ongoing_txns p) l.

Definition high_watermark (p : Partition) : Z := s_next_offset (stream p).
Definition log_start_offset (p : Partition) : Z := s_start_offset (stream p).

Definition complete_txn (pid : Z) (p : Partition) : Partition :=
  set_ongoing (delete pid (ongoing_txns p)) p.

Definition record_aborted_txn (pid first_offset : Z) (p : Partition) : Partition :=
  let actual_first := default first_offset (ongoing_txns p !! pid) in
  let p := set_ongoing (delete pid (ongoing_txns p)) p in
  set_aborted (aborted_txns p ++ [(pid, actual_first)]) p.

(** [iter().min()] *)
Definition list_min (l : list Z) : option Z :=
  match l with [] => None | x :: l' => Some (foldr Z.min x l') end.

Definition last_stable_offset (p : Partition) : Z :=
  let hw := high_watermark p in
  match list_min (map_to_list (ongoing_txns p)).*2 with
  | Some min_ongoing => Z.min min_ongoing hw
  | None => hw
  end.

(** The producer whose transaction the first batch belongs to. *)
Definition txn_producer (patched : bytes) : result (option Z) :=
  if decide (zlen patched ≥ 61) then
    m ← index patched 16;
    if decide (m = 2) then
      a2 ← slice patched 21 23;
      p8 ← slice patched 39 47;
      let attr := wrap_s 16 (from_be a2) in
      let pid := wrap_s 64 (from_be p8) in
      Ok (if decide (Z.land attr 0x0010 ≠ 0 ∧ Z.land attr 0x0020 = 0 ∧ pid ≠ -1)
          then Some pid else None)
    else Ok None
  else Ok None.

(** [entry(pid).or_insert(base_offset)] *)
Definition open_txn (pid base_offset : Z) (m : gmap Z Z) : gmap Z Z :=
  match m !! pid with Some _ => m | None => <[pid := base_offset]> m end.

Section ops.
Context `{HO : HashOrder} {W St : Type} `{!WalEngine W, !ObjectStorage St}.
Abbreviation world := (World W St).

Definition append_records (now : Z) (records : bytes) (p : Partition) (w : world)
    : result (Z * Z) * Partition * world :=
  let base_offset := s_next_offset (stream p) in
  match ('(patched, count) ← patch_record_batches records base_offset;
         o ← txn_producer patched;
         Ok (patched, count, o)) with
  | Err e => (Err e, p, w)
  | Panic => (Panic, p, w)
  | Ok (patched, count, o) =>
      let p := match o with
               | Some pid => set_ongoing (open_txn pid base_offset (ongoing_txns p)) p
               | None => p
               end in
      let '(r, s, w) := append_with_count patched count (stream p) w in
      let p := set_stream s p in
      (_ ← r; Ok (base_offset, now), p, w)
  end.

Definition fenced_msg (pid epoch active : Z) : string :=
  "Fenced producer " +:+ dec pid +:+ ": epoch " +:+ dec epoch +:+ " < active " +:+ dec active.
Definition out_of_order_msg (pid expected got : Z) : string :=
  "Out of order sequence for producer " +:+ dec pid +:+ ": expected " +:+ dec expected
    +:+ ", got " +:+ dec got.

(** How the producer table judges a batch. *)
Inductive verdict := VAppend | VDuplicate (offset : Z) | VReject (e : OxideMqError).

Definition judge (pid epoch seq : Z) (states : gmap Z (Z * Z * Z)) : verdict :=
  match states !! pid with
  | None => VAppend
  | Some (last_epoch, last_seq, last_offset) =>
      if decide (epoch < last_epoch) then VReject (EProtocol (fenced_msg pid epoch last_epoch)) else
      if decide (epoch = last_epoch) then
        if decide (seq ≤ last_seq) then VDuplicate last_offset else
        if decide (seq > i32 (last_seq + 1))
        then VReject (EProtocol (out_of_order_msg pid (i32 (last_seq + 1)) seq))
        else VAppend
      else VAppend
  end.

Definition append_idempotent (now pid epoch seq : Z) (records : bytes) (p : Partition) (w : world)
    : result (Z * Z * bool) * Partition * world :=
  match judge pid epoch seq (producer_states p) with
  | VReject e => (Err e, p, w)
  | VDuplicate last_offset => (Ok (last_offset, now, true), p, w)
  | VAppend =>
      match append_records now records p w with
      | (Ok (base_offset, now), p, w) =>
          (Ok (base_offset, now, false),
           set_producers (<[pid := (epoch, seq, base_offset)]> (producer_states p)) p, w)
      | (Err e, p, w) => (Err e, p, w)
      | (Panic, p, w) => (Panic, p, w)
      end
  end.

Definition read_records (fetch_offset max_bytes : Z) (p : Partition) (w : world)
    : result (list (Z * bytes)) * world :=
  fetch fetch_offset max_bytes (stream p) w.

Definition advance_log_start_offset (new_offset : Z) (p : Partition) (w : world)
    : Z * Partition * world :=
  let '(o, s, w) := advance_start_offset new_offset (stream p) w in
  (o, set_stream s p, w).
End ops.

(** ** Lemmas: offset assignment *)
Lemma copy_at_Ok {E} l i src l' : copy_at (E:=E) l i src = Ok l' → length l' = length l.
Proof.
  unfold copy_at. case_decide as Hd; [|done]. intros [= <-]. unfold zlen in Hd. lens. lia.
Qed.

Lemma patch_batch_Ok buf cursor total cur buf' n : 0 ≤ cursor →
  patch_batch buf cursor total cur = Ok (buf', n) →
  length buf' = length buf ∧ cursor + 21 ≤ u64 (cursor + total).
Proof.
  intros Hc. unfold patch_batch, mbind, res_bind.
  destruct (copy_at buf cursor _) as [b1| |] eqn:H1; [|done..].
  destruct (slice b1 (cursor + 21) _) as [body| |] eqn:Hs; [|done..].
  destruct (copy_at b1 _ _) as [b2| |] eqn:H2; [|done..].
  destruct (if decide _ then _ else _) as [count| |]; [|done..]. intros [= <- <-].
  apply copy_at_Ok in H1, H2. split; [congruence|].
  unfold slice in Hs. case_decide; [lia|done].
Qed.

(** The loop always advances by at least 21 bytes, so it returns: a length
    field that would not advance it makes a slice panic instead. *)
Lemma patch_loop_total fuel : ∀ buf cursor cur, 0 ≤ cursor ≤ zlen buf →
  zlen buf - cursor < Z.of_nat fuel → patch_loop fuel buf cursor cur ≠ None.
Proof.
  induction fuel as [|fuel IH]; intros buf cursor cur Hc Hf.
  - lia.
  - cbn [patch_loop]. case_decide; [|done].
    destruct (index buf (cursor + 16)) as [m| |]; [|done..]. cbn [mbind res_bind].
    destruct (decide (m = 2)); [|done].
    destruct (batch_total buf cursor) as [total| |]; [|done..]. cbn [mbind res_bind].
    case_decide; [done|].
    destruct (patch_batch buf cursor total cur) as [[buf' n]| |] eqn:Hp; [|done..].
    cbn [mbind res_bind]. apply patch_batch_Ok in Hp as [Hl Hadv]; [|lia].
    unfold zlen in *. apply IH; rewrite Hl; lia.
Qed.

(** The offsets that batches take: at most 2^32 for each byte. *)
Lemma patch_loop_bound fuel : ∀ buf cursor cur buf' cur', 0 ≤ cursor ≤ zlen buf → 0 ≤ cur →
  cur + 2 ^ 32 * (zlen buf - cursor) < i64_max →
  patch_loop fuel buf cursor cur = Some (Ok (buf', cur')) →
  zlen buf' = zlen buf ∧ cur ≤ cur' ≤ cur + 2 ^ 32 * (zlen buf - cursor).
Proof.
  induction fuel as [|fuel IH]; intros buf cursor cur buf' cur' Hc H0 Hb; [done|]. cbn [patch_loop].
  case_decide; [|intros [= <- <-]; split; [done|lia]].
  destruct (index buf (cursor + 16)) as [m| |]; [|done..]. cbn [mbind res_bind].
  destruct (decide (m = 2)); [|intros [= <- <-]; split; [done|lia]].
  destruct (batch_total buf cursor) as [total| |]; [|done..]. cbn [mbind res_bind].
  case_decide; [intros [= <- <-]; split; [done|lia]|].
  destruct (patch_batch buf cursor total cur) as [[buf1 n]| |] eqn:Hp; [|done..]. cbn [mbind res_bind].
  assert (1 ≤ n ≤ 2 ^ 32) as Hn.
  { revert Hp. unfold patch_batch, mbind, res_bind. destruct (copy_at buf _ _); [|done..].
    destruct (slice _ _ _); [|done..]. destruct (copy_at _ _ _) as [b2| |]; [|done..].
    case_decide; [|intros [= _ <-]; lia]. destruct (slice _ _ _) as [d4| |]; [|done..]. intros [= _ <-].
    pose proof (wrap_s_range 32 (from_be d4) ltac:(lia)) as [? ?]. change (32 - 1) with 31 in *. lia. }
  apply patch_batch_Ok in Hp as [Hl Hadv]; [|lia].
  assert (zlen buf1 = zlen buf) as Hz by (unfold zlen; lia).
  assert (i64 (cur + n) = cur + n) as ->.
  { apply wrap_s_small; [lia|]. unfold in_s, i64_max in *. change (64 - 1) with 63. nia. }
  intros E. apply IH in E as [Hz' Hle]; [|rewrite Hz; lia|lia|rewrite Hz; nia]. rewrite Hz in *. split; [done|nia].
Qed.

Lemma patch_bound recs base patched count : 0 ≤ base → base + 2 ^ 32 * (zlen recs + 1) < i64_max →
  patch_record_batches recs base = Ok (patched, count) →
  zlen patched = zlen recs ∧ 1 ≤ count ≤ 2 ^ 32 * (zlen recs + 1).
Proof.
  intros H0 Hb. unfold patch_record_batches. pose proof (zlen_nonneg recs).
  case_decide; [intros [= <- <-]; split; [done|lia]|].
  destruct (patch_loop _ _ _ _) as [[[buf cur]| |]|] eqn:E; [|done..]. intros [= <- <-].
  apply patch_loop_bound in E as [Hz Hle]; [|lia|done|lia]. split; [done|].
  rewrite wrap_s_small; [lia..|]. unfold in_s, i64_max in *. change (64 - 1) with 63. lia.
Qed.

Lemma patch_loop_length fuel : ∀ buf cursor cur buf' cur', 0 ≤ cursor →
  patch_loop fuel buf cursor cur = Some (Ok (buf', cur')) → zlen buf' = zlen buf.
Proof.
  induction fuel as [|fuel IH]; intros buf cursor cur buf' cur' Hc; [done|]. cbn [patch_loop].
  case_decide; [|by intros [= <- <-]].
  destruct (index buf (cursor + 16)) as [m| |]; [|done..]. cbn [mbind res_bind].
  destruct (decide (m = 2)); [|by intros [= <- <-]].
  destruct (batch_total buf cursor) as [total| |]; [|done..]. cbn [mbind res_bind].
  case_decide; [by intros [= <- <-]|].
  destruct (patch_batch buf cursor total cur) as [[buf1 n]| |] eqn:Hp; [|done..]. cbn [mbind res_bind].
  apply patch_batch_Ok in Hp as [Hl Hadv]; [|lia]. intros E. apply IH in E; [|lia]. unfold zlen in *. lia.
Qed.

Lemma patch_length recs base patched count : patch_record_batches recs base = Ok (patched, count) →
  zlen patched = zlen recs.
Proof.
  unfold patch_record_batches. case_decide; [by intros [= <- <-]|].
  destruct (patch_loop _ _ _ _) as [[[buf cur]| |]|] eqn:E; [|done..]. intros [= <- <-].
  by apply patch_loop_length in E.
Qed.

Definition rebase (cur : Z) (im : image) : image :=
  mkImage (put_64 cur) (im_epoch im) (im_attrs im) (im_rest im) (im_payload im).

(** The offsets a batch takes: its last offset delta, plus one. *)
Definition im_count (im : image) : Z := Z.max (wrap_s 32 (from_be (take 4 (im_rest im)))) 0 + 1.

Fixpoint assign (cur : Z) (ims : list image) : list image :=
  match ims with
  | [] => []
  | im :: ims' => rebase cur im :: assign (cur + im_count im) ims'
  end.

Definition offsets_taken (ims : list image) : Z := foldr (λ im n, im_count im + n) 0 ims.

Lemma im_count_pos im : 1 ≤ im_count im.
Proof. unfold im_count. lia. Qed.

Lemma offsets_taken_nonneg ims : 0 ≤ offsets_taken ims.
Proof. induction ims as [|im ims IH]; [done|]. cbn. pose proof (im_count_pos im). unfold offsets_taken in IH. lia. Qed.

Lemma rebase_wf cur im : image_wf im → image_wf (rebase cur im).
Proof. intros (?&?&?&?&?). split_and!; cbn; try done. Qed.

Lemma zlen_rebase cur im : image_wf im → zlen (im_bytes (rebase cur im)) = zlen (im_bytes im).
Proof. intros Hwf. rewrite !zlen_im_bytes by (done || by apply rebase_wf). done. Qed.

Lemma patch_batch_at im pre post cur : image_wf im →
  zlen (pre ++ im_bytes im ++ post) < 2 ^ 63 →
  patch_batch (pre ++ im_bytes im ++ post) (zlen pre) (zlen (im_bytes im)) cur
    = Ok (pre ++ im_bytes (rebase cur im) ++ post, im_count im).
Proof.
  intros Hwf Hs. pose proof (zlen_im_bytes im Hwf) as Hl. pose proof (zlen_nonneg (im_payload im)).
  pose proof (zlen_crc_data im Hwf) as Hcd.
  pose proof (cursor_end pre im post _ eq_refl Hs) as Hend. pose proof (zlen_nonneg post).
  destruct Hwf as (Hb & He & Ha & Hr & Hp). unfold patch_batch.
  set (mid := put_32 (49 + zlen (im_payload im)) ++ im_epoch im ++ put_8 2).
  set (crc := put_32 (compute_crc32c (im_crc_data im))).
  assert (zlen mid = 9) as Hmid by (unfold mid; rewrite !zlen_app, !zlen_to_be; lia).
  replace (pre ++ im_bytes im ++ post) with (pre ++ im_base im ++ (mid ++ crc ++ im_crc_data im ++ post))
    by (unfold im_bytes, mid, crc; app_eq).
  rewrite copy_at_at; [|done|by rewrite zlen_to_be]. unfold mbind, res_bind. cbv iota beta.
  rewrite Hend.
  rewrite (slice_at _ (pre ++ put_64 cur ++ mid ++ crc) (im_crc_data im) post).
  2: app_eq. 2: { rewrite !zlen_app. unfold crc. rewrite !zlen_to_be. lia. } 2: lia.
  replace (pre ++ put_64 cur ++ mid ++ crc ++ im_crc_data im ++ post) with
    ((pre ++ put_64 cur ++ mid) ++ crc ++ (im_crc_data im ++ post)) by app_eq.
  rewrite copy_at_at.
  2: { rewrite !zlen_app, zlen_to_be. lia. } 2: { unfold crc. by rewrite !zlen_to_be. }
  rewrite decide_True.
  2: { rewrite !zlen_app, !zlen_to_be. pose proof (zlen_nonneg pre). lia. }
  assert (im_crc_data im = put_16 (im_attrs im) ++ take 4 (im_rest im) ++ drop 4 (im_rest im)
    ++ im_payload im) as Hcdata by (unfold im_crc_data; by rewrite (app_assoc (take 4 _)), take_drop).
  assert (zlen (take 4 (im_rest im)) = 4) as H4 by (unfold zlen in *; rewrite length_take; lia).
  rewrite (slice_at _ (pre ++ put_64 cur ++ mid ++ crc ++ put_16 (im_attrs im)) (take 4 (im_rest im))
    (drop 4 (im_rest im) ++ im_payload im ++ post)).
  2: { fold crc. rewrite Hcdata. app_eq. }
  2: { rewrite !zlen_app. unfold crc. rewrite !zlen_to_be. lia. }
  2: lia.
  f_equal. f_equal. unfold im_bytes, mid, crc, rebase. cbn [im_base im_epoch im_payload].
  unfold im_crc_data. cbn [im_attrs im_rest im_payload]. app_eq.
Qed.

Lemma patch_images ims : ∀ fuel pre cur, Forall image_wf ims → in_s 64 cur →
  cur + offsets_taken ims < 2 ^ 63 → zlen (pre ++ images ims) < 2 ^ 63 → (length ims < fuel)%nat →
  patch_loop fuel (pre ++ images ims) (zlen pre) cur
    = Some (Ok (pre ++ images (assign cur ims), cur + offsets_taken ims)).
Proof.
  induction ims as [|im ims IH]; intros fuel pre cur Hwf Hcur Hov Hs Hf;
    (destruct fuel as [|fuel]; [simpl in Hf; lia|]).
  { cbn [patch_loop fmap list_fmap concat assign]. rewrite !app_nil_r, decide_False by lia.
    by rewrite Z.add_0_r. }
  apply Forall_cons in Hwf as [Hi Hwf]. cbn [assign]. rewrite !fmap_cons in *. cbn [concat] in *.
  pose proof (zlen_im_bytes im Hi) as Hl. pose proof (zlen_nonneg (im_payload im)).
  pose proof (im_count_pos im). pose proof (offsets_taken_nonneg ims).
  change (offsets_taken (im :: ims)) with (im_count im + offsets_taken ims) in *.
  cbn [patch_loop].
  set (buf := pre ++ im_bytes im ++ images ims) in *.
  pose proof (cursor_end pre im (images ims) buf eq_refl Hs) as Hend.
  pose proof (zlen_nonneg (images ims)).
  assert (zlen buf = zlen pre + zlen (im_bytes im) + zlen (images ims)) as Hz
    by (unfold buf; rewrite !zlen_app; lia).
  rewrite decide_True by lia. rewrite (batch_magic_at im Hi pre _ buf eq_refl).
  unfold mbind, res_bind. cbv iota beta. rewrite decide_True by done.
  rewrite (batch_total_at im Hi pre _ buf eq_refl). cbv iota beta. rewrite Hend.
  rewrite decide_False by lia. unfold buf. rewrite patch_batch_at by done. cbv iota beta.
  rewrite wrap_s_small.
  2: lia. 2: { unfold in_s in *. change (64 - 1) with 63 in *. lia. }
  rewrite app_assoc, <- (zlen_rebase cur im Hi), <- zlen_app.
  rewrite IH; [f_equal; f_equal; f_equal; [by rewrite app_assoc|lia]|done| |lia| |simpl in Hf; lia].
  - unfold in_s in *. change (64 - 1) with 63 in *. lia.
  - rewrite !zlen_app, zlen_rebase by done. lia.
Qed.

Lemma images_zlen_pos im ims : image_wf im → 61 ≤ zlen (images (im :: ims)).
Proof.
  intros Hwf. rewrite fmap_cons. cbn [concat]. rewrite zlen_app, zlen_im_bytes by done.
  pose proof (zlen_nonneg (im_payload im)). pose proof (zlen_nonneg (images ims)). lia.
Qed.

Lemma offsets_taken_pos ims : ims ≠ [] → 1 ≤ offsets_taken ims.
Proof.
  destruct ims as [|im ims]; [done|]. intros _. cbn. pose proof (im_count_pos im).
  pose proof (offsets_taken_nonneg ims). unfold offsets_taken in *. lia.
Qed.

Lemma patch_record_batches_images ims base : ims ≠ [] → Forall image_wf ims → 0 ≤ base →
  base + offsets_taken ims < 2 ^ 63 → zlen (images ims) < 2 ^ 63 →
  patch_record_batches (images ims) base = Ok (images (assign base ims), offsets_taken ims).
Proof.
  intros Hne Hwf Hb Hov Hs. unfold patch_record_batches.
  assert (1 ≤ offsets_taken ims) as Hpos by (by apply offsets_taken_pos).
  rewrite decide_False.
  2: { destruct ims as [|im ims]; [done|]. apply Forall_cons in Hwf as [Hi _].
       pose proof (images_zlen_pos im ims Hi). lia. }
  pose proof (images_count ims Hwf) as Hc.
  pose proof (patch_images ims (S (length (images ims))) [] base Hwf) as Hp. cbn [app] in Hp.
  change (zlen []) with 0 in Hp. rewrite Hp; [| |done|done|].
  2: { unfold in_s. change (64 - 1) with 63. lia. } 2: { unfold zlen in *. lia. }
  f_equal. f_equal. rewrite Z.add_simpl_l.
  rewrite wrap_s_small by (try unfold in_s; change (64 - 1) with 63; lia). lia.
Qed.

Lemma assign_lookup ims cur k im : ims !! k = Some im →
  assign cur ims !! k = Some (rebase (cur + offsets_taken (take k ims)) im).
Proof.
  revert cur k. induction ims as [|im' ims IH]; intros cur k Hk; [done|].
  destruct k as [|k]; cbn [lookup list_lookup assign take] in *.
  - injection Hk as ->. by rewrite Z.add_0_r.
  - rewrite IH by done. do 2 f_equal. change (offsets_taken (im' :: take k ims)) with
      (im_count im' + offsets_taken (take k ims)). lia.
Qed.

Lemma zlen_assign cur ims : Forall image_wf ims →
  zlen (images (assign cur ims)) = zlen (images ims).
Proof.
  intros Hwf. revert cur. induction Hwf as [|im ims Hi Hwf IH]; intros cur; [done|].
  cbn [assign]. rewrite !fmap_cons. cbn [concat]. rewrite !zlen_app, IH, zlen_rebase by done. done.
Qed.

Lemma length_assign cur ims : length (assign cur ims) = length ims.
Proof. revert cur. induction ims; intros; simpl; [done|]. by rewrite IHims. Qed.

(** ** Lemmas: appends *)
Section lemmas.
Context `{HO : HashOrder} {W St : Type}.
Context `{!WalEngine W, !WalEngineLaws W, !ObjectStorage St, !ObjectStorageLaws St}.
Abbreviation world := (World W St).
Implicit Types w : world.

Lemma append_records_inv now recs p w b t p' w' : append_records now recs p w = (Ok (b, t), p', w') →
  ∃ patched count o s', patch_record_batches recs (high_watermark p) = Ok (patched, count)
    ∧ txn_producer patched = Ok o ∧ b = high_watermark p ∧ t = now
    ∧ append_with_count patched count (stream p) w = (Ok b, s', w')
    ∧ p' = set_stream s' (match o with
                          | Some pid => set_ongoing (open_txn pid b (ongoing_txns p)) p
                          | None => p end).
Proof.
  unfold append_records, high_watermark. set (base := s_next_offset (stream p)).
  destruct (patch_record_batches recs base) as [[patched count]| |]; [|done..].
  cbn [mbind res_bind]. destruct (txn_producer patched) as [o| |] eqn:Ht; [|done..]. cbn [mbind res_bind].
  intros Ha. set (p1 := match o with Some _ => _ | None => p end) in Ha.
  assert (stream p1 = stream p) as Hst by (by destruct o). rewrite Hst in Ha.
  destruct (append_with_count patched count (stream p) w) as [[r s'] w1] eqn:Hap.
  destruct r as [o'| |]; [|done..]. cbn in Ha. injection Ha as <- <- <- <-.
  apply append_inv in Hap as Hinv. destruct Hinv as (-> & _).
  exists patched, count, o, s'. destruct o; split_and!; try reflexivity; try exact Hap; exact Ht.
Qed.

(** Whatever the outcome, an append leaves the producer table alone. *)
Lemma append_records_producers now recs p w :
  producer_states (append_records now recs p w).1.2 = producer_states p.
Proof.
  unfold append_records. destruct (mbind _ _) as [[[patched count] o]| |]; [|done..].
  destruct (append_with_count _ _ _ _) as [[r s'] w1]. by destruct o.
Qed.

Lemma judge_append pid epoch seq states : judge pid epoch seq states = VAppend →
  match states !! pid with
  | None => True
  | Some (le, ls, _) => le < epoch ∨ le = epoch ∧ ls < seq
  end.
Proof.
  unfold judge. destruct (states !! pid) as [[[le ls] lo]|]; [|done]. intros Hj.
  destruct (decide (epoch < le)); [done|]. destruct (decide (epoch = le)) as [->|]; [|lia].
  destruct (decide (seq ≤ ls)); [done|]. lia.
Qed.

(** ** Producer sessions *)

(** A produce request of an idempotent producer. *)
Record preq := mkReq { q_now : Z; q_pid : Z; q_epoch : Z; q_seq : Z; q_records : bytes }.

Fixpoint produce_all (reqs : list preq) (p : Partition) (w : world)
    : list (result (Z * Z * bool)) * Partition * world :=
  match reqs with
  | [] => ([], p, w)
  | q :: reqs' =>
      let '(r, p, w) := append_idempotent (q_now q) (q_pid q) (q_epoch q) (q_seq q) (q_records q) p w in
      let '(rs, p, w) := produce_all reqs' p w in (r :: rs, p, w)
  end.

(** The requests answered as appended, not as duplicates, with their offsets. *)
Definition took (qr : preq * result (Z * Z * bool)) : option (preq * Z) :=
  match qr.2 with Ok (o, _, false) => Some (qr.1, o) | _ => None end.
Definition accepted (reqs : list preq) (rs : list (result (Z * Z * bool))) : list (preq * Z) :=
  omap took (zip reqs rs).

(** Producer, epoch, sequence and offset of an accepted batch. *)
Definition entry (qo : preq * Z) : Z * Z * Z * Z := (q_pid qo.1, q_epoch qo.1, q_seq qo.1, qo.2).

Definition lex_le (a b : Z * Z) : Prop := a.1 < b.1 ∨ a.1 = b.1 ∧ a.2 ≤ b.2.
Definition lex_lt (a b : Z * Z) : Prop := a.1 < b.1 ∨ a.1 = b.1 ∧ a.2 < b.2.

(** The table holds the newest accepted batch of every producer. *)
Definition table_ok (acc : list (Z * Z * Z * Z)) (states : gmap Z (Z * Z * Z)) : Prop :=
  (∀ pid e s o, (pid, e, s, o) ∈ acc →
     ∃ le ls lo, states !! pid = Some (le, ls, lo) ∧ lex_le (e, s) (le, ls)) ∧
  (∀ pid e s o, states !! pid = Some (e, s, o) → (pid, e, s, o) ∈ acc).

Definition session_lt (a b : Z * Z * Z * Z) : Prop :=
  a.1.1.1 = b.1.1.1 → lex_lt (a.1.1.2, a.1.2) (b.1.1.2, b.1.2).

(** What has been asked of the WAL: the appends that succeeded, in order, and how
    many failed. *)
Inductive wal_appends : nat → list WalRecord → W → W → Prop :=
| wal_appends_nil wl : wal_appends 0 [] wl wl
| wal_appends_ok n l wl1 wl2 sid off d r wl3 : wal_appends n l wl1 wl2 →
    wal_append sid off d wl2 = (Ok r, wl3) → wal_appends n (l ++ [mkWal r sid off d]) wl1 wl3
| wal_appends_failed n l wl1 wl2 sid off d r wl3 : wal_appends n l wl1 wl2 →
    wal_append sid off d wl2 = (r, wl3) → is_Ok r = false → wal_appends (S n) l wl1 wl3.

(** When none failed the WAL holds these records, at the end. *)
Lemma wal_appends_contents l wl wl' : wal_appends 0 l wl wl' → wal_inv wl →
  Forall (λ r, wf r ∧ seq r < 2 ^ 64 - 2) l → wal_inv wl' ∧ wal_contents wl' = wal_contents wl ++ l.
Proof.
  intros Ha. remember 0%nat as n eqn:Hn.
  induction Ha as [|n l wl1 wl2 sid off d r wl3 _ IH Hw|]; intros Hi Hl; [by rewrite app_nil_r| |done].
  apply Forall_app in Hl as [Hl Hr]. apply Forall_cons in Hr as [[(Hs & Hsid & Hoff & Hd) Hr] _].
  cbn [seq stream_id offset payload] in *. destruct (IH Hn Hi Hl) as [Hi2 Hc2].
  destruct (wal_append_inv sid off d wl2 r wl3 Hsid Hoff Hd Hi2 Hw) as [Hi3 Hc3]; [unfold in_u in Hs; lia|].
  split; [done|]. by rewrite Hc3, Hc2, app_assoc.
Qed.

(** The record written for an accepted batch. *)
Definition logged (sid : Z) (qo : preq * Z) (r : WalRecord) : Prop :=
  stream_id r = sid ∧ offset r = qo.2 ∧ ∃ count, patch_record_batches (q_records qo.1) qo.2 = Ok (payload r, count).

Lemma append_records_wal now recs p w r p' w' : append_records now recs p w = (r, p', w') →
  s_stream_id (stream p') = s_stream_id (stream p) ∧
  match r with
  | Ok (b, _) => ∃ patched count n, patch_record_batches recs b = Ok (patched, count)
      ∧ wal_append (s_stream_id (stream p)) b patched (wal w) = (Ok n, wal w')
  | _ => wal w' = wal w ∨ ∃ sid off d r', wal_append sid off d (wal w) = (r', wal w') ∧ is_Ok r' = false
  end.
Proof.
  unfold append_records. set (base := s_next_offset (stream p)).
  destruct (patch_record_batches recs base) as [[patched count]| |] eqn:Hp; cbn [mbind res_bind].
  2, 3: intros [= <- <- <-]; auto.
  destruct (txn_producer patched) as [o| |]; cbn [mbind res_bind]. 2, 3: intros [= <- <- <-]; auto.
  set (p1 := match o with Some _ => _ | None => p end).
  assert (stream p1 = stream p) as -> by (by destruct o). unfold append_with_count. cbn [s_stream_id set_next].
  destruct (wal_append _ _ patched (wal w)) as [[n|e|] wl] eqn:Hw; cbn [mbind res_bind]; intros [= <- <- <-].
  - split; [done|]. cbn [wal set_log_cache set_wal]. eauto.
  - split; [done|]. right. cbn [wal set_wal]. by eexists _, _, _, _.
  - split; [done|]. right. cbn [wal set_wal]. by eexists _, _, _, _.
Qed.

(** The three kinds of answer. *)
Lemma append_idempotent_cases now pid epoch seq recs p w r p' w' :
  append_idempotent now pid epoch seq recs p w = (r, p', w') →
  s_stream_id (stream p') = s_stream_id (stream p) ∧
  ((∃ o t n d c, r = Ok (o, t, false) ∧ judge pid epoch seq (producer_states p) = VAppend
     ∧ producer_states p' = <[pid := (epoch, seq, o)]> (producer_states p)
     ∧ patch_record_batches recs o = Ok (d, c)
     ∧ wal_append (s_stream_id (stream p)) o d (wal w) = (Ok n, wal w'))
   ∨ (∃ o t ls, r = Ok (o, t, true) ∧ p' = p ∧ w' = w ∧ producer_states p !! pid = Some (epoch, ls, o) ∧ seq ≤ ls)
   ∨ is_Ok r = false ∧ producer_states p' = producer_states p
     ∧ (wal w' = wal w ∨ ∃ sid off d r', wal_append sid off d (wal w) = (r', wal w') ∧ is_Ok r' = false)).
Proof.
  unfold append_idempotent. destruct (judge _ _ _ _) as [|lo|e] eqn:Hj.
  - pose proof (append_records_producers now recs p w) as Hps.
    destruct (append_records now recs p w) as [[r1 p1] w1] eqn:Ha. apply append_records_wal in Ha as [Hsid Hwal].
    destruct r1 as [[o t]| |]; cbn [fst snd] in Hps; intros [= <- <- <-]; (split; [done|]).
    + left. destruct Hwal as (d & c & n & Hp & Hw). exists o, t, n, d, c. split_and!; try done. cbn. by rewrite Hps.
    + by right; right.
    + by right; right.
  - intros [= <- <- <-]. split; [done|]. right. left. unfold judge in Hj.
    destruct (producer_states p !! pid) as [[[le ls] lo']|] eqn:Hl; [|done].
    destruct (decide (epoch < le)); [done|]. destruct (decide (epoch = le)) as [->|]; [|done].
    destruct (decide (seq ≤ ls)); [|by case_decide]. injection Hj as <-. by exists lo', now, ls.
  - intros [= <- <- <-]. split; [done|]. right. right. split_and!; [done|done|by left].
Qed.

Lemma table_ok_step acc states pid e s o : table_ok acc states →
  match states !! pid with
  | None => True | Some (le, ls, _) => le < e ∨ le = e ∧ ls < s end →
  table_ok (acc ++ [(pid, e, s, o)]) (<[pid := (e, s, o)]> states)
  ∧ Forall (λ a, session_lt a (pid, e, s, o)) acc.
Proof.
  intros [H1 H2] Hj. split; [split|].
  - intros pid' e' s' o' Hin. rewrite elem_of_app, list_elem_of_singleton in Hin.
    destruct (decide (pid' = pid)) as [->|Hne].
    + exists e, s, o. rewrite lookup_insert_eq. split; [done|].
      destruct Hin as [Hin|[= -> -> ->]]; [|right; simpl; lia].
      destruct (H1 _ _ _ _ Hin) as (le & ls & lo & Hl & Hle). rewrite Hl in Hj.
      unfold lex_le in *. simpl in *. lia.
    + rewrite lookup_insert_ne by done. destruct Hin as [Hin|]; [eauto|congruence].
  - intros pid' e' s' o'. destruct (decide (pid' = pid)) as [->|Hne].
    + rewrite lookup_insert_eq. intros [= -> -> ->]. set_solver.
    + rewrite lookup_insert_ne by done. intros. apply elem_of_app. eauto.
  - apply Forall_forall. intros [[[pid' e'] s'] o'] Hin Heq. simpl in Heq. subst pid'.
    destruct (H1 _ _ _ _ Hin) as (le & ls & lo & Hl & Hle). rewrite Hl in Hj.
    unfold lex_le, lex_lt in *. simpl in *. lia.
Qed.

Lemma sorted_snoc {A} (R : A → A → Prop) l x : StronglySorted R l → Forall (λ a, R a x) l →
  StronglySorted R (l ++ [x]).
Proof.
  induction 1 as [|a l Hs IH Ha]; intros Hx; cbn [app].
  - by repeat constructor.
  - apply Forall_cons in Hx as [Hax Hx]. constructor; [by apply IH|].
    apply Forall_app. split; [done|]. by constructor.
Qed.

Lemma session_NoDup acc : StronglySorted session_lt acc → NoDup acc.*1.
Proof.
  induction 1 as [|a acc Hs IH Ha]; cbn; constructor; [|done].
  intros (b & Hab & Hb)%list_elem_of_fmap. rewrite Forall_forall in Ha. specialize (Ha b Hb).
  unfold session_lt, lex_lt in Ha. rewrite Hab in Ha. simpl in Ha. specialize (Ha eq_refl). lia.
Qed.

(** The state of a session: what has been accepted ([acc]) and what has been
    asked of the WAL since [w0]. *)
Record session (sid : Z) (wl0 : W) (acc : list (preq * Z)) (p : Partition) (w : world) : Prop := {
  se_stream : s_stream_id (stream p) = sid;
  se_table : table_ok (entry <$> acc) (producer_states p);
  se_sorted : StronglySorted session_lt (entry <$> acc);
  se_wal : ∃ n l, wal_appends n l wl0 (wal w) ∧ Forall2 (logged sid) acc l }.

Lemma session_step sid wl0 acc q p w r p' w' : session sid wl0 acc p w →
  append_idempotent (q_now q) (q_pid q) (q_epoch q) (q_seq q) (q_records q) p w = (r, p', w') →
  session sid wl0 (acc ++ omap took [(q, r)]) p' w'
  ∧ ∀ o t, r = Ok (o, t, true) → ∃ s', (q_pid q, q_epoch q, s', o) ∈ entry <$> acc ∧ q_seq q ≤ s'.
Proof.
  intros [Hsid Ht Hs (n & l & Hw & Hl)] Ha.
  apply append_idempotent_cases in Ha as [Hsid' [(o & t & k & d & c & -> & Hj & Hps & Hp & Happ)|
    [(o & t & ls & -> & -> & -> & Hlk & Hle)|(Hr & Hps & Hwal)]]].
  - destruct (table_ok_step (entry <$> acc) (producer_states p) (q_pid q) (q_epoch q) (q_seq q) o Ht) as [Ht' Hlt].
    { by apply judge_append. }
    split; [|by intros ? ? [=]]. cbn. split; rewrite ?fmap_app.
    + congruence.
    + by rewrite Hps.
    + by apply sorted_snoc.
    + exists n, (l ++ [mkWal k sid o d]). split; [rewrite <- Hsid; by eapply wal_appends_ok|].
      apply Forall2_app; [done|]. constructor; [|constructor]. split_and!; [done|done|]. by exists c.
  - cbn. rewrite app_nil_r. split; [split; eauto|]. intros ? ? [= <- <-].
    exists ls. split; [|done]. by apply Ht.
  - assert (omap took [(q, r)] = []) as -> by (by destruct r). rewrite app_nil_r.
    split; [|by intros ? ? ->]. split; [congruence|by rewrite Hps|done|].
    destruct Hwal as [->|(s' & off & d & r' & Happ & Hno)]; [eauto|].
    exists (S n), l. split; [by eapply wal_appends_failed|done].
Qed.

Lemma produce_all_spec reqs sid wl0 : ∀ p w acc rs p' w', session sid wl0 acc p w →
  produce_all reqs p w = (rs, p', w') →
  session sid wl0 (acc ++ accepted reqs rs) p' w'
  ∧ ∀ i q o t, reqs !! i = Some q → rs !! i = Some (Ok (o, t, true)) →
      ∃ s', (q_pid q, q_epoch q, s', o) ∈ entry <$> (acc ++ accepted reqs rs) ∧ q_seq q ≤ s'.
Proof.
  induction reqs as [|q reqs IH]; intros p w acc rs p' w' Hs Hr; cbn [produce_all] in Hr.
  { injection Hr as <- <- <-. unfold accepted. cbn. by rewrite app_nil_r. }
  destruct (append_idempotent _ _ _ _ _ p w) as [[r p1] w1] eqn:Ha.
  destruct (produce_all reqs p1 w1) as [[rs1 p2] w2] eqn:Hr1. injection Hr as <- <- <-.
  destruct (session_step _ _ _ _ _ _ _ _ _ Hs Ha) as [Hs1 Hd]. destruct (IH _ _ _ _ _ _ Hs1 Hr1) as [Hs2 Hd2].
  assert ((acc ++ omap took [(q, r)]) ++ accepted reqs rs1 = acc ++ accepted (q :: reqs) (r :: rs1)) as E.
  { rewrite <- app_assoc. f_equal. unfold accepted. cbn. by destruct (took (q, r)). }
  rewrite <- E. split; [done|]. intros [|i] q' o t; [|apply Hd2]. cbn. intros [= <-] [= ->].
  destruct (Hd o t eq_refl) as (s' & Hin & Hle). exists s'. split; [|done]. rewrite !fmap_app. set_solver.
Qed.

(** ** Transactions open on a partition *)

(** The producer id of a batch is in its bytes 43 to 50, as the record-batch codec
    and the control batches have it. *)
Definition im_pid (im : image) : Z := wrap_s 64 (from_be (take 8 (drop 20 (im_rest im)))).

(** A data batch of a transaction. *)
Definition transactional (im : image) : Prop := Z.land (im_attrs im) 0x10 ≠ 0 ∧ Z.land (im_attrs im) 0x20 = 0.
#[export] Instance transactional_dec im : Decision (transactional im).
Proof. unfold transactional. apply _. Defined.

(** The operations that touch the open transactions: a batch is appended, the
    commit or abort marker of a producer arrives. *)
Inductive pop :=
  | PAppend (now : Z) (im : image)
  | PComplete (pid : Z)
  | PAbort (pid first_offset : Z).

(** A transaction's batch was appended at an offset; a transaction ended. *)
Inductive pevent := EvTxn (pid offset : Z) | EvEnd (pid : Z).

Definition pop_run (op : pop) (p : Partition) (w : world) : Partition * world * list pevent :=
  match op with
  | PAppend now im =>
      let '(r, p', w') := append_records now (im_bytes im) p w in
      (p', w', match r with
               | Ok (base, _) => if decide (transactional im) then [EvTxn (im_pid im) base] else []
               | _ => []
               end)
  | PComplete pid => (complete_txn pid p, w, [EvEnd pid])
  | PAbort pid first => (record_aborted_txn pid first p, w, [EvEnd pid])
  end.

Fixpoint pops_run (ops : list pop) (p : Partition) (w : world) (h : list pevent)
    : Partition * world * list pevent :=
  match ops with
  | [] => (p, w, h)
  | op :: ops' => let '(p, w, evs) := pop_run op p w in pops_run ops' p w (h ++ evs)
  end.

(** The offset at which the transaction of [pid] that is open after [h] began,
    if one is: that of its first batch since the last end. *)
Definition open_step (pid : Z) (st : option Z) (ev : pevent) : option Z :=
  match ev with
  | EvTxn q o => if decide (q = pid) then Some (default o st) else st
  | EvEnd q => if decide (q = pid) then None else st
  end.
Definition open_at (pid : Z) (h : list pevent) : option Z := foldl (open_step pid) None h.

(** Producer ids are positive and below 2^32 (the broker gives them out from 1000
    on). *)
Definition pop_ok (op : pop) : Prop :=
  match op with
  | PAppend _ im => image_wf im ∧ (transactional im → 0 < im_pid im < 2 ^ 32)
  | PComplete pid | PAbort pid _ => 0 < pid < 2 ^ 32
  end.
#[export] Instance pop_ok_dec op : Decision (pop_ok op).
Proof. destruct op; simpl; apply _. Defined.

Definition pop_count (op : pop) : Z := match op with PAppend _ im => im_count im | _ => 0 end.

Lemma open_at_snoc pid h ev : open_at pid (h ++ [ev]) = open_step pid (open_at pid h) ev.
Proof. unfold open_at. by rewrite foldl_app. Qed.

Lemma open_txn_lookup pid b m q :
  open_txn pid b m !! q = if decide (pid = q) then Some (default b (m !! q)) else m !! q.
Proof.
  unfold open_txn. destruct (decide (pid = q)) as [->|Hne].
  - destruct (m !! q) eqn:Hq; [done|]. by rewrite lookup_insert_eq.
  - destruct (m !! pid); [done|]. by rewrite lookup_insert_ne.
Qed.

(** The key under which the code files the transaction of a batch has 32 zero
    bits at the end: it reads the last four bytes of the largest timestamp and
    the upper half of the producer id. *)
Lemma txn_producer_image im : image_wf im → (transactional im → 0 < im_pid im < 2 ^ 32) →
  ∃ o, txn_producer (im_bytes im) = Ok o ∧
    if decide (transactional im) then ∃ key, o = Some key ∧ key mod 2 ^ 32 = 0 else o = None.
Proof.
  intros Hwf Hpid. pose proof (zlen_im_bytes im Hwf) as Hl. pose proof (zlen_nonneg (im_payload im)).
  pose proof (batch_attributes_at im Hwf [] [] (im_bytes im) ltac:(by rewrite app_nil_r)) as Hat.
  unfold batch_attributes in Hat. change (zlen []) with 0 in Hat. rewrite !Z.add_0_l in Hat.
  pose proof (batch_magic_at im Hwf [] [] (im_bytes im) ltac:(by rewrite app_nil_r)) as Hm.
  change (zlen []) with 0 in Hm. rewrite Z.add_0_l in Hm.
  unfold txn_producer. rewrite decide_True by lia. rewrite Hm. cbn [mbind res_bind].
  rewrite decide_True by done. destruct (slice (im_bytes im) 21 23) as [a2| |]; [|done..].
  cbn [mbind res_bind] in Hat |- *. injection Hat as Hat. rewrite Hat.
  destruct Hwf as (Hb & He & Ha & Hr & Hp). set (rest := im_rest im) in *.
  assert (length rest = 38)%nat as Hlr by (unfold zlen in Hr; lia).
  rewrite (slice_at _ (im_base im ++ put_32 (49 + zlen (im_payload im)) ++ im_epoch im ++ put_8 2
    ++ put_32 (compute_crc32c (im_crc_data im)) ++ put_16 (im_attrs im) ++ take 16 rest)
    (take 8 (drop 16 rest)) (drop 24 rest ++ im_payload im)).
  2: { unfold im_bytes at 1. unfold im_crc_data at 2. fold rest.
       assert (rest = take 16 rest ++ take 8 (drop 16 rest) ++ drop 24 rest) as E.
       { change (drop 24 rest) with (drop (16 + 8) rest). rewrite <- drop_drop. by rewrite !take_drop. }
       rewrite E at 1. app_eq. }
  2: { rewrite !zlen_app, !zlen_to_be, Hb, He. unfold zlen. rewrite length_take. lia. }
  2: { unfold zlen. rewrite length_take, length_drop. lia. }
  cbn [mbind res_bind]. eexists. split; [done|].
  assert (take 8 (drop 16 rest) = take 4 (drop 16 rest) ++ take 4 (drop 20 rest)) as ->.
  { change (drop 20 rest) with (drop (16 + 4) rest). rewrite <- drop_drop.
    rewrite <- (take_drop 4 (take 8 (drop 16 rest))). by rewrite take_take, skipn_firstn_comm. }
  rewrite from_be_app. set (A := from_be (take 4 (drop 16 rest))). set (B := from_be (take 4 (drop 20 rest))).
  assert (zlen (take 4 (drop 20 rest)) = 4) as -> by (unfold zlen; rewrite length_take, length_drop; lia).
  case_decide as Ht; [|by rewrite decide_False by (unfold transactional in Ht; tauto)].
  assert (B = 0) as HB.
  { specialize (Hpid Ht). unfold im_pid in Hpid. fold rest in Hpid.
    assert (take 8 (drop 20 rest) = take 4 (drop 20 rest) ++ take 4 (drop 24 rest)) as E.
    { change (drop 24 rest) with (drop (20 + 4) rest). rewrite <- drop_drop.
      rewrite <- (take_drop 4 (take 8 (drop 20 rest))). by rewrite take_take, skipn_firstn_comm. }
    rewrite E, from_be_app in Hpid. fold B in Hpid.
    assert (zlen (take 4 (drop 24 rest)) = 4) as E4 by (unfold zlen; rewrite length_take, length_drop; lia).
    pose proof (from_be_range (take 4 (drop 20 rest))) as HBr. fold B in HBr.
    pose proof (from_be_range (take 4 (drop 24 rest))) as HLr.
    assert (zlen (take 4 (drop 20 rest)) = 4) as E5 by (unfold zlen; rewrite length_take, length_drop; lia).
    rewrite E4 in *. rewrite E5 in HBr. unfold wrap_s in Hpid. change (64 - 1) with 63 in Hpid.
    change (256 ^ 4) with (2 ^ 32) in *. Z.to_euclidean_division_equations. lia. }
  rewrite HB, Z.add_0_r. exists (wrap_s 64 (A * 256 ^ 4)).
  assert (wrap_s 64 (A * 256 ^ 4) mod 2 ^ 32 = 0) as Hk.
  { unfold wrap_s. change (64 - 1) with 63. change (256 ^ 4) with (2 ^ 32). Z.to_euclidean_division_equations. lia. }
  split; [|done]. rewrite decide_True; [done|]. destruct Ht. split_and!; [done|done|].
  intros E. rewrite E in Hk. vm_compute in Hk. discriminate Hk.
Qed.

(** Appending a batch of the real format. *)
Lemma append_image_ongoing now im p w r p' w' :
  append_records now (im_bytes im) p w = (r, p', w') →
  image_wf im → (transactional im → 0 < im_pid im < 2 ^ 32) →
  0 ≤ high_watermark p → high_watermark p + im_count im < 2 ^ 63 →
  high_watermark p' = high_watermark p + im_count im
  ∧ (∀ b t, r = Ok (b, t) → b = high_watermark p)
  ∧ if decide (transactional im)
    then ∃ key, key mod 2 ^ 32 = 0 ∧ ongoing_txns p' = open_txn key (high_watermark p) (ongoing_txns p)
    else ongoing_txns p' = ongoing_txns p.
Proof.
  intros Ha Hwf Hpid H0 Hb. pose proof (patch_record_batches_images [im] (high_watermark p)) as Hp.
  cbn [fmap list_fmap concat assign] in Hp. rewrite !app_nil_r in Hp. pose proof (im_count_pos im).
  assert (offsets_taken [im] = im_count im) as Hot by (cbn; lia). rewrite Hot in Hp.
  unfold append_records in Ha. fold (high_watermark p) in Ha.
  rewrite Hp in Ha; [|done|by constructor|lia|lia|pose proof (zlen_im_bytes im Hwf); destruct Hwf as (?&?&?&?&?); lia].
  cbn [mbind res_bind] in Ha.
  destruct (txn_producer_image (rebase (high_watermark p) im)) as (o & Ho & Hkey); [by apply rebase_wf|done|].
  rewrite Ho in Ha. cbn [mbind res_bind] in Ha.
  change (transactional (rebase (high_watermark p) im)) with (transactional im) in Hkey.
  assert (if decide (transactional im) then ∃ key, o = Some key ∧ key mod 2 ^ 32 = 0 else o = None) as Hkey'.
  { revert Hkey. repeat case_decide; done. }
  clear Hkey. unfold append_with_count in Ha.
  set (p1 := match o with Some _ => _ | None => p end) in Ha.
  assert (stream p1 = stream p) as Hst by (by destruct o). rewrite Hst in Ha. fold (high_watermark p) in Ha.
  rewrite Z.max_l in Ha by lia.
  rewrite wrap_s_small in Ha by (try unfold in_s; change (64 - 1) with 63; lia).
  assert (∀ s, ongoing_txns (set_stream s p1) = ongoing_txns p1) as Hos by done.
  assert (if decide (transactional im)
    then ∃ key, key mod 2 ^ 32 = 0 ∧ ongoing_txns p1 = open_txn key (high_watermark p) (ongoing_txns p)
    else ongoing_txns p1 = ongoing_txns p) as Hon.
  { unfold p1. case_decide; [|by rewrite Hkey']. destruct Hkey' as (key & -> & ?). by exists key. }
  destruct (wal_append _ _ _ _) as [[n|e|] wl]; cbn [mbind res_bind] in Ha; injection Ha as <- <- <-;
    (split_and!; [done|by intros ? ? [= <- _]|exact Hon]).
Qed.

(** The state against the history: every open transaction is covered by an
    entry that no end of a transaction removes. *)
Record txns_ok (p : Partition) (h : list pevent) : Prop := {
  tx_below : ∀ key o, ongoing_txns p !! key = Some o → o ≤ high_watermark p;
  tx_covered : ∀ pid off, open_at pid h = Some off →
    ∃ key o, ongoing_txns p !! key = Some o ∧ o ≤ off ∧ key mod 2 ^ 32 = 0 }.

Lemma txns_ok_end pid p h p' : txns_ok p h → 0 < pid < 2 ^ 32 →
  ongoing_txns p' = delete pid (ongoing_txns p) → high_watermark p' = high_watermark p → txns_ok p' (h ++ [EvEnd pid]).
Proof.
  intros [Hb Hc] Hpid Ho Hh. split; rewrite Ho, ?Hh.
  - intros key o. rewrite lookup_delete_Some. intros [_ ?]. by apply (Hb key).
  - intros q off. rewrite open_at_snoc. cbn. destruct (decide (pid = q)); [done|]. intros Hq.
    destruct (Hc q off Hq) as (key & o & Hk & Hle & Hm). exists key, o. split_and!; [|done|done].
    rewrite lookup_delete_ne; [done|]. intros <-. rewrite Z.mod_small in Hm by lia. lia.
Qed.

Lemma pop_run_ok op p w p' w' evs h : txns_ok p h → pop_run op p w = (p', w', evs) → pop_ok op →
  0 ≤ high_watermark p → high_watermark p + pop_count op < 2 ^ 63 →
  txns_ok p' (h ++ evs) ∧ high_watermark p' = high_watermark p + pop_count op
  ∧ ((∀ now im, op = PAppend now im → ¬ transactional im) → ongoing_txns p = ∅ → ongoing_txns p' = ∅).
Proof.
  intros Hok Hr Hop H0 Hb. destruct op as [now im|pid|pid f]; cbn [pop_run pop_ok pop_count] in *.
  2, 3: injection Hr as <- <- <-; (split_and!; [by eapply txns_ok_end|rewrite Z.add_0_r; done|]);
    intros _ E; cbn; by rewrite E, delete_empty.
  destruct (append_records now (im_bytes im) p w) as [[r p1] w1] eqn:Ha. destruct Hop as [Hwf Hpid].
  destruct (append_image_ongoing now im p w r p1 w1 Ha Hwf Hpid H0 Hb) as (Hh & Hbase & Hon).
  injection Hr as <- <- <-. pose proof (im_count_pos im). destruct Hok as [Hbel Hcov].
  destruct (decide (transactional im)) as [Ht|Ht].
  2: { assert (match r with Ok (_, _) => [] | _ => [] end = @nil pevent) as -> by (by destruct r as [[? ?]| |]).
       rewrite app_nil_r. split_and!; [|done|by rewrite Hon]. split; rewrite Hon; [|done].
       intros key o Hk. specialize (Hbel key o Hk). lia. }
  destruct Hon as (key & Hm & Hon).
  split_and!; [|done|intros Hno; by destruct (Hno now im eq_refl)]. split; rewrite Hon.
  - intros k o. rewrite open_txn_lookup. case_decide as E; [|intros Hk; specialize (Hbel k o Hk); lia].
    intros [= <-]. destruct (ongoing_txns p !! k) as [o'|] eqn:Hk; cbn; [specialize (Hbel k o' Hk)|]; lia.
  - assert (∀ k o, ongoing_txns p !! k = Some o → open_txn key (high_watermark p) (ongoing_txns p) !! k = Some o) as Hkeep.
    { intros k o Hk. rewrite open_txn_lookup, Hk. by case_decide. }
    intros q off Hq. destruct (open_at q h) as [off'|] eqn:Hq'.
    + assert (off' = off) as ->.
      { destruct r as [[b t]| |]; rewrite ?app_nil_r in Hq; [rewrite open_at_snoc, Hq' in Hq; cbn in Hq; case_decide|..]; congruence. }
      destruct (Hcov q off Hq') as (k & o & Hk & Hle & Hk32). exists k, o. split_and!; [by apply Hkeep|done|done].
    + destruct r as [[b t]| |]; rewrite ?app_nil_r in Hq; [|congruence..].
      rewrite open_at_snoc, Hq' in Hq. cbn in Hq. case_decide; [|done]. injection Hq as <-.
      rewrite (Hbase b t eq_refl). exists key, (default (high_watermark p) (ongoing_txns p !! key)).
      rewrite open_txn_lookup, decide_True by done. split_and!; [done| |done].
      destruct (ongoing_txns p !! key) as [o'|] eqn:Hk; cbn; [by apply (Hbel key)|lia].
Qed.

Lemma pops_run_ok ops : ∀ p w h p' w' h', txns_ok p h → pops_run ops p w h = (p', w', h') → Forall pop_ok ops →
  0 ≤ high_watermark p → high_watermark p + zsum pop_count ops < 2 ^ 63 →
  txns_ok p' h' ∧ high_watermark p' = high_watermark p + zsum pop_count ops
  ∧ ((∀ now im, PAppend now im ∈ ops → ¬ transactional im) → ongoing_txns p = ∅ → ongoing_txns p' = ∅).
Proof.
  induction ops as [|op ops IH]; intros p w h p' w' h' Hok Hr Hops H0 Hb; cbn [pops_run] in Hr.
  { injection Hr as <- <- <-. split_and!; [done|cbn; lia|done]. }
  change (zsum pop_count (op :: ops)) with (pop_count op + zsum pop_count ops) in *.
  apply Forall_cons in Hops as [Hop Hops].
  assert (∀ x, 0 ≤ pop_count x) as Hpos by (intros []; cbn; [pose proof (im_count_pos im)|..]; lia).
  pose proof (zsum_nonneg pop_count ops Hpos). pose proof (Hpos op).
  destruct (pop_run op p w) as [[p1 w1] evs] eqn:E.
  destruct (pop_run_ok op p w p1 w1 evs h Hok E Hop H0) as (Hok1 & Hh1 & Hn1); [lia|].
  destruct (IH p1 w1 (h ++ evs) p' w' h' Hok1 Hr Hops) as (Hok2 & Hh2 & Hn2); [lia|lia|].
  split_and!; [done|lia|]. intros Hno He. apply Hn2; [intros; apply (Hno now); set_solver|].
  apply Hn1; [|done]. intros now im ->. apply (Hno now). set_solver.
Qed.

Lemma foldr_min_spec x l : foldr Z.min x l ∈ x :: l ∧ ∀ y, y ∈ x :: l → foldr Z.min x l ≤ y.
Proof.
  induction l as [|z l [IH1 IH2]]; cbn [foldr].
  - split; [set_solver|]. intros y Hy. apply list_elem_of_singleton in Hy. lia.
  - split.
    + destruct (Z.min_spec z (foldr Z.min x l)) as [[_ ->]|[_ ->]]; set_solver.
    + intros y Hy. assert (y = z ∨ y ∈ x :: l) as [->|Hy'] by set_solver; [lia|].
      specialize (IH2 y Hy'). lia.
Qed.

Lemma last_stable_offset_spec p :
  last_stable_offset p ≤ high_watermark p
  ∧ (∀ pid off, ongoing_txns p !! pid = Some off → last_stable_offset p ≤ off)
  ∧ (last_stable_offset p = high_watermark p ∨ ∃ pid, ongoing_txns p !! pid = Some (last_stable_offset p)).
Proof.
  unfold last_stable_offset. set (hw := high_watermark p).
  assert (∀ off, off ∈ (map_to_list (ongoing_txns p)).*2 ↔ ∃ pid, ongoing_txns p !! pid = Some off) as Hel.
  { intros off. rewrite list_elem_of_fmap. split.
    - intros ([pid o] & -> & Hin). exists pid. by apply elem_of_map_to_list.
    - intros [pid Hp]. exists (pid, off). split; [done|]. by apply elem_of_map_to_list. }
  destruct ((map_to_list (ongoing_txns p)).*2) as [|x l]; cbn [list_min].
  - split_and!; [lia| |by left]. intros pid off Hp.
    exfalso. assert (off ∈ @nil Z) as Hn by (apply Hel; eauto). by apply elem_of_nil in Hn.
  - destruct (foldr_min_spec x l) as [Hm Hle]. split_and!; [lia| |].
    + intros pid off Hp. assert (off ∈ x :: l) as Hin by (apply Hel; eauto). specialize (Hle off Hin). lia.
    + destruct (Z.min_spec (foldr Z.min x l) hw) as [[_ ->]|[_ ->]]; [|by left].
      right. by apply Hel.
Qed.
End lemmas.

(** ** Properties *)
Section theorems.
Context `{HO : HashOrder} {W St : Type}.
Context `{!WalEngine W, !WalEngineLaws W, !ObjectStorage St, !ObjectStorageLaws St}.
Abbreviation world := (World W St).
Implicit Types w : world.

Lemma append_assigns_offsets now ims p w b t p' w' max :
  append_records now (concat (im_bytes <$> ims)) p w = (Ok (b, t), p', w') →
  ims ≠ [] → Forall image_wf ims → zlen (concat (im_bytes <$> ims)) < 2 ^ 32 →
  0 ≤ log_start_offset p ≤ high_watermark p → high_watermark p + offsets_taken ims < i64_max →
  wal_inv (wal w) → in_u 64 (s_stream_id (stream p)) →
  cache_ok (log_cache w) (zlen (concat (im_bytes <$> ims))) →
  let out := assign b ims in
  b = high_watermark p ∧ high_watermark p' = high_watermark p + offsets_taken ims
  ∧ (∀ k im, ims !! k = Some im → out !! k = Some (rebase (b + offsets_taken (take k ims)) im))
  ∧ (∃ r, Forall (λ rec, seq rec < r) (wal_contents (wal w)) ∧ (0 ≤ r < 2 ^ 64 - 2 →
       wal_contents (wal w') = wal_contents (wal w)
         ++ [mkWal r (s_stream_id (stream p)) b (concat (im_bytes <$> out))]))
  ∧ ∃ rest, (read_records b max p' w').1 = Ok ((b, concat (im_bytes <$> out)) :: rest).
Proof.
  intros Ha Hne Hwf Hlen Hst Hov Hw Hsid Hc out.
  apply append_records_inv in Ha as (patched & count & o & s' & Hp & _ & -> & -> & Hap & ->).
  rewrite patch_record_batches_images in Hp; [|done|done|lia|unfold i64_max in *; lia|lia].
  injection Hp as <- <-.
  assert (zlen (concat (im_bytes <$> out)) = zlen (concat (im_bytes <$> ims))) as Hz
    by (by apply zlen_assign).
  assert (1 ≤ offsets_taken ims) as Hpos by (by apply offsets_taken_pos).
  destruct (append_fetch_spec _ _ _ _ _ _ _ max Hap) as (_ & Hn & (r & _ & Hf & Hr) & rest & Hfetch).
  - done.
  - done.
  - unfold out in Hz. rewrite Hz. unfold in_u. split; [apply zlen_nonneg|lia].
  - unfold out in Hz. by rewrite Hz.
  - unfold log_start_offset, high_watermark, i64_min in *. lia.
  - unfold high_watermark in *. rewrite Z.max_l by lia. lia.
  - rewrite Z.max_l in Hn by lia. split_and!.
    + done.
    + by destruct o.
    + intros k im Hk. by apply assign_lookup.
    + exists r. split; [done|]. done.
    + exists rest. unfold read_records. by destruct o.
Qed.

(** C14: Offset assignment.  When a produce request's batches are appended, the
    base offset returned is the old high watermark and the new one is ahead of it
    by the number of records in all the batches; the WAL receives, and a fetch at
    the base offset returns, the same batches with base offsets that follow on
    from one another (the k-th one starts after the records of the k before it)
    and every other byte unchanged. *)
Theorem partition_append_assigns_offsets now ims p w b t p' w' max :
  append_records now (concat (im_bytes <$> ims)) p w = (Ok (b, t), p', w') →
  ims ≠ [] → Forall image_wf ims → zlen (concat (im_bytes <$> ims)) < 2 ^ 32 →
  0 ≤ log_start_offset p ≤ high_watermark p → high_watermark p + offsets_taken ims < i64_max →
  wal_inv (wal w) → in_u 64 (s_stream_id (stream p)) →
  cache_ok (log_cache w) (zlen (concat (im_bytes <$> ims))) →
  let out := assign b ims in
  b = high_watermark p ∧ high_watermark p' = high_watermark p + offsets_taken ims
  ∧ (∀ k im, ims !! k = Some im → out !! k = Some (rebase (b + offsets_taken (take k ims)) im))
  ∧ (∃ r, Forall (λ rec, seq rec < r) (wal_contents (wal w)) ∧ (0 ≤ r < 2 ^ 64 - 2 →
       wal_contents (wal w') = wal_contents (wal w)
         ++ [mkWal r (s_stream_id (stream p)) b (concat (im_bytes <$> out))]))
  ∧ ∃ rest, (read_records b max p' w').1 = Ok ((b, concat (im_bytes <$> out)) :: rest).
Proof. apply append_assigns_offsets. Qed.

(** C15: Idempotent production is exactly-once.  Over any sequence of calls of
    [append_idempotent] on a fresh partition, from any producers, with retries,
    reorderings and stale epochs: the batches accepted from one producer (answered
    with an offset and not as duplicates) carry strictly increasing
    (epoch, sequence) pairs; the appends that succeed on the WAL are exactly
    those of the accepted batches, once each and in order, under the offset
    answered, so that a duplicate or refused batch adds nothing to the log; a
    duplicate is answered with the offset of an accepted batch of the same
    producer and epoch with this or a later sequence number; and the table entry
    of a producer is its accepted batch with the largest pair.  If no append
    failed on the WAL, its contents grew by exactly these records.  (A batch
    whose append fails is answered with the error and may be sent again.  The
    Produce handler never makes these calls, it appends unconditionally.) *)
Theorem idempotent_exactly_once reqs tp s w rs p' w' :
  produce_all reqs (partition_new tp s) w = (rs, p', w') →
  let acc := accepted reqs rs in
  StronglySorted session_lt (entry <$> acc) ∧ NoDup (entry <$> acc).*1
  ∧ table_ok (entry <$> acc) (producer_states p')
  ∧ (∃ failed l, wal_appends failed l (wal w) (wal w') ∧ Forall2 (logged (s_stream_id s)) acc l
       ∧ (failed = 0%nat → wal_inv (wal w) → Forall (λ r, wf r ∧ seq r < 2 ^ 64 - 2) l →
          wal_contents (wal w') = wal_contents (wal w) ++ l))
  ∧ ∀ i q o t, reqs !! i = Some q → rs !! i = Some (Ok (o, t, true)) →
      ∃ s', (q_pid q, q_epoch q, s', o) ∈ entry <$> acc ∧ q_seq q ≤ s'.
Proof.
  intros Hr. assert (session (s_stream_id s) (wal w) [] (partition_new tp s) w) as Hs0.
  { split; [done|split; set_solver|constructor|]. exists 0%nat, []. split; constructor. }
  destruct (produce_all_spec _ _ _ _ _ _ _ _ _ Hs0 Hr) as [[_ Ht Hs (n & l & Hw & Hl)] Hd]. cbn [app] in *.
  split_and!; [done|by apply session_NoDup|done| |done].
  exists n, l. split_and!; [done|done|]. intros -> Hi Hb. by apply wal_appends_contents.
Qed.

(** C16: The last stable offset never passes an open transaction.  On a fresh
    partition, append any batches, one a call (the first batch of a request is
    the only one looked at), with producer ids, transactional and control bits
    where the record format has them, and let commit and abort markers arrive in
    any order; producer ids are between 1 and 2^32 - 1 and the offsets do not run
    out.  Then the high watermark is ahead of the first offset by the records
    appended, the last stable offset is at most the high watermark and at most the first
    offset of every transaction that is still open, by the batches' own producer
    ids; and without any transactional batch it is the high watermark.  (It does
    not promise that the end of a transaction moves it: the broker reads the
    producer id in the wrong place, so that a committed transaction keeps holding
    it back, [committed_transaction_stays_open].) *)
Theorem lso_bounded_by_open_transactions ops tp s w p' w' h :
  pops_run ops (partition_new tp s) w [] = (p', w', h) → Forall pop_ok ops →
  0 ≤ s_next_offset s → s_next_offset s + zsum pop_count ops < 2 ^ 63 →
  high_watermark p' = s_next_offset s + zsum pop_count ops
  ∧ last_stable_offset p' ≤ high_watermark p'
  ∧ (∀ pid off, open_at pid h = Some off → last_stable_offset p' ≤ off)
  ∧ ((∀ now im, PAppend now im ∈ ops → ¬ transactional im) → last_stable_offset p' = high_watermark p').
Proof.
  intros Hr Hops H0 Hb. destruct (pops_run_ok ops (partition_new tp s) w [] p' w' h) as ([Hbel Hcov] & Hh & Hno); [|done..|].
  { split; [done|]. intros pid off. done. }
  destruct (last_stable_offset_spec p') as (H1 & H2 & H3). split_and!; [done|done| |].
  - intros pid off Hq. destruct (Hcov pid off Hq) as (key & o & Hk & Hle & _). specialize (H2 key o Hk). lia.
  - intros Hn. destruct H3 as [|[key Hk]]; [done|]. rewrite (Hno Hn eq_refl), lookup_empty in Hk. done.
Qed.
End theorems.

(** ** Witnesses *)
Import MemoryWal MemoryStore.

Definition demo_tp : TopicPartition := mkTP "orders" 0.
Definition demo_partition : Partition := partition_new demo_tp demo_stream.
Definition demo_batches : list image := [demo_image; demo_image].
Definition demo_append := append_records 1700 (concat (im_bytes <$> demo_batches)) demo_partition demo_world.

Definition part_of {A C} (x : A * Partition * C) : Partition := x.1.2.

Lemma partition_append_assigns_offsets_witness :
  0 = high_watermark demo_partition ∧ high_watermark (part_of demo_append) = 4
  ∧ ∃ rest, (read_records 0 100 (part_of demo_append) (world_of demo_append)).1
      = Ok ((0, concat (im_bytes <$> assign 0 demo_batches)) :: rest).
Proof.
  destruct (partition_append_assigns_offsets 1700 demo_batches demo_partition demo_world 0 1700
    (part_of demo_append) (world_of demo_append) 100) as (H1 & H2 & _ & _ & H3).
  - vm_compute. reflexivity.
  - discriminate.
  - apply (bool_decide_unpack _). vm_compute. exact I.
  - apply (bool_decide_unpack _). vm_compute. exact I.
  - apply (bool_decide_unpack _). vm_compute. exact I.
  - apply (bool_decide_unpack _). vm_compute. exact I.
  - exact wf_new.
  - apply (bool_decide_unpack _). vm_compute. exact I.
  - apply demo_cache_ok. apply (bool_decide_unpack _). vm_compute. exact I.
  - split; [exact H1|]. split; [|exact H3]. rewrite H2. vm_compute. reflexivity.
Defined.

(** Two producers; the first retries its batch, is overtaken by a new epoch and
    then tries again with the old one. *)
Definition demo_reqs : list preq :=
  [mkReq 1 7 0 0 (im_bytes demo_image); mkReq 2 7 0 0 (im_bytes demo_image);
   mkReq 3 8 0 0 (im_bytes demo_image); mkReq 4 7 0 1 (im_bytes demo_image);
   mkReq 5 7 1 0 (im_bytes demo_image); mkReq 6 7 0 2 (im_bytes demo_image)].

Definition demo_session := produce_all demo_reqs demo_partition demo_world.

Lemma idempotent_exactly_once_witness :
  let acc := accepted demo_reqs demo_session.1.1 in
  entry <$> acc = [(7, 0, 0, 0); (8, 0, 0, 2); (7, 0, 1, 4); (7, 1, 0, 6)]
  ∧ NoDup (entry <$> acc).*1
  ∧ ∃ failed l, wal_appends failed l (wal demo_world) (wal demo_session.2) ∧ Forall2 (logged 42) acc l.
Proof.
  destruct (idempotent_exactly_once demo_reqs demo_tp demo_stream demo_world demo_session.1.1 demo_session.1.2
    demo_session.2) as (_ & Hnd & _ & (n & l & Hw & Hl & _) & _).
  - unfold demo_session, demo_partition. destruct (produce_all _ _ _) as [[? ?] ?]. reflexivity.
  - cbv zeta. split; [vm_compute; reflexivity|]. split; [exact Hnd|]. exists n, l. split; [exact Hw|exact Hl].
Defined.

(** A transactional batch of producer 1007, and the commit of another one. *)
Definition demo_txn_image : image :=
  mkImage (put_64 0) (put_32 0) 0x10
    (put_32 1 ++ put_64 0 ++ put_64 5 ++ put_64 1007 ++ put_16 0 ++ put_32 0 ++ put_32 2) [].

Definition demo_pops : list pop :=
  [PAppend 1 demo_image; PAppend 2 demo_txn_image; PAppend 3 demo_image; PComplete 1008].

Definition demo_trace := pops_run demo_pops demo_partition demo_world [].

Lemma lso_bounded_by_open_transactions_witness :
  open_at 1007 demo_trace.2 = Some 2 ∧ high_watermark demo_trace.1.1 = 6
  ∧ last_stable_offset demo_trace.1.1 ≤ 2.
Proof.
  destruct (lso_bounded_by_open_transactions demo_pops demo_tp demo_stream demo_world demo_trace.1.1
    demo_trace.1.2 demo_trace.2) as (Hh & _ & Ho & _).
  - unfold demo_trace, demo_partition. destruct (pops_run _ _ _ _) as [[? ?] ?]. reflexivity.
  - apply (bool_decide_unpack _). vm_compute. exact I.
  - vm_compute. discriminate.
  - vm_compute. reflexivity.
  - assert (open_at 1007 demo_trace.2 = Some 2) as E by (vm_compute; reflexivity).
    split; [exact E|]. split; [rewrite Hh; vm_compute; reflexivity|exact (Ho 1007 2 E)].
Defined.

(** ** What modelling showed *)

(** A batch header of 21 bytes with magic 2 and a length field below 9 makes the
    slice under the CRC run backwards: the broker panics. *)
Theorem short_batch_length_panics :
  patch_record_batches (replicate 16 x00 ++ [x02] ++ replicate 4 x00) 0 = Panic.
Proof. vm_compute. reflexivity. Qed.

(** The sequence check counts batches, while a producer numbers records: after a
    batch of two records with sequence 0 the batch with sequence 2 that follows
    it is refused as out of order. *)
Theorem next_batch_after_two_records_rejected :
  let '(_, p, w) := append_idempotent 1 7 0 0 (im_bytes demo_image) demo_partition demo_world in
  high_watermark p = 2 ∧
  (append_idempotent 2 7 0 2 (im_bytes demo_image) p w).1.1
    = Err (EProtocol "Out of order sequence for producer 7: expected 1, got 2").
Proof. vm_compute. split; reflexivity. Qed.

(** After the largest sequence number a producer starts again from 0; the batch
    is taken for a duplicate and dropped, with the old offset as its answer. *)
Theorem sequence_wrap_drops_batch :
  let p := set_producers {[7 := (0, 2 ^ 31 - 1, 5)]} demo_partition in
  append_idempotent 1 7 0 0 (im_bytes demo_image) p demo_world = (Ok (5, 1, true), p, demo_world).
Proof. vm_compute. reflexivity. Qed.
