(* ===== verification/Concurrent.v ===== *)
(** * Concurrent appends

    [Partition::append_records] of [crates/oxidemq-broker/src/partition.rs] and
    [S3Stream::append_with_count] of [crates/oxidemq-s3stream/src/stream.rs] as
    threads execute them: one step for each access to something that threads
    share (the append lock of a partition, the table of open transactions, the
    atomic next offset, the WAL, the log cache).  A schedule says which thread
    moves next.  The other files take a whole append for one step; here this is
    justified: every complete schedule gives the results and the final state of
    the same appends executed one after the other, in an order that respects
    the order of calls that do not overlap. *)

From Stdlib Require Import Strings.Byte.
From stdpp Require Import base numbers list strings sets gmap.
From S2P Require Import Prelude Bytes CoreTypes Batch Wal S3Format LogCache BlockCache ObjectStore Stream Partition.

(** ** Threads *)

(** A call of [append_records] on the partition with the index [op_part]. *)
Record append_op := mkOp { op_part : nat; op_records : bytes; op_now : Z }.

(** How far the call is.  [Finished] holds the lock still: it is released when
    the guard is dropped. *)
Inductive pc :=
| Start
| Locked
| Patched (base : Z) (patched : bytes) (count : Z)
| Noted (base : Z) (patched : bytes) (count : Z)
| Taken (base : Z) (patched : bytes) (offset : Z)
| Logged (base : Z) (patched : bytes) (offset : Z)
| Finished (r : result (Z * Z))
| Returned (r : result (Z * Z)).

Record thread := mkThread { th_op : append_op; th_pc : pc }.

Section model.
Context `{HO : HashOrder} {W St : Type} `{!WalEngine W, !ObjectStorage St}.
Abbreviation world := (World W St).

(** [wal_order] records in which order the calls reached the WAL. *)
Record state := mkState {
  parts : list Partition;
  append_lock : list bool;
  threads : list thread;
  shared : world;
  wal_order : list nat }.

Definition move (i : nat) (pc : pc) (s : state) : state :=
  mkState (parts s) (append_lock s)
    (alter (λ th, mkThread (th_op th) pc) i (threads s)) (shared s) (wal_order s).
Definition set_part (j : nat) (p : Partition) (s : state) : state :=
  mkState (<[j := p]> (parts s)) (append_lock s) (threads s) (shared s) (wal_order s).
Definition set_lock (j : nat) (b : bool) (s : state) : state :=
  mkState (parts s) (<[j := b]> (append_lock s)) (threads s) (shared s) (wal_order s).
Definition set_shared (w : world) (s : state) : state :=
  mkState (parts s) (append_lock s) (threads s) w (wal_order s).
Definition reach_wal (i : nat) (s : state) : state :=
  mkState (parts s) (append_lock s) (threads s) (shared s) (wal_order s ++ [i]).

(** [ongoing_txns.write().entry(pid).or_insert(base_offset)], for the batches
    that open a transaction *)
Definition note_txn (o : option Z) (base : Z) (p : Partition) : Partition :=
  match o with Some pid => set_ongoing (open_txn pid base (ongoing_txns p)) p | None => p end.
(** [next_offset.fetch_add(count)] *)
Definition fetch_add (count : Z) (p : Partition) : Partition :=
  set_stream (set_next (i64 (s_next_offset (stream p) + Z.max count 1)) (stream p)) p.

(** The next step of thread [i]: [None] when it has returned, waits for the
    lock, or panics. *)
Definition step (i : nat) (s : state) : option state :=
  th ← threads s !! i;
  let j := op_part (th_op th) in
  p ← parts s !! j;
  match th_pc th with
  | Start =>
      locked ← append_lock s !! j;
      if locked : bool then None else Some (move i Locked (set_lock j true s))
  | Locked =>
      let base := s_next_offset (stream p) in
      match patch_record_batches (op_records (th_op th)) base with
      | Ok (patched, count) => Some (move i (Patched base patched count) s)
      | _ => None
      end
  | Patched base patched count =>
      match txn_producer patched with
      | Ok o => Some (move i (Noted base patched count) (set_part j (note_txn o base p) s))
      | _ => None
      end
  | Noted base patched count =>
      let offset := s_next_offset (stream p) in
      Some (move i (Taken base patched offset) (set_part j (fetch_add count p) s))
  | Taken base patched offset =>
      match wal_append (s_stream_id (stream p)) offset patched (wal (shared s)) with
      | (Ok _, wl) => Some (move i (Logged base patched offset) (reach_wal i (set_shared (set_wal wl (shared s)) s)))
      | (Err e, wl) => Some (move i (Finished (Err e)) (reach_wal i (set_shared (set_wal wl (shared s)) s)))
      | (Panic, _) => None
      end
  | Logged base patched offset =>
      let lc := LC.put (s_stream_id (stream p)) offset patched (log_cache (shared s)) in
      Some (move i (Finished (Ok (base, op_now (th_op th)))) (set_shared (set_log_cache lc (shared s)) s))
  | Finished r => Some (move i (Returned r) (set_lock j false s))
  | Returned _ => None
  end.

Fixpoint run (schedule : list nat) (s : state) : option state :=
  match schedule with
  | [] => Some s
  | i :: schedule => s ← step i s; run schedule s
  end.

Definition init (ops : list append_op) (ps : list Partition) (w : world) : state :=
  mkState ps (replicate (length ps) false) ((λ o, mkThread o Start) <$> ops) w [].

(** ** The same calls, one after the other *)
Definition call (ops : list append_op) (i : nat) (st : list (nat * result (Z * Z)) * list Partition * world)
    : list (nat * result (Z * Z)) * list Partition * world :=
  let '(rs, ps, w) := st in
  match ops !! i with
  | None => st
  | Some o =>
      match ps !! op_part o with
      | None => st
      | Some p =>
          let '(r, p, w) := append_records (op_now o) (op_records o) p w in
          (rs ++ [(i, r)], <[op_part o := p]> ps, w)
      end
  end.

Definition sequential (ops : list append_op) (order : list nat) (ps : list Partition) (w : world) :=
  foldl (λ st i, call ops i st) ([], ps, w) order.

(** ** The states in between *)

(** Holds the lock of its partition. *)
Definition critical (pc : pc) : bool := match pc with Start | Returned _ => false | _ => true end.
(** Has reached the WAL. *)
Definition logged (pc : pc) : bool := match pc with Logged _ _ _ | Finished _ | Returned _ => true | _ => false end.

(** What a thread knows about its partition [p], given the partition [a] as it
    is when the calls that reached the WAL are executed one after the other. *)
Definition between (th : thread) (a p : Partition) : Prop :=
  match th_pc th with
  | Patched base patched count => p = a ∧ base = s_next_offset (stream a)
      ∧ patch_record_batches (op_records (th_op th)) base = Ok (patched, count)
  | Noted base patched count => base = s_next_offset (stream a)
      ∧ patch_record_batches (op_records (th_op th)) base = Ok (patched, count)
      ∧ ∃ o, txn_producer patched = Ok o ∧ p = note_txn o base a
  | Taken base patched offset => base = s_next_offset (stream a) ∧ offset = base
      ∧ ∃ o count, patch_record_batches (op_records (th_op th)) base = Ok (patched, count)
         ∧ txn_producer patched = Ok o ∧ p = fetch_add count (note_txn o base a)
  | _ => p = a
  end.

(** The result that a call past the WAL returns. *)
Definition outcome (th : thread) : option (result (Z * Z)) :=
  match th_pc th with
  | Logged base _ _ => Some (Ok (base, op_now (th_op th)))
  | Finished r | Returned r => Some r
  | _ => None
  end.

Definition sid (p : Partition) : Z := s_stream_id (stream p).

(** The bytes that the calls which are not [past] a point have still to add. *)
Definition debt (past : pc → bool) (th : thread) : Z :=
  if past (th_pc th) then 0 else zlen (op_records (th_op th)).
Definition owed (past : pc → bool) (ths : list thread) : Z := zsum (debt past) ths.
Definition cached (pc : pc) : bool := match pc with Finished _ | Returned _ => true | _ => false end.

(** Which calls have reached the WAL, and with what results [rs]. *)
Record history (ops : list append_op) (s : state) (rs : list (nat * result (Z * Z))) : Prop := {
  h_ops : th_op <$> threads s = ops;
  h_order : NoDup (wal_order s);
  h_known i : i ∈ wal_order s → is_Some (threads s !! i);
  h_logged i th : threads s !! i = Some th → logged (th_pc th) = true ↔ i ∈ wal_order s;
  h_results i th r : threads s !! i = Some th → outcome th = Some r → (i, r) ∈ rs }.

(** The locks exclude each other, and the partitions compare with the
    partitions [aps] of the calls that reached the WAL. *)
Record locking (s : state) (aps : list Partition) : Prop := {
  l_sids : sid <$> aps = sid <$> parts s;
  l_distinct : NoDup (sid <$> parts s);
  l_length : length (append_lock s) = length (parts s);
  l_locked i th : threads s !! i = Some th → critical (th_pc th) = true →
    append_lock s !! op_part (th_op th) = Some true;
  l_holder j : append_lock s !! j = Some true →
    ∃ i th, threads s !! i = Some th ∧ critical (th_pc th) = true ∧ op_part (th_op th) = j;
  l_exclusive i i' th th' : threads s !! i = Some th → threads s !! i' = Some th' →
    critical (th_pc th) = true → critical (th_pc th') = true → op_part (th_op th) = op_part (th_op th') → i = i';
  l_parts i th a p : threads s !! i = Some th → critical (th_pc th) = true →
    aps !! op_part (th_op th) = Some a → parts s !! op_part (th_op th) = Some p → between th a p;
  l_free j : append_lock s !! j = Some false → aps !! j = parts s !! j }.

(** Thread [i] has logged a batch of stream [x] that is not in the cache yet. *)
Definition waiting (s : state) (i : nat) (th : thread) (x : Z) (patched : bytes) (offset : Z) : Prop :=
  threads s !! i = Some th ∧ (∃ base, th_pc th = Logged base patched offset)
  ∧ (sid <$> parts s) !! op_part (th_op th) = Some x.

(** The world: the log cache lacks the batches that are waiting; there is room for what is still owed. *)
Record worlds (s : state) (aw : world) : Prop := {
  w_wal : wal aw = wal (shared s);
  w_storage : storage aw = storage (shared s);
  w_blocks : block_cache aw = block_cache (shared s);
  w_max : LC.max_bytes (log_cache aw) = LC.max_bytes (log_cache (shared s));
  w_hits : LC.hits (log_cache aw) = LC.hits (log_cache (shared s));
  w_misses : LC.misses (log_cache aw) = LC.misses (log_cache (shared s));
  w_wf : LC.wf (log_cache (shared s));
  w_awf : LC.wf (log_cache aw);
  w_pending i th x patched offset : waiting s i th x patched offset →
    LC.streams (log_cache aw) !! x
      = Some (<[offset := patched]> (default ∅ (LC.streams (log_cache (shared s)) !! x)))
    ∧ zlen patched = zlen (op_records (th_op th));
  w_rest x : (∀ i th patched offset, ¬ waiting s i th x patched offset) →
    LC.streams (log_cache aw) !! x = LC.streams (log_cache (shared s)) !! x;
  w_room : LC.total (LC.streams (log_cache (shared s))) + owed cached (threads s)
    ≤ LC.max_bytes (log_cache (shared s)) < 2 ^ 63;
  w_aroom : LC.total (LC.streams (log_cache aw)) + owed logged (threads s)
    ≤ LC.max_bytes (log_cache (shared s)) }.
End model.

Section proofs.
Context `{HO : HashOrder} {W St : Type} `{!WalEngine W, !ObjectStorage St}.
Abbreviation world := (World W St).
Implicit Types (s : state (W:=W) (St:=St)) (w aw : world) (ps aps : list Partition).

Definition at_pc (pc : pc) (th : thread) : thread := mkThread (th_op th) pc.

Lemma lookup_at i pc (ths : list thread) k :
  alter (at_pc pc) i ths !! k = if decide (k = i) then at_pc pc <$> ths !! i else ths !! k.
Proof. case_decide; [subst; apply list_lookup_alter_eq|by apply list_lookup_alter_ne]. Qed.

Lemma owed_at past i pc ths th : ths !! i = Some th →
  owed past (alter (at_pc pc) i ths) = owed past ths
    + (if past pc then 0 else zlen (op_records (th_op th)))
    - (if past (th_pc th) then 0 else zlen (op_records (th_op th))).
Proof. intros Hi. unfold owed. rewrite (zsum_alter _ _ _ _ th Hi). unfold debt. cbn. lia. Qed.

Lemma owed_ge past i ths th : ths !! i = Some th → past (th_pc th) = false → zlen (op_records (th_op th)) ≤ owed past ths.
Proof.
  intros Hi Hp. assert (debt past th = zlen (op_records (th_op th))) as <- by (unfold debt; by rewrite Hp).
  apply (zsum_ge _ i); [|done]. intros t. unfold debt. pose proof (zlen_nonneg (op_records (th_op t))). by case_match.
Qed.

(** ** A step of one thread

    Thread [i] moves to [pc']; the partitions of others, and what others know,
    do not change. *)
Section one_step.
Context (ops : list append_op) (s s' : state (W:=W) (St:=St)) (i : nat) (th : thread) (pc' : pc).
Context (Hth : threads s !! i = Some th) (Hths : threads s' = alter (at_pc pc') i (threads s)).
Abbreviation j := (op_part (th_op th)).

(** How the lock may change. *)
Definition lock_moves : Prop :=
  match critical (th_pc th), critical pc' with
  | false, true => append_lock s !! j = Some false ∧ append_lock s' = <[j := true]> (append_lock s)
  | true, false => append_lock s' = <[j := false]> (append_lock s)
  | true, true => append_lock s' = append_lock s
  | false, false => False
  end.

Lemma at_cases k t : threads s' !! k = Some t → (k = i ∧ t = at_pc pc' th) ∨ (k ≠ i ∧ threads s !! k = Some t).
Proof. rewrite Hths. by apply lookup_alter_cases. Qed.

Lemma lock_other k : lock_moves → k ≠ j → append_lock s' !! k = append_lock s !! k.
Proof.
  unfold lock_moves. intros HL Hk. destruct (critical (th_pc th)), (critical pc'); [| |destruct HL as [_ HL]|done];
    by rewrite HL, ?list_lookup_insert_ne.
Qed.

Lemma lock_length : lock_moves → length (append_lock s') = length (append_lock s).
Proof.
  unfold lock_moves. intros HL. destruct (critical (th_pc th)), (critical pc'); [| |destruct HL as [_ HL]|done];
    by rewrite HL, ?length_insert.
Qed.

(** The lock of the partition, after the step. *)
Lemma lock_own aps : locking s aps → lock_moves → append_lock s' !! j = Some (critical pc').
Proof.
  unfold lock_moves. intros C HL. destruct (critical (th_pc th)) eqn:Hc.
  - pose proof (l_locked _ _ C i th Hth Hc) as Hl. destruct (critical pc'); rewrite HL; [done|].
    apply list_lookup_insert_eq. by apply lookup_lt_Some in Hl.
  - destruct (critical pc'); [|done]. destruct HL as [Hl ->]. apply list_lookup_insert_eq. by apply lookup_lt_Some in Hl.
Qed.

(** Another thread in a critical section is in that of another partition. *)
Lemma other_part aps k t : locking s aps → lock_moves → threads s !! k = Some t → k ≠ i →
  critical (th_pc t) = true → op_part (th_op t) ≠ j.
Proof.
  intros C HL Hk Hne Hc Hj. unfold lock_moves in HL. destruct (critical (th_pc th)) eqn:Hci.
  - apply Hne. by apply (l_exclusive _ _ C k i t th).
  - destruct (critical pc'); [|done]. destruct HL as [Hl _]. pose proof (l_locked _ _ C k t Hk Hc) as Hl'.
    rewrite Hj in Hl'. congruence.
Qed.

Lemma locking_step aps aps' : locking s aps → lock_moves →
  (∀ k, k ≠ j → aps' !! k = aps !! k ∧ parts s' !! k = parts s !! k) →
  sid <$> aps' = sid <$> aps → sid <$> parts s' = sid <$> parts s →
  (∀ a p, aps' !! j = Some a → parts s' !! j = Some p → between (at_pc pc' th) a p) →
  locking s' aps'.
Proof.
  intros C HL Hfr Ha Hp Hb. assert (length (parts s') = length (parts s)) as Hps by (by rewrite <- !(length_fmap sid), Hp).
  assert (length aps' = length (parts s')) as Hlen.
  { rewrite <- (length_fmap sid aps'), Ha, (l_sids _ _ C), <- Hp. by rewrite length_fmap. }
  split.
  - rewrite Ha, Hp. apply C.
  - rewrite Hp. apply C.
  - rewrite lock_length, Hps by done. apply C.
  - intros k t [[-> ->]|[Hne Hk]]%at_cases Hc; cbn in *; [by rewrite <- Hc; eapply lock_own|].
    rewrite lock_other; [by apply (l_locked _ _ C k)|done|by eapply other_part].
  - intros k Hk. destruct (decide (k = j)) as [->|Hne].
    + rewrite (lock_own aps) in Hk by done. injection Hk as Hc. exists i, (at_pc pc' th). by rewrite Hths, lookup_at, decide_True, Hth.
    + rewrite lock_other in Hk by done. destruct (l_holder _ _ C k Hk) as (k' & t & Ht & Hc & Hj).
      exists k', t. rewrite Hths, lookup_at, decide_False; [done|]. intros ->. by rewrite Hth in Ht; simplify_eq.
  - intros k k' t t' [[-> ->]|[Hne Hk]]%at_cases [[-> ->]|[Hne' Hk']]%at_cases Hc Hc' Hj; cbn in *; [done| | |].
    + by destruct (other_part aps k' t' C HL Hk' Hne' Hc').
    + by destruct (other_part aps k t C HL Hk Hne Hc).
    + by apply (l_exclusive _ _ C k k' t t').
  - intros k t a p [[-> ->]|[Hne Hk]]%at_cases Hc; [apply Hb|].
    destruct (Hfr (op_part (th_op t))) as [-> ->]; [by eapply other_part|]. by apply (l_parts _ _ C k).
  - intros k Hk. destruct (decide (k = j)) as [->|Hne].
    + rewrite (lock_own aps) in Hk by done. injection Hk as Hc.
      destruct (aps' !! j) as [a|] eqn:Ea; destruct (parts s' !! j) as [p|] eqn:Ep; [| | |done].
      * specialize (Hb a p eq_refl eq_refl). by destruct pc'; cbn in *; subst.
      * apply lookup_ge_None in Ep. apply lookup_lt_Some in Ea. lia.
      * apply lookup_ge_None in Ea. apply lookup_lt_Some in Ep. lia.
    + destruct (Hfr k Hne) as [-> ->]. apply (l_free _ _ C). by rewrite <- lock_other.
Qed.

(** A step that does not reach the WAL, and one that does. *)
Lemma history_keep rs : history ops s rs → wal_order s' = wal_order s → logged pc' = logged (th_pc th) →
  (∀ r, outcome (at_pc pc' th) = Some r → outcome th = Some r) → history ops s' rs.
Proof.
  intros C Ho Hl Hr. split; rewrite ?Ho.
  - rewrite Hths, fmap_alter_same by done. apply C.
  - apply C.
  - intros k Hk. rewrite Hths, lookup_at. case_decide; [subst; by rewrite Hth|by apply (h_known _ _ _ C)].
  - intros k t [[-> ->]|[Hne Hk]]%at_cases; [cbn; rewrite Hl; by apply (h_logged _ _ _ C)|by apply (h_logged _ _ _ C)].
  - intros k t r [[-> ->]|[Hne Hk]]%at_cases ?; [apply (h_results _ _ _ C i th)|apply (h_results _ _ _ C k t)]; auto.
Qed.

Lemma history_reach rs r : history ops s rs → wal_order s' = wal_order s ++ [i] → logged (th_pc th) = false →
  logged pc' = true → outcome (at_pc pc' th) = Some r → history ops s' (rs ++ [(i, r)]).
Proof.
  intros C Ho Hl Hl' Hr. split; rewrite ?Ho.
  - rewrite Hths, fmap_alter_same by done. apply C.
  - apply NoDup_app. split_and!; [apply C| |apply NoDup_singleton].
    intros k Hk ->%list_elem_of_singleton. apply (h_logged _ _ _ C i th Hth) in Hk. congruence.
  - intros k Hk. rewrite Hths, lookup_at. case_decide; [subst; by rewrite Hth|].
    apply elem_of_app in Hk as [Hk| ->%list_elem_of_singleton]; [by apply (h_known _ _ _ C)|done].
  - intros k t. rewrite elem_of_app, list_elem_of_singleton. intros [[-> ->]|[Hne Hk]]%at_cases; [naive_solver|].
    rewrite (h_logged _ _ _ C k t Hk). naive_solver.
  - intros k t r'. rewrite elem_of_app, list_elem_of_singleton. intros [[-> ->]|[Hne Hk]]%at_cases Ht; [naive_solver|].
    left. by apply (h_results _ _ _ C k t).
Qed.

Lemma waiting_other k t x patched offset : sid <$> parts s' = sid <$> parts s → k ≠ i →
  waiting s' k t x patched offset ↔ waiting s k t x patched offset.
Proof. intros Hp Hk. unfold waiting. by rewrite Hp, Hths, lookup_at, decide_False. Qed.

Lemma waiting_at t x patched offset : waiting s' i t x patched offset ↔
  t = at_pc pc' th ∧ (∃ base, pc' = Logged base patched offset) ∧ (sid <$> parts s') !! j = Some x.
Proof.
  unfold waiting. rewrite Hths, lookup_at, decide_True, Hth by done. cbn. split; [by intros ([= <-] & ?)|by intros (-> & ?)].
Qed.

Lemma waiting_before t x patched offset : waiting s i t x patched offset ↔
  t = th ∧ (∃ base, th_pc th = Logged base patched offset) ∧ (sid <$> parts s) !! j = Some x.
Proof. unfold waiting. rewrite Hth. split; [by intros ([= <-] & ?)|by intros (-> & ?)]. Qed.

(** Threads that wait for the same stream are the same. *)
Lemma waiting_alone aps k t x patched offset : locking s aps → critical (th_pc th) = true →
  (sid <$> parts s) !! j = Some x → waiting s k t x patched offset → k = i.
Proof.
  intros C Hc Hx (Hk & [base Hb] & Hx'). apply (l_exclusive _ _ C k i t th); [done..|by rewrite Hb|done|].
  eapply NoDup_lookup; [apply C|done..].
Qed.

Definition is_logged (pc : pc) : bool := match pc with Logged _ _ _ => true | _ => false end.

(** Nothing changes for the threads that wait. *)
Lemma waiting_keep : sid <$> parts s' = sid <$> parts s → is_logged (th_pc th) = false → is_logged pc' = false →
  ∀ k t x patched offset, waiting s' k t x patched offset ↔ waiting s k t x patched offset.
Proof.
  intros Hp Hl Hl' k t x patched offset. destruct (decide (k = i)) as [->|Hk]; [|by apply waiting_other].
  rewrite waiting_at, waiting_before. split; intros (_ & [base E] & _); [by rewrite E in Hl'|by rewrite E in Hl].
Qed.

(** A step away from the shared world. *)
Lemma worlds_keep aw : worlds s aw → shared s' = shared s → sid <$> parts s' = sid <$> parts s →
  is_logged (th_pc th) = false → is_logged pc' = false →
  logged pc' = logged (th_pc th) → cached pc' = cached (th_pc th) → worlds s' aw.
Proof.
  intros [] Hs Hp Hl Hl' Hlog Hca. pose proof (waiting_keep Hp Hl Hl') as Hw.
  split; rewrite ?Hs, ?Hths, ?(owed_at _ _ _ _ th Hth), ?Hca, ?Hlog; try done.
  - intros k t x patched offset ?%Hw. by eapply w_pending0.
  - intros x Hx. apply w_rest0. intros k t patched offset ?%Hw. by eapply Hx.
  - destruct (cached _); lia.
  - destruct (logged _); lia.
Qed.

(** The WAL refuses the append. *)
Lemma worlds_refused aw wl e : worlds s aw → shared s' = set_wal wl (shared s) → sid <$> parts s' = sid <$> parts s →
  logged (th_pc th) = false → pc' = Finished (Err e) → worlds s' (set_wal wl aw).
Proof.
  intros [] Hs Hp Hl Hpc. pose proof (zlen_nonneg (op_records (th_op th))).
  assert (cached (th_pc th) = false) as Hca by (by destruct (th_pc th)).
  assert (is_logged (th_pc th) = false) as Hil by (by destruct (th_pc th)).
  pose proof (waiting_keep Hp Hil ltac:(by rewrite Hpc)) as Hw.
  split; rewrite ?Hs, ?Hths, ?(owed_at _ _ _ _ th Hth), ?Hca, ?Hl, ?Hpc;
    cbn [set_wal wal storage block_cache log_cache logged cached]; try done; try lia.
  - intros k t x patched offset ?%Hw. by eapply w_pending0.
  - intros x Hx. apply w_rest0. intros k t patched offset ?%Hw. by eapply Hx.
Qed.

(** The WAL takes it: one after the other, the batch is cached now. *)
Lemma worlds_logged aps aw wl x base patched offset : worlds s aw → locking s aps →
  shared s' = set_wal wl (shared s) → sid <$> parts s' = sid <$> parts s →
  critical (th_pc th) = true → logged (th_pc th) = false → pc' = Logged base patched offset →
  (sid <$> parts s) !! j = Some x → zlen patched = zlen (op_records (th_op th)) →
  worlds s' (set_log_cache (LC.put x offset patched (log_cache aw)) (set_wal wl aw)).
Proof.
  intros [] C Hs Hp Hc Hl Hpc Hx Hlen.
  assert (cached (th_pc th) = false) as Hca by (by destruct (th_pc th)).
  assert (∀ k t x patched offset, waiting s k t x patched offset → k ≠ i) as Hnot.
  { intros k t y pt off Hk ->. apply waiting_before in Hk as (_ & [b E] & _). by rewrite E in Hl. }
  pose proof (owed_ge logged i (threads s) th Hth Hl) as Hge.
  pose proof (LC.put_roomy x offset patched (log_cache aw) w_awf0 ltac:(lia) ltac:(lia)) as (Hwf & _ & Htot & _).
  rewrite LC.put_roomy_eq in * by (done || lia).
  split; rewrite ?Hs, ?Hths, ?(owed_at _ _ _ _ th Hth), ?Hca, ?Hl, ?Hpc;
    cbn [set_log_cache set_wal wal storage block_cache log_cache logged cached LC.max_bytes LC.hits LC.misses LC.streams] in *;
    try done; try lia.
  - intros k t y pt off Hk. destruct (decide (k = i)) as [->|Hne].
    + apply waiting_at in Hk as (-> & [b E] & Hy). rewrite Hpc in E. injection E as -> -> ->. rewrite Hp, Hx in Hy. injection Hy as ->.
      rewrite lookup_insert_eq, w_rest0; [done|]. intros k t p o Hk. by apply (Hnot k t y p o Hk), (waiting_alone aps k t y p o).
    + apply waiting_other in Hk; [|done..]. rewrite lookup_insert_ne; [by eapply w_pending0|].
      intros ->. by apply Hne, (waiting_alone aps k t y pt off).
  - intros y Hy. rewrite lookup_insert_ne; [apply w_rest0|].
    + intros k t pt off Hk. apply (Hy k t pt off). by apply waiting_other; [|by eapply Hnot|].
    + intros ->. apply (Hy i (at_pc pc' th) patched offset). apply waiting_at. rewrite Hp. eauto.
Qed.

(** The batch is put into the cache. *)
Lemma worlds_cached aps aw x base patched offset r : worlds s aw → locking s aps →
  shared s' = set_log_cache (LC.put x offset patched (log_cache (shared s))) (shared s) →
  sid <$> parts s' = sid <$> parts s → th_pc th = Logged base patched offset → pc' = Finished r →
  (sid <$> parts s) !! j = Some x → worlds s' aw.
Proof.
  intros [] C Hs Hp Hl Hpc Hx.
  assert (waiting s i th x patched offset) as Hi by (apply waiting_before; eauto).
  destruct (w_pending0 _ _ _ _ _ Hi) as [Hpend Hlen].
  pose proof (owed_ge cached i (threads s) th Hth ltac:(by rewrite Hl)) as Hge.
  pose proof (LC.put_roomy x offset patched (log_cache (shared s)) w_wf0 ltac:(lia) ltac:(lia)) as (Hwf & _ & Htot & _).
  rewrite LC.put_roomy_eq in * by (done || lia).
  assert (∀ k t y pt off, waiting s' k t y pt off → k ≠ i ∧ waiting s k t y pt off ∧ x ≠ y) as Hw.
  { intros k t y pt off Hk. destruct (decide (k = i)) as [->|Hne].
    - apply waiting_at in Hk as (_ & [b E] & _). congruence.
    - apply waiting_other in Hk; [|done..]. split_and!; [done..|]. intros <-.
      apply Hne, (waiting_alone aps k t x pt off); [done|by rewrite Hl|done..]. }
  split; rewrite ?Hs, ?Hths, ?(owed_at _ _ _ _ th Hth), ?Hl, ?Hpc;
    cbn [set_log_cache set_wal wal storage block_cache log_cache logged cached LC.max_bytes LC.hits LC.misses LC.streams] in *;
    try done; try lia.
  - intros k t y pt off (Hne & Hk & Hxy)%Hw. rewrite lookup_insert_ne by done. by eapply w_pending0.
  - intros y Hy. destruct (decide (x = y)) as [<-|Hxy]; [by rewrite lookup_insert_eq, Hpend|].
    rewrite lookup_insert_ne by done. apply w_rest0. intros k t pt off Hk. apply (Hy k t pt off).
    apply waiting_other; [done| |done]. intros ->. apply waiting_before in Hk as (_ & _ & Hy'). congruence.
Qed.
End one_step.

(** ** Every step keeps the comparison *)
Lemma note_txn_stream o base p : stream (note_txn o base p) = stream p.
Proof. by destruct o. Qed.

Lemma fmap_same_sid j p p' ps : ps !! j = Some p → sid p' = sid p → sid <$> <[j := p']> ps = sid <$> ps.
Proof. intros Hp Hs. rewrite list_fmap_insert, list_insert_id; [done|]. by rewrite list_lookup_fmap, Hp, Hs. Qed.

(** [append_records] in terms of the steps. *)
Lemma append_records_steps now recs a w patched count o :
  let base := s_next_offset (stream a) in
  patch_record_batches recs base = Ok (patched, count) → txn_producer patched = Ok o →
  append_records now recs a w =
    let p := fetch_add count (note_txn o base a) in
    match wal_append (sid a) base patched (wal w) with
    | (Ok _, wl) => (Ok (base, now), p, set_log_cache (LC.put (sid a) base patched (log_cache w)) (set_wal wl w))
    | (Err e, wl) => (Err e, p, set_wal wl w)
    | (Panic, wl) => (Panic, p, set_wal wl w)
    end.
Proof.
  intros base Hp Ho. unfold append_records. fold base. rewrite Hp. cbn [mbind res_bind]. rewrite Ho. cbn [mbind res_bind].
  fold (note_txn o base a). unfold append_with_count, fetch_add, sid. rewrite note_txn_stream.
  cbn [s_stream_id set_next s_next_offset]. fold base.
  by destruct (wal_append _ _ _ _) as [[r|e|] wl].
Qed.

Definition matches (ops : list append_op) ps0 (w0 : world) s : Prop :=
  ∃ rs aps aw, sequential ops (wal_order s) ps0 w0 = (rs, aps, aw)
    ∧ history ops s rs ∧ locking s aps ∧ worlds s aw.

Section steps.
Context (ops : list append_op) (ps0 : list Partition) (w0 : world).
Context (s : state (W:=W) (St:=St)) (i : nat) (th : thread) (p : Partition).
Context (Hth : threads s !! i = Some th) (Hp : parts s !! op_part (th_op th) = Some p).
Abbreviation j := (op_part (th_op th)).

(** A step on the partition and its lock. *)
Lemma matches_local pc' p' lk :
  let s' := mkState (<[j := p']> (parts s)) lk (alter (at_pc pc') i (threads s)) (shared s) (wal_order s) in
  matches ops ps0 w0 s → lock_moves s s' th pc' → sid p' = sid p →
  (∀ aps a, locking s aps → aps !! j = Some a → between (at_pc pc' th) a p') →
  is_logged (th_pc th) = false → is_logged pc' = false →
  logged pc' = logged (th_pc th) → cached pc' = cached (th_pc th) →
  (∀ r, outcome (at_pc pc' th) = Some r → outcome th = Some r) →
  matches ops ps0 w0 s'.
Proof.
  intros s' (rs & aps & aw & Hseq & HH & HLk & HW) HL Hs Hb Hl Hl' Hlog Hca Ho.
  assert (sid <$> parts s' = sid <$> parts s) as Hps by (by eapply fmap_same_sid).
  exists rs, aps, aw. split; [done|]. split_and!.
  - by eapply history_keep.
  - eapply (locking_step _ _ _ _ _ Hth); [done|done|done| |done|done|].
    + intros k Hk. split; [done|]. cbn. by rewrite list_lookup_insert_ne.
    + intros a q Ha Hq. cbn in Hq. rewrite list_lookup_insert_eq in Hq by (by eapply lookup_lt_Some). injection Hq as <-. by eapply Hb.
  - by eapply worlds_keep.
Qed.

(** The step to the WAL: the call takes its place in the sequence. *)
Lemma matches_wal base patched offset pc' wl r :
  let s' := mkState (parts s) (append_lock s) (alter (at_pc pc') i (threads s))
              (set_wal wl (shared s)) (wal_order s ++ [i]) in
  matches ops ps0 w0 s → th_pc th = Taken base patched offset →
  wal_append (sid p) offset patched (wal (shared s)) = (r, wl) →
  match r with Ok _ => pc' = Logged base patched offset | Err e => pc' = Finished (Err e) | Panic => False end →
  matches ops ps0 w0 s'.
Proof.
  intros s' (rs & aps & aw & Hseq & HH & HLk & HW) Hpc Hwal Hr.
  assert (critical (th_pc th) = true ∧ logged (th_pc th) = false) as [Hcr Hlog] by (by rewrite Hpc).
  assert (is_Some (aps !! j)) as [a Ha].
  { apply lookup_lt_is_Some. rewrite <- (length_fmap sid aps), (l_sids _ _ HLk), length_fmap. by eapply lookup_lt_Some. }
  pose proof (l_parts _ _ HLk i th a p Hth Hcr Ha Hp) as Hb. unfold between in Hb. rewrite Hpc in Hb.
  destruct Hb as (-> & -> & o & count & Hpatch & Ho & Hpa).
  assert (sid p = sid a) as Hsid by (rewrite Hpa; unfold sid, fetch_add; cbn; by rewrite note_txn_stream).
  assert ((sid <$> parts s) !! j = Some (sid a)) as Hx by (by rewrite list_lookup_fmap, Hp, <- Hsid).
  assert (ops !! i = Some (th_op th)) as Hop by (rewrite <- (h_ops _ _ _ HH), list_lookup_fmap, Hth; done).
  pose proof (append_records_steps (op_now (th_op th)) (op_records (th_op th)) a aw patched count o Hpatch Ho) as Hap.
  rewrite (w_wal _ _ HW), <- Hsid, Hwal in Hap. cbv zeta in Hap. rewrite <- Hpa in Hap.
  assert (sid <$> <[j := p]> aps = sid <$> aps) as Hsids by (by eapply fmap_same_sid).
  assert (locking s' (<[j := p]> aps)) as HLk'.
  { eapply (locking_step s s' i th pc' Hth eq_refl aps); [done| | |done|done|].
    - unfold lock_moves. rewrite Hcr. by destruct r; simplify_eq/=.
    - intros k Hk. by rewrite list_lookup_insert_ne.
    - intros a' q. rewrite list_lookup_insert_eq by (by eapply lookup_lt_Some). cbn. rewrite Hp. intros [= <-] [= <-].
      by destruct r; simplify_eq/=. }
  unfold matches. cbn [wal_order s']. unfold sequential in *. rewrite foldl_snoc, Hseq. unfold call. rewrite Hop, Ha, Hap.
  destruct r as [sq|e|]; [| |done]; subst pc'; eexists _, _, _; (split; [done|]); (split; [|split; [done|]]).
  - by eapply (history_reach ops s s' i th).
  - rewrite Hsid. eapply (worlds_logged s s' i th _ Hth eq_refl aps); try done. by eapply patch_length.
  - by eapply (history_reach ops s s' i th).
  - by eapply (worlds_refused s s' i th _ Hth eq_refl).
Qed.

(** The step to the cache. *)
Lemma matches_put base patched offset :
  let lc := LC.put (sid p) offset patched (log_cache (shared s)) in
  let s' := mkState (parts s) (append_lock s) (alter (at_pc (Finished (Ok (base, op_now (th_op th))))) i (threads s))
              (set_log_cache lc (shared s)) (wal_order s) in
  matches ops ps0 w0 s → th_pc th = Logged base patched offset → matches ops ps0 w0 s'.
Proof.
  intros lc s' (rs & aps & aw & Hseq & HH & HLk & HW) Hpc. exists rs, aps, aw. split; [done|]. split_and!.
  - eapply (history_keep ops s s' i th); [done|done|done|done|by rewrite Hpc|]. unfold outcome. rewrite Hpc. done.
  - eapply (locking_step s s' i th _ Hth eq_refl aps); [done| |done|done|done|].
    + unfold lock_moves. by rewrite Hpc.
    + intros a q Ha Hq. pose proof (l_parts _ _ HLk i th a q Hth ltac:(by rewrite Hpc) Ha Hq) as Hb.
      unfold between in Hb |- *. rewrite Hpc in Hb. done.
  - eapply (worlds_cached s s' i th _ Hth eq_refl aps); [done|done|done|done|done|done|]. by rewrite list_lookup_fmap, Hp.
Qed.
End steps.

Lemma matches_step ops ps0 w0 i s s' : matches ops ps0 w0 s → step i s = Some s' → matches ops ps0 w0 s'.
Proof.
  intros HM. unfold step. destruct (threads s !! i) as [th|] eqn:Hth; [|done]. cbn [mbind option_bind].
  set (j := op_part (th_op th)). destruct (parts s !! j) as [p|] eqn:Hp; [|done]. cbn [mbind option_bind].
  destruct (th_pc th) as [| |base patched count|base patched count|base patched offset|base patched offset|r|r] eqn:Hpc.
  - destruct (append_lock s !! j) as [[]|] eqn:Hl; [done| |done]. intros [= <-].
    pose proof (matches_local ops ps0 w0 s i th p Hth Hp Locked p (<[j := true]> (append_lock s)) HM) as H.
    rewrite list_insert_id in H by done. apply H; rewrite ?Hpc; try done.
    + unfold lock_moves. by rewrite Hpc.
    + intros aps a HLk Ha. pose proof (l_free _ _ HLk j Hl) as E. cbn. unfold j in *. congruence.
  - destruct (patch_record_batches _ _) as [[patched count]| |] eqn:Hpatch; [|done..]. intros [= <-].
    pose proof (matches_local ops ps0 w0 s i th p Hth Hp (Patched (s_next_offset (stream p)) patched count) p
      (append_lock s) HM) as H.
    rewrite list_insert_id in H by done. apply H; rewrite ?Hpc; try done; [unfold lock_moves; by rewrite Hpc|].
    intros aps a HLk Ha. pose proof (l_parts _ _ HLk i th a p Hth ltac:(by rewrite Hpc) Ha Hp) as Hb.
    unfold between in *. rewrite Hpc in Hb. by subst.
  - destruct (txn_producer patched) as [o| |] eqn:Ho; [|done..]. intros [= <-].
    apply (matches_local ops ps0 w0 s i th p Hth Hp (Noted base patched count)); rewrite ?Hpc; try done.
    + unfold lock_moves; by rewrite Hpc.
    + unfold sid. by rewrite note_txn_stream.
    + intros aps a HLk Ha. pose proof (l_parts _ _ HLk i th a p Hth ltac:(by rewrite Hpc) Ha Hp) as Hb.
      unfold between in *. rewrite Hpc in Hb. cbn. destruct Hb as (-> & ? & ?). eauto.
  - intros [= <-].
    apply (matches_local ops ps0 w0 s i th p Hth Hp (Taken base patched (s_next_offset (stream p)))); rewrite ?Hpc; try done.
    + unfold lock_moves; by rewrite Hpc.
    + intros aps a HLk Ha. pose proof (l_parts _ _ HLk i th a p Hth ltac:(by rewrite Hpc) Ha Hp) as Hb.
      unfold between in *. rewrite Hpc in Hb. cbn. destruct Hb as (-> & ? & o & ? & ->). rewrite note_txn_stream. eauto 10.
  - destruct (wal_append _ _ _ _) as [[sq|e|] wl] eqn:Hw; [| |done]; intros [= <-];
      by eapply (matches_wal ops ps0 w0 s i th p Hth Hp).
  - intros [= <-]. by apply (matches_put ops ps0 w0 s i th p Hth Hp).
  - intros [= <-].
    pose proof (matches_local ops ps0 w0 s i th p Hth Hp (Returned r) p (<[j := false]> (append_lock s)) HM) as H.
    rewrite list_insert_id in H by done. apply H; rewrite ?Hpc; try done.
    + unfold lock_moves. by rewrite Hpc.
    + intros aps a HLk Ha. pose proof (l_parts _ _ HLk i th a p Hth ltac:(by rewrite Hpc) Ha Hp) as Hb.
      unfold between in *. by rewrite Hpc in Hb.
    + unfold outcome. by rewrite Hpc.
  - done.
Qed.

Lemma matches_run ops ps0 w0 schedule s s' : matches ops ps0 w0 s → run schedule s = Some s' → matches ops ps0 w0 s'.
Proof.
  revert s. induction schedule as [|i schedule IH]; intros s HM; cbn [run]; [by intros [= <-]|].
  destruct (step i s) as [s1|] eqn:E; [|done]. cbn [mbind option_bind]. apply IH. by eapply matches_step.
Qed.

(** ** Facts about runs *)
Lemma run_app l k s : run (l ++ k) s = s' ← run l s; run k s'.
Proof.
  revert s. induction l as [|i l IH]; intros s; [done|]. cbn [app run]. destruct (step i s); [apply IH|done].
Qed.

Definition rank (pc : pc) : nat :=
  match pc with
  | Start => 7 | Locked => 6 | Patched _ _ _ => 5 | Noted _ _ _ => 4 | Taken _ _ _ => 3 | Logged _ _ _ => 2
  | Finished _ => 1 | Returned _ => 0
  end.

#[local] Ltac finish_inv :=
  eexists; split; [done|]; split; [reflexivity|]; split; [cbn; lia|];
  split; [first [done | by eexists] | by cbn; rewrite ?length_insert].

(** A step moves one thread ahead and never takes back a call that reached the
    WAL. *)
Lemma step_inv i s s' : step i s = Some s' →
  ∃ th pc', threads s !! i = Some th ∧ threads s' = alter (at_pc pc') i (threads s)
    ∧ (rank pc' < rank (th_pc th))%nat ∧ wal_order s `prefix_of` wal_order s'
    ∧ length (parts s') = length (parts s).
Proof.
  unfold step. destruct (threads s !! i) as [th|] eqn:Hth; [|done]. cbn [mbind option_bind].
  destruct (parts s !! _) as [p|]; [|done]. cbn [mbind option_bind]. intros Hs. exists th.
  destruct (th_pc th) eqn:Hpc.
  - destruct (append_lock s !! _) as [[]|]; [done| |done]. injection Hs as <-. finish_inv.
  - destruct (patch_record_batches _ _) as [[]| |]; [|done..]. injection Hs as <-. finish_inv.
  - destruct (txn_producer _); [|done..]. injection Hs as <-. finish_inv.
  - injection Hs as <-. finish_inv.
  - destruct (wal_append _ _ _ _) as [[]]; [| |done]; injection Hs as <-; finish_inv.
  - injection Hs as <-. finish_inv.
  - injection Hs as <-. finish_inv.
  - done.
Qed.

Lemma run_order schedule s s' : run schedule s = Some s' → wal_order s `prefix_of` wal_order s'.
Proof.
  revert s. induction schedule as [|i schedule IH]; intros s; cbn [run]; [by intros [= <-]|].
  destruct (step i s) as [s1|] eqn:E; [|done]. cbn [mbind option_bind]. intros H. 
  apply step_inv in E as (_ & _ & _ & _ & _ & Ho & _). etrans; [done|by apply IH].
Qed.

(** Room for all batches in the log cache, and one stream for each partition. *)
Definition roomy_start (ops : list append_op) ps w : Prop :=
  NoDup (sid <$> ps) ∧ LC.wf (log_cache w) ∧ LC.max_bytes (log_cache w) < 2 ^ 63
  ∧ LC.total (LC.streams (log_cache w)) + zsum (λ o, zlen (op_records o)) ops ≤ LC.max_bytes (log_cache w).

Lemma init_matches ops ps w : roomy_start ops ps w → matches ops ps w (init ops ps w).
Proof.
  intros (Hnd & Hwf & Hmax & Hroom). exists [], ps, w. split; [done|].
  assert (∀ i th, threads (init ops ps w) !! i = Some th → th_pc th = Start) as Hst.
  { intros i th. cbn. rewrite list_lookup_fmap. destruct (ops !! i); [|done]. by intros [= <-]. }
  assert (∀ past, past Start = false →
    owed past (threads (init ops ps w)) = zsum (λ o, zlen (op_records o)) ops) as Howed.
  { intros past Hpast. unfold owed, zsum, debt. cbn. rewrite <- list_fmap_compose. f_equal. apply list_fmap_ext.
    intros k o _. cbn. by rewrite Hpast. }
  split_and!.
  - split; cbn [wal_order init].
    + cbn. rewrite <- list_fmap_compose. apply list_fmap_id.
    + apply NoDup_nil_2.
    + by intros i ?%elem_of_nil.
    + intros i th Hi%Hst. by rewrite Hi, elem_of_nil.
    + intros i th r Hi%Hst. unfold outcome. by rewrite Hi.
  - split; try done.
    + cbn. by rewrite length_replicate.
    + intros i th Hi%Hst. by rewrite Hi.
    + intros j. cbn. by intros [? _]%lookup_replicate.
    + intros i i' th th' Hi%Hst _. by rewrite Hi.
    + intros i th a p Hi%Hst. by rewrite Hi.
  - split; cbn [init shared]; try done.
    + intros i th x patched offset (Hi%Hst & [b E] & _). congruence.
    + rewrite Howed by done. lia.
    + rewrite Howed by done. lia.
Qed.

Definition finished s : Prop := ∀ i th, threads s !! i = Some th → ∃ r, th_pc th = Returned r.

Lemma finished_ranks s : Forall (λ th, rank (th_pc th) = 0%nat) (threads s) → finished s.
Proof. intros Hall i th Hi. apply (Forall_lookup_1 _ _ _ _ Hall) in Hi. destruct (th_pc th); try done. by eexists. Qed.

Lemma finished_worlds s aw : worlds s aw → finished s → aw = shared s.
Proof.
  intros HW Hf. assert (LC.streams (log_cache aw) = LC.streams (log_cache (shared s))) as Hs.
  { apply map_eq. intros x. apply (w_rest _ _ HW). intros i th patched offset (Hi & [b E] & _).
    apply Hf in Hi as [r Hr]. congruence. }
  destruct HW, aw as [? ? [] ?], (shared s) as [? ? [] ?]; unfold LC.wf in *; cbn in *; congruence.
Qed.

Lemma finished_locking s aps : locking s aps → finished s → aps = parts s.
Proof.
  intros HL Hf. apply list_eq. intros j. destruct (append_lock s !! j) as [[]|] eqn:E.
  - apply (l_holder _ _ HL) in E as (i & th & [r Hr]%Hf & Hc & _). by rewrite Hr in Hc.
  - by apply (l_free _ _ HL).
  - apply lookup_ge_None in E. rewrite (l_length _ _ HL) in E.
    assert (length aps = length (parts s)) as Hl by (rewrite <- (length_fmap sid aps), (l_sids _ _ HL); apply length_fmap).
    rewrite !lookup_ge_None_2; [done|lia|lia].
Qed.

Lemma finished_order ops s rs : history ops s rs → finished s → wal_order s ≡ₚ seq 0 (length ops).
Proof.
  intros HH Hf. apply NoDup_Permutation; [apply HH|apply NoDup_seq|]. intros i. rewrite elem_of_seq.
  assert (length (threads s) = length ops) as Hl by (by rewrite <- (h_ops _ _ _ HH), length_fmap). split.
  - intros Hi%(h_known _ _ _ HH)%lookup_lt_is_Some. lia.
  - intros Hi. destruct (lookup_lt_is_Some_2 (threads s) i) as [th Hth]; [lia|].
    apply (h_logged _ _ _ HH i th Hth). destruct (Hf i th Hth) as [r ->]. done.
Qed.

(** C7: Concurrent appends are linearizable.  Let any number of threads call
    [append_records] on partitions with different streams, over any WAL, their
    accesses to the shared state interleaved in any way, with room for the
    batches in the log cache.  When all have returned, there is an order of the
    calls, the order in which they reached the WAL, such that executing them one
    after the other gives every thread the result it got, and ends with the same
    partitions, WAL, log cache, block cache and store; a call that returned
    before another started comes before it in this order. *)
Theorem concurrent_appends_linearize ops ps w schedule s :
  roomy_start ops ps w → run schedule (init ops ps w) = Some s → finished s →
  wal_order s ≡ₚ seq 0 (length ops)
  ∧ (∃ rs, sequential ops (wal_order s) ps w = (rs, parts s, shared s)
       ∧ ∀ i th, threads s !! i = Some th → ∃ r, th_pc th = Returned r ∧ (i, r) ∈ rs)
  ∧ ∀ before after s1 i k thi thk r, schedule = before ++ after → run before (init ops ps w) = Some s1 →
      threads s1 !! i = Some thi → th_pc thi = Returned r → threads s1 !! k = Some thk → th_pc thk = Start →
      ∃ l l', wal_order s = l ++ l' ∧ i ∈ l ∧ k ∉ l.
Proof.
  intros Hstart Hrun Hf. pose proof (init_matches ops ps w Hstart) as HM.
  destruct (matches_run _ _ _ _ _ _ HM Hrun) as (rs & aps & aw & Hseq & HH & HL & HW).
  split; [by eapply finished_order|]. split.
  - exists rs. rewrite Hseq, (finished_locking s aps HL Hf), (finished_worlds s aw HW Hf). split; [done|].
    intros i th Hi. destruct (Hf i th Hi) as [r Hr]. exists r. split; [done|].
    apply (h_results _ _ _ HH i th); [done|]. unfold outcome. by rewrite Hr.
  - intros before after s1 i k thi thk r -> Hrun1 Hi Hri Hk Hsk. rewrite run_app, Hrun1 in Hrun. cbn [mbind option_bind] in Hrun.
    destruct (matches_run _ _ _ _ _ _ HM Hrun1) as (rs1 & aps1 & aw1 & _ & HH1 & _).
    destruct (run_order _ _ _ Hrun) as [l' Hl']. exists (wal_order s1), l'. split; [done|].
    split; [apply (h_logged _ _ _ HH1 i thi Hi); by rewrite Hri|].
    intros Hin. apply (h_logged _ _ _ HH1 k thk Hk) in Hin. by rewrite Hsk in Hin.
Qed.

(** ** The threads finish *)
Definition left_to_do (ths : list thread) : nat := sum_list ((λ th, rank (th_pc th)) <$> ths).

Lemma left_at i pc' ths th : ths !! i = Some th → (rank pc' < rank (th_pc th))%nat →
  (left_to_do (alter (at_pc pc') i ths) < left_to_do ths)%nat.
Proof.
  revert i. induction ths as [|t ths IH]; intros [|i]; [done..|intros [= ->]|intros Hi] ; intros Hr; unfold left_to_do in *; cbn.
  - lia.
  - specialize (IH i Hi Hr). cbn in *. lia.
Qed.

Lemma run_left schedule s s' : run schedule s = Some s' →
  (length schedule + left_to_do (threads s') ≤ left_to_do (threads s))%nat.
Proof.
  revert s. induction schedule as [|i schedule IH]; intros s; cbn [run length]; [intros [= <-]; lia|].
  destruct (step i s) as [s1|] eqn:E; [|done]. cbn [mbind option_bind]. intros H%IH.
  apply step_inv in E as (th & pc' & Hth & Hths & Hr & _). pose proof (left_at i pc' _ th Hth Hr). rewrite Hths in H. lia.
Qed.

Lemma run_parts schedule s s' : run schedule s = Some s' → length (parts s') = length (parts s).
Proof.
  revert s. induction schedule as [|i schedule IH]; intros s; cbn [run]; [by intros [= <-]|].
  destruct (step i s) as [s1|] eqn:E; [|done]. cbn [mbind option_bind]. intros H%IH.
  apply step_inv in E as (_ & _ & _ & _ & _ & _ & Hl). congruence.
Qed.

(** Nothing panics: the partitions exist, the batches parse and the WAL answers. *)
Definition calm (ops : list append_op) (n : nat) : Prop :=
  Forall (λ o, (op_part o < n)%nat ∧ ∀ base, ∃ patched count t,
    patch_record_batches (op_records o) base = Ok (patched, count) ∧ txn_producer patched = Ok t) ops
  ∧ ∀ x off data (wl : W), is_Panic (wal_append x off data wl).1 = false.

Lemma critical_moves ops ps0 w0 s i th : matches ops ps0 w0 s → calm ops (length (parts s)) →
  threads s !! i = Some th → critical (th_pc th) = true → is_Some (step i s).
Proof.
  intros (rs & aps & aw & _ & HH & HL & _) [Hops Hwal] Hth Hc.
  assert (ops !! i = Some (th_op th)) as Hop by (rewrite <- (h_ops _ _ _ HH), list_lookup_fmap, Hth; done).
  destruct (Forall_lookup_1 _ _ _ _ Hops Hop) as [Hlt Hpatch].
  destruct (lookup_lt_is_Some_2 (parts s) (op_part (th_op th)) Hlt) as [p Hp].
  destruct (lookup_lt_is_Some_2 aps (op_part (th_op th))) as [a Ha].
  { rewrite <- (length_fmap sid aps), (l_sids _ _ HL), length_fmap. done. }
  pose proof (l_parts _ _ HL i th a p Hth Hc Ha Hp) as Hb. unfold between in Hb.
  unfold step. rewrite Hth. cbn [mbind option_bind]. rewrite Hp. cbn [mbind option_bind].
  destruct (th_pc th) as [| |base patched count| |base patched offset| | |]; try done.
  - destruct (Hpatch (s_next_offset (stream p))) as (? & ? & ? & -> & _). done.
  - destruct Hb as (_ & _ & Hb). destruct (Hpatch base) as (? & ? & t & E & Ht). rewrite Hb in E. injection E as <- <-. by rewrite Ht.
  - specialize (Hwal (s_stream_id (stream p)) offset patched (wal (shared s))). by destruct (wal_append _ _ _ _) as [[] ?].
Qed.

End proofs.

(** ** Three threads on two partitions *)
Section witnesses.
#[local] Existing Instances MemoryWal.MemoryWal_engine MemoryStore.MemoryObjectStorage_storage.

Definition demo_parts : list Partition :=
  [partition_new (mkTP "orders" 0) (stream_new 100 0); partition_new (mkTP "orders" 1) (stream_new 101 0)].
Definition demo_ops : list append_op :=
  [mkOp 0 (concat (im_bytes <$> demo_batches)) 1700; mkOp 0 [x61; x62] 1701; mkOp 1 (im_bytes demo_image) 1702].
(** Thread 2 overtakes thread 0 at the cache; thread 1 waits for the lock. *)
Definition demo_schedule : list nat :=
  [0; 0; 0; 0; 2; 2; 2; 2; 0; 2; 2; 0; 0; 1; 1; 1; 1; 2; 1; 1; 1]%nat.
Definition demo_start := init demo_ops demo_parts demo_world.
Definition demo_end := default demo_start (run demo_schedule demo_start).

Lemma demo_roomy : roomy_start demo_ops demo_parts demo_world.
Proof. split_and!; [apply (bool_decide_unpack _); vm_compute; exact I|vm_compute; done..]. Qed.

Lemma demo_finished : finished demo_end.
Proof. apply finished_ranks, (bool_decide_unpack _). vm_compute. exact I. Qed.

Example demo_results : wal_order demo_end = [0; 2; 1]%nat
  ∧ (th_pc <$> threads demo_end) = [Returned (Ok (0, 1700)); Returned (Ok (4, 1701)); Returned (Ok (0, 1702))].
Proof. vm_compute. done. Qed.

Lemma concurrent_appends_linearize_witness :
  wal_order demo_end ≡ₚ seq 0 3
  ∧ (∃ rs, sequential demo_ops (wal_order demo_end) demo_parts demo_world = (rs, parts demo_end, shared demo_end)
       ∧ ∀ i th, threads demo_end !! i = Some th → ∃ r, th_pc th = Returned r ∧ (i, r) ∈ rs)
  ∧ ∀ before after s1 i k thi thk r, demo_schedule = before ++ after → run before demo_start = Some s1 →
      threads s1 !! i = Some thi → th_pc thi = Returned r → threads s1 !! k = Some thk → th_pc thk = Start →
      ∃ l l', wal_order demo_end = l ++ l' ∧ i ∈ l ∧ k ∉ l.
Proof.
  apply (concurrent_appends_linearize demo_ops demo_parts demo_world demo_schedule demo_end demo_roomy).
  - vm_compute. reflexivity.
  - exact demo_finished.
Defined.

Definition short_ops : list append_op := [mkOp 0 [x61] 1; mkOp 0 [x62] 2; mkOp 1 [x63] 3].
Definition short_state := default (init short_ops demo_parts demo_world) (run [0; 0; 2] (init short_ops demo_parts demo_world))%nat.


(** ** Readers do not take the lock

    The next offset, which readers take for the high watermark, moves before the
    batch is stored: a fetch in between is answered with nothing, although the
    high watermark says that there are records. *)
Theorem watermark_before_records :
  let mid := default demo_start (run [0; 0; 0; 0]%nat demo_start) in
  ∃ p, parts mid !! 0%nat = Some p ∧ high_watermark p = 4 ∧ (read_records 0 4096 p (shared mid)).1 = Ok []
  ∧ ∃ p' recs, parts demo_end !! 0%nat = Some p' ∧ (read_records 0 4096 p' (shared demo_end)).1 = Ok recs ∧ recs ≠ [].
Proof.
  eexists. split; [vm_compute; reflexivity|]. split; [vm_compute; reflexivity|]. split; [vm_compute; reflexivity|].
  eexists _, _. split; [vm_compute; reflexivity|]. split; [vm_compute; reflexivity|]. done.
Qed.
End witnesses.
