(* ===== verification/GroupCommit.v ===== *)
(** * Streams on a group-commit WAL

    Many threads append to streams ([S3Stream::append_with_count] of
    [crates/oxidemq-s3stream/src/stream.rs]) whose WAL is a [FileWal]
    ([crates/oxidemq-wal/src/file.rs]): each takes its offsets from the atomic
    counter of the stream, sends its record to the worker over the channel, waits
    for the reply, then fills the log cache.  The worker commits what has arrived
    in batches.  All this interleaves freely; the power can fail at any time. *)

From Stdlib Require Import Strings.Byte.
From stdpp Require Import base numbers list strings sets gmap.
From S2P Require Import Prelude Bytes CoreTypes WalFrame Wal WalSegment WalRecovery FileWal FileWalSpec.
From S2P Require Import S3Format LogCache BlockCache ObjectStore Stream.

(** A call of [append_with_count] on the stream with the index [so_stream]. *)
Record stream_op := mkSop { so_stream : nat; so_payload : bytes; so_count : Z }.

Inductive client_pc :=
| Begin
| Claimed (offset : Z)
| Sent (offset : Z)
| Acked (offset : Z)
| Ended (r : result Z).

Record client := mkClient { cl_op : stream_op; cl_pc : client_pc }.

(** The channel holds the messages that the worker has not received. *)
Record system := mkSystem {
  sy_streams : list S3Stream;
  sy_clients : list client;
  sy_channel : list WalMessage;
  sy_worker : Worker;
  sy_cache : LC.LogCache }.

(** A thread moves, or the worker receives messages (with polls that find the
    channel empty in between) and handles them. *)
Inductive event := Move (i : nat) | Commit (rx : list (option WalMessage)).

#[export] Instance wal_message_eq_dec : EqDecision WalMessage.
Proof. solve_decision. Defined.

(** [resp_rx.recv()] *)
Definition reply_to (i : nat) (w : Worker) : option Reply :=
  snd <$> head (filter (λ cr, cr.1 = i) (replies w)).

Section model.
Context `{HO : HashOrder} (config : WalConfig).

Definition advance (i : nat) (pc : client_pc) (s : system) : system :=
  mkSystem (sy_streams s) (alter (λ c, mkClient (cl_op c) pc) i (sy_clients s)) (sy_channel s) (sy_worker s) (sy_cache s).

Definition move (i : nat) (s : system) : option system :=
  c ← sy_clients s !! i;
  let j := so_stream (cl_op c) in
  st ← sy_streams s !! j;
  match cl_pc c with
  | Begin =>
      let offset := s_next_offset st in
      let st := set_next (i64 (offset + Z.max (so_count (cl_op c)) 1)) st in
      Some (advance i (Claimed offset)
        (mkSystem (<[j := st]> (sy_streams s)) (sy_clients s) (sy_channel s) (sy_worker s) (sy_cache s)))
  | Claimed offset =>
      let m := Append (s_stream_id st) offset (so_payload (cl_op c)) i in
      Some (advance i (Sent offset)
        (mkSystem (sy_streams s) (sy_clients s) (sy_channel s ++ [m]) (sy_worker s) (sy_cache s)))
  | Sent offset =>
      match reply_to i (sy_worker s) with
      | Some (RSeq (Ok _)) => Some (advance i (Acked offset) s)
      | Some (RSeq (Err e)) => Some (advance i (Ended (Err e)) s)
      | _ => None
      end
  | Acked offset =>
      let lc := LC.put (s_stream_id st) offset (so_payload (cl_op c)) (sy_cache s) in
      Some (advance i (Ended (Ok offset))
        (mkSystem (sy_streams s) (sy_clients s) (sy_channel s) (sy_worker s) lc))
  | Ended _ => None
  end.

(** The worker receives [rx] and handles it.  A [recv] that finds all senders gone
    ends the loop; that the worker may be run again afterwards only adds
    behaviours. *)
Definition receive (rx : list (option WalMessage)) (s : system) : option system :=
  let got := omap id rx in
  if decide (got = take (length got) (sy_channel s)) then
    match run_group_commit_loop config rx (sy_worker s) with
    | Ok w => Some (mkSystem (sy_streams s) (sy_clients s) (drop (length got) (sy_channel s)) w (sy_cache s))
    | _ => None
    end
  else None.

Definition handle (e : event) (s : system) : option system :=
  match e with Move i => move i s | Commit rx => receive rx s end.

Fixpoint handle_all (es : list event) (s : system) : option system :=
  match es with
  | [] => Some s
  | e :: es => s ← handle e s; handle_all es s
  end.

Definition boot (ops : list stream_op) (sts : list S3Stream) (w : Worker) (lc : LC.LogCache) : system :=
  mkSystem sts ((λ o, mkClient o Begin) <$> ops) [] w lc.

(** How often the worker looked at its channel. *)
Definition polls (es : list event) : Z :=
  zsum (λ e, match e with Commit rx => zlen rx | Move _ => 0 end) es.
End model.

(** ** Offsets *)
Definition offset_of (pc : client_pc) : option Z :=
  match pc with Claimed o | Sent o | Acked o | Ended (Ok o) => Some o | _ => None end.
Definition taken (o : stream_op) : Z := Z.max (so_count o) 1.
Definition unclaimed (c : client) : Z := match cl_pc c with Begin => taken (cl_op c) | _ => 0 end.

(** The claims of the threads on a stream lie below its next offset, do not
    overlap, and the offsets do not run out. *)
Record placed (s : system) : Prop := {
  p_room j st : sy_streams s !! j = Some st →
    0 ≤ s_next_offset st ∧ s_next_offset st + zsum unclaimed (sy_clients s) < 2 ^ 63;
  p_below i c st o : sy_clients s !! i = Some c → sy_streams s !! so_stream (cl_op c) = Some st →
    offset_of (cl_pc c) = Some o → 0 ≤ o ∧ o + taken (cl_op c) ≤ s_next_offset st;
  p_apart i k c d o o' : i ≠ k → sy_clients s !! i = Some c → sy_clients s !! k = Some d →
    so_stream (cl_op c) = so_stream (cl_op d) → is_Some (sy_streams s !! so_stream (cl_op c)) →
    offset_of (cl_pc c) = Some o → offset_of (cl_pc d) = Some o' →
    o + taken (cl_op c) ≤ o' ∨ o' + taken (cl_op d) ≤ o }.

(** Past the channel. *)
Definition sent (pc : client_pc) : bool := match pc with Begin | Claimed _ => false | _ => true end.

(** The record [sid], [off], [d] is that of thread [i]. *)
Definition claim (s : system) (i : nat) (x off : Z) (d : bytes) : Prop :=
  ∃ c, sy_clients s !! i = Some c ∧ (s_stream_id <$> sy_streams s) !! so_stream (cl_op c) = Some x
    ∧ so_payload (cl_op c) = d ∧ sent (cl_pc c) = true ∧ ∀ o, offset_of (cl_pc c) = Some o → o = off.

(** The record lies in the synced part of a segment file. *)
Definition stowed `{HO : HashOrder} (w : Worker) (r : WalRecord) : Prop := ∃ p, kept (disk w) p r.

(** What is acknowledged is stowed. *)
Record stored `{HO : HashOrder} (s : system) (log : list WalRecord) : Prop := {
  s_good : good (sy_worker s) log;
  s_wf m : m ∈ sy_channel s → msg_wf (Some m);
  s_channel x off d i : Append x off d i ∈ sy_channel s → claim s i x off d;
  s_acks i q : (i, q) ∈ acks (sy_worker s) → ∃ x off d, claim s i x off d ∧ stowed (sy_worker s) (mkWal q x off d);
  s_acked i c o : sy_clients s !! i = Some c → cl_pc c = Acked o ∨ cl_pc c = Ended (Ok o) →
    ∃ x q, (s_stream_id <$> sy_streams s) !! so_stream (cl_op c) = Some x
      ∧ stowed (sy_worker s) (mkWal q x o (so_payload (cl_op c))) }.

Section proofs.
Context `{HO : HashOrder} (config : WalConfig).
Context (Hsync : sync_to_disk config = true).
Implicit Types s : system.

Definition with_pc (pc : client_pc) (c : client) : client := mkClient (cl_op c) pc.

(** Claiming offsets. *)
Lemma placed_claim s s' i c st : placed s → sy_clients s !! i = Some c → cl_pc c = Begin →
  sy_streams s !! so_stream (cl_op c) = Some st →
  sy_clients s' = alter (with_pc (Claimed (s_next_offset st))) i (sy_clients s) →
  sy_streams s' = <[so_stream (cl_op c) := set_next (i64 (s_next_offset st + taken (cl_op c))) st]> (sy_streams s) →
  placed s' ∧ s_next_offset st + taken (cl_op c) < 2 ^ 63.
Proof.
  intros P Hi Hb Hst Hcs Hss. set (j := so_stream (cl_op c)) in *. set (n := taken (cl_op c)) in *.
  assert (unclaimed c = n) as Hun by (unfold unclaimed; by rewrite Hb).
  assert (∀ c, 0 ≤ unclaimed c) as Hpos by (intros d; unfold unclaimed, taken; case_match; lia).
  assert (zsum unclaimed (sy_clients s') = zsum unclaimed (sy_clients s) - n) as Hsum.
  { rewrite Hcs, (zsum_alter _ _ _ _ c Hi), Hun. unfold with_pc, unclaimed. cbn. lia. }
  pose proof (zsum_ge _ i (sy_clients s) c Hpos Hi) as Hge. rewrite Hun in Hge.
  pose proof (zsum_nonneg _ (sy_clients s') Hpos) as Hnn. destruct (p_room _ P j st Hst) as [H0 Hlt].
  assert (0 < n) by (unfold n, taken; lia).
  assert (i64 (s_next_offset st + n) = s_next_offset st + n) as Hw
    by (apply wrap_s_small; [lia|unfold in_s; change (64 - 1) with 63; lia]).
  rewrite Hw in Hss. split; [|lia].
  assert (∀ k st', sy_streams s' !! k = Some st' → k = j ∧ s_next_offset st' = s_next_offset st + n
    ∨ k ≠ j ∧ sy_streams s !! k = Some st') as Hlk.
  { intros k st'. rewrite Hss. destruct (decide (k = j)) as [->|]; [|rewrite list_lookup_insert_ne by done; auto].
    rewrite list_lookup_insert_eq by (by eapply lookup_lt_Some). intros [= <-]. by left. }
  split.
  - intros k st' [[-> ->]|[Hne Hk]]%Hlk; rewrite Hsum; [lia|]. destruct (p_room _ P k st' Hk). lia.
  - intros k d st' o Hk Hd Ho. rewrite Hcs in Hk. apply (lookup_alter_cases _ _ _ c) in Hk as [[-> ->]|[Hne Hk]]; [| |done].
    + cbn in Hd, Ho. injection Ho as <-. apply Hlk in Hd as [[_ ->]|[? _]]; [unfold n; cbn; lia|done].
    + apply Hlk in Hd as [[Hj ->]|[_ Hd]]; [|by apply (p_below _ P k)].
      destruct (p_below _ P k d st o Hk ltac:(by rewrite Hj) Ho). lia.
  - assert (∀ k d o, sy_clients s !! k = Some d → so_stream (cl_op d) = j → offset_of (cl_pc d) = Some o →
      o + taken (cl_op d) ≤ s_next_offset st) as Hbelow.
    { intros k d o Hk Hj Ho. destruct (p_below _ P k d st o Hk ltac:(by rewrite Hj) Ho). lia. }
    intros k k' d d' o o' Hne Hk Hk' Hjj Hsome Ho Ho'. rewrite Hcs in Hk, Hk'.
    apply (lookup_alter_cases _ _ _ c) in Hk as [[-> ->]|[Hki Hk]]; [| |done];
      (apply (lookup_alter_cases _ _ _ c) in Hk' as [[-> ->]|[Hki' Hk']]; [| |done]); cbn in *; [done| | |].
    + injection Ho as <-. right. by eapply Hbelow.
    + injection Ho' as <-. left. by eapply Hbelow.
    + eapply (p_apart _ P k k'); [done..| |done|done]. destruct Hsome as [st' [[-> _]|[_ ?]]%Hlk]; by eexists.
Qed.

(** Moving on with the same offset, or without one. *)
Lemma placed_keep s s' i c pc : placed s → sy_clients s !! i = Some c → cl_pc c ≠ Begin → pc ≠ Begin →
  (∀ o, offset_of pc = Some o → offset_of (cl_pc c) = Some o) →
  sy_clients s' = alter (with_pc pc) i (sy_clients s) → sy_streams s' = sy_streams s → placed s'.
Proof.
  intros P Hi Hb Hb' Ho Hcs Hss. assert (zsum unclaimed (sy_clients s') = zsum unclaimed (sy_clients s)) as Hsum.
  { rewrite Hcs, (zsum_alter _ _ _ _ c Hi). unfold unclaimed, with_pc. cbn. destruct (cl_pc c), pc; done || lia. }
  assert (∀ k d o, sy_clients s' !! k = Some d → offset_of (cl_pc d) = Some o →
    ∃ d', sy_clients s !! k = Some d' ∧ cl_op d' = cl_op d ∧ offset_of (cl_pc d') = Some o) as Hback.
  { intros k d o Hk Hd. rewrite Hcs in Hk. apply (lookup_alter_cases _ _ _ c) in Hk as [[-> ->]|[_ Hk]]; [| |done]; eauto. }
  split; rewrite ?Hss.
  - intros j st. rewrite Hsum. apply P.
  - intros k d st o Hk Hst Hd. destruct (Hback k d o Hk Hd) as (d' & Hk' & E & Hd'). rewrite <- E in *. by apply (p_below _ P k d').
  - intros k k' d d' o o' Hne Hk Hk' Hj Hs Hd Hd'.
    destruct (Hback k d o Hk Hd) as (e & He & E & Hoe), (Hback k' d' o' Hk' Hd') as (e' & He' & E' & Hoe').
    rewrite <- E, <- E' in *. by apply (p_apart _ P k k' e e').
Qed.

(** A claim of a thread outlives its moves. *)
Lemma claim_keep s s' i c pc k x off d : sy_clients s !! i = Some c →
  sy_clients s' = alter (with_pc pc) i (sy_clients s) →
  s_stream_id <$> sy_streams s' = s_stream_id <$> sy_streams s →
  (sent (cl_pc c) = true → sent pc = true) →
  (∀ o, sent (cl_pc c) = true → offset_of pc = Some o → offset_of (cl_pc c) = Some o) →
  claim s k x off d → claim s' k x off d.
Proof.
  intros Hi Hcs Hids Hsent Hoff (e & Hk & Hx & Hd & Hs & Ho). unfold claim. rewrite Hcs, Hids.
  destruct (decide (k = i)) as [->|Hne].
  - rewrite Hi in Hk. injection Hk as ->. exists (with_pc pc e). rewrite list_lookup_alter_eq, Hi.
    split_and!; [done..|by apply Hsent|]. intros o Ho'. by apply Ho, Hoff.
  - exists e. rewrite list_lookup_alter_ne by done. eauto 10.
Qed.

Lemma stored_move s s' i c pc log extra : stored s log → sy_clients s !! i = Some c →
  sy_clients s' = alter (with_pc pc) i (sy_clients s) →
  s_stream_id <$> sy_streams s' = s_stream_id <$> sy_streams s →
  sy_worker s' = sy_worker s → sy_channel s' = sy_channel s ++ extra →
  (sent (cl_pc c) = true → sent pc = true) →
  (∀ o, sent (cl_pc c) = true → offset_of pc = Some o → offset_of (cl_pc c) = Some o) →
  (∀ m, m ∈ extra → msg_wf (Some m)) →
  (∀ x off d k, Append x off d k ∈ extra → claim s' k x off d) →
  (∀ o, pc = Acked o ∨ pc = Ended (Ok o) → ∃ x q, (s_stream_id <$> sy_streams s) !! so_stream (cl_op c) = Some x
      ∧ stowed (sy_worker s) (mkWal q x o (so_payload (cl_op c)))) →
  stored s' log.
Proof.
  intros [] Hi Hcs Hids Hw Hch Hsent Hoff Hwf Hnew Hack. split; rewrite ?Hw, ?Hch, ?Hids.
  - done.
  - intros m [?|?]%elem_of_app; auto.
  - intros x off d k [Hin|Hin]%elem_of_app; [|auto]. by eapply claim_keep; eauto.
  - intros k q (x & off & d & Hc & Hin)%s_acks0. exists x, off, d. split; [|done]. by eapply claim_keep.
  - intros k e o Hk Ho. rewrite Hcs in Hk. apply (lookup_alter_cases _ _ _ c) in Hk as [[-> ->]|[_ Hk]]; [by apply Hack|by eapply s_acked0|done].
Qed.

(** A reply that says [Ok] is an acknowledgement. *)
Lemma reply_to_ack i w q : reply_to i w = Some (RSeq (Ok q)) → (i, q) ∈ acks w.
Proof.
  unfold reply_to, acks. destruct (filter (λ cr, cr.1 = i) (replies w)) as [|[k r] l] eqn:E; [done|]. cbn. intros [= ->].
  assert ((k, RSeq (Ok q)) ∈ filter (λ cr, cr.1 = i) (replies w)) as Hin by (rewrite E; set_solver).
  apply list_elem_of_filter in Hin as [Hk Hin]. cbn in Hk. subst k. apply list_elem_of_omap. by exists (i, RSeq (Ok q)).
Qed.

(** The worker. *)
Lemma stored_receive s s' rx log : stored s log → receive config rx s = Some s' →
  next_seq (sy_worker s) + zlen rx < 2 ^ 64 →
  ∃ new, stored s' (log ++ new) ∧ next_seq (sy_worker s') ≤ next_seq (sy_worker s) + zlen rx
    ∧ sy_clients s' = sy_clients s ∧ sy_streams s' = sy_streams s.
Proof.
  intros [] Hr Hn. unfold receive in Hr. case_decide as Hgot; [|done].
  set (got := omap id rx) in *.
  assert (∀ m, Some m ∈ rx → m ∈ sy_channel s) as Hsub.
  { intros m Hm. rewrite <- (take_drop (length got) (sy_channel s)), <- Hgot. apply elem_of_app. left.
    apply list_elem_of_omap. by exists (Some m). }
  assert (Forall msg_wf rx) as Hwf.
  { apply Forall_forall. intros [m|] Hm; [|done]. apply s_wf0. by apply Hsub. }
  destruct (group_commit_loop_spec config (S (length rx)) rx (sy_worker s) log s_good0 Hwf) as (w' & new & Hrun & Hp & Hle);
    [lia|done|]. unfold run_group_commit_loop in Hr. rewrite Hrun in Hr. injection Hr as <-.
  destruct Hp as (Hg & Hl & _ & _ & _ & _ & fresh & Ha & Hf). exists new. split_and!; [|done..]. split; cbn [sy_worker sy_channel sy_clients sy_streams].
  - done.
  - intros m Hm. apply s_wf0. rewrite <- (take_drop (length got) (sy_channel s)). set_solver.
  - intros x off d i Hin. apply s_channel0. rewrite <- (take_drop (length got) (sy_channel s)). set_solver.
  - intros i q. rewrite Ha, elem_of_app. intros [(x & off & d & Hc & Hin)%s_acks0|Hin].
    + exists x, off, d. split; [done|]. destruct Hin as [p Hin]. exists p. by apply Hl.
    + destruct (Hf i q Hin) as (x & off & d & Hm & _ & Hk). exists x, off, d. split; [by apply s_channel0, Hsub|by apply Hk].
  - intros i c o Hi Ho. destruct (s_acked0 i c o Hi Ho) as (x & q & Hx & [p Hin]). exists x, q. split; [done|].
    exists p. by apply Hl.
Qed.

(** Identifiers and payloads are within their widths. *)
Definition sized (cs : list stream_op) (sts : list S3Stream) : Prop :=
  Forall (λ o, in_u 32 (zlen (so_payload o))) cs ∧ Forall (λ st, in_u 64 (s_stream_id st)) sts.

Record sound (s : system) (log : list WalRecord) : Prop := {
  so_placed : placed s;
  so_stored : stored s log;
  so_sized : sized (cl_op <$> sy_clients s) (sy_streams s) }.

Lemma sized_alter i pc (cs : list client) sts sts' : s_stream_id <$> sts' = s_stream_id <$> sts →
  sized (cl_op <$> cs) sts → sized (cl_op <$> alter (with_pc pc) i cs) sts'.
Proof.
  intros Hids [Hc Hs]. split.
  - rewrite Forall_fmap in Hc |- *. apply Forall_alter; [done|]. by intros c _ Hx.
  - assert (Forall (in_u 64) (s_stream_id <$> sts')) as Hf by (rewrite Hids; by apply Forall_fmap).
    rewrite Forall_fmap in Hf. exact Hf.
Qed.

(** A move of a thread that has sent its record. *)
Lemma sound_keep s s' i c pc log : sound s log → sy_clients s !! i = Some c →
  sy_clients s' = alter (with_pc pc) i (sy_clients s) → sy_streams s' = sy_streams s →
  sy_worker s' = sy_worker s → sy_channel s' = sy_channel s → sent (cl_pc c) = true → sent pc = true →
  (∀ o, offset_of pc = Some o → offset_of (cl_pc c) = Some o) →
  (∀ o, pc = Acked o ∨ pc = Ended (Ok o) → ∃ x q, (s_stream_id <$> sy_streams s) !! so_stream (cl_op c) = Some x
      ∧ stowed (sy_worker s) (mkWal q x o (so_payload (cl_op c)))) →
  sound s' log.
Proof.
  intros [P S Z] Hi Hcs Hss Hw Hch Hs Hs' Ho Hack. split.
  - eapply (placed_keep s s' i c pc); [done|done|by destruct (cl_pc c)|by destruct pc|done..].
  - eapply (stored_move s s' i c pc log []); [done|done|done|by rewrite Hss|done|by rewrite app_nil_r|done|auto|set_solver|set_solver|done].
  - rewrite Hcs, Hss. by eapply sized_alter.
Qed.

Section one_move.
Context (s : system) (log : list WalRecord) (i : nat) (c : client) (st : S3Stream).
Context (HS : sound s log) (Hi : sy_clients s !! i = Some c) (Hst : sy_streams s !! so_stream (cl_op c) = Some st).

Lemma sound_claim : cl_pc c = Begin →
  sound (advance i (Claimed (s_next_offset st)) (mkSystem
    (<[so_stream (cl_op c) := set_next (i64 (s_next_offset st + taken (cl_op c))) st]> (sy_streams s))
    (sy_clients s) (sy_channel s) (sy_worker s) (sy_cache s))) log.
Proof.
  intros Hpc. destruct HS as [P S Z]. set (s' := advance _ _ _).
  assert (s_stream_id <$> sy_streams s' = s_stream_id <$> sy_streams s) as Hids.
  { cbn. rewrite list_fmap_insert. apply list_insert_id. by rewrite list_lookup_fmap, Hst. }
  split; [by eapply (placed_claim s s' i c st)| |by eapply sized_alter].
  eapply (stored_move s s' i c (Claimed (s_next_offset st)) log []); [done|done|done|done|done|by cbn; rewrite app_nil_r|..];
    rewrite ?Hpc; [done|done|set_solver|set_solver|naive_solver].
Qed.

Lemma sound_send o : cl_pc c = Claimed o →
  sound (advance i (Sent o) (mkSystem (sy_streams s) (sy_clients s)
    (sy_channel s ++ [Append (s_stream_id st) o (so_payload (cl_op c)) i]) (sy_worker s) (sy_cache s))) log.
Proof.
  intros Hpc. destruct HS as [P S Z]. set (s' := advance _ _ _).
  split; [by eapply (placed_keep s s' i c (Sent o)); rewrite ?Hpc| |by eapply sized_alter].
  eapply (stored_move s s' i c (Sent o) log [_]); [done|done|done|done|done|done|..]; rewrite ?Hpc; [done|done| | |naive_solver].
  - intros m ->%list_elem_of_singleton. destruct (p_below _ P i c st o Hi Hst ltac:(by rewrite Hpc)).
    destruct (p_room _ P _ st Hst). destruct Z as [Hz1 Hz2]. assert (taken (cl_op c) ≥ 1) by (unfold taken; lia).
    pose proof (zsum_nonneg unclaimed (sy_clients s) ltac:(intros d; unfold unclaimed, taken; case_match; lia)).
    split; [by apply (Forall_lookup_1 _ _ _ _ Hz2 Hst)|]. split; [unfold in_s; change (64 - 1) with 63; lia|].
    apply (Forall_lookup_1 _ _ i (cl_op c) Hz1). by rewrite list_lookup_fmap, Hi.
  - intros x off d k [= -> -> -> ->]%list_elem_of_singleton. exists (with_pc (Sent o) c). cbn.
    rewrite list_lookup_alter_eq, Hi, list_lookup_fmap, Hst. split_and!; [done..|]. by intros ? [= <-].
Qed.
End one_move.

Lemma sound_move i s s' log : sound s log → move i s = Some s' → sound s' log ∧ sy_worker s' = sy_worker s.
Proof.
  intros HS Hm. unfold move in Hm. destruct (sy_clients s !! i) as [c|] eqn:Hi; [|done]. cbn [mbind option_bind] in Hm.
  destruct (sy_streams s !! so_stream (cl_op c)) as [st|] eqn:Hst; [|done]. cbn [mbind option_bind] in Hm.
  destruct (cl_pc c) as [|o|o|o|r] eqn:Hpc; [..|done].
  - injection Hm as <-. split; [by eapply sound_claim|done].
  - injection Hm as <-. split; [by eapply sound_send|done].
  - destruct (reply_to i (sy_worker s)) as [[[q|e|]|]|] eqn:Hr; [| |done..]; injection Hm as <-; (split; [|done]);
      eapply (sound_keep s _ i c); rewrite ?Hpc; try done.
    + intros o' [[= <-]|[=]].
      destruct (s_acks _ _ (so_stored _ _ HS) i q) as (x & off & d & (e & He & Hx & <- & _ & Ho) & Hin); [by apply reply_to_ack|].
      rewrite Hi in He. injection He as <-. rewrite (Ho o) by (by rewrite Hpc). eauto.
    + naive_solver.
  - injection Hm as <-. split; [|done]. eapply (sound_keep s _ i c); rewrite ?Hpc; try done.
    intros o' [[=]|[= <-]]. eapply (s_acked _ _ (so_stored _ _ HS) i c); auto.
Qed.

Lemma sound_handle_all es s s' log : sound s log → handle_all config es s = Some s' →
  next_seq (sy_worker s) + polls es < 2 ^ 64 → ∃ log', sound s' log'.
Proof.
  revert s log. induction es as [|e es IH]; intros s log HS Hrun Hn; cbn [handle_all] in Hrun; [injection Hrun as <-; eauto|].
  assert (polls (e :: es) = match e with Commit rx => zlen rx | Move _ => 0 end + polls es) as Hpolls by done.
  assert (0 ≤ polls es) by (apply zsum_nonneg; intros []; [done|apply zlen_nonneg]).
  destruct (handle config e s) as [s1|] eqn:E; [|done]. cbn [mbind option_bind] in Hrun. destruct e as [i|rx]; cbn in E.
  - destruct (sound_move i s s1 log HS E) as [HS1 Hw]. eapply IH; [done|done|]. rewrite Hw. lia.
  - destruct HS as [P S Z]. destruct (stored_receive s s1 rx log S E) as (new & S1 & Hle & Hc & Hs); [lia|].
    eapply (IH s1 (log ++ new)); [|done|lia]. split; [|done|by rewrite Hc, Hs].
    destruct P. split; rewrite ?Hc, ?Hs; done.
Qed.

Lemma boot_sound ops sts w lc : good w [] → replies w = [] → sized ops sts →
  Forall (λ st, 0 ≤ s_next_offset st ∧ s_next_offset st + zsum taken ops < 2 ^ 63) sts → sound (boot ops sts w lc) [].
Proof.
  intros Hg Hr Hz Hroom.
  assert (∀ i c, sy_clients (boot ops sts w lc) !! i = Some c → cl_pc c = Begin) as Hb.
  { intros i c. cbn. rewrite list_lookup_fmap. destruct (ops !! i); [|done]. by intros [= <-]. }
  split.
  - split.
    + intros j st Hj. destruct (Forall_lookup_1 _ _ _ _ Hroom Hj). split; [done|]. cbn. unfold zsum in *. by rewrite <- list_fmap_compose.
    + intros i c st o Hi%Hb. by rewrite Hi.
    + intros i k c d o o' _ Hi%Hb. by rewrite Hi.
  - split; cbn; [done|set_solver|set_solver| |].
    + unfold acks. rewrite Hr. set_solver.
    + intros i c o Hi%Hb. rewrite Hi. naive_solver.
  - cbn. rewrite <- list_fmap_compose. by rewrite list_fmap_id.
Qed.

(** C6: Stream appends survive a power failure in every interleaving, as far as
    the directory does.  Any number of threads append to any number of streams
    over one group-commit WAL on an empty directory with [sync_to_disk]: they
    claim offsets, send, wait and cache in any interleaving, the worker commits
    what has arrived in batches of any size, and any of its writes, syncs and
    rotations may fail, provided that a failing write leaves nothing in the
    file.  At any point, every append that has returned an offset has its
    payload, under its stream and this offset, in the synced part of a segment
    file [p] listed in the directory, and no two of them on one stream share an
    offset.  Cut the power there, which may also lose entries of the directory
    (it is never synced): recovery succeeds, and the recovered log has the
    record of every such append whose segment file is still listed. *)
Theorem group_commit_appends_durable io ops sts w0 fs0 lc es s fs' :
  open None io = (Ok w0, fs0) → Forall clean io → sized ops sts →
  Forall (λ st, 0 ≤ s_next_offset st ∧ s_next_offset st + zsum taken ops < 2 ^ 63) sts →
  handle_all config es (boot ops sts w0 lc) = Some s → polls es < 2 ^ 64 - 1 →
  crash (disk (sy_worker s)) fs' →
  (∃ rep fs'', recover (Some fs') [] = (Ok rep, (Some fs'', []))
     ∧ ∀ i c o, sy_clients s !! i = Some c → cl_pc c = Ended (Ok o) →
         ∃ x q p, (s_stream_id <$> sy_streams s) !! so_stream (cl_op c) = Some x
           ∧ kept (disk (sy_worker s)) p (mkWal q x o (so_payload (cl_op c)))
           ∧ is_Some (names (disk (sy_worker s)) !! p)
           ∧ (is_Some (names fs' !! p) → mkWal q x o (so_payload (cl_op c)) ∈ wal_log fs''))
  ∧ ∀ i k c d o o', i ≠ k → sy_clients s !! i = Some c → sy_clients s !! k = Some d →
      so_stream (cl_op c) = so_stream (cl_op d) → cl_pc c = Ended (Ok o) → cl_pc d = Ended (Ok o') →
      o + taken (cl_op c) ≤ o' ∨ o' + taken (cl_op d) ≤ o.
Proof.
  intros Hopen Hcl Hz Hroom Hrun Hpolls Hcrash.
  destruct (open_empty io w0 fs0 Hopen Hcl) as (Hg & Hn & Hr & _).
  destruct (sound_handle_all es _ s [] (boot_sound ops sts w0 lc Hg Hr Hz Hroom) Hrun) as (log & [P S _]); [cbn; lia|].
  split.
  - destruct (s_good _ _ S) as [I _ Hst].
    destruct (recover_spec fs' [] (crash_ok _ _ (inv_ok _ _ I) Hcrash)) as (r & fs'' & io' & -> & (Hs & Hio & Hres) & _).
    apply suffix_nil_inv in Hio as ->. destruct r as [rep|e|]; [|by destruct Hres as [[] _]; constructor|done].
    destruct (same_records_log _ _ Hs) as [_ Hl].
    eexists _, _. split; [done|]. intros i c o Hi Hpc.
    destruct (s_acked _ _ S i c o Hi (or_intror Hpc)) as (x & q & Hx & [p Hin]). exists x, q, p.
    split_and!; [done|done|by eapply kept_named|]. intros Hp. rewrite Hl. by eapply crash_keeps.
  - intros i k c d o o' Hne Hi Hk Hj Hc Hd. apply (p_apart _ P i k c d); [done..| |by rewrite Hc|by rewrite Hd].
    destruct (s_acked _ _ S i c o Hi (or_intror Hc)) as (x & _ & Hx & _). rewrite list_lookup_fmap in Hx.
    by destruct (sy_streams s !! so_stream (cl_op c)).
Qed.
End proofs.

(** ** Three threads, one batch and a half *)
Section witness.
Definition gc_ops : list stream_op := [mkSop 0 [x61] 1; mkSop 0 [x62; x63] 2; mkSop 1 [x64] 1].
Definition gc_streams : list S3Stream := [stream_new 100 0; stream_new 101 5].
(** The worker receives the first two records in one batch and the third, which
    overtook them at the counter of another stream, later. *)
Definition gc_events : list event :=
  [Move 2; Move 1; Move 0; Move 0; Move 1;
   Commit [Some (Append 100 2 [x61] 0); None; Some (Append 100 0 [x62; x63] 1); None];
   Move 1; Move 2; Move 0; Move 0; Commit [Some (Append 101 5 [x64] 2); None]; Move 1; Move 2].
Definition gc_boot : system := boot gc_ops gc_streams demo_w0 (LC.new 1024).
Definition gc_end : system := default gc_boot (handle_all demo_config gc_events gc_boot).

Example gc_results : cl_pc <$> sy_clients gc_end = [Ended (Ok 2); Ended (Ok 0); Acked 5].
Proof. vm_compute. done. Qed.

Lemma group_commit_appends_durable_witness :
  (∃ rep fs'', recover (Some (disk (sy_worker gc_end))) [] = (Ok rep, (Some fs'', []))
     ∧ ∀ i c o, sy_clients gc_end !! i = Some c → cl_pc c = Ended (Ok o) →
         ∃ x q p, (s_stream_id <$> sy_streams gc_end) !! so_stream (cl_op c) = Some x
           ∧ kept (disk (sy_worker gc_end)) p (mkWal q x o (so_payload (cl_op c)))
           ∧ is_Some (names (disk (sy_worker gc_end)) !! p)
           ∧ (is_Some (names (disk (sy_worker gc_end)) !! p) → mkWal q x o (so_payload (cl_op c)) ∈ wal_log fs''))
  ∧ ∀ i k c d o o', i ≠ k → sy_clients gc_end !! i = Some c → sy_clients gc_end !! k = Some d →
      so_stream (cl_op c) = so_stream (cl_op d) → cl_pc c = Ended (Ok o) → cl_pc d = Ended (Ok o') →
      o + taken (cl_op c) ≤ o' ∨ o' + taken (cl_op d) ≤ o.
Proof.
  apply (group_commit_appends_durable demo_config eq_refl [] gc_ops gc_streams demo_w0 (Some (disk demo_w0))
    (LC.new 1024) gc_events gc_end).
  - exact demo_open.
  - constructor.
  - split; apply (bool_decide_unpack _); vm_compute; exact I.
  - apply (bool_decide_unpack _). vm_compute. exact I.
  - vm_compute. reflexivity.
  - vm_compute. reflexivity.
  - apply crash_refl.
Defined.
End witness.
