(* ===== verification/StartOffset.v ===== *)
(** * The low watermark of a stream

    [S3Stream::advance_start_offset] of [crates/oxidemq-s3stream/src/stream.rs]
    with its compare-and-swap loop, executed by many threads at once.  A
    [compare_exchange_weak] can fail for no reason; the schedule says when. *)

From Stdlib Require Import Strings.Byte.
From stdpp Require Import base numbers list strings sets gmap.
From S2P Require Import Prelude Bytes CoreTypes Wal S3Format LogCache BlockCache ObjectStore Stream.

(** [Looping current]: about to test [new_start_offset > current]; [Won]: the
    swap succeeded, the log cache is still to be trimmed. *)
Inductive adv_pc := Entered | Looping (current : Z) | Won | Left (r : Z).
Record advancer := mkAdv { ad_new_start : Z; ad_pc : adv_pc }.
Record low := mkLow { lo_start : Z; lo_threads : list advancer; lo_cache : LC.LogCache }.

Section model.
Context (stream_id : Z).

Definition go (i : nat) (pc : adv_pc) (s : low) : low :=
  mkLow (lo_start s) (alter (λ a, mkAdv (ad_new_start a) pc) i (lo_threads s)) (lo_cache s).

Definition adv_step (i : nat) (spurious : bool) (s : low) : option low :=
  a ← lo_threads s !! i;
  let new_start := ad_new_start a in
  match ad_pc a with
  | Entered => Some (go i (Looping (lo_start s)) s)
  | Looping current =>
      if decide (new_start > current) then
        if decide (lo_start s = current ∧ spurious = false)
        then Some (go i Won (mkLow new_start (lo_threads s) (lo_cache s)))
        else Some (go i (Looping (lo_start s)) s)
      else Some (go i (Left current) s)
  | Won => Some (go i (Left new_start) (mkLow (lo_start s) (lo_threads s) (LC.trim stream_id new_start (lo_cache s))))
  | Left _ => None
  end.

Fixpoint adv_run (schedule : list (nat * bool)) (s : low) : option low :=
  match schedule with
  | [] => Some s
  | (i, spurious) :: schedule => s ← adv_step i spurious s; adv_run schedule s
  end.

Definition adv_init (start : Z) (targets : list Z) (c : LC.LogCache) : low :=
  mkLow start ((λ t, mkAdv t Entered) <$> targets) c.
End model.

Section proofs.
Context (stream_id start0 : Z) (c0 : LC.LogCache).

(** The largest offset below which the cache was trimmed. *)
Definition below (cut : option Z) (o : Z) : Prop := match cut with Some t => o < t | None => False end.
#[local] Instance below_dec cut o : Decision (below cut o).
Proof. unfold below. destruct cut; apply _. Defined.

Definition adv_ok (s : low) (a : advancer) : Prop :=
  match ad_pc a with
  | Entered => True
  | Looping current => start0 ≤ current ≤ lo_start s
  | Won => start0 < ad_new_start a ≤ lo_start s
  | Left r => ad_new_start a ≤ r ≤ lo_start s
  end.

Record low_ok (targets : list Z) (s : low) (cut : option Z) : Prop := {
  q_targets : ad_new_start <$> lo_threads s = targets;
  q_start : start0 ≤ lo_start s;
  q_threads : Forall (adv_ok s) (lo_threads s);
  q_origin : lo_start s = start0
    ∨ ∃ i a, lo_threads s !! i = Some a ∧ ad_new_start a = lo_start s ∧ (ad_pc a = Won ∨ cut = Some (lo_start s));
  q_cut t : cut = Some t → start0 < t ≤ lo_start s;
  q_wf : LC.wf (lo_cache s);
  q_cache x o : LC.entry (LC.streams (lo_cache s)) x o
    = if decide (x = stream_id ∧ below cut o) then None else LC.entry (LC.streams c0) x o }.

Definition adv_at (pc : adv_pc) (a : advancer) : advancer := mkAdv (ad_new_start a) pc.

(** One thread moves; the start offset may rise. *)
Lemma low_ok_move targets s cut i a pc start c cut' : low_ok targets s cut → lo_threads s !! i = Some a →
  let s' := mkLow start (alter (adv_at pc) i (lo_threads s)) c in
  lo_start s ≤ start → adv_ok s' (adv_at pc a) →
  (start = lo_start s ∧ (ad_pc a ≠ Won ∨ cut' = Some start ∨ start ≠ ad_new_start a)
     ∧ (cut = Some start → cut' = Some start) ∨ start = ad_new_start a ∧ pc = Won) →
  (∀ t, cut' = Some t → start0 < t ≤ start) → LC.wf c →
  (∀ x o, LC.entry (LC.streams c) x o = if decide (x = stream_id ∧ below cut' o) then None else LC.entry (LC.streams c0) x o) →
  low_ok targets s' cut'.
Proof.
  intros Q Hi s' Hle Ha Ho Hcut Hwf Hc. split; cbn [lo_start lo_threads lo_cache s']; try done.
  - rewrite fmap_alter_same by done. apply Q.
  - pose proof (q_start _ _ _ Q). lia.
  - apply Forall_lookup. intros k b Hk. destruct (decide (k = i)) as [->|Hne].
    + rewrite list_lookup_alter_eq, Hi in Hk. injection Hk as <-. done.
    + rewrite list_lookup_alter_ne in Hk by done. pose proof (Forall_lookup_1 _ _ _ _ (q_threads _ _ _ Q) Hk) as Hb.
      unfold adv_ok in *. destruct (ad_pc b); cbn; lia.
  - destruct Ho as [(-> & Hnw & Hcc)|[-> ->]].
    + destruct (q_origin _ _ _ Q) as [?|(k & b & Hk & Hb & Hw)]; [by left|]. right.
      destruct (decide (k = i)) as [->|Hne].
      * rewrite Hi in Hk. injection Hk as <-. exists i, (adv_at pc a). rewrite list_lookup_alter_eq, Hi. split_and!; [done..|].
        right. destruct Hw as [Hw|Hw]; [|by apply Hcc]. destruct Hnw as [?|[?|?]]; congruence.
      * exists k, b. rewrite list_lookup_alter_ne by done. split_and!; [done..|]. destruct Hw; auto.
    + right. exists i, (adv_at Won a). rewrite list_lookup_alter_eq, Hi. auto.
Qed.

Lemma adv_step_ok targets i spurious s s' cut : low_ok targets s cut → adv_step stream_id i spurious s = Some s' →
  ∃ cut', low_ok targets s' cut'.
Proof.
  intros Q Hs. unfold adv_step in Hs. destruct (lo_threads s !! i) as [a|] eqn:Hi; [|done]. cbn [mbind option_bind] in Hs.
  pose proof (Forall_lookup_1 _ _ _ _ (q_threads _ _ _ Q) Hi) as Ha. unfold adv_ok in Ha.
  pose proof (q_start _ _ _ Q). pose proof (q_cut _ _ _ Q) as Hcut. pose proof (q_wf _ _ _ Q). pose proof (q_cache _ _ _ Q).
  assert (∀ pc, adv_ok (go i pc s) (adv_at pc a) → ad_pc a ≠ Won → low_ok targets (go i pc s) cut) as Hstay.
  { intros pc Hok Hw. apply (low_ok_move targets s cut i a pc (lo_start s)); [done|done|lia|done|auto|done..]. }
  destruct (ad_pc a) as [|current| |r] eqn:Hpc.
  - injection Hs as <-. exists cut. apply Hstay; [unfold adv_ok; cbn; lia|done].
  - case_decide; [case_decide as Hcas; [destruct Hcas as [Hcur _]|]|]; injection Hs as <-; exists cut.
    + apply (low_ok_move targets s cut i a Won (ad_new_start a) (lo_cache s) cut); [done|done|lia|unfold adv_ok; cbn; lia|by right| |done..].
      intros t Ht. specialize (Hcut t Ht). lia.
    + apply Hstay; [unfold adv_ok; cbn; lia|done].
    + apply Hstay; [unfold adv_ok; cbn; lia|done].
  - injection Hs as <-. set (t := ad_new_start a) in *.
    exists (Some (match cut with Some u => Z.max u t | None => t end)).
    apply (low_ok_move targets s cut i a (Left t) (lo_start s)); [done|done|lia|unfold adv_ok; cbn; lia|..].
    + left. split; [done|]. destruct cut as [u|]; [specialize (Hcut u eq_refl)|].
      * split; [|intros [= ->]; f_equal; lia]. destruct (decide (lo_start s = t)); [right; left; f_equal; lia|auto].
      * split; [|done]. destruct (decide (lo_start s = t)); [right; left; f_equal; lia|auto].
    + intros u [= <-]. destruct cut as [v|]; [specialize (Hcut v eq_refl)|]; lia.
    + by apply (LC.trim_entry stream_id t (lo_cache s) 0 0).
    + intros x o. cbn [lo_cache]. destruct (LC.trim_entry stream_id t (lo_cache s) x o) as [_ ->]; [done|].
      rewrite (q_cache _ _ _ Q). destruct cut as [u|]; cbn; repeat case_decide; done || lia.
  - done.
Qed.

Lemma adv_run_ok targets schedule s s' cut : low_ok targets s cut → adv_run stream_id schedule s = Some s' →
  ∃ cut', low_ok targets s' cut'.
Proof.
  revert s cut. induction schedule as [|[i sp] schedule IH]; intros s cut Q Hr; cbn [adv_run] in Hr; [injection Hr as <-; eauto|].
  destruct (adv_step stream_id i sp s) as [s1|] eqn:E; [|done]. cbn [mbind option_bind] in Hr.
  destruct (adv_step_ok _ _ _ _ _ _ Q E) as [cut1 Q1]. by eapply IH.
Qed.

Lemma init_low_ok targets : LC.wf c0 → low_ok targets (adv_init start0 targets c0) None.
Proof.
  intros Hwf. split; cbn; [|done| |by left|done|done|].
  - rewrite <- list_fmap_compose. apply list_fmap_id.
  - apply Forall_fmap, Forall_true. done.
  - intros x o. by rewrite decide_False by tauto.
Qed.

Lemma foldr_max_bound (l : list Z) x : x ≤ foldr Z.max x l ∧ Forall (λ t, t ≤ foldr Z.max x l) l.
Proof.
  induction l as [|t l [IH1 IH2]]; cbn; [by split|]. split; [lia|]. constructor; [lia|].
  eapply Forall_impl; [done|]. cbn. lia.
Qed.

Lemma foldr_max_least (l : list Z) x m : x ≤ m → Forall (λ t, t ≤ m) l → foldr Z.max x l ≤ m.
Proof. intros Hx. induction 1; cbn; lia. Qed.

(** Concurrent deletions agree.  Threads that advance the start offset of a
    stream at the same time, their compare-and-swap loops interleaved in any way
    and with any number of spurious failures, leave it at the largest of the
    requested offsets (never back); each returns an offset at or above the one it
    asked for and at or below the final one; the cache has lost exactly the
    records of the stream below the final offset, if it moved. *)
Theorem concurrent_advances_agree targets schedule s :
  LC.wf c0 → adv_run stream_id schedule (adv_init start0 targets c0) = Some s →
  Forall (λ a, ∃ r, ad_pc a = Left r) (lo_threads s) →
  lo_start s = foldr Z.max start0 targets
  ∧ Forall (λ a, ∃ r, ad_pc a = Left r ∧ ad_new_start a ≤ r ≤ lo_start s) (lo_threads s)
  ∧ ∀ x o, LC.entry (LC.streams (lo_cache s)) x o
      = if decide (x = stream_id ∧ start0 < lo_start s ∧ o < lo_start s) then None else LC.entry (LC.streams c0) x o.
Proof.
  intros Hwf Hrun Hdone. destruct (adv_run_ok targets _ _ _ None (init_low_ok targets Hwf) Hrun) as [cut Q].
  assert (Forall (λ a, ∃ r, ad_pc a = Left r ∧ ad_new_start a ≤ r ≤ lo_start s) (lo_threads s)) as Hres.
  { apply Forall_lookup. intros i a Hi. destruct (Forall_lookup_1 _ _ _ _ Hdone Hi) as [r Hr]. exists r. split; [done|].
    pose proof (Forall_lookup_1 _ _ _ _ (q_threads _ _ _ Q) Hi) as Ha. unfold adv_ok in Ha. by rewrite Hr in Ha. }
  split_and!; [|done|].
  - apply Z.le_antisymm.
    + destruct (foldr_max_bound targets start0) as [Hm Ht]. destruct (q_origin _ _ _ Q) as [->|(i & a & Hi & <- & _)]; [done|].
      set (m := foldr Z.max start0 targets) in *. rewrite <- (q_targets _ _ _ Q) in Ht. rewrite Forall_fmap in Ht. by apply (Forall_lookup_1 _ _ _ _ Ht Hi).
    + apply foldr_max_least; [apply Q|]. rewrite <- (q_targets _ _ _ Q). apply Forall_fmap. eapply Forall_impl; [exact Hres|].
      intros a (r & _ & ?). cbn. lia.
  - intros x o. rewrite (q_cache _ _ _ Q). pose proof (q_cut _ _ _ Q) as Hcut.
    assert (below cut o ↔ start0 < lo_start s ∧ o < lo_start s) as Hb.
    { destruct (q_origin _ _ _ Q) as [E|(i & a & Hi & Ha & [Hw| ->])].
      - destruct cut as [t|]; cbn; [specialize (Hcut t eq_refl)|]; lia.
      - destruct (Forall_lookup_1 _ _ _ _ Hdone Hi) as [r Hr]. congruence.
      - specialize (Hcut _ eq_refl). cbn. lia. }
    repeat case_decide; done || tauto.
Qed.
End proofs.

(** Three threads, a lost race and a spurious failure. *)
Definition adv_cache : LC.LogCache := LC.put 7 3 [x62] (LC.put 7 0 [x61] (LC.new 64)).
Definition adv_schedule : list (nat * bool) :=
  [(0, false); (1, false); (2, false); (1, true); (1, false); (0, false); (0, false); (2, false); (2, false); (1, false)]%nat.
Definition adv_end : low := default (adv_init 0 [] adv_cache) (adv_run 7 adv_schedule (adv_init 0 [2; 3; 1] adv_cache)).

Lemma concurrent_advances_agree_witness :
  lo_start adv_end = 3
  ∧ Forall (λ a, ∃ r, ad_pc a = Left r ∧ ad_new_start a ≤ r ≤ lo_start adv_end) (lo_threads adv_end)
  ∧ ∀ x o, LC.entry (LC.streams (lo_cache adv_end)) x o
      = if decide (x = 7 ∧ 0 < lo_start adv_end ∧ o < lo_start adv_end) then None else LC.entry (LC.streams adv_cache) x o.
Proof.
  apply (concurrent_advances_agree 7 0 adv_cache [2; 3; 1] adv_schedule adv_end).
  - vm_compute. reflexivity.
  - vm_compute. reflexivity.
  - vm_compute. repeat (constructor; [by eexists|]). constructor.
Defined.
