(* ===== verification/MessageTypes.v ===== *)
(** * Message structures

    The request and response structures of
    [crates/oxidemq-protocol/src/messages.rs] that the broker's components
    build or consume. *)

From stdpp Require Import base numbers list strings.
From S2P Require Import Prelude Bytes CoreTypes KafkaWire.

(** ** Metadata (API key 3) *)
Record BrokerMetadata := mkBrokerMeta {
  bm_node_id : Z; bm_host : string; bm_port : Z; bm_rack : option string }.

Record PartitionMetadata := mkPartMeta {
  pm_error_code : KafkaErrorCode; pm_partition_index : Z; pm_leader_id : Z;
  pm_leader_epoch : Z; pm_replica_nodes : list Z; pm_isr_nodes : list Z }.

Record TopicMetadata := mkTopicMeta {
  tm_error_code : KafkaErrorCode; tm_name : string; tm_is_internal : bool;
  tm_partitions : list PartitionMetadata }.

Record MetadataResponse := mkMetaResp {
  mr_throttle_time_ms : Z; mr_brokers : list BrokerMetadata;
  mr_cluster_id : option string; mr_controller_id : Z; mr_topics : list TopicMetadata }.

(** ** DescribeConfigs (API key 32) *)
Record DescribeConfigsSynonym := mkSyn { sy_name : string; sy_value : option string; sy_source : Z }.

Record DescribeConfigsResourceResult := mkCfg {
  cf_name : string; cf_value : option string; cf_read_only : bool; cf_is_default : bool;
  cf_config_source : Z; cf_is_sensitive : bool; cf_synonyms : list DescribeConfigsSynonym }.

(** ** CreatePartitions (API key 37) *)
Record CreatePartitionsAssignment := mkAssign { as_broker_ids : list Z }.

(** ** DescribeGroups (API key 15) *)
Record DescribedGroupMember := mkDescMember {
  dm_member_id : string; dm_client_id : string; dm_client_host : string;
  dm_member_metadata : bytes; dm_member_assignment : bytes }.

Record DescribedGroup := mkDescGroup {
  dg_error_code : KafkaErrorCode; dg_group_id : string; dg_group_state : string;
  dg_protocol_type : string; dg_protocol_data : string; dg_members : list DescribedGroupMember }.

(** ** ACLs (API keys 29 to 31) *)
Inductive AclResourceType :=
  RtUnknown | RtAny | RtTopic | RtGroup | RtCluster | RtTransactionalId | RtDelegationToken | RtUser.
Inductive AclResourcePatternType := PtUnknown | PtAny | PtMatch | PtLiteral | PtPrefixed.
Inductive AclOperation :=
  OpUnknown | OpAny | OpAll | OpRead | OpWrite | OpCreate | OpDelete | OpAlter | OpDescribe
  | OpClusterAction | OpDescribeConfigs | OpAlterConfigs | OpIdempotentWrite.
Inductive AclPermissionType := PermUnknown | PermAny | PermDeny | PermAllow.

#[export] Instance AclResourceType_eq_dec : EqDecision AclResourceType.
Proof. solve_decision. Defined.
#[export] Instance AclResourcePatternType_eq_dec : EqDecision AclResourcePatternType.
Proof. solve_decision. Defined.
#[export] Instance AclOperation_eq_dec : EqDecision AclOperation.
Proof. solve_decision. Defined.
#[export] Instance AclPermissionType_eq_dec : EqDecision AclPermissionType.
Proof. solve_decision. Defined.

Definition resource_type_from_i8 (val : Z) : AclResourceType :=
  match val with
  | 1 => RtAny | 2 => RtTopic | 3 => RtGroup | 4 => RtCluster | 5 => RtTransactionalId
  | 6 => RtDelegationToken | 7 => RtUser | _ => RtUnknown
  end.
(** [as i8] *)
Definition resource_type_code (t : AclResourceType) : Z :=
  match t with
  | RtUnknown => 0 | RtAny => 1 | RtTopic => 2 | RtGroup => 3 | RtCluster => 4
  | RtTransactionalId => 5 | RtDelegationToken => 6 | RtUser => 7
  end.

Definition pattern_type_from_i8 (val : Z) : AclResourcePatternType :=
  match val with 1 => PtAny | 2 => PtMatch | 3 => PtLiteral | 4 => PtPrefixed | _ => PtUnknown end.
Definition pattern_type_code (t : AclResourcePatternType) : Z :=
  match t with PtUnknown => 0 | PtAny => 1 | PtMatch => 2 | PtLiteral => 3 | PtPrefixed => 4 end.

Definition operation_from_i8 (val : Z) : AclOperation :=
  match val with
  | 1 => OpAny | 2 => OpAll | 3 => OpRead | 4 => OpWrite | 5 => OpCreate | 6 => OpDelete
  | 7 => OpAlter | 8 => OpDescribe | 9 => OpClusterAction | 10 => OpDescribeConfigs
  | 11 => OpAlterConfigs | 12 => OpIdempotentWrite | _ => OpUnknown
  end.
Definition operation_code (o : AclOperation) : Z :=
  match o with
  | OpUnknown => 0 | OpAny => 1 | OpAll => 2 | OpRead => 3 | OpWrite => 4 | OpCreate => 5
  | OpDelete => 6 | OpAlter => 7 | OpDescribe => 8 | OpClusterAction => 9
  | OpDescribeConfigs => 10 | OpAlterConfigs => 11 | OpIdempotentWrite => 12
  end.

Definition permission_from_i8 (val : Z) : AclPermissionType :=
  match val with 1 => PermAny | 2 => PermDeny | 3 => PermAllow | _ => PermUnknown end.
Definition permission_code (p : AclPermissionType) : Z :=
  match p with PermUnknown => 0 | PermAny => 1 | PermDeny => 2 | PermAllow => 3 end.

Record AclCreation := mkAclCreation {
  ac_resource_type : Z; ac_resource_name : string; ac_resource_pattern_type : Z;
  ac_principal : string; ac_host : string; ac_operation : Z; ac_permission_type : Z }.

Record AclCreationResult := mkAclResult {
  ar_error_code : KafkaErrorCode; ar_error_message : option string }.

(** [DescribeAclsRequest] and [DeleteAclsFilter] have the same fields. *)
Record AclFilter := mkAclFilter {
  af_resource_type : Z; af_resource_name : option string; af_pattern_type : Z;
  af_principal : option string; af_host : option string; af_operation : Z; af_permission_type : Z }.

Record AclDescription := mkAclDesc {
  ad_principal : string; ad_host : string; ad_operation : Z; ad_permission_type : Z }.

Record DescribeAclsResource := mkAclResource {
  as_resource_type : Z; as_resource_name : string; as_pattern_type : Z; as_acls : list AclDescription }.

Record DeleteAclsMatchingAcl := mkMatching {
  mt_error_code : KafkaErrorCode; mt_error_message : option string; mt_resource_type : Z;
  mt_resource_name : string; mt_pattern_type : Z; mt_principal : string; mt_host : string;
  mt_operation : Z; mt_permission_type : Z }.

Record DeleteAclsFilterResult := mkFilterResult {
  fr_error_code : KafkaErrorCode; fr_error_message : option string;
  fr_matching_acls : list DeleteAclsMatchingAcl }.
