(* ===== verification/MsgCodec.v ===== *)
(** * Codec combinators for the request and response messages

    The idioms that the codecs of [crates/oxidemq-protocol/src/messages.rs]
    repeat (length checks before a fixed-width read, counted arrays in their
    five variants, version-dependent strings, tagged-field sections) as reader
    combinators, with a small logic for round trips, [Reads]. *)

From Stdlib Require Import Strings.Byte.
From stdpp Require Import base numbers list strings.
From S2P Require Import Prelude Bytes BytesUtil CoreTypes KafkaWire.

(** ** The allocator

    [Vec::<T>::with_capacity(n)] aborts the process when it does not get the
    memory: always when it would take more than [isize::MAX] bytes, and
    otherwise as the allocator decides.  The element types here are not
    zero-sized, so a granted capacity is at most [isize::MAX]; a capacity of 0
    takes no memory. *)
Class Allocator := {
  grants : Type → Z → bool;
  grants_zero T : grants T 0 = true;
  grants_isize T n : grants T n = true → n ≤ isize_max }.

Abbreviation decoder := (reader OxideMqError).

Section combinators.
Context `{Allocator}.

Definition with_capacity (T : Type) (n : Z) : decoder unit := λ l,
  if grants T n then Ok (tt, l) else Panic.

(** [let mut v = Vec::with_capacity(n); for _ in 0..n { v.push(body) }] *)
Definition read_vec {T} (body : decoder T) (n : Z) : decoder (list T) :=
  with_capacity T n ≫= λ _, read_n (Z.to_nat n) body.

(** [.. for _ in 0..n { if let Some(s) = read_string(src)? { v.push(s) } }] *)
Definition read_strings (n : Z) : decoder (list string) :=
  with_capacity string n ≫= λ _, l ← read_n (Z.to_nat n) read_string; mret (omap id l).

(** [if src.len() < n { return Err(OxideMqError::Protocol(msg)) }] *)
Definition require (n : Z) (msg : string) : decoder unit :=
  len ← remaining; if decide (len < n) then fail (EProtocol msg) else mret tt.

Definition get_bool : decoder bool := b ← get_u8; mret (bool_decide (b ≠ 0)).
Definition get_error : decoder KafkaErrorCode := c ← get_i16; mret (error_from_i16 c).

(** [read_*(src)?.unwrap_or_default()] *)
Definition read_str : decoder string := s ← read_string; mret (default ""%string s).
Definition read_blob : decoder bytes := b ← read_bytes; mret (default [] b).

(** Counted arrays; [vec n] reads the [n] items.
    [let n = src.get_i32() as usize; ..] *)
Definition read_array {A} (vec : Z → decoder A) : decoder A := n ← get_i32; vec (u64 n).

(** A negative count is the absent array. *)
Definition read_array_opt {A} (vec : Z → decoder A) : decoder (option A) :=
  n ← get_i32; if decide (n < 0) then mret None else l ← vec n; mret (Some l).

(** Both the presence and the sign of the count are checked. *)
Definition read_array_checked {A} (trunc neg : string) (vec : Z → decoder A) : decoder A :=
  require 4 trunc ≫= λ _,
  n ← get_i32; if decide (n < 0) then fail (EProtocol neg) else vec n.

(** The presence of the count is checked, a negative one is taken for 0. *)
Definition read_array_clamped {A} (trunc : string) (vec : Z → decoder A) : decoder A :=
  require 4 trunc ≫= λ _,
  n ← get_i32; vec (if decide (n < 0) then 0 else n).

(** Version 2 and up: a compact array; before, a checked [i32] count that is
    cast to [usize]. *)
Definition read_array_v {A} (v : Z) (trunc : string) (vec : Z → decoder A) : decoder A :=
  n ← (if decide (v ≥ 2) then n ← read_unsigned_varint; mret (Z.max (n - 1) 0)
       else require 4 trunc ≫= λ _, n ← get_i32; mret (u64 n));
  vec n.

Definition read_string_v (v : Z) : decoder (option string) :=
  if decide (v ≥ 2) then read_compact_string else read_string.
Definition read_str_v (v : Z) : decoder string :=
  s ← read_string_v v; mret (default ""%string s).

(** [if src.has_remaining() { src.get_u8() != 0 } else { d }] *)
Definition read_trailing_bool (d : bool) : decoder bool :=
  n ← remaining; if decide (0 < n) then get_bool else mret d.

(** [if version >= 2 && src.has_remaining() { read_unsigned_varint(src)?; }] *)
Definition read_tagged (v : Z) : decoder unit :=
  n ← remaining;
  if decide (v ≥ 2 ∧ 0 < n) then read_unsigned_varint ≫= λ _, mret tt else mret tt.
End combinators.

Abbreviation when P m d := (if decide P then m else mret d).
Abbreviation put_when P w := (if decide P then w else []).

Definition put_bool (b : bool) : bytes := put_8 (if b then 1 else 0).
Definition put_error (e : KafkaErrorCode) : bytes := put_16 (code e).
Definition put_items {A} (f : A → bytes) (l : list A) : bytes := concat (f <$> l).
Definition put_array {A} (f : A → bytes) (l : list A) : bytes := put_32 (i32 (zlen l)) ++ put_items f l.
Definition put_array_opt {A} (f : A → bytes) (o : option (list A)) : bytes :=
  match o with Some l => put_array f l | None => put_32 (-1) end.
Definition put_array_v {A} (v : Z) (f : A → bytes) (l : list A) : bytes :=
  (if decide (v ≥ 2) then write_unsigned_varint (zlen l + 1) else put_32 (i32 (zlen l)))
    ++ put_items f l.
Definition write_string_v (v : Z) (s : option string) : bytes :=
  if decide (v ≥ 2) then write_compact_string s else write_string s.
Definition put_tagged (v : Z) : bytes := put_when (v ≥ 2) (write_unsigned_varint 0).

(** ** Round trips

    [Reads m w x]: in front of anything, [m] consumes exactly [w] and returns
    [x]. *)
Definition Reads {A} (m : decoder A) (w : bytes) (x : A) : Prop := ∀ k, m (w ++ k) = Ok (x, k).

Create HintDb wire.
#[global] Arguments write_string _ : simpl never.
#[global] Arguments write_bytes _ : simpl never.
#[global] Arguments write_compact_string _ : simpl never.
#[global] Arguments write_compact_bytes _ : simpl never.
#[global] Arguments write_unsigned_varint _ : simpl never.
#[global] Arguments to_be _ _ : simpl never.
#[global] Arguments put_array_opt _ _ _ : simpl never.
#[global] Arguments opt_all _ _ _ : simpl never.
#[global] Arguments read_n _ _ _ _ : simpl never.

Lemma reads_bind {A B} (m : decoder A) (f : A → decoder B) w w' x y :
  Reads m w x → Reads (f x) w' y → Reads (m ≫= f) (w ++ w') y.
Proof. intros Hm Hf k. rewrite <- app_assoc. by rewrite (reader_bind_ok _ _ _ _ _ (Hm _)). Qed.

(** A reader that consumes nothing. *)
Lemma reads_bind_nil {A B} (m : decoder A) (f : A → decoder B) w x y :
  Reads m [] x → Reads (f x) w y → Reads (m ≫= f) w y.
Proof. apply reads_bind. Qed.

Lemma reads_ret {A} (x : A) : Reads (mret x) [] x.
Proof. done. Qed.

Lemma reads_map {A B} (m : decoder A) (g : A → B) w x :
  Reads m w x → Reads (y ← m; mret (g y)) w (g x).
Proof. intros Hm k. by rewrite (reader_bind_ok _ _ _ _ _ (Hm _)). Qed.

Lemma reads_require {B} n msg (f : unit → decoder B) w y : n ≤ zlen w →
  Reads (f tt) w y → Reads (require n msg ≫= f) w y.
Proof.
  intros Hn Hf k. unfold require. unfold mbind at 1, reader_bind at 1. rewrite read_remaining.
  pose proof (zlen_nonneg k). rewrite decide_False by (rewrite zlen_app; lia). apply Hf.
Qed.

Lemma reads_i8 x : in_s 8 x → Reads get_i8 (put_8 x) x.
Proof. intros ? k. by apply (get_s_app 1 x k 8); [|lia|]. Qed.
Lemma reads_i16 x : in_s 16 x → Reads get_i16 (put_16 x) x.
Proof. intros ? k. by apply (get_s_app 2 x k 16); [|lia|]. Qed.
Lemma reads_i32 x : in_s 32 x → Reads get_i32 (put_32 x) x.
Proof. intros ? k. by apply (get_s_app 4 x k 32); [|lia|]. Qed.
Lemma reads_i64 x : in_s 64 x → Reads get_i64 (put_64 x) x.
Proof. intros ? k. by apply (get_s_app 8 x k 64); [|lia|]. Qed.

Lemma reads_bool b : Reads get_bool (put_bool b) b.
Proof. intros k. by destruct b. Qed.

Lemma reads_error e : Reads get_error (put_error e) e.
Proof. intros k. by destruct e. Qed.

Lemma reads_string s : opt_all wire_string s → Reads read_string (write_string s) s.
Proof. intros ? k. by apply read_string_ok. Qed.
Lemma reads_str s : wire_string s → Reads read_str (write_string (Some s)) s.
Proof. intros. by apply (reads_map _ (default ""%string) _ (Some s)), reads_string. Qed.
Lemma reads_bytes b : opt_all wire_bytes b → Reads read_bytes (write_bytes b) b.
Proof. intros ? k. by apply read_bytes_ok. Qed.
Lemma reads_blob b : wire_bytes b → Reads read_blob (write_bytes (Some b)) b.
Proof. intros. by apply (reads_map _ (default []) _ (Some b)), reads_bytes. Qed.
Lemma reads_compact_string s : opt_all wire_cstring s → Reads read_compact_string (write_compact_string s) s.
Proof. intros ? k. by apply read_compact_string_ok. Qed.
Lemma reads_compact_bytes b : opt_all wire_cbytes b → Reads read_compact_bytes (write_compact_bytes b) b.
Proof. intros ? k. by apply read_compact_bytes_ok. Qed.
Lemma reads_uvarint n : in_u 64 n → Reads read_unsigned_varint (write_unsigned_varint n) n.
Proof. intros ? k. by apply read_uvarint_ok. Qed.

(** A string field whose encoding depends on the version. *)
Definition wire_string_v (v : Z) (s : string) : Prop :=
  str_ok s ∧ str_len s < (if decide (v ≥ 2) then 2 ^ 63 else 2 ^ 15).
#[export] Instance wire_string_v_dec v s : Decision (wire_string_v v s).
Proof. unfold wire_string_v. apply _. Defined.

Lemma reads_string_v v s : opt_all (wire_string_v v) s → Reads (read_string_v v) (write_string_v v s) s.
Proof.
  intros Hs. unfold read_string_v, write_string_v, wire_string_v in *.
  destruct (decide (v ≥ 2)); [by apply reads_compact_string|by apply reads_string].
Qed.
Lemma reads_str_v v s : wire_string_v v s → Reads (read_str_v v) (write_string_v v (Some s)) s.
Proof. intros. by apply (reads_map _ (default ""%string) _ (Some s)), reads_string_v. Qed.

Lemma reads_tagged v : Reads (read_tagged v) (put_tagged v) tt.
Proof.
  intros k. unfold read_tagged, put_tagged. rewrite read_remaining. pose proof (zlen_nonneg k).
  destruct (decide (v ≥ 2)).
  - assert (zlen (write_unsigned_varint 0) = 1) by done.
    rewrite decide_True by (rewrite zlen_app; lia).
    by erewrite reader_bind_ok by (apply reads_uvarint; unfold in_u; lia).
  - by rewrite decide_False by tauto.
Qed.

Lemma reads_trailing_bool d b : Reads (read_trailing_bool d) (put_bool b) b.
Proof. intros k. by destruct b. Qed.

Lemma reads_when {A} (Q : Prop) `{!Decision Q} (m : decoder A) w x d :
  Reads m w x → Reads (when Q m d) (put_when Q w) (if decide Q then x else d).
Proof. intros. by case_decide. Qed.

Lemma reads_ret_eq {A} (x y : A) : x = y → Reads (mret x) [] y.
Proof. by intros ->. Qed.

Lemma opt_all_none {A} (P : A → Prop) : opt_all P None.
Proof. done. Qed.
Lemma opt_all_some {A} (P : A → Prop) x : P x → opt_all P (Some x).
Proof. done. Qed.

#[export] Hint Resolve opt_all_none opt_all_some : wire.
#[export] Hint Resolve reads_i8 reads_i16 reads_i32 reads_i64 reads_bool reads_error reads_string
  reads_str reads_bytes reads_blob reads_compact_string reads_compact_bytes reads_uvarint
  reads_string_v reads_str_v reads_tagged reads_trailing_bool reads_ret reads_when : wire.
Lemma wire_bytes_compact b : wire_bytes b → wire_cbytes b.
Proof. unfold wire_bytes, wire_cbytes. lia. Qed.
#[export] Hint Resolve wire_bytes_compact : wire.
#[export] Hint Extern 5 (in_s _ _) => solve [vm_compute; split; congruence] : wire.
#[export] Hint Extern 5 (in_u _ _) => solve [vm_compute; split; congruence] : wire.

(** ** Arrays *)
Section arrays.
Context `{Allocator} {T : Type} (P : T → Prop).
Implicit Types l : list T.

(** What an array field can carry: the length has to fit, and the reader has
    to get the memory. *)
Definition arr_ok (l : list T) : Prop := zlen l < 2 ^ 31 ∧ grants T (zlen l) = true ∧ Forall P l.

#[export] Instance arr_ok_dec `{!∀ x, Decision (P x)} l : Decision (arr_ok l).
Proof. unfold arr_ok. apply _. Defined.

Lemma reads_items body f (g : T → T) l : (∀ x, P x → Reads body (f x) (g x)) → Forall P l →
  Reads (read_n (length l) body) (put_items f l) (g <$> l).
Proof.
  unfold put_items. intros Hbody. induction l as [|x l IH]; intros Hl; [apply reads_ret|].
  apply Forall_cons in Hl as [Hx Hl]. cbn [length read_n]. rewrite !fmap_cons. cbn [concat].
  eapply reads_bind; [by apply Hbody|]. rewrite <- (app_nil_r (concat _)).
  eapply reads_bind; [by apply IH|]. apply reads_ret.
Qed.

Lemma reads_vec body f (g : T → T) l : arr_ok l → (∀ x, P x → Reads body (f x) (g x)) →
  Reads (read_vec body (zlen l)) (put_items f l) (g <$> l).
Proof.
  intros (_ & Hg & Hl) Hb k. unfold read_vec, with_capacity. unfold mbind, reader_bind. rewrite Hg.
  unfold zlen. rewrite Nat2Z.id. by apply reads_items.
Qed.

Section counts.
Context {A : Type} (vec : Z → decoder A) (f : T → bytes) (l : list T) (y : A).
Hypothesis Hl : arr_ok l.
Hypothesis Hvec : Reads (vec (zlen l)) (put_items f l) y.

Lemma reads_count : Reads get_i32 (put_32 (i32 (zlen l))) (zlen l).
Proof using Hl.
  assert (in_s 32 (zlen l)).
  { destruct Hl as [? _]. pose proof (zlen_nonneg l). unfold in_s. change (32 - 1) with 31. lia. }
  rewrite wrap_s_small by done. by apply reads_i32.
Qed.

Lemma count_u64 : u64 (zlen l) = zlen l.
Proof using Hl. destruct Hl as [? _]. pose proof (zlen_nonneg l). apply wrap_u_small. unfold in_u. lia. Qed.

Lemma put_array_len : 4 ≤ zlen (put_array f l).
Proof. unfold put_array. pose proof (zlen_nonneg (put_items f l)). lens. lia. Qed.

Lemma reads_array : Reads (read_array vec) (put_array f l) y.
Proof using Hl Hvec. eapply reads_bind; [apply reads_count|]. by rewrite count_u64. Qed.

Lemma reads_array_some : Reads (read_array_opt vec) (put_array_opt f (Some l)) (Some y).
Proof using Hl Hvec.
  eapply reads_bind; [apply reads_count|]. pose proof (zlen_nonneg l).
  rewrite decide_False by lia. rewrite <- (app_nil_r (put_items _ _)).
  eapply reads_bind; [done|]. apply reads_ret.
Qed.

Lemma reads_array_checked trunc neg : Reads (read_array_checked trunc neg vec) (put_array f l) y.
Proof using Hl Hvec.
  apply reads_require; [apply put_array_len|]. pose proof (zlen_nonneg l).
  eapply reads_bind; [apply reads_count|]. by rewrite decide_False by lia.
Qed.

Lemma reads_array_clamped trunc : Reads (read_array_clamped trunc vec) (put_array f l) y.
Proof using Hl Hvec.
  apply reads_require; [apply put_array_len|]. pose proof (zlen_nonneg l).
  eapply reads_bind; [apply reads_count|]. by rewrite decide_False by lia.
Qed.

Lemma reads_array_v v trunc : Reads (read_array_v v trunc vec) (put_array_v v f l) y.
Proof using Hl Hvec.
  pose proof (zlen_nonneg l). destruct Hl as [? _]. unfold put_array_v.
  eapply reads_bind; [|done]. case_decide.
  - replace (zlen l) with (Z.max (zlen l + 1 - 1) 0) at 2 by lia.
    apply (reads_map _ (λ n, Z.max (n - 1) 0)), reads_uvarint. unfold in_u. lia.
  - apply reads_require; [by lens|]. rewrite <- count_u64 at 2.
    apply (reads_map _ (λ n, u64 n)), reads_count.
Qed.
End counts.
End arrays.

Lemma omap_some {A} (l : list A) : omap id (Some <$> l) = l.
Proof. induction l as [|x l IH]; [done|]. cbn. by rewrite IH. Qed.

Lemma reads_string_items l : Forall wire_string l →
  Reads (read_n (length l) read_string) (put_items (λ s, write_string (Some s)) l) (Some <$> l).
Proof.
  intros Hl. replace (put_items (λ s, write_string (Some s)) l) with (put_items write_string (Some <$> l)).
  2: { unfold put_items. by rewrite <- list_fmap_compose. }
  pose proof (reads_items (opt_all wire_string) read_string write_string id (Some <$> l)) as Hr.
  rewrite length_fmap, list_fmap_id in Hr. apply Hr; [intros; by apply reads_string|].
  by apply Forall_fmap.
Qed.

Lemma reads_strings `{Allocator} l : arr_ok wire_string l →
  Reads (read_strings (zlen l)) (put_items (λ s, write_string (Some s)) l) l.
Proof.
  intros (_ & Hg & Hl) k. unfold read_strings, with_capacity. unfold mbind at 1, reader_bind at 1.
  rewrite Hg. unfold zlen. rewrite Nat2Z.id.
  erewrite reader_bind_ok by (by apply reads_string_items).
  unfold mret, reader_ret. by rewrite omap_some.
Qed.

Lemma reads_array_none `{Allocator} {A B} (vec : Z → decoder A) (f : B → bytes) :
  Reads (read_array_opt vec) (put_array_opt f None) None.
Proof.
  unfold put_array_opt. rewrite <- (app_nil_r (put_32 _)).
  eapply reads_bind; [apply reads_i32; vm_compute; split; congruence|]. apply reads_ret.
Qed.

#[export] Hint Resolve reads_vec reads_array reads_array_some reads_array_none reads_array_checked
  reads_array_clamped reads_array_v reads_strings : wire.

Lemma fmap_same {A} (l : list A) : (λ x, x) <$> l = l.
Proof. apply list_fmap_id. Qed.

(** Reading a message field by field. *)
Lemma zlen_put_error e : zlen (put_error e) = 2.
Proof. by destruct e. Qed.
Lemma zlen_put_bool b : zlen (put_bool b) = 1.
Proof. by destruct b. Qed.

Ltac reads_len :=
  rewrite ?zlen_app, ?zlen_to_be, ?zlen_put_error, ?zlen_put_bool;
  repeat match goal with |- context [zlen ?l] =>
    lazymatch goal with H : 0 ≤ zlen l |- _ => fail | _ => pose proof (zlen_nonneg l) end end; lia.
(** A checked fixed-width read. *)
Lemma reads_checked {A} n msg (m : decoder A) w x :
  n ≤ zlen w → Reads m w x → Reads (require n msg ≫= λ _, m) w x.
Proof. apply (reads_require n msg (λ _, m)). Qed.
#[export] Hint Resolve reads_checked : wire.
#[export] Hint Extern 3 (_ ≤ zlen _) => reads_len : wire.

Ltac reads_done :=
  apply reads_ret_eq;
  first [reflexivity | rewrite ?fmap_same; reflexivity].
Ltac reads_field := first [solve [typeclasses eauto with wire] | eapply reads_when; solve [reads]]
with reads_step :=
  lazymatch goal with
  | |- Reads (mret _) _ _ => solve [reads_done]
  | |- Reads (mbind _ (require _ _)) _ _ => eapply reads_require; [reads_len|]
  | |- Reads (mbind _ _) _ _ =>
      first [eapply reads_bind; [reads_field|] | eapply reads_bind_nil; [reads_field|]]
  | |- _ => solve [typeclasses eauto with wire]
  end
with reads :=
  match goal with |- Reads ?m ?w ?x => rewrite <- (app_nil_r w) end;
  rewrite <- ?app_assoc; repeat (reads_step; cbv beta iota).

(** The round trip of a structure, from those of its parts. *)
Tactic Notation "codec" reference(d) reference(e) reference(o) :=
  unfold d, e, o; simpl; intros; destruct_and?; reads.
