(* ===== verification/MsgMeta.v ===== *)
(** * ApiVersions, metadata and find-coordinator messages

    The codecs of API keys 18, 3 and 10 of
    [crates/oxidemq-protocol/src/messages.rs], laid out as in [MsgData.v]. *)

From Stdlib Require Import Strings.Byte.
From stdpp Require Import base numbers list strings.
From S2P Require Import Prelude Bytes CoreTypes KafkaWire MessageTypes MsgCodec.

Section codecs.
Context `{Allocator}.

(** ** ApiVersions (API key 18) *)
Record ApiVersionKey := mkAVK { avk_api_key : Z; avk_min_version : Z; avk_max_version : Z }.
Record ApiVersionsRequest := mkApiVersionsReq {
  avq_client_software_name : option string; avq_client_software_version : option string }.
Record ApiVersionsResponse := mkApiVersionsResp {
  avs_error_code : KafkaErrorCode; avs_api_keys : list ApiVersionKey; avs_throttle_time_ms : Z }.

Definition decode_ApiVersionsRequest (version : Z) : decoder ApiVersionsRequest :=
  if decide (version ≥ 3) then
    name ← read_compact_string; ver ← read_compact_string; _ ← read_unsigned_varint;
    mret (mkApiVersionsReq name ver)
  else mret (mkApiVersionsReq None None).
Definition encode_ApiVersionsRequest (version : Z) (m : ApiVersionsRequest) : bytes :=
  put_when (version ≥ 3)
    (write_compact_string (avq_client_software_name m)
       ++ write_compact_string (avq_client_software_version m) ++ write_unsigned_varint 0).

(** The APIs and version ranges the broker advertises. *)
Definition default_supported : ApiVersionsResponse :=
  mkApiVersionsResp E_None
    [mkAVK 0 0 7; mkAVK 1 0 6; mkAVK 2 0 5; mkAVK 3 0 7; mkAVK 8 0 2;
     mkAVK 9 0 5; mkAVK 10 0 2; mkAVK 11 0 5; mkAVK 12 0 3; mkAVK 13 0 3;
     mkAVK 14 0 3; mkAVK 15 0 2; mkAVK 16 0 2; mkAVK 17 0 1; mkAVK 18 0 3;
     mkAVK 19 0 4; mkAVK 20 0 3; mkAVK 21 0 2; mkAVK 22 0 4; mkAVK 24 0 3;
     mkAVK 25 0 3; mkAVK 26 0 3; mkAVK 29 0 2; mkAVK 30 0 2; mkAVK 31 0 2;
     mkAVK 32 0 2; mkAVK 33 0 1; mkAVK 36 0 2; mkAVK 37 0 2; mkAVK 42 0 2] 0.

Definition encode_ApiVersionKey (version : Z) (k : ApiVersionKey) : bytes :=
  put_16 (avk_api_key k) ++ put_16 (avk_min_version k) ++ put_16 (avk_max_version k)
    ++ put_when (version ≥ 3) (write_unsigned_varint 0).
Definition decode_ApiVersionKey (version : Z) : decoder ApiVersionKey :=
  api_key ← get_i16; min_version ← get_i16; max_version ← get_i16;
  when (version ≥ 3) read_unsigned_varint 0 ≫= λ _,
  mret (mkAVK api_key min_version max_version).

Definition encode_ApiVersionsResponse (version : Z) (m : ApiVersionsResponse) : bytes :=
  put_error (avs_error_code m)
    ++ if decide (version ≥ 3) then
         write_unsigned_varint (zlen (avs_api_keys m) + 1)
           ++ put_items (encode_ApiVersionKey version) (avs_api_keys m)
           ++ put_32 (avs_throttle_time_ms m) ++ write_unsigned_varint 0
       else
         put_array (encode_ApiVersionKey version) (avs_api_keys m)
           ++ put_when (version ≥ 1) (put_32 (avs_throttle_time_ms m)).
Definition decode_ApiVersionsResponse (version : Z) : decoder ApiVersionsResponse :=
  error_code ← get_error;
  if decide (version ≥ 3) then
    count ← read_unsigned_varint;
    api_keys ← (if decide (count > 0)
                then read_n (Z.to_nat (count - 1)) (decode_ApiVersionKey version) else mret []);
    throttle_time_ms ← get_i32; _ ← read_unsigned_varint;
    mret (mkApiVersionsResp error_code api_keys throttle_time_ms)
  else
    count ← get_i32;
    api_keys ← read_n (Z.to_nat (u64 count)) (decode_ApiVersionKey version);
    throttle_time_ms ← when (version ≥ 1) get_i32 0;
    mret (mkApiVersionsResp error_code api_keys throttle_time_ms).

(** ** Metadata (API key 3) *)
Record MetadataRequest := mkMetaReq {
  mq_topics : option (list string); mq_allow_auto_topic_creation : bool }.

(** An empty body is the request for all topics without auto-creation. *)
Definition decode_MetadataRequest (version : Z) : decoder MetadataRequest :=
  n ← remaining;
  if decide (n < 4) then mret (mkMetaReq None false) else
  topics ← read_array_opt read_strings;
  allow_auto ← read_trailing_bool true;
  mret (mkMetaReq topics allow_auto).
Definition encode_MetadataRequest (version : Z) (m : MetadataRequest) : bytes :=
  put_array_opt (λ t, write_string (Some t)) (mq_topics m) ++ put_bool (mq_allow_auto_topic_creation m).

Definition encode_BrokerMetadata (version : Z) (b : BrokerMetadata) : bytes :=
  put_32 (bm_node_id b) ++ write_string (Some (bm_host b)) ++ put_32 (bm_port b)
    ++ put_when (version ≥ 1) (write_string (bm_rack b)).
Definition decode_BrokerMetadata (version : Z) : decoder BrokerMetadata :=
  node_id ← get_i32; host ← read_str; port ← get_i32;
  rack ← when (version ≥ 1) read_string None;
  mret (mkBrokerMeta node_id host port rack).

Definition encode_PartitionMetadata (version : Z) (p : PartitionMetadata) : bytes :=
  put_error (pm_error_code p) ++ put_32 (pm_partition_index p) ++ put_32 (pm_leader_id p)
    ++ put_when (version ≥ 7) (put_32 (pm_leader_epoch p))
    ++ put_array put_32 (pm_replica_nodes p) ++ put_array put_32 (pm_isr_nodes p)
    ++ put_when (version ≥ 5) (put_32 0).
Definition decode_PartitionMetadata (version : Z) : decoder PartitionMetadata :=
  error_code ← get_error; partition_index ← get_i32; leader_id ← get_i32;
  leader_epoch ← when (version ≥ 7) get_i32 0;
  replica_nodes ← read_array (read_vec get_i32);
  isr_nodes ← read_array (read_vec get_i32);
  when (version ≥ 5)
    (offline_count ← get_i32; read_n (Z.to_nat (u64 offline_count)) get_i32) [] ≫= λ _,
  mret (mkPartMeta error_code partition_index leader_id leader_epoch replica_nodes isr_nodes).

Definition encode_TopicMetadata (version : Z) (t : TopicMetadata) : bytes :=
  put_error (tm_error_code t) ++ write_string (Some (tm_name t))
    ++ put_when (version ≥ 1) (put_bool (tm_is_internal t))
    ++ put_array (encode_PartitionMetadata version) (tm_partitions t).
Definition decode_TopicMetadata (version : Z) : decoder TopicMetadata :=
  error_code ← get_error; name ← read_str;
  is_internal ← when (version ≥ 1) get_bool false;
  partitions ← read_array (read_vec (decode_PartitionMetadata version));
  mret (mkTopicMeta error_code name is_internal partitions).

Definition encode_MetadataResponse (version : Z) (m : MetadataResponse) : bytes :=
  put_when (version ≥ 3) (put_32 (mr_throttle_time_ms m))
    ++ put_array (encode_BrokerMetadata version) (mr_brokers m)
    ++ put_when (version ≥ 2) (write_string (mr_cluster_id m))
    ++ put_when (version ≥ 1) (put_32 (mr_controller_id m))
    ++ put_array (encode_TopicMetadata version) (mr_topics m).
Definition decode_MetadataResponse (version : Z) : decoder MetadataResponse :=
  throttle_time_ms ← when (version ≥ 3) get_i32 0;
  brokers ← read_array (read_vec (decode_BrokerMetadata version));
  cluster_id ← when (version ≥ 2) read_string None;
  controller_id ← when (version ≥ 1) get_i32 0;
  topics ← read_array (read_vec (decode_TopicMetadata version));
  mret (mkMetaResp throttle_time_ms brokers cluster_id controller_id topics).

(** ** FindCoordinator (API key 10) *)
Record FindCoordinatorRequest := mkFindCoordReq { fcq_key : string; fcq_key_type : Z }.
Record FindCoordinatorResponse := mkFindCoordResp {
  fcs_throttle_time_ms : Z; fcs_error_code : KafkaErrorCode; fcs_error_message : option string;
  fcs_node_id : Z; fcs_host : string; fcs_port : Z }.

Definition decode_FindCoordinatorRequest (version : Z) : decoder FindCoordinatorRequest :=
  key ← read_str; key_type ← when (version ≥ 1) get_i8 0; mret (mkFindCoordReq key key_type).
Definition encode_FindCoordinatorRequest (version : Z) (m : FindCoordinatorRequest) : bytes :=
  write_string (Some (fcq_key m)) ++ put_when (version ≥ 1) (put_8 (fcq_key_type m)).

Definition encode_FindCoordinatorResponse (version : Z) (m : FindCoordinatorResponse) : bytes :=
  put_when (version ≥ 1) (put_32 (fcs_throttle_time_ms m)) ++ put_error (fcs_error_code m)
    ++ put_when (version ≥ 1) (write_string (fcs_error_message m)) ++ put_32 (fcs_node_id m)
    ++ write_string (Some (fcs_host m)) ++ put_32 (fcs_port m).
Definition decode_FindCoordinatorResponse (version : Z) : decoder FindCoordinatorResponse :=
  throttle_time_ms ← when (version ≥ 1) get_i32 0;
  error_code ← get_error;
  error_message ← when (version ≥ 1) read_string None;
  node_id ← get_i32; host ← read_str; port ← get_i32;
  mret (mkFindCoordResp throttle_time_ms error_code error_message node_id host port).

(** ** What the fields can carry, what the other side sees, and round trips *)
Lemma reads_loop {T} (P : T → Prop) body f (g : T → T) l n : arr_ok P l → n = zlen l →
  (∀ x, P x → Reads body (f x) (g x)) → Reads (read_n (Z.to_nat n) body) (put_items f l) (g <$> l).
Proof. intros (_ & _ & Hl) -> Hb. unfold zlen. rewrite Nat2Z.id. by apply (reads_items P). Qed.

(** A non-negative count of zero items. *)
Lemma reads_none {T} (body : decoder T) : Reads (n ← get_i32; read_n (Z.to_nat (u64 n)) body) (put_32 0) [].
Proof. done. Qed.
#[local] Hint Resolve reads_none : wire.

Definition ApiVersionKey_ok (m : ApiVersionKey) : Prop :=
  in_s 16 (avk_api_key m) ∧ in_s 16 (avk_min_version m) ∧ in_s 16 (avk_max_version m).
#[export] Instance ApiVersionKey_ok_dec m : Decision (ApiVersionKey_ok m).
Proof. unfold ApiVersionKey_ok. apply _. Defined.
Definition ApiVersionsRequest_ok (m : ApiVersionsRequest) : Prop :=
  opt_all wire_cstring (avq_client_software_name m)
  ∧ opt_all wire_cstring (avq_client_software_version m).
#[export] Instance ApiVersionsRequest_ok_dec m : Decision (ApiVersionsRequest_ok m).
Proof. unfold ApiVersionsRequest_ok. apply _. Defined.
Definition ApiVersionsResponse_ok (m : ApiVersionsResponse) : Prop :=
  arr_ok ApiVersionKey_ok (avs_api_keys m) ∧ in_s 32 (avs_throttle_time_ms m).
#[export] Instance ApiVersionsResponse_ok_dec m : Decision (ApiVersionsResponse_ok m).
Proof. unfold ApiVersionsResponse_ok. apply _. Defined.
Definition MetadataRequest_ok (m : MetadataRequest) : Prop :=
  opt_all (arr_ok wire_string) (mq_topics m).
#[export] Instance MetadataRequest_ok_dec m : Decision (MetadataRequest_ok m).
Proof. unfold MetadataRequest_ok. apply _. Defined.
Definition BrokerMetadata_ok (m : BrokerMetadata) : Prop :=
  in_s 32 (bm_node_id m) ∧ wire_string (bm_host m) ∧ in_s 32 (bm_port m)
  ∧ opt_all wire_string (bm_rack m).
#[export] Instance BrokerMetadata_ok_dec m : Decision (BrokerMetadata_ok m).
Proof. unfold BrokerMetadata_ok. apply _. Defined.
Definition PartitionMetadata_ok (m : PartitionMetadata) : Prop :=
  in_s 32 (pm_partition_index m) ∧ in_s 32 (pm_leader_id m) ∧ in_s 32 (pm_leader_epoch m)
  ∧ arr_ok (in_s 32) (pm_replica_nodes m) ∧ arr_ok (in_s 32) (pm_isr_nodes m).
#[export] Instance PartitionMetadata_ok_dec m : Decision (PartitionMetadata_ok m).
Proof. unfold PartitionMetadata_ok. apply _. Defined.
Definition TopicMetadata_ok (m : TopicMetadata) : Prop :=
  wire_string (tm_name m) ∧ arr_ok PartitionMetadata_ok (tm_partitions m).
#[export] Instance TopicMetadata_ok_dec m : Decision (TopicMetadata_ok m).
Proof. unfold TopicMetadata_ok. apply _. Defined.
Definition MetadataResponse_ok (m : MetadataResponse) : Prop :=
  in_s 32 (mr_throttle_time_ms m) ∧ arr_ok BrokerMetadata_ok (mr_brokers m)
  ∧ opt_all wire_string (mr_cluster_id m) ∧ in_s 32 (mr_controller_id m)
  ∧ arr_ok TopicMetadata_ok (mr_topics m).
#[export] Instance MetadataResponse_ok_dec m : Decision (MetadataResponse_ok m).
Proof. unfold MetadataResponse_ok. apply _. Defined.
Definition FindCoordinatorRequest_ok (m : FindCoordinatorRequest) : Prop :=
  wire_string (fcq_key m) ∧ in_s 8 (fcq_key_type m).
#[export] Instance FindCoordinatorRequest_ok_dec m : Decision (FindCoordinatorRequest_ok m).
Proof. unfold FindCoordinatorRequest_ok. apply _. Defined.
Definition FindCoordinatorResponse_ok (m : FindCoordinatorResponse) : Prop :=
  in_s 32 (fcs_throttle_time_ms m) ∧ opt_all wire_string (fcs_error_message m)
  ∧ in_s 32 (fcs_node_id m) ∧ wire_string (fcs_host m) ∧ in_s 32 (fcs_port m).
#[export] Instance FindCoordinatorResponse_ok_dec m : Decision (FindCoordinatorResponse_ok m).
Proof. unfold FindCoordinatorResponse_ok. apply _. Defined.

Definition seen_ApiVersionsRequest (version : Z) (m : ApiVersionsRequest) : ApiVersionsRequest :=
  mkApiVersionsReq (if decide (version ≥ 3) then avq_client_software_name m else None)
    (if decide (version ≥ 3) then avq_client_software_version m else None).
Definition seen_ApiVersionsResponse (version : Z) (m : ApiVersionsResponse) : ApiVersionsResponse :=
  mkApiVersionsResp (avs_error_code m) (avs_api_keys m)
    (if decide (version ≥ 1) then avs_throttle_time_ms m else 0).
Definition seen_BrokerMetadata (version : Z) (m : BrokerMetadata) : BrokerMetadata :=
  mkBrokerMeta (bm_node_id m) (bm_host m) (bm_port m)
    (if decide (version ≥ 1) then bm_rack m else None).
Definition seen_PartitionMetadata (version : Z) (m : PartitionMetadata) : PartitionMetadata :=
  mkPartMeta (pm_error_code m) (pm_partition_index m) (pm_leader_id m)
    (if decide (version ≥ 7) then pm_leader_epoch m else 0) (pm_replica_nodes m)
    (pm_isr_nodes m).
Definition seen_TopicMetadata (version : Z) (m : TopicMetadata) : TopicMetadata :=
  mkTopicMeta (tm_error_code m) (tm_name m)
    (if decide (version ≥ 1) then tm_is_internal m else false)
    (seen_PartitionMetadata version <$> tm_partitions m).
Definition seen_MetadataResponse (version : Z) (m : MetadataResponse) : MetadataResponse :=
  mkMetaResp (if decide (version ≥ 3) then mr_throttle_time_ms m else 0)
    (seen_BrokerMetadata version <$> mr_brokers m)
    (if decide (version ≥ 2) then mr_cluster_id m else None)
    (if decide (version ≥ 1) then mr_controller_id m else 0)
    (seen_TopicMetadata version <$> mr_topics m).
Definition seen_FindCoordinatorRequest (version : Z) (m : FindCoordinatorRequest) : FindCoordinatorRequest :=
  mkFindCoordReq (fcq_key m) (if decide (version ≥ 1) then fcq_key_type m else 0).
Definition seen_FindCoordinatorResponse (version : Z) (m : FindCoordinatorResponse) : FindCoordinatorResponse :=
  mkFindCoordResp (if decide (version ≥ 1) then fcs_throttle_time_ms m else 0) (fcs_error_code m)
    (if decide (version ≥ 1) then fcs_error_message m else None) (fcs_node_id m)
    (fcs_host m) (fcs_port m).

Lemma ApiVersionKey_reads version m : ApiVersionKey_ok m →
  Reads (decode_ApiVersionKey version) (encode_ApiVersionKey version m) m.
Proof. destruct m. codec decode_ApiVersionKey encode_ApiVersionKey ApiVersionKey_ok. Qed.
#[local] Hint Resolve ApiVersionKey_reads : wire.
Lemma ApiVersionsRequest_reads version m : ApiVersionsRequest_ok m →
  Reads (decode_ApiVersionsRequest version) (encode_ApiVersionsRequest version m) (seen_ApiVersionsRequest version m).
Proof. destruct m. unfold decode_ApiVersionsRequest, encode_ApiVersionsRequest, ApiVersionsRequest_ok, seen_ApiVersionsRequest. simpl. intros [? ?]. case_decide; reads. Qed.
#[local] Hint Resolve ApiVersionsRequest_reads : wire.
Lemma ApiVersionsResponse_reads version m : ApiVersionsResponse_ok m →
  Reads (decode_ApiVersionsResponse version) (encode_ApiVersionsResponse version m) (seen_ApiVersionsResponse version m).
Proof.
  destruct m as [e ks t]. unfold decode_ApiVersionsResponse, encode_ApiVersionsResponse, ApiVersionsResponse_ok.
  simpl. intros [Hk Ht]. pose proof (zlen_nonneg ks). destruct Hk as [Hlen ?] eqn:HE; clear HE.
  eapply reads_bind; [apply reads_error|]. unfold seen_ApiVersionsResponse. simpl. case_decide.
  - eapply reads_bind; [apply reads_uvarint; unfold in_u; lia|]. rewrite decide_True by lia.
    eapply reads_bind; [eapply (reads_loop _ _ _ (λ x, x)); [done|lia|typeclasses eauto with wire]|].
    rewrite decide_True by lia. reads.
  - unfold put_array. rewrite <- app_assoc. eapply reads_bind; [by eapply reads_count|].
    eapply reads_bind; [eapply (reads_loop _ _ _ (λ x, x)); [done|by eapply count_u64|typeclasses eauto with wire]|].
    reads.
Qed.
#[local] Hint Resolve ApiVersionsResponse_reads : wire.
Lemma MetadataRequest_reads version m : MetadataRequest_ok m →
  Reads (decode_MetadataRequest version) (encode_MetadataRequest version m) m.
Proof.
  destruct m as [ts b]. unfold MetadataRequest_ok. simpl. intros Hts k.
  unfold decode_MetadataRequest, encode_MetadataRequest. simpl. rewrite read_remaining, <- app_assoc.
  pose proof (zlen_nonneg k). rewrite decide_False.
  2: { assert (4 ≤ zlen (put_array_opt (λ t, write_string (Some t)) ts)).
    { destruct ts; [apply put_array_len|unfold put_array_opt; rewrite zlen_to_be; lia]. }
    pose proof (zlen_nonneg (put_bool b)). rewrite !zlen_app. lia. }
  erewrite reader_bind_ok.
  2: { destruct ts as [ts|]; [eapply (reads_array_some _ _ _ ts ts)|apply reads_array_none]; [done|by apply reads_strings]. }
  by erewrite reader_bind_ok by apply reads_trailing_bool.
Qed.
#[local] Hint Resolve MetadataRequest_reads : wire.
Lemma BrokerMetadata_reads version m : BrokerMetadata_ok m →
  Reads (decode_BrokerMetadata version) (encode_BrokerMetadata version m) (seen_BrokerMetadata version m).
Proof. destruct m. codec decode_BrokerMetadata encode_BrokerMetadata BrokerMetadata_ok. Qed.
#[local] Hint Resolve BrokerMetadata_reads : wire.
Lemma PartitionMetadata_reads version m : PartitionMetadata_ok m →
  Reads (decode_PartitionMetadata version) (encode_PartitionMetadata version m) (seen_PartitionMetadata version m).
Proof. destruct m. codec decode_PartitionMetadata encode_PartitionMetadata PartitionMetadata_ok. Qed.
#[local] Hint Resolve PartitionMetadata_reads : wire.
Lemma TopicMetadata_reads version m : TopicMetadata_ok m →
  Reads (decode_TopicMetadata version) (encode_TopicMetadata version m) (seen_TopicMetadata version m).
Proof. destruct m. codec decode_TopicMetadata encode_TopicMetadata TopicMetadata_ok. Qed.
#[local] Hint Resolve TopicMetadata_reads : wire.
Lemma MetadataResponse_reads version m : MetadataResponse_ok m →
  Reads (decode_MetadataResponse version) (encode_MetadataResponse version m) (seen_MetadataResponse version m).
Proof. destruct m. codec decode_MetadataResponse encode_MetadataResponse MetadataResponse_ok. Qed.
#[local] Hint Resolve MetadataResponse_reads : wire.
Lemma FindCoordinatorRequest_reads version m : FindCoordinatorRequest_ok m →
  Reads (decode_FindCoordinatorRequest version) (encode_FindCoordinatorRequest version m) (seen_FindCoordinatorRequest version m).
Proof. destruct m. codec decode_FindCoordinatorRequest encode_FindCoordinatorRequest FindCoordinatorRequest_ok. Qed.
#[local] Hint Resolve FindCoordinatorRequest_reads : wire.
Lemma FindCoordinatorResponse_reads version m : FindCoordinatorResponse_ok m →
  Reads (decode_FindCoordinatorResponse version) (encode_FindCoordinatorResponse version m) (seen_FindCoordinatorResponse version m).
Proof. destruct m. codec decode_FindCoordinatorResponse encode_FindCoordinatorResponse FindCoordinatorResponse_ok. Qed.
#[local] Hint Resolve FindCoordinatorResponse_reads : wire.
End codecs.
