(* ===== verification/MsgData.v ===== *)
(** * Produce, fetch and list-offsets messages

    The codecs of API keys 0, 1 and 2 of
    [crates/oxidemq-protocol/src/messages.rs].  For every structure there is
    its encoder and decoder at a protocol version, [X_ok], what its fields can
    carry on the wire, and, where some versions omit fields, [seen_X], the
    structure as the other side gets it. *)

From Stdlib Require Import Strings.Byte.
From stdpp Require Import base numbers list strings.
From S2P Require Import Prelude Bytes CoreTypes KafkaWire MsgCodec.

Section codecs.
Context `{Allocator}.

(** ** Produce (API key 0) *)
Record PartitionProduceData := mkPPD { ppd_partition : Z; ppd_records : bytes }.
Record TopicProduceData := mkTPD { tpd_topic : string; tpd_partitions : list PartitionProduceData }.
Record ProduceRequest := mkProduceReq {
  pq_acks : Z; pq_timeout_ms : Z; pq_topic_data : list TopicProduceData }.

Definition decode_PartitionProduceData : decoder PartitionProduceData :=
  partition ← get_i32; records ← read_blob; mret (mkPPD partition records).
Definition encode_PartitionProduceData (p : PartitionProduceData) : bytes :=
  put_32 (ppd_partition p) ++ write_bytes (Some (ppd_records p)).

Definition decode_TopicProduceData : decoder TopicProduceData :=
  topic ← read_str; partitions ← read_array (read_vec decode_PartitionProduceData);
  mret (mkTPD topic partitions).
Definition encode_TopicProduceData (t : TopicProduceData) : bytes :=
  write_string (Some (tpd_topic t)) ++ put_array encode_PartitionProduceData (tpd_partitions t).

Definition decode_ProduceRequest (version : Z) : decoder ProduceRequest :=
  when (version ≥ 3) (read_string) None ≫= λ _,
  acks ← get_i16; timeout_ms ← get_i32;
  topic_data ← read_array (read_vec decode_TopicProduceData);
  mret (mkProduceReq acks timeout_ms topic_data).
Definition encode_ProduceRequest (version : Z) (m : ProduceRequest) : bytes :=
  put_when (version ≥ 3) (write_string None) ++ put_16 (pq_acks m) ++ put_32 (pq_timeout_ms m)
    ++ put_array encode_TopicProduceData (pq_topic_data m).

Record PartitionProduceResponse := mkPPR {
  ppr_partition : Z; ppr_error_code : KafkaErrorCode; ppr_base_offset : Z;
  ppr_log_append_time_ms : Z; ppr_log_start_offset : Z }.
Record TopicProduceResponse := mkTPR {
  tpr_topic : string; tpr_partitions : list PartitionProduceResponse }.
Record ProduceResponse := mkProduceResp {
  pr_responses : list TopicProduceResponse; pr_throttle_time_ms : Z }.

Definition encode_PartitionProduceResponse (version : Z) (p : PartitionProduceResponse) : bytes :=
  put_32 (ppr_partition p) ++ put_error (ppr_error_code p) ++ put_64 (ppr_base_offset p)
    ++ put_when (version ≥ 2) (put_64 (ppr_log_append_time_ms p))
    ++ put_when (version ≥ 5) (put_64 (ppr_log_start_offset p)).
Definition decode_PartitionProduceResponse (version : Z) : decoder PartitionProduceResponse :=
  partition ← get_i32; error_code ← get_error; base_offset ← get_i64;
  log_append_time_ms ← when (version ≥ 2) get_i64 (-1);
  log_start_offset ← when (version ≥ 5) get_i64 0;
  mret (mkPPR partition error_code base_offset log_append_time_ms log_start_offset).

Definition encode_TopicProduceResponse (version : Z) (t : TopicProduceResponse) : bytes :=
  write_string (Some (tpr_topic t)) ++ put_array (encode_PartitionProduceResponse version) (tpr_partitions t).
Definition decode_TopicProduceResponse (version : Z) : decoder TopicProduceResponse :=
  topic ← read_str; partitions ← read_array (read_vec (decode_PartitionProduceResponse version));
  mret (mkTPR topic partitions).

Definition encode_ProduceResponse (version : Z) (m : ProduceResponse) : bytes :=
  put_array (encode_TopicProduceResponse version) (pr_responses m)
    ++ put_when (version ≥ 1) (put_32 (pr_throttle_time_ms m)).
Definition decode_ProduceResponse (version : Z) : decoder ProduceResponse :=
  responses ← read_array (read_vec (decode_TopicProduceResponse version));
  throttle_time_ms ← when (version ≥ 1) get_i32 0;
  mret (mkProduceResp responses throttle_time_ms).

(** ** Fetch (API key 1) *)
Record FetchPartition := mkFP { fp_partition : Z; fp_fetch_offset : Z; fp_partition_max_bytes : Z }.
Record FetchTopic := mkFT { ft_topic : string; ft_partitions : list FetchPartition }.
Record FetchRequest := mkFetchReq {
  fq_max_wait_ms : Z; fq_min_bytes : Z; fq_max_bytes : Z; fq_isolation_level : Z;
  fq_topics : list FetchTopic }.

Definition decode_FetchPartition (version : Z) : decoder FetchPartition :=
  partition ← get_i32;
  when (version ≥ 9) get_i32 0 ≫= λ _,
  fetch_offset ← get_i64;
  when (version ≥ 5) get_i64 0 ≫= λ _,
  partition_max_bytes ← get_i32;
  mret (mkFP partition fetch_offset partition_max_bytes).
Definition encode_FetchPartition (version : Z) (p : FetchPartition) : bytes :=
  put_32 (fp_partition p) ++ put_when (version ≥ 9) (put_32 (-1)) ++ put_64 (fp_fetch_offset p)
    ++ put_when (version ≥ 5) (put_64 0) ++ put_32 (fp_partition_max_bytes p).

Definition decode_FetchTopic (version : Z) : decoder FetchTopic :=
  topic ← read_str; partitions ← read_array (read_vec (decode_FetchPartition version));
  mret (mkFT topic partitions).
Definition encode_FetchTopic (version : Z) (t : FetchTopic) : bytes :=
  write_string (Some (ft_topic t)) ++ put_array (encode_FetchPartition version) (ft_partitions t).

Definition decode_FetchRequest (version : Z) : decoder FetchRequest :=
  _ ← get_i32; max_wait_ms ← get_i32; min_bytes ← get_i32;
  max_bytes ← when (version ≥ 3) get_i32 0x7FFFFFFF;
  isolation_level ← when (version ≥ 4) get_i8 0;
  when (version ≥ 7) (_ ← get_i32; _ ← get_i32; mret tt) tt ≫= λ _,
  topics ← read_array (read_vec (decode_FetchTopic version));
  mret (mkFetchReq max_wait_ms min_bytes max_bytes isolation_level topics).
Definition encode_FetchRequest (version : Z) (m : FetchRequest) : bytes :=
  put_32 (-1) ++ put_32 (fq_max_wait_ms m) ++ put_32 (fq_min_bytes m)
    ++ put_when (version ≥ 3) (put_32 (fq_max_bytes m))
    ++ put_when (version ≥ 4) (put_8 (fq_isolation_level m))
    ++ put_when (version ≥ 7) (put_32 0 ++ put_32 0)
    ++ put_array (encode_FetchTopic version) (fq_topics m).

Record FetchPartitionResponse := mkFPR {
  fpr_partition_index : Z; fpr_error_code : KafkaErrorCode; fpr_high_watermark : Z;
  fpr_last_stable_offset : Z; fpr_records : bytes }.
Record FetchTopicResponse := mkFTR {
  ftr_topic : string; ftr_partitions : list FetchPartitionResponse }.
Record FetchResponse := mkFetchResp {
  fs_throttle_time_ms : Z; fs_error_code : KafkaErrorCode;
  fs_responses : list FetchTopicResponse }.

Definition encode_FetchPartitionResponse (version : Z) (p : FetchPartitionResponse) : bytes :=
  put_32 (fpr_partition_index p) ++ put_error (fpr_error_code p) ++ put_64 (fpr_high_watermark p)
    ++ put_when (version ≥ 4) (put_64 (fpr_last_stable_offset p) ++ put_64 0 ++ put_32 (-1))
    ++ write_bytes (Some (fpr_records p)).
Definition decode_FetchPartitionResponse (version : Z) : decoder FetchPartitionResponse :=
  partition_index ← get_i32; error_code ← get_error; high_watermark ← get_i64;
  last_stable_offset ←
    when (version ≥ 4)
      (lso ← get_i64; _ ← get_i64; aborted_count ← get_i32;
       (if decide (aborted_count > 0)
        then read_n (Z.to_nat aborted_count) (_ ← get_i64; get_i64) else mret []) ≫= λ _,
       mret lso)
      high_watermark;
  records ← read_blob;
  mret (mkFPR partition_index error_code high_watermark last_stable_offset records).

Definition encode_FetchTopicResponse (version : Z) (t : FetchTopicResponse) : bytes :=
  write_string (Some (ftr_topic t)) ++ put_array (encode_FetchPartitionResponse version) (ftr_partitions t).
Definition decode_FetchTopicResponse (version : Z) : decoder FetchTopicResponse :=
  topic ← read_str; partitions ← read_array (read_vec (decode_FetchPartitionResponse version));
  mret (mkFTR topic partitions).

Definition encode_FetchResponse (version : Z) (m : FetchResponse) : bytes :=
  put_when (version ≥ 1) (put_32 (fs_throttle_time_ms m))
    ++ put_when (version ≥ 7) (put_error (fs_error_code m) ++ put_32 0)
    ++ put_array (encode_FetchTopicResponse version) (fs_responses m).
Definition decode_FetchResponse (version : Z) : decoder FetchResponse :=
  throttle_time_ms ← when (version ≥ 1) get_i32 0;
  error_code ← when (version ≥ 7) (code ← get_error; _ ← get_i32; mret code) E_None;
  responses ← read_array (read_vec (decode_FetchTopicResponse version));
  mret (mkFetchResp throttle_time_ms error_code responses).

(** ** ListOffsets (API key 2) *)
Record ListOffsetsPartition := mkLOP {
  lop_partition : Z; lop_current_leader_epoch : Z; lop_timestamp : Z }.
Record ListOffsetsTopic := mkLOT { lot_topic : string; lot_partitions : list ListOffsetsPartition }.
Record ListOffsetsRequest := mkListOffsetsReq {
  loq_replica_id : Z; loq_isolation_level : Z; loq_topics : list ListOffsetsTopic }.

Definition decode_ListOffsetsPartition (version : Z) : decoder ListOffsetsPartition :=
  partition ← get_i32; current_leader_epoch ← when (version ≥ 4) get_i32 (-1); timestamp ← get_i64;
  mret (mkLOP partition current_leader_epoch timestamp).
Definition encode_ListOffsetsPartition (version : Z) (p : ListOffsetsPartition) : bytes :=
  put_32 (lop_partition p) ++ put_when (version ≥ 4) (put_32 (lop_current_leader_epoch p))
    ++ put_64 (lop_timestamp p).

Definition decode_ListOffsetsTopic (version : Z) : decoder ListOffsetsTopic :=
  topic ← read_str; partitions ← read_array (read_vec (decode_ListOffsetsPartition version));
  mret (mkLOT topic partitions).
Definition encode_ListOffsetsTopic (version : Z) (t : ListOffsetsTopic) : bytes :=
  write_string (Some (lot_topic t)) ++ put_array (encode_ListOffsetsPartition version) (lot_partitions t).

Definition decode_ListOffsetsRequest (version : Z) : decoder ListOffsetsRequest :=
  replica_id ← get_i32; isolation_level ← when (version ≥ 2) get_i8 0;
  topics ← read_array (read_vec (decode_ListOffsetsTopic version));
  mret (mkListOffsetsReq replica_id isolation_level topics).
Definition encode_ListOffsetsRequest (version : Z) (m : ListOffsetsRequest) : bytes :=
  put_32 (loq_replica_id m) ++ put_when (version ≥ 2) (put_8 (loq_isolation_level m))
    ++ put_array (encode_ListOffsetsTopic version) (loq_topics m).

Record ListOffsetsPartitionResponse := mkLOPR {
  lopr_partition : Z; lopr_error_code : KafkaErrorCode; lopr_timestamp : Z; lopr_offset : Z;
  lopr_leader_epoch : Z }.
Record ListOffsetsTopicResponse := mkLOTR {
  lotr_topic : string; lotr_partitions : list ListOffsetsPartitionResponse }.
Record ListOffsetsResponse := mkListOffsetsResp {
  los_throttle_time_ms : Z; los_topics : list ListOffsetsTopicResponse }.

Definition encode_ListOffsetsPartitionResponse (version : Z) (p : ListOffsetsPartitionResponse) : bytes :=
  put_32 (lopr_partition p) ++ put_error (lopr_error_code p) ++ put_64 (lopr_timestamp p)
    ++ put_64 (lopr_offset p) ++ put_when (version ≥ 4) (put_32 (lopr_leader_epoch p)).
Definition decode_ListOffsetsPartitionResponse (version : Z) : decoder ListOffsetsPartitionResponse :=
  partition ← get_i32; error_code ← get_error; timestamp ← get_i64; offset ← get_i64;
  leader_epoch ← when (version ≥ 4) get_i32 (-1);
  mret (mkLOPR partition error_code timestamp offset leader_epoch).

Definition encode_ListOffsetsTopicResponse (version : Z) (t : ListOffsetsTopicResponse) : bytes :=
  write_string (Some (lotr_topic t))
    ++ put_array (encode_ListOffsetsPartitionResponse version) (lotr_partitions t).
Definition decode_ListOffsetsTopicResponse (version : Z) : decoder ListOffsetsTopicResponse :=
  topic ← read_str; partitions ← read_array (read_vec (decode_ListOffsetsPartitionResponse version));
  mret (mkLOTR topic partitions).

Definition encode_ListOffsetsResponse (version : Z) (m : ListOffsetsResponse) : bytes :=
  put_when (version ≥ 2) (put_32 (los_throttle_time_ms m))
    ++ put_array (encode_ListOffsetsTopicResponse version) (los_topics m).
Definition decode_ListOffsetsResponse (version : Z) : decoder ListOffsetsResponse :=
  throttle_time_ms ← when (version ≥ 2) get_i32 0;
  topics ← read_array (read_vec (decode_ListOffsetsTopicResponse version));
  mret (mkListOffsetsResp throttle_time_ms topics).

(** ** What the fields can carry, what the other side sees, and round trips *)
Definition PartitionProduceData_ok (m : PartitionProduceData) : Prop :=
  in_s 32 (ppd_partition m) ∧ wire_bytes (ppd_records m).
#[export] Instance PartitionProduceData_ok_dec m : Decision (PartitionProduceData_ok m).
Proof. unfold PartitionProduceData_ok. apply _. Defined.
Definition TopicProduceData_ok (m : TopicProduceData) : Prop :=
  wire_string (tpd_topic m) ∧ arr_ok PartitionProduceData_ok (tpd_partitions m).
#[export] Instance TopicProduceData_ok_dec m : Decision (TopicProduceData_ok m).
Proof. unfold TopicProduceData_ok. apply _. Defined.
Definition ProduceRequest_ok (m : ProduceRequest) : Prop :=
  in_s 16 (pq_acks m) ∧ in_s 32 (pq_timeout_ms m) ∧ arr_ok TopicProduceData_ok (pq_topic_data m).
#[export] Instance ProduceRequest_ok_dec m : Decision (ProduceRequest_ok m).
Proof. unfold ProduceRequest_ok. apply _. Defined.
Definition PartitionProduceResponse_ok (m : PartitionProduceResponse) : Prop :=
  in_s 32 (ppr_partition m) ∧ in_s 64 (ppr_base_offset m) ∧ in_s 64 (ppr_log_append_time_ms m)
  ∧ in_s 64 (ppr_log_start_offset m).
#[export] Instance PartitionProduceResponse_ok_dec m : Decision (PartitionProduceResponse_ok m).
Proof. unfold PartitionProduceResponse_ok. apply _. Defined.
Definition TopicProduceResponse_ok (m : TopicProduceResponse) : Prop :=
  wire_string (tpr_topic m) ∧ arr_ok PartitionProduceResponse_ok (tpr_partitions m).
#[export] Instance TopicProduceResponse_ok_dec m : Decision (TopicProduceResponse_ok m).
Proof. unfold TopicProduceResponse_ok. apply _. Defined.
Definition ProduceResponse_ok (m : ProduceResponse) : Prop :=
  arr_ok TopicProduceResponse_ok (pr_responses m) ∧ in_s 32 (pr_throttle_time_ms m).
#[export] Instance ProduceResponse_ok_dec m : Decision (ProduceResponse_ok m).
Proof. unfold ProduceResponse_ok. apply _. Defined.
Definition FetchPartition_ok (m : FetchPartition) : Prop :=
  in_s 32 (fp_partition m) ∧ in_s 64 (fp_fetch_offset m) ∧ in_s 32 (fp_partition_max_bytes m).
#[export] Instance FetchPartition_ok_dec m : Decision (FetchPartition_ok m).
Proof. unfold FetchPartition_ok. apply _. Defined.
Definition FetchTopic_ok (m : FetchTopic) : Prop :=
  wire_string (ft_topic m) ∧ arr_ok FetchPartition_ok (ft_partitions m).
#[export] Instance FetchTopic_ok_dec m : Decision (FetchTopic_ok m).
Proof. unfold FetchTopic_ok. apply _. Defined.
Definition FetchRequest_ok (m : FetchRequest) : Prop :=
  in_s 32 (fq_max_wait_ms m) ∧ in_s 32 (fq_min_bytes m) ∧ in_s 32 (fq_max_bytes m)
  ∧ in_s 8 (fq_isolation_level m) ∧ arr_ok FetchTopic_ok (fq_topics m).
#[export] Instance FetchRequest_ok_dec m : Decision (FetchRequest_ok m).
Proof. unfold FetchRequest_ok. apply _. Defined.
Definition FetchPartitionResponse_ok (m : FetchPartitionResponse) : Prop :=
  in_s 32 (fpr_partition_index m) ∧ in_s 64 (fpr_high_watermark m)
  ∧ in_s 64 (fpr_last_stable_offset m) ∧ wire_bytes (fpr_records m).
#[export] Instance FetchPartitionResponse_ok_dec m : Decision (FetchPartitionResponse_ok m).
Proof. unfold FetchPartitionResponse_ok. apply _. Defined.
Definition FetchTopicResponse_ok (m : FetchTopicResponse) : Prop :=
  wire_string (ftr_topic m) ∧ arr_ok FetchPartitionResponse_ok (ftr_partitions m).
#[export] Instance FetchTopicResponse_ok_dec m : Decision (FetchTopicResponse_ok m).
Proof. unfold FetchTopicResponse_ok. apply _. Defined.
Definition FetchResponse_ok (m : FetchResponse) : Prop :=
  in_s 32 (fs_throttle_time_ms m) ∧ arr_ok FetchTopicResponse_ok (fs_responses m).
#[export] Instance FetchResponse_ok_dec m : Decision (FetchResponse_ok m).
Proof. unfold FetchResponse_ok. apply _. Defined.
Definition ListOffsetsPartition_ok (m : ListOffsetsPartition) : Prop :=
  in_s 32 (lop_partition m) ∧ in_s 32 (lop_current_leader_epoch m) ∧ in_s 64 (lop_timestamp m).
#[export] Instance ListOffsetsPartition_ok_dec m : Decision (ListOffsetsPartition_ok m).
Proof. unfold ListOffsetsPartition_ok. apply _. Defined.
Definition ListOffsetsTopic_ok (m : ListOffsetsTopic) : Prop :=
  wire_string (lot_topic m) ∧ arr_ok ListOffsetsPartition_ok (lot_partitions m).
#[export] Instance ListOffsetsTopic_ok_dec m : Decision (ListOffsetsTopic_ok m).
Proof. unfold ListOffsetsTopic_ok. apply _. Defined.
Definition ListOffsetsRequest_ok (m : ListOffsetsRequest) : Prop :=
  in_s 32 (loq_replica_id m) ∧ in_s 8 (loq_isolation_level m)
  ∧ arr_ok ListOffsetsTopic_ok (loq_topics m).
#[export] Instance ListOffsetsRequest_ok_dec m : Decision (ListOffsetsRequest_ok m).
Proof. unfold ListOffsetsRequest_ok. apply _. Defined.
Definition ListOffsetsPartitionResponse_ok (m : ListOffsetsPartitionResponse) : Prop :=
  in_s 32 (lopr_partition m) ∧ in_s 64 (lopr_timestamp m) ∧ in_s 64 (lopr_offset m)
  ∧ in_s 32 (lopr_leader_epoch m).
#[export] Instance ListOffsetsPartitionResponse_ok_dec m : Decision (ListOffsetsPartitionResponse_ok m).
Proof. unfold ListOffsetsPartitionResponse_ok. apply _. Defined.
Definition ListOffsetsTopicResponse_ok (m : ListOffsetsTopicResponse) : Prop :=
  wire_string (lotr_topic m) ∧ arr_ok ListOffsetsPartitionResponse_ok (lotr_partitions m).
#[export] Instance ListOffsetsTopicResponse_ok_dec m : Decision (ListOffsetsTopicResponse_ok m).
Proof. unfold ListOffsetsTopicResponse_ok. apply _. Defined.
Definition ListOffsetsResponse_ok (m : ListOffsetsResponse) : Prop :=
  in_s 32 (los_throttle_time_ms m) ∧ arr_ok ListOffsetsTopicResponse_ok (los_topics m).
#[export] Instance ListOffsetsResponse_ok_dec m : Decision (ListOffsetsResponse_ok m).
Proof. unfold ListOffsetsResponse_ok. apply _. Defined.

Definition seen_PartitionProduceResponse (version : Z) (m : PartitionProduceResponse) : PartitionProduceResponse :=
  mkPPR (ppr_partition m) (ppr_error_code m) (ppr_base_offset m)
    (if decide (version ≥ 2) then ppr_log_append_time_ms m else -1)
    (if decide (version ≥ 5) then ppr_log_start_offset m else 0).
Definition seen_TopicProduceResponse (version : Z) (m : TopicProduceResponse) : TopicProduceResponse :=
  mkTPR (tpr_topic m) (seen_PartitionProduceResponse version <$> tpr_partitions m).
Definition seen_ProduceResponse (version : Z) (m : ProduceResponse) : ProduceResponse :=
  mkProduceResp (seen_TopicProduceResponse version <$> pr_responses m)
    (if decide (version ≥ 1) then pr_throttle_time_ms m else 0).
Definition seen_FetchRequest (version : Z) (m : FetchRequest) : FetchRequest :=
  mkFetchReq (fq_max_wait_ms m) (fq_min_bytes m)
    (if decide (version ≥ 3) then fq_max_bytes m else 0x7FFFFFFF)
    (if decide (version ≥ 4) then fq_isolation_level m else 0) (fq_topics m).
Definition seen_FetchPartitionResponse (version : Z) (m : FetchPartitionResponse) : FetchPartitionResponse :=
  mkFPR (fpr_partition_index m) (fpr_error_code m) (fpr_high_watermark m)
    (if decide (version ≥ 4) then fpr_last_stable_offset m else (fpr_high_watermark m))
    (fpr_records m).
Definition seen_FetchTopicResponse (version : Z) (m : FetchTopicResponse) : FetchTopicResponse :=
  mkFTR (ftr_topic m) (seen_FetchPartitionResponse version <$> ftr_partitions m).
Definition seen_FetchResponse (version : Z) (m : FetchResponse) : FetchResponse :=
  mkFetchResp (if decide (version ≥ 1) then fs_throttle_time_ms m else 0)
    (if decide (version ≥ 7) then fs_error_code m else E_None)
    (seen_FetchTopicResponse version <$> fs_responses m).
Definition seen_ListOffsetsPartition (version : Z) (m : ListOffsetsPartition) : ListOffsetsPartition :=
  mkLOP (lop_partition m) (if decide (version ≥ 4) then lop_current_leader_epoch m else -1)
    (lop_timestamp m).
Definition seen_ListOffsetsTopic (version : Z) (m : ListOffsetsTopic) : ListOffsetsTopic :=
  mkLOT (lot_topic m) (seen_ListOffsetsPartition version <$> lot_partitions m).
Definition seen_ListOffsetsRequest (version : Z) (m : ListOffsetsRequest) : ListOffsetsRequest :=
  mkListOffsetsReq (loq_replica_id m) (if decide (version ≥ 2) then loq_isolation_level m else 0)
    (seen_ListOffsetsTopic version <$> loq_topics m).
Definition seen_ListOffsetsPartitionResponse (version : Z) (m : ListOffsetsPartitionResponse) : ListOffsetsPartitionResponse :=
  mkLOPR (lopr_partition m) (lopr_error_code m) (lopr_timestamp m) (lopr_offset m)
    (if decide (version ≥ 4) then lopr_leader_epoch m else -1).
Definition seen_ListOffsetsTopicResponse (version : Z) (m : ListOffsetsTopicResponse) : ListOffsetsTopicResponse :=
  mkLOTR (lotr_topic m) (seen_ListOffsetsPartitionResponse version <$> lotr_partitions m).
Definition seen_ListOffsetsResponse (version : Z) (m : ListOffsetsResponse) : ListOffsetsResponse :=
  mkListOffsetsResp (if decide (version ≥ 2) then los_throttle_time_ms m else 0)
    (seen_ListOffsetsTopicResponse version <$> los_topics m).

Lemma PartitionProduceData_reads m : PartitionProduceData_ok m →
  Reads decode_PartitionProduceData (encode_PartitionProduceData m) m.
Proof. destruct m. codec decode_PartitionProduceData encode_PartitionProduceData PartitionProduceData_ok. Qed.
#[local] Hint Resolve PartitionProduceData_reads : wire.
Lemma TopicProduceData_reads m : TopicProduceData_ok m →
  Reads decode_TopicProduceData (encode_TopicProduceData m) m.
Proof. destruct m. codec decode_TopicProduceData encode_TopicProduceData TopicProduceData_ok. Qed.
#[local] Hint Resolve TopicProduceData_reads : wire.
Lemma ProduceRequest_reads version m : ProduceRequest_ok m →
  Reads (decode_ProduceRequest version) (encode_ProduceRequest version m) m.
Proof. destruct m. codec decode_ProduceRequest encode_ProduceRequest ProduceRequest_ok. Qed.
#[local] Hint Resolve ProduceRequest_reads : wire.
Lemma PartitionProduceResponse_reads version m : PartitionProduceResponse_ok m →
  Reads (decode_PartitionProduceResponse version) (encode_PartitionProduceResponse version m) (seen_PartitionProduceResponse version m).
Proof. destruct m. codec decode_PartitionProduceResponse encode_PartitionProduceResponse PartitionProduceResponse_ok. Qed.
#[local] Hint Resolve PartitionProduceResponse_reads : wire.
Lemma TopicProduceResponse_reads version m : TopicProduceResponse_ok m →
  Reads (decode_TopicProduceResponse version) (encode_TopicProduceResponse version m) (seen_TopicProduceResponse version m).
Proof. destruct m. codec decode_TopicProduceResponse encode_TopicProduceResponse TopicProduceResponse_ok. Qed.
#[local] Hint Resolve TopicProduceResponse_reads : wire.
Lemma ProduceResponse_reads version m : ProduceResponse_ok m →
  Reads (decode_ProduceResponse version) (encode_ProduceResponse version m) (seen_ProduceResponse version m).
Proof. destruct m. codec decode_ProduceResponse encode_ProduceResponse ProduceResponse_ok. Qed.
#[local] Hint Resolve ProduceResponse_reads : wire.
Lemma FetchPartition_reads version m : FetchPartition_ok m →
  Reads (decode_FetchPartition version) (encode_FetchPartition version m) m.
Proof. destruct m. codec decode_FetchPartition encode_FetchPartition FetchPartition_ok. Qed.
#[local] Hint Resolve FetchPartition_reads : wire.
Lemma FetchTopic_reads version m : FetchTopic_ok m →
  Reads (decode_FetchTopic version) (encode_FetchTopic version m) m.
Proof. destruct m. codec decode_FetchTopic encode_FetchTopic FetchTopic_ok. Qed.
#[local] Hint Resolve FetchTopic_reads : wire.
Lemma FetchRequest_reads version m : FetchRequest_ok m →
  Reads (decode_FetchRequest version) (encode_FetchRequest version m) (seen_FetchRequest version m).
Proof. destruct m. codec decode_FetchRequest encode_FetchRequest FetchRequest_ok. Qed.
#[local] Hint Resolve FetchRequest_reads : wire.
Lemma FetchPartitionResponse_reads version m : FetchPartitionResponse_ok m →
  Reads (decode_FetchPartitionResponse version) (encode_FetchPartitionResponse version m) (seen_FetchPartitionResponse version m).
Proof. destruct m. codec decode_FetchPartitionResponse encode_FetchPartitionResponse FetchPartitionResponse_ok. Qed.
#[local] Hint Resolve FetchPartitionResponse_reads : wire.
Lemma FetchTopicResponse_reads version m : FetchTopicResponse_ok m →
  Reads (decode_FetchTopicResponse version) (encode_FetchTopicResponse version m) (seen_FetchTopicResponse version m).
Proof. destruct m. codec decode_FetchTopicResponse encode_FetchTopicResponse FetchTopicResponse_ok. Qed.
#[local] Hint Resolve FetchTopicResponse_reads : wire.
Lemma FetchResponse_reads version m : FetchResponse_ok m →
  Reads (decode_FetchResponse version) (encode_FetchResponse version m) (seen_FetchResponse version m).
Proof. destruct m. codec decode_FetchResponse encode_FetchResponse FetchResponse_ok. Qed.
#[local] Hint Resolve FetchResponse_reads : wire.
Lemma ListOffsetsPartition_reads version m : ListOffsetsPartition_ok m →
  Reads (decode_ListOffsetsPartition version) (encode_ListOffsetsPartition version m) (seen_ListOffsetsPartition version m).
Proof. destruct m. codec decode_ListOffsetsPartition encode_ListOffsetsPartition ListOffsetsPartition_ok. Qed.
#[local] Hint Resolve ListOffsetsPartition_reads : wire.
Lemma ListOffsetsTopic_reads version m : ListOffsetsTopic_ok m →
  Reads (decode_ListOffsetsTopic version) (encode_ListOffsetsTopic version m) (seen_ListOffsetsTopic version m).
Proof. destruct m. codec decode_ListOffsetsTopic encode_ListOffsetsTopic ListOffsetsTopic_ok. Qed.
#[local] Hint Resolve ListOffsetsTopic_reads : wire.
Lemma ListOffsetsRequest_reads version m : ListOffsetsRequest_ok m →
  Reads (decode_ListOffsetsRequest version) (encode_ListOffsetsRequest version m) (seen_ListOffsetsRequest version m).
Proof. destruct m. codec decode_ListOffsetsRequest encode_ListOffsetsRequest ListOffsetsRequest_ok. Qed.
#[local] Hint Resolve ListOffsetsRequest_reads : wire.
Lemma ListOffsetsPartitionResponse_reads version m : ListOffsetsPartitionResponse_ok m →
  Reads (decode_ListOffsetsPartitionResponse version) (encode_ListOffsetsPartitionResponse version m) (seen_ListOffsetsPartitionResponse version m).
Proof. destruct m. codec decode_ListOffsetsPartitionResponse encode_ListOffsetsPartitionResponse ListOffsetsPartitionResponse_ok. Qed.
#[local] Hint Resolve ListOffsetsPartitionResponse_reads : wire.
Lemma ListOffsetsTopicResponse_reads version m : ListOffsetsTopicResponse_ok m →
  Reads (decode_ListOffsetsTopicResponse version) (encode_ListOffsetsTopicResponse version m) (seen_ListOffsetsTopicResponse version m).
Proof. destruct m. codec decode_ListOffsetsTopicResponse encode_ListOffsetsTopicResponse ListOffsetsTopicResponse_ok. Qed.
#[local] Hint Resolve ListOffsetsTopicResponse_reads : wire.
Lemma ListOffsetsResponse_reads version m : ListOffsetsResponse_ok m →
  Reads (decode_ListOffsetsResponse version) (encode_ListOffsetsResponse version m) (seen_ListOffsetsResponse version m).
Proof. destruct m. codec decode_ListOffsetsResponse encode_ListOffsetsResponse ListOffsetsResponse_ok. Qed.
#[local] Hint Resolve ListOffsetsResponse_reads : wire.
End codecs.
