(* ===== verification/MsgGroup.v ===== *)
(** * Consumer-group messages

    The codecs of API keys 8, 9, 12, 13, 15, 16 and 42 of
    [crates/oxidemq-protocol/src/messages.rs], laid out as in [MsgData.v]. *)

From Stdlib Require Import Strings.Byte.
From stdpp Require Import base numbers list strings.
From S2P Require Import Prelude Bytes CoreTypes KafkaWire MessageTypes MsgCodec.

Section codecs.
Context `{Allocator}.

(** ** OffsetCommit (API key 8) *)
Record OffsetCommitPartition := mkOCP {
  ocp_partition : Z; ocp_committed_offset : Z; ocp_metadata : option string }.
Record OffsetCommitTopic := mkOCT {
  oct_topic : string; oct_partitions : list OffsetCommitPartition }.
Record OffsetCommitRequest := mkOffsetCommitReq {
  ocq_group_id : string; ocq_generation_id : Z; ocq_member_id : string;
  ocq_topics : list OffsetCommitTopic }.

Definition decode_OffsetCommitPartition : decoder OffsetCommitPartition :=
  partition ← get_i32; committed_offset ← get_i64; metadata ← read_string;
  mret (mkOCP partition committed_offset metadata).
Definition encode_OffsetCommitPartition (p : OffsetCommitPartition) : bytes :=
  put_32 (ocp_partition p) ++ put_64 (ocp_committed_offset p) ++ write_string (ocp_metadata p).

Definition decode_OffsetCommitTopic : decoder OffsetCommitTopic :=
  topic ← read_str; partitions ← read_array (read_vec decode_OffsetCommitPartition);
  mret (mkOCT topic partitions).
Definition encode_OffsetCommitTopic (t : OffsetCommitTopic) : bytes :=
  write_string (Some (oct_topic t)) ++ put_array encode_OffsetCommitPartition (oct_partitions t).

Definition decode_OffsetCommitRequest (version : Z) : decoder OffsetCommitRequest :=
  group_id ← read_str;
  generation_id ← when (version ≥ 1) get_i32 0;
  member_id ← when (version ≥ 1) read_str "";
  when (2 ≤ version ≤ 4) get_i64 0 ≫= λ _,
  topics ← read_array (read_vec decode_OffsetCommitTopic);
  mret (mkOffsetCommitReq group_id generation_id member_id topics).
Definition encode_OffsetCommitRequest (version : Z) (m : OffsetCommitRequest) : bytes :=
  write_string (Some (ocq_group_id m))
    ++ put_when (version ≥ 1) (put_32 (ocq_generation_id m))
    ++ put_when (version ≥ 1) (write_string (Some (ocq_member_id m)))
    ++ put_when (2 ≤ version ≤ 4) (put_64 (-1))
    ++ put_array encode_OffsetCommitTopic (ocq_topics m).

Record OffsetCommitPartitionResponse := mkOCPR {
  ocpr_partition : Z; ocpr_error_code : KafkaErrorCode }.
Record OffsetCommitTopicResponse := mkOCTR {
  octr_topic : string; octr_partitions : list OffsetCommitPartitionResponse }.
Record OffsetCommitResponse := mkOffsetCommitResp {
  ocs_throttle_time_ms : Z; ocs_topics : list OffsetCommitTopicResponse }.

Definition encode_OffsetCommitPartitionResponse (p : OffsetCommitPartitionResponse) : bytes :=
  put_32 (ocpr_partition p) ++ put_error (ocpr_error_code p).
Definition decode_OffsetCommitPartitionResponse : decoder OffsetCommitPartitionResponse :=
  partition ← get_i32; error_code ← get_error; mret (mkOCPR partition error_code).

Definition encode_OffsetCommitTopicResponse (t : OffsetCommitTopicResponse) : bytes :=
  write_string (Some (octr_topic t))
    ++ put_array encode_OffsetCommitPartitionResponse (octr_partitions t).
Definition decode_OffsetCommitTopicResponse : decoder OffsetCommitTopicResponse :=
  topic ← read_str; partitions ← read_array (read_vec decode_OffsetCommitPartitionResponse);
  mret (mkOCTR topic partitions).

Definition encode_OffsetCommitResponse (version : Z) (m : OffsetCommitResponse) : bytes :=
  put_when (version ≥ 3) (put_32 (ocs_throttle_time_ms m))
    ++ put_array encode_OffsetCommitTopicResponse (ocs_topics m).
Definition decode_OffsetCommitResponse (version : Z) : decoder OffsetCommitResponse :=
  throttle_time_ms ← when (version ≥ 3) get_i32 0;
  topics ← read_array (read_vec decode_OffsetCommitTopicResponse);
  mret (mkOffsetCommitResp throttle_time_ms topics).

(** ** OffsetFetch (API key 9) *)
Record OffsetFetchTopic := mkOFT { oft_topic : string; oft_partitions : list Z }.
Record OffsetFetchRequest := mkOffsetFetchReq {
  ofq_group_id : string; ofq_topics : option (list OffsetFetchTopic) }.

Definition decode_OffsetFetchTopic : decoder OffsetFetchTopic :=
  topic ← read_str; partitions ← read_array (read_vec get_i32); mret (mkOFT topic partitions).
Definition encode_OffsetFetchTopic (t : OffsetFetchTopic) : bytes :=
  write_string (Some (oft_topic t)) ++ put_array put_32 (oft_partitions t).

Definition decode_OffsetFetchRequest (version : Z) : decoder OffsetFetchRequest :=
  group_id ← read_str; topics ← read_array_opt (read_vec decode_OffsetFetchTopic);
  mret (mkOffsetFetchReq group_id topics).
Definition encode_OffsetFetchRequest (version : Z) (m : OffsetFetchRequest) : bytes :=
  write_string (Some (ofq_group_id m)) ++ put_array_opt encode_OffsetFetchTopic (ofq_topics m).

Record OffsetFetchPartitionResponse := mkOFPR {
  ofpr_partition : Z; ofpr_offset : Z; ofpr_metadata : option string;
  ofpr_error_code : KafkaErrorCode }.
Record OffsetFetchTopicResponse := mkOFTR {
  oftr_topic : string; oftr_partitions : list OffsetFetchPartitionResponse }.
Record OffsetFetchResponse := mkOffsetFetchResp {
  ofs_throttle_time_ms : Z; ofs_topics : list OffsetFetchTopicResponse;
  ofs_error_code : KafkaErrorCode }.

Definition encode_OffsetFetchPartitionResponse (version : Z) (p : OffsetFetchPartitionResponse) : bytes :=
  put_32 (ofpr_partition p) ++ put_64 (ofpr_offset p) ++ put_when (version ≥ 5) (put_32 (-1))
    ++ write_string (ofpr_metadata p) ++ put_error (ofpr_error_code p).
Definition decode_OffsetFetchPartitionResponse (version : Z) : decoder OffsetFetchPartitionResponse :=
  partition ← get_i32; offset ← get_i64;
  when (version ≥ 5) get_i32 0 ≫= λ _,
  metadata ← read_string; error_code ← get_error;
  mret (mkOFPR partition offset metadata error_code).

Definition encode_OffsetFetchTopicResponse (version : Z) (t : OffsetFetchTopicResponse) : bytes :=
  write_string (Some (oftr_topic t))
    ++ put_array (encode_OffsetFetchPartitionResponse version) (oftr_partitions t).
Definition decode_OffsetFetchTopicResponse (version : Z) : decoder OffsetFetchTopicResponse :=
  topic ← read_str; partitions ← read_array (read_vec (decode_OffsetFetchPartitionResponse version));
  mret (mkOFTR topic partitions).

Definition encode_OffsetFetchResponse (version : Z) (m : OffsetFetchResponse) : bytes :=
  put_when (version ≥ 3) (put_32 (ofs_throttle_time_ms m))
    ++ put_array (encode_OffsetFetchTopicResponse version) (ofs_topics m)
    ++ put_when (version ≥ 2) (put_error (ofs_error_code m)).
Definition decode_OffsetFetchResponse (version : Z) : decoder OffsetFetchResponse :=
  throttle_time_ms ← when (version ≥ 3) get_i32 0;
  topics ← read_array (read_vec (decode_OffsetFetchTopicResponse version));
  error_code ← when (version ≥ 2) get_error E_None;
  mret (mkOffsetFetchResp throttle_time_ms topics error_code).

(** ** Heartbeat (API key 12) and LeaveGroup (API key 13) *)
Record HeartbeatRequest := mkHeartbeatReq {
  hbq_group_id : string; hbq_generation_id : Z; hbq_member_id : string }.
Record HeartbeatResponse := mkHeartbeatResp {
  hbs_throttle_time_ms : Z; hbs_error_code : KafkaErrorCode }.
Record LeaveGroupRequest := mkLeaveReq { lgq_group_id : string; lgq_member_id : string }.
Record LeaveGroupResponse := mkLeaveResp {
  lgs_throttle_time_ms : Z; lgs_error_code : KafkaErrorCode }.

Definition decode_HeartbeatRequest (version : Z) : decoder HeartbeatRequest :=
  group_id ← read_str; generation_id ← get_i32; member_id ← read_str;
  mret (mkHeartbeatReq group_id generation_id member_id).
Definition encode_HeartbeatRequest (version : Z) (m : HeartbeatRequest) : bytes :=
  write_string (Some (hbq_group_id m)) ++ put_32 (hbq_generation_id m)
    ++ write_string (Some (hbq_member_id m)).

Definition encode_HeartbeatResponse (version : Z) (m : HeartbeatResponse) : bytes :=
  put_when (version ≥ 1) (put_32 (hbs_throttle_time_ms m)) ++ put_error (hbs_error_code m).
Definition decode_HeartbeatResponse (version : Z) : decoder HeartbeatResponse :=
  throttle_time_ms ← when (version ≥ 1) get_i32 0; error_code ← get_error;
  mret (mkHeartbeatResp throttle_time_ms error_code).

Definition decode_LeaveGroupRequest (version : Z) : decoder LeaveGroupRequest :=
  group_id ← read_str; member_id ← read_str; mret (mkLeaveReq group_id member_id).
Definition encode_LeaveGroupRequest (version : Z) (m : LeaveGroupRequest) : bytes :=
  write_string (Some (lgq_group_id m)) ++ write_string (Some (lgq_member_id m)).

Definition encode_LeaveGroupResponse (version : Z) (m : LeaveGroupResponse) : bytes :=
  put_when (version ≥ 1) (put_32 (lgs_throttle_time_ms m)) ++ put_error (lgs_error_code m).
Definition decode_LeaveGroupResponse (version : Z) : decoder LeaveGroupResponse :=
  throttle_time_ms ← when (version ≥ 1) get_i32 0; error_code ← get_error;
  mret (mkLeaveResp throttle_time_ms error_code).

(** ** ListGroups (API key 16) *)
Record ListedGroup := mkListedGroup { lg_group_id : string; lg_protocol_type : string }.
Record ListGroupsResponse := mkListGroupsResp {
  lgr_throttle_time_ms : Z; lgr_error_code : KafkaErrorCode; lgr_groups : list ListedGroup }.

(** [ListGroupsRequest] has no fields. *)
Definition decode_ListGroupsRequest (version : Z) : decoder unit := mret tt.
Definition encode_ListGroupsRequest (version : Z) (m : unit) : bytes := [].

(** [if version >= lo { require; src.get_i32() } else { 0 }] *)
Definition read_throttle (lo version : Z) : decoder Z :=
  when (version ≥ lo) (require 4 "Truncated throttle_time_ms" ≫= λ _, get_i32) 0.

Definition decode_ListedGroup : decoder ListedGroup :=
  group_id ← read_str; protocol_type ← read_str; mret (mkListedGroup group_id protocol_type).
Definition encode_ListedGroup (g : ListedGroup) : bytes :=
  write_string (Some (lg_group_id g)) ++ write_string (Some (lg_protocol_type g)).

Definition decode_ListGroupsResponse (version : Z) : decoder ListGroupsResponse :=
  throttle_time_ms ← read_throttle 1 version;
  require 2 "Truncated error_code" ≫= λ _,
  error_code ← get_error;
  groups ← read_array_checked "Truncated groups count" "Negative groups count" (read_vec decode_ListedGroup);
  mret (mkListGroupsResp throttle_time_ms error_code groups).
Definition encode_ListGroupsResponse (version : Z) (m : ListGroupsResponse) : bytes :=
  put_when (version ≥ 1) (put_32 (lgr_throttle_time_ms m)) ++ put_error (lgr_error_code m)
    ++ put_array encode_ListedGroup (lgr_groups m).

(** ** DescribeGroups (API key 15) *)
Record DescribeGroupsRequest := mkDescGroupsReq { dgq_groups : list string }.
Record DescribeGroupsResponse := mkDescGroupsResp {
  dgs_throttle_time_ms : Z; dgs_groups : list DescribedGroup }.

Definition decode_DescribeGroupsRequest (version : Z) : decoder DescribeGroupsRequest :=
  groups ← read_array_checked "Truncated DescribeGroupsRequest groups count" "Negative groups count" read_strings;
  mret (mkDescGroupsReq groups).
Definition encode_DescribeGroupsRequest (version : Z) (m : DescribeGroupsRequest) : bytes :=
  put_array (λ s, write_string (Some s)) (dgq_groups m).

Definition decode_DescribedGroupMember : decoder DescribedGroupMember :=
  member_id ← read_str; client_id ← read_str; client_host ← read_str;
  member_metadata ← read_blob; member_assignment ← read_blob;
  mret (mkDescMember member_id client_id client_host member_metadata member_assignment).
Definition encode_DescribedGroupMember (m : DescribedGroupMember) : bytes :=
  write_string (Some (dm_member_id m)) ++ write_string (Some (dm_client_id m))
    ++ write_string (Some (dm_client_host m)) ++ write_bytes (Some (dm_member_metadata m))
    ++ write_bytes (Some (dm_member_assignment m)).

Definition decode_DescribedGroup : decoder DescribedGroup :=
  require 2 "Truncated error_code" ≫= λ _,
  error_code ← get_error;
  group_id ← read_str; group_state ← read_str; protocol_type ← read_str; protocol_data ← read_str;
  members ← read_array_checked "Truncated members count" "Negative members count"
              (read_vec decode_DescribedGroupMember);
  mret (mkDescGroup error_code group_id group_state protocol_type protocol_data members).
Definition encode_DescribedGroup (g : DescribedGroup) : bytes :=
  put_error (dg_error_code g) ++ write_string (Some (dg_group_id g))
    ++ write_string (Some (dg_group_state g)) ++ write_string (Some (dg_protocol_type g))
    ++ write_string (Some (dg_protocol_data g))
    ++ put_array encode_DescribedGroupMember (dg_members g).

Definition decode_DescribeGroupsResponse (version : Z) : decoder DescribeGroupsResponse :=
  throttle_time_ms ← read_throttle 1 version;
  groups ← read_array_checked "Truncated groups count" "Negative groups count" (read_vec decode_DescribedGroup);
  mret (mkDescGroupsResp throttle_time_ms groups).
Definition encode_DescribeGroupsResponse (version : Z) (m : DescribeGroupsResponse) : bytes :=
  put_when (version ≥ 1) (put_32 (dgs_throttle_time_ms m))
    ++ put_array encode_DescribedGroup (dgs_groups m).

(** ** DeleteGroups (API key 42) *)
Record DeleteGroupsRequest := mkDelGroupsReq { xgq_groups_names : list string }.
Record DeletableGroupResult := mkDelGroup { xg_group_id : string; xg_error_code : KafkaErrorCode }.
Record DeleteGroupsResponse := mkDelGroupsResp {
  xgs_throttle_time_ms : Z; xgs_results : list DeletableGroupResult }.

Definition decode_DeleteGroupsRequest (version : Z) : decoder DeleteGroupsRequest :=
  groups ← read_array_checked "Truncated DeleteGroupsRequest groups count" "Negative groups count" read_strings;
  mret (mkDelGroupsReq groups).
Definition encode_DeleteGroupsRequest (version : Z) (m : DeleteGroupsRequest) : bytes :=
  put_array (λ s, write_string (Some s)) (xgq_groups_names m).

Definition decode_DeletableGroupResult : decoder DeletableGroupResult :=
  group_id ← read_str;
  require 2 "Truncated error_code" ≫= λ _,
  error_code ← get_error; mret (mkDelGroup group_id error_code).
Definition encode_DeletableGroupResult (r : DeletableGroupResult) : bytes :=
  write_string (Some (xg_group_id r)) ++ put_error (xg_error_code r).

Definition decode_DeleteGroupsResponse (version : Z) : decoder DeleteGroupsResponse :=
  require 4 "Truncated throttle_time_ms" ≫= λ _,
  throttle_time_ms ← get_i32;
  results ← read_array_checked "Truncated results count" "Negative results count"
              (read_vec decode_DeletableGroupResult);
  mret (mkDelGroupsResp throttle_time_ms results).
Definition encode_DeleteGroupsResponse (version : Z) (m : DeleteGroupsResponse) : bytes :=
  put_32 (xgs_throttle_time_ms m) ++ put_array encode_DeletableGroupResult (xgs_results m).

(** ** What the fields can carry, what the other side sees, and round trips *)
Lemma reads_throttle lo version x : in_s 32 x →
  Reads (read_throttle lo version) (put_when (version ≥ lo) (put_32 x)) (if decide (version ≥ lo) then x else 0).
Proof.
  intros. apply reads_when. apply (reads_require 4 _ (λ _, get_i32)); [by lens|].
  by apply reads_i32.
Qed.
#[local] Hint Resolve reads_throttle : wire.

Definition OffsetCommitPartition_ok (m : OffsetCommitPartition) : Prop :=
  in_s 32 (ocp_partition m) ∧ in_s 64 (ocp_committed_offset m)
  ∧ opt_all wire_string (ocp_metadata m).
#[export] Instance OffsetCommitPartition_ok_dec m : Decision (OffsetCommitPartition_ok m).
Proof. unfold OffsetCommitPartition_ok. apply _. Defined.
Definition OffsetCommitTopic_ok (m : OffsetCommitTopic) : Prop :=
  wire_string (oct_topic m) ∧ arr_ok OffsetCommitPartition_ok (oct_partitions m).
#[export] Instance OffsetCommitTopic_ok_dec m : Decision (OffsetCommitTopic_ok m).
Proof. unfold OffsetCommitTopic_ok. apply _. Defined.
Definition OffsetCommitRequest_ok (m : OffsetCommitRequest) : Prop :=
  wire_string (ocq_group_id m) ∧ in_s 32 (ocq_generation_id m) ∧ wire_string (ocq_member_id m)
  ∧ arr_ok OffsetCommitTopic_ok (ocq_topics m).
#[export] Instance OffsetCommitRequest_ok_dec m : Decision (OffsetCommitRequest_ok m).
Proof. unfold OffsetCommitRequest_ok. apply _. Defined.
Definition OffsetCommitPartitionResponse_ok (m : OffsetCommitPartitionResponse) : Prop :=
  in_s 32 (ocpr_partition m).
#[export] Instance OffsetCommitPartitionResponse_ok_dec m : Decision (OffsetCommitPartitionResponse_ok m).
Proof. unfold OffsetCommitPartitionResponse_ok. apply _. Defined.
Definition OffsetCommitTopicResponse_ok (m : OffsetCommitTopicResponse) : Prop :=
  wire_string (octr_topic m) ∧ arr_ok OffsetCommitPartitionResponse_ok (octr_partitions m).
#[export] Instance OffsetCommitTopicResponse_ok_dec m : Decision (OffsetCommitTopicResponse_ok m).
Proof. unfold OffsetCommitTopicResponse_ok. apply _. Defined.
Definition OffsetCommitResponse_ok (m : OffsetCommitResponse) : Prop :=
  in_s 32 (ocs_throttle_time_ms m) ∧ arr_ok OffsetCommitTopicResponse_ok (ocs_topics m).
#[export] Instance OffsetCommitResponse_ok_dec m : Decision (OffsetCommitResponse_ok m).
Proof. unfold OffsetCommitResponse_ok. apply _. Defined.
Definition OffsetFetchTopic_ok (m : OffsetFetchTopic) : Prop :=
  wire_string (oft_topic m) ∧ arr_ok (in_s 32) (oft_partitions m).
#[export] Instance OffsetFetchTopic_ok_dec m : Decision (OffsetFetchTopic_ok m).
Proof. unfold OffsetFetchTopic_ok. apply _. Defined.
Definition OffsetFetchRequest_ok (m : OffsetFetchRequest) : Prop :=
  wire_string (ofq_group_id m) ∧ opt_all (arr_ok OffsetFetchTopic_ok) (ofq_topics m).
#[export] Instance OffsetFetchRequest_ok_dec m : Decision (OffsetFetchRequest_ok m).
Proof. unfold OffsetFetchRequest_ok. apply _. Defined.
Definition OffsetFetchPartitionResponse_ok (m : OffsetFetchPartitionResponse) : Prop :=
  in_s 32 (ofpr_partition m) ∧ in_s 64 (ofpr_offset m) ∧ opt_all wire_string (ofpr_metadata m).
#[export] Instance OffsetFetchPartitionResponse_ok_dec m : Decision (OffsetFetchPartitionResponse_ok m).
Proof. unfold OffsetFetchPartitionResponse_ok. apply _. Defined.
Definition OffsetFetchTopicResponse_ok (m : OffsetFetchTopicResponse) : Prop :=
  wire_string (oftr_topic m) ∧ arr_ok OffsetFetchPartitionResponse_ok (oftr_partitions m).
#[export] Instance OffsetFetchTopicResponse_ok_dec m : Decision (OffsetFetchTopicResponse_ok m).
Proof. unfold OffsetFetchTopicResponse_ok. apply _. Defined.
Definition OffsetFetchResponse_ok (m : OffsetFetchResponse) : Prop :=
  in_s 32 (ofs_throttle_time_ms m) ∧ arr_ok OffsetFetchTopicResponse_ok (ofs_topics m).
#[export] Instance OffsetFetchResponse_ok_dec m : Decision (OffsetFetchResponse_ok m).
Proof. unfold OffsetFetchResponse_ok. apply _. Defined.
Definition HeartbeatRequest_ok (m : HeartbeatRequest) : Prop :=
  wire_string (hbq_group_id m) ∧ in_s 32 (hbq_generation_id m) ∧ wire_string (hbq_member_id m).
#[export] Instance HeartbeatRequest_ok_dec m : Decision (HeartbeatRequest_ok m).
Proof. unfold HeartbeatRequest_ok. apply _. Defined.
Definition HeartbeatResponse_ok (m : HeartbeatResponse) : Prop :=
  in_s 32 (hbs_throttle_time_ms m).
#[export] Instance HeartbeatResponse_ok_dec m : Decision (HeartbeatResponse_ok m).
Proof. unfold HeartbeatResponse_ok. apply _. Defined.
Definition LeaveGroupRequest_ok (m : LeaveGroupRequest) : Prop :=
  wire_string (lgq_group_id m) ∧ wire_string (lgq_member_id m).
#[export] Instance LeaveGroupRequest_ok_dec m : Decision (LeaveGroupRequest_ok m).
Proof. unfold LeaveGroupRequest_ok. apply _. Defined.
Definition LeaveGroupResponse_ok (m : LeaveGroupResponse) : Prop :=
  in_s 32 (lgs_throttle_time_ms m).
#[export] Instance LeaveGroupResponse_ok_dec m : Decision (LeaveGroupResponse_ok m).
Proof. unfold LeaveGroupResponse_ok. apply _. Defined.
Definition ListedGroup_ok (m : ListedGroup) : Prop :=
  wire_string (lg_group_id m) ∧ wire_string (lg_protocol_type m).
#[export] Instance ListedGroup_ok_dec m : Decision (ListedGroup_ok m).
Proof. unfold ListedGroup_ok. apply _. Defined.
Definition ListGroupsResponse_ok (m : ListGroupsResponse) : Prop :=
  in_s 32 (lgr_throttle_time_ms m) ∧ arr_ok ListedGroup_ok (lgr_groups m).
#[export] Instance ListGroupsResponse_ok_dec m : Decision (ListGroupsResponse_ok m).
Proof. unfold ListGroupsResponse_ok. apply _. Defined.
Definition DescribeGroupsRequest_ok (m : DescribeGroupsRequest) : Prop :=
  arr_ok wire_string (dgq_groups m).
#[export] Instance DescribeGroupsRequest_ok_dec m : Decision (DescribeGroupsRequest_ok m).
Proof. unfold DescribeGroupsRequest_ok. apply _. Defined.
Definition DescribedGroupMember_ok (m : DescribedGroupMember) : Prop :=
  wire_string (dm_member_id m) ∧ wire_string (dm_client_id m) ∧ wire_string (dm_client_host m)
  ∧ wire_bytes (dm_member_metadata m) ∧ wire_bytes (dm_member_assignment m).
#[export] Instance DescribedGroupMember_ok_dec m : Decision (DescribedGroupMember_ok m).
Proof. unfold DescribedGroupMember_ok. apply _. Defined.
Definition DescribedGroup_ok (m : DescribedGroup) : Prop :=
  wire_string (dg_group_id m) ∧ wire_string (dg_group_state m) ∧ wire_string (dg_protocol_type m)
  ∧ wire_string (dg_protocol_data m) ∧ arr_ok DescribedGroupMember_ok (dg_members m).
#[export] Instance DescribedGroup_ok_dec m : Decision (DescribedGroup_ok m).
Proof. unfold DescribedGroup_ok. apply _. Defined.
Definition DescribeGroupsResponse_ok (m : DescribeGroupsResponse) : Prop :=
  in_s 32 (dgs_throttle_time_ms m) ∧ arr_ok DescribedGroup_ok (dgs_groups m).
#[export] Instance DescribeGroupsResponse_ok_dec m : Decision (DescribeGroupsResponse_ok m).
Proof. unfold DescribeGroupsResponse_ok. apply _. Defined.
Definition DeleteGroupsRequest_ok (m : DeleteGroupsRequest) : Prop :=
  arr_ok wire_string (xgq_groups_names m).
#[export] Instance DeleteGroupsRequest_ok_dec m : Decision (DeleteGroupsRequest_ok m).
Proof. unfold DeleteGroupsRequest_ok. apply _. Defined.
Definition DeletableGroupResult_ok (m : DeletableGroupResult) : Prop :=
  wire_string (xg_group_id m).
#[export] Instance DeletableGroupResult_ok_dec m : Decision (DeletableGroupResult_ok m).
Proof. unfold DeletableGroupResult_ok. apply _. Defined.
Definition DeleteGroupsResponse_ok (m : DeleteGroupsResponse) : Prop :=
  in_s 32 (xgs_throttle_time_ms m) ∧ arr_ok DeletableGroupResult_ok (xgs_results m).
#[export] Instance DeleteGroupsResponse_ok_dec m : Decision (DeleteGroupsResponse_ok m).
Proof. unfold DeleteGroupsResponse_ok. apply _. Defined.

Definition seen_OffsetCommitRequest (version : Z) (m : OffsetCommitRequest) : OffsetCommitRequest :=
  mkOffsetCommitReq (ocq_group_id m) (if decide (version ≥ 1) then ocq_generation_id m else 0)
    (if decide (version ≥ 1) then ocq_member_id m else "") (ocq_topics m).
Definition seen_OffsetCommitResponse (version : Z) (m : OffsetCommitResponse) : OffsetCommitResponse :=
  mkOffsetCommitResp (if decide (version ≥ 3) then ocs_throttle_time_ms m else 0) (ocs_topics m).
Definition seen_OffsetFetchResponse (version : Z) (m : OffsetFetchResponse) : OffsetFetchResponse :=
  mkOffsetFetchResp (if decide (version ≥ 3) then ofs_throttle_time_ms m else 0) (ofs_topics m)
    (if decide (version ≥ 2) then ofs_error_code m else E_None).
Definition seen_HeartbeatResponse (version : Z) (m : HeartbeatResponse) : HeartbeatResponse :=
  mkHeartbeatResp (if decide (version ≥ 1) then hbs_throttle_time_ms m else 0) (hbs_error_code m).
Definition seen_LeaveGroupResponse (version : Z) (m : LeaveGroupResponse) : LeaveGroupResponse :=
  mkLeaveResp (if decide (version ≥ 1) then lgs_throttle_time_ms m else 0) (lgs_error_code m).
Definition seen_ListGroupsResponse (version : Z) (m : ListGroupsResponse) : ListGroupsResponse :=
  mkListGroupsResp (if decide (version ≥ 1) then lgr_throttle_time_ms m else 0) (lgr_error_code m)
    (lgr_groups m).
Definition seen_DescribeGroupsResponse (version : Z) (m : DescribeGroupsResponse) : DescribeGroupsResponse :=
  mkDescGroupsResp (if decide (version ≥ 1) then dgs_throttle_time_ms m else 0) (dgs_groups m).

Lemma OffsetCommitPartition_reads m : OffsetCommitPartition_ok m →
  Reads decode_OffsetCommitPartition (encode_OffsetCommitPartition m) m.
Proof. destruct m. codec decode_OffsetCommitPartition encode_OffsetCommitPartition OffsetCommitPartition_ok. Qed.
#[local] Hint Resolve OffsetCommitPartition_reads : wire.
Lemma OffsetCommitTopic_reads m : OffsetCommitTopic_ok m →
  Reads decode_OffsetCommitTopic (encode_OffsetCommitTopic m) m.
Proof. destruct m. codec decode_OffsetCommitTopic encode_OffsetCommitTopic OffsetCommitTopic_ok. Qed.
#[local] Hint Resolve OffsetCommitTopic_reads : wire.
Lemma OffsetCommitRequest_reads version m : OffsetCommitRequest_ok m →
  Reads (decode_OffsetCommitRequest version) (encode_OffsetCommitRequest version m) (seen_OffsetCommitRequest version m).
Proof. destruct m. codec decode_OffsetCommitRequest encode_OffsetCommitRequest OffsetCommitRequest_ok. Qed.
#[local] Hint Resolve OffsetCommitRequest_reads : wire.
Lemma OffsetCommitPartitionResponse_reads m : OffsetCommitPartitionResponse_ok m →
  Reads decode_OffsetCommitPartitionResponse (encode_OffsetCommitPartitionResponse m) m.
Proof. destruct m. codec decode_OffsetCommitPartitionResponse encode_OffsetCommitPartitionResponse OffsetCommitPartitionResponse_ok. Qed.
#[local] Hint Resolve OffsetCommitPartitionResponse_reads : wire.
Lemma OffsetCommitTopicResponse_reads m : OffsetCommitTopicResponse_ok m →
  Reads decode_OffsetCommitTopicResponse (encode_OffsetCommitTopicResponse m) m.
Proof. destruct m. codec decode_OffsetCommitTopicResponse encode_OffsetCommitTopicResponse OffsetCommitTopicResponse_ok. Qed.
#[local] Hint Resolve OffsetCommitTopicResponse_reads : wire.
Lemma OffsetCommitResponse_reads version m : OffsetCommitResponse_ok m →
  Reads (decode_OffsetCommitResponse version) (encode_OffsetCommitResponse version m) (seen_OffsetCommitResponse version m).
Proof. destruct m. codec decode_OffsetCommitResponse encode_OffsetCommitResponse OffsetCommitResponse_ok. Qed.
#[local] Hint Resolve OffsetCommitResponse_reads : wire.
Lemma OffsetFetchTopic_reads m : OffsetFetchTopic_ok m →
  Reads decode_OffsetFetchTopic (encode_OffsetFetchTopic m) m.
Proof. destruct m. codec decode_OffsetFetchTopic encode_OffsetFetchTopic OffsetFetchTopic_ok. Qed.
#[local] Hint Resolve OffsetFetchTopic_reads : wire.
Lemma OffsetFetchRequest_reads version m : OffsetFetchRequest_ok m →
  Reads (decode_OffsetFetchRequest version) (encode_OffsetFetchRequest version m) m.
Proof.
  destruct m as [g ts]. unfold OffsetFetchRequest_ok, decode_OffsetFetchRequest, encode_OffsetFetchRequest.
  simpl. intros [? Hts]. unfold opt_all in Hts. destruct ts; reads.
Qed.
#[local] Hint Resolve OffsetFetchRequest_reads : wire.
Lemma OffsetFetchPartitionResponse_reads version m : OffsetFetchPartitionResponse_ok m →
  Reads (decode_OffsetFetchPartitionResponse version) (encode_OffsetFetchPartitionResponse version m) m.
Proof. destruct m. codec decode_OffsetFetchPartitionResponse encode_OffsetFetchPartitionResponse OffsetFetchPartitionResponse_ok. Qed.
#[local] Hint Resolve OffsetFetchPartitionResponse_reads : wire.
Lemma OffsetFetchTopicResponse_reads version m : OffsetFetchTopicResponse_ok m →
  Reads (decode_OffsetFetchTopicResponse version) (encode_OffsetFetchTopicResponse version m) m.
Proof. destruct m. codec decode_OffsetFetchTopicResponse encode_OffsetFetchTopicResponse OffsetFetchTopicResponse_ok. Qed.
#[local] Hint Resolve OffsetFetchTopicResponse_reads : wire.
Lemma OffsetFetchResponse_reads version m : OffsetFetchResponse_ok m →
  Reads (decode_OffsetFetchResponse version) (encode_OffsetFetchResponse version m) (seen_OffsetFetchResponse version m).
Proof. destruct m. codec decode_OffsetFetchResponse encode_OffsetFetchResponse OffsetFetchResponse_ok. Qed.
#[local] Hint Resolve OffsetFetchResponse_reads : wire.
Lemma HeartbeatRequest_reads version m : HeartbeatRequest_ok m →
  Reads (decode_HeartbeatRequest version) (encode_HeartbeatRequest version m) m.
Proof. destruct m. codec decode_HeartbeatRequest encode_HeartbeatRequest HeartbeatRequest_ok. Qed.
#[local] Hint Resolve HeartbeatRequest_reads : wire.
Lemma HeartbeatResponse_reads version m : HeartbeatResponse_ok m →
  Reads (decode_HeartbeatResponse version) (encode_HeartbeatResponse version m) (seen_HeartbeatResponse version m).
Proof. destruct m. codec decode_HeartbeatResponse encode_HeartbeatResponse HeartbeatResponse_ok. Qed.
#[local] Hint Resolve HeartbeatResponse_reads : wire.
Lemma LeaveGroupRequest_reads version m : LeaveGroupRequest_ok m →
  Reads (decode_LeaveGroupRequest version) (encode_LeaveGroupRequest version m) m.
Proof. destruct m. codec decode_LeaveGroupRequest encode_LeaveGroupRequest LeaveGroupRequest_ok. Qed.
#[local] Hint Resolve LeaveGroupRequest_reads : wire.
Lemma LeaveGroupResponse_reads version m : LeaveGroupResponse_ok m →
  Reads (decode_LeaveGroupResponse version) (encode_LeaveGroupResponse version m) (seen_LeaveGroupResponse version m).
Proof. destruct m. codec decode_LeaveGroupResponse encode_LeaveGroupResponse LeaveGroupResponse_ok. Qed.
#[local] Hint Resolve LeaveGroupResponse_reads : wire.
Lemma ListedGroup_reads m : ListedGroup_ok m →
  Reads decode_ListedGroup (encode_ListedGroup m) m.
Proof. destruct m. codec decode_ListedGroup encode_ListedGroup ListedGroup_ok. Qed.
#[local] Hint Resolve ListedGroup_reads : wire.
Lemma ListGroupsResponse_reads version m : ListGroupsResponse_ok m →
  Reads (decode_ListGroupsResponse version) (encode_ListGroupsResponse version m) (seen_ListGroupsResponse version m).
Proof. destruct m. codec decode_ListGroupsResponse encode_ListGroupsResponse ListGroupsResponse_ok. Qed.
#[local] Hint Resolve ListGroupsResponse_reads : wire.
Lemma DescribeGroupsRequest_reads version m : DescribeGroupsRequest_ok m →
  Reads (decode_DescribeGroupsRequest version) (encode_DescribeGroupsRequest version m) m.
Proof. destruct m. codec decode_DescribeGroupsRequest encode_DescribeGroupsRequest DescribeGroupsRequest_ok. Qed.
#[local] Hint Resolve DescribeGroupsRequest_reads : wire.
Lemma DescribedGroupMember_reads m : DescribedGroupMember_ok m →
  Reads decode_DescribedGroupMember (encode_DescribedGroupMember m) m.
Proof. destruct m. codec decode_DescribedGroupMember encode_DescribedGroupMember DescribedGroupMember_ok. Qed.
#[local] Hint Resolve DescribedGroupMember_reads : wire.
Lemma DescribedGroup_reads m : DescribedGroup_ok m →
  Reads decode_DescribedGroup (encode_DescribedGroup m) m.
Proof. destruct m. codec decode_DescribedGroup encode_DescribedGroup DescribedGroup_ok. Qed.
#[local] Hint Resolve DescribedGroup_reads : wire.
Lemma DescribeGroupsResponse_reads version m : DescribeGroupsResponse_ok m →
  Reads (decode_DescribeGroupsResponse version) (encode_DescribeGroupsResponse version m) (seen_DescribeGroupsResponse version m).
Proof. destruct m. codec decode_DescribeGroupsResponse encode_DescribeGroupsResponse DescribeGroupsResponse_ok. Qed.
#[local] Hint Resolve DescribeGroupsResponse_reads : wire.
Lemma DeleteGroupsRequest_reads version m : DeleteGroupsRequest_ok m →
  Reads (decode_DeleteGroupsRequest version) (encode_DeleteGroupsRequest version m) m.
Proof. destruct m. codec decode_DeleteGroupsRequest encode_DeleteGroupsRequest DeleteGroupsRequest_ok. Qed.
#[local] Hint Resolve DeleteGroupsRequest_reads : wire.
Lemma DeletableGroupResult_reads m : DeletableGroupResult_ok m →
  Reads decode_DeletableGroupResult (encode_DeletableGroupResult m) m.
Proof. destruct m. codec decode_DeletableGroupResult encode_DeletableGroupResult DeletableGroupResult_ok. Qed.
#[local] Hint Resolve DeletableGroupResult_reads : wire.
Lemma DeleteGroupsResponse_reads version m : DeleteGroupsResponse_ok m →
  Reads (decode_DeleteGroupsResponse version) (encode_DeleteGroupsResponse version m) m.
Proof. destruct m. codec decode_DeleteGroupsResponse encode_DeleteGroupsResponse DeleteGroupsResponse_ok. Qed.
#[local] Hint Resolve DeleteGroupsResponse_reads : wire.
End codecs.
