(* ===== verification/MsgTxn.v ===== *)
(** * Transaction messages

    The codecs of API keys 22 and 24 to 26 of
    [crates/oxidemq-protocol/src/messages.rs], laid out as in [MsgData.v]. *)

From Stdlib Require Import Strings.Byte.
From stdpp Require Import base numbers list strings.
From S2P Require Import Prelude Bytes CoreTypes KafkaWire MsgCodec.

Section codecs.
Context `{Allocator}.

(** ** InitProducerId (API key 22) *)
Record InitProducerIdRequest := mkInitPidReq {
  ipq_transactional_id : option string; ipq_transaction_timeout_ms : Z; ipq_producer_id : Z;
  ipq_producer_epoch : Z }.
Record InitProducerIdResponse := mkInitPidResp {
  ips_throttle_time_ms : Z; ips_error_code : KafkaErrorCode; ips_producer_id : Z;
  ips_producer_epoch : Z }.

Definition decode_InitProducerIdRequest (version : Z) : decoder InitProducerIdRequest :=
  transactional_id ← read_string; transaction_timeout_ms ← get_i32;
  producer_id ← when (version ≥ 3) get_i64 (-1);
  producer_epoch ← when (version ≥ 3) get_i16 (-1);
  mret (mkInitPidReq transactional_id transaction_timeout_ms producer_id producer_epoch).
Definition encode_InitProducerIdRequest (version : Z) (m : InitProducerIdRequest) : bytes :=
  write_string (ipq_transactional_id m) ++ put_32 (ipq_transaction_timeout_ms m)
    ++ put_when (version ≥ 3) (put_64 (ipq_producer_id m))
    ++ put_when (version ≥ 3) (put_16 (ipq_producer_epoch m)).

Definition encode_InitProducerIdResponse (version : Z) (m : InitProducerIdResponse) : bytes :=
  put_32 (ips_throttle_time_ms m) ++ put_error (ips_error_code m) ++ put_64 (ips_producer_id m)
    ++ put_16 (ips_producer_epoch m).
Definition decode_InitProducerIdResponse (version : Z) : decoder InitProducerIdResponse :=
  throttle_time_ms ← get_i32; error_code ← get_error; producer_id ← get_i64; producer_epoch ← get_i16;
  mret (mkInitPidResp throttle_time_ms error_code producer_id producer_epoch).

(** ** AddPartitionsToTxn (API key 24) *)
Record AddPartitionsToTxnTopic := mkAPT { apt_name : string; apt_partitions : list Z }.
Record AddPartitionsToTxnRequest := mkAddPartsReq {
  apq_transactional_id : string; apq_producer_id : Z; apq_producer_epoch : Z;
  apq_topics : list AddPartitionsToTxnTopic }.

Definition decode_AddPartitionsToTxnTopic : decoder AddPartitionsToTxnTopic :=
  name ← read_str; partitions ← read_array (read_vec get_i32); mret (mkAPT name partitions).
Definition encode_AddPartitionsToTxnTopic (t : AddPartitionsToTxnTopic) : bytes :=
  write_string (Some (apt_name t)) ++ put_array put_32 (apt_partitions t).

Definition decode_AddPartitionsToTxnRequest (version : Z) : decoder AddPartitionsToTxnRequest :=
  transactional_id ← read_str; producer_id ← get_i64; producer_epoch ← get_i16;
  topics ← read_array (read_vec decode_AddPartitionsToTxnTopic);
  mret (mkAddPartsReq transactional_id producer_id producer_epoch topics).
Definition encode_AddPartitionsToTxnRequest (version : Z) (m : AddPartitionsToTxnRequest) : bytes :=
  write_string (Some (apq_transactional_id m)) ++ put_64 (apq_producer_id m)
    ++ put_16 (apq_producer_epoch m) ++ put_array encode_AddPartitionsToTxnTopic (apq_topics m).

Record AddPartitionsToTxnPartitionResult := mkAPPR {
  appr_partition_index : Z; appr_error_code : KafkaErrorCode }.
Record AddPartitionsToTxnTopicResult := mkAPTR {
  aptr_name : string; aptr_results : list AddPartitionsToTxnPartitionResult }.
Record AddPartitionsToTxnResponse := mkAddPartsResp {
  aps_throttle_time_ms : Z; aps_errors : list AddPartitionsToTxnTopicResult }.

Definition encode_AddPartitionsToTxnPartitionResult (p : AddPartitionsToTxnPartitionResult) : bytes :=
  put_32 (appr_partition_index p) ++ put_error (appr_error_code p).
Definition decode_AddPartitionsToTxnPartitionResult : decoder AddPartitionsToTxnPartitionResult :=
  partition_index ← get_i32; error_code ← get_error; mret (mkAPPR partition_index error_code).

Definition encode_AddPartitionsToTxnTopicResult (t : AddPartitionsToTxnTopicResult) : bytes :=
  write_string (Some (aptr_name t)) ++ put_array encode_AddPartitionsToTxnPartitionResult (aptr_results t).
Definition decode_AddPartitionsToTxnTopicResult : decoder AddPartitionsToTxnTopicResult :=
  name ← read_str; results ← read_array (read_vec decode_AddPartitionsToTxnPartitionResult);
  mret (mkAPTR name results).

Definition encode_AddPartitionsToTxnResponse (version : Z) (m : AddPartitionsToTxnResponse) : bytes :=
  put_32 (aps_throttle_time_ms m) ++ put_array encode_AddPartitionsToTxnTopicResult (aps_errors m).
Definition decode_AddPartitionsToTxnResponse (version : Z) : decoder AddPartitionsToTxnResponse :=
  throttle_time_ms ← get_i32; errors ← read_array (read_vec decode_AddPartitionsToTxnTopicResult);
  mret (mkAddPartsResp throttle_time_ms errors).

(** ** AddOffsetsToTxn (API key 25) and EndTxn (API key 26) *)
Record AddOffsetsToTxnRequest := mkAddOffsReq {
  aoq_transactional_id : string; aoq_producer_id : Z; aoq_producer_epoch : Z;
  aoq_group_id : string }.
Record AddOffsetsToTxnResponse := mkAddOffsResp {
  aos_throttle_time_ms : Z; aos_error_code : KafkaErrorCode }.
Record EndTxnRequest := mkEndTxnReq {
  etq_transactional_id : string; etq_producer_id : Z; etq_producer_epoch : Z;
  etq_committed : bool }.
Record EndTxnResponse := mkEndTxnResp { ets_throttle_time_ms : Z; ets_error_code : KafkaErrorCode }.

Definition decode_AddOffsetsToTxnRequest (version : Z) : decoder AddOffsetsToTxnRequest :=
  transactional_id ← read_str; producer_id ← get_i64; producer_epoch ← get_i16; group_id ← read_str;
  mret (mkAddOffsReq transactional_id producer_id producer_epoch group_id).
Definition encode_AddOffsetsToTxnRequest (version : Z) (m : AddOffsetsToTxnRequest) : bytes :=
  write_string (Some (aoq_transactional_id m)) ++ put_64 (aoq_producer_id m)
    ++ put_16 (aoq_producer_epoch m) ++ write_string (Some (aoq_group_id m)).

Definition encode_AddOffsetsToTxnResponse (version : Z) (m : AddOffsetsToTxnResponse) : bytes :=
  put_32 (aos_throttle_time_ms m) ++ put_error (aos_error_code m).
Definition decode_AddOffsetsToTxnResponse (version : Z) : decoder AddOffsetsToTxnResponse :=
  throttle_time_ms ← get_i32; error_code ← get_error; mret (mkAddOffsResp throttle_time_ms error_code).

(** [src.get_i8() != 0] *)
Definition get_flag : decoder bool := b ← get_i8; mret (bool_decide (b ≠ 0)).

Definition decode_EndTxnRequest (version : Z) : decoder EndTxnRequest :=
  transactional_id ← read_str; producer_id ← get_i64; producer_epoch ← get_i16; committed ← get_flag;
  mret (mkEndTxnReq transactional_id producer_id producer_epoch committed).
Definition encode_EndTxnRequest (version : Z) (m : EndTxnRequest) : bytes :=
  write_string (Some (etq_transactional_id m)) ++ put_64 (etq_producer_id m)
    ++ put_16 (etq_producer_epoch m) ++ put_8 (if etq_committed m then 1 else 0).

Definition encode_EndTxnResponse (version : Z) (m : EndTxnResponse) : bytes :=
  put_32 (ets_throttle_time_ms m) ++ put_error (ets_error_code m).
Definition decode_EndTxnResponse (version : Z) : decoder EndTxnResponse :=
  throttle_time_ms ← get_i32; error_code ← get_error; mret (mkEndTxnResp throttle_time_ms error_code).

(** ** What the fields can carry, what the other side sees, and round trips *)
Lemma reads_flag (b : bool) : Reads get_flag (put_8 (if b then 1 else 0)) b.
Proof. intros k. by destruct b. Qed.
#[local] Hint Resolve reads_flag : wire.

Definition InitProducerIdRequest_ok (m : InitProducerIdRequest) : Prop :=
  opt_all wire_string (ipq_transactional_id m) ∧ in_s 32 (ipq_transaction_timeout_ms m)
  ∧ in_s 64 (ipq_producer_id m) ∧ in_s 16 (ipq_producer_epoch m).
#[export] Instance InitProducerIdRequest_ok_dec m : Decision (InitProducerIdRequest_ok m).
Proof. unfold InitProducerIdRequest_ok. apply _. Defined.
Definition InitProducerIdResponse_ok (m : InitProducerIdResponse) : Prop :=
  in_s 32 (ips_throttle_time_ms m) ∧ in_s 64 (ips_producer_id m) ∧ in_s 16 (ips_producer_epoch m).
#[export] Instance InitProducerIdResponse_ok_dec m : Decision (InitProducerIdResponse_ok m).
Proof. unfold InitProducerIdResponse_ok. apply _. Defined.
Definition AddPartitionsToTxnTopic_ok (m : AddPartitionsToTxnTopic) : Prop :=
  wire_string (apt_name m) ∧ arr_ok (in_s 32) (apt_partitions m).
#[export] Instance AddPartitionsToTxnTopic_ok_dec m : Decision (AddPartitionsToTxnTopic_ok m).
Proof. unfold AddPartitionsToTxnTopic_ok. apply _. Defined.
Definition AddPartitionsToTxnRequest_ok (m : AddPartitionsToTxnRequest) : Prop :=
  wire_string (apq_transactional_id m) ∧ in_s 64 (apq_producer_id m)
  ∧ in_s 16 (apq_producer_epoch m) ∧ arr_ok AddPartitionsToTxnTopic_ok (apq_topics m).
#[export] Instance AddPartitionsToTxnRequest_ok_dec m : Decision (AddPartitionsToTxnRequest_ok m).
Proof. unfold AddPartitionsToTxnRequest_ok. apply _. Defined.
Definition AddPartitionsToTxnPartitionResult_ok (m : AddPartitionsToTxnPartitionResult) : Prop :=
  in_s 32 (appr_partition_index m).
#[export] Instance AddPartitionsToTxnPartitionResult_ok_dec m : Decision (AddPartitionsToTxnPartitionResult_ok m).
Proof. unfold AddPartitionsToTxnPartitionResult_ok. apply _. Defined.
Definition AddPartitionsToTxnTopicResult_ok (m : AddPartitionsToTxnTopicResult) : Prop :=
  wire_string (aptr_name m) ∧ arr_ok AddPartitionsToTxnPartitionResult_ok (aptr_results m).
#[export] Instance AddPartitionsToTxnTopicResult_ok_dec m : Decision (AddPartitionsToTxnTopicResult_ok m).
Proof. unfold AddPartitionsToTxnTopicResult_ok. apply _. Defined.
Definition AddPartitionsToTxnResponse_ok (m : AddPartitionsToTxnResponse) : Prop :=
  in_s 32 (aps_throttle_time_ms m) ∧ arr_ok AddPartitionsToTxnTopicResult_ok (aps_errors m).
#[export] Instance AddPartitionsToTxnResponse_ok_dec m : Decision (AddPartitionsToTxnResponse_ok m).
Proof. unfold AddPartitionsToTxnResponse_ok. apply _. Defined.
Definition AddOffsetsToTxnRequest_ok (m : AddOffsetsToTxnRequest) : Prop :=
  wire_string (aoq_transactional_id m) ∧ in_s 64 (aoq_producer_id m)
  ∧ in_s 16 (aoq_producer_epoch m) ∧ wire_string (aoq_group_id m).
#[export] Instance AddOffsetsToTxnRequest_ok_dec m : Decision (AddOffsetsToTxnRequest_ok m).
Proof. unfold AddOffsetsToTxnRequest_ok. apply _. Defined.
Definition AddOffsetsToTxnResponse_ok (m : AddOffsetsToTxnResponse) : Prop :=
  in_s 32 (aos_throttle_time_ms m).
#[export] Instance AddOffsetsToTxnResponse_ok_dec m : Decision (AddOffsetsToTxnResponse_ok m).
Proof. unfold AddOffsetsToTxnResponse_ok. apply _. Defined.
Definition EndTxnRequest_ok (m : EndTxnRequest) : Prop :=
  wire_string (etq_transactional_id m) ∧ in_s 64 (etq_producer_id m)
  ∧ in_s 16 (etq_producer_epoch m).
#[export] Instance EndTxnRequest_ok_dec m : Decision (EndTxnRequest_ok m).
Proof. unfold EndTxnRequest_ok. apply _. Defined.
Definition EndTxnResponse_ok (m : EndTxnResponse) : Prop :=
  in_s 32 (ets_throttle_time_ms m).
#[export] Instance EndTxnResponse_ok_dec m : Decision (EndTxnResponse_ok m).
Proof. unfold EndTxnResponse_ok. apply _. Defined.

Definition seen_InitProducerIdRequest (version : Z) (m : InitProducerIdRequest) : InitProducerIdRequest :=
  mkInitPidReq (ipq_transactional_id m) (ipq_transaction_timeout_ms m)
    (if decide (version ≥ 3) then ipq_producer_id m else -1)
    (if decide (version ≥ 3) then ipq_producer_epoch m else -1).

Lemma InitProducerIdRequest_reads version m : InitProducerIdRequest_ok m →
  Reads (decode_InitProducerIdRequest version) (encode_InitProducerIdRequest version m) (seen_InitProducerIdRequest version m).
Proof. destruct m. codec decode_InitProducerIdRequest encode_InitProducerIdRequest InitProducerIdRequest_ok. Qed.
#[local] Hint Resolve InitProducerIdRequest_reads : wire.
Lemma InitProducerIdResponse_reads version m : InitProducerIdResponse_ok m →
  Reads (decode_InitProducerIdResponse version) (encode_InitProducerIdResponse version m) m.
Proof. destruct m. codec decode_InitProducerIdResponse encode_InitProducerIdResponse InitProducerIdResponse_ok. Qed.
#[local] Hint Resolve InitProducerIdResponse_reads : wire.
Lemma AddPartitionsToTxnTopic_reads m : AddPartitionsToTxnTopic_ok m →
  Reads decode_AddPartitionsToTxnTopic (encode_AddPartitionsToTxnTopic m) m.
Proof. destruct m. codec decode_AddPartitionsToTxnTopic encode_AddPartitionsToTxnTopic AddPartitionsToTxnTopic_ok. Qed.
#[local] Hint Resolve AddPartitionsToTxnTopic_reads : wire.
Lemma AddPartitionsToTxnRequest_reads version m : AddPartitionsToTxnRequest_ok m →
  Reads (decode_AddPartitionsToTxnRequest version) (encode_AddPartitionsToTxnRequest version m) m.
Proof. destruct m. codec decode_AddPartitionsToTxnRequest encode_AddPartitionsToTxnRequest AddPartitionsToTxnRequest_ok. Qed.
#[local] Hint Resolve AddPartitionsToTxnRequest_reads : wire.
Lemma AddPartitionsToTxnPartitionResult_reads m : AddPartitionsToTxnPartitionResult_ok m →
  Reads decode_AddPartitionsToTxnPartitionResult (encode_AddPartitionsToTxnPartitionResult m) m.
Proof. destruct m. codec decode_AddPartitionsToTxnPartitionResult encode_AddPartitionsToTxnPartitionResult AddPartitionsToTxnPartitionResult_ok. Qed.
#[local] Hint Resolve AddPartitionsToTxnPartitionResult_reads : wire.
Lemma AddPartitionsToTxnTopicResult_reads m : AddPartitionsToTxnTopicResult_ok m →
  Reads decode_AddPartitionsToTxnTopicResult (encode_AddPartitionsToTxnTopicResult m) m.
Proof. destruct m. codec decode_AddPartitionsToTxnTopicResult encode_AddPartitionsToTxnTopicResult AddPartitionsToTxnTopicResult_ok. Qed.
#[local] Hint Resolve AddPartitionsToTxnTopicResult_reads : wire.
Lemma AddPartitionsToTxnResponse_reads version m : AddPartitionsToTxnResponse_ok m →
  Reads (decode_AddPartitionsToTxnResponse version) (encode_AddPartitionsToTxnResponse version m) m.
Proof. destruct m. codec decode_AddPartitionsToTxnResponse encode_AddPartitionsToTxnResponse AddPartitionsToTxnResponse_ok. Qed.
#[local] Hint Resolve AddPartitionsToTxnResponse_reads : wire.
Lemma AddOffsetsToTxnRequest_reads version m : AddOffsetsToTxnRequest_ok m →
  Reads (decode_AddOffsetsToTxnRequest version) (encode_AddOffsetsToTxnRequest version m) m.
Proof. destruct m. codec decode_AddOffsetsToTxnRequest encode_AddOffsetsToTxnRequest AddOffsetsToTxnRequest_ok. Qed.
#[local] Hint Resolve AddOffsetsToTxnRequest_reads : wire.
Lemma AddOffsetsToTxnResponse_reads version m : AddOffsetsToTxnResponse_ok m →
  Reads (decode_AddOffsetsToTxnResponse version) (encode_AddOffsetsToTxnResponse version m) m.
Proof. destruct m. codec decode_AddOffsetsToTxnResponse encode_AddOffsetsToTxnResponse AddOffsetsToTxnResponse_ok. Qed.
#[local] Hint Resolve AddOffsetsToTxnResponse_reads : wire.
Lemma EndTxnRequest_reads version m : EndTxnRequest_ok m →
  Reads (decode_EndTxnRequest version) (encode_EndTxnRequest version m) m.
Proof. destruct m. codec decode_EndTxnRequest encode_EndTxnRequest EndTxnRequest_ok. Qed.
#[local] Hint Resolve EndTxnRequest_reads : wire.
Lemma EndTxnResponse_reads version m : EndTxnResponse_ok m →
  Reads (decode_EndTxnResponse version) (encode_EndTxnResponse version m) m.
Proof. destruct m. codec decode_EndTxnResponse encode_EndTxnResponse EndTxnResponse_ok. Qed.
#[local] Hint Resolve EndTxnResponse_reads : wire.
End codecs.
