(* ===== verification/MsgAuth.v ===== *)
(** * SASL and ACL messages

    The codecs of API keys 17, 36 and 29 to 31 of
    [crates/oxidemq-protocol/src/messages.rs], laid out as in [MsgData.v]. *)

From Stdlib Require Import Strings.Byte.
From stdpp Require Import base numbers list strings.
From S2P Require Import Prelude Bytes CoreTypes KafkaWire MessageTypes MsgCodec.

Section codecs.
Context `{Allocator}.

(** ** SaslHandshake (API key 17) *)
Record SaslHandshakeRequest := mkSaslHsReq { shq_mechanism : string }.
Record SaslHandshakeResponse := mkSaslHsResp {
  shs_error_code : KafkaErrorCode; shs_enabled_mechanisms : list string }.

Definition decode_SaslHandshakeRequest (version : Z) : decoder SaslHandshakeRequest :=
  mechanism ← read_string;
  match mechanism with
  | Some mechanism => mret (mkSaslHsReq mechanism)
  | None => fail (EProtocol "Missing SASL mechanism")
  end.
Definition encode_SaslHandshakeRequest (version : Z) (m : SaslHandshakeRequest) : bytes :=
  write_string (Some (shq_mechanism m)).

Definition decode_SaslHandshakeResponse (version : Z) : decoder SaslHandshakeResponse :=
  require 2 "Truncated SaslHandshakeResponse error code" ≫= λ _,
  error_code ← get_error;
  require 4 "Truncated SaslHandshakeResponse array count" ≫= λ _,
  count ← get_i32;
  mechs ← (if decide (count > 0) then read_n (Z.to_nat count) read_string else mret []);
  mret (mkSaslHsResp error_code (omap id mechs)).
Definition encode_SaslHandshakeResponse (version : Z) (m : SaslHandshakeResponse) : bytes :=
  put_error (shs_error_code m) ++ put_array (λ s, write_string (Some s)) (shs_enabled_mechanisms m).

(** ** SaslAuthenticate (API key 36) *)
Record SaslAuthenticateRequest := mkSaslAuthReq { saq_auth_bytes : bytes }.
Record SaslAuthenticateResponse := mkSaslAuthResp {
  sas_error_code : KafkaErrorCode; sas_error_message : option string; sas_auth_bytes : bytes;
  sas_session_lifetime_ms : Z }.

Definition read_blob_v (version : Z) : decoder bytes :=
  b ← (if decide (version ≥ 2) then read_compact_bytes else read_bytes); mret (default [] b).
Definition write_blob_v (version : Z) (b : bytes) : bytes :=
  if decide (version ≥ 2) then write_compact_bytes (Some b) else write_bytes (Some b).

Definition decode_SaslAuthenticateRequest (version : Z) : decoder SaslAuthenticateRequest :=
  auth_bytes ← read_blob_v version; read_tagged version ≫= λ _, mret (mkSaslAuthReq auth_bytes).
Definition encode_SaslAuthenticateRequest (version : Z) (m : SaslAuthenticateRequest) : bytes :=
  write_blob_v version (saq_auth_bytes m) ++ put_tagged version.

Definition decode_SaslAuthenticateResponse (version : Z) : decoder SaslAuthenticateResponse :=
  require 2 "Truncated SaslAuthenticateResponse error code" ≫= λ _,
  error_code ← get_error;
  error_message ← read_string_v version;
  auth_bytes ← read_blob_v version;
  session_lifetime_ms ←
    when (version ≥ 1) (require 8 "Truncated session_lifetime_ms" ≫= λ _, get_i64) 0;
  read_tagged version ≫= λ _,
  mret (mkSaslAuthResp error_code error_message auth_bytes session_lifetime_ms).
Definition encode_SaslAuthenticateResponse (version : Z) (m : SaslAuthenticateResponse) : bytes :=
  put_error (sas_error_code m) ++ write_string_v version (sas_error_message m)
    ++ write_blob_v version (sas_auth_bytes m)
    ++ put_when (version ≥ 1) (put_64 (sas_session_lifetime_ms m)) ++ put_tagged version.

(** ** CreateAcls (API key 30) *)
Record CreateAclsRequest := mkCreateAclsReq { caq_creations : list AclCreation }.
Record CreateAclsResponse := mkCreateAclsResp {
  cas_throttle_time_ms : Z; cas_results : list AclCreationResult }.

(** [if version >= 1 { if src.is_empty() { Err } src.get_i8() } else { d }] *)
Definition read_pattern_type (version : Z) (trunc : string) (d : Z) : decoder Z :=
  when (version ≥ 1) (require 1 trunc ≫= λ _, get_i8) d.

Definition decode_AclCreation (version : Z) : decoder AclCreation :=
  require 1 "Truncated AclCreation resource_type" ≫= λ _,
  resource_type ← get_i8;
  resource_name ← read_str_v version;
  resource_pattern_type ← read_pattern_type version "Truncated resource_pattern_type" 3;
  principal ← read_str_v version;
  host ← read_str_v version;
  require 2 "Truncated operation / permission_type" ≫= λ _,
  operation ← get_i8; permission_type ← get_i8;
  read_tagged version ≫= λ _,
  mret (mkAclCreation resource_type resource_name resource_pattern_type principal host operation
          permission_type).
Definition encode_AclCreation (version : Z) (c : AclCreation) : bytes :=
  put_8 (ac_resource_type c) ++ write_string_v version (Some (ac_resource_name c))
    ++ put_when (version ≥ 1) (put_8 (ac_resource_pattern_type c))
    ++ write_string_v version (Some (ac_principal c)) ++ write_string_v version (Some (ac_host c))
    ++ put_8 (ac_operation c) ++ put_8 (ac_permission_type c) ++ put_tagged version.

Definition decode_CreateAclsRequest (version : Z) : decoder CreateAclsRequest :=
  creations ← read_array_v version "Truncated CreateAclsRequest count" (read_vec (decode_AclCreation version));
  read_tagged version ≫= λ _,
  mret (mkCreateAclsReq creations).
Definition encode_CreateAclsRequest (version : Z) (m : CreateAclsRequest) : bytes :=
  put_array_v version (encode_AclCreation version) (caq_creations m) ++ put_tagged version.

Definition decode_AclCreationResult (version : Z) : decoder AclCreationResult :=
  require 2 "Truncated error_code" ≫= λ _,
  error_code ← get_error;
  error_message ← read_string_v version;
  read_tagged version ≫= λ _,
  mret (mkAclResult error_code error_message).
Definition encode_AclCreationResult (version : Z) (r : AclCreationResult) : bytes :=
  put_error (ar_error_code r) ++ write_string_v version (ar_error_message r) ++ put_tagged version.

Definition decode_CreateAclsResponse (version : Z) : decoder CreateAclsResponse :=
  throttle_time_ms ← when (version ≥ 1) (require 4 "Truncated throttle_time_ms" ≫= λ _, get_i32) 0;
  results ← read_array_v version "Truncated results count" (read_vec (decode_AclCreationResult version));
  read_tagged version ≫= λ _,
  mret (mkCreateAclsResp throttle_time_ms results).
Definition encode_CreateAclsResponse (version : Z) (m : CreateAclsResponse) : bytes :=
  put_when (version ≥ 1) (put_32 (cas_throttle_time_ms m))
    ++ put_array_v version (encode_AclCreationResult version) (cas_results m) ++ put_tagged version.

(** ** DescribeAcls (API key 29) *)
Record DescribeAclsResponse := mkDescAclsResp {
  das_throttle_time_ms : Z; das_error_code : KafkaErrorCode; das_error_message : option string;
  das_resources : list DescribeAclsResource }.

(** [DescribeAclsRequest] and [DeleteAclsFilter] have the same fields and the
    same encoding; their decoders differ in two error messages. *)
Definition decode_acl_filter (t_type t_ops : string) (version : Z) : decoder AclFilter :=
  require 1 t_type ≫= λ _,
  resource_type ← get_i8;
  resource_name ← read_string_v version;
  pattern_type ← read_pattern_type version "Truncated resource_pattern_type_filter" 1;
  principal ← read_string_v version;
  host ← read_string_v version;
  require 2 t_ops ≫= λ _,
  operation ← get_i8; permission_type ← get_i8;
  read_tagged version ≫= λ _,
  mret (mkAclFilter resource_type resource_name pattern_type principal host operation permission_type).
Definition encode_AclFilter (version : Z) (f : AclFilter) : bytes :=
  put_8 (af_resource_type f) ++ write_string_v version (af_resource_name f)
    ++ put_when (version ≥ 1) (put_8 (af_pattern_type f))
    ++ write_string_v version (af_principal f) ++ write_string_v version (af_host f)
    ++ put_8 (af_operation f) ++ put_8 (af_permission_type f) ++ put_tagged version.

Definition decode_DescribeAclsRequest : Z → decoder AclFilter :=
  decode_acl_filter "Truncated DescribeAclsRequest resource_type" "Truncated operation / permission_type".

Definition decode_AclDescription (version : Z) : decoder AclDescription :=
  principal ← read_str_v version; host ← read_str_v version;
  require 2 "Truncated acl operation/permission" ≫= λ _,
  operation ← get_i8; permission_type ← get_i8;
  read_tagged version ≫= λ _,
  mret (mkAclDesc principal host operation permission_type).
Definition encode_AclDescription (version : Z) (a : AclDescription) : bytes :=
  write_string_v version (Some (ad_principal a)) ++ write_string_v version (Some (ad_host a))
    ++ put_8 (ad_operation a) ++ put_8 (ad_permission_type a) ++ put_tagged version.

Definition decode_DescribeAclsResource (version : Z) : decoder DescribeAclsResource :=
  require 1 "Truncated resource_type" ≫= λ _,
  resource_type ← get_i8;
  resource_name ← read_str_v version;
  pattern_type ← read_pattern_type version "Truncated pattern_type" 3;
  acls ← read_array_v version "Truncated acls count" (read_vec (decode_AclDescription version));
  read_tagged version ≫= λ _,
  mret (mkAclResource resource_type resource_name pattern_type acls).
Definition encode_DescribeAclsResource (version : Z) (r : DescribeAclsResource) : bytes :=
  put_8 (as_resource_type r) ++ write_string_v version (Some (as_resource_name r))
    ++ put_when (version ≥ 1) (put_8 (as_pattern_type r))
    ++ put_array_v version (encode_AclDescription version) (as_acls r) ++ put_tagged version.

Definition decode_DescribeAclsResponse (version : Z) : decoder DescribeAclsResponse :=
  require 6 "Truncated DescribeAclsResponse header" ≫= λ _,
  throttle_time_ms ← get_i32; error_code ← get_error;
  error_message ← read_string_v version;
  resources ← read_array_v version "Truncated resources count" (read_vec (decode_DescribeAclsResource version));
  read_tagged version ≫= λ _,
  mret (mkDescAclsResp throttle_time_ms error_code error_message resources).
Definition encode_DescribeAclsResponse (version : Z) (m : DescribeAclsResponse) : bytes :=
  put_32 (das_throttle_time_ms m) ++ put_error (das_error_code m)
    ++ write_string_v version (das_error_message m)
    ++ put_array_v version (encode_DescribeAclsResource version) (das_resources m) ++ put_tagged version.

(** ** DeleteAcls (API key 31) *)
Record DeleteAclsRequest := mkDelAclsReq { xaq_filters : list AclFilter }.
Record DeleteAclsResponse := mkDelAclsResp {
  xas_throttle_time_ms : Z; xas_filter_results : list DeleteAclsFilterResult }.

Definition decode_DeleteAclsFilter : Z → decoder AclFilter :=
  decode_acl_filter "Truncated filter resource_type" "Truncated filter operation/permission".

Definition decode_DeleteAclsRequest (version : Z) : decoder DeleteAclsRequest :=
  filters ← read_array_v version "Truncated DeleteAclsRequest filters count"
              (read_vec (decode_DeleteAclsFilter version));
  read_tagged version ≫= λ _,
  mret (mkDelAclsReq filters).
Definition encode_DeleteAclsRequest (version : Z) (m : DeleteAclsRequest) : bytes :=
  put_array_v version (encode_AclFilter version) (xaq_filters m) ++ put_tagged version.

Definition decode_DeleteAclsMatchingAcl (version : Z) : decoder DeleteAclsMatchingAcl :=
  require 2 "Truncated matching_acl error_code" ≫= λ _,
  error_code ← get_error;
  error_message ← read_string_v version;
  require 1 "Truncated matching_acl resource_type" ≫= λ _,
  resource_type ← get_i8;
  resource_name ← read_str_v version;
  pattern_type ← read_pattern_type version "Truncated pattern_type" 3;
  principal ← read_str_v version;
  host ← read_str_v version;
  require 2 "Truncated matching_acl operation/permission" ≫= λ _,
  operation ← get_i8; permission_type ← get_i8;
  read_tagged version ≫= λ _,
  mret (mkMatching error_code error_message resource_type resource_name pattern_type principal host
          operation permission_type).
Definition encode_DeleteAclsMatchingAcl (version : Z) (m : DeleteAclsMatchingAcl) : bytes :=
  put_error (mt_error_code m) ++ write_string_v version (mt_error_message m)
    ++ put_8 (mt_resource_type m) ++ write_string_v version (Some (mt_resource_name m))
    ++ put_when (version ≥ 1) (put_8 (mt_pattern_type m))
    ++ write_string_v version (Some (mt_principal m)) ++ write_string_v version (Some (mt_host m))
    ++ put_8 (mt_operation m) ++ put_8 (mt_permission_type m) ++ put_tagged version.

Definition decode_DeleteAclsFilterResult (version : Z) : decoder DeleteAclsFilterResult :=
  require 2 "Truncated filter_result error_code" ≫= λ _,
  error_code ← get_error;
  error_message ← read_string_v version;
  matching_acls ← read_array_v version "Truncated matching_acls count"
                    (read_vec (decode_DeleteAclsMatchingAcl version));
  read_tagged version ≫= λ _,
  mret (mkFilterResult error_code error_message matching_acls).
Definition encode_DeleteAclsFilterResult (version : Z) (r : DeleteAclsFilterResult) : bytes :=
  put_error (fr_error_code r) ++ write_string_v version (fr_error_message r)
    ++ put_array_v version (encode_DeleteAclsMatchingAcl version) (fr_matching_acls r)
    ++ put_tagged version.

Definition decode_DeleteAclsResponse (version : Z) : decoder DeleteAclsResponse :=
  require 4 "Truncated DeleteAclsResponse throttle_time_ms" ≫= λ _,
  throttle_time_ms ← get_i32;
  filter_results ← read_array_v version "Truncated filter_results count"
                     (read_vec (decode_DeleteAclsFilterResult version));
  read_tagged version ≫= λ _,
  mret (mkDelAclsResp throttle_time_ms filter_results).
Definition encode_DeleteAclsResponse (version : Z) (m : DeleteAclsResponse) : bytes :=
  put_32 (xas_throttle_time_ms m)
    ++ put_array_v version (encode_DeleteAclsFilterResult version) (xas_filter_results m)
    ++ put_tagged version.

(** ** What the fields can carry, what the other side sees, and round trips *)
Lemma reads_blob_v version b : wire_bytes b → Reads (read_blob_v version) (write_blob_v version b) b.
Proof.
  intros Hb. unfold read_blob_v, write_blob_v.
  apply (reads_map _ (default []) _ (Some b)). case_decide.
  - by apply reads_compact_bytes, wire_bytes_compact.
  - by apply reads_bytes.
Qed.
Lemma reads_pattern_type version trunc x d : in_s 8 x →
  Reads (read_pattern_type version trunc d) (put_when (version ≥ 1) (put_8 x))
    (if decide (version ≥ 1) then x else d).
Proof.
  intros. apply reads_when. apply (reads_require 1 _ (λ _, get_i8)); [by lens|]. by apply reads_i8.
Qed.
#[local] Hint Resolve reads_blob_v reads_pattern_type : wire.

Definition SaslHandshakeRequest_ok (m : SaslHandshakeRequest) : Prop :=
  wire_string (shq_mechanism m).
#[export] Instance SaslHandshakeRequest_ok_dec m : Decision (SaslHandshakeRequest_ok m).
Proof. unfold SaslHandshakeRequest_ok. apply _. Defined.
Definition SaslHandshakeResponse_ok (m : SaslHandshakeResponse) : Prop :=
  arr_ok wire_string (shs_enabled_mechanisms m).
#[export] Instance SaslHandshakeResponse_ok_dec m : Decision (SaslHandshakeResponse_ok m).
Proof. unfold SaslHandshakeResponse_ok. apply _. Defined.
Definition SaslAuthenticateRequest_ok (m : SaslAuthenticateRequest) : Prop :=
  wire_bytes (saq_auth_bytes m).
#[export] Instance SaslAuthenticateRequest_ok_dec m : Decision (SaslAuthenticateRequest_ok m).
Proof. unfold SaslAuthenticateRequest_ok. apply _. Defined.
Definition SaslAuthenticateResponse_ok (version : Z) (m : SaslAuthenticateResponse) : Prop :=
  opt_all (wire_string_v version) (sas_error_message m) ∧ wire_bytes (sas_auth_bytes m)
  ∧ in_s 64 (sas_session_lifetime_ms m).
#[export] Instance SaslAuthenticateResponse_ok_dec version m : Decision (SaslAuthenticateResponse_ok version m).
Proof. unfold SaslAuthenticateResponse_ok. apply _. Defined.
Definition AclCreation_ok (version : Z) (m : AclCreation) : Prop :=
  in_s 8 (ac_resource_type m) ∧ wire_string_v version (ac_resource_name m)
  ∧ in_s 8 (ac_resource_pattern_type m) ∧ wire_string_v version (ac_principal m)
  ∧ wire_string_v version (ac_host m) ∧ in_s 8 (ac_operation m) ∧ in_s 8 (ac_permission_type m).
#[export] Instance AclCreation_ok_dec version m : Decision (AclCreation_ok version m).
Proof. unfold AclCreation_ok. apply _. Defined.
Definition CreateAclsRequest_ok (version : Z) (m : CreateAclsRequest) : Prop :=
  arr_ok (AclCreation_ok version) (caq_creations m).
#[export] Instance CreateAclsRequest_ok_dec version m : Decision (CreateAclsRequest_ok version m).
Proof. unfold CreateAclsRequest_ok. apply _. Defined.
Definition AclCreationResult_ok (version : Z) (m : AclCreationResult) : Prop :=
  opt_all (wire_string_v version) (ar_error_message m).
#[export] Instance AclCreationResult_ok_dec version m : Decision (AclCreationResult_ok version m).
Proof. unfold AclCreationResult_ok. apply _. Defined.
Definition CreateAclsResponse_ok (version : Z) (m : CreateAclsResponse) : Prop :=
  in_s 32 (cas_throttle_time_ms m) ∧ arr_ok (AclCreationResult_ok version) (cas_results m).
#[export] Instance CreateAclsResponse_ok_dec version m : Decision (CreateAclsResponse_ok version m).
Proof. unfold CreateAclsResponse_ok. apply _. Defined.
Definition AclFilter_ok (version : Z) (m : AclFilter) : Prop :=
  in_s 8 (af_resource_type m) ∧ opt_all (wire_string_v version) (af_resource_name m)
  ∧ in_s 8 (af_pattern_type m) ∧ opt_all (wire_string_v version) (af_principal m)
  ∧ opt_all (wire_string_v version) (af_host m) ∧ in_s 8 (af_operation m)
  ∧ in_s 8 (af_permission_type m).
#[export] Instance AclFilter_ok_dec version m : Decision (AclFilter_ok version m).
Proof. unfold AclFilter_ok. apply _. Defined.
Definition AclDescription_ok (version : Z) (m : AclDescription) : Prop :=
  wire_string_v version (ad_principal m) ∧ wire_string_v version (ad_host m)
  ∧ in_s 8 (ad_operation m) ∧ in_s 8 (ad_permission_type m).
#[export] Instance AclDescription_ok_dec version m : Decision (AclDescription_ok version m).
Proof. unfold AclDescription_ok. apply _. Defined.
Definition DescribeAclsResource_ok (version : Z) (m : DescribeAclsResource) : Prop :=
  in_s 8 (as_resource_type m) ∧ wire_string_v version (as_resource_name m)
  ∧ in_s 8 (as_pattern_type m) ∧ arr_ok (AclDescription_ok version) (as_acls m).
#[export] Instance DescribeAclsResource_ok_dec version m : Decision (DescribeAclsResource_ok version m).
Proof. unfold DescribeAclsResource_ok. apply _. Defined.
Definition DescribeAclsResponse_ok (version : Z) (m : DescribeAclsResponse) : Prop :=
  in_s 32 (das_throttle_time_ms m) ∧ opt_all (wire_string_v version) (das_error_message m)
  ∧ arr_ok (DescribeAclsResource_ok version) (das_resources m).
#[export] Instance DescribeAclsResponse_ok_dec version m : Decision (DescribeAclsResponse_ok version m).
Proof. unfold DescribeAclsResponse_ok. apply _. Defined.
Definition DeleteAclsRequest_ok (version : Z) (m : DeleteAclsRequest) : Prop :=
  arr_ok (AclFilter_ok version) (xaq_filters m).
#[export] Instance DeleteAclsRequest_ok_dec version m : Decision (DeleteAclsRequest_ok version m).
Proof. unfold DeleteAclsRequest_ok. apply _. Defined.
Definition DeleteAclsMatchingAcl_ok (version : Z) (m : DeleteAclsMatchingAcl) : Prop :=
  opt_all (wire_string_v version) (mt_error_message m) ∧ in_s 8 (mt_resource_type m)
  ∧ wire_string_v version (mt_resource_name m) ∧ in_s 8 (mt_pattern_type m)
  ∧ wire_string_v version (mt_principal m) ∧ wire_string_v version (mt_host m)
  ∧ in_s 8 (mt_operation m) ∧ in_s 8 (mt_permission_type m).
#[export] Instance DeleteAclsMatchingAcl_ok_dec version m : Decision (DeleteAclsMatchingAcl_ok version m).
Proof. unfold DeleteAclsMatchingAcl_ok. apply _. Defined.
Definition DeleteAclsFilterResult_ok (version : Z) (m : DeleteAclsFilterResult) : Prop :=
  opt_all (wire_string_v version) (fr_error_message m)
  ∧ arr_ok (DeleteAclsMatchingAcl_ok version) (fr_matching_acls m).
#[export] Instance DeleteAclsFilterResult_ok_dec version m : Decision (DeleteAclsFilterResult_ok version m).
Proof. unfold DeleteAclsFilterResult_ok. apply _. Defined.
Definition DeleteAclsResponse_ok (version : Z) (m : DeleteAclsResponse) : Prop :=
  in_s 32 (xas_throttle_time_ms m)
  ∧ arr_ok (DeleteAclsFilterResult_ok version) (xas_filter_results m).
#[export] Instance DeleteAclsResponse_ok_dec version m : Decision (DeleteAclsResponse_ok version m).
Proof. unfold DeleteAclsResponse_ok. apply _. Defined.

Definition seen_SaslAuthenticateResponse (version : Z) (m : SaslAuthenticateResponse) : SaslAuthenticateResponse :=
  mkSaslAuthResp (sas_error_code m) (sas_error_message m) (sas_auth_bytes m)
    (if decide (version ≥ 1) then sas_session_lifetime_ms m else 0).
Definition seen_AclCreation (version : Z) (m : AclCreation) : AclCreation :=
  mkAclCreation (ac_resource_type m) (ac_resource_name m)
    (if decide (version ≥ 1) then ac_resource_pattern_type m else 3) (ac_principal m)
    (ac_host m) (ac_operation m) (ac_permission_type m).
Definition seen_CreateAclsRequest (version : Z) (m : CreateAclsRequest) : CreateAclsRequest :=
  mkCreateAclsReq (seen_AclCreation version <$> caq_creations m).
Definition seen_CreateAclsResponse (version : Z) (m : CreateAclsResponse) : CreateAclsResponse :=
  mkCreateAclsResp (if decide (version ≥ 1) then cas_throttle_time_ms m else 0) (cas_results m).
Definition seen_AclFilter (version : Z) (m : AclFilter) : AclFilter :=
  mkAclFilter (af_resource_type m) (af_resource_name m)
    (if decide (version ≥ 1) then af_pattern_type m else 1) (af_principal m) (af_host m)
    (af_operation m) (af_permission_type m).
Definition seen_DescribeAclsResource (version : Z) (m : DescribeAclsResource) : DescribeAclsResource :=
  mkAclResource (as_resource_type m) (as_resource_name m)
    (if decide (version ≥ 1) then as_pattern_type m else 3) (as_acls m).
Definition seen_DescribeAclsResponse (version : Z) (m : DescribeAclsResponse) : DescribeAclsResponse :=
  mkDescAclsResp (das_throttle_time_ms m) (das_error_code m) (das_error_message m)
    (seen_DescribeAclsResource version <$> das_resources m).
Definition seen_DeleteAclsRequest (version : Z) (m : DeleteAclsRequest) : DeleteAclsRequest :=
  mkDelAclsReq (seen_AclFilter version <$> xaq_filters m).
Definition seen_DeleteAclsMatchingAcl (version : Z) (m : DeleteAclsMatchingAcl) : DeleteAclsMatchingAcl :=
  mkMatching (mt_error_code m) (mt_error_message m) (mt_resource_type m) (mt_resource_name m)
    (if decide (version ≥ 1) then mt_pattern_type m else 3) (mt_principal m) (mt_host m)
    (mt_operation m) (mt_permission_type m).
Definition seen_DeleteAclsFilterResult (version : Z) (m : DeleteAclsFilterResult) : DeleteAclsFilterResult :=
  mkFilterResult (fr_error_code m) (fr_error_message m)
    (seen_DeleteAclsMatchingAcl version <$> fr_matching_acls m).
Definition seen_DeleteAclsResponse (version : Z) (m : DeleteAclsResponse) : DeleteAclsResponse :=
  mkDelAclsResp (xas_throttle_time_ms m)
    (seen_DeleteAclsFilterResult version <$> xas_filter_results m).
Lemma acl_filter_reads t1 t2 version m : AclFilter_ok version m →
  Reads (decode_acl_filter t1 t2 version) (encode_AclFilter version m) (seen_AclFilter version m).
Proof. destruct m. codec decode_acl_filter encode_AclFilter AclFilter_ok. Qed.
Lemma DescribeAclsRequest_reads version m : AclFilter_ok version m →
  Reads (decode_DescribeAclsRequest version) (encode_AclFilter version m) (seen_AclFilter version m).
Proof. apply acl_filter_reads. Qed.
Lemma DeleteAclsFilter_reads version m : AclFilter_ok version m →
  Reads (decode_DeleteAclsFilter version) (encode_AclFilter version m) (seen_AclFilter version m).
Proof. apply acl_filter_reads. Qed.
#[local] Hint Resolve DeleteAclsFilter_reads : wire.


Lemma SaslHandshakeRequest_reads version m : SaslHandshakeRequest_ok m →
  Reads (decode_SaslHandshakeRequest version) (encode_SaslHandshakeRequest version m) m.
Proof.
  destruct m. intros ? k. unfold decode_SaslHandshakeRequest, encode_SaslHandshakeRequest. simpl.
  by erewrite reader_bind_ok by (by apply (reads_string (Some _))).
Qed.
#[local] Hint Resolve SaslHandshakeRequest_reads : wire.
Lemma SaslHandshakeResponse_reads version m : SaslHandshakeResponse_ok m →
  Reads (decode_SaslHandshakeResponse version) (encode_SaslHandshakeResponse version m) m.
Proof.
  destruct m as [e l]. unfold SaslHandshakeResponse_ok. simpl. intros Hl. pose proof (zlen_nonneg l).
  unfold decode_SaslHandshakeResponse, encode_SaslHandshakeResponse. simpl.
  apply reads_require; [reads_len|]. eapply reads_bind; [apply reads_error|].
  apply reads_require; [apply put_array_len|]. eapply reads_bind; [by eapply reads_count|].
  rewrite <- (app_nil_r (put_items _ _)). eapply reads_bind; [|apply reads_ret_eq; f_equal; apply omap_some].
  destruct Hl as (_ & _ & Hl). case_decide.
  - unfold zlen. rewrite Nat2Z.id. by apply reads_string_items.
  - destruct l; [apply reads_ret|]. unfold zlen in *. simpl in *. lia.
Qed.
#[local] Hint Resolve SaslHandshakeResponse_reads : wire.
Lemma SaslAuthenticateRequest_reads version m : SaslAuthenticateRequest_ok m →
  Reads (decode_SaslAuthenticateRequest version) (encode_SaslAuthenticateRequest version m) m.
Proof. destruct m. codec decode_SaslAuthenticateRequest encode_SaslAuthenticateRequest SaslAuthenticateRequest_ok. Qed.
#[local] Hint Resolve SaslAuthenticateRequest_reads : wire.
Lemma SaslAuthenticateResponse_reads version m : SaslAuthenticateResponse_ok version m →
  Reads (decode_SaslAuthenticateResponse version) (encode_SaslAuthenticateResponse version m) (seen_SaslAuthenticateResponse version m).
Proof. destruct m. codec decode_SaslAuthenticateResponse encode_SaslAuthenticateResponse SaslAuthenticateResponse_ok. Qed.
#[local] Hint Resolve SaslAuthenticateResponse_reads : wire.
Lemma AclCreation_reads version m : AclCreation_ok version m →
  Reads (decode_AclCreation version) (encode_AclCreation version m) (seen_AclCreation version m).
Proof. destruct m. codec decode_AclCreation encode_AclCreation AclCreation_ok. Qed.
#[local] Hint Resolve AclCreation_reads : wire.
Lemma CreateAclsRequest_reads version m : CreateAclsRequest_ok version m →
  Reads (decode_CreateAclsRequest version) (encode_CreateAclsRequest version m) (seen_CreateAclsRequest version m).
Proof. destruct m. codec decode_CreateAclsRequest encode_CreateAclsRequest CreateAclsRequest_ok. Qed.
#[local] Hint Resolve CreateAclsRequest_reads : wire.
Lemma AclCreationResult_reads version m : AclCreationResult_ok version m →
  Reads (decode_AclCreationResult version) (encode_AclCreationResult version m) m.
Proof. destruct m. codec decode_AclCreationResult encode_AclCreationResult AclCreationResult_ok. Qed.
#[local] Hint Resolve AclCreationResult_reads : wire.
Lemma CreateAclsResponse_reads version m : CreateAclsResponse_ok version m →
  Reads (decode_CreateAclsResponse version) (encode_CreateAclsResponse version m) (seen_CreateAclsResponse version m).
Proof. destruct m. codec decode_CreateAclsResponse encode_CreateAclsResponse CreateAclsResponse_ok. Qed.
#[local] Hint Resolve CreateAclsResponse_reads : wire.
Lemma AclDescription_reads version m : AclDescription_ok version m →
  Reads (decode_AclDescription version) (encode_AclDescription version m) m.
Proof. destruct m. codec decode_AclDescription encode_AclDescription AclDescription_ok. Qed.
#[local] Hint Resolve AclDescription_reads : wire.
Lemma DescribeAclsResource_reads version m : DescribeAclsResource_ok version m →
  Reads (decode_DescribeAclsResource version) (encode_DescribeAclsResource version m) (seen_DescribeAclsResource version m).
Proof. destruct m. codec decode_DescribeAclsResource encode_DescribeAclsResource DescribeAclsResource_ok. Qed.
#[local] Hint Resolve DescribeAclsResource_reads : wire.
Lemma DescribeAclsResponse_reads version m : DescribeAclsResponse_ok version m →
  Reads (decode_DescribeAclsResponse version) (encode_DescribeAclsResponse version m) (seen_DescribeAclsResponse version m).
Proof. destruct m. codec decode_DescribeAclsResponse encode_DescribeAclsResponse DescribeAclsResponse_ok. Qed.
#[local] Hint Resolve DescribeAclsResponse_reads : wire.
Lemma DeleteAclsRequest_reads version m : DeleteAclsRequest_ok version m →
  Reads (decode_DeleteAclsRequest version) (encode_DeleteAclsRequest version m) (seen_DeleteAclsRequest version m).
Proof. destruct m. codec decode_DeleteAclsRequest encode_DeleteAclsRequest DeleteAclsRequest_ok. Qed.
#[local] Hint Resolve DeleteAclsRequest_reads : wire.
Lemma DeleteAclsMatchingAcl_reads version m : DeleteAclsMatchingAcl_ok version m →
  Reads (decode_DeleteAclsMatchingAcl version) (encode_DeleteAclsMatchingAcl version m) (seen_DeleteAclsMatchingAcl version m).
Proof. destruct m. codec decode_DeleteAclsMatchingAcl encode_DeleteAclsMatchingAcl DeleteAclsMatchingAcl_ok. Qed.
#[local] Hint Resolve DeleteAclsMatchingAcl_reads : wire.
Lemma DeleteAclsFilterResult_reads version m : DeleteAclsFilterResult_ok version m →
  Reads (decode_DeleteAclsFilterResult version) (encode_DeleteAclsFilterResult version m) (seen_DeleteAclsFilterResult version m).
Proof. destruct m. codec decode_DeleteAclsFilterResult encode_DeleteAclsFilterResult DeleteAclsFilterResult_ok. Qed.
#[local] Hint Resolve DeleteAclsFilterResult_reads : wire.
Lemma DeleteAclsResponse_reads version m : DeleteAclsResponse_ok version m →
  Reads (decode_DeleteAclsResponse version) (encode_DeleteAclsResponse version m) (seen_DeleteAclsResponse version m).
Proof. destruct m. codec decode_DeleteAclsResponse encode_DeleteAclsResponse DeleteAclsResponse_ok. Qed.
#[local] Hint Resolve DeleteAclsResponse_reads : wire.
End codecs.
