(* ===== verification/MsgAdmin.v ===== *)
(** * Topic, configuration, record and partition administration messages

    The codecs of API keys 19, 20, 21, 32, 33 and 37 of
    [crates/oxidemq-protocol/src/messages.rs], laid out as in [MsgData.v]. *)

From Stdlib Require Import Strings.Byte.
From stdpp Require Import base numbers list strings.
From S2P Require Import Prelude Bytes CoreTypes KafkaWire MessageTypes MsgCodec.

Section codecs.
Context `{Allocator}.

(** Broker ids: the count, clamped at 0, is checked against the buffer. *)
Definition read_broker_ids (trunc : string) : decoder (list Z) :=
  n ← get_i32;
  let n := if decide (n < 0) then 0 else n in
  require (n * 4) trunc ≫= λ _, read_vec get_i32 n.

(** ** CreateTopics (API key 19) *)
Record CreateTopicsReplicaAssignment := mkCTRA {
  ctra_partition_index : Z; ctra_broker_ids : list Z }.
Record CreateTopicsConfig := mkCTC { ctc_name : string; ctc_value : option string }.
Record CreatableTopic := mkCreatable {
  ct_name : string; ct_num_partitions : Z; ct_replication_factor : Z;
  ct_assignments : list CreateTopicsReplicaAssignment; ct_configs : list CreateTopicsConfig }.
Record CreateTopicsRequest := mkCreateTopicsReq {
  ctq_topics : list CreatableTopic; ctq_timeout_ms : Z; ctq_validate_only : bool }.

Definition decode_CreateTopicsReplicaAssignment : decoder CreateTopicsReplicaAssignment :=
  require 8 "Truncated assignment data" ≫= λ _,
  partition_index ← get_i32; broker_ids ← read_broker_ids "Truncated broker_ids";
  mret (mkCTRA partition_index broker_ids).
Definition encode_CreateTopicsReplicaAssignment (a : CreateTopicsReplicaAssignment) : bytes :=
  put_32 (ctra_partition_index a) ++ put_array put_32 (ctra_broker_ids a).

Definition decode_CreateTopicsConfig : decoder CreateTopicsConfig :=
  name ← read_str; value ← read_string; mret (mkCTC name value).
Definition encode_CreateTopicsConfig (c : CreateTopicsConfig) : bytes :=
  write_string (Some (ctc_name c)) ++ write_string (ctc_value c).

Definition decode_CreatableTopic : decoder CreatableTopic :=
  name ← read_str;
  require 6 "Truncated CreatableTopic partitions/replication" ≫= λ _,
  num_partitions ← get_i32; replication_factor ← get_i16;
  assignments ← read_array_clamped "Truncated assignments count" (read_vec decode_CreateTopicsReplicaAssignment);
  configs ← read_array_clamped "Truncated configs count" (read_vec decode_CreateTopicsConfig);
  mret (mkCreatable name num_partitions replication_factor assignments configs).
Definition encode_CreatableTopic (t : CreatableTopic) : bytes :=
  write_string (Some (ct_name t)) ++ put_32 (ct_num_partitions t) ++ put_16 (ct_replication_factor t)
    ++ put_array encode_CreateTopicsReplicaAssignment (ct_assignments t)
    ++ put_array encode_CreateTopicsConfig (ct_configs t).

Definition decode_CreateTopicsRequest (version : Z) : decoder CreateTopicsRequest :=
  topics ← read_array_checked "Truncated CreateTopicsRequest topics count" "Negative topics count"
             (read_vec decode_CreatableTopic);
  require 4 "Truncated timeout_ms" ≫= λ _,
  timeout_ms ← get_i32;
  validate_only ← when (version ≥ 1) (read_trailing_bool false) false;
  mret (mkCreateTopicsReq topics timeout_ms validate_only).
Definition encode_CreateTopicsRequest (version : Z) (m : CreateTopicsRequest) : bytes :=
  put_array encode_CreatableTopic (ctq_topics m) ++ put_32 (ctq_timeout_ms m)
    ++ put_when (version ≥ 1) (put_bool (ctq_validate_only m)).

Record CreatableTopicResult := mkCTR {
  ctr_name : string; ctr_error_code : KafkaErrorCode; ctr_error_message : option string }.
Record CreateTopicsResponse := mkCreateTopicsResp {
  cts_throttle_time_ms : Z; cts_topics : list CreatableTopicResult }.

Definition decode_CreatableTopicResult (version : Z) : decoder CreatableTopicResult :=
  name ← read_str;
  require 2 "Truncated error_code" ≫= λ _,
  error_code ← get_error;
  error_message ← when (version ≥ 1) read_string None;
  mret (mkCTR name error_code error_message).
Definition encode_CreatableTopicResult (version : Z) (t : CreatableTopicResult) : bytes :=
  write_string (Some (ctr_name t)) ++ put_error (ctr_error_code t)
    ++ put_when (version ≥ 1) (write_string (ctr_error_message t)).

Definition decode_CreateTopicsResponse (version : Z) : decoder CreateTopicsResponse :=
  throttle_time_ms ← when (version ≥ 2) (require 4 "Truncated throttle_time_ms" ≫= λ _, get_i32) 0;
  topics ← read_array_checked "Truncated topics count" "Negative topics count"
             (read_vec (decode_CreatableTopicResult version));
  mret (mkCreateTopicsResp throttle_time_ms topics).
Definition encode_CreateTopicsResponse (version : Z) (m : CreateTopicsResponse) : bytes :=
  put_when (version ≥ 2) (put_32 (cts_throttle_time_ms m))
    ++ put_array (encode_CreatableTopicResult version) (cts_topics m).

(** ** DeleteTopics (API key 20) *)
Record DeleteTopicsRequest := mkDelTopicsReq { dtq_topic_names : list string; dtq_timeout_ms : Z }.
Record DeletableTopicResult := mkDTR { dtr_name : string; dtr_error_code : KafkaErrorCode }.
Record DeleteTopicsResponse := mkDelTopicsResp {
  dts_throttle_time_ms : Z; dts_responses : list DeletableTopicResult }.

Definition decode_DeleteTopicsRequest (version : Z) : decoder DeleteTopicsRequest :=
  topic_names ← read_array_checked "Truncated DeleteTopicsRequest count" "Negative count" read_strings;
  require 4 "Truncated timeout_ms" ≫= λ _,
  timeout_ms ← get_i32;
  mret (mkDelTopicsReq topic_names timeout_ms).
Definition encode_DeleteTopicsRequest (version : Z) (m : DeleteTopicsRequest) : bytes :=
  put_array (λ s, write_string (Some s)) (dtq_topic_names m) ++ put_32 (dtq_timeout_ms m).

Definition decode_DeletableTopicResult : decoder DeletableTopicResult :=
  name ← read_str;
  require 2 "Truncated error_code" ≫= λ _,
  error_code ← get_error; mret (mkDTR name error_code).
Definition encode_DeletableTopicResult (r : DeletableTopicResult) : bytes :=
  write_string (Some (dtr_name r)) ++ put_error (dtr_error_code r).

Definition decode_DeleteTopicsResponse (version : Z) : decoder DeleteTopicsResponse :=
  throttle_time_ms ← when (version ≥ 1) (require 4 "Truncated throttle_time_ms" ≫= λ _, get_i32) 0;
  responses ← read_array_checked "Truncated responses count" "Negative responses count"
                (read_vec decode_DeletableTopicResult);
  mret (mkDelTopicsResp throttle_time_ms responses).
Definition encode_DeleteTopicsResponse (version : Z) (m : DeleteTopicsResponse) : bytes :=
  put_when (version ≥ 1) (put_32 (dts_throttle_time_ms m))
    ++ put_array encode_DeletableTopicResult (dts_responses m).

(** ** DescribeConfigs (API key 32) *)
Record DescribeConfigsResource := mkDCR {
  dcr_resource_type : Z; dcr_resource_name : string;
  dcr_configuration_keys : option (list string) }.
Record DescribeConfigsRequest := mkDescConfigsReq {
  dcq_resources : list DescribeConfigsResource; dcq_include_synonyms : bool }.
Record DescribeConfigsResult := mkDCRes {
  dcs_error_code : KafkaErrorCode; dcs_error_message : option string; dcs_resource_type : Z;
  dcs_resource_name : string; dcs_configs : list DescribeConfigsResourceResult }.
Record DescribeConfigsResponse := mkDescConfigsResp {
  dcp_throttle_time_ms : Z; dcp_results : list DescribeConfigsResult }.

Definition decode_DescribeConfigsResource : decoder DescribeConfigsResource :=
  require 1 "Truncated resource_type" ≫= λ _,
  resource_type ← get_i8; resource_name ← read_str;
  require 4 "Truncated configuration_keys count" ≫= λ _,
  configuration_keys ← read_array_opt read_strings;
  mret (mkDCR resource_type resource_name configuration_keys).
Definition encode_DescribeConfigsResource (r : DescribeConfigsResource) : bytes :=
  put_8 (dcr_resource_type r) ++ write_string (Some (dcr_resource_name r))
    ++ put_array_opt (λ s, write_string (Some s)) (dcr_configuration_keys r).

Definition decode_DescribeConfigsRequest (version : Z) : decoder DescribeConfigsRequest :=
  resources ← read_array_checked "Truncated DescribeConfigsRequest resources count"
                "Negative resources count" (read_vec decode_DescribeConfigsResource);
  include_synonyms ← when (version ≥ 1) (require 1 "Truncated include_synonyms" ≫= λ _, get_bool) false;
  mret (mkDescConfigsReq resources include_synonyms).
Definition encode_DescribeConfigsRequest (version : Z) (m : DescribeConfigsRequest) : bytes :=
  put_array encode_DescribeConfigsResource (dcq_resources m)
    ++ put_when (version ≥ 1) (put_bool (dcq_include_synonyms m)).

Definition decode_DescribeConfigsSynonym : decoder DescribeConfigsSynonym :=
  name ← read_str; value ← read_string;
  require 1 "Truncated synonym source" ≫= λ _,
  source ← get_i8; mret (mkSyn name value source).
Definition encode_DescribeConfigsSynonym (s : DescribeConfigsSynonym) : bytes :=
  write_string (Some (sy_name s)) ++ write_string (sy_value s) ++ put_8 (sy_source s).

Definition decode_DescribeConfigsResourceResult (version : Z) : decoder DescribeConfigsResourceResult :=
  name ← read_str; value ← read_string;
  require 1 "Truncated read_only" ≫= λ _,
  read_only ← get_bool;
  '(is_default, config_source) ←
    (if decide (version = 0)
     then require 1 "Truncated is_default" ≫= λ _, b ← get_bool; mret (b, -1)
     else require 1 "Truncated config_source" ≫= λ _, s ← get_i8; mret (false, s));
  require 1 "Truncated is_sensitive" ≫= λ _,
  is_sensitive ← get_bool;
  synonyms ← when (version ≥ 1)
               (read_array_clamped "Truncated synonyms count" (read_vec decode_DescribeConfigsSynonym)) [];
  mret (mkCfg name value read_only is_default config_source is_sensitive synonyms).
Definition encode_DescribeConfigsResourceResult (version : Z) (c : DescribeConfigsResourceResult) : bytes :=
  write_string (Some (cf_name c)) ++ write_string (cf_value c) ++ put_bool (cf_read_only c)
    ++ (if decide (version = 0) then put_bool (cf_is_default c) else put_8 (cf_config_source c))
    ++ put_bool (cf_is_sensitive c)
    ++ put_when (version ≥ 1) (put_array encode_DescribeConfigsSynonym (cf_synonyms c)).

Definition decode_DescribeConfigsResult (version : Z) : decoder DescribeConfigsResult :=
  require 2 "Truncated error_code" ≫= λ _,
  error_code ← get_error; error_message ← read_string;
  require 1 "Truncated resource_type" ≫= λ _,
  resource_type ← get_i8; resource_name ← read_str;
  configs ← read_array_checked "Truncated configs count" "Negative configs count"
              (read_vec (decode_DescribeConfigsResourceResult version));
  mret (mkDCRes error_code error_message resource_type resource_name configs).
Definition encode_DescribeConfigsResult (version : Z) (r : DescribeConfigsResult) : bytes :=
  put_error (dcs_error_code r) ++ write_string (dcs_error_message r) ++ put_8 (dcs_resource_type r)
    ++ write_string (Some (dcs_resource_name r))
    ++ put_array (encode_DescribeConfigsResourceResult version) (dcs_configs r).

Definition decode_DescribeConfigsResponse (version : Z) : decoder DescribeConfigsResponse :=
  require 4 "Truncated throttle_time_ms" ≫= λ _,
  throttle_time_ms ← get_i32;
  results ← read_array_checked "Truncated results count" "Negative results count"
              (read_vec (decode_DescribeConfigsResult version));
  mret (mkDescConfigsResp throttle_time_ms results).
Definition encode_DescribeConfigsResponse (version : Z) (m : DescribeConfigsResponse) : bytes :=
  put_32 (dcp_throttle_time_ms m) ++ put_array (encode_DescribeConfigsResult version) (dcp_results m).

(** ** AlterConfigs (API key 33) *)
Record AlterableConfig := mkAlterable { alc_name : string; alc_value : option string }.
Record AlterConfigsResource := mkACR {
  acr_resource_type : Z; acr_resource_name : string; acr_configs : list AlterableConfig }.
Record AlterConfigsRequest := mkAlterConfigsReq {
  acq_resources : list AlterConfigsResource; acq_validate_only : bool }.
Record AlterConfigsResourceResponse := mkACRR {
  acrr_error_code : KafkaErrorCode; acrr_error_message : option string; acrr_resource_type : Z;
  acrr_resource_name : string }.
Record AlterConfigsResponse := mkAlterConfigsResp {
  acs_throttle_time_ms : Z; acs_responses : list AlterConfigsResourceResponse }.

Definition decode_AlterableConfig : decoder AlterableConfig :=
  name ← read_str; value ← read_string; mret (mkAlterable name value).
Definition encode_AlterableConfig (c : AlterableConfig) : bytes :=
  write_string (Some (alc_name c)) ++ write_string (alc_value c).

Definition decode_AlterConfigsResource : decoder AlterConfigsResource :=
  require 1 "Truncated resource_type" ≫= λ _,
  resource_type ← get_i8; resource_name ← read_str;
  configs ← read_array_checked "Truncated configs count" "Negative configs count" (read_vec decode_AlterableConfig);
  mret (mkACR resource_type resource_name configs).
Definition encode_AlterConfigsResource (r : AlterConfigsResource) : bytes :=
  put_8 (acr_resource_type r) ++ write_string (Some (acr_resource_name r))
    ++ put_array encode_AlterableConfig (acr_configs r).

Definition decode_AlterConfigsRequest (version : Z) : decoder AlterConfigsRequest :=
  resources ← read_array_checked "Truncated AlterConfigsRequest resources count"
                "Negative resources count" (read_vec decode_AlterConfigsResource);
  require 1 "Truncated validate_only" ≫= λ _,
  validate_only ← get_bool;
  mret (mkAlterConfigsReq resources validate_only).
Definition encode_AlterConfigsRequest (version : Z) (m : AlterConfigsRequest) : bytes :=
  put_array encode_AlterConfigsResource (acq_resources m) ++ put_bool (acq_validate_only m).

Definition decode_AlterConfigsResourceResponse : decoder AlterConfigsResourceResponse :=
  require 2 "Truncated error_code" ≫= λ _,
  error_code ← get_error; error_message ← read_string;
  require 1 "Truncated resource_type" ≫= λ _,
  resource_type ← get_i8; resource_name ← read_str;
  mret (mkACRR error_code error_message resource_type resource_name).
Definition encode_AlterConfigsResourceResponse (r : AlterConfigsResourceResponse) : bytes :=
  put_error (acrr_error_code r) ++ write_string (acrr_error_message r)
    ++ put_8 (acrr_resource_type r) ++ write_string (Some (acrr_resource_name r)).

Definition decode_AlterConfigsResponse (version : Z) : decoder AlterConfigsResponse :=
  require 4 "Truncated throttle_time_ms" ≫= λ _,
  throttle_time_ms ← get_i32;
  responses ← read_array_checked "Truncated responses count" "Negative responses count"
                (read_vec decode_AlterConfigsResourceResponse);
  mret (mkAlterConfigsResp throttle_time_ms responses).
Definition encode_AlterConfigsResponse (version : Z) (m : AlterConfigsResponse) : bytes :=
  put_32 (acs_throttle_time_ms m) ++ put_array encode_AlterConfigsResourceResponse (acs_responses m).

(** ** DeleteRecords (API key 21) *)
Record DeleteRecordsPartition := mkDRP { drp_partition_index : Z; drp_offset : Z }.
Record DeleteRecordsTopic := mkDRT {
  drt_name : string; drt_partitions : list DeleteRecordsPartition }.
Record DeleteRecordsRequest := mkDelRecordsReq {
  drq_topics : list DeleteRecordsTopic; drq_timeout_ms : Z }.
Record DeleteRecordsPartitionResult := mkDRPR {
  drpr_partition_index : Z; drpr_low_watermark : Z; drpr_error_code : KafkaErrorCode }.
Record DeleteRecordsTopicResult := mkDRTR {
  drtr_name : string; drtr_partitions : list DeleteRecordsPartitionResult }.
Record DeleteRecordsResponse := mkDelRecordsResp {
  drs_throttle_time_ms : Z; drs_topics : list DeleteRecordsTopicResult }.

Definition decode_DeleteRecordsPartition : decoder DeleteRecordsPartition :=
  require 12 "Truncated DeleteRecords partition item" ≫= λ _,
  partition_index ← get_i32; offset ← get_i64; mret (mkDRP partition_index offset).
Definition encode_DeleteRecordsPartition (p : DeleteRecordsPartition) : bytes :=
  put_32 (drp_partition_index p) ++ put_64 (drp_offset p).

Definition decode_DeleteRecordsTopic : decoder DeleteRecordsTopic :=
  name ← read_str;
  partitions ← read_array_checked "Truncated DeleteRecords partitions count"
                 "Negative DeleteRecords partitions count" (read_vec decode_DeleteRecordsPartition);
  mret (mkDRT name partitions).
Definition encode_DeleteRecordsTopic (t : DeleteRecordsTopic) : bytes :=
  write_string (Some (drt_name t)) ++ put_array encode_DeleteRecordsPartition (drt_partitions t).

Definition decode_DeleteRecordsRequest (version : Z) : decoder DeleteRecordsRequest :=
  topics ← read_array_checked "Truncated DeleteRecords topics count"
             "Negative DeleteRecords topics count" (read_vec decode_DeleteRecordsTopic);
  require 4 "Truncated DeleteRecords timeout_ms" ≫= λ _,
  timeout_ms ← get_i32;
  mret (mkDelRecordsReq topics timeout_ms).
Definition encode_DeleteRecordsRequest (version : Z) (m : DeleteRecordsRequest) : bytes :=
  put_array encode_DeleteRecordsTopic (drq_topics m) ++ put_32 (drq_timeout_ms m).

Definition decode_DeleteRecordsPartitionResult : decoder DeleteRecordsPartitionResult :=
  require 14 "Truncated DeleteRecordsResponse partition item" ≫= λ _,
  partition_index ← get_i32; low_watermark ← get_i64; error_code ← get_error;
  mret (mkDRPR partition_index low_watermark error_code).
Definition encode_DeleteRecordsPartitionResult (p : DeleteRecordsPartitionResult) : bytes :=
  put_32 (drpr_partition_index p) ++ put_64 (drpr_low_watermark p) ++ put_error (drpr_error_code p).

Definition decode_DeleteRecordsTopicResult : decoder DeleteRecordsTopicResult :=
  name ← read_str;
  partitions ← read_array_checked "Truncated DeleteRecordsResponse partitions count"
                 "Negative DeleteRecordsResponse partitions count"
                 (read_vec decode_DeleteRecordsPartitionResult);
  mret (mkDRTR name partitions).
Definition encode_DeleteRecordsTopicResult (t : DeleteRecordsTopicResult) : bytes :=
  write_string (Some (drtr_name t)) ++ put_array encode_DeleteRecordsPartitionResult (drtr_partitions t).

(** The header check covers the throttle time and the count. *)
Definition decode_DeleteRecordsResponse (version : Z) : decoder DeleteRecordsResponse :=
  require 8 "Truncated DeleteRecordsResponse header" ≫= λ _,
  throttle_time_ms ← get_i32;
  n ← get_i32;
  if decide (n < 0) then fail (EProtocol "Negative DeleteRecordsResponse topics count") else
  topics ← read_vec decode_DeleteRecordsTopicResult n;
  mret (mkDelRecordsResp throttle_time_ms topics).
Definition encode_DeleteRecordsResponse (version : Z) (m : DeleteRecordsResponse) : bytes :=
  put_32 (drs_throttle_time_ms m) ++ put_array encode_DeleteRecordsTopicResult (drs_topics m).

(** ** CreatePartitions (API key 37) *)
Record CreatePartitionsTopic := mkCPT {
  cpt_name : string; cpt_count : Z; cpt_assignments : option (list CreatePartitionsAssignment) }.
Record CreatePartitionsRequest := mkCreatePartsReq {
  cpq_topic_partitions : list CreatePartitionsTopic; cpq_timeout_ms : Z;
  cpq_validate_only : bool }.
Record CreatePartitionsTopicResult := mkCPTR {
  cptr_name : string; cptr_error_code : KafkaErrorCode; cptr_error_message : option string }.
Record CreatePartitionsResponse := mkCreatePartsResp {
  cps_throttle_time_ms : Z; cps_results : list CreatePartitionsTopicResult }.

Definition decode_CreatePartitionsAssignment : decoder CreatePartitionsAssignment :=
  require 4 "Truncated CreatePartitions assignment broker count" ≫= λ _,
  broker_ids ← read_broker_ids "Truncated CreatePartitions assignment broker ids";
  mret (mkAssign broker_ids).
Definition encode_CreatePartitionsAssignment (a : CreatePartitionsAssignment) : bytes :=
  put_array put_32 (as_broker_ids a).

Definition decode_CreatePartitionsTopic : decoder CreatePartitionsTopic :=
  name ← read_str;
  require 8 "Truncated CreatePartitionsTopic count or assignments" ≫= λ _,
  count ← get_i32; assignments ← read_array_opt (read_vec decode_CreatePartitionsAssignment);
  mret (mkCPT name count assignments).
Definition encode_CreatePartitionsTopic (t : CreatePartitionsTopic) : bytes :=
  write_string (Some (cpt_name t)) ++ put_32 (cpt_count t)
    ++ put_array_opt encode_CreatePartitionsAssignment (cpt_assignments t).

Definition decode_CreatePartitionsRequest (version : Z) : decoder CreatePartitionsRequest :=
  topic_partitions ← read_array_checked "Truncated CreatePartitionsRequest topics count"
                       "Negative CreatePartitionsRequest topics count"
                       (read_vec decode_CreatePartitionsTopic);
  require 4 "Truncated CreatePartitions timeout_ms" ≫= λ _,
  timeout_ms ← get_i32;
  validate_only ← read_trailing_bool false;
  mret (mkCreatePartsReq topic_partitions timeout_ms validate_only).
Definition encode_CreatePartitionsRequest (version : Z) (m : CreatePartitionsRequest) : bytes :=
  put_array encode_CreatePartitionsTopic (cpq_topic_partitions m) ++ put_32 (cpq_timeout_ms m)
    ++ put_bool (cpq_validate_only m).

Definition decode_CreatePartitionsTopicResult : decoder CreatePartitionsTopicResult :=
  name ← read_str;
  require 2 "Truncated CreatePartitionsResponse error_code" ≫= λ _,
  error_code ← get_error; error_message ← read_string;
  mret (mkCPTR name error_code error_message).
Definition encode_CreatePartitionsTopicResult (r : CreatePartitionsTopicResult) : bytes :=
  write_string (Some (cptr_name r)) ++ put_error (cptr_error_code r) ++ write_string (cptr_error_message r).

Definition decode_CreatePartitionsResponse (version : Z) : decoder CreatePartitionsResponse :=
  require 8 "Truncated CreatePartitionsResponse header" ≫= λ _,
  throttle_time_ms ← get_i32;
  n ← get_i32;
  if decide (n < 0) then fail (EProtocol "Negative CreatePartitionsResponse results count") else
  results ← read_vec decode_CreatePartitionsTopicResult n;
  mret (mkCreatePartsResp throttle_time_ms results).
Definition encode_CreatePartitionsResponse (version : Z) (m : CreatePartitionsResponse) : bytes :=
  put_32 (cps_throttle_time_ms m) ++ put_array encode_CreatePartitionsTopicResult (cps_results m).

(** ** What the fields can carry, what the other side sees, and round trips *)
Lemma zlen_items_32 l : zlen (put_items put_32 l) = zlen l * 4.
Proof.
  unfold put_items. induction l as [|x l IH]; [done|]. rewrite fmap_cons. cbn [concat].
  rewrite zlen_app, zlen_cons, zlen_to_be, IH. lia.
Qed.

Lemma reads_broker_ids trunc l : arr_ok (in_s 32) l → Reads (read_broker_ids trunc) (put_array put_32 l) l.
Proof.
  intros Hl. pose proof (zlen_nonneg l). eapply reads_bind; [by eapply reads_count|]. cbv zeta.
  rewrite decide_False by lia. apply reads_require; [by rewrite zlen_items_32|].
  rewrite <- (list_fmap_id l) at 3. eapply reads_vec; [done|]. intros. by apply reads_i32.
Qed.
#[local] Hint Resolve reads_broker_ids : wire.

#[local] Hint Resolve reads_map : wire.

Definition CreateTopicsReplicaAssignment_ok (m : CreateTopicsReplicaAssignment) : Prop :=
  in_s 32 (ctra_partition_index m) ∧ arr_ok (in_s 32) (ctra_broker_ids m).
#[export] Instance CreateTopicsReplicaAssignment_ok_dec m : Decision (CreateTopicsReplicaAssignment_ok m).
Proof. unfold CreateTopicsReplicaAssignment_ok. apply _. Defined.
Definition CreateTopicsConfig_ok (m : CreateTopicsConfig) : Prop :=
  wire_string (ctc_name m) ∧ opt_all wire_string (ctc_value m).
#[export] Instance CreateTopicsConfig_ok_dec m : Decision (CreateTopicsConfig_ok m).
Proof. unfold CreateTopicsConfig_ok. apply _. Defined.
Definition CreatableTopic_ok (m : CreatableTopic) : Prop :=
  wire_string (ct_name m) ∧ in_s 32 (ct_num_partitions m) ∧ in_s 16 (ct_replication_factor m)
  ∧ arr_ok CreateTopicsReplicaAssignment_ok (ct_assignments m)
  ∧ arr_ok CreateTopicsConfig_ok (ct_configs m).
#[export] Instance CreatableTopic_ok_dec m : Decision (CreatableTopic_ok m).
Proof. unfold CreatableTopic_ok. apply _. Defined.
Definition CreateTopicsRequest_ok (m : CreateTopicsRequest) : Prop :=
  arr_ok CreatableTopic_ok (ctq_topics m) ∧ in_s 32 (ctq_timeout_ms m).
#[export] Instance CreateTopicsRequest_ok_dec m : Decision (CreateTopicsRequest_ok m).
Proof. unfold CreateTopicsRequest_ok. apply _. Defined.
Definition CreatableTopicResult_ok (m : CreatableTopicResult) : Prop :=
  wire_string (ctr_name m) ∧ opt_all wire_string (ctr_error_message m).
#[export] Instance CreatableTopicResult_ok_dec m : Decision (CreatableTopicResult_ok m).
Proof. unfold CreatableTopicResult_ok. apply _. Defined.
Definition CreateTopicsResponse_ok (m : CreateTopicsResponse) : Prop :=
  in_s 32 (cts_throttle_time_ms m) ∧ arr_ok CreatableTopicResult_ok (cts_topics m).
#[export] Instance CreateTopicsResponse_ok_dec m : Decision (CreateTopicsResponse_ok m).
Proof. unfold CreateTopicsResponse_ok. apply _. Defined.
Definition DeleteTopicsRequest_ok (m : DeleteTopicsRequest) : Prop :=
  arr_ok wire_string (dtq_topic_names m) ∧ in_s 32 (dtq_timeout_ms m).
#[export] Instance DeleteTopicsRequest_ok_dec m : Decision (DeleteTopicsRequest_ok m).
Proof. unfold DeleteTopicsRequest_ok. apply _. Defined.
Definition DeletableTopicResult_ok (m : DeletableTopicResult) : Prop :=
  wire_string (dtr_name m).
#[export] Instance DeletableTopicResult_ok_dec m : Decision (DeletableTopicResult_ok m).
Proof. unfold DeletableTopicResult_ok. apply _. Defined.
Definition DeleteTopicsResponse_ok (m : DeleteTopicsResponse) : Prop :=
  in_s 32 (dts_throttle_time_ms m) ∧ arr_ok DeletableTopicResult_ok (dts_responses m).
#[export] Instance DeleteTopicsResponse_ok_dec m : Decision (DeleteTopicsResponse_ok m).
Proof. unfold DeleteTopicsResponse_ok. apply _. Defined.
Definition DescribeConfigsResource_ok (m : DescribeConfigsResource) : Prop :=
  in_s 8 (dcr_resource_type m) ∧ wire_string (dcr_resource_name m)
  ∧ opt_all (arr_ok wire_string) (dcr_configuration_keys m).
#[export] Instance DescribeConfigsResource_ok_dec m : Decision (DescribeConfigsResource_ok m).
Proof. unfold DescribeConfigsResource_ok. apply _. Defined.
Definition DescribeConfigsRequest_ok (m : DescribeConfigsRequest) : Prop :=
  arr_ok DescribeConfigsResource_ok (dcq_resources m).
#[export] Instance DescribeConfigsRequest_ok_dec m : Decision (DescribeConfigsRequest_ok m).
Proof. unfold DescribeConfigsRequest_ok. apply _. Defined.
Definition DescribeConfigsSynonym_ok (m : DescribeConfigsSynonym) : Prop :=
  wire_string (sy_name m) ∧ opt_all wire_string (sy_value m) ∧ in_s 8 (sy_source m).
#[export] Instance DescribeConfigsSynonym_ok_dec m : Decision (DescribeConfigsSynonym_ok m).
Proof. unfold DescribeConfigsSynonym_ok. apply _. Defined.
Definition DescribeConfigsResourceResult_ok (m : DescribeConfigsResourceResult) : Prop :=
  wire_string (cf_name m) ∧ opt_all wire_string (cf_value m) ∧ in_s 8 (cf_config_source m)
  ∧ arr_ok DescribeConfigsSynonym_ok (cf_synonyms m).
#[export] Instance DescribeConfigsResourceResult_ok_dec m : Decision (DescribeConfigsResourceResult_ok m).
Proof. unfold DescribeConfigsResourceResult_ok. apply _. Defined.
Definition DescribeConfigsResult_ok (m : DescribeConfigsResult) : Prop :=
  opt_all wire_string (dcs_error_message m) ∧ in_s 8 (dcs_resource_type m)
  ∧ wire_string (dcs_resource_name m) ∧ arr_ok DescribeConfigsResourceResult_ok (dcs_configs m).
#[export] Instance DescribeConfigsResult_ok_dec m : Decision (DescribeConfigsResult_ok m).
Proof. unfold DescribeConfigsResult_ok. apply _. Defined.
Definition DescribeConfigsResponse_ok (m : DescribeConfigsResponse) : Prop :=
  in_s 32 (dcp_throttle_time_ms m) ∧ arr_ok DescribeConfigsResult_ok (dcp_results m).
#[export] Instance DescribeConfigsResponse_ok_dec m : Decision (DescribeConfigsResponse_ok m).
Proof. unfold DescribeConfigsResponse_ok. apply _. Defined.
Definition AlterableConfig_ok (m : AlterableConfig) : Prop :=
  wire_string (alc_name m) ∧ opt_all wire_string (alc_value m).
#[export] Instance AlterableConfig_ok_dec m : Decision (AlterableConfig_ok m).
Proof. unfold AlterableConfig_ok. apply _. Defined.
Definition AlterConfigsResource_ok (m : AlterConfigsResource) : Prop :=
  in_s 8 (acr_resource_type m) ∧ wire_string (acr_resource_name m)
  ∧ arr_ok AlterableConfig_ok (acr_configs m).
#[export] Instance AlterConfigsResource_ok_dec m : Decision (AlterConfigsResource_ok m).
Proof. unfold AlterConfigsResource_ok. apply _. Defined.
Definition AlterConfigsRequest_ok (m : AlterConfigsRequest) : Prop :=
  arr_ok AlterConfigsResource_ok (acq_resources m).
#[export] Instance AlterConfigsRequest_ok_dec m : Decision (AlterConfigsRequest_ok m).
Proof. unfold AlterConfigsRequest_ok. apply _. Defined.
Definition AlterConfigsResourceResponse_ok (m : AlterConfigsResourceResponse) : Prop :=
  opt_all wire_string (acrr_error_message m) ∧ in_s 8 (acrr_resource_type m)
  ∧ wire_string (acrr_resource_name m).
#[export] Instance AlterConfigsResourceResponse_ok_dec m : Decision (AlterConfigsResourceResponse_ok m).
Proof. unfold AlterConfigsResourceResponse_ok. apply _. Defined.
Definition AlterConfigsResponse_ok (m : AlterConfigsResponse) : Prop :=
  in_s 32 (acs_throttle_time_ms m) ∧ arr_ok AlterConfigsResourceResponse_ok (acs_responses m).
#[export] Instance AlterConfigsResponse_ok_dec m : Decision (AlterConfigsResponse_ok m).
Proof. unfold AlterConfigsResponse_ok. apply _. Defined.
Definition DeleteRecordsPartition_ok (m : DeleteRecordsPartition) : Prop :=
  in_s 32 (drp_partition_index m) ∧ in_s 64 (drp_offset m).
#[export] Instance DeleteRecordsPartition_ok_dec m : Decision (DeleteRecordsPartition_ok m).
Proof. unfold DeleteRecordsPartition_ok. apply _. Defined.
Definition DeleteRecordsTopic_ok (m : DeleteRecordsTopic) : Prop :=
  wire_string (drt_name m) ∧ arr_ok DeleteRecordsPartition_ok (drt_partitions m).
#[export] Instance DeleteRecordsTopic_ok_dec m : Decision (DeleteRecordsTopic_ok m).
Proof. unfold DeleteRecordsTopic_ok. apply _. Defined.
Definition DeleteRecordsRequest_ok (m : DeleteRecordsRequest) : Prop :=
  arr_ok DeleteRecordsTopic_ok (drq_topics m) ∧ in_s 32 (drq_timeout_ms m).
#[export] Instance DeleteRecordsRequest_ok_dec m : Decision (DeleteRecordsRequest_ok m).
Proof. unfold DeleteRecordsRequest_ok. apply _. Defined.
Definition DeleteRecordsPartitionResult_ok (m : DeleteRecordsPartitionResult) : Prop :=
  in_s 32 (drpr_partition_index m) ∧ in_s 64 (drpr_low_watermark m).
#[export] Instance DeleteRecordsPartitionResult_ok_dec m : Decision (DeleteRecordsPartitionResult_ok m).
Proof. unfold DeleteRecordsPartitionResult_ok. apply _. Defined.
Definition DeleteRecordsTopicResult_ok (m : DeleteRecordsTopicResult) : Prop :=
  wire_string (drtr_name m) ∧ arr_ok DeleteRecordsPartitionResult_ok (drtr_partitions m).
#[export] Instance DeleteRecordsTopicResult_ok_dec m : Decision (DeleteRecordsTopicResult_ok m).
Proof. unfold DeleteRecordsTopicResult_ok. apply _. Defined.
Definition DeleteRecordsResponse_ok (m : DeleteRecordsResponse) : Prop :=
  in_s 32 (drs_throttle_time_ms m) ∧ arr_ok DeleteRecordsTopicResult_ok (drs_topics m).
#[export] Instance DeleteRecordsResponse_ok_dec m : Decision (DeleteRecordsResponse_ok m).
Proof. unfold DeleteRecordsResponse_ok. apply _. Defined.
Definition CreatePartitionsAssignment_ok (m : CreatePartitionsAssignment) : Prop :=
  arr_ok (in_s 32) (as_broker_ids m).
#[export] Instance CreatePartitionsAssignment_ok_dec m : Decision (CreatePartitionsAssignment_ok m).
Proof. unfold CreatePartitionsAssignment_ok. apply _. Defined.
Definition CreatePartitionsTopic_ok (m : CreatePartitionsTopic) : Prop :=
  wire_string (cpt_name m) ∧ in_s 32 (cpt_count m)
  ∧ opt_all (arr_ok CreatePartitionsAssignment_ok) (cpt_assignments m).
#[export] Instance CreatePartitionsTopic_ok_dec m : Decision (CreatePartitionsTopic_ok m).
Proof. unfold CreatePartitionsTopic_ok. apply _. Defined.
Definition CreatePartitionsRequest_ok (m : CreatePartitionsRequest) : Prop :=
  arr_ok CreatePartitionsTopic_ok (cpq_topic_partitions m) ∧ in_s 32 (cpq_timeout_ms m).
#[export] Instance CreatePartitionsRequest_ok_dec m : Decision (CreatePartitionsRequest_ok m).
Proof. unfold CreatePartitionsRequest_ok. apply _. Defined.
Definition CreatePartitionsTopicResult_ok (m : CreatePartitionsTopicResult) : Prop :=
  wire_string (cptr_name m) ∧ opt_all wire_string (cptr_error_message m).
#[export] Instance CreatePartitionsTopicResult_ok_dec m : Decision (CreatePartitionsTopicResult_ok m).
Proof. unfold CreatePartitionsTopicResult_ok. apply _. Defined.
Definition CreatePartitionsResponse_ok (m : CreatePartitionsResponse) : Prop :=
  in_s 32 (cps_throttle_time_ms m) ∧ arr_ok CreatePartitionsTopicResult_ok (cps_results m).
#[export] Instance CreatePartitionsResponse_ok_dec m : Decision (CreatePartitionsResponse_ok m).
Proof. unfold CreatePartitionsResponse_ok. apply _. Defined.

Definition seen_CreateTopicsRequest (version : Z) (m : CreateTopicsRequest) : CreateTopicsRequest :=
  mkCreateTopicsReq (ctq_topics m) (ctq_timeout_ms m)
    (if decide (version ≥ 1) then ctq_validate_only m else false).
Definition seen_CreatableTopicResult (version : Z) (m : CreatableTopicResult) : CreatableTopicResult :=
  mkCTR (ctr_name m) (ctr_error_code m)
    (if decide (version ≥ 1) then ctr_error_message m else None).
Definition seen_CreateTopicsResponse (version : Z) (m : CreateTopicsResponse) : CreateTopicsResponse :=
  mkCreateTopicsResp (if decide (version ≥ 2) then cts_throttle_time_ms m else 0)
    (seen_CreatableTopicResult version <$> cts_topics m).
Definition seen_DeleteTopicsResponse (version : Z) (m : DeleteTopicsResponse) : DeleteTopicsResponse :=
  mkDelTopicsResp (if decide (version ≥ 1) then dts_throttle_time_ms m else 0) (dts_responses m).
Definition seen_DescribeConfigsRequest (version : Z) (m : DescribeConfigsRequest) : DescribeConfigsRequest :=
  mkDescConfigsReq (dcq_resources m) (if decide (version ≥ 1) then dcq_include_synonyms m else false).
Definition seen_DescribeConfigsResourceResult (version : Z) (m : DescribeConfigsResourceResult) : DescribeConfigsResourceResult :=
  mkCfg (cf_name m) (cf_value m) (cf_read_only m)
    (if decide (version = 0) then cf_is_default m else false)
    (if decide (version ≠ 0) then cf_config_source m else -1) (cf_is_sensitive m)
    (if decide (version ≥ 1) then cf_synonyms m else []).
Definition seen_DescribeConfigsResult (version : Z) (m : DescribeConfigsResult) : DescribeConfigsResult :=
  mkDCRes (dcs_error_code m) (dcs_error_message m) (dcs_resource_type m) (dcs_resource_name m)
    (seen_DescribeConfigsResourceResult version <$> dcs_configs m).
Definition seen_DescribeConfigsResponse (version : Z) (m : DescribeConfigsResponse) : DescribeConfigsResponse :=
  mkDescConfigsResp (dcp_throttle_time_ms m) (seen_DescribeConfigsResult version <$> dcp_results m).

Lemma CreateTopicsReplicaAssignment_reads m : CreateTopicsReplicaAssignment_ok m →
  Reads decode_CreateTopicsReplicaAssignment (encode_CreateTopicsReplicaAssignment m) m.
Proof.
  destruct m as [p l]. unfold decode_CreateTopicsReplicaAssignment, encode_CreateTopicsReplicaAssignment, CreateTopicsReplicaAssignment_ok.
  simpl. intros [? ?]. apply reads_require; [|reads].
  pose proof (put_array_len put_32 l). rewrite zlen_app, zlen_to_be. lia.
Qed.
#[local] Hint Resolve CreateTopicsReplicaAssignment_reads : wire.
Lemma CreateTopicsConfig_reads m : CreateTopicsConfig_ok m →
  Reads decode_CreateTopicsConfig (encode_CreateTopicsConfig m) m.
Proof. destruct m. codec decode_CreateTopicsConfig encode_CreateTopicsConfig CreateTopicsConfig_ok. Qed.
#[local] Hint Resolve CreateTopicsConfig_reads : wire.
Lemma CreatableTopic_reads m : CreatableTopic_ok m →
  Reads decode_CreatableTopic (encode_CreatableTopic m) m.
Proof. destruct m. codec decode_CreatableTopic encode_CreatableTopic CreatableTopic_ok. Qed.
#[local] Hint Resolve CreatableTopic_reads : wire.
Lemma CreateTopicsRequest_reads version m : CreateTopicsRequest_ok m →
  Reads (decode_CreateTopicsRequest version) (encode_CreateTopicsRequest version m) (seen_CreateTopicsRequest version m).
Proof. destruct m. codec decode_CreateTopicsRequest encode_CreateTopicsRequest CreateTopicsRequest_ok. Qed.
#[local] Hint Resolve CreateTopicsRequest_reads : wire.
Lemma CreatableTopicResult_reads version m : CreatableTopicResult_ok m →
  Reads (decode_CreatableTopicResult version) (encode_CreatableTopicResult version m) (seen_CreatableTopicResult version m).
Proof. destruct m. codec decode_CreatableTopicResult encode_CreatableTopicResult CreatableTopicResult_ok. Qed.
#[local] Hint Resolve CreatableTopicResult_reads : wire.
Lemma CreateTopicsResponse_reads version m : CreateTopicsResponse_ok m →
  Reads (decode_CreateTopicsResponse version) (encode_CreateTopicsResponse version m) (seen_CreateTopicsResponse version m).
Proof. destruct m. codec decode_CreateTopicsResponse encode_CreateTopicsResponse CreateTopicsResponse_ok. Qed.
#[local] Hint Resolve CreateTopicsResponse_reads : wire.
Lemma DeleteTopicsRequest_reads version m : DeleteTopicsRequest_ok m →
  Reads (decode_DeleteTopicsRequest version) (encode_DeleteTopicsRequest version m) m.
Proof. destruct m. codec decode_DeleteTopicsRequest encode_DeleteTopicsRequest DeleteTopicsRequest_ok. Qed.
#[local] Hint Resolve DeleteTopicsRequest_reads : wire.
Lemma DeletableTopicResult_reads m : DeletableTopicResult_ok m →
  Reads decode_DeletableTopicResult (encode_DeletableTopicResult m) m.
Proof. destruct m. codec decode_DeletableTopicResult encode_DeletableTopicResult DeletableTopicResult_ok. Qed.
#[local] Hint Resolve DeletableTopicResult_reads : wire.
Lemma DeleteTopicsResponse_reads version m : DeleteTopicsResponse_ok m →
  Reads (decode_DeleteTopicsResponse version) (encode_DeleteTopicsResponse version m) (seen_DeleteTopicsResponse version m).
Proof. destruct m. codec decode_DeleteTopicsResponse encode_DeleteTopicsResponse DeleteTopicsResponse_ok. Qed.
#[local] Hint Resolve DeleteTopicsResponse_reads : wire.
Lemma DescribeConfigsResource_reads m : DescribeConfigsResource_ok m →
  Reads decode_DescribeConfigsResource (encode_DescribeConfigsResource m) m.
Proof.
  destruct m as [t n ks]. unfold decode_DescribeConfigsResource, encode_DescribeConfigsResource, DescribeConfigsResource_ok.
  simpl. intros (? & ? & Hks). unfold opt_all in Hks.
  apply reads_require; [reads_len|]. do 2 (eapply reads_bind; [typeclasses eauto with wire|]).
  apply reads_require; [destruct ks; [apply put_array_len|unfold put_array_opt; rewrite zlen_to_be; lia]|]. destruct ks; reads.
Qed.
#[local] Hint Resolve DescribeConfigsResource_reads : wire.
Lemma DescribeConfigsRequest_reads version m : DescribeConfigsRequest_ok m →
  Reads (decode_DescribeConfigsRequest version) (encode_DescribeConfigsRequest version m) (seen_DescribeConfigsRequest version m).
Proof. destruct m. codec decode_DescribeConfigsRequest encode_DescribeConfigsRequest DescribeConfigsRequest_ok. Qed.
#[local] Hint Resolve DescribeConfigsRequest_reads : wire.
Lemma DescribeConfigsSynonym_reads m : DescribeConfigsSynonym_ok m →
  Reads decode_DescribeConfigsSynonym (encode_DescribeConfigsSynonym m) m.
Proof. destruct m. codec decode_DescribeConfigsSynonym encode_DescribeConfigsSynonym DescribeConfigsSynonym_ok. Qed.
#[local] Hint Resolve DescribeConfigsSynonym_reads : wire.
Lemma DescribeConfigsResourceResult_reads version m : DescribeConfigsResourceResult_ok m →
  Reads (decode_DescribeConfigsResourceResult version) (encode_DescribeConfigsResourceResult version m) (seen_DescribeConfigsResourceResult version m).
Proof.
  destruct m. unfold decode_DescribeConfigsResourceResult, encode_DescribeConfigsResourceResult, DescribeConfigsResourceResult_ok, seen_DescribeConfigsResourceResult.
  simpl. intros. destruct_and?. destruct (decide (version = 0)) as [->|].
  - rewrite (decide_False (P := 0 ≠ 0)) by lia. reads.
  - rewrite (decide_True (P := version ≠ 0)) by done. reads.
Qed.
#[local] Hint Resolve DescribeConfigsResourceResult_reads : wire.
Lemma DescribeConfigsResult_reads version m : DescribeConfigsResult_ok m →
  Reads (decode_DescribeConfigsResult version) (encode_DescribeConfigsResult version m) (seen_DescribeConfigsResult version m).
Proof. destruct m. codec decode_DescribeConfigsResult encode_DescribeConfigsResult DescribeConfigsResult_ok. Qed.
#[local] Hint Resolve DescribeConfigsResult_reads : wire.
Lemma DescribeConfigsResponse_reads version m : DescribeConfigsResponse_ok m →
  Reads (decode_DescribeConfigsResponse version) (encode_DescribeConfigsResponse version m) (seen_DescribeConfigsResponse version m).
Proof. destruct m. codec decode_DescribeConfigsResponse encode_DescribeConfigsResponse DescribeConfigsResponse_ok. Qed.
#[local] Hint Resolve DescribeConfigsResponse_reads : wire.
Lemma AlterableConfig_reads m : AlterableConfig_ok m →
  Reads decode_AlterableConfig (encode_AlterableConfig m) m.
Proof. destruct m. codec decode_AlterableConfig encode_AlterableConfig AlterableConfig_ok. Qed.
#[local] Hint Resolve AlterableConfig_reads : wire.
Lemma AlterConfigsResource_reads m : AlterConfigsResource_ok m →
  Reads decode_AlterConfigsResource (encode_AlterConfigsResource m) m.
Proof. destruct m. codec decode_AlterConfigsResource encode_AlterConfigsResource AlterConfigsResource_ok. Qed.
#[local] Hint Resolve AlterConfigsResource_reads : wire.
Lemma AlterConfigsRequest_reads version m : AlterConfigsRequest_ok m →
  Reads (decode_AlterConfigsRequest version) (encode_AlterConfigsRequest version m) m.
Proof. destruct m. codec decode_AlterConfigsRequest encode_AlterConfigsRequest AlterConfigsRequest_ok. Qed.
#[local] Hint Resolve AlterConfigsRequest_reads : wire.
Lemma AlterConfigsResourceResponse_reads m : AlterConfigsResourceResponse_ok m →
  Reads decode_AlterConfigsResourceResponse (encode_AlterConfigsResourceResponse m) m.
Proof. destruct m. codec decode_AlterConfigsResourceResponse encode_AlterConfigsResourceResponse AlterConfigsResourceResponse_ok. Qed.
#[local] Hint Resolve AlterConfigsResourceResponse_reads : wire.
Lemma AlterConfigsResponse_reads version m : AlterConfigsResponse_ok m →
  Reads (decode_AlterConfigsResponse version) (encode_AlterConfigsResponse version m) m.
Proof. destruct m. codec decode_AlterConfigsResponse encode_AlterConfigsResponse AlterConfigsResponse_ok. Qed.
#[local] Hint Resolve AlterConfigsResponse_reads : wire.
Lemma DeleteRecordsPartition_reads m : DeleteRecordsPartition_ok m →
  Reads decode_DeleteRecordsPartition (encode_DeleteRecordsPartition m) m.
Proof. destruct m. codec decode_DeleteRecordsPartition encode_DeleteRecordsPartition DeleteRecordsPartition_ok. Qed.
#[local] Hint Resolve DeleteRecordsPartition_reads : wire.
Lemma DeleteRecordsTopic_reads m : DeleteRecordsTopic_ok m →
  Reads decode_DeleteRecordsTopic (encode_DeleteRecordsTopic m) m.
Proof. destruct m. codec decode_DeleteRecordsTopic encode_DeleteRecordsTopic DeleteRecordsTopic_ok. Qed.
#[local] Hint Resolve DeleteRecordsTopic_reads : wire.
Lemma DeleteRecordsRequest_reads version m : DeleteRecordsRequest_ok m →
  Reads (decode_DeleteRecordsRequest version) (encode_DeleteRecordsRequest version m) m.
Proof. destruct m. codec decode_DeleteRecordsRequest encode_DeleteRecordsRequest DeleteRecordsRequest_ok. Qed.
#[local] Hint Resolve DeleteRecordsRequest_reads : wire.
Lemma DeleteRecordsPartitionResult_reads m : DeleteRecordsPartitionResult_ok m →
  Reads decode_DeleteRecordsPartitionResult (encode_DeleteRecordsPartitionResult m) m.
Proof. destruct m. codec decode_DeleteRecordsPartitionResult encode_DeleteRecordsPartitionResult DeleteRecordsPartitionResult_ok. Qed.
#[local] Hint Resolve DeleteRecordsPartitionResult_reads : wire.
Lemma DeleteRecordsTopicResult_reads m : DeleteRecordsTopicResult_ok m →
  Reads decode_DeleteRecordsTopicResult (encode_DeleteRecordsTopicResult m) m.
Proof. destruct m. codec decode_DeleteRecordsTopicResult encode_DeleteRecordsTopicResult DeleteRecordsTopicResult_ok. Qed.
#[local] Hint Resolve DeleteRecordsTopicResult_reads : wire.
Lemma DeleteRecordsResponse_reads version m : DeleteRecordsResponse_ok m →
  Reads (decode_DeleteRecordsResponse version) (encode_DeleteRecordsResponse version m) m.
Proof.
  destruct m as [t l]. unfold decode_DeleteRecordsResponse, encode_DeleteRecordsResponse, DeleteRecordsResponse_ok.
  simpl. intros [? ?]. pose proof (put_array_len encode_DeleteRecordsTopicResult l). pose proof (zlen_nonneg l).
  apply reads_require; [rewrite zlen_app, zlen_to_be; lia|]. eapply reads_bind; [typeclasses eauto with wire|].
  eapply reads_bind; [by eapply reads_count|]. rewrite decide_False by lia. reads.
Qed.
#[local] Hint Resolve DeleteRecordsResponse_reads : wire.
Lemma CreatePartitionsAssignment_reads m : CreatePartitionsAssignment_ok m →
  Reads decode_CreatePartitionsAssignment (encode_CreatePartitionsAssignment m) m.
Proof.
  destruct m as [l]. unfold decode_CreatePartitionsAssignment, encode_CreatePartitionsAssignment, CreatePartitionsAssignment_ok.
  simpl. intros ?. apply reads_require; [apply put_array_len|]. reads.
Qed.
#[local] Hint Resolve CreatePartitionsAssignment_reads : wire.
Lemma CreatePartitionsTopic_reads m : CreatePartitionsTopic_ok m →
  Reads decode_CreatePartitionsTopic (encode_CreatePartitionsTopic m) m.
Proof.
  destruct m as [n c a]. unfold decode_CreatePartitionsTopic, encode_CreatePartitionsTopic, CreatePartitionsTopic_ok.
  simpl. intros (? & ? & Ha). unfold opt_all in Ha. eapply reads_bind; [typeclasses eauto with wire|].
  apply reads_require; [|destruct a; reads]. rewrite zlen_app, zlen_to_be.
  assert (4 ≤ zlen (put_array_opt encode_CreatePartitionsAssignment a)); [|lia].
  destruct a; [apply put_array_len|unfold put_array_opt; rewrite zlen_to_be; lia].
Qed.
#[local] Hint Resolve CreatePartitionsTopic_reads : wire.
Lemma CreatePartitionsRequest_reads version m : CreatePartitionsRequest_ok m →
  Reads (decode_CreatePartitionsRequest version) (encode_CreatePartitionsRequest version m) m.
Proof. destruct m. codec decode_CreatePartitionsRequest encode_CreatePartitionsRequest CreatePartitionsRequest_ok. Qed.
#[local] Hint Resolve CreatePartitionsRequest_reads : wire.
Lemma CreatePartitionsTopicResult_reads m : CreatePartitionsTopicResult_ok m →
  Reads decode_CreatePartitionsTopicResult (encode_CreatePartitionsTopicResult m) m.
Proof. destruct m. codec decode_CreatePartitionsTopicResult encode_CreatePartitionsTopicResult CreatePartitionsTopicResult_ok. Qed.
#[local] Hint Resolve CreatePartitionsTopicResult_reads : wire.
Lemma CreatePartitionsResponse_reads version m : CreatePartitionsResponse_ok m →
  Reads (decode_CreatePartitionsResponse version) (encode_CreatePartitionsResponse version m) m.
Proof.
  destruct m as [t l]. unfold decode_CreatePartitionsResponse, encode_CreatePartitionsResponse, CreatePartitionsResponse_ok.
  simpl. intros [? ?]. pose proof (put_array_len encode_CreatePartitionsTopicResult l). pose proof (zlen_nonneg l).
  apply reads_require; [rewrite zlen_app, zlen_to_be; lia|]. eapply reads_bind; [typeclasses eauto with wire|].
  eapply reads_bind; [by eapply reads_count|]. rewrite decide_False by lia. reads.
Qed.
#[local] Hint Resolve CreatePartitionsResponse_reads : wire.
End codecs.
