(* ===== verification/Messages.v ===== *)
(** * Requests and responses

    The messages of all API keys as one type, the decoder that the request
    handler selects by the API key of the request header, and the round trips
    of every request and response at every protocol version.

    [JoinGroup] and [SyncGroup] have no codec: the handler refuses them. *)

From Stdlib Require Import Strings.Byte.
From stdpp Require Import base numbers list strings.
From S2P Require Import Prelude Bytes BytesUtil CoreTypes KafkaWire MessageTypes MsgCodec.
From S2P Require Import MsgMeta MsgData MsgGroup MsgTxn MsgAuth MsgAdmin.

Section messages.
Context `{Allocator}.

Inductive Request :=
| RqProduce (m : ProduceRequest)
| RqFetch (m : FetchRequest)
| RqListOffsets (m : ListOffsetsRequest)
| RqMetadata (m : MetadataRequest)
| RqOffsetCommit (m : OffsetCommitRequest)
| RqOffsetFetch (m : OffsetFetchRequest)
| RqFindCoordinator (m : FindCoordinatorRequest)
| RqHeartbeat (m : HeartbeatRequest)
| RqLeaveGroup (m : LeaveGroupRequest)
| RqDescribeGroups (m : DescribeGroupsRequest)
| RqListGroups (m : unit)
| RqSaslHandshake (m : SaslHandshakeRequest)
| RqApiVersions (m : ApiVersionsRequest)
| RqCreateTopics (m : CreateTopicsRequest)
| RqDeleteTopics (m : DeleteTopicsRequest)
| RqDeleteRecords (m : DeleteRecordsRequest)
| RqInitProducerId (m : InitProducerIdRequest)
| RqAddPartitionsToTxn (m : AddPartitionsToTxnRequest)
| RqAddOffsetsToTxn (m : AddOffsetsToTxnRequest)
| RqEndTxn (m : EndTxnRequest)
| RqDescribeAcls (m : AclFilter)
| RqCreateAcls (m : CreateAclsRequest)
| RqDeleteAcls (m : DeleteAclsRequest)
| RqDescribeConfigs (m : DescribeConfigsRequest)
| RqAlterConfigs (m : AlterConfigsRequest)
| RqSaslAuthenticate (m : SaslAuthenticateRequest)
| RqCreatePartitions (m : CreatePartitionsRequest)
| RqDeleteGroups (m : DeleteGroupsRequest).

Definition request_key (r : Request) : ApiKey :=
  match r with
  | RqProduce _ => ApiProduce
  | RqFetch _ => ApiFetch
  | RqListOffsets _ => ApiListOffsets
  | RqMetadata _ => ApiMetadata
  | RqOffsetCommit _ => ApiOffsetCommit
  | RqOffsetFetch _ => ApiOffsetFetch
  | RqFindCoordinator _ => ApiFindCoordinator
  | RqHeartbeat _ => ApiHeartbeat
  | RqLeaveGroup _ => ApiLeaveGroup
  | RqDescribeGroups _ => ApiDescribeGroups
  | RqListGroups _ => ApiListGroups
  | RqSaslHandshake _ => ApiSaslHandshake
  | RqApiVersions _ => ApiApiVersions
  | RqCreateTopics _ => ApiCreateTopics
  | RqDeleteTopics _ => ApiDeleteTopics
  | RqDeleteRecords _ => ApiDeleteRecords
  | RqInitProducerId _ => ApiInitProducerId
  | RqAddPartitionsToTxn _ => ApiAddPartitionsToTxn
  | RqAddOffsetsToTxn _ => ApiAddOffsetsToTxn
  | RqEndTxn _ => ApiEndTxn
  | RqDescribeAcls _ => ApiDescribeAcls
  | RqCreateAcls _ => ApiCreateAcls
  | RqDeleteAcls _ => ApiDeleteAcls
  | RqDescribeConfigs _ => ApiDescribeConfigs
  | RqAlterConfigs _ => ApiAlterConfigs
  | RqSaslAuthenticate _ => ApiSaslAuthenticate
  | RqCreatePartitions _ => ApiCreatePartitions
  | RqDeleteGroups _ => ApiDeleteGroups
  end.

Definition encode_request (version : Z) (r : Request) : bytes :=
  match r with
  | RqProduce m => encode_ProduceRequest version m
  | RqFetch m => encode_FetchRequest version m
  | RqListOffsets m => encode_ListOffsetsRequest version m
  | RqMetadata m => encode_MetadataRequest version m
  | RqOffsetCommit m => encode_OffsetCommitRequest version m
  | RqOffsetFetch m => encode_OffsetFetchRequest version m
  | RqFindCoordinator m => encode_FindCoordinatorRequest version m
  | RqHeartbeat m => encode_HeartbeatRequest version m
  | RqLeaveGroup m => encode_LeaveGroupRequest version m
  | RqDescribeGroups m => encode_DescribeGroupsRequest version m
  | RqListGroups m => encode_ListGroupsRequest version m
  | RqSaslHandshake m => encode_SaslHandshakeRequest version m
  | RqApiVersions m => encode_ApiVersionsRequest version m
  | RqCreateTopics m => encode_CreateTopicsRequest version m
  | RqDeleteTopics m => encode_DeleteTopicsRequest version m
  | RqDeleteRecords m => encode_DeleteRecordsRequest version m
  | RqInitProducerId m => encode_InitProducerIdRequest version m
  | RqAddPartitionsToTxn m => encode_AddPartitionsToTxnRequest version m
  | RqAddOffsetsToTxn m => encode_AddOffsetsToTxnRequest version m
  | RqEndTxn m => encode_EndTxnRequest version m
  | RqDescribeAcls m => encode_AclFilter version m
  | RqCreateAcls m => encode_CreateAclsRequest version m
  | RqDeleteAcls m => encode_DeleteAclsRequest version m
  | RqDescribeConfigs m => encode_DescribeConfigsRequest version m
  | RqAlterConfigs m => encode_AlterConfigsRequest version m
  | RqSaslAuthenticate m => encode_SaslAuthenticateRequest version m
  | RqCreatePartitions m => encode_CreatePartitionsRequest version m
  | RqDeleteGroups m => encode_DeleteGroupsRequest version m
  end.

Definition decode_request (key : ApiKey) (version : Z) : decoder Request :=
  match key with
  | ApiProduce => m ← decode_ProduceRequest version; mret (RqProduce m)
  | ApiFetch => m ← decode_FetchRequest version; mret (RqFetch m)
  | ApiListOffsets => m ← decode_ListOffsetsRequest version; mret (RqListOffsets m)
  | ApiMetadata => m ← decode_MetadataRequest version; mret (RqMetadata m)
  | ApiOffsetCommit => m ← decode_OffsetCommitRequest version; mret (RqOffsetCommit m)
  | ApiOffsetFetch => m ← decode_OffsetFetchRequest version; mret (RqOffsetFetch m)
  | ApiFindCoordinator => m ← decode_FindCoordinatorRequest version; mret (RqFindCoordinator m)
  | ApiHeartbeat => m ← decode_HeartbeatRequest version; mret (RqHeartbeat m)
  | ApiLeaveGroup => m ← decode_LeaveGroupRequest version; mret (RqLeaveGroup m)
  | ApiDescribeGroups => m ← decode_DescribeGroupsRequest version; mret (RqDescribeGroups m)
  | ApiListGroups => m ← decode_ListGroupsRequest version; mret (RqListGroups m)
  | ApiSaslHandshake => m ← decode_SaslHandshakeRequest version; mret (RqSaslHandshake m)
  | ApiApiVersions => m ← decode_ApiVersionsRequest version; mret (RqApiVersions m)
  | ApiCreateTopics => m ← decode_CreateTopicsRequest version; mret (RqCreateTopics m)
  | ApiDeleteTopics => m ← decode_DeleteTopicsRequest version; mret (RqDeleteTopics m)
  | ApiDeleteRecords => m ← decode_DeleteRecordsRequest version; mret (RqDeleteRecords m)
  | ApiInitProducerId => m ← decode_InitProducerIdRequest version; mret (RqInitProducerId m)
  | ApiAddPartitionsToTxn => m ← decode_AddPartitionsToTxnRequest version; mret (RqAddPartitionsToTxn m)
  | ApiAddOffsetsToTxn => m ← decode_AddOffsetsToTxnRequest version; mret (RqAddOffsetsToTxn m)
  | ApiEndTxn => m ← decode_EndTxnRequest version; mret (RqEndTxn m)
  | ApiDescribeAcls => m ← decode_DescribeAclsRequest version; mret (RqDescribeAcls m)
  | ApiCreateAcls => m ← decode_CreateAclsRequest version; mret (RqCreateAcls m)
  | ApiDeleteAcls => m ← decode_DeleteAclsRequest version; mret (RqDeleteAcls m)
  | ApiDescribeConfigs => m ← decode_DescribeConfigsRequest version; mret (RqDescribeConfigs m)
  | ApiAlterConfigs => m ← decode_AlterConfigsRequest version; mret (RqAlterConfigs m)
  | ApiSaslAuthenticate => m ← decode_SaslAuthenticateRequest version; mret (RqSaslAuthenticate m)
  | ApiCreatePartitions => m ← decode_CreatePartitionsRequest version; mret (RqCreatePartitions m)
  | ApiDeleteGroups => m ← decode_DeleteGroupsRequest version; mret (RqDeleteGroups m)
  | ApiJoinGroup => fail (EProtocol "Unsupported Kafka API Key JoinGroup")
  | ApiSyncGroup => fail (EProtocol "Unsupported Kafka API Key SyncGroup")
  end.

Definition request_ok (version : Z) (r : Request) : Prop :=
  match r with
  | RqProduce m => ProduceRequest_ok m
  | RqFetch m => FetchRequest_ok m
  | RqListOffsets m => ListOffsetsRequest_ok m
  | RqMetadata m => MetadataRequest_ok m
  | RqOffsetCommit m => OffsetCommitRequest_ok m
  | RqOffsetFetch m => OffsetFetchRequest_ok m
  | RqFindCoordinator m => FindCoordinatorRequest_ok m
  | RqHeartbeat m => HeartbeatRequest_ok m
  | RqLeaveGroup m => LeaveGroupRequest_ok m
  | RqDescribeGroups m => DescribeGroupsRequest_ok m
  | RqListGroups m => True
  | RqSaslHandshake m => SaslHandshakeRequest_ok m
  | RqApiVersions m => ApiVersionsRequest_ok m
  | RqCreateTopics m => CreateTopicsRequest_ok m
  | RqDeleteTopics m => DeleteTopicsRequest_ok m
  | RqDeleteRecords m => DeleteRecordsRequest_ok m
  | RqInitProducerId m => InitProducerIdRequest_ok m
  | RqAddPartitionsToTxn m => AddPartitionsToTxnRequest_ok m
  | RqAddOffsetsToTxn m => AddOffsetsToTxnRequest_ok m
  | RqEndTxn m => EndTxnRequest_ok m
  | RqDescribeAcls m => AclFilter_ok version m
  | RqCreateAcls m => CreateAclsRequest_ok version m
  | RqDeleteAcls m => DeleteAclsRequest_ok version m
  | RqDescribeConfigs m => DescribeConfigsRequest_ok m
  | RqAlterConfigs m => AlterConfigsRequest_ok m
  | RqSaslAuthenticate m => SaslAuthenticateRequest_ok m
  | RqCreatePartitions m => CreatePartitionsRequest_ok m
  | RqDeleteGroups m => DeleteGroupsRequest_ok m
  end.

#[export] Instance request_ok_dec version r : Decision (request_ok version r).
Proof. destruct r; cbn [request_ok]; apply _. Defined.

Definition seen_request (version : Z) (r : Request) : Request :=
  match r with
  | RqFetch m => RqFetch (seen_FetchRequest version m)
  | RqListOffsets m => RqListOffsets (seen_ListOffsetsRequest version m)
  | RqOffsetCommit m => RqOffsetCommit (seen_OffsetCommitRequest version m)
  | RqFindCoordinator m => RqFindCoordinator (seen_FindCoordinatorRequest version m)
  | RqApiVersions m => RqApiVersions (seen_ApiVersionsRequest version m)
  | RqCreateTopics m => RqCreateTopics (seen_CreateTopicsRequest version m)
  | RqInitProducerId m => RqInitProducerId (seen_InitProducerIdRequest version m)
  | RqDescribeAcls m => RqDescribeAcls (seen_AclFilter version m)
  | RqCreateAcls m => RqCreateAcls (seen_CreateAclsRequest version m)
  | RqDeleteAcls m => RqDeleteAcls (seen_DeleteAclsRequest version m)
  | RqDescribeConfigs m => RqDescribeConfigs (seen_DescribeConfigsRequest version m)
  | r => r
  end.

Inductive Response :=
| RsProduce (m : ProduceResponse)
| RsFetch (m : FetchResponse)
| RsListOffsets (m : ListOffsetsResponse)
| RsMetadata (m : MetadataResponse)
| RsOffsetCommit (m : OffsetCommitResponse)
| RsOffsetFetch (m : OffsetFetchResponse)
| RsFindCoordinator (m : FindCoordinatorResponse)
| RsHeartbeat (m : HeartbeatResponse)
| RsLeaveGroup (m : LeaveGroupResponse)
| RsDescribeGroups (m : DescribeGroupsResponse)
| RsListGroups (m : ListGroupsResponse)
| RsSaslHandshake (m : SaslHandshakeResponse)
| RsApiVersions (m : ApiVersionsResponse)
| RsCreateTopics (m : CreateTopicsResponse)
| RsDeleteTopics (m : DeleteTopicsResponse)
| RsDeleteRecords (m : DeleteRecordsResponse)
| RsInitProducerId (m : InitProducerIdResponse)
| RsAddPartitionsToTxn (m : AddPartitionsToTxnResponse)
| RsAddOffsetsToTxn (m : AddOffsetsToTxnResponse)
| RsEndTxn (m : EndTxnResponse)
| RsDescribeAcls (m : DescribeAclsResponse)
| RsCreateAcls (m : CreateAclsResponse)
| RsDeleteAcls (m : DeleteAclsResponse)
| RsDescribeConfigs (m : DescribeConfigsResponse)
| RsAlterConfigs (m : AlterConfigsResponse)
| RsSaslAuthenticate (m : SaslAuthenticateResponse)
| RsCreatePartitions (m : CreatePartitionsResponse)
| RsDeleteGroups (m : DeleteGroupsResponse).

Definition response_key (r : Response) : ApiKey :=
  match r with
  | RsProduce _ => ApiProduce
  | RsFetch _ => ApiFetch
  | RsListOffsets _ => ApiListOffsets
  | RsMetadata _ => ApiMetadata
  | RsOffsetCommit _ => ApiOffsetCommit
  | RsOffsetFetch _ => ApiOffsetFetch
  | RsFindCoordinator _ => ApiFindCoordinator
  | RsHeartbeat _ => ApiHeartbeat
  | RsLeaveGroup _ => ApiLeaveGroup
  | RsDescribeGroups _ => ApiDescribeGroups
  | RsListGroups _ => ApiListGroups
  | RsSaslHandshake _ => ApiSaslHandshake
  | RsApiVersions _ => ApiApiVersions
  | RsCreateTopics _ => ApiCreateTopics
  | RsDeleteTopics _ => ApiDeleteTopics
  | RsDeleteRecords _ => ApiDeleteRecords
  | RsInitProducerId _ => ApiInitProducerId
  | RsAddPartitionsToTxn _ => ApiAddPartitionsToTxn
  | RsAddOffsetsToTxn _ => ApiAddOffsetsToTxn
  | RsEndTxn _ => ApiEndTxn
  | RsDescribeAcls _ => ApiDescribeAcls
  | RsCreateAcls _ => ApiCreateAcls
  | RsDeleteAcls _ => ApiDeleteAcls
  | RsDescribeConfigs _ => ApiDescribeConfigs
  | RsAlterConfigs _ => ApiAlterConfigs
  | RsSaslAuthenticate _ => ApiSaslAuthenticate
  | RsCreatePartitions _ => ApiCreatePartitions
  | RsDeleteGroups _ => ApiDeleteGroups
  end.

Definition encode_response (version : Z) (r : Response) : bytes :=
  match r with
  | RsProduce m => encode_ProduceResponse version m
  | RsFetch m => encode_FetchResponse version m
  | RsListOffsets m => encode_ListOffsetsResponse version m
  | RsMetadata m => encode_MetadataResponse version m
  | RsOffsetCommit m => encode_OffsetCommitResponse version m
  | RsOffsetFetch m => encode_OffsetFetchResponse version m
  | RsFindCoordinator m => encode_FindCoordinatorResponse version m
  | RsHeartbeat m => encode_HeartbeatResponse version m
  | RsLeaveGroup m => encode_LeaveGroupResponse version m
  | RsDescribeGroups m => encode_DescribeGroupsResponse version m
  | RsListGroups m => encode_ListGroupsResponse version m
  | RsSaslHandshake m => encode_SaslHandshakeResponse version m
  | RsApiVersions m => encode_ApiVersionsResponse version m
  | RsCreateTopics m => encode_CreateTopicsResponse version m
  | RsDeleteTopics m => encode_DeleteTopicsResponse version m
  | RsDeleteRecords m => encode_DeleteRecordsResponse version m
  | RsInitProducerId m => encode_InitProducerIdResponse version m
  | RsAddPartitionsToTxn m => encode_AddPartitionsToTxnResponse version m
  | RsAddOffsetsToTxn m => encode_AddOffsetsToTxnResponse version m
  | RsEndTxn m => encode_EndTxnResponse version m
  | RsDescribeAcls m => encode_DescribeAclsResponse version m
  | RsCreateAcls m => encode_CreateAclsResponse version m
  | RsDeleteAcls m => encode_DeleteAclsResponse version m
  | RsDescribeConfigs m => encode_DescribeConfigsResponse version m
  | RsAlterConfigs m => encode_AlterConfigsResponse version m
  | RsSaslAuthenticate m => encode_SaslAuthenticateResponse version m
  | RsCreatePartitions m => encode_CreatePartitionsResponse version m
  | RsDeleteGroups m => encode_DeleteGroupsResponse version m
  end.

Definition decode_response (key : ApiKey) (version : Z) : decoder Response :=
  match key with
  | ApiProduce => m ← decode_ProduceResponse version; mret (RsProduce m)
  | ApiFetch => m ← decode_FetchResponse version; mret (RsFetch m)
  | ApiListOffsets => m ← decode_ListOffsetsResponse version; mret (RsListOffsets m)
  | ApiMetadata => m ← decode_MetadataResponse version; mret (RsMetadata m)
  | ApiOffsetCommit => m ← decode_OffsetCommitResponse version; mret (RsOffsetCommit m)
  | ApiOffsetFetch => m ← decode_OffsetFetchResponse version; mret (RsOffsetFetch m)
  | ApiFindCoordinator => m ← decode_FindCoordinatorResponse version; mret (RsFindCoordinator m)
  | ApiHeartbeat => m ← decode_HeartbeatResponse version; mret (RsHeartbeat m)
  | ApiLeaveGroup => m ← decode_LeaveGroupResponse version; mret (RsLeaveGroup m)
  | ApiDescribeGroups => m ← decode_DescribeGroupsResponse version; mret (RsDescribeGroups m)
  | ApiListGroups => m ← decode_ListGroupsResponse version; mret (RsListGroups m)
  | ApiSaslHandshake => m ← decode_SaslHandshakeResponse version; mret (RsSaslHandshake m)
  | ApiApiVersions => m ← decode_ApiVersionsResponse version; mret (RsApiVersions m)
  | ApiCreateTopics => m ← decode_CreateTopicsResponse version; mret (RsCreateTopics m)
  | ApiDeleteTopics => m ← decode_DeleteTopicsResponse version; mret (RsDeleteTopics m)
  | ApiDeleteRecords => m ← decode_DeleteRecordsResponse version; mret (RsDeleteRecords m)
  | ApiInitProducerId => m ← decode_InitProducerIdResponse version; mret (RsInitProducerId m)
  | ApiAddPartitionsToTxn => m ← decode_AddPartitionsToTxnResponse version; mret (RsAddPartitionsToTxn m)
  | ApiAddOffsetsToTxn => m ← decode_AddOffsetsToTxnResponse version; mret (RsAddOffsetsToTxn m)
  | ApiEndTxn => m ← decode_EndTxnResponse version; mret (RsEndTxn m)
  | ApiDescribeAcls => m ← decode_DescribeAclsResponse version; mret (RsDescribeAcls m)
  | ApiCreateAcls => m ← decode_CreateAclsResponse version; mret (RsCreateAcls m)
  | ApiDeleteAcls => m ← decode_DeleteAclsResponse version; mret (RsDeleteAcls m)
  | ApiDescribeConfigs => m ← decode_DescribeConfigsResponse version; mret (RsDescribeConfigs m)
  | ApiAlterConfigs => m ← decode_AlterConfigsResponse version; mret (RsAlterConfigs m)
  | ApiSaslAuthenticate => m ← decode_SaslAuthenticateResponse version; mret (RsSaslAuthenticate m)
  | ApiCreatePartitions => m ← decode_CreatePartitionsResponse version; mret (RsCreatePartitions m)
  | ApiDeleteGroups => m ← decode_DeleteGroupsResponse version; mret (RsDeleteGroups m)
  | ApiJoinGroup => fail (EProtocol "Unsupported Kafka API Key JoinGroup")
  | ApiSyncGroup => fail (EProtocol "Unsupported Kafka API Key SyncGroup")
  end.

Definition response_ok (version : Z) (r : Response) : Prop :=
  match r with
  | RsProduce m => ProduceResponse_ok m
  | RsFetch m => FetchResponse_ok m
  | RsListOffsets m => ListOffsetsResponse_ok m
  | RsMetadata m => MetadataResponse_ok m
  | RsOffsetCommit m => OffsetCommitResponse_ok m
  | RsOffsetFetch m => OffsetFetchResponse_ok m
  | RsFindCoordinator m => FindCoordinatorResponse_ok m
  | RsHeartbeat m => HeartbeatResponse_ok m
  | RsLeaveGroup m => LeaveGroupResponse_ok m
  | RsDescribeGroups m => DescribeGroupsResponse_ok m
  | RsListGroups m => ListGroupsResponse_ok m
  | RsSaslHandshake m => SaslHandshakeResponse_ok m
  | RsApiVersions m => ApiVersionsResponse_ok m
  | RsCreateTopics m => CreateTopicsResponse_ok m
  | RsDeleteTopics m => DeleteTopicsResponse_ok m
  | RsDeleteRecords m => DeleteRecordsResponse_ok m
  | RsInitProducerId m => InitProducerIdResponse_ok m
  | RsAddPartitionsToTxn m => AddPartitionsToTxnResponse_ok m
  | RsAddOffsetsToTxn m => AddOffsetsToTxnResponse_ok m
  | RsEndTxn m => EndTxnResponse_ok m
  | RsDescribeAcls m => DescribeAclsResponse_ok version m
  | RsCreateAcls m => CreateAclsResponse_ok version m
  | RsDeleteAcls m => DeleteAclsResponse_ok version m
  | RsDescribeConfigs m => DescribeConfigsResponse_ok m
  | RsAlterConfigs m => AlterConfigsResponse_ok m
  | RsSaslAuthenticate m => SaslAuthenticateResponse_ok version m
  | RsCreatePartitions m => CreatePartitionsResponse_ok m
  | RsDeleteGroups m => DeleteGroupsResponse_ok m
  end.

#[export] Instance response_ok_dec version r : Decision (response_ok version r).
Proof. destruct r; cbn [response_ok]; apply _. Defined.

Definition seen_response (version : Z) (r : Response) : Response :=
  match r with
  | RsProduce m => RsProduce (seen_ProduceResponse version m)
  | RsFetch m => RsFetch (seen_FetchResponse version m)
  | RsListOffsets m => RsListOffsets (seen_ListOffsetsResponse version m)
  | RsMetadata m => RsMetadata (seen_MetadataResponse version m)
  | RsOffsetCommit m => RsOffsetCommit (seen_OffsetCommitResponse version m)
  | RsOffsetFetch m => RsOffsetFetch (seen_OffsetFetchResponse version m)
  | RsFindCoordinator m => RsFindCoordinator (seen_FindCoordinatorResponse version m)
  | RsHeartbeat m => RsHeartbeat (seen_HeartbeatResponse version m)
  | RsLeaveGroup m => RsLeaveGroup (seen_LeaveGroupResponse version m)
  | RsDescribeGroups m => RsDescribeGroups (seen_DescribeGroupsResponse version m)
  | RsListGroups m => RsListGroups (seen_ListGroupsResponse version m)
  | RsApiVersions m => RsApiVersions (seen_ApiVersionsResponse version m)
  | RsCreateTopics m => RsCreateTopics (seen_CreateTopicsResponse version m)
  | RsDeleteTopics m => RsDeleteTopics (seen_DeleteTopicsResponse version m)
  | RsDescribeAcls m => RsDescribeAcls (seen_DescribeAclsResponse version m)
  | RsCreateAcls m => RsCreateAcls (seen_CreateAclsResponse version m)
  | RsDeleteAcls m => RsDeleteAcls (seen_DeleteAclsResponse version m)
  | RsDescribeConfigs m => RsDescribeConfigs (seen_DescribeConfigsResponse version m)
  | RsSaslAuthenticate m => RsSaslAuthenticate (seen_SaslAuthenticateResponse version m)
  | r => r
  end.

(** ** Lemmas *)
Lemma ListGroupsRequest_reads version m : Reads (decode_ListGroupsRequest version) (encode_ListGroupsRequest version m) m.
Proof. by destruct m. Qed.

#[local] Hint Resolve
  AddOffsetsToTxnRequest_reads AddOffsetsToTxnResponse_reads AddPartitionsToTxnRequest_reads
  AddPartitionsToTxnResponse_reads AlterConfigsRequest_reads AlterConfigsResponse_reads
  ApiVersionsRequest_reads ApiVersionsResponse_reads CreateAclsRequest_reads
  CreateAclsResponse_reads CreatePartitionsRequest_reads CreatePartitionsResponse_reads
  CreateTopicsRequest_reads CreateTopicsResponse_reads DeleteAclsRequest_reads
  DeleteAclsResponse_reads DeleteGroupsRequest_reads DeleteGroupsResponse_reads
  DeleteRecordsRequest_reads DeleteRecordsResponse_reads DeleteTopicsRequest_reads
  DeleteTopicsResponse_reads DescribeAclsRequest_reads DescribeAclsResponse_reads
  DescribeConfigsRequest_reads DescribeConfigsResponse_reads DescribeGroupsRequest_reads
  DescribeGroupsResponse_reads EndTxnRequest_reads EndTxnResponse_reads FetchRequest_reads
  FetchResponse_reads FindCoordinatorRequest_reads FindCoordinatorResponse_reads
  HeartbeatRequest_reads HeartbeatResponse_reads InitProducerIdRequest_reads
  InitProducerIdResponse_reads LeaveGroupRequest_reads LeaveGroupResponse_reads
  ListGroupsRequest_reads ListGroupsResponse_reads ListOffsetsRequest_reads
  ListOffsetsResponse_reads MetadataRequest_reads MetadataResponse_reads
  OffsetCommitRequest_reads OffsetCommitResponse_reads OffsetFetchRequest_reads
  OffsetFetchResponse_reads ProduceRequest_reads ProduceResponse_reads
  SaslAuthenticateRequest_reads SaslAuthenticateResponse_reads SaslHandshakeRequest_reads
  SaslHandshakeResponse_reads : wire.

Lemma request_reads version r : request_ok version r →
  Reads (decode_request (request_key r) version) (encode_request version r) (seen_request version r).
Proof.
  destruct r; cbn [request_ok request_key decode_request encode_request seen_request]; intros Hok.
  all: apply (reads_map _ _ _ _); typeclasses eauto with wire.
Qed.

Lemma response_reads version r : response_ok version r →
  Reads (decode_response (response_key r) version) (encode_response version r) (seen_response version r).
Proof.
  destruct r; cbn [response_ok response_key decode_response encode_response seen_response]; intros Hok.
  all: apply (reads_map _ _ _ _); typeclasses eauto with wire.
Qed.
End messages.
