(* ===== verification/MsgSafe.v ===== *)
(** * Requests and responses as a whole: round trips, and which bodies abort the broker

    The release profile aborts on a panic, so a decoder that panics takes the
    broker down with it.  [wp] is a weakest-precondition logic for the readers
    of MsgCodec in which a panic is a failure; with it, the request decoders
    are split into those that answer every body with a value or an error and
    those that some body makes panic. *)

From Stdlib Require Import Strings.Byte.
From stdpp Require Import base numbers list strings.
From S2P Require Import Prelude Bytes BytesUtil CoreTypes KafkaWire MessageTypes.
From S2P Require Import MsgCodec MsgMeta MsgData MsgGroup MsgTxn MsgAuth MsgAdmin Messages.

(** ** Panic freedom *)
Definition wp {A} (m : decoder A) (Q : A → bytes → Prop) (l : bytes) : Prop :=
  match m l with Ok (x, k) => Q x k | Err _ => True | Panic => False end.

Definition panic_free {A} (m : decoder A) : Prop := ∀ l, m l ≠ Panic.

Create HintDb safe.

Lemma wp_bind {A B} (m : decoder A) (f : A → decoder B) Q l :
  wp m (λ x k, wp (f x) Q k) l → wp (m ≫= f) Q l.
Proof. unfold wp, mbind, reader_bind. by destruct (m l) as [[x k]| |]. Qed.

Lemma wp_ret {A} (x : A) (Q : A → bytes → Prop) l : Q x l → wp (mret x) Q l.
Proof. done. Qed.

Lemma wp_fail {A} e (Q : A → bytes → Prop) l : wp (fail e) Q l.
Proof. done. Qed.

Lemma wp_remaining (Q : Z → bytes → Prop) l : Q (zlen l) l → wp remaining Q l.
Proof. done. Qed.

Lemma wp_require n msg (Q : unit → bytes → Prop) l : (n ≤ zlen l → Q tt l) → wp (require n msg) Q l.
Proof.
  intros HQ. apply wp_bind, wp_remaining. case_decide; [apply wp_fail|apply wp_ret, HQ]. lia.
Qed.

Lemma wp_get_s n (Q : Z → bytes → Prop) l : Z.of_nat n ≤ zlen l →
  (∀ x k, - 2 ^ (8 * Z.of_nat n - 1) ≤ x < 2 ^ (8 * Z.of_nat n - 1) ∨ n = O →
    zlen k = zlen l - Z.of_nat n → Q x k) → wp (get_s n) Q l.
Proof.
  intros Hl HQ. unfold wp, get_s. unfold zlen in Hl. rewrite decide_False by lia.
  apply HQ; [|unfold zlen; rewrite length_drop; lia].
  destruct n; [by right|left]. apply wrap_s_range. lia.
Qed.

Lemma wp_get_u n (Q : Z → bytes → Prop) l : Z.of_nat n ≤ zlen l →
  (∀ x k, zlen k = zlen l - Z.of_nat n → Q x k) → wp (get_u n) Q l.
Proof.
  intros Hl HQ. unfold wp, get_u. unfold zlen in Hl. rewrite decide_False by lia.
  apply HQ. unfold zlen; rewrite length_drop; lia.
Qed.

Lemma wp_take n (Q : bytes → bytes → Prop) l : n ≤ zlen l →
  (∀ x k, Q x k) → wp (take_bytes n) Q l.
Proof. intros Hl HQ. unfold wp, take_bytes. rewrite decide_False by lia. apply HQ. Qed.

(** A panic-free part needs no knowledge of the input. *)
Lemma wp_free {A} (m : decoder A) (Q : A → bytes → Prop) l :
  panic_free m → (∀ x k, Q x k) → wp m Q l.
Proof. intros Hm HQ. unfold wp. specialize (Hm l). destruct (m l) as [[x k]| |]; [apply HQ|done|done]. Qed.

Lemma free_wp {A} (m : decoder A) : (∀ l, wp m (λ _ _, True) l) → panic_free m.
Proof. intros Hm l Hp. specialize (Hm l). unfold wp in Hm. by rewrite Hp in Hm. Qed.

(** Extended below with the rules for arrays. *)
Ltac wp_extra := fail.
Ltac wp_step :=
  lazymatch goal with
  | |- wp (mbind _ _) _ _ => apply wp_bind
  | |- wp (mret _) _ _ => apply wp_ret; exact I || cbv beta
  | |- wp (fail _) _ _ => apply wp_fail
  | |- wp remaining _ _ => apply wp_remaining
  | |- wp (require _ _) _ _ => apply wp_require; intros ?
  | |- wp (get_s _) _ _ => apply wp_get_s; [lia|intros ?? _ ?]
  | |- wp (get_u _) _ _ => apply wp_get_u; [lia|intros ???]
  | |- wp (take_bytes _) _ _ => apply wp_take; [lia|intros ??]
  | |- wp get_bool _ _ => unfold get_bool
  | |- wp (if decide _ then _ else _) _ _ => case_decide
  | |- wp (match ?o with Some _ => _ | None => _ end) _ _ => destruct o
  | |- wp ?m _ _ => first [wp_extra | apply wp_free; [solve [eauto with safe]|intros ??]]
  | |- True => exact I
  end.
Ltac wp_run := repeat (wp_step; cbv beta).
Ltac safe := apply free_wp; intros ?; wp_run.

Lemma free_uvarint : panic_free read_unsigned_varint.
Proof.
  intros l. enough (∀ value shift, read_uvarint_loop value shift l ≠ Panic) as Hl by apply Hl.
  induction l as [|b l IH]; intros value shift; cbn [read_uvarint_loop]; [done|].
  repeat case_decide; [done|done|apply IH].
Qed.
#[export] Hint Resolve free_uvarint : safe.

Lemma free_utf8 l : panic_free (utf8_or_err l).
Proof. unfold utf8_or_err. safe. Qed.
#[export] Hint Resolve free_utf8 : safe.

Lemma free_string : panic_free read_string.
Proof. unfold read_string. safe. Qed.
Lemma free_compact_string : panic_free read_compact_string.
Proof. unfold read_compact_string. safe. Qed.
Lemma free_bytes : panic_free read_bytes.
Proof. unfold read_bytes. safe. Qed.
Lemma free_compact_bytes : panic_free read_compact_bytes.
Proof. unfold read_compact_bytes. safe. Qed.
#[export] Hint Resolve free_string free_compact_string free_bytes free_compact_bytes : safe.

Lemma free_str : panic_free read_str.
Proof. unfold read_str. safe. Qed.
Lemma free_string_v v : panic_free (read_string_v v).
Proof. unfold read_string_v. safe. Qed.
#[export] Hint Resolve free_str free_string_v : safe.
Lemma free_str_v v : panic_free (read_str_v v).
Proof. unfold read_str_v. safe. Qed.
Lemma free_blob : panic_free read_blob.
Proof. unfold read_blob. safe. Qed.
Lemma free_tagged v : panic_free (read_tagged v).
Proof. unfold read_tagged. safe. Qed.
Lemma free_trailing_bool d : panic_free (read_trailing_bool d).
Proof. unfold read_trailing_bool, get_bool. safe. Qed.
#[export] Hint Resolve free_str_v free_blob free_tagged free_trailing_bool : safe.

(** ** Arrays

    A count that came from a checked [i32] is below 2^31; with memory for that
    many elements, reading the array is as safe as reading an element. *)
Class AmpleMemory `{Allocator} := ample T n : 0 ≤ n < 2 ^ 31 → grants T n = true.

Section arrays.
Context `{AmpleMemory}.

Lemma free_read_n {A} n (body : decoder A) : panic_free body → panic_free (read_n n body).
Proof.
  intros Hb. induction n as [|n IH]; [by intros l|].
  change (read_n (S n) body) with (x ← body; xs ← read_n n body; mret (x :: xs)). safe.
Qed.

Lemma free_capacity T n : 0 ≤ n < 2 ^ 31 → panic_free (with_capacity T n).
Proof. intros Hn l. unfold with_capacity. by rewrite ample. Qed.

Lemma free_vec {A} (body : decoder A) n :
  0 ≤ n < 2 ^ 31 → panic_free body → panic_free (read_vec body n).
Proof. intros Hn Hb. unfold read_vec. pose proof (free_capacity A n Hn). pose proof (free_read_n (Z.to_nat n) body Hb). safe. Qed.

Lemma free_strings n : 0 ≤ n < 2 ^ 31 → panic_free (read_strings n).
Proof.
  intros Hn. unfold read_strings. pose proof (free_capacity string n Hn).
  pose proof (free_read_n (Z.to_nat n) read_string free_string). safe.
Qed.

Lemma wp_count {A} (Q : A → bytes → Prop) l (f : Z → decoder A) : 4 ≤ zlen l →
  (∀ n k, - 2 ^ 31 ≤ n < 2 ^ 31 → zlen k = zlen l - 4 → wp (f n) Q k) → wp (get_i32 ≫= f) Q l.
Proof.
  intros Hl Hf. apply wp_bind, wp_get_s; [done|]. intros n k [Hn|?] Hk; [|done]. by apply Hf.
Qed.

Section counts.
Context {A : Type} (vec : Z → decoder A).
Hypothesis Hvec : ∀ n, 0 ≤ n < 2 ^ 31 → panic_free (vec n).

Lemma free_array_checked trunc neg : panic_free (read_array_checked trunc neg vec).
Proof using Hvec.
  apply free_wp. intros l. apply wp_bind, wp_require. intros. apply wp_count; [done|]. intros n k Hn Hk.
  case_decide; [apply wp_fail|]. apply wp_free; [apply Hvec; lia|done].
Qed.

Lemma free_array_clamped trunc : panic_free (read_array_clamped trunc vec).
Proof using Hvec.
  apply free_wp. intros l. apply wp_bind, wp_require. intros. apply wp_count; [done|]. intros n k Hn Hk.
  apply wp_free; [apply Hvec; case_decide; lia|done].
Qed.

(** The presence of the count was checked before. *)
Lemma wp_array_opt (Q : option A → bytes → Prop) l :
  4 ≤ zlen l → (∀ x k, Q x k) → wp (read_array_opt vec) Q l.
Proof using Hvec.
  intros Hl HQ. apply wp_count; [done|]. intros n k Hn Hk. case_decide; [apply wp_ret, HQ|].
  apply wp_bind, wp_free; [apply Hvec; lia|]. intros. apply wp_ret, HQ.
Qed.
End counts.
End arrays.
#[export] Hint Resolve free_vec free_strings free_array_checked free_array_clamped : safe.

Ltac wp_extra ::=
  lazymatch goal with
  | |- wp (read_array_opt _) _ _ => apply wp_array_opt; [solve [eauto with safe]|lia|intros ??]
  end.

(** ** The checked decoders *)
Section checked.
Context `{AmpleMemory}.

Tactic Notation "checked" reference(d) := unfold d; safe.

Lemma free_SaslAuthenticate v : panic_free (decode_SaslAuthenticateRequest v).
Proof. unfold decode_SaslAuthenticateRequest, read_blob_v. safe. Qed.
Lemma free_SaslHandshake v : panic_free (decode_SaslHandshakeRequest v).
Proof. checked decode_SaslHandshakeRequest. Qed.
Lemma free_ApiVersions v : panic_free (decode_ApiVersionsRequest v).
Proof. checked decode_ApiVersionsRequest. Qed.
Lemma free_Metadata v : panic_free (decode_MetadataRequest v).
Proof. checked decode_MetadataRequest. Qed.
Lemma free_LeaveGroup v : panic_free (decode_LeaveGroupRequest v).
Proof. checked decode_LeaveGroupRequest. Qed.
Lemma free_FindCoordinator v : v < 1 → panic_free (decode_FindCoordinatorRequest v).
Proof. intros. checked decode_FindCoordinatorRequest. Qed.
Lemma free_DescribeGroups v : panic_free (decode_DescribeGroupsRequest v).
Proof. checked decode_DescribeGroupsRequest. Qed.
Lemma free_DeleteGroups v : panic_free (decode_DeleteGroupsRequest v).
Proof. checked decode_DeleteGroupsRequest. Qed.
Lemma free_ListGroups v : panic_free (decode_ListGroupsRequest v).
Proof. checked decode_ListGroupsRequest. Qed.

(** The ids of a replica assignment: their bytes are checked all at once. *)
Lemma wp_read_ints n (Q : list Z → bytes → Prop) l : 4 * Z.of_nat n ≤ zlen l →
  (∀ x k, Q x k) → wp (read_n n get_i32) Q l.
Proof.
  revert l Q. induction n as [|n IH]; intros l Q Hl HQ; [apply wp_ret, HQ|].
  change (read_n (S n) get_i32) with (x ← get_i32; xs ← read_n n get_i32; mret (x :: xs) : decoder _).
  apply wp_count; [lia|]. intros x k Hx Hk. wp_step. apply IH; [|intros; apply wp_ret, HQ]. lia.
Qed.

Lemma wp_broker_ids trunc (Q : list Z → bytes → Prop) l : 4 ≤ zlen l →
  (∀ x k, Q x k) → wp (read_broker_ids trunc) Q l.
Proof.
  intros Hl HQ. apply wp_count; [done|]. intros n k Hn Hk. cbv zeta. wp_step. wp_step.
  unfold read_vec. wp_step. unfold wp at 1, with_capacity. rewrite ample by (case_decide; lia).
  apply wp_read_ints; [|apply HQ]. case_decide; lia.
Qed.

Ltac wp_extra ::=
  lazymatch goal with
  | |- wp (read_array_opt _) _ _ => apply wp_array_opt; [solve [eauto with safe]|lia|intros ??]
  | |- wp (read_broker_ids _) _ _ => apply wp_broker_ids; [lia|intros ??]
  end.

Lemma free_CTAssignment : panic_free decode_CreateTopicsReplicaAssignment.
Proof. checked decode_CreateTopicsReplicaAssignment. Qed.
Lemma free_CTConfig : panic_free decode_CreateTopicsConfig.
Proof. checked decode_CreateTopicsConfig. Qed.
#[local] Hint Resolve free_CTAssignment free_CTConfig : safe.
Lemma free_CreatableTopic : panic_free decode_CreatableTopic.
Proof. checked decode_CreatableTopic. Qed.
#[local] Hint Resolve free_CreatableTopic : safe.
Lemma free_CreateTopics v : panic_free (decode_CreateTopicsRequest v).
Proof. checked decode_CreateTopicsRequest. Qed.
Lemma free_DeleteTopics v : panic_free (decode_DeleteTopicsRequest v).
Proof. checked decode_DeleteTopicsRequest. Qed.

Lemma free_DRPartition : panic_free decode_DeleteRecordsPartition.
Proof. checked decode_DeleteRecordsPartition. Qed.
#[local] Hint Resolve free_DRPartition : safe.
Lemma free_DRTopic : panic_free decode_DeleteRecordsTopic.
Proof. checked decode_DeleteRecordsTopic. Qed.
#[local] Hint Resolve free_DRTopic : safe.
Lemma free_DeleteRecords v : panic_free (decode_DeleteRecordsRequest v).
Proof. checked decode_DeleteRecordsRequest. Qed.

Lemma free_DCResource : panic_free decode_DescribeConfigsResource.
Proof. checked decode_DescribeConfigsResource. Qed.
#[local] Hint Resolve free_DCResource : safe.
Lemma free_DescribeConfigs v : panic_free (decode_DescribeConfigsRequest v).
Proof. checked decode_DescribeConfigsRequest. Qed.

Lemma free_AlterableConfig : panic_free decode_AlterableConfig.
Proof. checked decode_AlterableConfig. Qed.
#[local] Hint Resolve free_AlterableConfig : safe.
Lemma free_ACResource : panic_free decode_AlterConfigsResource.
Proof. checked decode_AlterConfigsResource. Qed.
#[local] Hint Resolve free_ACResource : safe.
Lemma free_AlterConfigs v : panic_free (decode_AlterConfigsRequest v).
Proof. checked decode_AlterConfigsRequest. Qed.

Lemma free_CPAssignment : panic_free decode_CreatePartitionsAssignment.
Proof. checked decode_CreatePartitionsAssignment. Qed.
#[local] Hint Resolve free_CPAssignment : safe.
Lemma free_CPTopic : panic_free decode_CreatePartitionsTopic.
Proof. checked decode_CreatePartitionsTopic. Qed.
#[local] Hint Resolve free_CPTopic : safe.
Lemma free_CreatePartitions v : panic_free (decode_CreatePartitionsRequest v).
Proof. checked decode_CreatePartitionsRequest. Qed.

Lemma free_DescribeAcls v : panic_free (decode_DescribeAclsRequest v).
Proof. unfold decode_DescribeAclsRequest, decode_acl_filter, read_pattern_type. safe. Qed.
End checked.

#[local] Hint Resolve free_SaslAuthenticate free_SaslHandshake free_ApiVersions free_Metadata
  free_LeaveGroup free_FindCoordinator free_DescribeGroups free_DeleteGroups free_ListGroups
  free_CreateTopics free_DeleteTopics free_DeleteRecords free_DescribeConfigs free_AlterConfigs
  free_CreatePartitions free_DescribeAcls : safe.

(** ** The unchecked decoders *)

(** Their first fixed-width read, or an array's capacity, is not checked. *)
Definition unchecked_api (key : ApiKey) (version : Z) : bool :=
  match key with
  | ApiProduce | ApiFetch | ApiListOffsets | ApiOffsetCommit | ApiOffsetFetch | ApiHeartbeat
  | ApiInitProducerId | ApiAddPartitionsToTxn | ApiAddOffsetsToTxn | ApiEndTxn
  | ApiCreateAcls | ApiDeleteAcls => true
  | ApiFindCoordinator => bool_decide (version ≥ 1)
  | _ => false
  end.

(** Two bytes, the length of a null string; for the ACL requests a count of -1,
    which is also the varint of [u64::MAX]. *)
Definition crash_body (key : ApiKey) : bytes :=
  match key with
  | ApiCreateAcls | ApiDeleteAcls => replicate 9 xff ++ [x01]
  | _ => [xff; xff]
  end.

Section unchecked.
Context `{Allocator}.

Lemma panic_bind {A B} (m : decoder A) (f : A → decoder B) l : m l = Panic → (m ≫= f) l = Panic.
Proof. intros Hm. unfold mbind, reader_bind. by rewrite Hm. Qed.

Lemma panic_huge {A B} v trunc (body : decoder A) (f : list A → decoder B) :
  (read_array_v v trunc (read_vec body) ≫= f) (replicate 9 xff ++ [x01]) = Panic.
Proof.
  apply panic_bind. unfold read_array_v, read_vec, with_capacity.
  assert (∀ n, isize_max < n → grants A n = false) as Hg.
  { intros n Hn. apply not_true_is_false. intros ?%grants_isize. lia. }
  case_decide.
  - erewrite reader_bind_ok by (vm_compute; reflexivity). by apply panic_bind; rewrite Hg.
  - erewrite reader_bind_ok by (vm_compute; reflexivity). by apply panic_bind; rewrite Hg.
Qed.

Lemma unchecked_panics key version : unchecked_api key version = true →
  decode_request key version (crash_body key) = Panic.
Proof.
  destruct key; cbn [unchecked_api crash_body decode_request]; intros Hu; try done; apply panic_bind.
  all: try apply panic_huge.
  - unfold decode_ProduceRequest. by case_decide.
  - unfold decode_OffsetCommitRequest. by repeat case_decide.
  - apply bool_decide_eq_true in Hu. unfold decode_FindCoordinatorRequest. by rewrite decide_True.
Qed.
End unchecked.

Lemma checked_free `{AmpleMemory} key version : unchecked_api key version = false →
  panic_free (decode_request key version).
Proof.
  destruct key; cbn [unchecked_api decode_request]; intros Hu; try done.
  all: try (apply bool_decide_eq_false in Hu; assert (version < 1) by lia).
  all: safe.
Qed.

(** ** Properties *)

(** A request as the broker takes it from a frame: the header, then the body
    that the header's key and version announce. *)
Definition decode_message `{Allocator} : decoder (RequestHeader * Request) :=
  h ← decode_request_header;
  m ← decode_request (rh_api_key h) (rh_api_version h);
  mret (h, m).

(** An allocator that grants what fits the address space. *)
Definition roomy : Allocator.
Proof.
  refine {| grants := λ _ n, bool_decide (n ≤ isize_max) |}; [done|].
  intros T n Hn. by apply bool_decide_eq_true in Hn.
Defined.
#[local] Instance roomy_ample : AmpleMemory (H:=roomy).
Proof. intros T n Hn. apply bool_decide_eq_true. unfold isize_max. lia. Qed.

Lemma message_reads `{Allocator} h r k :
  header_wf h → request_key r = rh_api_key h → request_ok (rh_api_version h) r →
  decode_message (encode_request_header h ++ client_tags h ++ encode_request (rh_api_version h) r ++ k)
    = Ok ((h, seen_request (rh_api_version h) r), k).
Proof.
  intros Hh Hk Hr. unfold decode_message.
  erewrite reader_bind_ok by by apply request_header_decodes.
  rewrite <- Hk. by erewrite reader_bind_ok by by apply request_reads.
Qed.

(** C19: Every request reaches the handler as the client meant it.  For every API
    and version except [ApiVersions] from version 3 on, a header and a request,
    encoded one after the other, decode to that header and to the request as
    that version carries it, and leave exactly the bytes that follow; a field
    that the version has no place for takes the default the decoder documents.
    For [ApiVersions] from version 3 on the same holds when the empty
    tagged-field section that the protocol puts at the end of a flexible header
    stands between the two; the repository's own encoder does not write it, and
    its output is then misread ([own_flexible_request_misread]). *)
Theorem requests_roundtrip `{Allocator} h r k :
  header_wf h → request_key r = rh_api_key h → request_ok (rh_api_version h) r →
  let header := encode_request_header h in
  let body := encode_request (rh_api_version h) r in
  let seen := Ok ((h, seen_request (rh_api_version h) r), k) in
  if decide (rh_api_key h = ApiApiVersions ∧ rh_api_version h ≥ 3)
  then decode_message (header ++ [x00] ++ body ++ k) = seen
  else decode_message (header ++ body ++ k) = seen.
Proof.
  intros Hh Hk Hr header body seen. pose proof (message_reads h r k Hh Hk Hr) as Hm.
  unfold client_tags, flexible_header in Hm. by case_decide.
Qed.
Lemma requests_roundtrip_witness :
  let h := mkReqHeader ApiCreateTopics 1 7 (Some "admin"%string) in
  let r := RqCreateTopics (mkCreateTopicsReq [mkCreatable "t" 3 1 [mkCTRA 0 [1; 2]]
                             [mkCTC "retention.ms" (Some "1000")]] 5000 true) in
  decode_message (H:=roomy) (encode_request_header h ++ encode_request (rh_api_version h) r ++ [x2a])
    = Ok ((h, r), [x2a]).
Proof.
  refine (@requests_roundtrip roomy (mkReqHeader ApiCreateTopics 1 7 (Some "admin"%string))
    (RqCreateTopics _) _ _ _ _).
  - apply (bool_decide_unpack _). vm_compute. exact I.
  - done.
  - apply (bool_decide_unpack _). vm_compute. exact I.
Defined.

(** A header and an [ApiVersions] request of version 3 as the repository encodes
    them: the decoder takes the length of the client's name for the tagged
    fields of the header, and the rest for another request. *)
Theorem own_flexible_request_misread :
  let h := mkReqHeader ApiApiVersions 3 7 (Some "admin"%string) in
  let sent := RqApiVersions (mkApiVersionsReq (Some "ab"%string) (Some "1"%string)) in
  request_ok (H:=roomy) 3 sent ∧ header_wf h ∧
  decode_message (H:=roomy) (encode_request_header h ++ encode_request 3 sent) ≠ Ok ((h, sent), []).
Proof.
  split_and!; [apply (bool_decide_unpack _); vm_compute; exact I..|].
  intros E. vm_compute in E. discriminate E.
Qed.

(** C20: Every response reaches the client as the broker meant it: encoded for a
    version and decoded for that version it is the response as that version
    carries it, and the bytes that follow are untouched. *)
Theorem responses_roundtrip `{Allocator} version r k : response_ok version r →
  decode_response (response_key r) version (encode_response version r ++ k)
    = Ok (seen_response version r, k).
Proof. intros Hr. by apply response_reads. Qed.
Lemma responses_roundtrip_witness :
  let r := RsOffsetFetch (mkOffsetFetchResp 0 [mkOFTR "t" [mkOFPR 2 77 (Some "m"%string) E_None]] E_None) in
  decode_response (H:=roomy) ApiOffsetFetch 3 (encode_response 3 r ++ [x2a])
    = Ok (seen_response 3 r, [x2a]).
Proof.
  refine (@responses_roundtrip roomy 3 (RsOffsetFetch _) _ _).
  apply (bool_decide_unpack _). vm_compute. exact I.
Defined.

(** C21: Which requests can abort the broker.  With memory for any count an [i32]
    can announce, the body of a request makes its decoder panic, and so aborts
    the process, exactly for the APIs listed by [unchecked_api]; for every
    other API and version every body is answered with a request or an error. *)
Theorem request_decoders_that_panic `{AmpleMemory} key version :
  (∃ body, decode_request key version body = Panic) ↔ unchecked_api key version = true.
Proof.
  split.
  - intros [body Hb]. apply not_false_is_true. intros Hu. by apply (checked_free key version Hu body).
  - intros Hu. exists (crash_body key). by apply unchecked_panics.
Qed.
Lemma request_decoders_that_panic_witness :
  (∃ body, @decode_request roomy ApiHeartbeat 4 body = Panic)
  ∧ ¬ (∃ body, @decode_request roomy ApiMetadata 4 body = Panic).
Proof.
  split; [by apply (@request_decoders_that_panic roomy roomy_ample)|].
  by intros ?%(@request_decoders_that_panic roomy roomy_ample).
Defined.
