(* ===== verification/Cluster.v ===== *)
(** * Cluster state

    [crates/oxidemq-broker/src/router.rs]: the topic and partition tables of a
    broker.  The WAL, the object store and the caches that all partitions share
    are the [World] of [Stream.v]; a partition reached through the table is
    updated in the table ([Arc<Partition>] is shared, never copied). *)

From stdpp Require Import base numbers list strings sets gmap sorting.
From S2P Require Import Prelude Bytes CoreTypes KafkaWire MessageTypes.
From S2P Require Import Wal LogCache BlockCache ObjectStore Stream Partition.

Abbreviation kres := (res KafkaErrorCode).

Record TopicRegistration := mkTopic {
  tr_name : string;
  tr_num_partitions : Z;
  tr_replication_factor : Z;
  tr_configs : gmap string string }.

Record ClusterState := mkCluster {
  cs_node_id : Z;
  cs_host : string;
  cs_port : Z;
  cs_cluster_id : string;
  cs_partitions : gmap TopicPartition Partition;
  cs_topics : gmap string TopicRegistration;
  cs_next_stream_id : Z }.

Definition cluster_new (node_id : Z) (host : string) (port : Z) (cluster_id : string) : ClusterState :=
  mkCluster node_id host port cluster_id ∅ ∅ 100.

Definition set_partitions (m : gmap TopicPartition Partition) (c : ClusterState) : ClusterState :=
  mkCluster (cs_node_id c) (cs_host c) (cs_port c) (cs_cluster_id c) m (cs_topics c) (cs_next_stream_id c).
Definition set_topics (m : gmap string TopicRegistration) (c : ClusterState) : ClusterState :=
  mkCluster (cs_node_id c) (cs_host c) (cs_port c) (cs_cluster_id c) (cs_partitions c) m (cs_next_stream_id c).
Definition set_next_stream_id (n : Z) (c : ClusterState) : ClusterState :=
  mkCluster (cs_node_id c) (cs_host c) (cs_port c) (cs_cluster_id c) (cs_partitions c) (cs_topics c) n.
Definition set_advertised_host (h : string) (c : ClusterState) : ClusterState :=
  mkCluster (cs_node_id c) h (cs_port c) (cs_cluster_id c) (cs_partitions c) (cs_topics c) (cs_next_stream_id c).
Definition set_advertised_port (n : Z) (c : ClusterState) : ClusterState :=
  mkCluster (cs_node_id c) (cs_host c) n (cs_cluster_id c) (cs_partitions c) (cs_topics c) (cs_next_stream_id c).

(** A step of a partition reached through the table. *)
Definition put_partition (tp : TopicPartition) (p : Partition) (c : ClusterState) : ClusterState :=
  set_partitions (<[tp := p]> (cs_partitions c)) c.

(** The read-locked lookup and the write-locked one are one step. *)
Definition get_or_create_partition (tp : TopicPartition) (c : ClusterState) : Partition * ClusterState :=
  match cs_partitions c !! tp with
  | Some p => (p, c)
  | None =>
      let stream_id := cs_next_stream_id c in
      let c := set_next_stream_id (u64 (stream_id + 1)) c in
      let partition := partition_new tp (stream_new stream_id 0) in
      (partition, put_partition tp partition c)
  end.

Definition get_partition (tp : TopicPartition) (c : ClusterState) : option Partition :=
  cs_partitions c !! tp.

(** [c.is_ascii_alphanumeric() || c == '.' || c == '_' || c == '-'] for every
    character; the bytes of a character beyond ASCII are all above 127. *)
Definition topic_char (b : Byte.byte) : bool :=
  in_range 48 57 b || in_range 65 90 b || in_range 97 122 b
  || in_range 46 46 b || in_range 95 95 b || in_range 45 45 b.

Definition topic_name_ok (name : string) : bool :=
  negb (bool_decide (name = "") || bool_decide (name = ".") || bool_decide (name = "..")
        || bool_decide (str_len name > 249))
  && forallb topic_char (str_bytes name).

(** [partitions.keys().any(|tp| tp.topic == name)] *)
Definition topic_partitions (name : string) (c : ClusterState) : gmap TopicPartition Partition :=
  filter (λ kv, tp_topic kv.1 = name) (cs_partitions c).

Definition has_topic (name : string) (c : ClusterState) : bool :=
  bool_decide (is_Some (cs_topics c !! name)) || bool_decide (topic_partitions name c ≠ ∅).

(** [for p in lo..hi { let _ = self.get_or_create_partition(..); }] *)
Definition provision (name : string) (lo hi : Z) (c : ClusterState) : ClusterState :=
  foldl (λ c p, (get_or_create_partition (mkTP name p) c).2) c (seqZ lo (hi - lo)).

Definition create_topic (name : string) (num_partitions replication_factor : Z)
    (configs : gmap string string) (c : ClusterState) : kres unit * ClusterState :=
  if negb (topic_name_ok name) then (Err E_InvalidTopicException, c) else
  let parts := if decide (num_partitions = -1) then 1 else num_partitions in
  if decide (parts ≤ 0 ∨ parts > 10000) then (Err E_InvalidPartitions, c) else
  let rf := if decide (replication_factor = -1) then 1 else replication_factor in
  if decide (rf ≤ 0) then (Err E_InvalidReplicationFactor, c) else
  if has_topic name c then (Err E_TopicAlreadyExists, c) else
  let c := provision name 0 parts c in
  (Ok tt, set_topics (<[name := mkTopic name parts rf configs]> (cs_topics c)) c).

Definition delete_topic (name : string) (c : ClusterState) : kres unit * ClusterState :=
  let existed_in_topics := bool_decide (is_Some (cs_topics c !! name)) in
  let removed_partitions := bool_decide (topic_partitions name c ≠ ∅) in
  let c := set_topics (delete name (cs_topics c)) c in
  let c := set_partitions (filter (λ kv, tp_topic kv.1 ≠ name) (cs_partitions c)) c in
  if negb existed_in_topics && negb removed_partitions
  then (Err E_UnknownTopicOrPartition, c) else (Ok tt, c).

Definition get_topic (name : string) (c : ClusterState) : option TopicRegistration := cs_topics c !! name.

(** [str]'s order: bytewise lexicographic. *)
Definition str_le (a b : string) : Prop := String.leb a b = true.
#[export] Instance str_le_dec : RelDecision str_le.
Proof. intros a b. unfold str_le. apply _. Defined.

(** A [BTreeSet] is iterated in order. *)
Definition list_topics (c : ClusterState) : list string :=
  merge_sort str_le
    (elements (dom (cs_topics c) ∪ set_map tp_topic (dom (cs_partitions c)) : gset string)).

(** [iter().max()] *)
Definition list_max (l : list Z) : option Z :=
  match l with [] => None | x :: l' => Some (foldr Z.max x l') end.

Definition current_count (name : string) (c : ClusterState) : Z :=
  match cs_topics c !! name with
  | Some t => tr_num_partitions t
  | None => default 0 (list_max ((λ kv, i32 (tp_partition kv.1 + 1)) <$> map_to_list (topic_partitions name c)))
  end.

Definition create_partitions (name : string) (new_count : Z)
    (assignments : option (list CreatePartitionsAssignment)) (validate_only : bool) (c : ClusterState)
    : kres unit * ClusterState :=
  if negb (has_topic name c) then (Err E_UnknownTopicOrPartition, c) else
  let current := current_count name c in
  if decide (new_count ≤ current) then (Err E_InvalidPartitions, c) else
  if decide (new_count ≤ 0 ∨ new_count > 10000) then (Err E_InvalidPartitions, c) else
  if (match assignments with
      | Some assigns => bool_decide (zlen assigns ≠ u64 (i32 (new_count - current)))
      | None => false end) then (Err E_InvalidRequest, c) else
  if validate_only then (Ok tt, c) else
  let c := provision name current new_count c in
  let reg := match cs_topics c !! name with
             | Some reg => mkTopic (tr_name reg) new_count (tr_replication_factor reg) (tr_configs reg)
             | None => mkTopic name new_count 1 ∅
             end in
  (Ok tt, set_topics (<[name := reg]> (cs_topics c)) c).

Definition put_config (m : gmap string string) (kv : string * option string) : gmap string string :=
  match kv.2 with Some val => <[kv.1 := val]> m | None => delete kv.1 m end.

Definition update_topic_configs (name : string) (configs : list (string * option string)) (c : ClusterState)
    : kres unit * ClusterState :=
  if negb (has_topic name c) then (Err E_UnknownTopicOrPartition, c) else
  let reg := match cs_topics c !! name with
             | Some t => mkTopic (tr_name t) (tr_num_partitions t) (tr_replication_factor t)
                                 (foldl put_config (tr_configs t) configs)
             | None =>
                 let configs_map :=
                   foldl (λ m kv, match kv.2 with Some v => <[kv.1 := v]> m | None => m end) ∅ configs in
                 let parts := i32 (Z.of_nat (size (topic_partitions name c))) in
                 mkTopic name (Z.max parts 1) 1 configs_map
             end in
  (Ok tt, set_topics (<[name := reg]> (cs_topics c)) c).

Definition partition_count (c : ClusterState) : Z := Z.of_nat (size (cs_partitions c)).

Definition reset (c : ClusterState) : ClusterState :=
  set_next_stream_id 100 (set_partitions ∅ (set_topics ∅ c)).

Section ops.
Context `{HO : HashOrder} {W St : Type} `{!WalEngine W, !ObjectStorage St}.
Abbreviation world := (World W St).

Definition delete_records (tp : TopicPartition) (before_offset : Z) (c : ClusterState) (w : world)
    : kres Z * ClusterState * world :=
  match get_partition tp c with
  | None => (Err E_UnknownTopicOrPartition, c, w)
  | Some partition =>
      let hw := high_watermark partition in
      if decide (before_offset ≠ -1 ∧ (before_offset < 0 ∨ before_offset > hw))
      then (Err E_OffsetOutOfRange, c, w) else
      let target_offset := if decide (before_offset = -1) then hw else before_offset in
      let current_start := log_start_offset partition in
      if decide (target_offset ≤ current_start) then (Ok current_start, c, w) else
      let '(new_lw, partition, w) := advance_log_start_offset target_offset partition w in
      (Ok new_lw, put_partition tp partition c, w)
  end.

(** ** Configuration descriptions *)
Definition default_configs : list (string * string * bool * bool) :=
  [("cleanup.policy", "delete", false, false);
   ("retention.ms", "604800000", false, false);
   ("retention.bytes", "-1", false, false);
   ("max.message.bytes", "1048576", false, false);
   ("min.insync.replicas", "1", false, false);
   ("segment.bytes", "1073741824", false, false)].

(** A result that carries its value as its only synonym. *)
Definition cfg_with (name val : string) (ro is_default : bool) (src : Z) (sens : bool)
    : DescribeConfigsResourceResult :=
  mkCfg name (Some val) ro is_default src sens [mkSyn name (Some val) src].
Definition cfg_unknown (name : string) : DescribeConfigsResourceResult :=
  mkCfg name None false true 0 false [].

Definition describe_key (topic_configs : gmap string string) (key : string)
    : DescribeConfigsResourceResult :=
  match topic_configs !! key with
  | Some val => cfg_with key val false false 1 false
  | None =>
      match list_find (λ d : string * string * bool * bool, d.1.1.1 = key) default_configs with
      | Some (_, (_, def_val, ro, sens)) => cfg_with key def_val ro true 5 sens
      | None => cfg_unknown key
      end
  end.

Definition describe_topic_configs (name : string) (keys : option (list string)) (c : ClusterState)
    : kres (list DescribeConfigsResourceResult) :=
  if negb (has_topic name c) then Err E_UnknownTopicOrPartition else
  let topic_configs := default ∅ (tr_configs <$> cs_topics c !! name) in
  match keys with
  | Some (k :: ks) => Ok (describe_key topic_configs <$> k :: ks)
  | _ =>
      let of_default (d : string * string * bool * bool) :=
        let '(key, def_val, ro, sens) := d in
        match topic_configs !! key with
        | Some val => cfg_with key val ro false 1 sens
        | None => cfg_with key def_val ro true 5 sens
        end in
      let extra := filter (λ kv : string * string, kv.1 ∉ default_configs.*1.*1.*1) (hash_iter topic_configs) in
      Ok ((of_default <$> default_configs)
          ++ ((λ kv : string * string, cfg_with kv.1 kv.2 false false 1 false) <$> extra))
  end.

Definition broker_configs (c : ClusterState) : list (string * string * bool * Z) :=
  [("log.retention.ms", "604800000", false, 4);
   ("auto.create.topics.enable", "true", true, 4);
   ("num.partitions", "1", false, 4);
   ("default.replication.factor", "1", false, 4);
   ("listeners", "PLAINTEXT://" +:+ cs_host c +:+ ":" +:+ dec (cs_port c), true, 4)].

Definition describe_broker_configs (keys : option (list string)) (c : ClusterState)
    : list DescribeConfigsResourceResult :=
  match keys with
  | Some (k :: ks) =>
      (λ key, match list_find (λ d : string * string * bool * Z, d.1.1.1 = key) (broker_configs c) with
              | Some (_, (_, val, ro, src)) => cfg_with key val ro false src false
              | None => cfg_unknown key
              end) <$> k :: ks
  | _ => (λ '(key, val, ro, src), cfg_with key val ro false src false) <$> broker_configs c
  end.

(** ** Metadata *)
Definition push_index (m : gmap string (list Z)) (tp : TopicPartition) : gmap string (list Z) :=
  <[tp_topic tp := default [] (m !! tp_topic tp) ++ [tp_partition tp]]> m.

Definition topic_map (requested : option (list string)) (c : ClusterState) : gmap string (list Z) :=
  foldl push_index ∅
    (filter (λ tp, match requested with Some req => tp_topic tp ∈ req | None => True end)
            (hash_iter (cs_partitions c)).*1).

(** The requested topics that have no partition: created, or reported. *)
Definition resolve_topic (allow_auto_create : bool)
    (st : gmap string (list Z) * list string * ClusterState) (t : string)
    : gmap string (list Z) * list string * ClusterState :=
  let '(m, not_found, c) := st in
  match m !! t with
  | Some _ => (m, not_found, c)
  | None =>
      if allow_auto_create
      then (<[t := [0]]> m, not_found, (get_or_create_partition (mkTP t 0) c).2)
      else (m, not_found ++ [t], c)
  end.

Definition partition_meta (node_id p_idx : Z) : PartitionMetadata :=
  mkPartMeta E_None p_idx node_id 0 [node_id] [node_id].

Definition build_metadata_with_auto_create (requested : option (list string)) (allow_auto_create : bool)
    (c : ClusterState) : MetadataResponse * ClusterState :=
  let brokers := [mkBrokerMeta (cs_node_id c) (cs_host c) (cs_port c) None] in
  let '(m, not_found, c) :=
    foldl (resolve_topic allow_auto_create) (topic_map requested c, [], c) (default [] requested) in
  let found := (λ kv : string * list Z,
    mkTopicMeta E_None kv.1 false
      (partition_meta (cs_node_id c) <$> sort_by_key (λ x, x) kv.2)) <$> hash_iter m in
  let missing := (λ t, mkTopicMeta E_UnknownTopicOrPartition t false []) <$> not_found in
  (mkMetaResp 0 brokers (Some (cs_cluster_id c)) (cs_node_id c) (found ++ missing), c).

Definition build_metadata (requested : option (list string)) (c : ClusterState)
    : MetadataResponse * ClusterState := build_metadata_with_auto_create requested true c.
End ops.

(** ** Lemmas: provisioning *)
Definition sid (p : Partition) : Z := s_stream_id (stream p).

(** Every partition has a stream of its own, numbered below the counter. *)
Record cluster_ok (c : ClusterState) : Prop := {
  ck_next : 100 ≤ cs_next_stream_id c;
  ck_range : ∀ tp p, cs_partitions c !! tp = Some p → 100 ≤ sid p < cs_next_stream_id c;
  ck_tp : ∀ tp p, cs_partitions c !! tp = Some p → topic_partition p = tp;
  ck_inj : ∀ tp tp' p p', cs_partitions c !! tp = Some p → cs_partitions c !! tp' = Some p' →
    sid p = sid p' → tp = tp';
  ck_topics : ∀ name reg, cs_topics c !! name = Some reg → 0 < tr_num_partitions reg }.

Lemma cluster_new_ok n h p id : cluster_ok (cluster_new n h p id).
Proof. split; cbn; [done|..]; intros *; by rewrite lookup_empty. Qed.

Lemma get_or_create_ok tp c : cluster_ok c → cs_next_stream_id c + 1 < 2 ^ 64 →
  cluster_ok (get_or_create_partition tp c).2
  ∧ cs_next_stream_id (get_or_create_partition tp c).2 ≤ cs_next_stream_id c + 1
  ∧ cs_partitions (get_or_create_partition tp c).2 !! tp = Some (get_or_create_partition tp c).1.
Proof.
  intros [Hn Hr Ht Hi Hg] Hb. unfold get_or_create_partition. destruct (cs_partitions c !! tp) as [p|] eqn:Hp.
  { cbn. split_and!; [done|lia|done]. }
  rewrite wrap_u_small by (unfold in_u; lia). cbn. split_and!; [|lia|by rewrite lookup_insert_eq].
  assert (∀ tp' p', cs_partitions c !! tp' = Some p' → sid p' < cs_next_stream_id c) as Hlt
    by (intros; by eapply Hr).
  split; cbn.
  - lia.
  - intros tp' p'. rewrite lookup_insert_Some. intros [[-> <-]|[_ H]]; [cbn; lia|]. apply Hr in H. lia.
  - intros tp' p'. rewrite lookup_insert_Some. intros [[-> <-]|[_ H]]; [done|]. by apply Ht.
  - intros t1 t2 p1 p2. rewrite !lookup_insert_Some.
    intros [[-> <-]|[_ H1]] [[-> <-]|[_ H2]] Heq; [done| | |by eapply Hi].
    + apply Hlt in H2. unfold sid in *. cbn in *. lia.
    + apply Hlt in H1. unfold sid in *. cbn in *. lia.
  - exact Hg.
Qed.

Lemma get_or_create_other tp tp' c : tp' ≠ tp →
  cs_partitions (get_or_create_partition tp c).2 !! tp' = cs_partitions c !! tp'.
Proof.
  intros Hne. unfold get_or_create_partition. destruct (cs_partitions c !! tp); [done|].
  cbn. by rewrite lookup_insert_ne.
Qed.

Lemma get_or_create_frame tp c :
  cs_topics (get_or_create_partition tp c).2 = cs_topics c
  ∧ cs_node_id (get_or_create_partition tp c).2 = cs_node_id c.
Proof. unfold get_or_create_partition. by destruct (cs_partitions c !! tp). Qed.

Lemma provision_fold name l c : cluster_ok c → cs_next_stream_id c + zlen l < 2 ^ 64 →
  let c' := foldl (λ c p, (get_or_create_partition (mkTP name p) c).2) c l in
  cluster_ok c' ∧ cs_next_stream_id c' ≤ cs_next_stream_id c + zlen l
  ∧ cs_topics c' = cs_topics c
  ∧ (∀ i, i ∈ l → is_Some (cs_partitions c' !! mkTP name i))
  ∧ (∀ tp, (tp_topic tp ≠ name ∨ tp_partition tp ∉ l) → cs_partitions c' !! tp = cs_partitions c !! tp)
  ∧ (∀ tp p, cs_partitions c !! tp = Some p → cs_partitions c' !! tp = Some p)
  ∧ (∀ tp p, cs_partitions c' !! tp = Some p → cs_partitions c !! tp = None →
       producer_states p = ∅ ∧ high_watermark p = 0).
Proof.
  revert c. induction l as [|i l IH]; intros c Hok Hb; cbn [foldl].
  { split_and!; try done; [change (zlen []) with 0; lia|set_solver|congruence]. }
  rewrite zlen_cons in Hb. pose proof (zlen_nonneg l).
  destruct (get_or_create_ok (mkTP name i) c Hok) as (Hok' & Hn' & Hp'); [lia|].
  destruct (get_or_create_frame (mkTP name i) c) as [Ht' _].
  assert (∀ tp p, cs_partitions c !! tp = Some p →
    cs_partitions (get_or_create_partition (mkTP name i) c).2 !! tp = Some p) as Hkeep.
  { intros tp p Hp. destruct (decide (tp = mkTP name i)) as [->|Hne].
    - unfold get_or_create_partition. by rewrite Hp.
    - by rewrite get_or_create_other. }
  destruct (IH (get_or_create_partition (mkTP name i) c).2) as (H1 & H2 & H3 & H4 & H5 & H6 & H7); [done|lia|].
  split_and!.
  - done.
  - rewrite zlen_cons. lia.
  - congruence.
  - intros j Hj. destruct (decide (j ∈ l)) as [|Hjl]; [auto|].
    assert (j = i) as -> by set_solver. eexists. by apply H6.
  - intros tp Htp. rewrite H5 by set_solver. apply get_or_create_other. destruct tp. cbn in *. set_solver.
  - auto.
  - intros tp p Hp Hnone.
    destruct (cs_partitions (get_or_create_partition (mkTP name i) c).2 !! tp) as [q|] eqn:Hq; [|by eapply H7].
    rewrite (H6 _ _ Hq) in Hp. injection Hp as ->.
    destruct (decide (tp = mkTP name i)) as [->|Hne].
    + unfold get_or_create_partition in Hq. rewrite Hnone in Hq. cbn in Hq.
      rewrite lookup_insert_eq in Hq. by injection Hq as <-.
    + rewrite get_or_create_other in Hq by done. congruence.
Qed.

Lemma zlen_seqZ lo n : 0 ≤ n → zlen (seqZ lo n) = n.
Proof. intros. unfold zlen. rewrite length_seqZ. lia. Qed.

Lemma topic_partitions_empty name c : topic_partitions name c = ∅ →
  ∀ tp, tp_topic tp = name → cs_partitions c !! tp = None.
Proof.
  intros He tp Htp. destruct (cs_partitions c !! tp) as [p|] eqn:Hp; [|done]. exfalso.
  assert (topic_partitions name c !! tp = Some p) as Hf by (by apply map_lookup_filter_Some).
  by rewrite He in Hf.
Qed.

Lemma has_topic_false name c : has_topic name c = false →
  cs_topics c !! name = None ∧ ∀ tp, tp_topic tp = name → cs_partitions c !! tp = None.
Proof.
  unfold has_topic. intros [H1 H2]%orb_false_iff.
  apply bool_decide_eq_false in H1, H2. split.
  - by apply eq_None_not_Some.
  - apply topic_partitions_empty. by destruct (decide (topic_partitions name c = ∅)).
Qed.

Lemma set_topics_ok name reg c : cluster_ok c → 0 < tr_num_partitions reg →
  cluster_ok (set_topics (<[name := reg]> (cs_topics c)) c).
Proof.
  intros [Hn Hr Ht Hi Hg] Hp. split; cbn; [done..|].
  intros name' reg'. rewrite lookup_insert_Some. intros [[-> <-]|[_ H]]; [done|]. by eapply Hg.
Qed.

Lemma foldr_max_ge x l b : b ≤ x → b ≤ foldr Z.max x l.
Proof. intros. induction l as [|y l IH]; cbn; lia. Qed.

Lemma current_count_ge name c : cluster_ok c → - 2 ^ 31 ≤ current_count name c.
Proof.
  intros Hok. unfold current_count. destruct (cs_topics c !! name) as [reg|] eqn:Hr.
  - apply (ck_topics c Hok) in Hr. lia.
  - destruct (_ <$> _) as [|x l] eqn:Hl; cbn; [lia|]. apply foldr_max_ge.
    assert (x ∈ x :: l) as Hx by set_solver. rewrite <- Hl in Hx.
    apply list_elem_of_fmap in Hx as (kv & -> & _).
    pose proof (wrap_s_range 32 (tp_partition kv.1 + 1) ltac:(lia)) as [H _]. done.
Qed.

Lemma delete_topic_ok name c : cluster_ok c → cluster_ok (delete_topic name c).2.
Proof.
  intros [Hn Hr Ht Hi Hg]. unfold delete_topic. destruct (_ && _); cbn; (split; cbn; [done|..]).
  all: intros *; rewrite ?map_lookup_filter_Some, ?lookup_delete_Some; naive_solver.
Qed.

(** Changing a partition in place. *)
Lemma put_partition_ok tp p p' c : cluster_ok c → cs_partitions c !! tp = Some p →
  sid p' = sid p → topic_partition p' = topic_partition p → cluster_ok (put_partition tp p' c).
Proof.
  intros [Hn Hr Ht Hi Hg] Hp Hs Htp. split; cbn; [done|..|exact Hg].
  - intros t q. rewrite lookup_insert_Some. intros [[-> <-]|[_ H]]; [rewrite Hs|]; eauto.
  - intros t q. rewrite lookup_insert_Some. intros [[-> <-]|[_ H]]; [rewrite Htp|]; eauto.
  - intros t1 t2 p1 p2. rewrite !lookup_insert_Some.
    intros [[-> <-]|[_ H1]] [[-> <-]|[_ H2]]; rewrite ?Hs; eauto.
Qed.

(** ** Any sequence of operations *)
Inductive cop :=
  | CGet (tp : TopicPartition)
  | CCreateTopic (name : string) (num_partitions replication_factor : Z) (configs : gmap string string)
  | CDeleteTopic (name : string)
  | CCreatePartitions (name : string) (new_count : Z)
      (assignments : option (list CreatePartitionsAssignment)) (validate_only : bool)
  | CUpdateConfigs (name : string) (configs : list (string * option string))
  | CMetadata (requested : option (list string)) (allow_auto_create : bool)
  | CDeleteRecords (tp : TopicPartition) (before_offset : Z)
  | CAppend (tp : TopicPartition) (now : Z) (records : bytes).

(** An upper bound on the partitions that an operation provisions. *)
Definition creates (op : cop) : Z :=
  match op with
  | CGet _ | CAppend _ _ _ => 1
  | CCreateTopic _ _ _ _ => 10000
  | CCreatePartitions name n _ _ => 2 ^ 31 + 10000
  | CMetadata requested _ => zlen (default [] requested)
  | _ => 0
  end.

Definition creates_all (ops : list cop) : Z := foldr (λ op n, creates op + n) 0 ops.

Section steps.
Context `{HO : HashOrder} {W St : Type} `{!WalEngine W, !ObjectStorage St}.
Abbreviation world := (World W St).

Definition cop_run (st : ClusterState * world) (op : cop) : ClusterState * world :=
  let '(c, w) := st in
  match op with
  | CGet tp => ((get_or_create_partition tp c).2, w)
  | CCreateTopic name n rf cfgs => ((create_topic name n rf cfgs c).2, w)
  | CDeleteTopic name => ((delete_topic name c).2, w)
  | CCreatePartitions name n asg v => ((create_partitions name n asg v c).2, w)
  | CUpdateConfigs name cfgs => ((update_topic_configs name cfgs c).2, w)
  | CMetadata req auto => ((build_metadata_with_auto_create req auto c).2, w)
  | CDeleteRecords tp o => let '(_, c, w) := delete_records tp o c w in (c, w)
  | CAppend tp now recs =>
      let '(p, c) := get_or_create_partition tp c in
      let '(_, p, w) := append_records now recs p w in
      (put_partition tp p c, w)
  end.

Lemma append_records_frame now recs p (w : world) :
  sid (append_records now recs p w).1.2 = sid p
  ∧ topic_partition (append_records now recs p w).1.2 = topic_partition p.
Proof.
  unfold append_records. destruct (mbind _ _) as [[[patched count] o]| |]; [|done..].
  assert (∀ q, s_stream_id (append_with_count patched count q w).1.2 = s_stream_id q) as Hq.
  { intros q. unfold append_with_count. destruct (wal_append _ _ _ _) as [[?| |] ?]; done. }
  specialize (Hq (stream (match o with
     | Some pid => set_ongoing (open_txn pid (s_next_offset (stream p)) (ongoing_txns p)) p
     | None => p end))).
  destruct (append_with_count _ _ _ _) as [[r s'] w']. cbn in *. by destruct o.
Qed.

Lemma advance_frame o p (w : world) :
  sid (advance_log_start_offset o p w).1.2 = sid p
  ∧ topic_partition (advance_log_start_offset o p w).1.2 = topic_partition p.
Proof. unfold advance_log_start_offset, advance_start_offset. by destruct (decide _). Qed.

Lemma resolve_fold auto req m nf c : cluster_ok c → cs_next_stream_id c + zlen req < 2 ^ 64 →
  cluster_ok (foldl (resolve_topic auto) (m, nf, c) req).2
  ∧ cs_next_stream_id (foldl (resolve_topic auto) (m, nf, c) req).2 ≤ cs_next_stream_id c + zlen req.
Proof.
  revert m nf c. induction req as [|t req IH]; intros m nf c Hok Hb; cbn [foldl].
  { change (zlen []) with 0. cbn [snd]. split; [done|lia]. }
  rewrite zlen_cons in Hb |- *. pose proof (zlen_nonneg req). unfold resolve_topic at 2 4.
  destruct (m !! t); [|destruct auto].
  - destruct (IH m nf c Hok) as [? ?]; [lia|]. split; [done|lia].
  - destruct (get_or_create_ok (mkTP t 0) c Hok) as (Hok' & Hn & _); [lia|].
    destruct (IH (<[t := [0]]> m) nf _ Hok') as [? ?]; [lia|]. split; [done|lia].
  - destruct (IH m (nf ++ [t]) c Hok) as [? ?]; [lia|]. split; [done|lia].
Qed.

Lemma current_count_bound name n c c' asg v : create_partitions name n asg v c = (Ok tt, c') → v = false →
  ∃ reg, 0 < tr_num_partitions reg ∧ c' = set_topics (<[name := reg]> (cs_topics (provision name (current_count name c) n c)))
                (provision name (current_count name c) n c)
    ∧ 0 < n ≤ 10000 ∧ current_count name c < n.
Proof.
  unfold create_partitions. destruct (has_topic name c); cbn [negb]; [|done].
  destruct (decide (n ≤ current_count name c)); [done|].
  destruct (decide (n ≤ 0 ∨ n > 10000)); [done|].
  destruct (match asg with Some _ => _ | None => _ end); [done|].
  intros Hr ->. injection Hr as <-. eexists. split; [|split; [reflexivity|lia]].
  case_match; cbn; lia.
Qed.

Lemma create_topic_counts name n rf cfgs c : cluster_ok c → cs_next_stream_id c + 10000 < 2 ^ 64 →
  cluster_ok (create_topic name n rf cfgs c).2
  ∧ cs_next_stream_id (create_topic name n rf cfgs c).2 ≤ cs_next_stream_id c + 10000.
Proof.
  intros Hok Hb. unfold create_topic. destruct (negb _); [split; [done|cbn; lia]|].
  set (parts := if decide (n = -1) then 1 else n).
  destruct (decide (parts ≤ 0 ∨ parts > 10000)) as [|Hp]; [split; [done|cbn; lia]|].
  destruct (decide (_ ≤ 0)); [split; [done|cbn; lia]|].
  destruct (has_topic name c); [split; [done|cbn; lia]|]. cbn [fst snd].
  assert (zlen (seqZ 0 (parts - 0)) = parts) as Hz by (rewrite zlen_seqZ; lia).
  destruct (provision_fold name (seqZ 0 (parts - 0)) c Hok) as (H1 & H2 & _); [lia|].
  split; [apply set_topics_ok; [done|cbn; lia]|]. cbn. unfold provision. lia.
Qed.

Lemma create_partitions_counts name n asg validate c : cluster_ok c → cs_next_stream_id c + (2 ^ 31 + 10000) < 2 ^ 64 →
  cluster_ok (create_partitions name n asg validate c).2
  ∧ cs_next_stream_id (create_partitions name n asg validate c).2 ≤ cs_next_stream_id c + (2 ^ 31 + 10000).
Proof.
  intros Hok Hb. destruct (create_partitions name n asg validate c) as [[[]| |] c'] eqn:Hr; cbn [snd].
  - destruct validate.
    { revert Hr. unfold create_partitions. destruct (negb _); [done|].
      destruct (decide _); [done|]. destruct (decide (_ ∨ _)); [done|].
      destruct (match asg with Some _ => _ | None => _ end); [done|].
      intros [= <-]. split; [done|lia]. }
    apply current_count_bound in Hr as (reg & Hreg & -> & Hn & Hlt); [|done]. pose proof (current_count_ge name c Hok) as Hcnt.
    set (l := seqZ (current_count name c) (n - current_count name c)).
    assert (zlen l = n - current_count name c) as Hz by (apply zlen_seqZ; lia).
    destruct (provision_fold name l c Hok) as (H1 & H2 & _); [lia|].
    split; [by apply set_topics_ok|]. cbn. unfold provision. fold l. lia.
  - assert (c' = c) as ->; [|split; [done|lia]].
    revert Hr. unfold create_partitions. repeat case_match; congruence.
  - revert Hr. unfold create_partitions. repeat case_match; congruence.
Qed.

Lemma cop_run_ok op c w : cluster_ok c → cs_next_stream_id c + creates op < 2 ^ 64 →
  cluster_ok (cop_run (c, w) op).1
  ∧ cs_next_stream_id (cop_run (c, w) op).1 ≤ cs_next_stream_id c + creates op.
Proof.
  intros Hok Hb. destruct op; cbn [cop_run creates] in *.
  - destruct (get_or_create_ok tp c Hok) as (? & ? & _); [lia|]. done.
  - by apply create_topic_counts.
  - split; [by apply delete_topic_ok|]. unfold delete_topic. destruct (_ && _); cbn; lia.
  - by apply create_partitions_counts.
  - unfold update_topic_configs. destruct (negb _); cbn; [split; [done|lia]|].
    split; [|cbn; lia]. apply set_topics_ok; [done|].
    destruct (cs_topics c !! name) as [t|] eqn:Ht; cbn; [by eapply ck_topics|lia].
  - unfold build_metadata_with_auto_create.
    pose proof (resolve_fold allow_auto_create (default [] requested) (topic_map requested c) [] c Hok) as Hf.
    destruct (foldl _ _ _) as [[m nf] c']. cbn in *. apply Hf. lia.
  - unfold delete_records, get_partition. destruct (cs_partitions c !! tp) as [p|] eqn:Hp; [|split; [done|cbn; lia]].
    destruct (decide _); [split; [done|cbn; lia]|]. destruct (decide _); [split; [done|cbn; lia]|].
    match goal with |- context [advance_log_start_offset ?o p w] =>
      destruct (advance_frame o p w) as [Hs Ht];
      destruct (advance_log_start_offset o p w) as [[lw p'] w'] end.
    cbn [fst snd] in *. split; [by apply (put_partition_ok tp p)|cbn; lia].
  - destruct (get_or_create_ok tp c Hok) as (H1 & H2 & H3); [lia|].
    destruct (get_or_create_partition tp c) as [p c1]. cbn [fst snd] in *.
    destruct (append_records_frame now records p w) as [Hs Ht].
    destruct (append_records now records p w) as [[r p'] w']. cbn [fst snd] in *.
    split; [|cbn; lia]. by apply (put_partition_ok tp p).
Qed.
End steps.

(** ** Properties *)
Lemma creates_nonneg op : 0 ≤ creates op.
Proof. destruct op; cbn; try lia. apply zlen_nonneg. Qed.

Lemma creates_all_nonneg ops : 0 ≤ creates_all ops.
Proof. induction ops as [|op ops IH]; cbn; [lia|]. pose proof (creates_nonneg op). unfold creates_all in IH. lia. Qed.

Section theorems.
Context `{HO : HashOrder} {W St : Type} `{!WalEngine W, !ObjectStorage St}.
Abbreviation world := (World W St).

Lemma cops_run_ok ops : ∀ c (w : world), cluster_ok c → cs_next_stream_id c + creates_all ops < 2 ^ 64 →
  cluster_ok (foldl cop_run (c, w) ops).1.
Proof.
  induction ops as [|op ops IH]; intros c w Hok Hb; [done|]. cbn [foldl].
  change (creates_all (op :: ops)) with (creates op + creates_all ops) in Hb.
  pose proof (creates_all_nonneg ops).
  destruct (cop_run_ok op c w Hok) as [Hok' Hn]; [lia|].
  destruct (cop_run (c, w) op) as [c' w']. cbn [fst] in *. apply IH; [done|lia].
Qed.

(** Partitions never share storage.  After any sequence of topic and
    partition operations (creations explicit or implicit, deletions, expansions,
    metadata requests with auto-creation, record deletions and appends) on a new
    broker, every partition in the table is its own, and two partitions of the
    table have different stream ids, all below the broker's counter, so that the
    records of one can never be read through the other. *)
Theorem cluster_streams_disjoint ops node host port id (w : world) :
  100 + creates_all ops < 2 ^ 64 →
  let c := (foldl cop_run (cluster_new node host port id, w) ops).1 in
  (∀ tp p, cs_partitions c !! tp = Some p →
     topic_partition p = tp ∧ 100 ≤ sid p < cs_next_stream_id c)
  ∧ (∀ tp tp' p p', cs_partitions c !! tp = Some p → cs_partitions c !! tp' = Some p' →
       sid p = sid p' → tp = tp').
Proof.
  intros Hb c. destruct (cops_run_ok ops (cluster_new node host port id) w) as [H1 H2 H3 H4 _].
  - apply cluster_new_ok.
  - done.
  - split; [|done]. intros tp p Hp. split; [by apply H3|by eapply H2].
Qed.
End theorems.

Lemma create_topic_Ok name n rf cfg c c' : create_topic name n rf cfg c = (Ok tt, c') →
  let parts := if decide (n = -1) then 1 else n in
  let rf' := if decide (rf = -1) then 1 else rf in
  topic_name_ok name = true ∧ 0 < parts ≤ 10000 ∧ 0 < rf' ∧ has_topic name c = false
  ∧ c' = set_topics (<[name := mkTopic name parts rf' cfg]> (cs_topics (provision name 0 parts c)))
           (provision name 0 parts c).
Proof.
  unfold create_topic. destruct (topic_name_ok name); cbn [negb]; [|done]. cbv zeta.
  set (parts := if decide (n = -1) then 1 else n).
  set (rf' := if decide (rf = -1) then 1 else rf).
  destruct (decide (parts ≤ 0 ∨ parts > 10000)); [done|].
  destruct (decide (rf' ≤ 0)); [done|]. destruct (has_topic name c); [done|].
  intros [= <-]. split_and!; (done || lia).
Qed.

(** A topic's life.  [CreateTopics] either reports an error and changes
    nothing, or the topic was unknown, its name and counts are valid, it is now
    registered with exactly the partitions 0 to n-1, all empty, and every other
    topic and partition is untouched; and deleting it afterwards succeeds and
    leaves the broker with the topics and partitions it had before. *)
Theorem topic_lifecycle name n rf cfg c r c' :
  cluster_ok c → cs_next_stream_id c + 10000 < 2 ^ 64 →
  create_topic name n rf cfg c = (r, c') →
  match r with
  | Err _ => c' = c
  | Panic => False
  | Ok _ =>
      let parts := if decide (n = -1) then 1 else n in
      has_topic name c = false
      ∧ cs_topics c' !! name = Some (mkTopic name parts (if decide (rf = -1) then 1 else rf) cfg)
      ∧ (∀ tp, tp_topic tp = name → 0 ≤ tp_partition tp < parts →
           ∃ p, cs_partitions c' !! tp = Some p ∧ high_watermark p = 0)
      ∧ (∀ tp, (tp_topic tp ≠ name ∨ ¬ 0 ≤ tp_partition tp < parts) →
           cs_partitions c' !! tp = cs_partitions c !! tp)
      ∧ (delete_topic name c').1 = Ok tt
      ∧ cs_partitions (delete_topic name c').2 = cs_partitions c
      ∧ cs_topics (delete_topic name c').2 = cs_topics c
  end.
Proof.
  intros Hok Hb Hr. destruct r as [[]|e|].
  - apply create_topic_Ok in Hr as (_ & Hp & _ & Hh & ->). cbv zeta.
    set (parts := if decide (n = -1) then 1 else n) in *.
    apply has_topic_false in Hh as Hh'. destruct Hh' as [Ht Hnone].
    assert (zlen (seqZ 0 (parts - 0)) = parts) as Hz by (rewrite zlen_seqZ; lia).
    destruct (provision_fold name (seqZ 0 (parts - 0)) c Hok) as (_ & _ & Htop & Hin & Hout & _ & Hnew); [lia|].
    unfold provision. set (c1 := foldl _ c (seqZ 0 (parts - 0))) in *.
    assert (∀ tp, tp_topic tp ≠ name ∨ ¬ 0 ≤ tp_partition tp < parts →
      cs_partitions c1 !! tp = cs_partitions c !! tp) as Hout'.
    { intros tp Htp. apply Hout. destruct Htp as [|Htp]; [by left|]. right. rewrite elem_of_seqZ. lia. }
    split_and!; [done|by cbn; rewrite lookup_insert_eq| |done|..].
    + intros [t i] Htp Hi. cbn in Htp, Hi. subst t. destruct (Hin i) as [p Hp']; [apply elem_of_seqZ; lia|].
      exists p. split; [done|]. by eapply Hnew; [done|apply Hnone].
    + unfold delete_topic. cbn. rewrite lookup_insert_eq. by rewrite bool_decide_true by eauto.
    + unfold delete_topic. destruct (_ && _); cbn; apply map_eq; intros tp.
      all: destruct (decide (tp_topic tp = name)) as [Heq|Hne].
      all: try (rewrite map_lookup_filter_None_2; [by rewrite Hnone|right; intros ? _ Hc; by apply Hc]).
      all: rewrite <- Hout' by (by left); destruct (cs_partitions c1 !! tp) as [p|] eqn:Htp.
      all: try (by apply map_lookup_filter_Some). all: by apply map_lookup_filter_None; left.
    + unfold delete_topic. destruct (_ && _); cbn; rewrite delete_insert_eq, Htop; by apply delete_id.
  - revert Hr. unfold create_topic. repeat case_match; congruence.
  - revert Hr. unfold create_topic. repeat case_match; congruence.
Qed.

(** ** Witnesses *)
Import MemoryWal MemoryStore.

Definition demo_cluster : ClusterState := cluster_new 1 "localhost" 9092 "demo".

Definition demo_cops : list cop :=
  [CCreateTopic "orders" 3 1 ∅; CAppend (mkTP "audit" 0) 5 [Byte.x61]; CDeleteTopic "orders";
   CMetadata (Some ["orders"]) true].

Lemma cluster_streams_disjoint_witness :
  let c := (foldl cop_run (demo_cluster, demo_world) demo_cops).1 in
  (sid <$> cs_partitions c) = {[mkTP "audit" 0 := 103; mkTP "orders" 0 := 104]}
  ∧ (∀ tp p, cs_partitions c !! tp = Some p → topic_partition p = tp ∧ 100 ≤ sid p < cs_next_stream_id c)
  ∧ (∀ tp tp' p p', cs_partitions c !! tp = Some p → cs_partitions c !! tp' = Some p' →
       sid p = sid p' → tp = tp').
Proof.
  split; [vm_compute; reflexivity|].
  apply (cluster_streams_disjoint demo_cops 1 "localhost" 9092 "demo" demo_world). vm_compute. reflexivity.
Defined.

Lemma topic_lifecycle_witness :
  let c' := (create_topic "orders" 2 1 ∅ demo_cluster).2 in
  cs_topics c' !! "orders"%string = Some (mkTopic "orders" 2 1 ∅)
  ∧ (delete_topic "orders" c').1 = Ok tt
  ∧ cs_partitions (delete_topic "orders" c').2 = cs_partitions demo_cluster.
Proof.
  destruct (topic_lifecycle "orders" 2 1 ∅ demo_cluster (Ok tt) (create_topic "orders" 2 1 ∅ demo_cluster).2)
    as (_ & H1 & _ & _ & H2 & H3 & _).
  - apply cluster_new_ok.
  - vm_compute. reflexivity.
  - vm_compute. reflexivity.
  - exact (conj H1 (conj H2 H3)).
Defined.

(** ** What modelling showed *)

(** [reset] restarts the stream ids at 100 while the shared log cache keeps the
    records of the old streams: after it, a new partition of another topic that
    has one record returns a second one, which the deleted partition received. *)
Theorem reset_leaks_deleted_records :
  let '(c, w) := foldl cop_run (demo_cluster, demo_world)
                   [CAppend (mkTP "secret" 0) 1 [Byte.x61]; CAppend (mkTP "secret" 0) 2 [Byte.x62]] in
  let '(c, w) := cop_run (reset c, w) (CAppend (mkTP "public" 0) 3 [Byte.x63]) in
  ((λ p, (high_watermark p, (read_records 0 100 p w).1)) <$> get_partition (mkTP "public" 0) c)
    = Some (1, Ok [(0, [Byte.x63]); (1, [Byte.x62])]).
Proof. vm_compute. reflexivity. Qed.
