(* ===== verification/TopicThreads.v ===== *)
(** * Topic operations by many threads

    The operations on the tables of [crates/oxidemq-broker/src/router.rs] in
    steps, one for each section under a lock: [get_or_create_partition] with its
    two look-ups, [create_topic] and [create_partitions], which check, provision
    and register in separate sections, [delete_topic] (one section) and [reset]
    (three).  [Cluster] has each of them as one step. *)

From Stdlib Require Import Strings.Byte.
From stdpp Require Import base numbers list strings sets gmap.
From S2P Require Import Prelude Bytes CoreTypes KafkaWire Batch MessageTypes Wal S3Format LogCache BlockCache.
From S2P Require Import ObjectStore Stream Partition MsgCodec MsgMeta MsgData MsgGroup MsgTxn MsgAuth MsgAdmin Cluster.

Inductive topic_call :=
| Get (tp : TopicPartition)
| Create (name : string) (num_partitions replication_factor : Z) (configs : gmap string string)
| Expand (name : string) (new_count : Z) (assignments : option (list CreatePartitionsAssignment)) (validate_only : bool)
| Delete (name : string)
| Reset.

(** [Looking todo]: about to look up the first partition of [todo] under the read
    lock; [Missed todo]: it was not there, about to take the write lock. *)
Inductive topic_pc :=
| Called
| Counting
| Looking (todo : list TopicPartition)
| Missed (todo : list TopicPartition)
| Registering
| Cleared (partitions_too : bool)
| Answered (r : kres (option Partition)).

Record caller := mkCaller { ca_call : topic_call; ca_pc : topic_pc }.
Record tables := mkTables { ta_cluster : ClusterState; ta_callers : list caller }.

Definition parts_of (num_partitions : Z) : Z := if decide (num_partitions = -1) then 1 else num_partitions.
Definition rf_of (replication_factor : Z) : Z := if decide (replication_factor = -1) then 1 else replication_factor.
Definition range_of (name : string) (lo hi : Z) : list TopicPartition := mkTP name <$> seqZ lo (hi - lo).

(** After the look-up of a partition. *)
Definition found (call : topic_call) (p : Partition) (todo : list TopicPartition) : topic_pc :=
  match call with Get _ => Answered (Ok (Some p)) | _ => Looking todo end.

(** The validation of [create_topic] and its check for duplicates. *)
Definition create_check (name : string) (n rf : Z) (c : ClusterState) : topic_pc :=
  if negb (topic_name_ok name) then Answered (Err E_InvalidTopicException) else
  if decide (parts_of n ≤ 0 ∨ parts_of n > 10000) then Answered (Err E_InvalidPartitions) else
  if decide (rf_of rf ≤ 0) then Answered (Err E_InvalidReplicationFactor) else
  if has_topic name c then Answered (Err E_TopicAlreadyExists) else
  Looking (range_of name 0 (parts_of n)).

(** The checks of [create_partitions] against the count it read. *)
Definition expand_check (name : string) (new_count : Z) (asg : option (list CreatePartitionsAssignment))
    (validate_only : bool) (c : ClusterState) : topic_pc :=
  let current := current_count name c in
  if decide (new_count ≤ current) then Answered (Err E_InvalidPartitions) else
  if decide (new_count ≤ 0 ∨ new_count > 10000) then Answered (Err E_InvalidPartitions) else
  if (match asg with
      | Some assigns => bool_decide (zlen assigns ≠ u64 (i32 (new_count - current)))
      | None => false end) then Answered (Err E_InvalidRequest) else
  if validate_only then Answered (Ok None) else Looking (range_of name current new_count).

Definition register (call : topic_call) (c : ClusterState) : ClusterState :=
  match call with
  | Create name n rf configs => set_topics (<[name := mkTopic name (parts_of n) (rf_of rf) configs]> (cs_topics c)) c
  | Expand name new_count _ _ =>
      let reg := match cs_topics c !! name with
                 | Some reg => mkTopic (tr_name reg) new_count (tr_replication_factor reg) (tr_configs reg)
                 | None => mkTopic name new_count 1 ∅
                 end in
      set_topics (<[name := reg]> (cs_topics c)) c
  | _ => c
  end.

(** One section of a call: the next point and the tables. *)
Definition section (call : topic_call) (pc : topic_pc) (c : ClusterState) : option (topic_pc * ClusterState) :=
  match pc with
  | Called =>
      match call with
      | Get tp => Some (Looking [tp], c)
      | Create name n rf _ => Some (create_check name n rf c, c)
      | Expand name _ _ _ =>
          Some (if has_topic name c then Counting else Answered (Err E_UnknownTopicOrPartition), c)
      | Delete name => let '(r, c) := delete_topic name c in
          Some (Answered (match r with Ok _ => Ok None | Err e => Err e | Panic => Panic end), c)
      | Reset => Some (Cleared false, set_topics ∅ c)
      end
  | Counting =>
      match call with
      | Expand name new_count asg validate_only => Some (expand_check name new_count asg validate_only c, c)
      | _ => None
      end
  | Looking [] => Some (Registering, c)
  | Looking (tp :: todo) =>
      Some (match cs_partitions c !! tp with Some p => found call p todo | None => Missed (tp :: todo) end, c)
  | Missed [] => None
  | Missed (tp :: todo) => let '(p, c) := get_or_create_partition tp c in Some (found call p todo, c)
  | Registering => Some (Answered (Ok None), register call c)
  | Cleared false => Some (Cleared true, set_partitions ∅ c)
  | Cleared true => Some (Answered (Ok None), set_next_stream_id 100 c)
  | Answered _ => None
  end.

Definition topic_step (i : nat) (s : tables) : option tables :=
  th ← ta_callers s !! i;
  '(pc, c) ← section (ca_call th) (ca_pc th) (ta_cluster s);
  Some (mkTables c (alter (λ th, mkCaller (ca_call th) pc) i (ta_callers s))).

Fixpoint topic_run (schedule : list nat) (s : tables) : option tables :=
  match schedule with
  | [] => Some s
  | i :: schedule => s ← topic_step i s; topic_run schedule s
  end.

Definition topic_init (c : ClusterState) (calls : list topic_call) : tables :=
  mkTables c ((λ k, mkCaller k Called) <$> calls).

(** ** A caller that is alone *)

(** The only caller goes from [pc] and [c] to [pc'] and [c']. *)
Definition alone (call : topic_call) (pc : topic_pc) (c : ClusterState) (pc' : topic_pc) (c' : ClusterState) : Prop :=
  ∃ n, topic_run (replicate n 0%nat) (mkTables c [mkCaller call pc]) = Some (mkTables c' [mkCaller call pc']).

Lemma alone_refl call pc c : alone call pc c pc c.
Proof. by exists 0%nat. Qed.

Lemma alone_step call pc c pc1 c1 pc' c' : section call pc c = Some (pc1, c1) →
  alone call pc1 c1 pc' c' → alone call pc c pc' c'.
Proof. intros Hs [n Hn]. exists (S n). cbn [replicate topic_run]. unfold topic_step. cbn. rewrite Hs. exact Hn. Qed.

Lemma section_missed call tp todo c :
  section call (Missed (tp :: todo)) c
    = Some (found call (get_or_create_partition tp c).1 todo, (get_or_create_partition tp c).2).
Proof. cbn. by destruct (get_or_create_partition tp c). Qed.

Lemma alone_provision call todo c : match call with Get _ => False | _ => True end → ∀ pc' c',
  alone call (Looking []) (foldl (λ c tp, (get_or_create_partition tp c).2) c todo) pc' c' →
  alone call (Looking todo) c pc' c'.
Proof.
  intros Hc pc' c'. revert c. induction todo as [|tp todo IH]; intros c Hl; [done|]. cbn [foldl] in Hl.
  assert (∀ p, found call p todo = Looking todo) as Hf by (by destruct call).
  eapply alone_step; [reflexivity|]. destruct (cs_partitions c !! tp) as [p|] eqn:Hp.
  - rewrite Hf. apply IH. unfold get_or_create_partition in Hl. by rewrite Hp in Hl.
  - eapply alone_step; [apply section_missed|]. rewrite Hf. by apply IH.
Qed.

Lemma provision_range name lo hi c :
  foldl (λ c tp, (get_or_create_partition tp c).2) c (range_of name lo hi) = provision name lo hi c.
Proof.
  unfold range_of, provision. revert c. induction (seqZ lo (hi - lo)) as [|k l IH]; intros c; [done|]. cbn. apply IH.
Qed.

(** What is answered, as a point. *)
Definition answer (r : kres unit) : topic_pc :=
  Answered (match r with Ok _ => Ok None | Err e => Err e | Panic => Panic end).

(** Alone, the sections of a call amount to the operation of [Cluster]. *)
Theorem topic_calls_alone c :
  (∀ tp, alone (Get tp) Called c (Answered (Ok (Some (get_or_create_partition tp c).1))) (get_or_create_partition tp c).2)
  ∧ (∀ name n rf cfg, let x := create_topic name n rf cfg c in alone (Create name n rf cfg) Called c (answer x.1) x.2)
  ∧ (∀ name n asg v, let x := create_partitions name n asg v c in alone (Expand name n asg v) Called c (answer x.1) x.2)
  ∧ (∀ name, let x := delete_topic name c in alone (Delete name) Called c (answer x.1) x.2)
  ∧ alone Reset Called c (answer (Ok tt)) (reset c).
Proof.
  split_and!.
  - intros tp. eapply alone_step; [reflexivity|]. eapply alone_step; [reflexivity|].
    destruct (cs_partitions c !! tp) as [p|] eqn:Hp.
    + unfold get_or_create_partition. rewrite Hp. apply alone_refl.
    + eapply alone_step; [apply section_missed|]. apply alone_refl.
  - intros name n rf cfg. eapply alone_step; [reflexivity|]. unfold create_topic, create_check. fold (parts_of n) (rf_of rf).
    destruct (negb _); [apply alone_refl|]. destruct (decide (parts_of n ≤ 0 ∨ _)); [apply alone_refl|].
    destruct (decide (rf_of rf ≤ 0)); [apply alone_refl|]. destruct (has_topic name c); [apply alone_refl|].
    apply alone_provision; [done|]. rewrite provision_range. do 2 (eapply alone_step; [reflexivity|]). apply alone_refl.
  - intros name n asg v. eapply alone_step; [reflexivity|]. unfold create_partitions.
    destruct (has_topic name c); [|apply alone_refl]. eapply alone_step; [reflexivity|]. unfold expand_check. cbn [negb].
    destruct (decide (n ≤ current_count name c)); [apply alone_refl|]. destruct (decide (n ≤ 0 ∨ _)); [apply alone_refl|].
    destruct (match asg with Some _ => _ | None => _ end); [apply alone_refl|]. destruct v; [apply alone_refl|].
    apply alone_provision; [done|]. rewrite provision_range. do 2 (eapply alone_step; [reflexivity|]). apply alone_refl.
  - intros name. cbv zeta. destruct (delete_topic name c) as [r c'] eqn:E. eapply alone_step; [cbn [section]; by rewrite E|].
    apply alone_refl.
  - do 3 (eapply alone_step; [reflexivity|]). apply alone_refl.
Qed.

(** ** What every interleaving keeps *)
Definition wanted (call : topic_call) : list TopicPartition :=
  match call with Get tp => [tp] | Create name n _ _ => range_of name 0 (parts_of n) | _ => [] end.

(** The arguments passed validation. *)
Definition valid (call : topic_call) : Prop :=
  match call with Create _ n _ _ => 0 < parts_of n | Expand _ n _ _ => 0 < n | Reset => False | _ => True end.
Definition validated (th : caller) : Prop :=
  match ca_pc th with Looking _ | Missed _ | Registering => valid (ca_call th) | Cleared _ => False | _ => True end.

(** Nothing of what a call wanted is missing, as far as it has come. *)
Definition served (c : ClusterState) (th : caller) : Prop :=
  let there todo := ∀ tp, tp ∈ wanted (ca_call th) → tp ∈ todo ∨ is_Some (cs_partitions c !! tp) in
  match ca_pc th with
  | Looking todo | Missed todo => there todo ∧ match ca_call th with Get tp => todo = [tp] | _ => True end
  | Registering => there [] ∧ match ca_call th with Get _ => False | _ => True end
  | Answered (Ok got) => there []
      ∧ match ca_call th with
        | Get tp => ∃ p, got = Some p ∧ cs_partitions c !! tp = Some p
        | Create name _ _ _ => is_Some (cs_topics c !! name)
        | _ => True
        end
  | Cleared _ => False
  | _ => True
  end.

(** The tables only grow. *)
Definition grows (c c' : ClusterState) : Prop :=
  cs_partitions c ⊆ cs_partitions c' ∧ ∀ name, is_Some (cs_topics c !! name) → is_Some (cs_topics c' !! name).

Definition keeps (call : topic_call) : Prop := match call with Delete _ | Reset => False | _ => True end.
#[local] Instance keeps_dec call : Decision (keeps call).
Proof. destruct call; apply _. Defined.

Lemma grows_refl c : grows c c.
Proof. by split. Qed.

Lemma get_or_create_grows tp c : grows c (get_or_create_partition tp c).2.
Proof.
  split; [|intros name; by rewrite (proj1 (get_or_create_frame tp c))].
  apply map_subseteq_spec. intros tp' p Hp. destruct (decide (tp' = tp)) as [->|Hne].
  - unfold get_or_create_partition. by rewrite Hp.
  - by rewrite get_or_create_other.
Qed.

Lemma register_grows call c : grows c (register call c).
Proof.
  destruct call as [|name n rf cfg|name n asg v| |]; [by split| | |by split..]; (split; [done|]); cbn; intros name';
    (destruct (decide (name' = name)) as [->|]; [by rewrite lookup_insert_eq|by rewrite lookup_insert_ne]).
Qed.

Lemma register_ok call c : valid call → cluster_ok c → cluster_ok (register call c).
Proof.
  intros Hv Hc. destruct call as [|name n rf cfg|name n asg v| |]; cbn in *; [done| | |done..]; apply set_topics_ok; [done..|].
  by case_match.
Qed.

Lemma served_grows c c' th : grows c c' → served c th → served c' th.
Proof.
  intros [Hp Ht]. assert (∀ tp, is_Some (cs_partitions c !! tp) → is_Some (cs_partitions c' !! tp)) as Hs.
  { intros tp [p Hq]. exists p. by eapply lookup_weaken. }
  unfold served. destruct (ca_pc th) as [| | | | | |[got| |]]; try done; [naive_solver..|].
  intros [Hw Hc]. split; [naive_solver|]. destruct (ca_call th); try done; [|auto].
  destruct Hc as (p & -> & Hq). exists p. split; [done|]. by eapply lookup_weaken.
Qed.

Lemma section_ok call pc c pc' c' : cluster_ok c → validated (mkCaller call pc) → call ≠ Reset →
  cs_next_stream_id c + 1 < 2 ^ 64 → section call pc c = Some (pc', c') →
  cluster_ok c' ∧ validated (mkCaller call pc') ∧ cs_next_stream_id c' ≤ cs_next_stream_id c + 1.
Proof.
  intros Hc Hv Hr Hn. unfold validated in *. cbn [ca_pc ca_call] in *.
  destruct pc as [| |[|tp todo]|[|tp todo]| |[]|r]; cbn [section]; try done.
  - destruct call as [tp|name n rf cfg|name n asg v|name|]; try done.
    + intros [= <- <-]. cbn. split_and!; [done|done|lia].
    + intros [= <- <-]. unfold create_check. repeat case_match; cbn; (split_and!; [done| |lia]); done || lia.
    + intros [= <- <-]. destruct (has_topic name c); (split_and!; [done|done|lia]).
    + pose proof (delete_topic_ok name c Hc) as Hd. assert (cs_next_stream_id (delete_topic name c).2 = cs_next_stream_id c) as He
        by (unfold delete_topic; by destruct (_ && _)).
      destruct (delete_topic name c) as [r c1]. intros [= <- <-]. cbn in *. split_and!; [done|by destruct r|lia].
  - destruct call; try done. intros [= <- <-]. unfold expand_check.
    repeat case_match; cbn; (split_and!; [done| |lia]); done || lia.
  - intros [= <- <-]. split_and!; [done|done|lia].
  - intros [= <- <-]. split_and!; [done| |lia]. destruct (cs_partitions c !! tp); [by destruct call|done].
  - destruct (get_or_create_ok tp c Hc Hn) as (Hc' & Hn' & _). destruct (get_or_create_partition tp c) as [p c1].
    intros [= <- <-]. cbn in *. split_and!; [done|by destruct call|lia].
  - intros [= <- <-]. split_and!; [by apply register_ok|done|]. destruct call; cbn; lia.
Qed.

Lemma served_found call tp todo c p : served c (mkCaller call (Looking (tp :: todo))) → cs_partitions c !! tp = Some p →
  served c (mkCaller call (found call p todo)).
Proof.
  intros [Hw Hg] Hp. destruct call as [tp'|name n rf cfg| | |]; cbn in *.
  - injection Hg as -> ->. split; [|by eauto]. intros q ->%list_elem_of_singleton. right. by eexists.
  - split; [|done]. intros tp' Hin. destruct (Hw tp' Hin) as [[->|?]%elem_of_cons|?]; [right; by eexists|auto..].
  - split; [set_solver|done].
  - split; [set_solver|done].
  - split; [set_solver|done].
Qed.

Lemma section_served call pc c pc' c' : served c (mkCaller call pc) → keeps call → section call pc c = Some (pc', c') →
  grows c c' ∧ served c' (mkCaller call pc').
Proof.
  intros Hs Hk. destruct pc as [| |[|tp todo]|[|tp todo]| |[]|r]; cbn [section]; try done.
  - destruct call as [tp|name n rf cfg|name n asg v|name|]; try done; intros [= <- <-]; (split; [apply grows_refl|]).
    + cbn. set_solver.
    + unfold create_check. repeat case_match; cbn; set_solver.
    + by destruct (has_topic name c).
  - destruct call; try done. intros [= <- <-]. split; [apply grows_refl|]. unfold expand_check.
    repeat case_match; cbn; set_solver.
  - intros [= <- <-]. split; [apply grows_refl|]. destruct Hs as [Hw Hg]. split; [done|]. by destruct call.
  - intros [= <- <-]. split; [apply grows_refl|]. destruct (cs_partitions c !! tp) as [p|] eqn:Hp; [|exact Hs].
    by eapply served_found.
  - pose proof (get_or_create_grows tp c) as Hgr.
    assert (cs_partitions (get_or_create_partition tp c).2 !! tp = Some (get_or_create_partition tp c).1) as Hp.
    { unfold get_or_create_partition. destruct (cs_partitions c !! tp) eqn:E; [done|]. cbn. by rewrite lookup_insert_eq. }
    destruct (get_or_create_partition tp c) as [p c1]. intros [= <- <-]. cbn in *. split; [done|].
    apply (served_found call tp todo c1 p); [|done]. by apply (served_grows c c1 (mkCaller call (Looking (tp :: todo)))).
  - intros [= <- <-]. split; [apply register_grows|]. destruct Hs as [Hw Hg].
    split; [intros tp Hin; destruct (Hw tp Hin) as [?|H]; [set_solver|right]|].
    + destruct (register_grows call c) as [Hp _]. destruct H as [p H]. exists p. by eapply lookup_weaken.
    + destruct call; cbn in *; try done. by rewrite lookup_insert_eq.
Qed.

Lemma topic_step_inv i s s' : topic_step i s = Some s' → ∃ th pc, ta_callers s !! i = Some th
  ∧ section (ca_call th) (ca_pc th) (ta_cluster s) = Some (pc, ta_cluster s')
  ∧ ta_callers s' = alter (λ th, mkCaller (ca_call th) pc) i (ta_callers s).
Proof.
  unfold topic_step. destruct (ta_callers s !! i) as [th|]; [|done]. cbn [mbind option_bind].
  destruct (section _ _ _) as [[pc c]|] eqn:E; [|done]. cbn [mbind option_bind]. intros [= <-]. eauto.
Qed.


(** The tables are well-formed, whatever the others do. *)
Lemma topic_run_ok schedule s s' : cluster_ok (ta_cluster s) → Forall validated (ta_callers s) →
  Forall (λ th, ca_call th ≠ Reset) (ta_callers s) →
  cs_next_stream_id (ta_cluster s) + zlen schedule < 2 ^ 64 → topic_run schedule s = Some s' → cluster_ok (ta_cluster s').
Proof.
  revert s. induction schedule as [|i schedule IH]; intros s Hc Hv Hr Hn Hrun; cbn [topic_run] in Hrun; [by injection Hrun as <-|].
  rewrite zlen_cons in Hn. pose proof (zlen_nonneg schedule).
  destruct (topic_step i s) as [s1|] eqn:E; [|done]. cbn [mbind option_bind] in Hrun.
  apply topic_step_inv in E as (th & pc & Hi & Hsec & Hths).
  pose proof (Forall_lookup_1 _ _ _ _ Hv Hi) as Hv1. pose proof (Forall_lookup_1 _ _ _ _ Hr Hi) as Hr1.
  destruct (section_ok (ca_call th) (ca_pc th) (ta_cluster s) pc (ta_cluster s1)) as (Hc1 & Hv' & Hn'); [done|by destruct th|done|lia|done|].
  apply (IH s1); [done| | |lia|done]; rewrite Hths; apply Forall_lookup; intros k t; rewrite (lookup_alter_cases _ _ _ th) by done.
  - intros [[-> ->]|[_ Hk]]; [done|]. by apply (Forall_lookup_1 _ _ _ _ Hv Hk).
  - intros [[-> ->]|[_ Hk]]; [done|]. by apply (Forall_lookup_1 _ _ _ _ Hr Hk).
Qed.

(** As long as nothing is deleted, what a call was told stays true. *)
Lemma topic_run_served schedule s s' : Forall (served (ta_cluster s)) (ta_callers s) →
  Forall (λ th, keeps (ca_call th)) (ta_callers s) → topic_run schedule s = Some s' →
  Forall (served (ta_cluster s')) (ta_callers s').
Proof.
  revert s. induction schedule as [|i schedule IH]; intros s Hs Hk Hrun; cbn [topic_run] in Hrun; [by injection Hrun as <-|].
  destruct (topic_step i s) as [s1|] eqn:E; [|done]. cbn [mbind option_bind] in Hrun.
  apply topic_step_inv in E as (th & pc & Hi & Hsec & Hths).
  pose proof (Forall_lookup_1 _ _ _ _ Hs Hi) as Hs1. pose proof (Forall_lookup_1 _ _ _ _ Hk Hi) as Hk1.
  destruct (section_served (ca_call th) (ca_pc th) (ta_cluster s) pc (ta_cluster s1)) as [Hg Hs']; [by destruct th|done|done|].
  apply (IH s1); [| |done]; rewrite Hths; apply Forall_lookup; intros k t; rewrite (lookup_alter_cases _ _ _ th) by done.
  - intros [[-> ->]|[_ Ht]]; [done|]. eapply served_grows; [done|]. by apply (Forall_lookup_1 _ _ _ _ Hs Ht).
  - intros [[-> ->]|[_ Ht]]; [done|]. by apply (Forall_lookup_1 _ _ _ _ Hk Ht).
Qed.

Lemma init_Forall (P : caller → Prop) c calls : (∀ call, call ∈ calls → P (mkCaller call Called)) →
  Forall P (ta_callers (topic_init c calls)).
Proof. intros HP. cbn. apply Forall_fmap, Forall_forall. exact HP. Qed.

Lemma run_calls schedule s s' : topic_run schedule s = Some s' → ca_call <$> ta_callers s' = ca_call <$> ta_callers s.
Proof.
  revert s. induction schedule as [|i schedule IH]; intros s Hrun; cbn [topic_run] in Hrun; [by injection Hrun as <-|].
  destruct (topic_step i s) as [s1|] eqn:E; [|done]. cbn [mbind option_bind] in Hrun.
  apply topic_step_inv in E as (th & pc & Hi & Hsec & Hths). rewrite (IH s1 Hrun), Hths. by apply fmap_alter_same.
Qed.

(** C32: Topic operations interleave safely.  Let threads look up, auto-create,
    create, expand and delete partitions and topics of a new broker, the sections
    that they execute under the locks interleaved in any way.  At every point no
    two partitions of the table share a stream; and when nothing is deleted, all
    callers that asked for a partition got the same one, which is the one in the
    table, and every topic whose creation was confirmed is registered and has all
    its partitions. *)
Theorem topic_threads_agree schedule calls node host port id s :
  Reset ∉ calls → 100 + zlen schedule < 2 ^ 64 →
  topic_run schedule (topic_init (cluster_new node host port id) calls) = Some s →
  (∀ tp tp' p p', cs_partitions (ta_cluster s) !! tp = Some p → cs_partitions (ta_cluster s) !! tp' = Some p' →
     sid p = sid p' → tp = tp')
  ∧ (Forall keeps calls →
     (∀ i tp got, ta_callers s !! i = Some (mkCaller (Get tp) (Answered (Ok got))) → got = cs_partitions (ta_cluster s) !! tp ∧ is_Some got)
     ∧ ∀ i name n rf cfg got, ta_callers s !! i = Some (mkCaller (Create name n rf cfg) (Answered (Ok got))) →
         is_Some (cs_topics (ta_cluster s) !! name)
         ∧ ∀ k, 0 ≤ k < parts_of n → is_Some (cs_partitions (ta_cluster s) !! mkTP name k)).
Proof.
  intros Hres Hn Hrun. split.
  - apply (ck_inj (ta_cluster s)). eapply topic_run_ok; [| | | |exact Hrun]; [apply cluster_new_ok| | |done]; apply init_Forall.
    + done.
    + intros call Hin Hc. cbn in Hc. by subst.
  - intros Hkeeps. rewrite Forall_forall in Hkeeps.
    assert (Forall (served (ta_cluster s)) (ta_callers s)) as Hs.
    { eapply topic_run_served; [| |exact Hrun]; apply init_Forall; [done|]. intros call Hin. by apply Hkeeps. }
    split.
    + intros i tp got Hi. apply (Forall_lookup_1 _ _ _ _ Hs) in Hi as [_ (p & -> & Hp)]. by rewrite Hp.
    + intros i name n rf cfg got Hi. apply (Forall_lookup_1 _ _ _ _ Hs) in Hi as [Hw Hr]. split; [done|].
      intros k Hk. destruct (Hw (mkTP name k)) as [H|H]; [|set_solver|done]. cbn. unfold range_of.
      apply list_elem_of_fmap. exists k. split; [done|]. apply elem_of_seqZ. lia.
Qed.

(** ** Concrete schedules *)
Definition race_calls : list topic_call :=
  [Get (mkTP "a" 0); Get (mkTP "a" 0); Create "t" 2 1 ∅; Expand "a" 2 None false].
(** Both look-ups of [a] miss before either creates it. *)
Definition race_schedule : list nat := [0; 1; 2; 0; 1; 0; 2; 1; 2; 2; 2; 2; 2; 3; 3; 3; 3; 3; 3]%nat.
Definition race_cluster : ClusterState := cluster_new 1 "localhost" 9092 "demo".
Definition race_end : tables :=
  default (topic_init race_cluster []) (topic_run race_schedule (topic_init race_cluster race_calls)).

Example race_results :
  (λ th, match ca_pc th with Answered (Ok (Some p)) => Some (sid p) | Answered (Ok None) => Some 0 | _ => None end)
    <$> ta_callers race_end = [Some 100; Some 100; Some 0; Some 0].
Proof. vm_compute. done. Qed.

Lemma topic_threads_agree_witness :
  (∀ tp tp' p p', cs_partitions (ta_cluster race_end) !! tp = Some p →
     cs_partitions (ta_cluster race_end) !! tp' = Some p' → sid p = sid p' → tp = tp')
  ∧ (Forall keeps race_calls →
     (∀ i tp got, ta_callers race_end !! i = Some (mkCaller (Get tp) (Answered (Ok got))) →
        got = cs_partitions (ta_cluster race_end) !! tp ∧ is_Some got)
     ∧ ∀ i name n rf cfg got, ta_callers race_end !! i = Some (mkCaller (Create name n rf cfg) (Answered (Ok got))) →
         is_Some (cs_topics (ta_cluster race_end) !! name)
         ∧ ∀ k, 0 ≤ k < parts_of n → is_Some (cs_partitions (ta_cluster race_end) !! mkTP name k)).
Proof.
  apply (topic_threads_agree race_schedule race_calls 1 "localhost" 9092 "demo" race_end).
  - unfold race_calls. set_solver.
  - vm_compute. reflexivity.
  - vm_compute. reflexivity.
Defined.

(** ** What modelling showed *)

(** The check for duplicates and the registration are not one section: two
    creations of the same topic are both confirmed; the registration is that of
    the later one, with fewer partitions than the table has. *)
Theorem concurrent_creations_both_succeed :
  let s := topic_run [0; 1; 0; 0; 0; 0; 0; 0; 0; 0; 1; 1; 1]%nat
             (topic_init race_cluster [Create "t" 3 1 ∅; Create "t" 1 1 ∅]) in
  option_map (λ s, ca_pc <$> ta_callers s) s = Some [Answered (Ok None); Answered (Ok None)]
  ∧ option_map (λ s, tr_num_partitions <$> (cs_topics (ta_cluster s) !! "t"%string)) s = Some (Some 1)
  ∧ option_map (λ s, size (topic_partitions "t" (ta_cluster s))) s = Some 3%nat
  ∧ (create_topic "t" 1 1 ∅ (create_topic "t" 3 1 ∅ race_cluster).2).1 = Err E_TopicAlreadyExists.
Proof. vm_compute. done. Qed.

(** [reset] clears the partitions before it sets the stream counter back: a
    partition created in between keeps its stream id, which is given out again. *)
Theorem reset_race_shares_stream :
  let s := topic_run [0; 0; 0; 1; 1; 2; 2; 2; 1; 3; 3; 3; 4; 4; 4]%nat
             (topic_init race_cluster [Get (mkTP "a" 0); Reset; Get (mkTP "b" 0); Get (mkTP "c" 0); Get (mkTP "d" 0)]) in
  option_map (λ s, sid <$> cs_partitions (ta_cluster s)) s
    = Some {[mkTP "b" 0 := 101; mkTP "c" 0 := 100; mkTP "d" 0 := 101]}.
Proof. vm_compute. reflexivity. Qed.
