(* ===== verification/Txn.v ===== *)
(** * The transaction coordinator

    [crates/oxidemq-broker/src/transaction.rs]: producer ids and epochs, the
    partitions a transaction has registered, and the commit or abort markers
    that end it.  The coordinator's write lock makes each request one step; its
    clock readings are the argument [now]. *)

From stdpp Require Import base numbers list strings sets gmap sorting.
From S2P Require Import Prelude Bytes CoreTypes S3Format KafkaWire Batch.
From S2P Require Import WalFrame Wal LogCache BlockCache ObjectStore Stream Partition MessageTypes Cluster.

Inductive TransactionState :=
  TxEmpty | TxOngoing | TxPrepareCommit | TxPrepareAbort | TxCompleteCommit | TxCompleteAbort | TxDead.

#[export] Instance TransactionState_eq_dec : EqDecision TransactionState.
Proof. solve_decision. Defined.

(** The registered partitions are a [HashSet]: a map to [unit], iterated in
    hash order. *)
Record TransactionMetadata := mkTxn {
  tx_id : string;
  tx_producer_id : Z;
  tx_producer_epoch : Z;
  tx_timeout_ms : Z;
  tx_state : TransactionState;
  tx_partitions : gmap TopicPartition unit;
  tx_last_update : Z }.

Record TransactionCoordinator := mkCoord {
  transactions : gmap string TransactionMetadata;
  next_producer_id : Z }.

Definition coord_new : TransactionCoordinator := mkCoord ∅ 1000.

Definition put_txn (id : string) (m : TransactionMetadata) (t : TransactionCoordinator) : TransactionCoordinator :=
  mkCoord (<[id := m]> (transactions t)) (next_producer_id t).
Definition set_next_pid (n : Z) (t : TransactionCoordinator) : TransactionCoordinator :=
  mkCoord (transactions t) n.

Definition set_tx (st : TransactionState) (parts : gmap TopicPartition unit) (now : Z)
    (m : TransactionMetadata) : TransactionMetadata :=
  mkTxn (tx_id m) (tx_producer_id m) (tx_producer_epoch m) (tx_timeout_ms m) st parts now.
Definition bump_epoch (m : TransactionMetadata) : TransactionMetadata :=
  mkTxn (tx_id m) (tx_producer_id m) (i16 (tx_producer_epoch m + 1)) (tx_timeout_ms m)
        (tx_state m) (tx_partitions m) (tx_last_update m).

Definition init_producer_id (transactional_id : option string) (timeout_ms now : Z)
    (t : TransactionCoordinator) : kres (Z * Z) * TransactionCoordinator :=
  match transactional_id with
  | None =>
      let pid := next_producer_id t in
      (Ok (pid, 0), set_next_pid (i64 (pid + 1)) t)
  | Some id =>
      match transactions t !! id with
      | Some meta =>
          let meta := set_tx TxEmpty ∅ now (bump_epoch meta) in
          (Ok (tx_producer_id meta, tx_producer_epoch meta), put_txn id meta t)
      | None =>
          let pid := next_producer_id t in
          let t := set_next_pid (i64 (pid + 1)) t in
          let timeout := if decide (timeout_ms ≤ 0) then 60000 else timeout_ms in
          (Ok (pid, 0), put_txn id (mkTxn id pid 0 timeout TxEmpty ∅ now) t)
      end
  end.

(** The checks every transactional request starts with. *)
Definition check_producer (id : string) (pid epoch : Z) (t : TransactionCoordinator)
    : kres TransactionMetadata :=
  match transactions t !! id with
  | None => Err E_InvalidProducerIdMapping
  | Some meta =>
      if decide (tx_producer_id meta ≠ pid) then Err E_InvalidProducerIdMapping else
      if decide (epoch < tx_producer_epoch meta) then Err E_ProducerFenced else
      if decide (epoch > tx_producer_epoch meta) then Err E_InvalidProducerEpoch else
      Ok meta
  end.

Definition add_partitions_to_txn (id : string) (pid epoch : Z) (partitions : list TopicPartition) (now : Z)
    (t : TransactionCoordinator) : kres unit * TransactionCoordinator :=
  match check_producer id pid epoch t with
  | Err e => (Err e, t)
  | Panic => (Panic, t)
  | Ok meta =>
      let parts := foldl (λ s tp, <[tp := tt]> s) (tx_partitions meta) partitions in
      (Ok tt, put_txn id (set_tx TxOngoing parts now meta) t)
  end.

Definition add_offsets_to_txn (id : string) (pid epoch : Z) (group_id : string)
    (t : TransactionCoordinator) : kres unit :=
  match check_producer id pid epoch t with
  | Err e => Err e
  | Panic => Panic
  | Ok _ => Ok tt
  end.

Section ops.
Context `{HO : HashOrder} {W St : Type} `{!WalEngine W, !ObjectStorage St}.
Abbreviation world := (World W St).

(** The marker of one partition: a control batch, then the partition's own
    bookkeeping. *)
Definition write_marker (now pid epoch : Z) (committed : bool) (tp : TopicPartition)
    (c : ClusterState) (w : world) : kres unit * ClusterState * world :=
  let '(partition, c) := get_or_create_partition tp c in
  match encode_control_batch now 0 pid epoch committed with
  | Ok ctrl_batch =>
      match append_records now ctrl_batch partition w with
      | (Ok (base_offset, _), partition, w) =>
          let partition := if committed then complete_txn pid partition
                           else record_aborted_txn pid base_offset partition in
          (Ok tt, put_partition tp partition c, w)
      | (Err _, partition, w) => (Err E_UnknownServer, put_partition tp partition c, w)
      | (Panic, partition, w) => (Panic, put_partition tp partition c, w)
      end
  | _ => (Panic, c, w)
  end.

Fixpoint write_markers (now pid epoch : Z) (committed : bool) (tps : list TopicPartition)
    (c : ClusterState) (w : world) : kres unit * ClusterState * world :=
  match tps with
  | [] => (Ok tt, c, w)
  | tp :: tps' =>
      match write_marker now pid epoch committed tp c w with
      | (Ok _, c, w) => write_markers now pid epoch committed tps' c w
      | (r, c, w) => (r, c, w)
      end
  end.

Definition end_txn (id : string) (pid epoch : Z) (committed : bool) (now : Z)
    (t : TransactionCoordinator) (c : ClusterState) (w : world)
    : kres unit * TransactionCoordinator * ClusterState * world :=
  match check_producer id pid epoch t with
  | Err e => (Err e, t, c, w)
  | Panic => (Panic, t, c, w)
  | Ok meta =>
      let partitions := (hash_iter (tx_partitions meta)).*1 in
      let meta := set_tx (if committed then TxPrepareCommit else TxPrepareAbort) ∅ now meta in
      let t := put_txn id meta t in
      match write_markers now pid epoch committed partitions c w with
      | (Ok _, c, w) => (Ok tt, put_txn id (set_tx TxEmpty ∅ now meta) t, c, w)
      | (r, c, w) => (r, t, c, w)
      end
  end.
End ops.

(** ** Lemmas: control batches *)
Definition ctrl_payload (committed : bool) : bytes :=
  let rec_body := put_8 0 ++ write_varint 0 ++ write_varint 0 ++ write_varint 4 ++ put_16 0
                    ++ put_16 (if committed then 1 else 0) ++ write_varint 2 ++ put_16 0 ++ write_varint 0 in
  write_varint (zlen rec_body) ++ rec_body.

Definition ctrl_image (now pid epoch : Z) (committed : bool) : image :=
  mkImage (put_64 0) (put_32 0) 0x0030
    (put_32 0 ++ put_64 now ++ put_64 now ++ put_64 pid ++ put_16 epoch ++ put_32 (-1) ++ put_32 1)
    (ctrl_payload committed).

Lemma ctrl_image_wf now pid epoch b : image_wf (ctrl_image now pid epoch b).
Proof.
  unfold image_wf, ctrl_image. cbn [im_base im_epoch im_attrs im_rest im_payload].
  rewrite !zlen_app, !zlen_to_be. split_and!; try done.
Qed.

Lemma encode_control_eq now pid epoch b :
  encode_control_batch now 0 pid epoch b = Ok (im_bytes (ctrl_image now pid epoch b)).
Proof.
  rewrite <- (seal_image _ (ctrl_image_wf now pid epoch b)). unfold encode_control_batch. f_equal.
Qed.

(** Control batches never open a transaction. *)
Lemma txn_producer_control im : image_wf im → im_attrs im = 0x0030 → txn_producer (im_bytes im) = Ok None.
Proof.
  intros Hwf Ha. pose proof (zlen_im_bytes im Hwf) as Hl. pose proof (zlen_nonneg (im_payload im)).
  pose proof (batch_attributes_at im Hwf [] [] (im_bytes im) ltac:(by rewrite app_nil_r)) as Hat.
  unfold batch_attributes in Hat. change (zlen []) with 0 in Hat. rewrite !Z.add_0_l in Hat.
  pose proof (batch_magic_at im Hwf [] [] (im_bytes im) ltac:(by rewrite app_nil_r)) as Hm.
  change (zlen []) with 0 in Hm. rewrite Z.add_0_l in Hm.
  unfold txn_producer. rewrite decide_True by lia. rewrite Hm. cbn [mbind res_bind].
  rewrite decide_True by done. destruct (slice (im_bytes im) 21 23) as [a2| |]; [|done..].
  cbn [mbind res_bind] in Hat |- *. injection Hat as Hat. rewrite Hat, Ha.
  unfold slice. rewrite decide_True by lia. cbn [mbind res_bind]. by rewrite decide_False by (intros (_ & Hc & _); vm_compute in Hc; discriminate Hc).
Qed.

(** A transaction marker, field by field as the record format lays it out: base
    offset, attributes (transactional and control), producer id and epoch, one
    record, and in the key of this record the version and the type of the
    marker, 1 for a commit and 0 for an abort. *)
Definition marker_of (pid epoch : Z) (committed : bool) (off : Z) (b : bytes) : Prop :=
  let field from len := take len (drop from b) in
  field 0%nat 8%nat = put_64 off
  ∧ field 21%nat 2%nat = [Byte.x00; Byte.x30]
  ∧ field 43%nat 8%nat = put_64 pid
  ∧ field 51%nat 2%nat = put_16 epoch
  ∧ field 57%nat 4%nat = [Byte.x00; Byte.x00; Byte.x00; Byte.x01]
  ∧ field 66%nat 4%nat = [Byte.x00; Byte.x00; Byte.x00; if committed then Byte.x01 else Byte.x00].

(** Dropping the fields before the one looked for. *)
Ltac skip_fields :=
  repeat (rewrite drop_app_ge by (rewrite ?length_to_be; lia); rewrite ?length_to_be; cbn [Nat.sub]).

Lemma ctrl_image_marker now pid epoch b off : marker_of pid epoch b off (im_bytes (rebase off (ctrl_image now pid epoch b))).
Proof.
  unfold marker_of, im_bytes, rebase, ctrl_image, im_crc_data. cbv zeta. cbn [im_base im_epoch im_attrs im_rest im_payload].
  rewrite <- !app_assoc. split_and!; skip_fields; rewrite ?drop_0.
  1-5: rewrite take_app_le by (rewrite ?length_to_be; lia); by rewrite ?firstn_all2 by (by rewrite length_to_be).
  by destruct b; vm_compute.
Qed.

Section lemmas.
Context `{HO : HashOrder} {W St : Type} `{!WalEngine W, !ObjectStorage St}.
Abbreviation world := (World W St).
Implicit Types w : world.

Lemma append_control now pid epoch b p w o t p' w' :
  append_records now (im_bytes (ctrl_image now pid epoch b)) p w = (Ok (o, t), p', w') →
  0 ≤ high_watermark p < i64_max - 1 →
  o = high_watermark p ∧ high_watermark p' = high_watermark p + 1
  ∧ ongoing_txns p' = ongoing_txns p ∧ aborted_txns p' = aborted_txns p
  ∧ s_stream_id (stream p') = s_stream_id (stream p)
  ∧ ∃ n d, wal_append (s_stream_id (stream p)) o d (wal w) = (Ok n, wal w') ∧ marker_of pid epoch b o d.
Proof.
  intros Ha Hw. apply append_records_inv in Ha as (patched & count & q & s' & Hp & Hq & -> & -> & Hap & ->).
  pose proof (patch_record_batches_images [ctrl_image now pid epoch b] (high_watermark p)) as Hpi.
  cbn [fmap list_fmap concat] in Hpi. rewrite !app_nil_r in Hpi.
  assert (offsets_taken [ctrl_image now pid epoch b] = 1) as Hone.
  { unfold offsets_taken. cbn [foldr]. unfold im_count, ctrl_image. cbn [im_rest].
    rewrite take_app_exact by (by rewrite length_to_be). done. }
  rewrite Hone in Hpi. unfold i64_max in *. rewrite Hpi in Hp; [|done| |lia|lia|].
  2: { constructor; [apply ctrl_image_wf|constructor]. }
  2: { rewrite zlen_im_bytes by apply ctrl_image_wf. destruct (ctrl_image_wf now pid epoch b) as (_&_&_&_&Hs). lia. }
  injection Hp as <- <-. cbn [assign fmap list_fmap concat] in Hq. rewrite app_nil_r in Hq.
  rewrite txn_producer_control in Hq; [|apply rebase_wf, ctrl_image_wf|done]. injection Hq as <-.
  apply append_inv in Hap as (_ & -> & n & wl & Hwal & ->).
  split_and!; [reflexivity| |reflexivity|reflexivity|reflexivity|].
  - cbn. apply wrap_s_small; [lia|]. unfold in_s, high_watermark in *. change (64 - 1) with 63. lia.
  - cbn [assign fmap list_fmap concat] in Hwal. rewrite app_nil_r in Hwal.
    exists n, (im_bytes (rebase (high_watermark p) (ctrl_image now pid epoch b))). split; [done|]. apply ctrl_image_marker.
Qed.

Definition txn_ended (pid : Z) (committed : bool) (p p' : Partition) : Prop :=
  high_watermark p' = high_watermark p + 1
  ∧ ongoing_txns p' = delete pid (ongoing_txns p)
  ∧ aborted_txns p' = aborted_txns p ++
      (if committed then [] else [(pid, default (high_watermark p) (ongoing_txns p !! pid))]).

(** The record is the marker of the transaction's end on a partition, at the
    offset where the partition ended. *)
Definition marked (pid epoch : Z) (committed : bool) (c c' : ClusterState) (tp : TopicPartition) (r : WalRecord) : Prop :=
  ∃ p', cs_partitions c' !! tp = Some p'
    ∧ txn_ended pid committed (get_or_create_partition tp c).1 p'
    ∧ stream_id r = s_stream_id (stream p')
    ∧ offset r = high_watermark (get_or_create_partition tp c).1
    ∧ marker_of pid epoch committed (offset r) (payload r).

(** The partition a marker goes to: the one in the table, or a new one. *)
Definition target (tp : TopicPartition) (c : ClusterState) : Partition := (get_or_create_partition tp c).1.

Definition room (p : Partition) : Prop := 0 ≤ high_watermark p < i64_max - 1.

Lemma write_marker_Ok now pid epoch b tp c w c' w' : room (target tp c) →
  write_marker now pid epoch b tp c w = (Ok tt, c', w') →
  (∃ r, wal_append (stream_id r) (offset r) (payload r) (wal w) = (Ok (seq r), wal w') ∧ marked pid epoch b c c' tp r)
  ∧ ∀ tp', tp' ≠ tp → cs_partitions c' !! tp' = cs_partitions c !! tp'.
Proof.
  intros Hroom. unfold write_marker, target, marked in *. pose proof (get_or_create_other tp) as Hoth.
  specialize (λ t, Hoth t c). destruct (get_or_create_partition tp c) as [p c1]. cbn [fst snd] in *.
  rewrite encode_control_eq.
  destruct (append_records now _ p w) as [[[[o t]| |] p1] w1] eqn:Ha; [|done..].
  apply append_control in Ha as (-> & Hhw & Hon & Hab & Hsid & n & d & Hw & Hd); [|done]. intros [= <- <-]. split.
  - exists (mkWal n (s_stream_id (stream p)) (high_watermark p) d). split; [done|].
    eexists. cbn. rewrite lookup_insert_eq. split; [done|]. cbn [stream_id offset payload].
    split_and!; [|by destruct b|done|done]. unfold txn_ended.
    destruct b; cbn; rewrite ?app_nil_r, ?Hon, ?Hab; split_and!; done.
  - intros tp' Hne. cbn. rewrite lookup_insert_ne by done. by apply Hoth.
Qed.

Lemma write_markers_Ok now pid epoch b tps wl0 : ∀ c w c' w' l0, NoDup tps →
  (∀ tp, tp ∈ tps → room (target tp c)) → wal_appends 0 l0 wl0 (wal w) →
  write_markers now pid epoch b tps c w = (Ok tt, c', w') →
  (∃ l, wal_appends 0 (l0 ++ l) wl0 (wal w') ∧ Forall2 (marked pid epoch b c c') tps l)
  ∧ ∀ tp, tp ∉ tps → cs_partitions c' !! tp = cs_partitions c !! tp.
Proof.
  induction tps as [|tp tps IH]; intros c w c' w' l0 Hnd Hroom Hl0 Hr; cbn [write_markers] in Hr.
  { injection Hr as <- <-. split; [|done]. exists []. by rewrite app_nil_r. }
  apply NoDup_cons in Hnd as [Hnin Hnd].
  destruct (write_marker now pid epoch b tp c w) as [[[[]| |] c1] w1] eqn:Hm; [|done..].
  apply write_marker_Ok in Hm as [(r & Hw & p1 & Hp1 & Hmark) Hoth]; [|apply Hroom; set_solver].
  assert (∀ t, t ∈ tps → ∀ r, marked pid epoch b c1 c' t r → marked pid epoch b c c' t r) as Hswap.
  { intros t Ht q. unfold marked, get_or_create_partition. rewrite Hoth by set_solver.
    by destruct (cs_partitions c !! t). }
  apply (IH c1 w1 c' w' (l0 ++ [r])) in Hr as [(l & Hl & Hmarks) Hout]; [|done| |].
  2: { intros t Ht. assert (room (target t c)) as Hr0 by (apply Hroom; set_solver). revert Hr0.
       unfold target, get_or_create_partition. rewrite Hoth by set_solver.
       by destruct (cs_partitions c !! t). }
  2: { destruct r. by eapply wal_appends_ok. }
  split.
  - exists (r :: l). rewrite <- app_assoc in Hl. split; [done|]. constructor.
    + exists p1. by rewrite Hout.
    + clear -Hmarks Hswap. induction Hmarks; constructor; [apply Hswap; set_solver|]. apply IHHmarks.
      intros. apply Hswap; set_solver.
  - intros t Ht. rewrite Hout by set_solver. apply Hoth. set_solver.
Qed.
End lemmas.

(** ** Lemmas: producer identities *)

(** The answers of a sequence of [InitProducerId] requests, oldest first. *)
Abbreviation identities := (list (option string * Z * Z)).

Definition init_step (st : identities * TransactionCoordinator) (q : option string * Z * Z)
    : identities * TransactionCoordinator :=
  let '(acc, t) := st in
  let '(id, timeout, now) := q in
  match init_producer_id id timeout now t with
  | (Ok (pid, epoch), t) => (acc ++ [(id, pid, epoch)], t)
  | (_, t) => (acc, t)
  end.

Definition init_all (reqs : list (option string * Z * Z)) : identities * TransactionCoordinator :=
  foldl init_step ([], coord_new) reqs.

Record ids_ok (acc : identities) (t : TransactionCoordinator) (n : Z) : Prop := {
  io_next : 1000 ≤ next_producer_id t ≤ 1000 + n;
  io_acc : ∀ id pid e, (id, pid, e) ∈ acc → pid < next_producer_id t;
  io_txn : ∀ id m, transactions t !! id = Some m →
    tx_producer_id m < next_producer_id t ∧ 0 ≤ tx_producer_epoch m ≤ n;
  io_inj : ∀ id id' m m', transactions t !! id = Some m → transactions t !! id' = Some m' →
    tx_producer_id m = tx_producer_id m' → id = id';
  io_last : ∀ id m id' e, transactions t !! id = Some m → (id', tx_producer_id m, e) ∈ acc →
    e ≤ tx_producer_epoch m;
  io_named : ∀ id pid e, (Some id, pid, e) ∈ acc →
    ∃ m, transactions t !! id = Some m ∧ tx_producer_id m = pid;
  io_nodup : NoDup ((λ a, (a.1.2, a.2)) <$> acc) }.

Lemma NoDup_snoc {A} (l : list A) x : NoDup l → x ∉ l → NoDup (l ++ [x]).
Proof. intros. apply NoDup_app. split_and!; [done|set_solver|apply NoDup_singleton]. Qed.

(** A fresh producer id: for an idempotent producer or a new transactional id. *)
Lemma ids_fresh acc t n id : ids_ok acc t n → n < 2 ^ 15 - 1 →
  (match id with Some i => transactions t !! i = None | None => True end) →
  ∀ timeout now, let m := mkTxn (default "" id) (next_producer_id t) 0 timeout TxEmpty ∅ now in
  ids_ok (acc ++ [(id, next_producer_id t, 0)])
    (set_next_pid (i64 (next_producer_id t + 1))
       (match id with Some i => put_txn i m t | None => t end)) (n + 1).
Proof.
  intros [Hn Ha Ht Hi Hl Hnm Hd] Hb Hid timeout now m.
  assert (i64 (next_producer_id t + 1) = next_producer_id t + 1) as Hw
    by (apply wrap_s_small; [lia|]; unfold in_s; change (64 - 1) with 63; lia).
  rewrite Hw. set (tm := match id with Some i => <[i := m]> (transactions t) | None => transactions t end).
  assert (transactions (match id with Some i => put_txn i m t | None => t end) = tm) as Htm by (by destruct id).
  assert (∀ i x, tm !! i = Some x → (id = Some i ∧ x = m) ∨ transactions t !! i = Some x) as Hcase.
  { intros i x. unfold tm. destruct id as [i'|]; [|by right]. rewrite lookup_insert_Some.
    intros [[-> <-]|[_ H]]; [by left|by right]. }
  split; cbn [next_producer_id set_next_pid transactions]; rewrite ?Htm.
  - lia.
  - intros i pid e. rewrite elem_of_app, list_elem_of_singleton.
    intros [H|[= _ -> _]]; [apply Ha in H; lia|lia].
  - intros i x Hx. apply Hcase in Hx as [[_ ->]|Hx]; [cbn; lia|]. destruct (Ht _ _ Hx). lia.
  - intros i i' x x' Hx Hx' Heq. apply Hcase in Hx as [[Hid1 ->]|Hx], Hx' as [[Hid2 ->]|Hx'].
    + congruence.
    + destruct (Ht _ _ Hx'). cbn in *. lia.
    + destruct (Ht _ _ Hx). cbn in *. lia.
    + by eapply Hi.
  - intros i x i' e Hx. rewrite elem_of_app, list_elem_of_singleton.
    apply Hcase in Hx as [[_ ->]|Hx]; intros [H|Heq].
    + apply Ha in H. cbn in H. lia.
    + assert (e = 0) as -> by congruence. cbn. lia.
    + by eapply Hl.
    + assert (tx_producer_id x = next_producer_id t) by congruence. destruct (Ht _ _ Hx). lia.
  - intros i pid e. rewrite elem_of_app, list_elem_of_singleton. intros [H|[= Hid1 -> _]].
    + destruct (Hnm _ _ _ H) as (x & Hx & Hp). exists x. split; [|done]. unfold tm.
      destruct id as [i'|]; [|done]. rewrite lookup_insert_ne; [done|]. intros ->. congruence.
    + subst id. exists m. unfold tm. by rewrite lookup_insert_eq.
  - rewrite fmap_app. apply NoDup_snoc; [done|]. cbn.
    intros ([[i pid] e] & [= Hp _] & Hin)%list_elem_of_fmap. cbn in Hp. subst pid. apply Ha in Hin. lia.
Qed.

Lemma ids_bump acc t n id m now : ids_ok acc t n → n < 2 ^ 15 - 1 → transactions t !! id = Some m →
  let m' := set_tx TxEmpty ∅ now (bump_epoch m) in
  ids_ok (acc ++ [(Some id, tx_producer_id m', tx_producer_epoch m')]) (put_txn id m' t) (n + 1).
Proof.
  intros [Hn Ha Ht Hi Hl Hnm Hd] Hb Hm. destruct (Ht _ _ Hm) as [Hp He].
  unfold set_tx, bump_epoch. cbn [tx_producer_id tx_producer_epoch].
  assert (i16 (tx_producer_epoch m + 1) = tx_producer_epoch m + 1) as Hw
    by (apply wrap_s_small; [lia|]; unfold in_s; change (16 - 1) with 15; lia).
  rewrite Hw. set (m' := mkTxn _ _ _ _ _ _ _). cbv zeta. split; cbn [next_producer_id transactions put_txn].
  - lia.
  - intros i pid e. rewrite elem_of_app, list_elem_of_singleton.
    intros [H|[= _ -> _]]; [by eapply Ha|done].
  - intros i x. rewrite lookup_insert_Some. intros [[-> <-]|[_ H]]; [cbn; lia|]. destruct (Ht _ _ H). lia.
  - intros i i' x x'. rewrite !lookup_insert_Some.
    intros [[-> <-]|[_ H]] [[-> <-]|[_ H']]; cbn; [done|..]; eauto.
  - intros i x i' e. rewrite lookup_insert_Some, elem_of_app, list_elem_of_singleton.
    intros [[-> <-]|[Hne H]] [Hin|Heq]; cbn in *.
    + specialize (Hl _ m i' e Hm Hin). lia.
    + assert (e = tx_producer_epoch m + 1) by congruence. lia.
    + by eapply Hl.
    + exfalso. apply Hne. eapply Hi; [exact Hm|exact H|congruence].
  - intros i pid e. rewrite elem_of_app, list_elem_of_singleton. intros [H|[= -> -> _]].
    + destruct (Hnm _ _ _ H) as (x & Hx & Hxp). destruct (decide (i = id)) as [->|Hne].
      * exists m'. rewrite lookup_insert_eq. split; [done|]. cbn. congruence.
      * exists x. by rewrite lookup_insert_ne.
    + exists m'. by rewrite lookup_insert_eq.
  - rewrite fmap_app. apply NoDup_snoc; [done|]. cbn.
    intros ([[i pid] e] & [= Hpp Hee] & Hin)%list_elem_of_fmap. cbn in *. subst.
    specialize (Hl _ m i _ Hm Hin). lia.
Qed.

Lemma init_step_ok acc t n q : ids_ok acc t n → n < 2 ^ 15 - 1 →
  ids_ok (init_step (acc, t) q).1 (init_step (acc, t) q).2 (n + 1).
Proof.
  intros Hok Hb. destruct q as [[id timeout] now]. unfold init_step, init_producer_id. destruct id as [id|].
  - destruct (transactions t !! id) as [m|] eqn:Hm; cbn [fst snd].
    + by apply ids_bump.
    + pose proof (ids_fresh acc t n (Some id) Hok Hb Hm (if decide (timeout ≤ 0) then 60000 else timeout) now) as H.
      exact H.
  - exact (ids_fresh acc t n None Hok Hb I 0 0).
Qed.

Lemma init_fold_ok reqs : ∀ acc t n, ids_ok acc t n → n + zlen reqs < 2 ^ 15 →
  ids_ok (foldl init_step (acc, t) reqs).1 (foldl init_step (acc, t) reqs).2 (n + zlen reqs).
Proof.
  induction reqs as [|q reqs IH]; intros acc t n Hok Hb; cbn [foldl].
  { cbn. by rewrite Z.add_0_r. }
  rewrite zlen_cons in Hb |- *. pose proof (zlen_nonneg reqs).
  pose proof (init_step_ok acc t n q Hok ltac:(lia)) as Hok'.
  destruct (init_step (acc, t) q) as [acc' t']. rewrite Z.add_assoc. apply IH; [done|lia].
Qed.

(** ** Properties *)

Section theorems.
Context `{HO : HashOrder} {W St : Type} `{!WalEngine W, !ObjectStorage St}.
Abbreviation world := (World W St).
Implicit Types w : world.

(** C18: Producer identities.  Over any fewer than 32768 [InitProducerId]
    requests, in any order and for any transactional ids, no (producer id, epoch)
    pair is handed out twice; a transactional id keeps its producer id; and every
    identity of it but the newest is fenced: adding partitions or offsets or
    ending a transaction with it is refused and changes nothing. *)
Theorem producer_ids_unique_and_fenced reqs : zlen reqs < 2 ^ 15 →
  let '(acc, t) := init_all reqs in
  NoDup ((λ a, (a.1.2, a.2)) <$> acc) ∧
  ∀ id pid e, (Some id, pid, e) ∈ acc →
    ∃ m, transactions t !! id = Some m ∧ tx_producer_id m = pid ∧ e ≤ tx_producer_epoch m
    ∧ (e < tx_producer_epoch m →
       (∀ tps now, add_partitions_to_txn id pid e tps now t = (Err E_ProducerFenced, t))
       ∧ (∀ g, add_offsets_to_txn id pid e g t = Err E_ProducerFenced)
       ∧ (∀ b now c w,
            end_txn id pid e b now t c w = (Err E_ProducerFenced, t, c, w))).
Proof.
  intros Hb. assert (ids_ok [] coord_new 0) as H0.
  { split; cbn; [lia|set_solver|..|set_solver|constructor]; intros *; by rewrite ?lookup_empty. }
  pose proof (init_fold_ok reqs [] coord_new 0 H0 ltac:(lia)) as Hok. fold (init_all reqs) in Hok.
  destruct (init_all reqs) as [acc t]. cbn [fst snd] in Hok. destruct Hok as [_ _ _ _ Hl Hnm Hd].
  split; [done|]. intros id pid e Hin. destruct (Hnm _ _ _ Hin) as (m & Hm & <-).
  exists m. split; [done|]. split; [done|]. split; [by eapply Hl|]. intros Hlt.
  assert (check_producer id (tx_producer_id m) e t = Err E_ProducerFenced) as Hc.
  { unfold check_producer. rewrite Hm. rewrite decide_False by (intros H; by apply H).
    by rewrite decide_True. }
  unfold add_partitions_to_txn, add_offsets_to_txn, end_txn. rewrite Hc. done.
Qed.

End theorems.

(** ** Witnesses *)
Import MemoryWal MemoryStore.

Definition demo_inits : list (option string * Z * Z) :=
  [(Some "payments"%string, 0, 1); (None, 0, 2); (Some "payments"%string, 0, 3)].

Lemma producer_ids_unique_and_fenced_witness :
  let '(acc, t) := init_all demo_inits in
  acc = [(Some "payments"%string, 1000, 0); (None, 1001, 0); (Some "payments"%string, 1000, 1)]
  ∧ NoDup ((λ a, (a.1.2, a.2)) <$> acc).
Proof.
  pose proof (producer_ids_unique_and_fenced (W:=MemoryWal) (St:=MemoryObjectStorage) demo_inits ltac:(vm_compute; reflexivity)) as H.
  assert ((init_all demo_inits).1 =
    [(Some "payments"%string, 1000, 0); (None, 1001, 0); (Some "payments"%string, 1000, 1)]) as He
    by (vm_compute; reflexivity).
  destruct (init_all demo_inits) as [acc t]. cbn [fst] in He. destruct H as [H _]. exact (conj He H).
Defined.

Definition orders : TopicPartition := mkTP "orders" 0.

(** A transaction of producer 1000 on one partition, with one batch in it. *)
Definition demo_txn_batch : bytes :=
  im_bytes (mkImage (put_64 0) (put_32 0) 0x10
    (put_32 1 ++ put_64 0 ++ put_64 0 ++ put_64 1000 ++ put_16 0 ++ put_32 0 ++ put_32 2) []).

Definition demo_coord : TransactionCoordinator :=
  (add_partitions_to_txn "payments" 1000 0 [orders] 2
     (init_producer_id (Some "payments"%string) 0 1 coord_new).2).2.

Definition demo_state := cop_run (demo_cluster, demo_world) (CAppend orders 3 demo_txn_batch).

Definition demo_end := end_txn "payments" 1000 0 false 4 demo_coord demo_state.1 demo_state.2.


(** ** What modelling showed *)

(** [InitProducerId] for a transactional id with an open transaction clears the
    coordinator's list of partitions without writing a marker: the partition
    keeps the transaction open for good, and its last stable offset stays put
    while records that belong to no transaction are appended behind it. *)
Theorem reinit_leaves_transaction_open :
  let t := (init_producer_id (Some "payments"%string) 0 4 demo_coord).2 in
  let '(r, t, c, w) := end_txn "payments" 1000 1 true 5 t demo_state.1 demo_state.2 in
  let '(c, w) := cop_run (c, w) (CAppend orders 6 [Byte.x61]) in
  (r, (λ p, (last_stable_offset p, high_watermark p)) <$> get_partition orders c) = (Ok tt, Some (0, 3)).
Proof. vm_compute. reflexivity. Qed.
