(* ===== verification/Group.v ===== *)
(** * The consumer-group coordinator

    [crates/oxidemq-broker/src/coordinator.rs]: membership, generations,
    assignments and committed offsets.  The coordinator's lock makes each request
    one step. *)

From stdpp Require Import base numbers list strings sets gmap.
From S2P Require Import Prelude Bytes CoreTypes KafkaWire MessageTypes.

Inductive GroupState := GEmpty | GPreparingRebalance | GCompletingRebalance | GStable | GDead.

#[export] Instance GroupState_eq_dec : EqDecision GroupState.
Proof. solve_decision. Defined.

Record GroupMember := mkMember {
  gm_member_id : string;
  gm_client_id : string;
  gm_client_host : string;
  gm_protocol_metadata : bytes;
  gm_assignment : bytes }.

Record ConsumerGroup := mkGroup {
  cg_group_id : string;
  cg_state : GroupState;
  cg_generation_id : Z;
  cg_leader_id : option string;
  cg_protocol_type : string;
  cg_protocol_name : option string;
  cg_members : gmap string GroupMember;
  cg_offsets : gmap TopicPartition Z }.

Definition group_new (group_id : string) : ConsumerGroup :=
  mkGroup group_id GEmpty 0 None "" None ∅ ∅.

Record GroupCoordinator := mkGroups {
  groups : gmap string ConsumerGroup;
  next_member_counter : Z }.

Definition coordinator_new : GroupCoordinator := mkGroups ∅ 1.

Definition set_groups (m : gmap string ConsumerGroup) (g : GroupCoordinator) : GroupCoordinator :=
  mkGroups m (next_member_counter g).
Definition put_group (id : string) (cg : ConsumerGroup) (g : GroupCoordinator) : GroupCoordinator :=
  set_groups (<[id := cg]> (groups g)) g.

(** [groups.entry(id).or_insert_with(..)] *)
Definition group_entry (id : string) (g : GroupCoordinator) : ConsumerGroup :=
  default (group_new id) (groups g !! id).

(** [format!("{}-{:08}", client_id, id_num)] *)
Definition new_member_id (client_id : string) (id_num : Z) : string :=
  client_id +:+ "-" +:+ dec0 8 id_num.

Definition handle_join_group (group_id member_id client_id protocol_type : string) (g : GroupCoordinator)
    : (KafkaErrorCode * Z * string * string) * GroupCoordinator :=
  let group := group_entry group_id g in
  let '(actual, counter) :=
    if decide (member_id = "")
    then (new_member_id client_id (next_member_counter g), i32 (next_member_counter g + 1))
    else (member_id, next_member_counter g) in
  let '(leader, proto) :=
    if decide (cg_members group = ∅) then (Some actual, protocol_type)
    else (cg_leader_id group, cg_protocol_type group) in
  let members := <[actual := mkMember actual client_id "127.0.0.1" [] []]> (cg_members group) in
  let gen := i32 (cg_generation_id group + 1) in
  let group := mkGroup (cg_group_id group) GCompletingRebalance gen leader proto
                 (cg_protocol_name group) members (cg_offsets group) in
  ((E_None, gen, actual, default "" leader), mkGroups (<[group_id := group]> (groups g)) counter).

(** The loop over the leader's assignments; the keys are distinct, so the order
    of the hash map does not matter. *)
Definition assign_member (assignments : gmap string bytes) (id : string) (m : GroupMember) : GroupMember :=
  match assignments !! id with
  | Some a => mkMember (gm_member_id m) (gm_client_id m) (gm_client_host m) (gm_protocol_metadata m) a
  | None => m
  end.

Definition handle_sync_group (group_id : string) (generation_id : Z) (member_id : string)
    (assignments : gmap string bytes) (g : GroupCoordinator)
    : (KafkaErrorCode * bytes) * GroupCoordinator :=
  match groups g !! group_id with
  | None => ((E_InvalidGroupId, []), g)
  | Some group =>
      if decide (cg_generation_id group ≠ generation_id) then ((E_IllegalGeneration, []), g) else
      let group :=
        if decide (assignments = ∅) then group
        else mkGroup (cg_group_id group) GStable (cg_generation_id group) (cg_leader_id group)
               (cg_protocol_type group) (cg_protocol_name group)
               (map_imap (λ id m, Some (assign_member assignments id m)) (cg_members group))
               (cg_offsets group) in
      let member_assign := default [] (gm_assignment <$> cg_members group !! member_id) in
      ((E_None, member_assign), put_group group_id group g)
  end.

Definition handle_heartbeat (group_id : string) (generation_id : Z) (member_id : string)
    (g : GroupCoordinator) : KafkaErrorCode :=
  match groups g !! group_id with
  | None => E_InvalidGroupId
  | Some group =>
      if decide (cg_generation_id group ≠ generation_id) then E_IllegalGeneration else
      match cg_members group !! member_id with
      | None => E_UnknownMemberId
      | Some _ => E_None
      end
  end.

Definition commit_offset (group_id : string) (tp : TopicPartition) (offset : Z) (g : GroupCoordinator)
    : GroupCoordinator :=
  let group := group_entry group_id g in
  put_group group_id
    (mkGroup (cg_group_id group) (cg_state group) (cg_generation_id group) (cg_leader_id group)
       (cg_protocol_type group) (cg_protocol_name group) (cg_members group)
       (<[tp := offset]> (cg_offsets group))) g.

Definition fetch_offset (group_id : string) (tp : TopicPartition) (g : GroupCoordinator) : option Z :=
  group ← groups g !! group_id; cg_offsets group !! tp.

(** The member counter goes on. *)
Definition groups_reset (g : GroupCoordinator) : GroupCoordinator := set_groups ∅ g.

Definition group_count (g : GroupCoordinator) : Z := Z.of_nat (size (groups g)).

(** One iteration of [delete_groups]. *)
Definition delete_group (gid : string) (g : GroupCoordinator) : (string * KafkaErrorCode) * GroupCoordinator :=
  match groups g !! gid with
  | None => ((gid, E_GroupIdNotFound), g)
  | Some group =>
      if decide (cg_members group ≠ ∅ ∧ cg_state group ≠ GEmpty ∧ cg_state group ≠ GDead)
      then ((gid, E_NonEmptyGroup), g)
      else ((gid, E_None), set_groups (delete gid (groups g)) g)
  end.

Fixpoint delete_groups (group_ids : list string) (g : GroupCoordinator)
    : list (string * KafkaErrorCode) * GroupCoordinator :=
  match group_ids with
  | [] => ([], g)
  | gid :: ids =>
      let '(r, g) := delete_group gid g in
      let '(rs, g) := delete_groups ids g in
      (r :: rs, g)
  end.

Definition state_str (s : GroupState) : string :=
  match s with
  | GEmpty => "Empty"
  | GPreparingRebalance => "PreparingRebalance"
  | GCompletingRebalance => "CompletingRebalance"
  | GStable => "Stable"
  | GDead => "Dead"
  end.

Section ops.
Context `{HO : HashOrder}.

Definition handle_leave_group (group_id member_id : string) (g : GroupCoordinator)
    : KafkaErrorCode * GroupCoordinator :=
  match groups g !! group_id with
  | None => (E_InvalidGroupId, g)
  | Some group =>
      let members := delete member_id (cg_members group) in
      let '(st, leader) :=
        if decide (members = ∅) then (GEmpty, None)
        else if decide (cg_leader_id group = Some member_id)
        then (GPreparingRebalance, head (hash_iter members).*1)
        else (cg_state group, cg_leader_id group) in
      (E_None,
       put_group group_id
         (mkGroup (cg_group_id group) st (cg_generation_id group) leader (cg_protocol_type group)
            (cg_protocol_name group) members (cg_offsets group)) g)
  end.

Definition list_groups (g : GroupCoordinator) : list (string * string) :=
  (λ kv : string * ConsumerGroup, (kv.1, cg_protocol_type kv.2)) <$> hash_iter (groups g).

Definition describe_member (m : GroupMember) : DescribedGroupMember :=
  mkDescMember (gm_member_id m) (gm_client_id m) (gm_client_host m) (gm_protocol_metadata m) (gm_assignment m).

Definition describe_group (g : GroupCoordinator) (gid : string) : DescribedGroup :=
  match groups g !! gid with
  | Some cg =>
      mkDescGroup E_None gid (state_str (cg_state cg)) (cg_protocol_type cg)
        (default "" (cg_protocol_name cg)) (describe_member <$> (hash_iter (cg_members cg)).*2)
  | None => mkDescGroup E_None gid "Dead" "" "" []
  end.

Definition describe_groups (group_ids : list string) (g : GroupCoordinator) : list DescribedGroup :=
  describe_group g <$> group_ids.
End ops.

(** ** Lemmas *)

(** A group with members has one of them as leader and is in a rebalance or
    stable; a group without members has no leader. *)
Record group_ok (id : string) (cg : ConsumerGroup) : Prop := {
  go_id : cg_group_id cg = id;
  go_leader : match cg_leader_id cg with
              | Some l => is_Some (cg_members cg !! l)
              | None => cg_members cg = ∅
              end;
  go_state : cg_members cg ≠ ∅ → cg_state cg ≠ GEmpty;
  go_alive : cg_state cg ≠ GDead;
  go_keys : ∀ k m, cg_members cg !! k = Some m → gm_member_id m = k }.

Definition groups_ok (g : GroupCoordinator) : Prop :=
  ∀ id cg, groups g !! id = Some cg → group_ok id cg.

Lemma group_new_ok id : group_ok id (group_new id).
Proof. by split; cbn. Qed.

Lemma group_entry_ok id g : groups_ok g → group_ok id (group_entry id g).
Proof.
  intros Hg. unfold group_entry. destruct (groups g !! id) eqn:E; cbn; [by apply Hg|apply group_new_ok].
Qed.

Lemma put_group_ok id cg g : groups_ok g → group_ok id cg → groups_ok (put_group id cg g).
Proof.
  intros Hg Hc id' cg'. cbn. rewrite lookup_insert_Some. intros [[-> <-]|[_ H]]; [done|]. by apply Hg.
Qed.

Lemma insert_not_empty {V} (m : gmap string V) k v : <[k := v]> m ≠ ∅.
Proof. apply insert_non_empty. Qed.

Lemma join_ok gid mid cid proto g : groups_ok g → groups_ok (handle_join_group gid mid cid proto g).2.
Proof.
  intros Hg. unfold handle_join_group. pose proof (group_entry_ok gid g Hg) as [Hi Hl Hs Ha Hk].
  destruct (if decide (mid = "") then _ else _) as [actual counter].
  destruct (decide (cg_members (group_entry gid g) = ∅)) as [He|He]; cbn [snd].
  all: intros id cg; cbn; rewrite lookup_insert_Some; intros [[<- <-]|[_ H]]; [|by apply Hg].
  all: split; cbn; [done| |done|done|].
  - by rewrite lookup_insert_eq.
  - intros k m. rewrite lookup_insert_Some. intros [[-> <-]|[_ H]]; [done|]. by apply Hk.
  - destruct (cg_leader_id (group_entry gid g)) as [l|]; [|done].
    destruct (decide (actual = l)) as [->|]; [by rewrite lookup_insert_eq|by rewrite lookup_insert_ne].
  - intros k m. rewrite lookup_insert_Some. intros [[-> <-]|[_ H]]; [done|]. by apply Hk.
Qed.

Lemma imap_lookup assignments (ms : gmap string GroupMember) k :
  map_imap (λ id m, Some (assign_member assignments id m)) ms !! k = assign_member assignments k <$> ms !! k.
Proof. rewrite map_lookup_imap. by destruct (ms !! k). Qed.

Lemma imap_empty assignments (ms : gmap string GroupMember) :
  map_imap (λ id m, Some (assign_member assignments id m)) ms = ∅ ↔ ms = ∅.
Proof.
  split.
  - intros E. apply map_empty. intros k. pose proof (imap_lookup assignments ms k) as Hk.
    rewrite E, lookup_empty in Hk. by destruct (ms !! k).
  - intros ->. apply map_empty. intros k. rewrite imap_lookup. done.
Qed.

Lemma sync_ok gid gen mid asg g : groups_ok g → groups_ok (handle_sync_group gid gen mid asg g).2.
Proof.
  intros Hg. unfold handle_sync_group. destruct (groups g !! gid) as [cg|] eqn:E; [|done].
  destruct (decide _); [done|]. cbn [snd]. apply put_group_ok; [done|].
  destruct (decide (asg = ∅)); [by apply Hg|]. destruct (Hg _ _ E) as [Hi Hl Hs Ha Hk].
  split; cbn; [done| |done|done|].
  - destruct (cg_leader_id cg) as [l|]; [|by apply imap_empty].
    rewrite imap_lookup. by apply fmap_is_Some.
  - intros k m. rewrite imap_lookup. intros (m0 & Hm0 & ->)%fmap_Some.
    unfold assign_member. destruct (asg !! k); cbn; by apply Hk.
Qed.

Section leave.
Context `{HO : HashOrder}.

Lemma head_member (ms : gmap string GroupMember) : ms ≠ ∅ →
  ∃ k, head (hash_iter ms).*1 = Some k ∧ is_Some (ms !! k).
Proof.
  intros Hne. destruct (hash_iter ms) as [|[k m] l] eqn:E.
  - apply hash_iter_nil in E. done.
  - exists k. split; [done|]. exists m. apply elem_of_hash_iter. rewrite E. set_solver.
Qed.

Lemma leave_ok gid mid g : groups_ok g → groups_ok (handle_leave_group gid mid g).2.
Proof.
  intros Hg. unfold handle_leave_group. destruct (groups g !! gid) as [cg|] eqn:E; [|done].
  destruct (Hg _ _ E) as [Hi Hl Hs Ha Hk]. set (ms := delete mid (cg_members cg)).
  assert (∀ k m, ms !! k = Some m → gm_member_id m = k) as Hk'
    by (intros k m; unfold ms; rewrite lookup_delete_Some; intros [_ H]; by apply Hk).
  destruct (decide (ms = ∅)) as [He|He]; [|destruct (decide (cg_leader_id cg = Some mid)) as [Hld|Hld]].
  all: cbn [snd]; apply put_group_ok; [done|]; split; cbn; try done.
  - destruct (head_member ms He) as (k & -> & Hin). done.
  - destruct (cg_leader_id cg) as [l|].
    + unfold ms. rewrite lookup_delete_ne; [done|]. congruence.
    + exfalso. apply He. unfold ms. by rewrite Hl, delete_empty.
  - intros _. apply Hs. intros Hc. apply He. unfold ms. by rewrite Hc, delete_empty.
Qed.
End leave.

Lemma commit_ok gid tp o g : groups_ok g → groups_ok (commit_offset gid tp o g).
Proof.
  intros Hg. unfold commit_offset. apply put_group_ok; [done|].
  by destruct (group_entry_ok gid g Hg).
Qed.

Lemma delete_group_ok gid g : groups_ok g → groups_ok (delete_group gid g).2.
Proof.
  intros Hg. unfold delete_group. destruct (groups g !! gid); [|done]. destruct (decide _); [done|].
  intros id cg. cbn. rewrite lookup_delete_Some. intros [_ H]. by apply Hg.
Qed.

(** ** Any sequence of requests *)
Inductive gop :=
  | GJoin (group_id member_id client_id protocol_type : string)
  | GSync (group_id : string) (generation_id : Z) (member_id : string) (assignments : gmap string bytes)
  | GLeave (group_id member_id : string)
  | GCommit (group_id : string) (tp : TopicPartition) (offset : Z)
  | GDelete (group_id : string).

(** What a request did to a group's committed offsets. *)
Inductive gevent := EvCommit (group_id : string) (tp : TopicPartition) (offset : Z) | EvDrop (group_id : string).

Section traces.
Context `{HO : HashOrder}.

Definition gop_run (g : GroupCoordinator) (op : gop) : GroupCoordinator * list gevent :=
  match op with
  | GJoin gid mid cid proto => ((handle_join_group gid mid cid proto g).2, [])
  | GSync gid gen mid asg => ((handle_sync_group gid gen mid asg g).2, [])
  | GLeave gid mid => ((handle_leave_group gid mid g).2, [])
  | GCommit gid tp o => (commit_offset gid tp o g, [EvCommit gid tp o])
  | GDelete gid =>
      let '((_, e), g') := delete_group gid g in
      (g', if decide (e = E_None) then [EvDrop gid] else [])
  end.

Fixpoint gops_run (ops : list gop) (g : GroupCoordinator) (h : list gevent) : GroupCoordinator * list gevent :=
  match ops with
  | [] => (g, h)
  | op :: ops' => let '(g, evs) := gop_run g op in gops_run ops' g (h ++ evs)
  end.

(** The last commit of a group for a partition since the group was dropped. *)
Definition last_step (gid : string) (tp : TopicPartition) (st : option Z) (ev : gevent) : option Z :=
  match ev with
  | EvCommit gid' tp' o => if decide (gid' = gid ∧ tp' = tp) then Some o else st
  | EvDrop gid' => if decide (gid' = gid) then None else st
  end.
Definition last_commit (gid : string) (tp : TopicPartition) (h : list gevent) : option Z :=
  foldl (last_step gid tp) None h.

Lemma fetch_put_group gid tp id cg g :
  fetch_offset gid tp (put_group id cg g) = if decide (id = gid) then cg_offsets cg !! tp else fetch_offset gid tp g.
Proof.
  unfold fetch_offset. cbn. destruct (decide (id = gid)) as [->|Hne].
  - by rewrite lookup_insert_eq.
  - by rewrite lookup_insert_ne.
Qed.

Lemma entry_offsets gid tp g : cg_offsets (group_entry gid g) !! tp = fetch_offset gid tp g.
Proof. unfold group_entry, fetch_offset. by destruct (groups g !! gid). Qed.

Lemma gop_run_ok g op : groups_ok g → groups_ok (gop_run g op).1.
Proof.
  intros Hg. destruct op; cbn [gop_run].
  - by apply join_ok.
  - by apply sync_ok.
  - by apply leave_ok.
  - by apply commit_ok.
  - pose proof (delete_group_ok group_id g Hg) as H. by destruct (delete_group group_id g) as [[? ?] ?].
Qed.

Lemma gop_run_offsets g op gid tp :
  fetch_offset gid tp (gop_run g op).1 = foldl (last_step gid tp) (fetch_offset gid tp g) (gop_run g op).2.
Proof.
  destruct op as [id mid cid proto|id gen mid asg|id mid|id tp' o|id]; cbn [gop_run fst snd foldl].
  - unfold handle_join_group. destruct (if decide (mid = "") then _ else _) as [actual counter].
    destruct (if decide (_ = ∅) then _ else _) as [l p]. cbn [snd].
    unfold fetch_offset. cbn. destruct (decide (id = gid)) as [->|Hne].
    + rewrite lookup_insert_eq. cbn. apply entry_offsets.
    + by rewrite lookup_insert_ne.
  - unfold handle_sync_group. destruct (groups g !! id) as [cg|] eqn:E; [|done].
    destruct (decide _); [done|]. cbn [snd]. rewrite fetch_put_group.
    destruct (decide (id = gid)) as [->|]; [|done]. unfold fetch_offset. rewrite E. by destruct (decide (asg = ∅)).
  - unfold handle_leave_group. destruct (groups g !! id) as [cg|] eqn:E; [|done].
    destruct (if decide _ then _ else _) as [st l]. cbn [snd]. rewrite fetch_put_group.
    destruct (decide (id = gid)) as [->|]; [|done]. unfold fetch_offset. by rewrite E.
  - unfold commit_offset. rewrite fetch_put_group. cbn.
    destruct (decide (id = gid)) as [->|Hne]; [|by rewrite decide_False by tauto].
    destruct (decide (tp' = tp)) as [->|Hne'].
    + by rewrite lookup_insert_eq, decide_True.
    + rewrite lookup_insert_ne, decide_False by tauto. apply entry_offsets.
  - unfold delete_group. destruct (groups g !! id) as [cg|] eqn:E; [|done].
    destruct (decide (_ ∧ _)); [done|]. rewrite decide_True by done. cbn. unfold fetch_offset. cbn.
    destruct (decide (id = gid)) as [->|Hne]; [by rewrite lookup_delete_eq|by rewrite lookup_delete_ne].
Qed.

Lemma gops_run_spec ops : ∀ g h, groups_ok g →
  groups_ok (gops_run ops g h).1 ∧
  ((∀ gid tp, fetch_offset gid tp g = last_commit gid tp h) →
   ∀ gid tp, fetch_offset gid tp (gops_run ops g h).1 = last_commit gid tp (gops_run ops g h).2).
Proof.
  induction ops as [|op ops IH]; intros g h Hg; cbn [gops_run]; [done|].
  pose proof (gop_run_ok g op Hg) as Hg'. pose proof (gop_run_offsets g op) as Ho.
  destruct (gop_run g op) as [g' evs]. cbn [fst snd] in *. destruct (IH g' (h ++ evs) Hg') as [H1 H2].
  split; [done|]. intros Hf. apply H2. intros gid tp. rewrite Ho, Hf. unfold last_commit. by rewrite foldl_app.
Qed.

(** C34: Consumer groups stay consistent.  After any sequence of joins, syncs,
    leaves, commits and deletions, whatever the hash order in which a new leader
    is picked: a group with members has one of them as its leader and is not
    [Empty], a group without members has none; a deletion succeeds exactly for the
    groups that exist and have no members; and the offset fetched for a partition
    is the last one committed since the group was last deleted.  The rule for
    deletions is the code's: its comment says that only groups in the state
    [Empty] or [Dead] can be deleted, but a sync can make a group without members
    [Stable], and it is deleted all the same ([stable_group_deleted]). *)
Theorem group_invariant ops :
  let '(g, h) := gops_run ops coordinator_new [] in
  (∀ id cg, groups g !! id = Some cg → group_ok id cg)
  ∧ (∀ id, (delete_group id g).1.2 = E_None ↔ ∃ cg, groups g !! id = Some cg ∧ cg_members cg = ∅)
  ∧ (∀ id tp, fetch_offset id tp g = last_commit id tp h).
Proof.
  assert (groups_ok coordinator_new) as H0 by (intros id cg; cbn; by rewrite lookup_empty).
  destruct (gops_run_spec ops coordinator_new [] H0) as [H1 H2].
  destruct (gops_run ops coordinator_new []) as [g h]. cbn [fst snd] in *. split; [done|]. split.
  - intros id. unfold delete_group. destruct (groups g !! id) as [cg|] eqn:E.
    + destruct (H1 _ _ E) as [_ _ Hs Ha _]. destruct (decide (_ ∧ _)) as [Hd|Hd]; cbn.
      * split; [done|]. intros (cg' & [= <-] & Hm). tauto.
      * split; [|done]. intros _. exists cg. split; [done|].
        destruct (decide (cg_members cg = ∅)); [done|]. exfalso. apply Hd. auto.
    + cbn. split; [done|]. by intros (cg & Hc & _).
  - apply H2. intros gid tp. done.
Qed.

(** Assignments reach their members, in their generation only.  Once some
    member of the current generation has synced with the leader's (non-empty)
    assignments, a sync of any member in that generation without assignments of
    its own returns what the leader assigned to it (what it already had, if the
    leader left it out), while a sync or heartbeat with another generation is
    refused and changes nothing. *)
Theorem sync_group_assignment gid gen leader asg g g' cg mid m :
  groups g !! gid = Some cg → cg_members cg !! mid = Some m → asg ≠ ∅ →
  cg_generation_id cg = gen → (handle_sync_group gid gen leader asg g).2 = g' →
  (handle_sync_group gid gen mid ∅ g').1 = (E_None, default (gm_assignment m) (asg !! mid))
  ∧ ∀ gen', gen' ≠ gen →
      (∀ mid' asg', handle_sync_group gid gen' mid' asg' g' = ((E_IllegalGeneration, []), g'))
      ∧ ∀ mid', handle_heartbeat gid gen' mid' g' = E_IllegalGeneration.
Proof.
  intros Hg Hm Ha Hgen Hs. unfold handle_sync_group in Hs. rewrite Hg in Hs.
  rewrite decide_False in Hs by (intros H; by apply H). rewrite decide_False in Hs by done.
  cbn [snd] in Hs. subst g'. split.
  - unfold handle_sync_group. cbn. rewrite lookup_insert_eq. cbn.
    rewrite decide_False by (intros H; by apply H). rewrite decide_True by done. cbn.
    rewrite imap_lookup, Hm. cbn. unfold assign_member. by destruct (asg !! mid).
  - intros gen' Hne. split; intros; unfold handle_sync_group, handle_heartbeat; cbn;
      rewrite lookup_insert_eq; cbn; by rewrite decide_True by congruence.
Qed.
End traces.

(** ** Witnesses *)
Definition demo_groups : GroupCoordinator :=
  (gops_run [GJoin "g" "" "c" "consumer"; GJoin "g" "" "d" "consumer"] coordinator_new []).1.

Lemma sync_group_assignment_witness :
  (handle_sync_group "g" 2 "d-00000002" ∅
     (handle_sync_group "g" 2 "c-00000001" {["c-00000001" := [Byte.x01]; "d-00000002" := [Byte.x02]]} demo_groups).2).1
    = (E_None, [Byte.x02]).
Proof.
  destruct (sync_group_assignment "g" 2 "c-00000001"
    {["c-00000001" := [Byte.x01]; "d-00000002" := [Byte.x02]]} demo_groups
    (handle_sync_group "g" 2 "c-00000001" {["c-00000001" := [Byte.x01]; "d-00000002" := [Byte.x02]]} demo_groups).2
    (group_entry "g" demo_groups) "d-00000002" (mkMember "d-00000002" "d" "127.0.0.1" [] [])) as [H _].
  - vm_compute. reflexivity.
  - vm_compute. reflexivity.
  - intros Hc. apply (f_equal (lookup "c-00000001"%string)) in Hc. vm_compute in Hc. discriminate.
  - vm_compute. reflexivity.
  - vm_compute. reflexivity.
  - exact H.
Defined.

(** ** What modelling showed *)

(** A member that leaves starts no rebalance for the others: the generation stays,
    the remaining member's heartbeats succeed, so nobody takes over what the
    departed one was assigned. *)
Theorem leave_starts_no_rebalance :
  let g := (handle_sync_group "g" 2 "c-00000001" {["c-00000001" := [Byte.x01]; "d-00000002" := [Byte.x02]]} demo_groups).2 in
  let '(e, g) := handle_leave_group "g" "d-00000002" g in
  e = E_None ∧ handle_heartbeat "g" 2 "c-00000001" g = E_None
  ∧ (cg_state <$> groups g !! "g"%string) = Some GStable.
Proof. vm_compute. split_and!; reflexivity. Qed.

(** "Only groups in Empty or Dead state can be deleted", says the comment of
    [delete_groups].  After its last member has left, a sync in the old generation
    makes the group [Stable]; it is in neither of the two states, and is deleted. *)
Theorem stable_group_deleted :
  let g := (gops_run [GJoin "g" "" "c" "consumer"; GLeave "g" "c-00000001";
              GSync "g" 1 "c-00000001" {["c-00000001" := [Byte.x01]]}] coordinator_new []).1 in
  (cg_state <$> groups g !! "g"%string) = Some GStable
  ∧ (delete_groups ["g"%string] g).1 = [("g"%string, E_None)]
  ∧ groups (delete_groups ["g"%string] g).2 !! "g"%string = None.
Proof. vm_compute. split_and!; reflexivity. Qed.
