(* ===== verification/Acl.v ===== *)
(** * Access control

    [crates/oxidemq-broker/src/acl.rs]: the list of ACL bindings, the
    authorization decision, and creation, description and deletion of bindings.
    The authorizer's lock makes each request one step. *)

From stdpp Require Import base numbers list strings sets gmap.
From S2P Require Import Prelude Bytes CoreTypes KafkaWire MessageTypes.

Record AclBinding := mkBinding {
  ab_resource_type : AclResourceType;
  ab_resource_name : string;
  ab_pattern_type : AclResourcePatternType;
  ab_principal : string;
  ab_host : string;
  ab_operation : AclOperation;
  ab_permission_type : AclPermissionType }.

#[export] Instance AclBinding_eq_dec : EqDecision AclBinding.
Proof. solve_decision. Defined.

Record AclAuthorizer := mkAuthorizer {
  acl_enabled : bool;
  acl_super_users : gset string;
  acl_allow_everyone : bool;
  acl_bindings : list AclBinding }.

(** [s.contains(':')] *)
Definition has_colon (s : string) : bool := existsb (Byte.eqb Byte.x3a) (str_bytes s).

(** [if !u.contains(':') { format!("User:{}", u) } else { u }] *)
Definition normalize (u : string) : string := if has_colon u then u else "User:" +:+ u.

Definition authorizer_new (enabled : bool) (super_users : gset string) (allow_everyone : bool) : AclAuthorizer :=
  mkAuthorizer enabled (set_map normalize super_users) allow_everyone [].

Definition authorizer_default : AclAuthorizer := authorizer_new false {["User:admin"]} true.

Definition set_bindings (l : list AclBinding) (a : AclAuthorizer) : AclAuthorizer :=
  mkAuthorizer (acl_enabled a) (acl_super_users a) (acl_allow_everyone a) l.

(** Does the binding's resource pattern cover the resource? *)
Definition covers (rt : AclResourceType) (name : string) (b : AclBinding) : bool :=
  bool_decide (ab_resource_type b = rt) &&
  match ab_pattern_type b with
  | PtPrefixed => String.prefix (ab_resource_name b) name
  | _ => bool_decide (ab_resource_name b = name) || bool_decide (ab_resource_name b = "*")
  end.

(** Is the binding about this principal, host and operation? *)
Definition concerns (norm_principal host : string) (op : AclOperation) (b : AclBinding) : bool :=
  (bool_decide (ab_principal b = norm_principal) || bool_decide (ab_principal b = "User:*")
     || bool_decide (ab_principal b = "*"))
  && (bool_decide (ab_host b = host) || bool_decide (ab_host b = "*"))
  && (bool_decide (ab_operation b = op) || bool_decide (ab_operation b = OpAll)).

(** The loop over the bindings: a matching [Deny] returns at once. *)
Fixpoint evaluate (rt : AclResourceType) (name norm_principal host : string) (op : AclOperation)
    (matched_allows : bool) (l : list AclBinding) : bool :=
  match l with
  | [] => matched_allows
  | b :: l' =>
      if negb (covers rt name b && concerns norm_principal host op b)
      then evaluate rt name norm_principal host op matched_allows l'
      else if decide (ab_permission_type b = PermDeny) then false
      else evaluate rt name norm_principal host op
             (if decide (ab_permission_type b = PermAllow) then true else matched_allows) l'
  end.

Definition authorize (principal host : string) (rt : AclResourceType) (name : string) (op : AclOperation)
    (a : AclAuthorizer) : bool :=
  if negb (acl_enabled a) then true else
  let norm_principal := normalize principal in
  if bool_decide (norm_principal ∈ acl_super_users a) || bool_decide (principal ∈ acl_super_users a)
  then true else
  if negb (existsb (covers rt name) (acl_bindings a)) then acl_allow_everyone a
  else evaluate rt name norm_principal host op false (acl_bindings a).

(** One iteration of [create_acls]. *)
Definition create_acl (c : AclCreation) (l : list AclBinding) : AclCreationResult * list AclBinding :=
  let res_type := resource_type_from_i8 (ac_resource_type c) in
  let pattern_type := pattern_type_from_i8 (ac_resource_pattern_type c) in
  let operation := operation_from_i8 (ac_operation c) in
  let permission := permission_from_i8 (ac_permission_type c) in
  if decide (res_type = RtUnknown ∨ pattern_type = PtUnknown ∨ operation = OpUnknown
             ∨ permission = PermUnknown)
  then (mkAclResult E_InvalidRequest (Some "Invalid ACL creation parameters"), l)
  else
    let binding := mkBinding res_type (ac_resource_name c) pattern_type (normalize (ac_principal c))
                     (if decide (ac_host c = "") then "*" else ac_host c) operation permission in
    (mkAclResult E_None None, if decide (binding ∈ l) then l else l ++ [binding]).

Fixpoint create_acls_loop (cs : list AclCreation) (l : list AclBinding)
    : list AclCreationResult * list AclBinding :=
  match cs with
  | [] => ([], l)
  | c :: cs' =>
      let '(r, l) := create_acl c l in
      let '(rs, l) := create_acls_loop cs' l in
      (r :: rs, l)
  end.

Definition create_acls (cs : list AclCreation) (a : AclAuthorizer) : list AclCreationResult * AclAuthorizer :=
  let '(rs, l) := create_acls_loop cs (acl_bindings a) in (rs, set_bindings l a).

(** ** Filters, shared by description and deletion *)
Definition name_matches (f : AclFilter) (b : AclBinding) : bool :=
  match af_resource_name f with
  | None => true
  | Some name =>
      match af_pattern_type f with
      | 1 | 2 => bool_decide (ab_resource_name b = name) || String.prefix (ab_resource_name b) name
                 || bool_decide (ab_resource_name b = "*")
      | 3 => bool_decide (ab_resource_name b = name)
      | 4 => String.prefix (ab_resource_name b) name
      | _ => bool_decide (ab_resource_name b = name)
      end
  end.

Definition principal_matches (f : AclFilter) (b : AclBinding) : bool :=
  match af_principal f with
  | None => true
  | Some p =>
      let norm := if negb (has_colon p) && negb (bool_decide (p = "*")) then "User:" +:+ p else p in
      bool_decide (p = "*") || bool_decide (ab_principal b = norm) || bool_decide (ab_principal b = p)
  end.

Definition host_matches (f : AclFilter) (b : AclBinding) : bool :=
  match af_host f with
  | None => true
  | Some h => bool_decide (h = "*") || bool_decide (ab_host b = h)
  end.

Definition filter_matches (f : AclFilter) (b : AclBinding) : bool :=
  (bool_decide (af_resource_type f = 1) || bool_decide (resource_type_code (ab_resource_type b) = af_resource_type f))
  && name_matches f b && principal_matches f b && host_matches f b
  && (bool_decide (af_operation f = 1) || bool_decide (operation_code (ab_operation b) = af_operation f))
  && (bool_decide (af_permission_type f = 1)
      || bool_decide (permission_code (ab_permission_type b) = af_permission_type f)).

Definition matching_acl (b : AclBinding) : DeleteAclsMatchingAcl :=
  mkMatching E_None None (resource_type_code (ab_resource_type b)) (ab_resource_name b)
    (pattern_type_code (ab_pattern_type b)) (ab_principal b) (ab_host b)
    (operation_code (ab_operation b)) (permission_code (ab_permission_type b)).

(** [bindings.retain(..)]: the bindings kept, and the answer for the removed. *)
Definition delete_acl (f : AclFilter) (l : list AclBinding) : DeleteAclsFilterResult * list AclBinding :=
  (mkFilterResult E_None None (matching_acl <$> filter (λ b, filter_matches f b = true) l),
   filter (λ b, filter_matches f b = false) l).

Fixpoint delete_acls_loop (fs : list AclFilter) (l : list AclBinding)
    : list DeleteAclsFilterResult * list AclBinding :=
  match fs with
  | [] => ([], l)
  | f :: fs' =>
      let '(r, l) := delete_acl f l in
      let '(rs, l) := delete_acls_loop fs' l in
      (r :: rs, l)
  end.

Definition delete_acls (fs : list AclFilter) (a : AclAuthorizer) : list DeleteAclsFilterResult * AclAuthorizer :=
  let '(rs, l) := delete_acls_loop fs (acl_bindings a) in (rs, set_bindings l a).

Section describe.
Context `{HO : HashOrder}.

Definition acl_key (b : AclBinding) : Z * string * Z :=
  (resource_type_code (ab_resource_type b), ab_resource_name b, pattern_type_code (ab_pattern_type b)).
Definition acl_desc (b : AclBinding) : AclDescription :=
  mkAclDesc (ab_principal b) (ab_host b) (operation_code (ab_operation b)) (permission_code (ab_permission_type b)).

(** [grouped.entry(key).or_default().push(..)] *)
Definition group_acl (m : gmap (Z * string * Z) (list AclDescription)) (b : AclBinding)
    : gmap (Z * string * Z) (list AclDescription) :=
  <[acl_key b := default [] (m !! acl_key b) ++ [acl_desc b]]> m.

Definition describe_acls (f : AclFilter) (a : AclAuthorizer) : list DescribeAclsResource :=
  let grouped := foldl group_acl ∅ (filter (λ b, filter_matches f b = true) (acl_bindings a)) in
  (λ kv : (Z * string * Z) * list AclDescription, mkAclResource kv.1.1.1 kv.1.1.2 kv.1.2 kv.2)
    <$> hash_iter grouped.
End describe.

(** ** Lemmas *)

(** A binding that decides about a request. *)
Definition applies (rt : AclResourceType) (name principal host : string) (op : AclOperation)
    (b : AclBinding) : bool :=
  covers rt name b && concerns (normalize principal) host op b.

Lemma evaluate_spec rt name p host op m l :
  evaluate rt name p host op m l = true ↔
  (∀ b, b ∈ l → covers rt name b && concerns p host op b = true → ab_permission_type b ≠ PermDeny)
  ∧ (m = true ∨ ∃ b, b ∈ l ∧ covers rt name b && concerns p host op b = true ∧ ab_permission_type b = PermAllow).
Proof.
  revert m. induction l as [|b l IH]; intros m; cbn [evaluate].
  { split; [set_solver|]. intros [_ [?|(b & Hb & _)]]; [done|set_solver]. }
  destruct (covers rt name b && concerns p host op b) eqn:Hb; cbn [negb].
  - destruct (decide (ab_permission_type b = PermDeny)) as [Hd|Hd].
    + split; [done|]. intros [H _]. by destruct (H b ltac:(set_solver) Hb).
    + rewrite IH. split.
      * intros [H1 H2]. split; [intros b' [->|Hb']%elem_of_cons; auto|].
        destruct (decide (ab_permission_type b = PermAllow)) as [Ha|Ha]; [right; exists b; set_solver|].
        destruct H2 as [?|(b' & ? & ?)]; [by left|right; exists b'; set_solver].
      * intros [H1 H2]. split; [set_solver|].
        destruct (decide (ab_permission_type b = PermAllow)) as [Ha|Ha]; [by left|].
        destruct H2 as [?|(b' & [->|Hb']%elem_of_cons & Hc & Hp)]; [by left|done|right; eauto].
  - rewrite IH. split.
    + intros [H1 H2]. split; [intros b' [->|Hb']%elem_of_cons; [congruence|auto]|].
      destruct H2 as [?|(b' & ? & ?)]; [by left|right; exists b'; set_solver].
    + intros [H1 H2]. split; [set_solver|].
      destruct H2 as [?|(b' & [->|Hb']%elem_of_cons & Hc & Hp)]; [by left|congruence|right; eauto].
Qed.

Lemma existsb_elem {A} (f : A → bool) l : existsb f l = true ↔ ∃ x, x ∈ l ∧ f x = true.
Proof. rewrite existsb_exists. by setoid_rewrite <- list_elem_of_In. Qed.

Lemma delete_acls_loop_spec fs l :
  (delete_acls_loop fs l).2 = filter (λ b, Forall (λ f, filter_matches f b = false) fs) l.
Proof.
  revert l. induction fs as [|f fs IH]; intros l; cbn [delete_acls_loop].
  { cbn [snd]. induction l as [|b l IH]; [done|]. rewrite filter_cons, decide_True by constructor. by rewrite <- IH. }
  cbn [delete_acl]. specialize (IH (filter (λ b, filter_matches f b = false) l)).
  destruct (delete_acls_loop fs _) as [rs l']. cbn [snd] in *. rewrite IH, list_filter_filter.
  apply list_filter_iff. intros b. rewrite Forall_cons. tauto.
Qed.

Lemma create_acl_NoDup c l : NoDup l → NoDup (create_acl c l).2.
Proof.
  intros Hl. unfold create_acl. destruct (decide (_ ∨ _)); [done|]. cbn [snd].
  destruct (decide (_ ∈ l)); [done|]. apply NoDup_app. split_and!; [done|set_solver|apply NoDup_singleton].
Qed.

Lemma create_acl_elem c l b : b ∈ l → b ∈ (create_acl c l).2.
Proof.
  intros Hb. unfold create_acl. destruct (decide (_ ∨ _)); [done|]. cbn [snd].
  destruct (decide (_ ∈ l)); [done|]. set_solver.
Qed.

Lemma create_acls_loop_NoDup cs l : NoDup l → NoDup (create_acls_loop cs l).2.
Proof.
  revert l. induction cs as [|c cs IH]; intros l Hl; cbn [create_acls_loop]; [done|].
  pose proof (create_acl_NoDup c l Hl) as Hl'. destruct (create_acl c l) as [r l'].
  specialize (IH l' Hl'). by destruct (create_acls_loop cs l').
Qed.

(** ** Properties *)

(** C35: The authorization decision.  With ACLs enabled, a request is allowed
    exactly when its principal is a super user, or no binding covers the resource
    and the broker is set to allow everyone then, or some binding that applies to
    the request allows it and no binding that applies to it denies it: a deny wins
    over any number of allows, wherever it stands in the list, and the order of
    the bindings is irrelevant. *)
Theorem authorize_spec principal host rt name op a : acl_enabled a = true →
  authorize principal host rt name op a = true ↔
    (normalize principal ∈ acl_super_users a ∨ principal ∈ acl_super_users a)
    ∨ (Forall (λ b, covers rt name b = false) (acl_bindings a) ∧ acl_allow_everyone a = true)
    ∨ (∃ b, b ∈ acl_bindings a ∧ applies rt name principal host op b = true
            ∧ ab_permission_type b = PermAllow)
      ∧ ∀ b, b ∈ acl_bindings a → applies rt name principal host op b = true →
             ab_permission_type b ≠ PermDeny.
Proof.
  intros He. unfold authorize. rewrite He. cbn [negb].
  destruct (bool_decide (normalize principal ∈ acl_super_users a)
            || bool_decide (principal ∈ acl_super_users a)) eqn:Hs.
  { rewrite orb_true_iff, !bool_decide_eq_true in Hs. tauto. }
  rewrite orb_false_iff, !bool_decide_eq_false in Hs.
  destruct (existsb (covers rt name) (acl_bindings a)) eqn:Hc; cbn [negb].
  - apply existsb_elem in Hc as (b & Hb & Hcov). rewrite evaluate_spec. unfold applies.
    assert (¬ Forall (λ b, covers rt name b = false) (acl_bindings a)) as Hn.
    { rewrite Forall_forall. intros H. rewrite (H b Hb) in Hcov. done. }
    assert (false ≠ true) by done. tauto.
  - assert (Forall (λ b, covers rt name b = false) (acl_bindings a)) as Hall.
    { apply Forall_forall. intros b Hb. destruct (covers rt name b) eqn:E; [|done].
      rewrite <- Hc. symmetry. apply existsb_elem. eauto. }
    split; [tauto|]. intros [?|[[_ ?]|[(b & Hb & Happ & _) _]]]; [tauto|done|].
    rewrite Forall_forall in Hall. unfold applies in Happ. rewrite (Hall b Hb) in Happ. done.
Qed.

(** Deletion is exact.  [DeleteAcls] removes precisely the bindings that
    match one of the filters, keeps all others in order, and the bindings of a
    broker never contain duplicates however they were created and deleted. *)
Theorem delete_acls_exact fs a : NoDup (acl_bindings a) →
  let '(rs, a') := delete_acls fs a in
  acl_bindings a' = filter (λ b, Forall (λ f, filter_matches f b = false) fs) (acl_bindings a)
  ∧ NoDup (acl_bindings a')
  ∧ ∀ cs, NoDup (acl_bindings (create_acls cs a').2).
Proof.
  intros Hnd. unfold delete_acls. pose proof (delete_acls_loop_spec fs (acl_bindings a)) as Hl.
  destruct (delete_acls_loop fs (acl_bindings a)) as [rs l]. cbn [snd] in Hl. cbn.
  assert (NoDup l) as Hl' by (rewrite Hl; by apply NoDup_filter). split_and!; [done..|].
  intros cs. unfold create_acls. pose proof (create_acls_loop_NoDup cs l Hl') as H. cbn.
  by destruct (create_acls_loop cs l).
Qed.

(** ** Witnesses *)
Definition demo_acls : AclAuthorizer :=
  (create_acls [mkAclCreation 2 "orders" 4 "*" "" 3 3; mkAclCreation 2 "orders-eu" 3 "eve" "" 2 2]
     (authorizer_new true {["admin"]} false)).2.

Lemma authorize_spec_witness :
  (authorize "bob" "10.0.0.1" RtTopic "orders-eu" OpRead demo_acls = true ∧
   authorize "eve" "10.0.0.1" RtTopic "orders-eu" OpRead demo_acls = false) ∧
  (authorize "bob" "10.0.0.1" RtTopic "orders-eu" OpRead demo_acls = true ↔
    (normalize "bob" ∈ acl_super_users demo_acls ∨ "bob"%string ∈ acl_super_users demo_acls)
    ∨ (Forall (λ b, covers RtTopic "orders-eu" b = false) (acl_bindings demo_acls)
       ∧ acl_allow_everyone demo_acls = true)
    ∨ (∃ b, b ∈ acl_bindings demo_acls ∧ applies RtTopic "orders-eu" "bob" "10.0.0.1" OpRead b = true
            ∧ ab_permission_type b = PermAllow)
      ∧ ∀ b, b ∈ acl_bindings demo_acls → applies RtTopic "orders-eu" "bob" "10.0.0.1" OpRead b = true →
             ab_permission_type b ≠ PermDeny).
Proof.
  split; [split; vm_compute; reflexivity|].
  exact (authorize_spec "bob" "10.0.0.1" RtTopic "orders-eu" OpRead demo_acls eq_refl).
Defined.

Lemma delete_acls_exact_witness :
  let '(rs, a') := delete_acls [mkAclFilter 2 (Some "orders-eu"%string) 3 None None 1 1] demo_acls in
  acl_bindings a' = filter (λ b, Forall (λ f, filter_matches f b = false)
    [mkAclFilter 2 (Some "orders-eu"%string) 3 None None 1 1]) (acl_bindings demo_acls)
  ∧ NoDup (acl_bindings a') ∧ ∀ cs, NoDup (acl_bindings (create_acls cs a').2).
Proof.
  apply (delete_acls_exact [mkAclFilter 2 (Some "orders-eu"%string) 3 None None 1 1] demo_acls).
  apply (bool_decide_unpack _). vm_compute. exact I.
Defined.

(** ** What modelling showed *)

(** The pattern type of a filter is not compared with the binding's: deleting the
    LITERAL binding of "orders" also deletes a PREFIXED one of that name, here a
    deny that protected everything under it. *)
Theorem literal_filter_deletes_prefixed_deny :
  let a := (create_acls [mkAclCreation 2 "orders" 4 "eve" "" 2 2] (authorizer_new true ∅ true)).2 in
  let a' := (delete_acls [mkAclFilter 2 (Some "orders"%string) 3 None None 1 1] a).2 in
  authorize "eve" "h" RtTopic "orders-eu" OpRead a = false
  ∧ authorize "eve" "h" RtTopic "orders-eu" OpRead a' = true.
Proof. vm_compute. split; reflexivity. Qed.
