(* ===== verification/State.v ===== *)
(** * Cluster snapshots

    [crates/oxidemq-broker/src/state.rs], with the [dump_*] methods of
    [router.rs] and [coordinator.rs]: capturing the partitions and the committed
    offsets of a broker and applying them to one. *)

From Stdlib Require Import Strings.Ascii.
From stdpp Require Import base numbers list strings sets gmap pretty.
From S2P Require Import Prelude Bytes CoreTypes WalSegment KafkaWire MessageTypes.
From S2P Require Import Wal LogCache BlockCache ObjectStore Stream Partition Cluster Group.

Record PartitionSnapshot := mkPSnap {
  ps_topic : string; ps_partition : Z; ps_stream_id : Z;
  ps_high_watermark : Z; ps_log_start_offset : Z }.

Record ConsumerGroupSnapshot := mkGSnap {
  gs_group_id : string; gs_state : string; gs_generation_id : Z;
  gs_leader_id : option string; gs_offsets : gmap string Z }.

Record ClusterStateSnapshot := mkSnap {
  sn_node_id : Z; sn_cluster_id : string; sn_partitions : list PartitionSnapshot;
  sn_consumer_groups : list ConsumerGroupSnapshot; sn_timestamp_ms : Z }.

(** [format!("{}:{}", tp.topic, tp.partition)] *)
Definition tp_key (tp : TopicPartition) : string := tp_topic tp +:+ ":" +:+ dec (tp_partition tp).

(** [s.split(':')] *)
Fixpoint split_colon (s : string) : list string :=
  match s with
  | EmptyString => [""]
  | String c s' =>
      if decide (c = ":"%char) then "" :: split_colon s'
      else match split_colon s' with
           | h :: t => String c h :: t
           | [] => [String c ""]
           end
  end.

(** [str::parse::<i32>] *)
Definition check_i32 (z : Z) : option Z := if decide (in_s 32 z) then Some z else None.
Definition parse_nat (s : string) : option Z :=
  match s with EmptyString => None | _ => parse_digits 0 s end.
Definition parse_i32 (s : string) : option Z :=
  match s with
  | String "+"%char s' => n ← parse_nat s'; check_i32 n
  | String "-"%char s' => n ← parse_nat s'; check_i32 (- n)
  | _ => n ← parse_nat s; check_i32 n
  end.

Section ops.
Context `{HO : HashOrder}.

Definition dump_partition_snapshots (c : ClusterState) : list PartitionSnapshot :=
  (λ kv : TopicPartition * Partition,
     mkPSnap (tp_topic kv.1) (tp_partition kv.1) (s_stream_id (stream kv.2))
       (high_watermark kv.2) (log_start_offset kv.2)) <$> hash_iter (cs_partitions c).

Definition put_key (acc : gmap string Z) (kv : TopicPartition * Z) : gmap string Z :=
  <[tp_key kv.1 := kv.2]> acc.

Definition dump_offsets (m : gmap TopicPartition Z) : gmap string Z := foldl put_key ∅ (hash_iter m).

Definition dump_group_snapshots (g : GroupCoordinator) : list ConsumerGroupSnapshot :=
  (λ kv : string * ConsumerGroup,
     mkGSnap kv.1 (state_str (cg_state kv.2)) (cg_generation_id kv.2) (cg_leader_id kv.2)
       (dump_offsets (cg_offsets kv.2))) <$> hash_iter (groups g).

Definition capture (now : Z) (c : ClusterState) (g : GroupCoordinator) : ClusterStateSnapshot :=
  mkSnap (cs_node_id c) (cs_cluster_id c) (dump_partition_snapshots c) (dump_group_snapshots g) now.

Definition apply_offset (gid : string) (g : GroupCoordinator) (kv : string * Z) : GroupCoordinator :=
  match split_colon kv.1 with
  | [topic; part] =>
      match parse_i32 part with
      | Some part_num => commit_offset gid (mkTP topic part_num) kv.2 g
      | None => g
      end
  | _ => g
  end.

Definition apply_group (g : GroupCoordinator) (s : ConsumerGroupSnapshot) : GroupCoordinator :=
  foldl (apply_offset (gs_group_id s)) g (hash_iter (gs_offsets s)).

Definition apply_partition (c : ClusterState) (s : PartitionSnapshot) : ClusterState :=
  (get_or_create_partition (mkTP (ps_topic s) (ps_partition s)) c).2.

Definition apply_snapshot (s : ClusterStateSnapshot) (c : ClusterState) (g : GroupCoordinator)
    : ClusterState * GroupCoordinator :=
  let c := Cluster.reset c in
  let g := groups_reset g in
  (foldl apply_partition c (sn_partitions s), foldl apply_group g (sn_consumer_groups s)).
End ops.

(** ** Lemmas: keys *)
Fixpoint colon_free (s : string) : bool :=
  match s with
  | EmptyString => true
  | String c s' => negb (bool_decide (c = ":"%char)) && colon_free s'
  end.

Lemma split_colon_free s : colon_free s = true → split_colon s = [s].
Proof.
  induction s as [|c s IH]; [done|]. cbn. intros [Hc Hs]%andb_true_iff.
  apply negb_true_iff, bool_decide_eq_false in Hc. rewrite decide_False by done. by rewrite IH.
Qed.

Lemma split_colon_app t p : colon_free t = true → split_colon (t +:+ ":" +:+ p) = t :: split_colon p.
Proof.
  induction t as [|c t IH]; [done|]. cbn [colon_free]. intros [Hc Ht]%andb_true_iff.
  apply negb_true_iff, bool_decide_eq_false in Hc.
  change (String c t +:+ ":" +:+ p) with (String c (t +:+ ":" +:+ p)).
  cbn [split_colon]. rewrite decide_False by done. by rewrite IH.
Qed.

Lemma split_colon_nonempty s : split_colon s ≠ [].
Proof. destruct s as [|c s]; cbn; [done|]. case_decide; [done|]. by destruct (split_colon s). Qed.

Lemma split_colon_two s p : (2 ≤ length (split_colon (s +:+ ":" +:+ p)))%nat.
Proof.
  induction s as [|c s IH].
  - change ("" +:+ ":" +:+ p) with (String ":"%char p). cbn [split_colon]. rewrite decide_True by done.
    destruct (split_colon p) eqn:E; [by apply split_colon_nonempty in E|cbn [length]; lia].
  - change (String c s +:+ ":" +:+ p) with (String c (s +:+ ":" +:+ p)). cbn [split_colon].
    destruct (decide (c = ":"%char)); [cbn [length]; lia|].
    destruct (split_colon (s +:+ ":" +:+ p)); cbn [length] in *; lia.
Qed.

(** A topic that contains a colon gives at least three parts. *)
Lemma split_colon_many t p : colon_free t = false → (3 ≤ length (split_colon (t +:+ ":" +:+ p)))%nat.
Proof.
  induction t as [|c t IH]; [done|]. cbn [colon_free]. intros Hc.
  change (String c t +:+ ":" +:+ p) with (String c (t +:+ ":" +:+ p)). cbn [split_colon].
  destruct (decide (c = ":"%char)) as [->|Hne].
  - cbn [length]. pose proof (split_colon_two t p). lia.
  - rewrite bool_decide_eq_false_2 in Hc by done. cbn in Hc. specialize (IH Hc).
    destruct (split_colon (t +:+ ":" +:+ p)); cbn [length] in *; lia.
Qed.

Lemma digits_chars s acc v : parse_digits acc s = Some v →
  colon_free s = true ∧ ∀ s', s ≠ String "+"%char s' ∧ s ≠ String "-"%char s'.
Proof.
  revert acc. induction s as [|c s IH]; intros acc; [done|]. cbn [parse_digits].
  destruct (digit c) as [d|] eqn:Hd; [|done]. cbn [mbind option_bind]. case_decide; [|done]. intros Hp.
  apply IH in Hp as [Hc _]. cbn. rewrite Hc, andb_true_r. split.
  - apply negb_true_iff, bool_decide_eq_false. intros ->. vm_compute in Hd. discriminate.
  - intros s'. split; intros [= -> _]; vm_compute in Hd; discriminate.
Qed.

Lemma parse_i32_dec z : in_s 32 z → parse_i32 (dec z) = Some z ∧ colon_free (dec z) = true.
Proof.
  intros Hz. pose proof Hz as [H1 H2]. change (32 - 1) with 31 in *.
  assert (∀ n, 0 ≤ n < 2 ^ 64 → parse_digits 0 (dec n) = Some n) as Hd by (intros; by apply parse_digits_dec).
  assert (∀ n, 0 ≤ n < 2 ^ 64 → parse_nat (dec n) = Some n) as Hn.
  { intros n Hn. specialize (Hd n Hn). destruct (dec n) eqn:E; [|done].
    exfalso. rewrite dec_nonneg in E by lia. unfold pretty, pretty_N in E. case_decide; [done|].
    pose proof (parse_digits_dec n Hn) as Hp. rewrite dec_nonneg in Hp by lia.
    unfold pretty, pretty_N in Hp. rewrite decide_False in Hp by done. rewrite E in Hp. injection Hp as Hp. lia. }
  destruct (decide (0 ≤ z)).
  - assert (0 ≤ z < 2 ^ 64) as Hr by lia. destruct (digits_chars _ _ _ (Hd z Hr)) as [Hc Hp].
    split; [|done]. unfold parse_i32. specialize (Hn z Hr).
    destruct (dec z) as [|c s] eqn:E; [done|].
    destruct (decide (c = "+"%char)) as [->|]; [by destruct (Hp s) as [[] _]|].
    destruct (decide (c = "-"%char)) as [->|]; [by destruct (Hp s) as [_ []]|].
    repeat case_match; simplify_eq; rewrite Hn; cbn; unfold check_i32; by rewrite decide_True.
  - assert (dec z = String "-"%char (dec (- z))) as E by (unfold dec; by destruct z).
    assert (0 ≤ - z < 2 ^ 64) as Hr by lia. destruct (digits_chars _ _ _ (Hd _ Hr)) as [Hc _].
    rewrite E. split; [|cbn; by rewrite Hc]. cbn [parse_i32]. rewrite Hn by done. cbn.
    rewrite Z.opp_involutive. unfold check_i32. by rewrite decide_True.
Qed.

(** What a key of the snapshot is read back as. *)
Definition key_tp (s : string) : option TopicPartition :=
  match split_colon s with
  | [topic; part] => mkTP topic <$> parse_i32 part
  | _ => None
  end.

Lemma key_tp_key tp : in_s 32 (tp_partition tp) →
  key_tp (tp_key tp) = if colon_free (tp_topic tp) then Some tp else None.
Proof.
  intros Hp. destruct (parse_i32_dec _ Hp) as [Hd Hc]. unfold key_tp, tp_key.
  destruct (colon_free (tp_topic tp)) eqn:Ht.
  - rewrite split_colon_app, split_colon_free, Hd by done. by destruct tp.
  - pose proof (split_colon_many (tp_topic tp) (dec (tp_partition tp)) Ht).
    destruct (split_colon _) as [|? [|? [|? ?]]]; cbn in *; (lia || done).
Qed.

Section lemmas.
Context `{HO : HashOrder}.

Lemma apply_offset_eq gid g kv : apply_offset gid g kv =
  match key_tp kv.1 with Some tp => commit_offset gid tp kv.2 g | None => g end.
Proof.
  unfold apply_offset, key_tp. destruct (split_colon kv.1) as [|? [|? [|? ?]]]; [done..| |done].
  by destruct (parse_i32 _).
Qed.

Lemma fetch_commit gid tp o g gid' tp' : fetch_offset gid' tp' (commit_offset gid tp o g) =
  if decide (gid = gid' ∧ tp = tp') then Some o else fetch_offset gid' tp' g.
Proof.
  unfold commit_offset. rewrite fetch_put_group. cbn.
  destruct (decide (gid = gid')) as [->|Hne]; [|by rewrite decide_False by tauto].
  destruct (decide (tp = tp')) as [->|Hne'].
  - by rewrite lookup_insert_eq, decide_True.
  - rewrite lookup_insert_ne, decide_False by tauto. apply entry_offsets.
Qed.

(** The entries of a group's snapshot, read back. *)
Definition reads (l : list (string * Z)) (tp : TopicPartition) (o : Z) : Prop :=
  ∃ s, (s, o) ∈ l ∧ key_tp s = Some tp.

Lemma apply_offsets_other gid l g gid' tp : gid ≠ gid' →
  fetch_offset gid' tp (foldl (apply_offset gid) g l) = fetch_offset gid' tp g.
Proof.
  intros Hne. revert g. induction l as [|kv l IH]; intros g; [done|]. cbn [foldl]. rewrite IH, apply_offset_eq.
  destruct (key_tp kv.1); [|done]. rewrite fetch_commit. by rewrite decide_False by tauto.
Qed.

Lemma apply_offsets_fetch gid l g tp :
  (∀ o, reads l tp o → fetch_offset gid tp (foldl (apply_offset gid) g l) = Some o ∨ ∃ o', reads l tp o' ∧ o' ≠ o)
  ∧ ((∀ o, ¬ reads l tp o) → fetch_offset gid tp (foldl (apply_offset gid) g l) = fetch_offset gid tp g).
Proof.
  revert g. induction l as [|[s x] l IH]; intros g.
  { split; [|done]. intros o (s & Hs & _). by apply elem_of_nil in Hs. }
  cbn [foldl]. destruct (IH (apply_offset gid g (s, x))) as [IH1 IH2]. split.
  - intros o (s' & Hs' & Hk). apply elem_of_cons in Hs' as [[= -> ->]|Hs'].
    + destruct (decide (Exists (λ kv, key_tp kv.1 = Some tp) l)) as [Hex|Hno].
      * apply Exists_exists in Hex as ([s2 o2] & Hin & Hk2). cbn in Hk2.
        destruct (IH1 o2) as [Hf|(o3 & (s3 & ? & ?) & ?)]; [by exists s2| |].
        -- destruct (decide (o2 = x)) as [->|Hne]; [by left|]. right. exists o2.
           split; [|done]. exists s2. split; [by right|done].
        -- destruct (decide (o3 = x)) as [->|Hne].
           ++ destruct (decide (o2 = x)) as [->|]; [done|]. right. exists o2. split; [|done].
              exists s2. split; [by right|done].
           ++ right. exists o3. split; [|done]. exists s3. split; [by right|done].
      * left. rewrite IH2.
        -- rewrite apply_offset_eq. cbn. rewrite Hk, fetch_commit. by rewrite decide_True.
        -- intros o' (s2 & Hin & Hk2). apply Hno, Exists_exists. by exists (s2, o').
    + destruct (IH1 o) as [?|(o' & (s2 & ? & ?) & ?)]; [by exists s'|by left|].
      right. exists o'. split; [|done]. exists s2. split; [by right|done].
  - intros Hno. rewrite IH2.
    + rewrite apply_offset_eq. cbn. destruct (key_tp s) as [tp'|] eqn:Hk; [|done]. rewrite fetch_commit.
      rewrite decide_False; [done|]. intros [_ ->]. apply (Hno x). exists s. split; [by left|done].
    + intros o (s' & Hin & Hk). apply (Hno o). exists s'. split; [by right|done].
Qed.

Lemma put_keys_src l acc s x : foldl put_key acc l !! s = Some x →
  (∃ t, (t, x) ∈ l ∧ tp_key t = s) ∨ acc !! s = Some x.
Proof.
  revert acc. induction l as [|[t y] l IH]; intros acc; [by right|]. cbn [foldl].
  intros [(t' & ? & ?)|H]%IH; [left; exists t'; split; [by right|done]|].
  unfold put_key in H. cbn in H. apply lookup_insert_Some in H as [[<- <-]|[_ H]]; [|by right].
  left. exists t. split; [by left|done].
Qed.

Lemma put_keys_keep l acc s : is_Some (acc !! s) → is_Some (foldl put_key acc l !! s).
Proof.
  revert acc. induction l as [|[u v] l IH]; intros acc Ha; [done|]. cbn [foldl]. apply IH.
  unfold put_key. cbn. destruct (decide (tp_key u = s)) as [->|];
    [by rewrite lookup_insert_eq|by rewrite lookup_insert_ne].
Qed.

Lemma put_keys_dst l acc t x : NoDup l.*1 → (t, x) ∈ l →
  (∀ t' y, (t', y) ∈ l → tp_key t' = tp_key t → t' = t) → foldl put_key acc l !! tp_key t = Some x.
Proof.
  revert acc. induction l as [|[t' y] l IH]; intros acc Hnd Hin Hinj; [by apply elem_of_nil in Hin|].
  cbn [fmap list_fmap fst] in Hnd. apply NoDup_cons in Hnd as [Hnin Hnd].
  cbn [foldl]. apply elem_of_cons in Hin as [[= <- <-]|Hin].
  - destruct (put_keys_keep l (put_key acc (t, x)) (tp_key t)) as [z Hz];
      [unfold put_key; cbn; by rewrite lookup_insert_eq|].
    rewrite Hz. apply put_keys_src in Hz as [(t2 & Hin2 & Hk2)|Hz].
    + assert (t2 = t) as -> by (apply (Hinj t2 z); [by right|done]).
      exfalso. apply Hnin. apply list_elem_of_fmap. by exists (t, z).
    + unfold put_key in Hz. cbn in Hz. by rewrite lookup_insert_eq in Hz.
  - apply IH; [done|done|]. intros u v Hu Hk. apply (Hinj u v); [by right|done].
Qed.

Lemma dump_offsets_spec m tp o : (∀ tp o, m !! tp = Some o → in_s 32 (tp_partition tp)) →
  (reads (hash_iter (dump_offsets m)) tp o ↔ m !! tp = Some o ∧ colon_free (tp_topic tp) = true).
Proof.
  intros Hi. unfold reads, dump_offsets. setoid_rewrite elem_of_hash_iter. split.
  - intros (s & Hs & Hk). apply put_keys_src in Hs as [(t & Hin & <-)|Hs]; [|done].
    apply elem_of_hash_iter in Hin. rewrite key_tp_key in Hk by (by eapply Hi).
    by destruct (colon_free (tp_topic t)) eqn:Hc; simplify_eq.
  - intros [Hm Hc]. exists (tp_key tp). split.
    + apply put_keys_dst; [apply NoDup_fst_hash_iter|by apply elem_of_hash_iter|].
      intros t' y Hin Hk. apply elem_of_hash_iter in Hin. apply (f_equal key_tp) in Hk.
      rewrite !key_tp_key, Hc in Hk by (by eapply Hi).
      by destruct (colon_free (tp_topic t')); simplify_eq.
    + by rewrite key_tp_key, Hc by (by eapply Hi).
Qed.

Lemma apply_groups_other snaps g gid tp : gid ∉ gs_group_id <$> snaps →
  fetch_offset gid tp (foldl apply_group g snaps) = fetch_offset gid tp g.
Proof.
  revert g. induction snaps as [|s snaps IH]; intros g Hn; [done|]. cbn [foldl].
  rewrite IH by set_solver. unfold apply_group. apply apply_offsets_other. set_solver.
Qed.

Lemma apply_groups_fetch snaps g gid tp s : NoDup (gs_group_id <$> snaps) → s ∈ snaps →
  gs_group_id s = gid → fetch_offset gid tp g = None →
  fetch_offset gid tp (foldl apply_group g snaps)
    = fetch_offset gid tp (foldl (apply_offset gid) (mkGroups ∅ 0) (hash_iter (gs_offsets s)))
  ∨ ∃ o o', reads (hash_iter (gs_offsets s)) tp o ∧ reads (hash_iter (gs_offsets s)) tp o' ∧ o ≠ o'.
Proof.
  revert g. induction snaps as [|s' snaps IH]; intros g Hnd Hin Hgid Hnone; [by apply elem_of_nil in Hin|].
  rewrite fmap_cons in Hnd. apply NoDup_cons in Hnd as [Hnin Hnd]. cbn [foldl].
  apply elem_of_cons in Hin as [<-|Hin].
  - rewrite apply_groups_other by (by rewrite <- Hgid). unfold apply_group. rewrite Hgid.
    destruct (apply_offsets_fetch gid (hash_iter (gs_offsets s)) g tp) as [H1 H2].
    destruct (apply_offsets_fetch gid (hash_iter (gs_offsets s)) (mkGroups ∅ 0) tp) as [H3 H4].
    destruct (decide (Exists (λ kv, key_tp kv.1 = Some tp) (hash_iter (gs_offsets s)))) as [Hex|Hno].
    + apply Exists_exists in Hex as ([k o] & Hk1 & Hk2).
      assert (reads (hash_iter (gs_offsets s)) tp o) as Hr by (by exists k).
      destruct (H1 o Hr) as [->|(o' & ? & ?)]; [|right; eauto].
      destruct (H3 o Hr) as [->|(o' & ? & ?)]; [by left|right; eauto].
    + assert (∀ o, ¬ reads (hash_iter (gs_offsets s)) tp o) as Hn
        by (intros o (k & ? & ?); apply Hno, Exists_exists; by exists (k, o)).
      left. by rewrite H2, H4, Hnone by done.
  - apply IH; [done|done|done|]. unfold apply_group. rewrite apply_offsets_other; [done|].
    intros Heq. apply Hnin. rewrite Heq, <- Hgid. by apply list_elem_of_fmap_2.
Qed.
End lemmas.

Lemma apply_partitions_dom l c tp :
  is_Some (cs_partitions (foldl apply_partition c l) !! tp) ↔
  is_Some (cs_partitions c !! tp) ∨ tp ∈ (λ s, mkTP (ps_topic s) (ps_partition s)) <$> l.
Proof.
  revert c. induction l as [|s l IH]; intros c; [set_solver|]. cbn [foldl]. rewrite IH, fmap_cons, elem_of_cons.
  unfold apply_partition. set (t := mkTP _ _). destruct (decide (tp = t)) as [->|Hne].
  - unfold get_or_create_partition. destruct (cs_partitions c !! t) eqn:E; cbn; rewrite ?E, ?lookup_insert_eq; naive_solver.
  - rewrite get_or_create_other by done. naive_solver.
Qed.

(** Every partition is a new, empty one. *)
Definition fresh_partitions (c : ClusterState) : Prop :=
  ∀ tp p, cs_partitions c !! tp = Some p → ∃ sid, p = partition_new tp (stream_new sid 0).

Lemma apply_partitions_fresh l c : fresh_partitions c → fresh_partitions (foldl apply_partition c l).
Proof.
  revert c. induction l as [|s l IH]; intros c Hc; [done|]. apply IH. unfold apply_partition, get_or_create_partition.
  set (t := mkTP _ _). destruct (cs_partitions c !! t) as [q|] eqn:E; [done|]. intros tp p. cbn.
  rewrite lookup_insert_Some. intros [[<- <-]|[_ Hp]]; [by eexists|by apply Hc].
Qed.

(** Every group is a new one but for its committed offsets. *)
Definition fresh_groups (g : GroupCoordinator) : Prop :=
  ∀ gid cg, groups g !! gid = Some cg → ∃ offsets, cg = mkGroup gid GEmpty 0 None "" None ∅ offsets.

Lemma commit_offset_fresh gid tp o g : fresh_groups g → fresh_groups (commit_offset gid tp o g).
Proof.
  intros Hg gid' cg. unfold commit_offset, group_entry. cbn. rewrite lookup_insert_Some. intros [[<- <-]|[_ Hc]]; [|by apply Hg].
  destruct (groups g !! gid) as [cg|] eqn:E; cbn; [|by eexists]. destruct (Hg _ _ E) as [offs ->]. by eexists.
Qed.

Lemma apply_group_fresh `{HashOrder} s g : fresh_groups g → fresh_groups (apply_group g s).
Proof.
  unfold apply_group. revert g. induction (hash_iter (gs_offsets s)) as [|kv l IH]; intros g Hg; [done|]. apply IH.
  unfold apply_offset. destruct (split_colon kv.1) as [|t [|q [|? ?]]]; [done..| |done].
  destruct (parse_i32 q); [by apply commit_offset_fresh|done].
Qed.

Lemma apply_groups_fresh `{HashOrder} l g : fresh_groups g → fresh_groups (foldl apply_group g l).
Proof. revert g. induction l as [|s l IH]; intros g Hg; [done|]. by apply IH, apply_group_fresh. Qed.

(** ** Properties *)
Section theorems.
Context `{HO : HashOrder}.

(** C36: What a snapshot restores.  Applying the snapshot of one broker to another
    leaves the second with a partition for exactly the topics and partition
    numbers of the first, and with a consumer group's committed offset the first
    broker's for every topic whose name has no colon, whatever the hash orders of
    the tables (partition numbers are 32-bit).  It restores nothing else: each
    partition is a new one that starts at offset 0, although the snapshot has its
    high watermark and log start offset ([snapshot_loses_high_watermark]); each
    group is a new one, [Empty], in generation 0 and without members; and the
    offsets of a topic with a colon in its name are lost. *)
Theorem snapshot_roundtrip now c g c2 g2 :
  (∀ gid cg tp o, groups g !! gid = Some cg → cg_offsets cg !! tp = Some o → in_s 32 (tp_partition tp)) →
  let '(c', g') := apply_snapshot (capture now c g) c2 g2 in
  (∀ tp, is_Some (cs_partitions c' !! tp) ↔ is_Some (cs_partitions c !! tp))
  ∧ (∀ gid tp, fetch_offset gid tp g'
       = if colon_free (tp_topic tp) then fetch_offset gid tp g else None)
  ∧ (∀ tp p, cs_partitions c' !! tp = Some p → ∃ sid, p = partition_new tp (stream_new sid 0))
  ∧ (∀ gid cg, groups g' !! gid = Some cg → ∃ offsets, cg = mkGroup gid GEmpty 0 None "" None ∅ offsets).
Proof.
  intros Hi. unfold apply_snapshot, capture. cbn [sn_partitions sn_consumer_groups]. split_and!.
  3: { apply apply_partitions_fresh. intros tp p. cbn. by rewrite lookup_empty. }
  3: { apply apply_groups_fresh. intros gid cg. cbn. by rewrite lookup_empty. }
  - intros tp. rewrite apply_partitions_dom. cbn. unfold dump_partition_snapshots.
    rewrite <- list_fmap_compose, list_elem_of_fmap, lookup_empty. split.
    + intros [[? ?]|([t p] & -> & Hin)]; [done|]. apply elem_of_hash_iter in Hin. cbn. destruct t. by exists p.
    + intros [p Hp]. right. exists (tp, p). split; [by destruct tp|]. by apply elem_of_hash_iter.
  - intros gid tp.
    assert (fetch_offset gid tp (groups_reset g2) = None) as Hnone by (unfold fetch_offset; cbn; by rewrite lookup_empty).
    assert (NoDup (gs_group_id <$> dump_group_snapshots g)) as Hnd.
    { unfold dump_group_snapshots. rewrite <- list_fmap_compose. apply NoDup_fst_hash_iter. }
    destruct (groups g !! gid) as [cg|] eqn:Hg.
    + set (s := mkGSnap gid (state_str (cg_state cg)) (cg_generation_id cg) (cg_leader_id cg)
                  (dump_offsets (cg_offsets cg))).
      assert (s ∈ dump_group_snapshots g) as Hs.
      { apply list_elem_of_fmap. exists (gid, cg). split; [done|]. by apply elem_of_hash_iter. }
      pose proof (λ t o, dump_offsets_spec (cg_offsets cg) t o (λ t o, Hi gid cg t o Hg)) as Hd.
      assert (fetch_offset gid tp g = cg_offsets cg !! tp) as Hf by (unfold fetch_offset; by rewrite Hg).
      destruct (apply_groups_fetch _ (groups_reset g2) gid tp s Hnd Hs eq_refl Hnone) as [->|(o & o' & H1 & H2 & Hne)].
      2: { exfalso. apply Hne. apply Hd in H1 as [H1 _], H2 as [H2 _]. congruence. }
      rewrite Hf. destruct (apply_offsets_fetch gid (hash_iter (gs_offsets s)) (mkGroups ∅ 0) tp) as [H3 H4].
      destruct (cg_offsets cg !! tp) as [o|] eqn:Ho; destruct (colon_free (tp_topic tp)) eqn:Hc.
      * destruct (H3 o) as [->|(o' & Hr & Hne)]; [by apply Hd|done|]. apply Hd in Hr as [Hr _]. congruence.
      * rewrite H4; [done|]. intros o' Hr. apply Hd in Hr as [_ Hr]. congruence.
      * rewrite H4; [done|]. intros o' Hr. apply Hd in Hr as [Hr _]. congruence.
      * rewrite H4; [done|]. intros o' Hr. apply Hd in Hr as [_ Hr]. congruence.
    + rewrite apply_groups_other.
      * rewrite Hnone. unfold fetch_offset. rewrite Hg. by destruct (colon_free _).
      * unfold dump_group_snapshots. rewrite <- list_fmap_compose, list_elem_of_fmap.
        intros ([id cg] & -> & Hin). apply elem_of_hash_iter in Hin. cbn in Hg. congruence.
Qed.
End theorems.

(** ** Witnesses *)
Definition demo_offsets : GroupCoordinator :=
  commit_offset "g" (mkTP "orders" 0) 42 (commit_offset "g" (mkTP "a:b" 1) 7 coordinator_new).

Lemma snapshot_roundtrip_witness :
  let '(c', g') := apply_snapshot (capture 0 (get_or_create_partition (mkTP "orders" 0) demo_cluster).2 demo_offsets)
                     demo_cluster coordinator_new in
  fetch_offset "g" (mkTP "orders" 0) g' = Some 42
  ∧ (∀ tp, is_Some (cs_partitions c' !! tp)
       ↔ is_Some (cs_partitions (get_or_create_partition (mkTP "orders" 0) demo_cluster).2 !! tp)).
Proof.
  pose proof (snapshot_roundtrip 0 (get_or_create_partition (mkTP "orders" 0) demo_cluster).2 demo_offsets
    demo_cluster coordinator_new) as H.
  destruct (apply_snapshot _ _ _) as [c' g']. destruct H as (H1 & H2 & _).
  - intros gid cg tp o Hg Ho.
    assert (gid = "g"%string ∧ cg = group_entry "g" demo_offsets) as [-> ->].
    { unfold demo_offsets, commit_offset, put_group in Hg. cbn [groups set_groups] in Hg.
      apply lookup_insert_Some in Hg as [[<- <-]|[Hne Hg]]; [split; reflexivity|].
      apply lookup_insert_Some in Hg as [[<- _]|[_ Hg]]; [done|].
      cbn [coordinator_new groups] in Hg. by rewrite lookup_empty in Hg. }
    assert (cg_offsets (group_entry "g" demo_offsets)
      = <[mkTP "orders" 0 := 42]> (<[mkTP "a:b" 1 := 7]> ∅)) as Heq by (vm_compute; reflexivity).
    rewrite Heq in Ho. apply lookup_insert_Some in Ho as [[<- _]|[_ Ho]]; [vm_compute; split; congruence|].
    apply lookup_insert_Some in Ho as [[<- _]|[_ Ho]]; [vm_compute; split; congruence|].
    by rewrite lookup_empty in Ho.
  - split; [|exact H1]. rewrite H2. vm_compute. reflexivity.
Defined.

(** ** What modelling showed *)
Import MemoryWal MemoryStore.

(** Offsets of a topic with a colon in its name are lost, and a restored partition
    starts again at offset 0: its high watermark is recorded in the snapshot but
    never applied, so a group's committed offset points past the end of the log. *)
Theorem snapshot_loses_high_watermark :
  let '(c, _) := cop_run (demo_cluster, demo_world) (CAppend (mkTP "orders" 0) 1 [Byte.x61]) in
  let s := capture 0 c demo_offsets in
  let '(c', g') := apply_snapshot s c demo_offsets in
  (ps_high_watermark <$> sn_partitions s) = [1]
  ∧ (high_watermark <$> get_partition (mkTP "orders" 0) c') = Some 0
  ∧ fetch_offset "g" (mkTP "a:b" 1) demo_offsets = Some 7 ∧ fetch_offset "g" (mkTP "a:b" 1) g' = None.
Proof. vm_compute. split_and!; reflexivity. Qed.
