(* ===== verification/Text.v ===== *)
(** * Operations of Rust's [str] on UTF-8 bytes

    [split], [split_once], [find], [strip_prefix], [trim], [to_ascii_uppercase]
    and [to_ascii_lowercase], as the broker uses them: the patterns are ASCII,
    so that working on bytes and on characters is the same. *)

From Stdlib Require Import Strings.Byte.
From stdpp Require Import base numbers list strings sets.
From S2P Require Import Prelude Bytes.

(** ** Definitions *)

(** [s.split(sep)], [l.split(|&b| b == sep)] *)
Fixpoint split_on (sep : byte) (l : bytes) : list bytes :=
  match l with
  | [] => [[]]
  | b :: l' =>
      if decide (b = sep) then [] :: split_on sep l'
      else match split_on sep l' with
           | part :: parts => (b :: part) :: parts
           | [] => [[b]]
           end
  end.

(** [s.split_once(sep)] *)
Fixpoint split_once (sep : byte) (l : bytes) : option (bytes * bytes) :=
  match l with
  | [] => None
  | b :: l' =>
      if decide (b = sep) then Some ([], l')
      else match split_once sep l' with
           | Some (before, after) => Some (b :: before, after)
           | None => None
           end
  end.

(** [s.strip_prefix(pat)] *)
Fixpoint strip_prefix (pat l : bytes) : option bytes :=
  match pat, l with
  | [], _ => Some l
  | p :: pat', b :: l' => if decide (p = b) then strip_prefix pat' l' else None
  | _ :: _, [] => None
  end.

(** [s.find(pat)] *)
Fixpoint find_sub (pat l : bytes) : option nat :=
  match strip_prefix pat l with
  | Some _ => Some O
  | None => match l with [] => None | _ :: l' => S <$> find_sub pat l' end
  end.

(** [char::is_whitespace], the characters as UTF-8. *)
Definition white_space : list bytes :=
  ((λ z, [byte_of_Z z]) <$> [9; 10; 11; 12; 13; 32])
  ++ [[xc2; x85]; [xc2; xa0]; [xe1; x9a; x80]]
  ++ ((λ z, [xe2; x80; byte_of_Z z]) <$> [128; 129; 130; 131; 132; 133; 134; 135; 136; 137; 138; 168; 169; 175])
  ++ [[xe2; x81; x9f]; [xe3; x80; x80]].

(** The white space that [l] begins with. *)
Fixpoint strip_any (pats : list bytes) (l : bytes) : option bytes :=
  match pats with
  | [] => None
  | pat :: pats => match strip_prefix pat l with Some l' => Some l' | None => strip_any pats l end
  end.

(** Every round takes at least one byte. *)
Fixpoint trim_with (fuel : nat) (pats : list bytes) (l : bytes) : bytes :=
  match fuel with
  | O => l
  | S fuel => match strip_any pats l with Some l' => trim_with fuel pats l' | None => l end
  end.

Definition trim_start (l : bytes) : bytes := trim_with (length l) white_space l.
Definition trim_end (l : bytes) : bytes := reverse (trim_with (length l) (reverse <$> white_space) (reverse l)).

(** [s.trim()] *)
Definition trim (l : bytes) : bytes := trim_end (trim_start l).

Definition ascii_upper (b : byte) : byte := if in_range 97 122 b then byte_of_Z (Z_of_byte b - 32) else b.
Definition ascii_lower (b : byte) : byte := if in_range 65 90 b then byte_of_Z (Z_of_byte b + 32) else b.

Definition str_trim (s : string) : string := bytes_str (trim (str_bytes s)).
Definition to_ascii_uppercase (s : string) : string := bytes_str (ascii_upper <$> str_bytes s).
Definition to_ascii_lowercase (s : string) : string := bytes_str (ascii_lower <$> str_bytes s).

(** ** Lemmas *)
Lemma str_bytes_app s t : str_bytes (s +:+ t) = str_bytes s ++ str_bytes t.
Proof.
  induction s as [|c s IH]; [done|]. change (String c s +:+ t) with (String c (s +:+ t)).
  change (str_bytes (String c (s +:+ t))) with (Ascii.byte_of_ascii c :: str_bytes (s +:+ t)).
  by rewrite IH.
Qed.

Lemma bytes_str_inj l k : bytes_str l = bytes_str k → l = k.
Proof. intros E. by rewrite <- (str_bytes_str l), E, str_bytes_str. Qed.

Lemma str_bytes_inj s t : str_bytes s = str_bytes t → s = t.
Proof. intros E. by rewrite <- (bytes_str_bytes s), E, bytes_str_bytes. Qed.

Section split.
Context (sep : byte).
Implicit Types l p : bytes.

Lemma split_on_nonempty l : split_on sep l ≠ [].
Proof. destruct l as [|b l]; [done|]. cbn. case_decide; [done|]. by destruct (split_on sep l). Qed.

Lemma split_on_one p : sep ∉ p → split_on sep p = [p].
Proof.
  induction p as [|b p IH]; [done|]. rewrite not_elem_of_cons. intros [Hb Hp]. cbn.
  rewrite decide_False by congruence. by rewrite IH.
Qed.

Lemma split_on_app p l : sep ∉ p → split_on sep (p ++ sep :: l) = p :: split_on sep l.
Proof.
  induction p as [|b p IH]; cbn; [by rewrite decide_True|].
  rewrite not_elem_of_cons. intros [Hb Hp]. rewrite decide_False by congruence. by rewrite IH.
Qed.

(** The parts hold no separator, and joined with it they are the input. *)
Fixpoint join (parts : list bytes) : bytes :=
  match parts with
  | [] => []
  | [p] => p
  | p :: parts => p ++ sep :: join parts
  end.

Lemma join_split l : join (split_on sep l) = l.
Proof.
  induction l as [|b l IH]; [done|]. cbn. case_decide as Hb.
  - subst b. pose proof (split_on_nonempty l). destruct (split_on sep l) as [|q qs]; [done|].
    cbn in *. by rewrite IH.
  - destruct (split_on sep l) as [|q qs]; [by rewrite <- IH|].
    destruct qs; cbn in *; by rewrite IH.
Qed.

Lemma split_parts l : Forall (λ p, sep ∉ p) (split_on sep l).
Proof.
  induction l as [|b l IH]; cbn; [by repeat constructor; apply not_elem_of_nil|].
  case_decide as Hb; [constructor; [apply not_elem_of_nil|done]|].
  destruct (split_on sep l) as [|q qs].
  - constructor; [|done]. rewrite list_elem_of_singleton. congruence.
  - apply Forall_cons in IH as [Hq Hqs]. constructor; [|done]. apply not_elem_of_cons. by split.
Qed.

Lemma split_once_some l p q : split_once sep l = Some (p, q) ↔ l = p ++ sep :: q ∧ sep ∉ p.
Proof.
  revert p. induction l as [|b l IH]; intros p; cbn.
  { split; [done|]. by intros [?%app_cons_not_nil ?]. }
  case_decide as Hb.
  - subst b. split.
    + intros [= <- <-]. split; [done|apply not_elem_of_nil].
    + intros [E Hp]. destruct p as [|c p]; [by simplify_eq/=|]. simplify_eq/=.
      apply not_elem_of_cons in Hp as [? _]. done.
  - destruct (split_once sep l) as [[p' q']|] eqn:E'.
    + split.
      * intros [= <- <-]. destruct (proj1 (IH p')) as [-> Hp]; [done|].
        split; [done|]. apply not_elem_of_cons. split; [congruence|done].
      * intros [E Hp]. destruct p as [|c p]; simplify_eq/=.
        apply not_elem_of_cons in Hp as [_ Hp].
        assert (Some (p', q') = Some (p, q)) as [= -> ->]; [|done]. by apply IH.
    + split; [done|]. intros [E Hp]. destruct p as [|c p]; simplify_eq/=.
      apply not_elem_of_cons in Hp as [_ Hp].
      assert (None = Some (p, q)); [|done]. by apply IH.
Qed.
End split.

Lemma strip_prefix_app pat l : strip_prefix pat (pat ++ l) = Some l.
Proof. induction pat as [|b pat IH]; [by destruct l|]. cbn. by rewrite decide_True. Qed.

Lemma strip_prefix_some pat l k : strip_prefix pat l = Some k ↔ l = pat ++ k.
Proof.
  split; [|intros ->; apply strip_prefix_app].
  revert l. induction pat as [|b pat IH]; intros l; [by destruct l; intros [= <-]|].
  destruct l as [|c l]; [done|]. cbn. case_decide; [subst c|done]. intros ?%IH. by subst.
Qed.

Lemma find_sub_some pat l i : find_sub pat l = Some i →
  l = take i l ++ pat ++ drop (length pat + i) l.
Proof.
  revert i. induction l as [|b l IH]; intros i; cbn [find_sub].
  - destruct (strip_prefix pat []) eqn:E; [|done]. intros [= <-].
    apply strip_prefix_some in E. by destruct pat.
  - destruct (strip_prefix pat (b :: l)) eqn:E.
    + intros [= <-]. apply strip_prefix_some in E. rewrite Nat.add_0_r, E at 1. cbn [take app].
      by rewrite E, drop_app_length.
    + destruct (find_sub pat l) as [j|] eqn:Ej; [|done]. cbn. intros [= <-].
      rewrite Nat.add_succ_r. cbn. f_equal. by apply IH.
Qed.

(** The first occurrence is found. *)
Lemma find_sub_app pat p l : (∀ q r, p = q ++ r → r ≠ [] → strip_prefix pat (r ++ pat ++ l) = None) →
  find_sub pat (p ++ pat ++ l) = Some (length p).
Proof.
  induction p as [|b p IH]; intros Hp; cbn [app].
  - pose proof (strip_prefix_app pat l) as E. destruct (pat ++ l) as [|c k]; cbn [find_sub]; by rewrite E.
  - cbn [find_sub]. pose proof (Hp [] (b :: p) eq_refl) as E. cbn [app] in E. rewrite E by done.
    rewrite IH; [done|]. intros q r -> Hr. by apply (Hp (b :: q)).
Qed.

(** ** UTF-8 *)
Lemma utf8_app l k : utf8_valid l = true → utf8_valid k = true → utf8_valid (l ++ k) = true.
Proof.
  intros Hl Hk. remember (length l) as n eqn:Hn. revert l Hl Hn.
  induction (lt_wf n) as [n _ IH]. intros l Hl ->.
  destruct l as [|b0 l1]; [done|]. cbn [app utf8_valid] in *.
  destruct (in_range 0 127 b0); [apply (IH (length l1)); [cbn; lia|done|done]|].
  destruct l1 as [|b1 l2]; [done|]. cbn [app] in *.
  destruct (in_range 194 223 b0).
  { apply andb_true_iff in Hl as [-> Hl]. apply (IH (length l2)); [cbn; lia|done|done]. }
  destruct l2 as [|b2 l3]; [done|]. cbn [app] in *.
  destruct (in_range 224 239 b0).
  { apply andb_true_iff in Hl as [-> Hl]. apply (IH (length l3)); [cbn; lia|done|done]. }
  destruct l3 as [|b3 l4]; [done|]. cbn [app] in *.
  destruct (in_range 240 244 b0); [|done].
  apply andb_true_iff in Hl as [-> Hl]. apply (IH (length l4)); [cbn; lia|done|done].
Qed.

Lemma utf8_ascii l : Forall (λ b, in_range 0 127 b = true) l → utf8_valid l = true.
Proof. induction 1 as [|b l Hb Hl IH]; [done|]. cbn. by rewrite Hb. Qed.

Lemma from_utf8_some l s : from_utf8 l = Some s ↔ l = str_bytes s ∧ utf8_valid l = true.
Proof.
  unfold from_utf8. destruct (utf8_valid l); split.
  - intros [= <-]. by rewrite str_bytes_str.
  - intros [-> _]. by rewrite bytes_str_bytes.
  - done.
  - by intros [_ ?].
Qed.

Lemma find_sub_fresh c pat p l : c ∉ p → find_sub (c :: pat) (p ++ (c :: pat) ++ l) = Some (length p).
Proof.
  intros Hp. apply find_sub_app. intros q r -> Hr. destruct r as [|b r]; [done|].
  cbn. rewrite decide_False; [done|]. intros ->. apply Hp, elem_of_app. right. apply elem_of_cons. by left.
Qed.

(** ** Trimming *)
Section trimming.
Context (pats : list bytes).
Hypothesis Hpats : Forall (λ pat, pat ≠ []) pats.

Lemma strip_any_some l k : strip_any pats l = Some k → ∃ pat, pat ∈ pats ∧ l = pat ++ k.
Proof using.
  clear Hpats. induction pats as [|pat ps IH]; [done|]. cbn. destruct (strip_prefix pat l) as [l'|] eqn:E.
  - intros [= <-]. apply strip_prefix_some in E. exists pat. split; [left|done].
  - intros (pat' & ? & ?)%IH. exists pat'. split; [by right|done].
Qed.

Lemma strip_any_none l : strip_any pats l = None ↔ ∀ pat k, pat ∈ pats → l ≠ pat ++ k.
Proof using.
  clear Hpats. induction pats as [|pat ps IH]; cbn; [set_unfold; naive_solver|].
  destruct (strip_prefix pat l) as [l'|] eqn:E.
  - split; [done|]. intros Hn. apply strip_prefix_some in E. by apply (Hn pat l') in E; [|left].
  - rewrite IH. split; intros Hn pat' k; rewrite ?elem_of_cons; [|intros ?; apply Hn; by right].
    intros [->|?]; [|by apply Hn]. intros ->. by rewrite strip_prefix_app in E.
Qed.

Lemma trim_with_suffix fuel l : ∃ p, l = p ++ trim_with fuel pats l.
Proof using.
  clear Hpats. revert l. induction fuel as [|fuel IH]; intros l; [by exists []|]. cbn.
  destruct (strip_any pats l) as [k|] eqn:E; [|by exists []].
  apply strip_any_some in E as (pat & _ & ->). destruct (IH k) as [p Hp].
  exists (pat ++ p). by rewrite <- app_assoc, <- Hp.
Qed.

Lemma trim_with_done fuel l : (length l ≤ fuel)%nat → strip_any pats (trim_with fuel pats l) = None.
Proof using Hpats.
  revert l. induction fuel as [|fuel IH]; intros l Hl; cbn.
  - destruct l; [|cbn in Hl; lia]. apply strip_any_none. intros pat k Hin E.
    rewrite Forall_forall in Hpats. apply Hpats in Hin. by destruct pat.
  - destruct (strip_any pats l) as [k|] eqn:E; [|done]. apply strip_any_some in E as (pat & Hin & ->).
    apply IH. rewrite Forall_forall in Hpats. apply Hpats in Hin. destruct pat; [done|].
    cbn in Hl. rewrite length_app in Hl. lia.
Qed.

Lemma trim_with_id fuel l : strip_any pats l = None → trim_with fuel pats l = l.
Proof using. clear Hpats. destruct fuel; [done|]. cbn. by intros ->. Qed.
End trimming.

Lemma white_space_nonempty : Forall (λ pat, pat ≠ []) white_space ∧ Forall (λ pat, pat ≠ []) (reverse <$> white_space).
Proof. split; apply (bool_decide_unpack _); vm_compute; exact I. Qed.

Lemma trim_end_prefix l : ∃ p, l = trim_end l ++ p.
Proof.
  unfold trim_end. destruct (trim_with_suffix (reverse <$> white_space) (length l) (reverse l)) as [p Hp].
  exists (reverse p). rewrite <- reverse_app, <- Hp. by rewrite reverse_involutive.
Qed.

Lemma trim_idemp l : trim (trim l) = trim l.
Proof.
  destruct white_space_nonempty as [Hw Hr]. unfold trim at 1. set (s := trim_start l).
  assert (strip_any white_space s = None) as Hs by by apply trim_with_done.
  change (trim l) with (trim_end s). destruct (trim_end_prefix s) as [p Hp].
  assert (trim_start (trim_end s) = trim_end s) as ->.
  { apply trim_with_id. apply strip_any_none. intros pat k Hin E.
    rewrite strip_any_none in Hs. apply (Hs pat (k ++ p) Hin). rewrite Hp, E. by rewrite <- app_assoc. }
  unfold trim_end at 1. rewrite trim_with_id; [apply reverse_involutive|].
  unfold trim_end. rewrite reverse_involutive. apply trim_with_done; [done|]. by rewrite length_reverse.
Qed.

Lemma str_trim_idemp s : str_trim (str_trim s) = str_trim s.
Proof. unfold str_trim. by rewrite str_bytes_str, trim_idemp. Qed.
#[global] Arguments str_trim _ : simpl never.
#[global] Arguments trim _ : simpl never.
