(* ===== verification/Sasl.v ===== *)
(** * SASL authentication

    Models [crates/oxidemq-broker/src/sasl.rs] (PLAIN and SCRAM) and the two
    branches of [BrokerEngine::handle_connection_request] that drive it.  The
    primitives of the [ring] crate (PBKDF2, HMAC, the digests, the random
    generator) and the [base64] crate are parameters: [ScramCrypto]. *)

From Stdlib Require Import Strings.Byte.
From stdpp Require Import base numbers list gmap strings.
From S2P Require Import Prelude Bytes Text CoreTypes KafkaWire MessageTypes MsgCodec MsgAuth.

(** ** Mechanisms and connection state *)
Inductive SaslMechanism := Plain | ScramSha256 | ScramSha512.
#[export] Instance SaslMechanism_eq_dec : EqDecision SaslMechanism.
Proof. solve_decision. Defined.

Definition mechanism_as_str (m : SaslMechanism) : string :=
  match m with
  | Plain => "PLAIN"
  | ScramSha256 => "SCRAM-SHA-256"
  | ScramSha512 => "SCRAM-SHA-512"
  end.

Definition from_str_case_insensitive (s : string) : option SaslMechanism :=
  let s := to_ascii_uppercase (str_trim s) in
  if decide (s = "PLAIN"%string) then Some Plain
  else if decide (s = "SCRAM-SHA-256"%string) then Some ScramSha256
  else if decide (s = "SCRAM-SHA-512"%string) then Some ScramSha512
  else None.

Record ScramServerSession := mkScram {
  sc_mechanism : SaslMechanism;
  sc_username : string;
  sc_client_nonce : string;
  sc_server_nonce : string;
  sc_full_nonce : string;
  sc_salt : bytes;
  sc_iterations : Z;
  sc_auth_message_prefix : string }.

Inductive ConnectionAuthState :=
| Unauthenticated
| HandshakeReceived (mechanism : SaslMechanism)
| ScramChallengeSent (session : ScramServerSession)
| Authenticated (principal : string)
| Failed.

Definition is_authenticated (s : ConnectionAuthState) : bool :=
  match s with Authenticated _ => true | _ => false end.

Definition principal (s : ConnectionAuthState) : option string :=
  match s with Authenticated p => Some p | _ => None end.

(** ** The cryptography *)
Inductive HashAlg := SHA256 | SHA512.
Definition hash_len (h : HashAlg) : nat := match h with SHA256 => 32 | SHA512 => 64 end.

(** The characters of [BASE64_STANDARD]. *)
Definition b64_char (b : byte) : Prop :=
  in_range 65 90 b = true ∨ in_range 97 122 b = true ∨ in_range 48 57 b = true
  ∨ b = "+"%byte ∨ b = "/"%byte ∨ b = "="%byte.

Class ScramCrypto := {
  pbkdf2 : HashAlg → Z → bytes → bytes → bytes;
  hmac : HashAlg → bytes → bytes → bytes;
  digest : HashAlg → bytes → bytes;
  b64_encode : bytes → string;
  b64_decode : bytes → option bytes;
  hmac_length h k m : length (hmac h k m) = hash_len h;
  b64_roundtrip l : b64_decode (str_bytes (b64_encode l)) = Some l;
  b64_chars l : Forall b64_char (str_bytes (b64_encode l)) }.

Definition xor_byte (p s : byte) : byte := byte_of_Z (Z.lxor (Z_of_byte p) (Z_of_byte s)).

(** [p.iter().zip(s.iter()).map(|(p, s)| p ^ s)] *)
Definition xor_bytes (p s : bytes) : bytes := zip_with xor_byte p s.

(** ** SCRAM sessions *)
Section scram.
Context `{ScramCrypto}.

Definition scram_new (mechanism : SaslMechanism) : ScramServerSession :=
  mkScram mechanism "" "" "" "" [] 4096 "".

(** The attributes of client-first-bare; a later one replaces an earlier one. *)
Definition client_first_attr (acc : option bytes * option bytes) (part : bytes)
    : option bytes * option bytes :=
  let '(username, client_nonce) := acc in
  match strip_prefix (str_bytes "n=") part with
  | Some val => (Some val, client_nonce)
  | None =>
      match strip_prefix (str_bytes "r=") part with
      | Some val => (username, Some val)
      | None => (username, client_nonce)
      end
  end.

Definition ok_or {A} (e : KafkaErrorCode) (o : option A) : res KafkaErrorCode A :=
  match o with Some x => Ok x | None => Err e end.

Definition server_first_message (full_nonce : string) (salt : bytes) (iterations : Z) : string :=
  "r=" +:+ full_nonce +:+ ",s=" +:+ b64_encode salt +:+ ",i=" +:+ dec iterations.

(** [nonce_rng], [salt_rng]: what [SystemRandom::fill] returns when it is called. *)
Definition process_client_first (self : ScramServerSession) (auth_bytes : bytes)
    (salt_override : option bytes) (server_nonce_override : option string)
    (nonce_rng salt_rng : option bytes) : res KafkaErrorCode (string * ScramServerSession) :=
  _ ← ok_or E_SaslAuthenticationFailed (from_utf8 auth_bytes);
  bare_idx ← ok_or E_SaslAuthenticationFailed (find_sub (str_bytes "n=") auth_bytes);
  let client_first_bare := drop bare_idx auth_bytes in
  let '(username, client_nonce) :=
    foldl client_first_attr (None, None) (split_on "," client_first_bare) in
  username ← ok_or E_SaslAuthenticationFailed username;
  client_nonce ← ok_or E_SaslAuthenticationFailed client_nonce;
  server_nonce ← match server_nonce_override with
                 | Some s => Ok s
                 | None => nonce_bytes ← ok_or E_UnknownServer nonce_rng; Ok (b64_encode nonce_bytes)
                 end;
  salt ← match salt_override with
         | Some s => Ok s
         | None => ok_or E_UnknownServer salt_rng
         end;
  let full_nonce := bytes_str client_nonce +:+ server_nonce in
  let iterations := 4096 in
  let server_first := server_first_message full_nonce salt iterations in
  Ok (server_first,
      mkScram (sc_mechanism self) (bytes_str username) (bytes_str client_nonce) server_nonce full_nonce
        salt iterations (bytes_str client_first_bare +:+ "," +:+ server_first)).

Definition client_key (h : HashAlg) (salted_password : bytes) : bytes :=
  hmac h salted_password (str_bytes "Client Key").
Definition stored_key (h : HashAlg) (salted_password : bytes) : bytes :=
  digest h (client_key h salted_password).
Definition client_signature (h : HashAlg) (salted_password auth_message : bytes) : bytes :=
  hmac h (stored_key h salted_password) auth_message.
Definition server_signature (h : HashAlg) (salted_password auth_message : bytes) : bytes :=
  hmac h (hmac h salted_password (str_bytes "Server Key")) auth_message.

(** One branch of the match on the mechanism; the two differ in the hash only. *)
Definition verify_proof (h : HashAlg) (self : ScramServerSession) (password : string)
    (client_proof auth_message : bytes) : res KafkaErrorCode (string * string) :=
  if decide (sc_iterations self = 0) then Panic else
  let salted_password := pbkdf2 h (sc_iterations self) (sc_salt self) (str_bytes password) in
  if decide (length client_proof ≠ length (client_key h salted_password))
  then Err E_SaslAuthenticationFailed else
  let recovered := xor_bytes client_proof (client_signature h salted_password auth_message) in
  if decide (digest h recovered ≠ stored_key h salted_password) then Err E_SaslAuthenticationFailed else
  Ok (sc_username self, "v=" +:+ b64_encode (server_signature h salted_password auth_message)).

Definition process_client_final (self : ScramServerSession) (auth_bytes : bytes) (password : string)
    : res KafkaErrorCode (string * string) :=
  _ ← ok_or E_SaslAuthenticationFailed (from_utf8 auth_bytes);
  proof_idx ← ok_or E_SaslAuthenticationFailed (find_sub (str_bytes ",p=") auth_bytes);
  let client_final_without_proof := take proof_idx auth_bytes in
  let client_proof_b64 := drop (proof_idx + 3) auth_bytes in
  if decide (Exists (λ part, strip_prefix (str_bytes "r=") part = Some (str_bytes (sc_full_nonce self)))
               (split_on "," client_final_without_proof))
  then
    client_proof ← ok_or E_SaslAuthenticationFailed (b64_decode client_proof_b64);
    let auth_message :=
      str_bytes (sc_auth_message_prefix self) ++ str_bytes "," ++ client_final_without_proof in
    match sc_mechanism self with
    | ScramSha256 => verify_proof SHA256 self password client_proof auth_message
    | ScramSha512 => verify_proof SHA512 self password client_proof auth_message
    | Plain => Err E_UnsupportedSaslMechanism
    end
  else Err E_SaslAuthenticationFailed.
End scram.

(** ** The authenticator *)
Record SaslAuthenticator := mkAuth {
  au_users : gmap string string;
  au_enabled_mechanisms : list SaslMechanism;
  au_require_sasl : bool }.

Definition auth_new (enabled : list SaslMechanism) (require_sasl : bool) : SaslAuthenticator :=
  mkAuth ∅ enabled require_sasl.
Definition auth_default : SaslAuthenticator := auth_new [Plain; ScramSha256; ScramSha512] false.

Definition add_user (username password : string) (a : SaslAuthenticator) : SaslAuthenticator :=
  mkAuth (<[username := password]> (au_users a)) (au_enabled_mechanisms a) (au_require_sasl a).

Definition load_user_list (spec : string) (a : SaslAuthenticator) : SaslAuthenticator :=
  foldl (λ a entry,
    match split_once "=" (trim entry) with
    | Some (user, pass) => add_user (bytes_str (trim user)) (bytes_str (trim pass)) a
    | None => a
    end) a (split_on "," (str_bytes spec)).

Definition get_password (username : string) (a : SaslAuthenticator) : option string := au_users a !! username.

Definition is_mechanism_enabled (mech : SaslMechanism) (a : SaslAuthenticator) : bool :=
  bool_decide (mech ∈ au_enabled_mechanisms a).

Definition enabled_mechanism_names (a : SaslAuthenticator) : list string :=
  mechanism_as_str <$> au_enabled_mechanisms a.

Definition authenticate_plain (auth_bytes : bytes) (a : SaslAuthenticator) : res KafkaErrorCode string :=
  match split_on x00 auth_bytes with
  | [_; username; password] =>
      username ← ok_or E_SaslAuthenticationFailed (from_utf8 username);
      password ← ok_or E_SaslAuthenticationFailed (from_utf8 password);
      expected_password ← ok_or E_SaslAuthenticationFailed (get_password username a);
      if decide (expected_password ≠ password) then Err E_SaslAuthenticationFailed else Ok username
  | _ => Err E_SaslAuthenticationFailed
  end.

(** ** The handler's branches *)
Section handler.
Context `{ScramCrypto}.

Definition sasl_handshake (a : SaslAuthenticator) (session : ConnectionAuthState) (req : SaslHandshakeRequest)
    : SaslHandshakeResponse * ConnectionAuthState :=
  match from_str_case_insensitive (shq_mechanism req) with
  | Some m =>
      if is_mechanism_enabled m a
      then (mkSaslHsResp E_None (enabled_mechanism_names a), HandshakeReceived m)
      else (mkSaslHsResp E_UnsupportedSaslMechanism (enabled_mechanism_names a), session)
  | None => (mkSaslHsResp E_UnsupportedSaslMechanism (enabled_mechanism_names a), session)
  end.

Definition sasl_refuse (e : KafkaErrorCode) (msg : string) : SaslAuthenticateResponse :=
  mkSaslAuthResp e (Some msg) [] 0.
Definition sasl_accept (auth_bytes : bytes) : SaslAuthenticateResponse :=
  mkSaslAuthResp E_None None auth_bytes 0.

Definition sasl_authenticate (a : SaslAuthenticator) (nonce_rng salt_rng : option bytes)
    (session : ConnectionAuthState) (req : SaslAuthenticateRequest)
    : result (SaslAuthenticateResponse * ConnectionAuthState) :=
  match session with
  | HandshakeReceived Plain =>
      match authenticate_plain (saq_auth_bytes req) a with
      | Ok user => Ok (sasl_accept [], Authenticated user)
      | Err err => Ok (sasl_refuse err "SASL PLAIN authentication failed", Failed)
      | Panic => Panic
      end
  | HandshakeReceived ((ScramSha256 | ScramSha512) as m) =>
      match process_client_first (scram_new m) (saq_auth_bytes req) None None nonce_rng salt_rng with
      | Ok (server_first, scram) => Ok (sasl_accept (str_bytes server_first), ScramChallengeSent scram)
      | Err err => Ok (sasl_refuse err "SCRAM client-first message validation failed", Failed)
      | Panic => Panic
      end
  | ScramChallengeSent scram =>
      match get_password (sc_username scram) a with
      | Some pass =>
          match process_client_final scram (saq_auth_bytes req) pass with
          | Ok (user, server_final) => Ok (sasl_accept (str_bytes server_final), Authenticated user)
          | Err err => Ok (sasl_refuse err "SCRAM proof verification failed", Failed)
          | Panic => Panic
          end
      | None => Ok (sasl_refuse E_SaslAuthenticationFailed "Unknown user", Failed)
      end
  | _ => Ok (sasl_refuse E_IllegalSaslState "SaslAuthenticate request received in unexpected state", session)
  end.
End handler.

(** ** Lemmas: exclusive or *)
Lemma xor_byte_cancel p s : xor_byte (xor_byte p s) s = p.
Proof.
  unfold xor_byte. apply Z_of_byte_inj. rewrite !Z_of_byte_of_Z.
  pose proof (Z_of_byte_range p). pose proof (Z_of_byte_range s).
  assert (∀ a b, 0 ≤ a < 256 → 0 ≤ b < 256 → 0 ≤ Z.lxor a b < 256) as Hx.
  { intros a b Ha Hb. split; [apply Z.lxor_nonneg; lia|].
    destruct (decide (Z.lxor a b = 0)) as [E|]; [rewrite E; lia|].
    apply Z.log2_lt_cancel. change (Z.log2 256) with 8.
    pose proof (Z.log2_lxor a b). assert (∀ x, 0 ≤ x < 256 → Z.log2 x < 8) as Hlog.
    { intros x Hx. destruct (decide (x = 0)) as [->|]; [done|]. apply Z.log2_lt_pow2; lia. }
    pose proof (Hlog a). pose proof (Hlog b). lia. }
  rewrite (Z.mod_small (Z.lxor (Z_of_byte p) (Z_of_byte s))) by (apply Hx; lia).
  rewrite Z.lxor_assoc, Z.lxor_nilpotent, Z.lxor_0_r. apply Z.mod_small. lia.
Qed.

Lemma xor_bytes_cancel p s : length p = length s → xor_bytes (xor_bytes p s) s = p.
Proof.
  unfold xor_bytes. revert s. induction p as [|b p IH]; intros [|c s] Hl; simplify_eq/=; [done|].
  f_equal; [apply xor_byte_cancel|by apply IH].
Qed.

Lemma length_xor p s : length (xor_bytes p s) = Nat.min (length p) (length s).
Proof. apply length_zip_with. Qed.

(** ** The other side of SCRAM

    What a client computes (RFC 5802, and the client of the unit tests). *)
Section client.
Context `{ScramCrypto}.

Definition mech_hash (m : SaslMechanism) : option HashAlg :=
  match m with ScramSha256 => Some SHA256 | ScramSha512 => Some SHA512 | Plain => None end.

Definition client_proof (h : HashAlg) (salted_password auth_message : bytes) : bytes :=
  xor_bytes (client_key h salted_password) (client_signature h salted_password auth_message).

Definition client_first_bare (user nonce : string) : string := "n=" +:+ user +:+ ",r=" +:+ nonce.
Definition client_first (user nonce : string) : bytes := str_bytes ("n,," +:+ client_first_bare user nonce).
Definition final_without_proof (full_nonce : string) : string := "c=biws,r=" +:+ full_nonce.

(** [AuthMessage] of the exchange. *)
Definition auth_message (user nonce server_first full_nonce : string) : bytes :=
  str_bytes (client_first_bare user nonce +:+ "," +:+ server_first +:+ "," +:+ final_without_proof full_nonce).

Definition client_final (h : HashAlg) (salted_password : bytes) (user nonce server_first full_nonce : string)
    : bytes :=
  str_bytes (final_without_proof full_nonce +:+ ",p="
    +:+ b64_encode (client_proof h salted_password (auth_message user nonce server_first full_nonce))).

(** The proof determines the key up to a collision of the hash. *)
Lemma verify_proof_inv h self password proof msg user final :
  verify_proof h self password proof msg = Ok (user, final) →
  let salted := pbkdf2 h (sc_iterations self) (sc_salt self) (str_bytes password) in
  user = sc_username self
  ∧ (proof = client_proof h salted msg
     ∨ let recovered := xor_bytes proof (client_signature h salted msg) in
       recovered ≠ client_key h salted ∧ digest h recovered = digest h (client_key h salted)).
Proof.
  unfold verify_proof. case_decide; [done|]. case_decide as Hlen; [done|]. case_decide as Hd; [done|].
  intros [= <- <-]. split; [done|].
  set (salted := pbkdf2 _ _ _ _) in *.
  destruct (decide (xor_bytes proof (client_signature h salted msg) = client_key h salted)) as [E|Hne].
  - left. unfold client_proof. rewrite <- E. symmetry. apply xor_bytes_cancel.
    unfold client_key, client_signature in *. rewrite !hmac_length in *. lia.
  - right. split; [exact Hne|]. exact Hd.
Qed.

Lemma verify_proof_ok h self password msg : sc_iterations self ≠ 0 →
  let salted := pbkdf2 h (sc_iterations self) (sc_salt self) (str_bytes password) in
  verify_proof h self password (client_proof h salted msg) msg
    = Ok (sc_username self, "v=" +:+ b64_encode (server_signature h salted msg)).
Proof.
  intros Hi salted. unfold verify_proof. rewrite decide_False by done. fold salted.
  assert (length (client_key h salted) = length (client_signature h salted msg)) as Hl.
  { unfold client_key, client_signature. by rewrite !hmac_length. }
  unfold client_proof. rewrite length_xor, <- Hl, Nat.min_id. rewrite decide_False by congruence.
  rewrite (xor_bytes_cancel _ _ Hl). by rewrite decide_False by (unfold stored_key; congruence).
Qed.

(** The final message gives away the proof and everything it signs. *)
Lemma process_client_final_inv self msg password user final :
  process_client_final self msg password = Ok (user, final) →
  ∃ h without proof64 proof,
    mech_hash (sc_mechanism self) = Some h
    ∧ msg = without ++ str_bytes ",p=" ++ proof64
    ∧ str_bytes ("r=" +:+ sc_full_nonce self) ∈ split_on "," without
    ∧ b64_decode proof64 = Some proof
    ∧ verify_proof h self password proof
        (str_bytes (sc_auth_message_prefix self) ++ str_bytes "," ++ without) = Ok (user, final).
Proof.
  unfold process_client_final. destruct (from_utf8 msg); [|done].
  destruct (find_sub (str_bytes ",p=") msg) as [i|] eqn:Hi; [|done].
  cbn [ok_or mbind res_bind]. case_decide as Hn; [|done].
  destruct (b64_decode (drop (i + 3) msg)) as [proof|] eqn:Hp; [|done]. cbn [ok_or mbind res_bind].
  destruct (mech_hash (sc_mechanism self)) as [h|] eqn:Hh; [|by destruct (sc_mechanism self)].
  intros Hv. apply find_sub_some in Hi. rewrite (Nat.add_comm i 3) in Hp.
  exists h, (take i msg), (drop (3 + i) msg), proof. split_and!; [done|done| |done|].
  - apply Exists_exists in Hn as (part & Hin & Hpart). apply strip_prefix_some in Hpart as ->.
    by rewrite str_bytes_app.
  - by destruct (sc_mechanism self); simplify_eq/=.
Qed.

Definition no_comma (s : string) : Prop := ","%byte ∉ str_bytes s.

Lemma b64_char_spec b : b64_char b → in_range 0 127 b = true ∧ b ≠ ","%byte.
Proof. unfold b64_char. destruct b; vm_compute; naive_solver. Qed.

Lemma b64_ok l : str_ok (b64_encode l).
Proof. apply utf8_ascii. eapply Forall_impl; [apply b64_chars|]. intros b Hb. by apply b64_char_spec. Qed.

Lemma b64_no_comma l : no_comma (b64_encode l).
Proof. intros Hin. pose proof (b64_chars l) as Hl. rewrite Forall_forall in Hl. by apply Hl, b64_char_spec in Hin as []. Qed.

Lemma str_ok_app s t : str_ok s → str_ok t → str_ok (s +:+ t).
Proof. unfold str_ok. rewrite str_bytes_app. apply utf8_app. Qed.

Lemma from_utf8_ok s : str_ok s → from_utf8 (str_bytes s) = Some s.
Proof. intros Hs. by apply from_utf8_some. Qed.

(** The server's answer to an honest client-first message. *)
Lemma client_first_ok m user nonce rn rs :
  str_ok user → str_ok nonce → no_comma user → no_comma nonce →
  let fn := nonce +:+ b64_encode rn in
  let server_first := server_first_message fn rs 4096 in
  process_client_first (scram_new m) (client_first user nonce) None None (Some rn) (Some rs)
    = Ok (server_first, mkScram m user nonce (b64_encode rn) fn rs 4096
            (client_first_bare user nonce +:+ "," +:+ server_first)).
Proof.
  intros Hu Hn Cu Cn fn server_first. unfold process_client_first.
  assert (str_bytes (client_first_bare user nonce)
          = (str_bytes "n=" ++ str_bytes user) ++ "," :: str_bytes "r=" ++ str_bytes nonce)%byte as Hb.
  { unfold client_first_bare. rewrite !str_bytes_app, <- app_assoc. done. }
  unfold client_first. rewrite from_utf8_ok.
  2: { repeat apply str_ok_app; done. }
  rewrite str_bytes_app. cbn [ok_or mbind res_bind].
  assert (find_sub (str_bytes "n=") (str_bytes "n,," ++ str_bytes (client_first_bare user nonce)) = Some 3%nat) as ->.
  { rewrite Hb. done. }
  cbn [ok_or mbind res_bind]. rewrite drop_app_ge by done.
  change (drop (3 - length (str_bytes "n,,")) (str_bytes (client_first_bare user nonce)))
    with (str_bytes (client_first_bare user nonce)).
  rewrite Hb at 1. rewrite split_on_app, split_on_one.
  - cbn [foldl]. unfold client_first_attr. rewrite strip_prefix_app. change (strip_prefix (str_bytes "n=") (str_bytes "r=" ++ str_bytes nonce)) with (@None bytes).
    rewrite strip_prefix_app. cbn [ok_or mbind res_bind]. by rewrite !bytes_str_bytes.
  - rewrite elem_of_app. unfold no_comma in Cn. intros [Hi|Hi]; [|done]. set_solver.
  - rewrite elem_of_app. unfold no_comma in Cu. intros [Hi|Hi]; [|done]. set_solver.
Qed.

Lemma dec_4096 : dec 4096 = "4096"%string.
Proof. by vm_compute. Qed.

Lemma skip_header x :
  find_sub (str_bytes ",p=") (str_bytes "c=biws,r=" ++ x) = Nat.add 9 <$> find_sub (str_bytes ",p=") x.
Proof. cbn. change [","; "p"; "="]%byte with (str_bytes ",p="). by destruct (find_sub (str_bytes ",p=") x). Qed.

(** The server's answer to an honest client-final message. *)
Lemma client_final_ok m h user nonce rn rs pw : mech_hash m = Some h →
  str_ok user → str_ok nonce → no_comma user → no_comma nonce →
  let fn := nonce +:+ b64_encode rn in
  let server_first := server_first_message fn rs 4096 in
  let salted := pbkdf2 h 4096 rs (str_bytes pw) in
  process_client_final
      (mkScram m user nonce (b64_encode rn) fn rs 4096 (client_first_bare user nonce +:+ "," +:+ server_first))
      (client_final h salted user nonce server_first fn) pw
    = Ok (user, "v=" +:+ b64_encode (server_signature h salted (auth_message user nonce server_first fn))).
Proof.
  intros Hm Hu Hn Cu Cn fn server_first salted. unfold process_client_final, client_final.
  set (proof := client_proof _ _ _).
  assert (str_ok fn) as Hfn by (apply str_ok_app; [done|apply b64_ok]).
  assert (","%byte ∉ str_bytes fn) as Cfn.
  { unfold fn. rewrite str_bytes_app, elem_of_app. intros [?|?]; [done|]. by eapply b64_no_comma. }
  rewrite from_utf8_ok.
  2: { repeat apply str_ok_app; try done. all: apply b64_ok. }
  cbn [ok_or mbind res_bind]. rewrite !str_bytes_app.
  assert (find_sub (str_bytes ",p=") (str_bytes (final_without_proof fn) ++ str_bytes ",p=" ++ str_bytes (b64_encode proof))
            = Some (length (str_bytes (final_without_proof fn)))) as ->.
  { unfold final_without_proof. rewrite str_bytes_app, <- app_assoc, length_app.
    rewrite skip_header. by rewrite (find_sub_fresh "," (str_bytes "p=")). }
  cbn [ok_or mbind res_bind]. rewrite take_app_length, drop_app_ge by lia.
  rewrite Nat.add_comm, Nat.add_sub.
  change (drop 3 (str_bytes ",p=" ++ str_bytes (b64_encode proof))) with (str_bytes (b64_encode proof)).
  rewrite decide_True; cycle 1.
  { unfold final_without_proof. rewrite str_bytes_app.
    change (str_bytes "c=biws,r=" ++ str_bytes fn)
      with (str_bytes "c=biws" ++ (","%byte :: str_bytes "r=" ++ str_bytes fn)).
    rewrite split_on_app; cycle 1. { apply (bool_decide_unpack _). vm_compute. exact I. }
    rewrite split_on_one; cycle 1. { rewrite elem_of_app. intros [Hi|Hi]; [|done]. set_solver. }
    right. left. apply strip_prefix_app. }
  rewrite b64_roundtrip. cbn [ok_or mbind res_bind].
  assert (str_bytes (client_first_bare user nonce +:+ "," +:+ server_first) ++ str_bytes "," ++ str_bytes (final_without_proof fn)
          = auth_message user nonce server_first fn) as Ham.
  { unfold auth_message. rewrite !str_bytes_app, <- !app_assoc. done. }
  cbn [sc_auth_message_prefix sc_mechanism]. rewrite Ham.
  destruct m; simplify_eq/=; by apply verify_proof_ok.
Qed.
End client.

(** ** PLAIN *)
Definition plain_message (authzid user pw : bytes) : bytes := authzid ++ x00 :: (user ++ x00 :: pw).

Lemma split_three l authzid user pw :
  split_on x00 l = [authzid; user; pw] ↔
  l = plain_message authzid user pw ∧ Forall (λ l, x00 ∉ l) [authzid; user; pw].
Proof.
  split.
  - intros E. pose proof (join_split x00 l) as Hj. pose proof (split_parts x00 l) as Hp.
    rewrite E in Hj, Hp. by rewrite <- Hj.
  - intros [-> Hnul]. rewrite !Forall_cons in Hnul. destruct_and?. unfold plain_message. by rewrite !split_on_app, split_on_one.
Qed.

(** The payload names a stored user and holds that user's password. *)
Lemma authenticate_plain_ok l a user : authenticate_plain l a = Ok user ↔
  ∃ authzid pw, l = plain_message authzid (str_bytes user) (str_bytes pw)
    ∧ Forall (λ l, x00 ∉ l) [authzid; str_bytes user; str_bytes pw] ∧ str_ok user ∧ str_ok pw
    ∧ get_password user a = Some pw.
Proof.
  unfold authenticate_plain. split.
  - destruct (split_on x00 l) as [|z [|u [|p [|]]]] eqn:E; try done.
    apply split_three in E as [-> Hnul].
    destruct (from_utf8 u) as [us|] eqn:Eu; [|done]. apply from_utf8_some in Eu as [-> ?].
    destruct (from_utf8 p) as [ps|] eqn:Ep; [|done]. apply from_utf8_some in Ep as [-> ?].
    cbn [ok_or mbind res_bind]. destruct (get_password us a) as [q|] eqn:Eq; [|done].
    cbn [ok_or mbind res_bind]. case_decide as Hq; [done|]. intros [= <-]. subst q.
    by exists z, ps.
  - intros (z & pw & -> & Hnul & Ou & Op & Hg).
    rewrite (proj2 (split_three _ z (str_bytes user) (str_bytes pw))) by done.
    rewrite !from_utf8_ok by done. cbn [ok_or mbind res_bind]. rewrite Hg. cbn [ok_or mbind res_bind].
    by rewrite decide_False by congruence.
Qed.

Lemma authenticate_plain_err l a e : authenticate_plain l a = Err e → e = E_SaslAuthenticationFailed.
Proof.
  unfold authenticate_plain, ok_or, mbind, res_bind. repeat case_match; intros; by simplify_eq/=.
Qed.

Lemma process_client_final_err `{ScramCrypto} self l pw e : process_client_final self l pw = Err e →
  e = E_SaslAuthenticationFailed ∨ e = E_UnsupportedSaslMechanism.
Proof.
  unfold process_client_final. destruct (from_utf8 l); [|intros [= <-]; by left].
  destruct (find_sub (str_bytes ",p=") l) as [i|]; [|intros [= <-]; by left].
  cbn [ok_or mbind res_bind]. case_decide; [|intros [= <-]; by left].
  destruct (b64_decode _) as [proof|]; [|intros [= <-]; by left]. cbn [ok_or mbind res_bind].
  destruct (sc_mechanism self); unfold verify_proof; repeat case_decide; naive_solver.
Qed.

(** ** Properties *)
Section properties.
Context `{ScramCrypto}.

(** What a connection must have presented to be [Authenticated p]: the PLAIN
    payload of a stored user, or the proof for a stored password over the
    nonce, salt and messages of this exchange; the hash alone can let another
    proof pass, and then the key recovered from it collides with the user's. *)
Definition proves (a : SaslAuthenticator) (session : ConnectionAuthState) (msg : bytes) (p : string) : Prop :=
  (∃ authzid pw, session = HandshakeReceived Plain
     ∧ msg = plain_message authzid (str_bytes p) (str_bytes pw) ∧ get_password p a = Some pw)
  ∨ (∃ scram h pw without proof64 proof,
       session = ScramChallengeSent scram ∧ sc_username scram = p
       ∧ get_password p a = Some pw ∧ mech_hash (sc_mechanism scram) = Some h
       ∧ msg = without ++ str_bytes ",p=" ++ proof64 ∧ b64_decode proof64 = Some proof
       ∧ str_bytes ("r=" +:+ sc_full_nonce scram) ∈ split_on "," without
       ∧ let salted := pbkdf2 h (sc_iterations scram) (sc_salt scram) (str_bytes pw) in
         let signed := str_bytes (sc_auth_message_prefix scram) ++ str_bytes "," ++ without in
         proof = client_proof h salted signed
         ∨ let recovered := xor_bytes proof (client_signature h salted signed) in
           recovered ≠ client_key h salted ∧ digest h recovered = digest h (client_key h salted)).

Lemma process_client_first_cases self l salt nonce rn rs :
  match process_client_first self l salt nonce rn rs with
  | Ok (_, scram) => sc_iterations scram = 4096 ∧ sc_mechanism scram = sc_mechanism self
  | Err e => e ≠ E_None
  | Panic => False
  end.
Proof.
  unfold process_client_first. destruct (from_utf8 l); [|done].
  destruct (find_sub (str_bytes "n=") l) as [i|]; [|done]. cbn [ok_or mbind res_bind].
  destruct (foldl _ _ _) as [[u|] [n|]]; [|done..]. by destruct nonce, rn, salt, rs.
Qed.

Lemma sasl_authenticate_cases a rn rs session req resp session' :
  sasl_authenticate a rn rs session req = Ok (resp, session') →
  match session' with
  | Authenticated p => proves a session (saq_auth_bytes req) p ∧ sas_error_code resp = E_None
                       ∨ session = session' ∧ sas_error_code resp = E_IllegalSaslState
  | ScramChallengeSent scram => sas_error_code resp = E_None ∧ sc_iterations scram = 4096
      ∧ session = HandshakeReceived (sc_mechanism scram) ∧ sc_mechanism scram ≠ Plain
  | Failed => sas_error_code resp ≠ E_None
  | _ => session = session' ∧ sas_error_code resp = E_IllegalSaslState
  end.
Proof.
  destruct session as [|[]|scram|p|]; cbn [sasl_authenticate]; [by intros [= <- <-]|..].
  - destruct (authenticate_plain _ a) as [user|e|] eqn:E; [| |done]; intros [= <- <-].
    + apply authenticate_plain_ok in E as (z & pw & -> & _ & _ & _ & Hg).
      left. split; [|done]. left. by exists z, pw.
    + by apply authenticate_plain_err in E as ->.
  - pose proof (process_client_first_cases (scram_new ScramSha256) (saq_auth_bytes req) None None rn rs) as Hc.
    destruct (process_client_first _ _ _ _ _ _) as [[sf scram]|e|]; [|by intros [= <- <-]|done].
    destruct Hc as [Hi Hmech]. intros [= <- <-]. split_and!; [done|done|by rewrite Hmech|by rewrite Hmech].
  - pose proof (process_client_first_cases (scram_new ScramSha512) (saq_auth_bytes req) None None rn rs) as Hc.
    destruct (process_client_first _ _ _ _ _ _) as [[sf scram]|e|]; [|by intros [= <- <-]|done].
    destruct Hc as [Hi Hmech]. intros [= <- <-]. split_and!; [done|done|by rewrite Hmech|by rewrite Hmech].
  - destruct (get_password _ a) as [pw|] eqn:Hg; [|by intros [= <- <-]].
    destruct (process_client_final scram _ pw) as [[user final]|e|] eqn:E; [| |done]; intros [= <- <-].
    + left. split; [|done]. right.
      apply process_client_final_inv in E as (h & without & p64 & proof & Hh & Hm & Hn & Hd & Hv).
      apply verify_proof_inv in Hv as [-> Hv]. by exists scram, h, pw, without, p64, proof.
    + by apply process_client_final_err in E as [-> | ->].
  - intros [= <- <-]. by right.
  - by intros [= <- <-].
Qed.

(** C12: Nobody is authenticated without credentials.  When a SaslAuthenticate
    request leaves the connection authenticated as [p], then either it already
    was, and the request was refused as illegal in that state, or the request
    just accepted carried the PLAIN payload of the stored user [p], or [p]'s
    SCRAM proof over the nonce, salt and messages of this very exchange, or one
    from which the server recovers another key with the same hash. *)
Theorem sasl_authenticate_sound a rn rs session req resp p :
  sasl_authenticate a rn rs session req = Ok (resp, Authenticated p) →
  proves a session (saq_auth_bytes req) p ∧ sas_error_code resp = E_None
  ∨ session = Authenticated p ∧ sas_error_code resp = E_IllegalSaslState.
Proof. intros Hs. by apply (sasl_authenticate_cases a rn rs session req resp (Authenticated p)). Qed.

(** C24: SCRAM authenticates every honest client, and the server to the client.
    For an enabled SCRAM mechanism and a stored user, the handshake followed by
    the client's two messages, whatever random bytes the server draws, ends
    authenticated as that user; and the server's last message is the server
    signature that the client computes from its own password. *)
Theorem scram_honest_client a m h session user nonce pw rn rs rn' rs' :
  mech_hash m = Some h → is_mechanism_enabled m a = true → get_password user a = Some pw →
  str_ok user → str_ok nonce → no_comma user → no_comma nonce →
  ∃ full_nonce scram,
    let server_first := server_first_message full_nonce rs 4096 in
    let salted := pbkdf2 h 4096 rs (str_bytes pw) in
    sasl_handshake a session (mkSaslHsReq (mechanism_as_str m))
      = (mkSaslHsResp E_None (enabled_mechanism_names a), HandshakeReceived m)
    ∧ sasl_authenticate a (Some rn) (Some rs) (HandshakeReceived m) (mkSaslAuthReq (client_first user nonce))
      = Ok (sasl_accept (str_bytes server_first), ScramChallengeSent scram)
    ∧ sasl_authenticate a rn' rs' (ScramChallengeSent scram)
        (mkSaslAuthReq (client_final h salted user nonce server_first full_nonce))
      = Ok (sasl_accept (str_bytes ("v=" +:+ b64_encode
              (server_signature h salted (auth_message user nonce server_first full_nonce)))),
            Authenticated user).
Proof.
  intros Hm He Hg Hu Hn Cu Cn. exists (nonce +:+ b64_encode rn). eexists. split_and!.
  - unfold sasl_handshake. destruct m; cbn [shq_mechanism]; [done| |].
    + change (from_str_case_insensitive _) with (Some ScramSha256). cbv iota beta. by rewrite He.
    + change (from_str_case_insensitive _) with (Some ScramSha512). cbv iota beta. by rewrite He.
  - pose proof (client_first_ok m user nonce rn rs Hu Hn Cu Cn) as Hf.
    destruct m; [done| |]; cbn [sasl_authenticate saq_auth_bytes]; by rewrite Hf.
  - cbn [sasl_authenticate sc_username saq_auth_bytes]. rewrite Hg.
    by rewrite (client_final_ok m h user nonce rn rs pw).
Qed.
End properties.

(** A concrete instance: hexadecimal digits for the encoding, and digests that
    pad or cut. *)
Definition fit (h : HashAlg) (l : bytes) : bytes := take (hash_len h) (l ++ replicate (hash_len h) x00).
Definition nibble (z : Z) : byte := byte_of_Z (65 + z).
Definition hex_encode (l : bytes) : bytes :=
  l ≫= λ b, [nibble (Z_of_byte b / 16); nibble (Z_of_byte b mod 16)].
Fixpoint hex_decode (l : bytes) : option bytes :=
  match l with
  | [] => Some []
  | a :: b :: l => cons (byte_of_Z ((Z_of_byte a - 65) * 16 + (Z_of_byte b - 65))) <$> hex_decode l
  | [_] => None
  end.

Lemma hex_roundtrip l : hex_decode (hex_encode l) = Some l.
Proof.
  induction l as [|b l IH]; [done|]. unfold hex_encode in *. cbn [mbind list_bind app hex_decode].
  rewrite IH. cbn. do 2 f_equal. by destruct b.
Qed.

Definition toy_crypto : ScramCrypto.
Proof.
  refine {| pbkdf2 h i salt pw := fit h (pw ++ salt);
            hmac h k m := fit h (k ++ m);
            digest h m := fit h m;
            b64_encode l := bytes_str (hex_encode l);
            b64_decode := hex_decode |}.
  - intros h k m. unfold fit. rewrite length_take, length_app, length_replicate. lia.
  - intros l. rewrite str_bytes_str. apply hex_roundtrip.
  - intros l. rewrite str_bytes_str. induction l as [|b l IH]; [constructor|].
    unfold hex_encode in *. cbn [mbind list_bind]. apply Forall_app. split; [|exact IH].
    constructor; [left; by destruct b|]. constructor; [left; by destruct b|constructor].
Defined.

Lemma sasl_authenticate_sound_witness :
  let a := add_user "alice" "secret" auth_default in
  let req := mkSaslAuthReq (plain_message [] (str_bytes "alice") (str_bytes "secret")) in
  let s := HandshakeReceived Plain in
  @proves toy_crypto a s (saq_auth_bytes req) "alice" ∧ E_None = E_None
  ∨ s = Authenticated "alice" ∧ E_None = E_IllegalSaslState.
Proof.
  intros a req s.
  apply (@sasl_authenticate_sound toy_crypto a None None s req (sasl_accept []) "alice").
  by vm_compute.
Defined.

Lemma scram_honest_client_witness :
  let a := add_user "alice" "secret" auth_default in
  ∃ full_nonce scram,
    let server_first := @server_first_message toy_crypto full_nonce [x07] 4096 in
    let salted := @pbkdf2 toy_crypto SHA256 4096 [x07] (str_bytes "secret") in
    sasl_handshake a Unauthenticated (mkSaslHsReq (mechanism_as_str ScramSha256))
      = (mkSaslHsResp E_None (enabled_mechanism_names a), HandshakeReceived ScramSha256)
    ∧ @sasl_authenticate toy_crypto a (Some [x2a]) (Some [x07]) (HandshakeReceived ScramSha256)
        (mkSaslAuthReq (client_first "alice" "nonce"))
      = Ok (sasl_accept (str_bytes server_first), ScramChallengeSent scram)
    ∧ @sasl_authenticate toy_crypto a None None (ScramChallengeSent scram)
        (mkSaslAuthReq (@client_final toy_crypto SHA256 salted "alice" "nonce" server_first full_nonce))
      = Ok (sasl_accept (str_bytes ("v=" +:+ @b64_encode toy_crypto
              (@server_signature toy_crypto SHA256 salted
                 (auth_message "alice" "nonce" server_first full_nonce)))),
            Authenticated "alice").
Proof.
  apply (@scram_honest_client toy_crypto); try done.
  all: apply (bool_decide_unpack _); vm_compute; exact I.
Defined.
