(* ===== verification/SchemaRegistry.v ===== *)
(** * The schema registry

    Models [crates/oxidemq-broker/src/schema_registry.rs]: subjects with
    versioned schemas, global schema ids, compatibility levels and the check of
    Confluent-framed payloads. The HTTP handlers that
    call it are in Http.v.
    [serde_json] is a parameter. *)

From Stdlib Require Import Strings.Byte.
From stdpp Require Import base numbers list strings sets gmap sorting.
From S2P Require Import Prelude Bytes Text CoreTypes Cluster State.

(** ** Data *)
Inductive SchemaType := Avro | Protobuf | Json.
#[export] Instance SchemaType_eq_dec : EqDecision SchemaType.
Proof. solve_decision. Defined.
#[export] Instance SchemaType_countable : Countable SchemaType.
Proof.
  refine (inj_countable' (λ t, match t with Avro => 0%nat | Protobuf => 1%nat | Json => 2%nat end)
    (λ n, match n with O => Avro | S O => Protobuf | _ => Json end) _).
  by intros [].
Defined.

Record SchemaReference := mkSchemaRef { sr_name : string; sr_subject : string; sr_version : Z }.

Record SchemaEntry := mkSchema {
  se_subject : string; se_version : Z; se_id : Z; se_schema_type : SchemaType; se_schema : string;
  se_references : list SchemaReference }.

Inductive CompatibilityLevel :=
| CompatNone | Backward | BackwardTransitive | Forward | ForwardTransitive | Full | FullTransitive.
#[export] Instance CompatibilityLevel_eq_dec : EqDecision CompatibilityLevel.
Proof. solve_decision. Defined.

Inductive SchemaRegistryError :=
| SubjectNotFound (subject : string)
| VersionNotFound (version : string)
| SchemaNotFound (id : Z)
| InvalidSchema (msg : string)
| IncompatibleSchema (msg : string)
| InvalidRecordPayload.

Definition error_details (e : SchemaRegistryError) : Z * Z :=
  match e with
  | SubjectNotFound _ => (404, 40401)
  | VersionNotFound _ => (404, 40402)
  | SchemaNotFound _ => (404, 40403)
  | InvalidSchema _ => (422, 42201)
  | IncompatibleSchema _ => (409, 409)
  | InvalidRecordPayload => (422, 42202)
  end.

Record SubjectRecord := mkSubject { sub_versions : list SchemaEntry; sub_config : option CompatibilityLevel }.

Record SchemaRegistry := mkRegistry {
  next_global_id : Z;
  subjects : gmap string SubjectRecord;
  global_schemas : gmap Z SchemaEntry;
  schema_fingerprints : gmap (SchemaType * string) Z;
  global_config : CompatibilityLevel }.

Definition registry_new : SchemaRegistry := mkRegistry 1 ∅ ∅ ∅ Backward.

Abbreviation sres := (res SchemaRegistryError).

(** [serde_json]: [from_str::<Value>], the field of an object, equality and
    display of values. *)
Class SerdeJson := {
  Value : Type;
  Value_eq_dec :: EqDecision Value;
  Null : Value;
  from_str : string → string + Value;
  get_field : Value → string → option Value;
  show_value : Value → string;
  null_no_field k : get_field Null k = None }.

Definition contains (pat : string) (s : string) : bool :=
  match find_sub (str_bytes pat) (str_bytes s) with Some _ => true | None => false end.

Definition eq_ignore_ascii_case (a b : string) : bool :=
  bool_decide (to_ascii_lowercase a = to_ascii_lowercase b).

Definition type_debug (t : SchemaType) : string :=
  match t with Avro => "Avro" | Protobuf => "Protobuf" | Json => "Json" end.

(** ** Operations *)
Section registry.
Context `{SerdeJson} `{HO : HashOrder}.
Implicit Types r : SchemaRegistry.

Definition validate_schema_syntax (schema : string) (schema_type : SchemaType) : sres unit :=
  if decide (str_trim schema = ""%string) then Err (InvalidSchema "Schema definition cannot be empty") else
  match schema_type with
  | Avro | Json =>
      match from_str schema with
      | inl e => Err (InvalidSchema ("Malformed JSON: " +:+ e))
      | inr _ => Ok tt
      end
  | Protobuf =>
      if negb (contains "syntax" schema) && negb (contains "message" schema)
      then Err (InvalidSchema "Protobuf schema must contain message definition")
      else Ok tt
  end.

Definition verify_compatibility (level : CompatibilityLevel) (existing : SchemaEntry)
    (candidate_schema : string) (candidate_type : SchemaType) : sres unit :=
  if decide (level = CompatNone) then Ok tt else
  if decide (se_schema_type existing ≠ candidate_type) then
    Err (IncompatibleSchema ("Cannot change schema type from "
      +:+ type_debug (se_schema_type existing) +:+ " to " +:+ type_debug candidate_type))
  else
  if decide (candidate_type = Avro ∨ candidate_type = Json) then
    let prev_json := match from_str (se_schema existing) with inl _ => Null | inr v => v end in
    match from_str candidate_schema with
    | inl e => Err (InvalidSchema e)
    | inr next_json =>
        match get_field prev_json "name", get_field next_json "name" with
        | Some prev_name, Some next_name =>
            if decide (prev_name ≠ next_name ∧ level ≠ CompatNone) then
              Err (IncompatibleSchema ("Top-level record name changed from "
                +:+ show_value prev_name +:+ " to " +:+ show_value next_name))
            else Ok tt
        | _, _ => Ok tt
        end
    end
  else Ok tt.

Definition same_schema (st : SchemaType) (schema : string) (e : SchemaEntry) : bool :=
  bool_decide (se_schema_type e = st ∧ str_trim (se_schema e) = str_trim schema).

(** The first entry that satisfies [P]. *)
Definition find_entry (P : SchemaEntry → bool) (l : list SchemaEntry) : option SchemaEntry :=
  snd <$> list_find P l.

(** The id that [(st, normalized)] has or gets. *)
Definition assign_id (key : SchemaType * string) (r : SchemaRegistry) : Z * SchemaRegistry :=
  match schema_fingerprints r !! key with
  | Some existing_id => (existing_id, r)
  | None =>
      (next_global_id r,
       mkRegistry (i32 (next_global_id r + 1)) (subjects r) (global_schemas r)
         (<[key := next_global_id r]> (schema_fingerprints r)) (global_config r))
  end.

Definition sub_entry (subject : string) (r : SchemaRegistry) : SubjectRecord :=
  default (mkSubject [] None) (subjects r !! subject).

Definition push_version (subject : string) (st : SchemaType) (normalized : string)
    (references : list SchemaReference) (id : Z) (r : SchemaRegistry) : SchemaRegistry :=
  let sub_rec := sub_entry subject r in
  let version := i32 (i32 (zlen (sub_versions sub_rec)) + 1) in
  let entry := mkSchema subject version id st normalized references in
  mkRegistry (next_global_id r)
    (<[subject := mkSubject (sub_versions sub_rec ++ [entry]) (sub_config sub_rec)]> (subjects r))
    (<[id := entry]> (global_schemas r)) (schema_fingerprints r) (global_config r).

Definition register_schema (subject schema : string) (schema_type : option SchemaType)
    (references : list SchemaReference) (r : SchemaRegistry) : sres Z * SchemaRegistry :=
  let st := default Avro schema_type in
  let fresh :=
    let normalized := str_trim schema in
    let '(id, r) := assign_id (st, normalized) r in
    (Ok id, push_version subject st normalized references id r) in
  match validate_schema_syntax schema st with
  | Ok _ =>
      match subjects r !! subject with
      | Some sub_rec =>
          match find_entry (same_schema st schema) (sub_versions sub_rec) with
          | Some entry => (Ok (se_id entry), r)
          | None =>
              let level := default (global_config r) (sub_config sub_rec) in
              match last (sub_versions sub_rec) with
              | Some latest =>
                  match verify_compatibility level latest schema st with
                  | Ok _ => fresh
                  | Err e => (Err e, r)
                  | Panic => (Panic, r)
                  end
              | None => fresh
              end
          end
      | None => fresh
      end
  | Err e => (Err e, r)
  | Panic => (Panic, r)
  end.

Definition get_schema_by_id (id : Z) (r : SchemaRegistry) : option SchemaEntry := global_schemas r !! id.

(** The record of a subject that has versions. *)
Definition live_subject (subject : string) (r : SchemaRegistry) : sres SubjectRecord :=
  match subjects r !! subject with
  | Some rec => if decide (sub_versions rec = []) then Err (SubjectNotFound subject) else Ok rec
  | None => Err (SubjectNotFound subject)
  end.

Definition get_schema_by_subject_version (subject version_str : string) (r : SchemaRegistry) : sres SchemaEntry :=
  rec ← live_subject subject r;
  if eq_ignore_ascii_case version_str "latest" then
    match last (sub_versions rec) with Some e => Ok e | None => Panic end
  else
    match parse_i32 version_str with
    | None => Err (VersionNotFound version_str)
    | Some ver =>
        match find_entry (λ e, bool_decide (se_version e = ver)) (sub_versions rec) with
        | Some e => Ok e
        | None => Err (VersionNotFound version_str)
        end
    end.

Definition list_subjects (r : SchemaRegistry) : list string :=
  merge_sort str_le
    ((filter (λ kv : string * SubjectRecord, sub_versions kv.2 ≠ []) (hash_iter (subjects r))).*1).

Definition list_versions (subject : string) (r : SchemaRegistry) : sres (list Z) :=
  rec ← live_subject subject r; Ok (se_version <$> sub_versions rec).

Definition check_schema_registered (subject schema : string) (schema_type : option SchemaType)
    (r : SchemaRegistry) : option SchemaEntry :=
  let st := default Avro schema_type in
  rec ← subjects r !! subject; find_entry (same_schema st schema) (sub_versions rec).

Definition set_versions (subject : string) (versions : list SchemaEntry) (r : SchemaRegistry) : SchemaRegistry :=
  mkRegistry (next_global_id r)
    (<[subject := mkSubject versions (sub_config (sub_entry subject r))]> (subjects r))
    (global_schemas r) (schema_fingerprints r) (global_config r).

Definition delete_subject (subject : string) (r : SchemaRegistry) : sres (list Z) * SchemaRegistry :=
  match live_subject subject r with
  | Ok rec => (Ok (se_version <$> sub_versions rec), set_versions subject [] r)
  | Err e => (Err e, r)
  | Panic => (Panic, r)
  end.

(** The version that a version string names, in a subject with versions. *)
Definition target_version (version_str : string) (versions : list SchemaEntry) : sres Z :=
  if eq_ignore_ascii_case version_str "latest" then
    match last versions with Some e => Ok (se_version e) | None => Panic end
  else
    match parse_i32 version_str with
    | Some v => Ok v
    | None => Err (VersionNotFound version_str)
    end.

Definition delete_version (subject version_str : string) (r : SchemaRegistry) : sres Z * SchemaRegistry :=
  match live_subject subject r with
  | Ok rec =>
      match target_version version_str (sub_versions rec) with
      | Ok target_ver =>
          match list_find (λ e, se_version e = target_ver) (sub_versions rec) with
          | Some (pos, _) => (Ok target_ver, set_versions subject (delete pos (sub_versions rec)) r)
          | None => (Err (VersionNotFound version_str), r)
          end
      | Err e => (Err e, r)
      | Panic => (Panic, r)
      end
  | Err e => (Err e, r)
  | Panic => (Panic, r)
  end.

Definition check_compatibility (subject version_str candidate_schema : string)
    (candidate_type : option SchemaType) (r : SchemaRegistry) : sres bool :=
  let st := default Avro candidate_type in
  _ ← validate_schema_syntax candidate_schema st;
  match subjects r !! subject with
  | None => Err (SubjectNotFound subject)
  | Some rec =>
      existing ←
        (if eq_ignore_ascii_case version_str "latest" then
           match last (sub_versions rec) with Some e => Ok e | None => Err (SubjectNotFound subject) end
         else
           match parse_i32 version_str with
           | None => Err (VersionNotFound version_str)
           | Some ver =>
               match find_entry (λ e, bool_decide (se_version e = ver)) (sub_versions rec) with
               | Some e => Ok e
               | None => Err (VersionNotFound version_str)
               end
           end);
      let level := default (global_config r) (sub_config rec) in
      match verify_compatibility level existing candidate_schema st with
      | Ok _ => Ok true
      | Err (IncompatibleSchema _) => Ok false
      | Err e => Err e
      | Panic => Panic
      end
  end.

Definition get_config (subject : option string) (r : SchemaRegistry) : CompatibilityLevel :=
  default (global_config r) (sub ← subject; rec ← subjects r !! sub; sub_config rec).

Definition set_config (subject : option string) (level : CompatibilityLevel) (r : SchemaRegistry)
    : SchemaRegistry :=
  match subject with
  | Some sub =>
      mkRegistry (next_global_id r)
        (<[sub := mkSubject (sub_versions (sub_entry sub r)) (Some level)]> (subjects r))
        (global_schemas r) (schema_fingerprints r) (global_config r)
  | None =>
      mkRegistry (next_global_id r) (subjects r) (global_schemas r) (schema_fingerprints r) level
  end.

Definition validate_magic_byte_payload (payload : bytes) (r : SchemaRegistry) : sres (option Z) :=
  match payload with
  | x00 :: b1 :: b2 :: b3 :: b4 :: _ =>
      let schema_id := i32 (from_be [b1; b2; b3; b4]) in
      match global_schemas r !! schema_id with
      | Some _ => Ok (Some schema_id)
      | None => Err (SchemaNotFound schema_id)
      end
  | _ => Ok None
  end.

Definition validate_record (payload : bytes) (require_magic_byte : bool) (r : SchemaRegistry)
    : sres (option Z) :=
  found ← validate_magic_byte_payload payload r;
  if require_magic_byte && bool_decide (found = None) then Err InvalidRecordPayload else Ok found.
End registry.

(** ** The invariant *)
Definition schema_key (e : SchemaEntry) : SchemaType * string := (se_schema_type e, se_schema e).

Record reg_ok (r : SchemaRegistry) : Prop := {
  ok_next : 1 ≤ next_global_id r;
  ok_prints k id : schema_fingerprints r !! k = Some id →
    1 ≤ id < next_global_id r ∧ str_trim k.2 = k.2
    ∧ ∃ e, global_schemas r !! id = Some e ∧ schema_key e = k;
  ok_globals id e : global_schemas r !! id = Some e →
    se_id e = id ∧ schema_fingerprints r !! schema_key e = Some id;
  ok_versions sub rec e : subjects r !! sub = Some rec → e ∈ sub_versions rec →
    se_subject e = sub ∧ schema_fingerprints r !! schema_key e = Some (se_id e) }.

(** [r'] knows every id that [r] knows, with its schema. *)
Definition extends (r r' : SchemaRegistry) : Prop :=
  schema_fingerprints r ⊆ schema_fingerprints r' ∧ next_global_id r ≤ next_global_id r'.

Section invariant.
Context `{SerdeJson}.
Implicit Types r : SchemaRegistry.

#[export] Instance extends_preorder : PreOrder extends.
Proof. split; [by intros r|]. intros r1 r2 r3 [? ?] [? ?]. split; [by etrans|lia]. Qed.

Lemma reg_ok_new : reg_ok registry_new.
Proof. split; cbn; [lia|intros ??|intros ??|intros ???]; by rewrite lookup_empty. Qed.

(** Changes of the subjects alone. *)
Lemma reg_ok_subjects r subs cfg : reg_ok r →
  (∀ sub rec e, subs !! sub = Some rec → e ∈ sub_versions rec →
     se_subject e = sub ∧ schema_fingerprints r !! schema_key e = Some (se_id e)) →
  reg_ok (mkRegistry (next_global_id r) subs (global_schemas r) (schema_fingerprints r) cfg).
Proof. intros [] Hs. split; done. Qed.

Lemma reg_ok_update r sub versions cfg gcfg : reg_ok r →
  (∀ e, e ∈ versions → e ∈ sub_versions (sub_entry sub r)) →
  reg_ok (mkRegistry (next_global_id r) (<[sub := mkSubject versions cfg]> (subjects r))
            (global_schemas r) (schema_fingerprints r) gcfg).
Proof.
  intros Hr Hv. apply reg_ok_subjects; [done|]. intros sub' rec e.
  destruct (decide (sub = sub')) as [<-|]; [rewrite lookup_insert_eq|rewrite lookup_insert_ne by done; by apply ok_versions].
  intros [= <-] Hin. apply Hv in Hin. unfold sub_entry in Hin.
  destruct (subjects r !! sub) as [rec|] eqn:E; [|by apply not_elem_of_nil in Hin]. by eapply ok_versions.
Qed.

Lemma assign_id_ok key r id r' : reg_ok r → next_global_id r < 2 ^ 31 - 1 → str_trim key.2 = key.2 →
  assign_id key r = (id, r') →
  schema_fingerprints r' !! key = Some id ∧ extends r r' ∧ subjects r' = subjects r
  ∧ global_schemas r' = global_schemas r ∧ next_global_id r' ≤ next_global_id r + 1
  ∧ (∀ k i, schema_fingerprints r' !! k = Some i → 1 ≤ i < next_global_id r' ∧ str_trim k.2 = k.2
       ∧ ((∃ e, global_schemas r !! i = Some e ∧ schema_key e = k) ∨ i = id ∧ k = key))
  ∧ (∀ e, global_schemas r !! id = Some e → schema_key e = key).
Proof.
  intros Hr Hn Hk. unfold assign_id. pose proof (ok_next r Hr). destruct (schema_fingerprints r !! key) as [i|] eqn:E.
  - intros [= <- <-]. split_and!; [done|reflexivity|done|done|lia| |].
    + intros k j Hj. destruct (ok_prints r Hr k j Hj) as (? & ? & ?). split_and!; [lia|lia|done|by left].
    + intros e He. destruct (ok_prints r Hr _ _ E) as (_ & _ & e' & He' & <-). by simplify_eq.
  - intros [= <- <-]. assert (i32 (next_global_id r + 1) = next_global_id r + 1) as ->.
    { apply wrap_s_small; [done|]. unfold in_s. change (32 - 1) with 31. lia. }
    split_and!; cbn; [by rewrite lookup_insert_eq| |done|done|lia| |].
    + split; cbn; [by apply insert_subseteq|lia].
    + intros k j. destruct (decide (k = key)) as [->|]; [rewrite lookup_insert_eq|rewrite lookup_insert_ne by done].
      * intros [= <-]. split_and!; [lia|lia|done|by right].
      * intros Hj. destruct (ok_prints r Hr k j Hj) as (? & ? & ?). split_and!; [lia|lia|done|by left].
    + intros e He. destruct (ok_globals r Hr _ _ He) as [_ Hf].
      destruct (ok_prints r Hr _ _ Hf) as (? & _). lia.
Qed.

Lemma push_version_ok sub st s refs id r r' : reg_ok r → next_global_id r < 2 ^ 31 - 1 → str_trim s = s →
  assign_id (st, s) r = (id, r') → reg_ok (push_version sub st s refs id r').
Proof.
  intros Hr Hn Hs Ha.
  destruct (assign_id_ok (st, s) r id r' Hr Hn Hs Ha) as (Hid & [Hsub Hnx] & Esub & Eg & _ & Hp & He).
  assert (∀ k i, schema_fingerprints r !! k = Some i → schema_fingerprints r' !! k = Some i) as Hmono.
  { intros k i Hki. by eapply lookup_weaken. }
  split; cbn.
  - pose proof (ok_next r Hr). lia.
  - intros k i Hki. destruct (Hp k i Hki) as (? & ? & Hor). split_and!; [lia|lia|done|].
    destruct (decide (i = id)) as [->|].
    + rewrite lookup_insert_eq. eexists. split; [done|]. destruct Hor as [(e & Hge & <-)|[_ ->]]; [|done].
      by rewrite (He e Hge).
    + rewrite lookup_insert_ne by done. rewrite Eg. destruct Hor as [?|[? _]]; done.
  - intros i e. destruct (decide (i = id)) as [->|].
    + rewrite lookup_insert_eq. by intros [= <-].
    + rewrite lookup_insert_ne, Eg by done. intros Hge. destruct (ok_globals r Hr _ _ Hge). split; [done|by apply Hmono].
  - intros sub' rec e. assert (∀ s' rec' e', subjects r' !! s' = Some rec' → e' ∈ sub_versions rec' →
      se_subject e' = s' ∧ schema_fingerprints r' !! schema_key e' = Some (se_id e')) as Hold.
    { intros s' rec' e'. rewrite Esub. intros Hl Hin. destruct (ok_versions r Hr _ _ _ Hl Hin). split; [done|by apply Hmono]. }
    destruct (decide (sub = sub')) as [<-|]; [rewrite lookup_insert_eq|rewrite lookup_insert_ne by done; apply Hold].
    intros [= <-]. cbn. rewrite elem_of_app, list_elem_of_singleton. intros [Hin| ->]; [|done].
    unfold sub_entry in Hin. destruct (subjects r' !! sub) as [rec|] eqn:E; [by eapply Hold|by apply not_elem_of_nil in Hin].
Qed.

Lemma find_entry_some P l e : find_entry P l = Some e → e ∈ l ∧ P e = true.
Proof.
  unfold find_entry. destruct (list_find P l) as [[i e']|] eqn:E; [|done]. intros [= <-].
  apply list_find_Some in E as (Hi & He & _). split; [by eapply list_elem_of_lookup_2|]. by apply Is_true_eq_true.
Qed.

Lemma same_schema_key r sub rec st schema e : reg_ok r → subjects r !! sub = Some rec →
  e ∈ sub_versions rec → same_schema st schema e = true → schema_key e = (st, str_trim schema).
Proof.
  intros Hr Hs Hin He. apply bool_decide_eq_true in He as [<- <-].
  destruct (ok_versions r Hr _ _ _ Hs Hin) as [_ Hf]. destruct (ok_prints r Hr _ _ Hf) as (_ & Ht & _).
  unfold schema_key. cbn in Ht. by rewrite Ht.
Qed.

(** What registering does, on every branch. *)
Lemma register_schema_spec sub schema st refs r out r' : reg_ok r → next_global_id r < 2 ^ 31 - 1 →
  register_schema sub schema st refs r = (out, r') →
  reg_ok r' ∧ extends r r' ∧ next_global_id r' ≤ next_global_id r + 1
  ∧ match out with
    | Ok id => schema_fingerprints r' !! (default Avro st, str_trim schema) = Some id
    | _ => r' = r
    end.
Proof.
  intros Hr Hn. unfold register_schema. set (key := (default Avro st, str_trim schema)).
  destruct (assign_id key r) as [id r1] eqn:Ha.
  assert (str_trim key.2 = key.2) as Hk by apply str_trim_idemp.
  destruct (assign_id_ok key r id r1 Hr Hn Hk Ha) as (Hid & Hx & _ & _ & Hnx & _).
  pose proof (push_version_ok sub key.1 key.2 refs id r r1 Hr Hn Hk Ha) as Hpush.
  destruct (validate_schema_syntax schema (default Avro st)); [|by intros [= <- <-]; split_and!; try lia..].
  destruct (subjects r !! sub) as [rec|] eqn:Hs; [|by intros [= <- <-]].
  destruct (find_entry _ (sub_versions rec)) as [e|] eqn:Hf.
  - intros [= <- <-]. split_and!; [done|done|lia|]. apply find_entry_some in Hf as [Hin He].
    pose proof (same_schema_key r sub rec _ _ e Hr Hs Hin He) as Hkey. fold key in Hkey. rewrite <- Hkey.
    by apply (ok_versions r Hr sub rec e).
  - destruct (last (sub_versions rec)) as [latest|]; [|by intros [= <- <-]].
    destruct (verify_compatibility _ _ _ _); intros [= <- <-]; split_and!; done || lia.
Qed.

Lemma set_versions_ok sub versions r : reg_ok r →
  (∀ e, e ∈ versions → e ∈ sub_versions (sub_entry sub r)) → reg_ok (set_versions sub versions r).
Proof. apply reg_ok_update. Qed.

Lemma live_subject_entry sub r rec : live_subject sub r = Ok rec → sub_entry sub r = rec.
Proof.
  unfold live_subject, sub_entry. destruct (subjects r !! sub); [|done]. by case_decide; intros [= <-].
Qed.

Lemma delete_subject_ok sub r : reg_ok r → reg_ok (delete_subject sub r).2.
Proof.
  intros Hr. unfold delete_subject. destruct (live_subject sub r); [|done..].
  apply set_versions_ok; [done|]. by intros e ?%not_elem_of_nil.
Qed.

Lemma delete_version_ok sub v r : reg_ok r → reg_ok (delete_version sub v r).2.
Proof.
  intros Hr. unfold delete_version. destruct (live_subject sub r) as [rec| |] eqn:E; [|done..].
  apply live_subject_entry in E. destruct (target_version v (sub_versions rec)); [|done..].
  destruct (list_find _ _) as [[pos e]|]; [|done]. apply set_versions_ok; [done|].
  intros e' (i & Hi)%list_elem_of_lookup. rewrite E. rewrite list_lookup_delete in Hi.
  case_match; by eapply list_elem_of_lookup_2.
Qed.

Lemma set_config_ok sub level r : reg_ok r → reg_ok (set_config sub level r).
Proof. intros Hr. destruct sub; [by apply reg_ok_update|by destruct Hr]. Qed.
End invariant.

(** ** Histories of a registry *)
Inductive registry_op :=
| ORegister (subject schema : string) (schema_type : option SchemaType) (references : list SchemaReference)
| ODeleteSubject (subject : string)
| ODeleteVersion (subject version_str : string)
| OSetConfig (subject : option string) (level : CompatibilityLevel).

Section histories.
Context `{SerdeJson}.

Definition apply_op (r : SchemaRegistry) (o : registry_op) : SchemaRegistry :=
  match o with
  | ORegister sub schema st refs => (register_schema sub schema st refs r).2
  | ODeleteSubject sub => (delete_subject sub r).2
  | ODeleteVersion sub v => (delete_version sub v r).2
  | OSetConfig sub level => set_config sub level r
  end.
Definition history (ops : list registry_op) (r : SchemaRegistry) : SchemaRegistry := foldl apply_op r ops.

Lemma apply_op_ok r o : reg_ok r → next_global_id r < 2 ^ 31 - 1 →
  reg_ok (apply_op r o) ∧ extends r (apply_op r o) ∧ next_global_id (apply_op r o) ≤ next_global_id r + 1.
Proof.
  intros Hr Hn. destruct o as [sub schema st refs|sub|sub v|sub level]; cbn [apply_op].
  - destruct (register_schema _ _ _ _ _) as [out r'] eqn:E.
    by destruct (register_schema_spec _ _ _ _ _ _ _ Hr Hn E) as (? & ? & ? & _).
  - split; [by apply delete_subject_ok|]. unfold delete_subject, set_versions, extends.
    by destruct (live_subject sub r); cbn; split_and!; try lia.
  - split; [by apply delete_version_ok|]. unfold delete_version, set_versions, extends.
    repeat case_match; simplify_eq/=; split_and!; done || lia.
  - split; [by apply set_config_ok|]. unfold extends. by destruct sub; cbn; split_and!; try lia.
Qed.

Lemma history_ok ops r : reg_ok r → next_global_id r + zlen ops < 2 ^ 31 →
  let r' := history ops r in
  reg_ok r' ∧ extends r r' ∧ next_global_id r' ≤ next_global_id r + zlen ops.
Proof.
  unfold history. revert r. induction ops as [|o ops IH]; intros r Hr Hn; cbn.
  { split_and!; [done|reflexivity|unfold zlen; cbn; lia]. }
  rewrite zlen_cons in *. pose proof (zlen_nonneg ops).
  destruct (apply_op_ok r o Hr) as (Hr1 & Hx1 & Hn1); [lia|].
  destruct (IH (apply_op r o) Hr1) as (Hr2 & Hx2 & Hn2); [lia|]. split_and!; [done|by etrans|lia].
Qed.
End histories.

Lemma validate_framed r id e data : in_s 32 id → global_schemas r !! id = Some e →
  validate_magic_byte_payload (x00 :: to_be 4 id ++ data) r = Ok (Some id).
Proof.
  intros Hid He. destruct (to_be 4 id) as [|b1 [|b2 [|b3 [|b4 [|]]]]] eqn:E; try done.
  cbn [app validate_magic_byte_payload]. rewrite <- E, from_be_to_be.
  change (256 ^ Z.of_nat 4) with (2 ^ 32). rewrite wrap_s_of_residue by done. by rewrite He.
Qed.

(** ** Properties *)

(** Schema ids are permanent and mean one schema.  In any history of fewer
    than 2^31 - 1 operations, when a registration returns an id, then ever
    after, whatever is registered, deleted or reconfigured: the id resolves to
    that schema (trimmed) and type; another registration returns the same id
    exactly when it is of the same schema and type, whatever the subject; and
    a payload framed with the id passes the payload check. *)
Theorem schema_ids_permanent `{SerdeJson} before subject schema st refs id after :
  zlen before + zlen after < 2 ^ 31 - 3 →
  let '(out, r) := register_schema subject schema st refs (history before registry_new) in
  let r' := history after r in
  out = Ok id →
  (∃ e, get_schema_by_id id r' = Some e ∧ se_schema e = str_trim schema
        ∧ se_schema_type e = default Avro st)
  ∧ (∀ subject' schema' st' refs' id', (register_schema subject' schema' st' refs' r').1 = Ok id' →
       id' = id ↔ str_trim schema' = str_trim schema ∧ default Avro st' = default Avro st)
  ∧ (∀ data, validate_magic_byte_payload (x00 :: to_be 4 id ++ data) r' = Ok (Some id)).
Proof.
  intros Hn. pose proof (zlen_nonneg before). pose proof (zlen_nonneg after).
  destruct (history_ok before registry_new reg_ok_new) as (Hr0 & _ & N0); [cbn; lia|]. cbn [registry_new next_global_id] in N0.
  destruct (register_schema _ _ _ _ _) as [out r] eqn:E. intros r' ->.
  destruct (register_schema_spec _ _ _ _ _ _ _ Hr0 ltac:(lia) E) as (Hr1 & _ & N1 & Hf).
  destruct (history_ok after r Hr1) as (Hr2 & [X2 _] & N2); [lia|]. fold r' in Hr2, X2, N2.
  assert (schema_fingerprints r' !! (default Avro st, str_trim schema) = Some id) as Hid by by eapply lookup_weaken.
  destruct (ok_prints r' Hr2 _ _ Hid) as (Hrange & _ & e & He & Hke). split_and!.
  - exists e. unfold schema_key in Hke. by simplify_eq.
  - intros sub' schema' st' refs' id'. destruct (register_schema sub' schema' st' refs' r') as [out' r2] eqn:E'.
    intros [= ->]. destruct (register_schema_spec _ _ _ _ _ _ _ Hr2 ltac:(lia) E') as (Hr3 & [X3 _] & _ & Hf').
    split.
    + intros ->. destruct (ok_prints r2 Hr3 _ _ Hf') as (_ & _ & e1 & He1 & Hk1).
      destruct (ok_prints r2 Hr3 _ _ (lookup_weaken _ _ _ _ Hid X3)) as (_ & _ & e2 & He2 & Hk2).
      assert (e1 = e2) as -> by congruence. rewrite Hk1 in Hk2. by injection Hk2.
    + intros [Es Et]. rewrite Es, Et in Hf'. pose proof (lookup_weaken _ _ _ _ Hid X3). congruence.
  - intros data. apply (validate_framed _ _ e); [|done]. unfold in_s. change (32 - 1) with 31. lia.
Qed.

(** A concrete parser, for evaluation: every text is a value without fields. *)
Definition toy_json : SerdeJson := {|
  Value := string; Value_eq_dec := _; Null := "null"%string; from_str := inr;
  get_field _ _ := None; show_value := id; null_no_field _ := eq_refl |}.

Lemma schema_ids_permanent_witness :
  let before := [ORegister "a" "message A" (Some Protobuf) []] in
  let after := [ODeleteSubject "a"; ODeleteSubject "b"] in
  let r' := history (H:=toy_json) after
              (register_schema (H:=toy_json) "b" " message B " (Some Protobuf) []
                 (history (H:=toy_json) before registry_new)).2 in
  (∃ e, get_schema_by_id 2 r' = Some e ∧ se_schema e = "message B"%string ∧ se_schema_type e = Protobuf)
  ∧ (∀ subject' schema' st' refs' id',
       (register_schema (H:=toy_json) subject' schema' st' refs' r').1 = Ok id' →
       id' = 2 ↔ str_trim schema' = "message B"%string ∧ default Avro st' = Protobuf)
  ∧ (∀ data, validate_magic_byte_payload (x00 :: to_be 4 2 ++ data) r' = Ok (Some 2)).
Proof.
  intros before after.
  assert (zlen before + zlen after < 2 ^ 31 - 3) as Hn by done.
  assert ((register_schema (H:=toy_json) "b" " message B " (Some Protobuf) []
             (history (H:=toy_json) before registry_new)).1 = Ok 2) as Hout by by vm_compute.
  pose proof (@schema_ids_permanent toy_json before "b" " message B " (Some Protobuf) [] 2 after Hn) as Ht.
  destruct (register_schema _ _ _ _ _) as [out r]. exact (Ht Hout).
Defined.

(** Version numbers repeat.  A version is numbered by the count of the versions
    that are left, so that after the deletion of an older version two versions
    of a subject have the same number, and the newer one cannot be read or
    deleted by its number. *)
Theorem version_numbers_repeat `{SerdeJson} :
  let r := history [ORegister "s" "message A" (Some Protobuf) [];
                    ORegister "s" "message B" (Some Protobuf) [];
                    ODeleteVersion "s" "1";
                    ORegister "s" "message C" (Some Protobuf) []] registry_new in
  list_versions "s" r = Ok [2; 2]
  ∧ (∃ e, get_schema_by_subject_version "s" "2" r = Ok e ∧ se_schema e = "message B"%string)
  ∧ (∃ e, get_schema_by_subject_version "s" "latest" r = Ok e ∧ se_version e = 2
          ∧ se_schema e = "message C"%string).
Proof. split; [by vm_compute|]. split; eexists; by vm_compute. Qed.
