(* ===== verification/Chaos.v ===== *)
(** * Fault injection

    Models [crates/oxidemq-broker/src/chaos.rs].  Probabilities are IEEE 754
    doubles, as [SpecFloat] defines them. *)

From Stdlib Require Import Floats.SpecFloat.
From stdpp Require Import base numbers list strings.
From S2P Require Import Prelude Bytes CoreTypes.

Abbreviation f64 := spec_float.
(** [n as f64], for an [n] that a double represents. *)
Definition f64_of (n : Z) : f64 := binary_normalize 53 1024 n 0 false.
Definition f64_div : f64 → f64 → f64 := SFdiv 53 1024.

Inductive FaultTarget := TProduce | TFetch | TWal | TS3Storage.
#[export] Instance FaultTarget_eq_dec : EqDecision FaultTarget.
Proof. solve_decision. Defined.

Definition target_debug (t : FaultTarget) : string :=
  match t with TProduce => "Produce" | TFetch => "Fetch" | TWal => "Wal" | TS3Storage => "S3Storage" end.

Record ChaosRule := mkRule {
  ru_id : string; ru_target : FaultTarget; ru_latency_ms : Z; ru_error_probability : f64;
  ru_error_message : option string }.

Record ChaosEngine := mkChaos {
  ch_rules : list ChaosRule; ch_enabled : bool; ch_injected_count : Z }.

Definition chaos_new : ChaosEngine := mkChaos [] true 0.
Definition set_enabled (enabled : bool) (c : ChaosEngine) : ChaosEngine :=
  mkChaos (ch_rules c) enabled (ch_injected_count c).
Definition add_rule (rule : ChaosRule) (c : ChaosEngine) : ChaosEngine :=
  mkChaos (filter (λ r, ru_id r ≠ ru_id rule) (ch_rules c) ++ [rule]) (ch_enabled c) (ch_injected_count c).
Definition remove_rule (rule_id : string) (c : ChaosEngine) : ChaosEngine :=
  mkChaos (filter (λ r, ru_id r ≠ rule_id) (ch_rules c)) (ch_enabled c) (ch_injected_count c).
Definition clear_rules (c : ChaosEngine) : ChaosEngine := mkChaos [] (ch_enabled c) (ch_injected_count c).
Definition list_rules (c : ChaosEngine) : list ChaosRule := ch_rules c.

Definition injected (c : ChaosEngine) : ChaosEngine :=
  mkChaos (ch_rules c) (ch_enabled c) (u64 (ch_injected_count c + 1)).

Definition should_fail (rule : ChaosRule) (c : ChaosEngine) : bool :=
  if SFltb (f64_of 0) (ru_error_probability rule) then
    if SFleb (f64_of 1) (ru_error_probability rule) then true
    else
      let hash := f64_div (f64_of (u64 (ch_injected_count c * 6364136223846793005) mod 10000)) (f64_of 10000) in
      SFltb hash (ru_error_probability rule)
  else false.

Fixpoint check_rules (target : FaultTarget) (rules : list ChaosRule) (c : ChaosEngine)
    : result (option Z) * ChaosEngine :=
  match rules with
  | [] => (Ok None, c)
  | rule :: rules =>
      if decide (ru_target rule = target) then
        if should_fail rule c then
          (Err (EIo (default ("Chaos injected failure for " +:+ target_debug target) (ru_error_message rule))),
           injected c)
        else if decide (ru_latency_ms rule > 0) then (Ok (Some (ru_latency_ms rule)), injected c)
        else check_rules target rules c
      else check_rules target rules c
  end.

Definition check_fault (target : FaultTarget) (c : ChaosEngine) : result (option Z) * ChaosEngine :=
  if negb (ch_enabled c) then (Ok None, c) else check_rules target (ch_rules c) c.

(** ** Lemmas *)

(** Only rules of the target act, and none acts on a disabled engine. *)
Lemma check_fault_quiet target c :
  ch_enabled c = false ∨ Forall (λ r, ru_target r ≠ target) (ch_rules c) →
  check_fault target c = (Ok None, c).
Proof.
  unfold check_fault. intros [->|Hr]; [done|]. destruct (ch_enabled c); [cbn|done].
  generalize c at 2 3. intros c'. induction Hr as [|r rs Hne _ IH]; [done|]. cbn.
  by rewrite decide_False.
Qed.

Lemma check_rules_rules target rules c : ch_rules (check_rules target rules c).2 = ch_rules c.
Proof. induction rules as [|r rs IH]; [done|]. cbn. by repeat case_match. Qed.

Lemma check_fault_rules target c : ch_rules (check_fault target c).2 = ch_rules c.
Proof. unfold check_fault. case_match; [done|apply check_rules_rules]. Qed.

(** A check that injects nothing leaves the counter as it is. *)
Lemma check_fault_silent target c c' : check_fault target c = (Ok None, c') → c' = c.
Proof.
  unfold check_fault. destruct (ch_enabled c); cbn; [|by intros [= <-]].
  generalize (ch_rules c) as rules. induction rules as [|r rs IH]; cbn; [by intros [= <-]|].
  repeat case_match; naive_solver.
Qed.

Fixpoint checks (n : nat) (target : FaultTarget) (c : ChaosEngine) : list (result (option Z)) :=
  match n with
  | O => []
  | S n => let '(out, c) := check_fault target c in out :: checks n target c
  end.

Lemma checks_silent n target c : check_fault target c = (Ok None, c) → checks n target c = replicate n (Ok None).
Proof. intros Hc. induction n as [|n IH]; [done|]. cbn. by rewrite Hc, IH. Qed.

(** ** Properties *)

(** Error rules die out.  The pseudo-random draw depends on the count of injected
    faults alone, which a check that injects nothing does not change: a rule that
    should fail half of the requests fails the first two, and no request after
    them. *)
Theorem error_rule_dies_out n :
  let rule := mkRule "half" TProduce 0 (f64_div (f64_of 1) (f64_of 2)) (Some "boom"%string) in
  checks (2 + n) TProduce (add_rule rule chaos_new)
    = [Err (EIo "boom"); Err (EIo "boom")] ++ replicate n (Ok None).
Proof.
  intros rule. cbn [Nat.add checks].
  set (c1 := (check_fault TProduce (add_rule rule chaos_new)).2).
  set (c2 := (check_fault TProduce c1).2).
  assert (check_fault TProduce (add_rule rule chaos_new) = (Err (EIo "boom"), c1)) as -> by by vm_compute.
  assert (check_fault TProduce c1 = (Err (EIo "boom"), c2)) as -> by by vm_compute.
  cbn [app]. do 2 f_equal. apply checks_silent. by vm_compute.
Qed.
