(* ===== verification/Http.v ===== *)
(** * HTTP endpoints

    Models [crates/oxidemq-server/src/schema_registry_http.rs] and
    [crates/oxidemq-server/src/admin.rs]: the routes, their handlers and the
    JSON they answer with.  Axum (path matching and extractors) decides which
    handler runs: a segment in braces stands for any one segment, a path that
    is not routed is 404 and a method that is not routed 405, and a request
    whose path or JSON body cannot be extracted is refused before a handler
    runs.  Parsing of JSON bodies is a parameter. *)

From Stdlib Require Import Strings.Byte.
From stdpp Require Import base numbers list strings sets gmap.
From S2P Require Import Prelude Bytes Text CoreTypes Cluster Group State SchemaRegistry Chaos.

(** ** JSON answers

    The fields of an object in the order of the source. *)
#[local] Set Warnings "-register-all".
Inductive json :=
| JNull
| JInt (z : Z)
| JFloat (f : f64)
| JBool (b : bool)
| JStr (s : string)
| JArr (l : list json)
| JObj (l : list (string * json)).

Inductive Body := BText (s : string) | BHtml | BJson (j : json).
Record HttpResponse := mkHttp { h_status : Z; h_content_type : string; h_body : Body }.

(** A handler's response; [Err status] when axum answers in its place. *)
Abbreviation reply := (res Z HttpResponse).

Definition text (s : string) : reply := Ok (mkHttp 200 "text/plain; charset=utf-8" (BText s)).
Definition ok_json (j : json) : reply := Ok (mkHttp 200 "application/json" (BJson j)).

Inductive Method := GET | POST | PUT | DELETE.
#[export] Instance Method_eq_dec : EqDecision Method.
Proof. solve_decision. Defined.

Definition not_found : reply := Err 404.
Definition method_not_allowed : reply := Err 405.
Definition bad_request : reply := Err 400.

(** ** The schema registry's API *)
Record RegisterSchemaRequest := mkRegisterReq {
  rq_schema : string; rq_schema_type : option SchemaType; rq_references : list SchemaReference }.
Record ConfigUpdateRequest := mkConfigReq {
  cu_compatibility : option CompatibilityLevel; cu_compatibility_level : option CompatibilityLevel }.
Record AdvertisedConfigRequest := mkAdvertised { ad_host : option string; ad_port : option Z }.

(** The [Json] extractor for each body type: the value, or the status it refuses
    the request with. *)
Class JsonBody := {
  register_body : bytes → Z + RegisterSchemaRequest;
  config_body : bytes → Z + ConfigUpdateRequest;
  snapshot_body : bytes → Z + ClusterStateSnapshot;
  rule_body : bytes → Z + ChaosRule;
  advertised_body : bytes → Z + AdvertisedConfigRequest }.

Definition type_json (t : SchemaType) : json :=
  JStr (match t with Avro => "AVRO" | Protobuf => "PROTOBUF" | Json => "JSON" end).
Definition level_json (l : CompatibilityLevel) : json :=
  JStr (match l with
        | CompatNone => "NONE" | Backward => "BACKWARD" | BackwardTransitive => "BACKWARD_TRANSITIVE"
        | Forward => "FORWARD" | ForwardTransitive => "FORWARD_TRANSITIVE"
        | Full => "FULL" | FullTransitive => "FULL_TRANSITIVE"
        end).
Definition reference_json (r : SchemaReference) : json :=
  JObj [("name", JStr (sr_name r)); ("subject", JStr (sr_subject r)); ("version", JInt (sr_version r))].
Definition entry_json (e : SchemaEntry) : json :=
  JObj ([("subject", JStr (se_subject e)); ("version", JInt (se_version e)); ("id", JInt (se_id e));
         ("schemaType", type_json (se_schema_type e)); ("schema", JStr (se_schema e))]
        ++ (if decide (se_references e = []) then [] else [("references", JArr (reference_json <$> se_references e))])).

Definition error_string (e : SchemaRegistryError) : string :=
  match e with
  | SubjectNotFound s => "Subject '" +:+ s +:+ "' not found."
  | VersionNotFound v => "Version " +:+ v +:+ " not found."
  | SchemaNotFound id => "Schema " +:+ dec id +:+ " not found."
  | InvalidSchema m => "Invalid schema: " +:+ m
  | IncompatibleSchema m => "Schema being registered is incompatible with an earlier schema: " +:+ m
  | InvalidRecordPayload => "Record payload is invalid or missing required Confluent schema header"
  end.

(** [SchemaError::into_response] *)
Definition schema_error (e : SchemaRegistryError) : HttpResponse :=
  let '(status, code) := error_details e in
  mkHttp status "application/vnd.schemaregistry.v1+json"
    (BJson (JObj [("error_code", JInt code); ("message", JStr (error_string e))])).

Definition answer {A} (f : A → reply) (r : sres A) : reply :=
  match r with
  | Ok x => f x
  | Err e => Ok (schema_error e)
  | Panic => Panic
  end.

Definition with_body {A B} (parsed : Z + A) (k : A → reply * B) (s : B) : reply * B :=
  match parsed with inl status => (Err status, s) | inr req => k req end.

(** What the routes lead to, with what their braces matched. *)
Inductive Endpoint :=
| ERoot | EHealth | ESubjects
| ESubject (subject : string)
| EVersions (subject : string)
| EVersion (subject version : string)
| EVersionRaw (subject version : string)
| ESchemaId (id : string)
| ESchemaIdRaw (id : string)
| ECompatibility (subject version : string)
| EGlobalConfig
| ESubjectConfig (subject : string).

Section registry_api.
Context `{SerdeJson} `{HO : HashOrder} `{JsonBody}.
Implicit Types r : SchemaRegistry.

Definition list_subjects_handler r : reply := ok_json (JArr (JStr <$> list_subjects r)).

Definition register_schema_handler (subject : string) (req : RegisterSchemaRequest) r : reply * SchemaRegistry :=
  let '(out, r) := register_schema subject (rq_schema req) (rq_schema_type req) (rq_references req) r in
  (answer (λ id, ok_json (JObj [("id", JInt id)])) out, r).

Definition list_versions_handler (subject : string) r : reply :=
  answer (λ vers, ok_json (JArr (JInt <$> vers))) (list_versions subject r).

Definition get_subject_version_handler (subject version : string) r : reply :=
  answer (λ e, ok_json (entry_json e)) (get_schema_by_subject_version subject version r).

Definition get_subject_version_raw_schema_handler (subject version : string) r : reply :=
  answer (λ e, text (se_schema e)) (get_schema_by_subject_version subject version r).

Definition get_schema_by_id_handler (id : Z) r : reply :=
  match get_schema_by_id id r with
  | Some e => ok_json (JObj [("schema", JStr (se_schema e)); ("schemaType", type_json (se_schema_type e));
                             ("references", JArr (reference_json <$> se_references e))])
  | None => Ok (schema_error (SchemaNotFound id))
  end.

Definition get_schema_by_id_raw_handler (id : Z) r : reply :=
  match get_schema_by_id id r with
  | Some e => text (se_schema e)
  | None => Ok (schema_error (SchemaNotFound id))
  end.

Definition check_schema_handler (subject : string) (req : RegisterSchemaRequest) r : reply :=
  match check_schema_registered subject (rq_schema req) (rq_schema_type req) r with
  | Some e => ok_json (entry_json e)
  | None => Ok (schema_error (SchemaNotFound (-1)))
  end.

Definition delete_subject_handler (subject : string) r : reply * SchemaRegistry :=
  let '(out, r) := delete_subject subject r in (answer (λ vers, ok_json (JArr (JInt <$> vers))) out, r).

Definition delete_version_handler (subject version : string) r : reply * SchemaRegistry :=
  let '(out, r) := delete_version subject version r in (answer (λ ver, ok_json (JInt ver)) out, r).

Definition check_compatibility_handler (subject version : string) (req : RegisterSchemaRequest) r : reply :=
  answer (λ b, ok_json (JObj [("is_compatible", JBool b)]))
    (check_compatibility subject version (rq_schema req) (rq_schema_type req) r).

Definition level_answer (l : CompatibilityLevel) : reply := ok_json (JObj [("compatibilityLevel", level_json l)]).
Definition requested_level (req : ConfigUpdateRequest) : CompatibilityLevel :=
  default Backward (match cu_compatibility_level req with Some l => Some l | None => cu_compatibility req end).

Definition get_global_config r : reply := level_answer (get_config None r).
Definition put_global_config (req : ConfigUpdateRequest) r : reply * SchemaRegistry :=
  let lvl := requested_level req in (level_answer lvl, set_config None lvl r).
Definition get_subject_config (subject : string) r : reply := level_answer (get_config (Some subject) r).
Definition put_subject_config (subject : string) (req : ConfigUpdateRequest) r : reply * SchemaRegistry :=
  let lvl := requested_level req in (level_answer lvl, set_config (Some subject) lvl r).

Definition root_handler : reply := text "oxideMq Confluent-Compatible Schema Registry v1".
Definition health_handler : reply := text "OK".

(** [create_schema_registry_routes]; no path matches two routes. *)
Definition registry_routes (path : list string) : option Endpoint :=
  match path with
  | [a] =>
      if decide (a = "subjects"%string) then Some ESubjects
      else if decide (a = "config"%string) then Some EGlobalConfig else None
  | [a; b] =>
      if decide (a = "subjects"%string) then Some (ESubject b)
      else if decide (a = "config"%string) then Some (ESubjectConfig b) else None
  | [a; b; c] =>
      if decide (a = "subjects"%string ∧ c = "versions"%string) then Some (EVersions b)
      else if decide (a = "schemas"%string ∧ b = "ids"%string) then Some (ESchemaId c) else None
  | [a; b; c; d] =>
      if decide (a = "subjects"%string ∧ c = "versions"%string) then Some (EVersion b d)
      else if decide (a = "schemas"%string ∧ b = "ids"%string ∧ d = "schema"%string) then Some (ESchemaIdRaw c)
      else None
  | [a; b; c; d; e] =>
      if decide (a = "subjects"%string ∧ c = "versions"%string ∧ e = "schema"%string) then Some (EVersionRaw b d)
      else if decide (a = "compatibility"%string ∧ b = "subjects"%string ∧ d = "versions"%string)
      then Some (ECompatibility c e) else None
  | _ => None
  end.

(** The routes of the standalone server. *)
Definition route (path : list string) : option Endpoint :=
  if decide (path = []) then Some ERoot
  else if decide (path = ["_oxidemq"; "health"]%string) then Some EHealth
  else registry_routes path.

Definition endpoint (m : Method) (e : Endpoint) (body : bytes) r : reply * SchemaRegistry :=
  match e, m with
  | ERoot, GET => (root_handler, r)
  | EHealth, GET => (health_handler, r)
  | ESubjects, GET => (list_subjects_handler r, r)
  | ESubject subject, POST => with_body (register_body body) (λ req, (check_schema_handler subject req r, r)) r
  | ESubject subject, DELETE => delete_subject_handler subject r
  | EVersions subject, GET => (list_versions_handler subject r, r)
  | EVersions subject, POST => with_body (register_body body) (λ req, register_schema_handler subject req r) r
  | EVersion subject version, GET => (get_subject_version_handler subject version r, r)
  | EVersion subject version, DELETE => delete_version_handler subject version r
  | EVersionRaw subject version, GET => (get_subject_version_raw_schema_handler subject version r, r)
  | ESchemaId id, GET =>
      (match parse_i32 id with Some id => get_schema_by_id_handler id r | None => bad_request end, r)
  | ESchemaIdRaw id, GET =>
      (match parse_i32 id with Some id => get_schema_by_id_raw_handler id r | None => bad_request end, r)
  | ECompatibility subject version, POST =>
      with_body (register_body body) (λ req, (check_compatibility_handler subject version req r, r)) r
  | EGlobalConfig, GET => (get_global_config r, r)
  | EGlobalConfig, PUT => with_body (config_body body) (λ req, put_global_config req r) r
  | ESubjectConfig subject, GET => (get_subject_config subject r, r)
  | ESubjectConfig subject, PUT => with_body (config_body body) (λ req, put_subject_config subject req r) r
  | _, _ => (method_not_allowed, r)
  end.

Definition schema_registry_router (m : Method) (path : list string) (body : bytes) r : reply * SchemaRegistry :=
  match route path with
  | None => (not_found, r)
  | Some e => endpoint m e body r
  end.
End registry_api.

(** ** The admin API *)
Record AppState := mkApp {
  ap_cluster : ClusterState; ap_groups : GroupCoordinator; ap_chaos : ChaosEngine; ap_start_time : Z }.

Definition partition_json (p : PartitionSnapshot) : json :=
  JObj [("topic", JStr (ps_topic p)); ("partition", JInt (ps_partition p)); ("stream_id", JInt (ps_stream_id p));
        ("high_watermark", JInt (ps_high_watermark p)); ("log_start_offset", JInt (ps_log_start_offset p))].
Definition opt_json (o : option string) : json := match o with Some s => JStr s | None => JNull end.
Definition rule_json (r : ChaosRule) : json :=
  JObj [("id", JStr (ru_id r)); ("target", JStr (target_debug (ru_target r))); ("latency_ms", JInt (ru_latency_ms r));
        ("error_probability", JFloat (ru_error_probability r)); ("error_message", opt_json (ru_error_message r))].
Definition status_json (status message : string) : json :=
  JObj [("status", JStr status); ("message", JStr message)].

Section admin_api.
Context `{HO : HashOrder} `{JsonBody}.

Definition group_json (g : ConsumerGroupSnapshot) : json :=
  JObj [("group_id", JStr (gs_group_id g)); ("state", JStr (gs_state g)); ("generation_id", JInt (gs_generation_id g));
        ("leader_id", opt_json (gs_leader_id g));
        ("offsets", JObj (prod_map id JInt <$> hash_iter (gs_offsets g)))].
Definition snapshot_json (s : ClusterStateSnapshot) : json :=
  JObj [("node_id", JInt (sn_node_id s)); ("cluster_id", JStr (sn_cluster_id s));
        ("partitions", JArr (partition_json <$> sn_partitions s));
        ("consumer_groups", JArr (group_json <$> sn_consumer_groups s)); ("timestamp_ms", JInt (sn_timestamp_ms s))].

Definition status_handler (now mono : Z) (a : AppState) : reply :=
  let snapshot := capture now (ap_cluster a) (ap_groups a) in
  ok_json (JObj [("cluster_id", JStr (cs_cluster_id (ap_cluster a))); ("node_id", JInt (cs_node_id (ap_cluster a)));
    ("partitions", JArr (partition_json <$> sn_partitions snapshot));
    ("consumer_groups", JArr (group_json <$> sn_consumer_groups snapshot));
    ("active_chaos_rules", JInt (zlen (list_rules (ap_chaos a))));
    ("uptime_secs", JInt (Z.div (mono - ap_start_time a) 1000)); ("version", JStr "0.1.0")]).

Definition dump_state_handler (now : Z) (a : AppState) : reply :=
  ok_json (snapshot_json (capture now (ap_cluster a) (ap_groups a))).

Definition reset_state_handler (a : AppState) : reply * AppState :=
  (ok_json (status_json "ok" "Cluster state reset to clean initial state"),
   mkApp (Cluster.reset (ap_cluster a)) (groups_reset (ap_groups a)) (ap_chaos a) (ap_start_time a)).

Definition load_state_handler (snapshot : ClusterStateSnapshot) (a : AppState) : reply * AppState :=
  let '(c, g) := apply_snapshot snapshot (ap_cluster a) (ap_groups a) in
  (ok_json (status_json "ok" "State restored successfully"), mkApp c g (ap_chaos a) (ap_start_time a)).

Definition list_chaos_handler (a : AppState) : reply := ok_json (JArr (rule_json <$> list_rules (ap_chaos a))).

Definition add_chaos_handler (rule : ChaosRule) (a : AppState) : reply * AppState :=
  (ok_json (status_json "ok" "Chaos rule registered"),
   mkApp (ap_cluster a) (ap_groups a) (add_rule rule (ap_chaos a)) (ap_start_time a)).

Definition clear_chaos_handler (a : AppState) : reply * AppState :=
  (ok_json (status_json "ok" "All chaos rules cleared"),
   mkApp (ap_cluster a) (ap_groups a) (clear_rules (ap_chaos a)) (ap_start_time a)).

Definition update_advertised_handler (payload : AdvertisedConfigRequest) (a : AppState) : reply * AppState :=
  let c := ap_cluster a in
  let c := match ad_host payload with Some h => set_advertised_host h c | None => c end in
  let c := match ad_port payload with Some p => set_advertised_port p c | None => c end in
  (ok_json (JObj [("status", JStr "updated"); ("advertised_host", JStr (cs_host c)); ("advertised_port", JInt (cs_port c))]),
   mkApp c (ap_groups a) (ap_chaos a) (ap_start_time a)).

(** [now] is the system clock and [mono] the monotonic one, in milliseconds. *)
Definition admin_router (now mono : Z) (m : Method) (path : list string) (body : bytes) (a : AppState)
    : reply * AppState :=
  let only (method : Method) (k : reply * AppState) :=
    if decide (m = method) then k else (method_not_allowed, a) in
  if decide (path = [] ∨ path = ["ui"%string]) then only GET (Ok (mkHttp 200 "text/html; charset=utf-8" BHtml), a)
  else if decide (path = ["_oxidemq"; "health"]%string) then only GET (health_handler, a)
  else if decide (path = ["_oxidemq"; "version"]%string) then only GET (text "0.1.0", a)
  else if decide (path = ["_oxidemq"; "status"]%string) then only GET (status_handler now mono a, a)
  else if decide (path = ["_oxidemq"; "state"; "dump"]%string) then only GET (dump_state_handler now a, a)
  else if decide (path = ["_oxidemq"; "state"; "reset"]%string) then only POST (reset_state_handler a)
  else if decide (path = ["_oxidemq"; "state"; "load"]%string) then
    only POST (with_body (snapshot_body body) (λ s, load_state_handler s a) a)
  else if decide (path = ["_oxidemq"; "chaos"; "rules"]%string) then
    match m with
    | GET => (list_chaos_handler a, a)
    | POST => with_body (rule_body body) (λ rule, add_chaos_handler rule a) a
    | _ => (method_not_allowed, a)
    end
  else if decide (path = ["_oxidemq"; "chaos"; "clear"]%string) then only POST (clear_chaos_handler a)
  else if decide (path = ["_oxidemq"; "advertised"]%string) then
    only POST (with_body (advertised_body body) (λ p, update_advertised_handler p a) a)
  else (not_found, a).
End admin_api.

(** ** Properties of the registry's API *)
Section registry_theorems.
Context `{SerdeJson} `{HO : HashOrder} `{JsonBody}.
Implicit Types r : SchemaRegistry.

Lemma register_schema_unchanged sub schema st refs r out r' :
  register_schema sub schema st refs r = (out, r') → (∃ id, out = Ok id) ∨ r' = r.
Proof.
  unfold register_schema. destruct (assign_id _ r) as [id r1].
  repeat case_match; intros [= <- <-]; eauto.
Qed.
Lemma delete_subject_unchanged sub r out r' : delete_subject sub r = (out, r') → (∃ v, out = Ok v) ∨ r' = r.
Proof. unfold delete_subject. repeat case_match; intros [= <- <-]; eauto. Qed.
Lemma delete_version_unchanged sub v r out r' : delete_version sub v r = (out, r') → (∃ v, out = Ok v) ∨ r' = r.
Proof. unfold delete_version. repeat case_match; intros [= <- <-]; eauto. Qed.

(** A request that changes the registry is one operation on it. *)
Lemma endpoint_cases m e body r out r' : endpoint m e body r = (out, r') →
  r' = r ∨ m ≠ GET ∧ (∃ o, r' = apply_op r o) ∧ ∃ j, out = ok_json j.
Proof.
  unfold endpoint, with_body.
  destruct e, m; try (intros [= _ <-]; by left); try (repeat case_match; intros [= _ <-]; by left).
  - unfold delete_subject_handler. destruct (delete_subject _ _) as [o r1] eqn:E. intros [= <- <-].
    destruct (delete_subject_unchanged _ _ _ _ E) as [[v ->]|]; [|by left]. right. split; [done|].
    split; [|by eexists]. exists (ODeleteSubject subject). cbn. by rewrite E.
  - destruct (register_body body) as [|req]; [intros [= _ <-]; by left|].
    unfold register_schema_handler. destruct (register_schema _ _ _ _ _) as [o r1] eqn:E. intros [= <- <-].
    destruct (register_schema_unchanged _ _ _ _ _ _ _ E) as [[id ->]|]; [|by left]. right. split; [done|].
    split; [|by eexists]. eexists (ORegister subject _ _ _). cbn. by rewrite E.
  - unfold delete_version_handler. destruct (delete_version _ _ _) as [o r1] eqn:E. intros [= <- <-].
    destruct (delete_version_unchanged _ _ _ _ _ E) as [[v ->]|]; [|by left]. right. split; [done|].
    split; [|by eexists]. exists (ODeleteVersion subject version). cbn. by rewrite E.
  - destruct (config_body body) as [|req]; [intros [= _ <-]; by left|]. intros [= <- <-]. right. split; [done|].
    split; [|by eexists]. by eexists (OSetConfig None _).
  - destruct (config_body body) as [|req]; [intros [= _ <-]; by left|]. intros [= <- <-]. right. split; [done|].
    split; [|by eexists]. by eexists (OSetConfig (Some subject) _).
Qed.

Lemma router_cases m path body r out r' : schema_registry_router m path body r = (out, r') →
  r' = r ∨ m ≠ GET ∧ (∃ o, r' = apply_op r o) ∧ ∃ j, out = ok_json j.
Proof.
  unfold schema_registry_router. destruct (route path) as [e|]; [apply endpoint_cases|]. intros [= _ <-]. by left.
Qed.

(** The registry after a sequence of requests. *)
Abbreviation request := (Method * list string * bytes)%type.
Definition serve_all (reqs : list request) r : SchemaRegistry :=
  foldl (λ r '(m, path, body), (schema_registry_router m path body r).2) r reqs.

Lemma serve_all_history reqs r : ∃ ops, serve_all reqs r = history ops r ∧ zlen ops ≤ zlen reqs.
Proof.
  revert r. induction reqs as [|[[m path] body] reqs IH]; intros r; [by exists []|]. cbn.
  destruct (schema_registry_router m path body r) as [out r1] eqn:E. cbn.
  destruct (IH r1) as (ops & Ho & Hl). rewrite zlen_cons.
  destruct (router_cases _ _ _ _ _ _ E) as [->|(_ & [o ->] & _)]; [exists ops|exists (o :: ops)].
  - split; [done|lia].
  - rewrite zlen_cons. split; [done|lia].
Qed.

(** C25: A schema id served over HTTP keeps its meaning.  When, after any requests,
    [POST /subjects/{subject}/versions] is answered with an id, then after any
    further requests (registrations, deletions, configuration), fewer than 2^31
    in all, [GET /schemas/ids/{id}/schema] answers 200 with the registered text,
    trimmed, and posting the schema again under any subject with its type, where
    it is accepted, answers with the same id. *)
Theorem http_schema_id_permanent before after subject body req id :
  zlen before + zlen after < 2 ^ 31 - 3 → register_body body = inr req →
  let '(out, r) := schema_registry_router POST ["subjects"%string; subject; "versions"%string] body
                     (serve_all before registry_new) in
  out = ok_json (JObj [("id"%string, JInt id)]) →
  let r' := serve_all after r in
  schema_registry_router GET ["schemas"; "ids"; dec id; "schema"]%string [] r'
    = (text (str_trim (rq_schema req)), r')
  ∧ ∀ subject' id', (schema_registry_router POST ["subjects"%string; subject'; "versions"%string] body r').1
      = ok_json (JObj [("id"%string, JInt id')]) → id' = id.
Proof.
  intros Hn Hb. pose proof (zlen_nonneg before). pose proof (zlen_nonneg after).
  destruct (serve_all_history before registry_new) as (ops & -> & Hops). pose proof (zlen_nonneg ops).
  assert (∀ sub r, schema_registry_router POST ["subjects"%string; sub; "versions"%string] body r
    = register_schema_handler sub req r) as Hpost.
  { intros sub r. unfold schema_registry_router, route. rewrite decide_False, decide_False by done.
    unfold registry_routes. rewrite decide_True by done. cbn. by rewrite Hb. }
  rewrite Hpost. unfold register_schema_handler at 1.
  destruct (register_schema _ _ _ _ (history ops registry_new)) as [out r] eqn:E.
  destruct out as [id0|e|]; cbn [answer]; [|unfold schema_error; destruct e; discriminate|discriminate].
  intros [= ->]. set (r' := serve_all after r).
  destruct (history_ok ops registry_new reg_ok_new) as (Hr0 & _ & N0); [cbn; lia|]. cbn [registry_new next_global_id] in N0.
  destruct (register_schema_spec _ _ _ _ _ _ _ Hr0 ltac:(lia) E) as (Hr1 & _ & N1 & Hf).
  destruct (serve_all_history after r) as (ops' & Eo & Hops'). fold r' in Eo. pose proof (zlen_nonneg ops').
  destruct (history_ok ops' r Hr1) as (Hr2 & [X2 _] & N2); [lia|]. rewrite <- Eo in Hr2, X2, N2.
  pose proof (lookup_weaken _ _ _ _ Hf X2) as Hid.
  destruct (ok_prints r' Hr2 _ _ Hid) as (Hrange & _ & e & He & Hke). split.
  - unfold schema_registry_router, route. rewrite decide_False, decide_False by done.
    unfold registry_routes. rewrite decide_False by (intros [? ?]; done). rewrite decide_True by done.
    cbn [endpoint]. destruct (parse_i32_dec id) as [-> _]; [unfold in_s; change (32 - 1) with 31; lia|].
    unfold get_schema_by_id_raw_handler, get_schema_by_id. rewrite He. injection Hke as _ Hs. by rewrite Hs.
  - intros sub' id'. rewrite Hpost. unfold register_schema_handler.
    destruct (register_schema sub' _ _ _ r') as [out' r2] eqn:E'. cbn [fst].
    destruct out' as [id1|e1|]; cbn [answer]; [|unfold schema_error; destruct e1; discriminate|discriminate].
    intros [= ->]. destruct (register_schema_spec _ _ _ _ _ _ _ Hr2 ltac:(lia) E') as (_ & [X3 _] & _ & Hf').
    pose proof (lookup_weaken _ _ _ _ Hid X3). congruence.
Qed.

(** Failed requests change nothing.  A request to the schema registry that is
    not answered with status 200 (refused by the router or an extractor, or
    answered with a registry error) leaves the registry as it was, and so does
    every GET. *)
Theorem http_errors_change_nothing m path body r out r' :
  schema_registry_router m path body r = (out, r') →
  (m = GET ∨ ∀ resp, out = Ok resp → h_status resp ≠ 200) → r' = r.
Proof.
  intros E Hm. destruct (router_cases _ _ _ _ _ _ E) as [?|(Hne & _ & j & ->)]; [done|].
  destruct Hm as [?|Hs]; [done|]. by destruct (Hs _ eq_refl).
Qed.
End registry_theorems.

(** ** Witnesses *)

(** A parser of bodies, for evaluation: the body is the schema itself. *)
Definition toy_bodies : JsonBody := {|
  register_body b := inr (mkRegisterReq (bytes_str b) (Some Protobuf) []);
  config_body _ := inl 415; snapshot_body _ := inl 415; rule_body _ := inl 415; advertised_body _ := inl 415 |}.
#[local] Existing Instances toy_json toy_bodies.

Lemma http_schema_id_permanent_witness :
  let body := str_bytes " message B " in
  let before := [(POST, ["subjects"; "a"; "versions"]%string, str_bytes "message A")] in
  let after := [(DELETE, ["subjects"; "b"]%string, [])] in
  let r := (schema_registry_router POST ["subjects"; "b"; "versions"]%string body (serve_all before registry_new)).2 in
  let r' := serve_all after r in
  schema_registry_router GET ["schemas"; "ids"; "2"; "schema"]%string [] r' = (text "message B", r')
  ∧ ∀ subject' id', (schema_registry_router POST ["subjects"%string; subject'; "versions"%string] body r').1
      = ok_json (JObj [("id"%string, JInt id')]) → id' = 2.
Proof.
  intros body before after.
  pose proof (http_schema_id_permanent before after "b" body (mkRegisterReq " message B " (Some Protobuf) []) 2
    ltac:(done) ltac:(by vm_compute)) as Ht.
  assert ((schema_registry_router POST ["subjects"; "b"; "versions"]%string body (serve_all before registry_new)).1
    = ok_json (JObj [("id"%string, JInt 2)])) as Hout by by vm_compute.
  destruct (schema_registry_router _ _ _ _) as [out r]. exact (Ht Hout).
Defined.

Lemma http_errors_change_nothing_witness :
  (schema_registry_router DELETE ["subjects"; "a"]%string [] registry_new).2 = registry_new.
Proof.
  apply (http_errors_change_nothing DELETE ["subjects"; "a"]%string [] registry_new
    (Ok (schema_error (SubjectNotFound "a")))).
  - vm_compute. reflexivity.
  - right. intros resp [= <-]. done.
Defined.
