(* ===== verification/Broker.v ===== *)
(** * The request handler

    Models [crates/oxidemq-broker/src/handler.rs]: [BrokerEngine] with the
    components it shares between connections, one definition per branch of
    [handle_connection_request], and the frame loop of a connection.  A handler
    is a state-passing computation on the whole broker; [None] stands for one
    that does not return (a batch scan that never ends, see Batch.v). *)

From Stdlib Require Import Strings.Byte.
From stdpp Require Import base numbers list strings sets gmap.
From S2P Require Import Prelude Bytes Text CoreTypes KafkaWire Batch MessageTypes.
From S2P Require Import Wal LogCache BlockCache ObjectStore Stream Partition.
From S2P Require Import MsgCodec MsgMeta MsgData MsgGroup MsgTxn MsgAuth MsgAdmin Messages.
From S2P Require Import Cluster Txn Group Acl Sasl SchemaRegistry Chaos.

(** ** State *)
Record Broker (W St : Type) := mkBroker {
  b_cluster : ClusterState;
  b_groups : GroupCoordinator;
  b_txns : TransactionCoordinator;
  b_registry : SchemaRegistry;
  b_auth : SaslAuthenticator;
  b_acl : AclAuthorizer;
  b_chaos : ChaosEngine;
  b_schema_validation : bool;
  b_world : World W St;
  b_ticks : nat }.
Arguments mkBroker {W St}.
Arguments b_cluster {W St}.
Arguments b_groups {W St}.
Arguments b_txns {W St}.
Arguments b_registry {W St}.
Arguments b_auth {W St}.
Arguments b_acl {W St}.
Arguments b_chaos {W St}.
Arguments b_schema_validation {W St}.
Arguments b_world {W St}.
Arguments b_ticks {W St}.

(** What a request reads of its surroundings: the clock ([b_ticks] counts its
    readings), the random generator and one environment variable. *)
Record Env := mkEnv {
  env_now : nat → Z;
  env_nonce_rng : option bytes;
  env_salt_rng : option bytes;
  env_fetch_compression : option string }.

Section broker.
Context {W St : Type}.
Abbreviation broker := (Broker W St).
Implicit Types b : broker.

Definition bset_cluster (c : ClusterState) b : broker :=
  mkBroker c (b_groups b) (b_txns b) (b_registry b) (b_auth b) (b_acl b) (b_chaos b)
    (b_schema_validation b) (b_world b) (b_ticks b).
Definition bset_groups (g : GroupCoordinator) b : broker :=
  mkBroker (b_cluster b) g (b_txns b) (b_registry b) (b_auth b) (b_acl b) (b_chaos b)
    (b_schema_validation b) (b_world b) (b_ticks b).
Definition bset_txns (t : TransactionCoordinator) b : broker :=
  mkBroker (b_cluster b) (b_groups b) t (b_registry b) (b_auth b) (b_acl b) (b_chaos b)
    (b_schema_validation b) (b_world b) (b_ticks b).
Definition bset_acl (a : AclAuthorizer) b : broker :=
  mkBroker (b_cluster b) (b_groups b) (b_txns b) (b_registry b) (b_auth b) a (b_chaos b)
    (b_schema_validation b) (b_world b) (b_ticks b).
Definition bset_chaos (c : ChaosEngine) b : broker :=
  mkBroker (b_cluster b) (b_groups b) (b_txns b) (b_registry b) (b_auth b) (b_acl b) c
    (b_schema_validation b) (b_world b) (b_ticks b).
Definition bset_world (w : World W St) b : broker :=
  mkBroker (b_cluster b) (b_groups b) (b_txns b) (b_registry b) (b_auth b) (b_acl b) (b_chaos b)
    (b_schema_validation b) w (b_ticks b).
Definition bset_ticks (n : nat) b : broker :=
  mkBroker (b_cluster b) (b_groups b) (b_txns b) (b_registry b) (b_auth b) (b_acl b) (b_chaos b)
    (b_schema_validation b) (b_world b) n.

(** [BrokerEngine::new] *)
Definition broker_new (c : ClusterState) (g : GroupCoordinator) (w : World W St) : broker :=
  mkBroker c g coord_new registry_new auth_default authorizer_default chaos_new false w 0.
Definition with_chaos (c : ChaosEngine) : broker → broker := bset_chaos c.
Definition with_txn_coordinator (t : TransactionCoordinator) : broker → broker := bset_txns t.
Definition with_authorizer (a : AclAuthorizer) : broker → broker := bset_acl a.
Definition with_schema_registry (r : SchemaRegistry) b : broker :=
  mkBroker (b_cluster b) (b_groups b) (b_txns b) r (b_auth b) (b_acl b) (b_chaos b)
    (b_schema_validation b) (b_world b) (b_ticks b).
Definition with_authenticator (a : SaslAuthenticator) b : broker :=
  mkBroker (b_cluster b) (b_groups b) (b_txns b) (b_registry b) a (b_acl b) (b_chaos b)
    (b_schema_validation b) (b_world b) (b_ticks b).
Definition with_schema_validation (enabled : bool) b : broker :=
  mkBroker (b_cluster b) (b_groups b) (b_txns b) (b_registry b) (b_auth b) (b_acl b) (b_chaos b)
    enabled (b_world b) (b_ticks b).
End broker.

(** ** The handler monad *)
Definition handler (W St A : Type) : Type := Broker W St → option (result A * Broker W St).

#[export] Instance handler_ret {W St} : MRet (handler W St) := λ A x b, Some (Ok x, b).
#[export] Instance handler_bind {W St} : MBind (handler W St) := λ A B f m b,
  match m b with
  | None => None
  | Some (Ok x, b) => f x b
  | Some (Err e, b) => Some (Err e, b)
  | Some (Panic, b) => Some (Panic, b)
  end.

Section monad.
Context {W St : Type}.

Definition gets {A} (f : Broker W St → A) : handler W St A := λ b, Some (Ok (f b), b).

(** A component's step, in the broker that holds it. *)
Definition on_cluster {A} (f : ClusterState → A * ClusterState) : handler W St A := λ b,
  let '(x, c) := f (b_cluster b) in Some (Ok x, bset_cluster c b).
Definition on_groups {A} (f : GroupCoordinator → A * GroupCoordinator) : handler W St A := λ b,
  let '(x, g) := f (b_groups b) in Some (Ok x, bset_groups g b).
Definition on_txns {A} (f : TransactionCoordinator → A * TransactionCoordinator) : handler W St A := λ b,
  let '(x, t) := f (b_txns b) in Some (Ok x, bset_txns t b).
Definition on_acl {A} (f : AclAuthorizer → A * AclAuthorizer) : handler W St A := λ b,
  let '(x, a) := f (b_acl b) in Some (Ok x, bset_acl a b).

Definition clock (env : Env) : handler W St Z := λ b,
  Some (Ok (env_now env (b_ticks b)), bset_ticks (S (b_ticks b)) b).

Definition panic {A} : handler W St A := λ b, Some (Panic, b).

(** The outcome of a component as an error code; its panic is the handler's. *)
Definition code_or {A B} (r : res KafkaErrorCode A) (ok : A → B) (err : KafkaErrorCode → B) : handler W St B :=
  match r with
  | Ok x => mret (ok x)
  | Err e => mret (err e)
  | Panic => panic
  end.

(** [for x in l { results.push(f(x)) }] *)
Fixpoint traverse {A B} (f : A → handler W St B) (l : list A) : handler W St (list B) :=
  match l with
  | [] => mret []
  | x :: l => y ← f x; ys ← traverse f l; mret (y :: ys)
  end.

Definition client_host : string := "*".
Definition cluster_name : string := "kafka-cluster".

Definition allowed (principal : string) (rt : AclResourceType) (name : string) (op : AclOperation)
    : handler W St bool := gets (λ b, authorize principal client_host rt name op (b_acl b)).

(** Permission on the resource, or on the cluster. *)
Definition allowed_or_cluster (principal : string) (rt : AclResourceType) (name : string) (op : AclOperation)
    : handler W St bool :=
  a ← allowed principal rt name op;
  if a : bool then mret true else allowed principal RtCluster cluster_name op.
End monad.

(** [{:?}] of an API key: the variant's name. *)
Definition api_key_debug (k : ApiKey) : string :=
  match k with
  | ApiProduce => "Produce" | ApiFetch => "Fetch" | ApiListOffsets => "ListOffsets"
  | ApiMetadata => "Metadata" | ApiOffsetCommit => "OffsetCommit" | ApiOffsetFetch => "OffsetFetch"
  | ApiFindCoordinator => "FindCoordinator" | ApiJoinGroup => "JoinGroup" | ApiHeartbeat => "Heartbeat"
  | ApiLeaveGroup => "LeaveGroup" | ApiSyncGroup => "SyncGroup" | ApiDescribeGroups => "DescribeGroups"
  | ApiListGroups => "ListGroups" | ApiSaslHandshake => "SaslHandshake" | ApiApiVersions => "ApiVersions"
  | ApiCreateTopics => "CreateTopics" | ApiDeleteTopics => "DeleteTopics"
  | ApiDeleteRecords => "DeleteRecords" | ApiInitProducerId => "InitProducerId"
  | ApiAddPartitionsToTxn => "AddPartitionsToTxn" | ApiAddOffsetsToTxn => "AddOffsetsToTxn"
  | ApiEndTxn => "EndTxn" | ApiDescribeAcls => "DescribeAcls" | ApiCreateAcls => "CreateAcls"
  | ApiDeleteAcls => "DeleteAcls" | ApiDescribeConfigs => "DescribeConfigs"
  | ApiAlterConfigs => "AlterConfigs" | ApiSaslAuthenticate => "SaslAuthenticate"
  | ApiCreatePartitions => "CreatePartitions" | ApiDeleteGroups => "DeleteGroups"
  end.

(** ** Schema validation of produced records *)

(** The value of one record of a batch: [None] when the record cannot be
    parsed, [Some None] when it has no value bytes. *)
Definition record_value (rec_buf : bytes) : option (option bytes) :=
  match rec_buf with
  | [] => None
  | _ :: rec_buf =>
      match read_varint rec_buf with
      | Ok (_, rec_buf) =>
          match read_varint rec_buf with
          | Ok (_, rec_buf) =>
              match read_varint rec_buf with
              | Ok (key_len, rec_buf) =>
                  if decide (key_len > 0 ∧ zlen rec_buf < key_len) then None else
                  let rec_buf := if decide (key_len > 0) then drop (Z.to_nat key_len) rec_buf else rec_buf in
                  match read_varint rec_buf with
                  | Ok (val_len, rec_buf) =>
                      if decide (val_len > 0) then
                        if decide (zlen rec_buf < val_len) then None
                        else Some (Some (take (Z.to_nat val_len) rec_buf))
                      else Some None
                  | _ => None
                  end
              | _ => None
              end
          | _ => None
          end
      | _ => None
      end
  end.

Definition schema_known (r : SchemaRegistry) (v : bytes) : bool :=
  match validate_record v true r with Ok (Some _) => true | _ => false end.

(** Every round takes at least one byte of the buffer. *)
Fixpoint validate_loop (fuel : nat) (r : SchemaRegistry) (buf : bytes) : bool :=
  match fuel with
  | O => true
  | S fuel =>
      if decide (buf = []) then true else
      match read_varint buf with
      | Ok (rec_len, buf) =>
          if decide (rec_len > 0) then
            if decide (zlen buf < rec_len) then true else
            match record_value (take (Z.to_nat rec_len) buf) with
            | None => true
            | Some None => validate_loop fuel r (drop (Z.to_nat rec_len) buf)
            | Some (Some v) =>
                if schema_known r v then validate_loop fuel r (drop (Z.to_nat rec_len) buf) else false
            end
          else true
      | _ => true
      end
  end.

Definition validate_record_payloads (r : SchemaRegistry) (records_bytes : bytes) : bool :=
  if decide (records_bytes = []) then true else
  if decide (zlen records_bytes ≥ 5 ∧ head records_bytes = Some x00) then
    match validate_magic_byte_payload records_bytes r with Ok (Some _) => true | _ => false end
  else if decide (zlen records_bytes ≥ 61 ∧ records_bytes !! 16%nat = Some x02) then
    let buf := drop 61 records_bytes in validate_loop (S (length buf)) r buf
  else false.

(** ** The requests *)
Section handlers.
Context `{Allocator} `{HO : HashOrder} `{CompressionLib} `{ScramCrypto} `{SerdeJson}.
Context {W St : Type} `{!WalEngine W, !ObjectStorage St}.
Abbreviation hd := (handler W St).

Definition api_metadata (principal : string) (req : MetadataRequest) : hd MetadataResponse :=
  resp ← on_cluster (build_metadata_with_auto_create (mq_topics req) (mq_allow_auto_topic_creation req));
  topics ← traverse (λ topic,
    a ← allowed principal RtTopic (tm_name topic) OpDescribe;
    mret (if a : bool then topic
          else mkTopicMeta E_TopicAuthorizationFailed (tm_name topic) (tm_is_internal topic) []))
    (mr_topics resp);
  mret (mkMetaResp (mr_throttle_time_ms resp) (mr_brokers resp) (mr_cluster_id resp)
          (mr_controller_id resp) topics).

(** [partition.append_records(p.records)], through the partition table. *)
Definition append_to (now : Z) (tp : TopicPartition) (records : bytes) : hd (result (Z * Z) * Partition) := λ b,
  let '(partition, c) := get_or_create_partition tp (b_cluster b) in
  let '(r, partition, w) := append_records now records partition (b_world b) in
  Some (Ok (r, partition), bset_world w (bset_cluster (put_partition tp partition c) b)).

Definition ensure_partition (tp : TopicPartition) : hd Partition := on_cluster (get_or_create_partition tp).

Definition produce_partition (env : Env) (is_authorized : bool) (fault : bool) (topic : string)
    (p : PartitionProduceData) : hd PartitionProduceResponse :=
  if negb is_authorized
  then mret (mkPPR (ppd_partition p) E_TopicAuthorizationFailed (-1) (-1) 0)
  else
    let tp := mkTP topic (ppd_partition p) in
    let refuse e := mret (mkPPR (ppd_partition p) e (-1) (-1) 0) in
    _ ← ensure_partition tp;
    if fault then refuse E_UnknownServer else
    match decompress_record_batch (ppd_records p) with
    | None => λ _, None
    | Some Panic => panic
    | Some (Err _) => refuse E_CorruptMessage
    | Some (Ok decompressed) =>
        valid ← gets (λ b, negb (b_schema_validation b) || validate_record_payloads (b_registry b) decompressed);
        if negb valid then refuse E_InvalidRecord else
        now ← clock env;
        '(r, partition) ← append_to now tp (ppd_records p);
        match r with
        | Ok (b_off, a_time) =>
            mret (mkPPR (ppd_partition p) E_None b_off a_time (log_start_offset partition))
        | Err _ => refuse E_UnknownServer
        | Panic => panic
        end
    end.

Definition check_chaos (target : FaultTarget) : hd (result (option Z)) := λ b,
  let '(r, c) := check_fault target (b_chaos b) in Some (Ok r, bset_chaos c b).
Definition is_fault {A} (r : result A) : bool := match r with Err _ => true | _ => false end.

Definition api_produce (env : Env) (principal : string) (req : ProduceRequest) : hd ProduceResponse :=
  fault ← check_chaos TProduce;
  responses ← traverse (λ t,
    a ← allowed principal RtTopic (tpd_topic t) OpWrite;
    parts ← traverse (produce_partition env a (is_fault fault) (tpd_topic t)) (tpd_partitions t);
    mret (mkTPR (tpd_topic t) parts)) (pq_topic_data req);
  mret (mkProduceResp responses 0).

(** The attributes and producer id of a magic-2 batch. *)
Definition batch_info (batch : bytes) : option (Z * Z) :=
  if decide (zlen batch ≥ 61 ∧ batch !! 16%nat = Some x02) then
    Some (i16 (from_be (take 2 (drop 21 batch))), i64 (from_be (take 8 (drop 39 batch))))
  else None.

(** Whether a consumer at this isolation level is shown a batch. *)
Definition visible (isolation_level lso : Z) (aborted : list (Z * Z)) (off : Z) (batch : bytes) : bool :=
  match batch_info batch with
  | Some (attr, pid) =>
      if decide (Z.land attr 0x0020 ≠ 0) then false
      else if decide (isolation_level = 1) then
        if decide (off ≥ lso) then false
        else negb (bool_decide (Z.land attr 0x0010 ≠ 0) && existsb (λ a, bool_decide (a.1 = pid)) aborted)
      else true
  | None => true
  end.

(** [to_lowercase]: no character outside ASCII has one of these names' letters
    as its lower case. *)
Definition fetch_codec (comp_str : string) : CompressionCodec :=
  let s := to_ascii_lowercase comp_str in
  if decide (s = "gzip"%string) then Gzip
  else if decide (s = "snappy"%string) then Snappy
  else if decide (s = "lz4"%string) then Lz4
  else if decide (s = "zstd"%string) then Zstd
  else CNone.

(** [let _ = resp_part.compress_with(codec)] *)
Definition recompress (env : Env) (resp : FetchPartitionResponse) : hd FetchPartitionResponse :=
  match env_fetch_compression env with
  | None => mret resp
  | Some comp_str =>
      match compress_record_batch (fpr_records resp) (fetch_codec comp_str) with
      | None => λ _, None
      | Some Panic => panic
      | Some (Err _) => mret resp
      | Some (Ok records) =>
          mret (mkFPR (fpr_partition_index resp) (fpr_error_code resp) (fpr_high_watermark resp)
                  (fpr_last_stable_offset resp) records)
      end
  end.

Definition read_from (partition : Partition) (fetch_offset max_bytes : Z) : hd (result (list (Z * bytes))) := λ b,
  let '(r, w) := read_records fetch_offset max_bytes partition (b_world b) in Some (Ok r, bset_world w b).

Definition fetch_partition (env : Env) (is_authorized fault : bool) (isolation_level : Z) (topic : string)
    (p : FetchPartition) : hd FetchPartitionResponse :=
  if negb is_authorized
  then mret (mkFPR (fp_partition p) E_TopicAuthorizationFailed (-1) (-1) [])
  else
    let tp := mkTP topic (fp_partition p) in
    partition ← ensure_partition tp;
    let lso := last_stable_offset partition in
    '(err, records) ←
      (if fault then mret (E_UnknownServer, []) else
       r ← read_from partition (fp_fetch_offset p) (u64 (fp_partition_max_bytes p));
       match r with
       | Ok batches =>
           mret (E_None, concat (filter (λ ob : Z * bytes,
             visible isolation_level lso (aborted_txns partition) ob.1 ob.2 = true) batches).*2)
       | Err _ => mret (E_UnknownServer, [])
       | Panic => panic
       end);
    recompress env (mkFPR (fp_partition p) err (high_watermark partition) lso records).

Definition api_fetch (env : Env) (principal : string) (req : FetchRequest) : hd FetchResponse :=
  fault ← check_chaos TFetch;
  responses ← traverse (λ t,
    a ← allowed principal RtTopic (ft_topic t) OpRead;
    parts ← traverse (fetch_partition env a (is_fault fault) (fq_isolation_level req) (ft_topic t)) (ft_partitions t);
    mret (mkFTR (ft_topic t) parts)) (fq_topics req);
  mret (mkFetchResp 0 E_None responses).

Definition api_find_coordinator (principal : string) (req : FindCoordinatorRequest) : hd FindCoordinatorResponse :=
  let kt := fcq_key_type req in
  a ← (if decide (kt = 0) then allowed principal RtGroup (fcq_key req) OpDescribe
       else if decide (kt = 1) then allowed principal RtTransactionalId (fcq_key req) OpDescribe
       else mret true);
  c ← gets b_cluster;
  mret (if a : bool then mkFindCoordResp 0 E_None None (cs_node_id c) (cs_host c) (cs_port c)
        else mkFindCoordResp 0
               (if decide (kt = 0) then E_GroupAuthorizationFailed
                else if decide (kt = 1) then E_TransactionalIdAuthorizationFailed
                else E_ClusterAuthorizationFailed) None (-1) "" (-1)).

Definition list_offset (is_authorized : bool) (topic : string) (p : ListOffsetsPartition)
    : hd ListOffsetsPartitionResponse :=
  if negb is_authorized
  then mret (mkLOPR (lop_partition p) E_TopicAuthorizationFailed (-1) (-1) 0)
  else
    partition ← ensure_partition (mkTP topic (lop_partition p));
    let offset := if decide (lop_timestamp p = -2) then log_start_offset partition else high_watermark partition in
    mret (mkLOPR (lop_partition p) E_None (-1) offset 0).

Definition api_list_offsets (principal : string) (req : ListOffsetsRequest) : hd ListOffsetsResponse :=
  topics ← traverse (λ t,
    a ← allowed principal RtTopic (lot_topic t) OpDescribe;
    parts ← traverse (list_offset a (lot_topic t)) (lot_partitions t);
    mret (mkLOTR (lot_topic t) parts)) (loq_topics req);
  mret (mkListOffsetsResp 0 topics).

Definition api_offset_commit (principal : string) (req : OffsetCommitRequest) : hd OffsetCommitResponse :=
  a ← allowed principal RtGroup (ocq_group_id req) OpRead;
  topics ← traverse (λ t,
    parts ← traverse (λ p,
      if negb a then mret (mkOCPR (ocp_partition p) E_GroupAuthorizationFailed) else
      _ ← on_groups (λ g, (tt, commit_offset (ocq_group_id req) (mkTP (oct_topic t) (ocp_partition p))
                                 (ocp_committed_offset p) g));
      mret (mkOCPR (ocp_partition p) E_None)) (oct_partitions t);
    mret (mkOCTR (oct_topic t) parts)) (ocq_topics req);
  mret (mkOffsetCommitResp 0 topics).

Definition api_offset_fetch (principal : string) (req : OffsetFetchRequest) : hd OffsetFetchResponse :=
  a ← allowed principal RtGroup (ofq_group_id req) OpDescribe;
  if negb a then mret (mkOffsetFetchResp 0 [] E_GroupAuthorizationFailed) else
  g ← gets b_groups;
  let topics := (λ t, mkOFTR (oft_topic t)
    ((λ p, mkOFPR p (default (-1) (fetch_offset (ofq_group_id req) (mkTP (oft_topic t) p) g)) None E_None)
       <$> oft_partitions t)) <$> default [] (ofq_topics req) in
  mret (mkOffsetFetchResp 0 topics E_None).

Definition api_heartbeat (principal : string) (req : HeartbeatRequest) : hd HeartbeatResponse :=
  a ← allowed principal RtGroup (hbq_group_id req) OpRead;
  err ← (if negb a then mret E_GroupAuthorizationFailed
         else gets (λ b, handle_heartbeat (hbq_group_id req) (hbq_generation_id req) (hbq_member_id req) (b_groups b)));
  mret (mkHeartbeatResp 0 err).

Definition api_leave_group (principal : string) (req : LeaveGroupRequest) : hd LeaveGroupResponse :=
  a ← allowed principal RtGroup (lgq_group_id req) OpRead;
  err ← (if negb a then mret E_GroupAuthorizationFailed
         else on_groups (handle_leave_group (lgq_group_id req) (lgq_member_id req)));
  mret (mkLeaveResp 0 err).

Definition api_init_producer_id (env : Env) (principal : string) (req : InitProducerIdRequest)
    : hd InitProducerIdResponse :=
  a ← match ipq_transactional_id req with
      | Some txn_id => allowed principal RtTransactionalId txn_id OpWrite
      | None => mret true
      end;
  if negb a then mret (mkInitPidResp 0 E_TransactionalIdAuthorizationFailed (-1) (-1)) else
  now ← clock env;
  r ← on_txns (init_producer_id (ipq_transactional_id req) (ipq_transaction_timeout_ms req) now);
  code_or r (λ '(pid, ep), mkInitPidResp 0 E_None pid ep) (λ code, mkInitPidResp 0 code (-1) (-1)).

Definition api_add_partitions_to_txn (env : Env) (principal : string) (req : AddPartitionsToTxnRequest)
    : hd AddPartitionsToTxnResponse :=
  a ← allowed principal RtTransactionalId (apq_transactional_id req) OpWrite;
  overall_err ←
    (if negb a then mret E_TransactionalIdAuthorizationFailed else
     let all_tps := apq_topics req ≫= λ t, mkTP (apt_name t) <$> apt_partitions t in
     now ← clock env;
     r ← on_txns (add_partitions_to_txn (apq_transactional_id req) (apq_producer_id req)
                    (apq_producer_epoch req) all_tps now);
     code_or r (λ _, E_None) id);
  mret (mkAddPartsResp 0 ((λ t, mkAPTR (apt_name t) ((λ p, mkAPPR p overall_err) <$> apt_partitions t))
                            <$> apq_topics req)).

Definition api_add_offsets_to_txn (principal : string) (req : AddOffsetsToTxnRequest) : hd AddOffsetsToTxnResponse :=
  a ← allowed principal RtTransactionalId (aoq_transactional_id req) OpWrite;
  err ← (if negb a then mret E_TransactionalIdAuthorizationFailed else
         r ← gets (λ b, add_offsets_to_txn (aoq_transactional_id req) (aoq_producer_id req)
                          (aoq_producer_epoch req) (aoq_group_id req) (b_txns b));
         code_or r (λ _, E_None) id);
  mret (mkAddOffsResp 0 err).

Definition end_transaction (now : Z) (req : EndTxnRequest) : hd (res KafkaErrorCode unit) := λ b,
  let '(r, t, c, w) := end_txn (etq_transactional_id req) (etq_producer_id req) (etq_producer_epoch req)
                         (etq_committed req) now (b_txns b) (b_cluster b) (b_world b) in
  Some (Ok r, bset_world w (bset_cluster c (bset_txns t b))).

Definition api_end_txn (env : Env) (principal : string) (req : EndTxnRequest) : hd EndTxnResponse :=
  a ← allowed principal RtTransactionalId (etq_transactional_id req) OpWrite;
  err ← (if negb a then mret E_TransactionalIdAuthorizationFailed else
         now ← clock env;
         r ← end_transaction now req;
         code_or r (λ _, E_None) id);
  mret (mkEndTxnResp 0 err).

Definition alter_required : string := "Cluster authorization failed: Alter required on Cluster:kafka-cluster".

Definition api_describe_acls (principal : string) (req : AclFilter) : hd DescribeAclsResponse :=
  a ← allowed principal RtCluster cluster_name OpDescribe;
  if negb a then
    mret (mkDescAclsResp 0 E_ClusterAuthorizationFailed
            (Some "Cluster authorization failed: Describe required on Cluster:kafka-cluster"%string) [])
  else
    resources ← gets (λ b, describe_acls req (b_acl b));
    mret (mkDescAclsResp 0 E_None None resources).

Definition api_create_acls (principal : string) (req : CreateAclsRequest) : hd CreateAclsResponse :=
  a ← allowed principal RtCluster cluster_name OpAlter;
  results ← (if negb a
             then mret ((λ _, mkAclResult E_ClusterAuthorizationFailed (Some alter_required)) <$> caq_creations req)
             else on_acl (create_acls (caq_creations req)));
  mret (mkCreateAclsResp 0 results).

Definition api_delete_acls (principal : string) (req : DeleteAclsRequest) : hd DeleteAclsResponse :=
  a ← allowed principal RtCluster cluster_name OpAlter;
  results ← (if negb a
             then mret ((λ _, mkFilterResult E_ClusterAuthorizationFailed (Some alter_required) []) <$> xaq_filters req)
             else on_acl (delete_acls (xaq_filters req)));
  mret (mkDelAclsResp 0 results).

(** The checks of a request that only validates. *)
Definition validate_topic (t : CreatableTopic) (c : ClusterState) : KafkaErrorCode * option string :=
  if negb (topic_name_ok (ct_name t)) then (E_InvalidTopicException, Some "Invalid topic name"%string)
  else if has_topic (ct_name t) c then (E_TopicAlreadyExists, Some "Topic already exists"%string)
  else if decide (ct_num_partitions t ≤ 0 ∧ ct_num_partitions t ≠ -1)
  then (E_InvalidPartitions, Some "Number of partitions must be positive"%string)
  else if decide (ct_replication_factor t ≤ 0 ∧ ct_replication_factor t ≠ -1)
  then (E_InvalidReplicationFactor, Some "Replication factor must be positive"%string)
  else (E_None, None).

Definition create_message (e : KafkaErrorCode) : string :=
  match e with
  | E_TopicAlreadyExists => "Topic already exists"
  | E_InvalidTopicException => "Invalid topic name"
  | E_InvalidPartitions => "Number of partitions must be positive"
  | E_InvalidReplicationFactor => "Replication factor must be positive"
  | _ => "Topic creation failed"
  end.

Definition configs_map (l : list CreateTopicsConfig) : gmap string string :=
  foldl (λ m c, match ctc_value c with Some v => <[ctc_name c := v]> m | None => m end) ∅ l.

Definition create_one_topic (principal : string) (validate_only : bool) (t : CreatableTopic)
    : hd CreatableTopicResult :=
  a ← allowed_or_cluster principal RtTopic (ct_name t) OpCreate;
  if negb a then
    mret (mkCTR (ct_name t) E_TopicAuthorizationFailed
            (Some "Topic authorization failed: Create required on Topic or Cluster"%string))
  else if validate_only then
    r ← gets (λ b, validate_topic t (b_cluster b));
    mret (mkCTR (ct_name t) r.1 r.2)
  else
    let parts := if decide (ct_assignments t = []) then ct_num_partitions t else i32 (zlen (ct_assignments t)) in
    r ← on_cluster (create_topic (ct_name t) parts (ct_replication_factor t) (configs_map (ct_configs t)));
    code_or r (λ _, mkCTR (ct_name t) E_None None) (λ code, mkCTR (ct_name t) code (Some (create_message code))).

Definition api_create_topics (principal : string) (req : CreateTopicsRequest) : hd CreateTopicsResponse :=
  results ← traverse (create_one_topic principal (ctq_validate_only req)) (ctq_topics req);
  mret (mkCreateTopicsResp 0 results).

Definition api_delete_topics (principal : string) (req : DeleteTopicsRequest) : hd DeleteTopicsResponse :=
  results ← traverse (λ name,
    a ← allowed_or_cluster principal RtTopic name OpDelete;
    if negb a then mret (mkDTR name E_TopicAuthorizationFailed) else
    r ← on_cluster (delete_topic name);
    code_or r (λ _, mkDTR name E_None) (λ code, mkDTR name code)) (dtq_topic_names req);
  mret (mkDelTopicsResp 0 results).

(** Who may read or write the configuration of a resource, and the refusal. *)
Definition config_auth (principal : string) (resource_type : Z) (name : string) (op : AclOperation)
    : hd (bool * KafkaErrorCode) :=
  if decide (resource_type = 2) then
    a ← allowed_or_cluster principal RtTopic name op; mret (a, E_TopicAuthorizationFailed)
  else if decide (resource_type = 4) then
    a ← allowed principal RtCluster cluster_name op; mret (a, E_ClusterAuthorizationFailed)
  else mret (true, E_None).

Definition unsupported_resource (resource_type : Z) : string :=
  "Unsupported resource type " +:+ dec resource_type.

Definition describe_config (principal : string) (res : DescribeConfigsResource) : hd DescribeConfigsResult :=
  let rt := dcr_resource_type res in
  let name := dcr_resource_name res in
  '(is_auth, err_code) ← config_auth principal rt name OpDescribeConfigs;
  if negb is_auth
  then mret (mkDCRes err_code (Some "Authorization failed for DescribeConfigs"%string) rt name [])
  else if decide (rt = 2) then
    r ← gets (λ b, describe_topic_configs name (dcr_configuration_keys res) (b_cluster b));
    code_or r (λ configs, mkDCRes E_None None rt name configs)
      (λ err, mkDCRes err (Some "Topic does not exist"%string) rt name [])
  else if decide (rt = 4) then
    configs ← gets (λ b, describe_broker_configs (dcr_configuration_keys res) (b_cluster b));
    mret (mkDCRes E_None None rt name configs)
  else mret (mkDCRes E_InvalidRequest (Some (unsupported_resource rt)) rt name []).

Definition api_describe_configs (principal : string) (req : DescribeConfigsRequest) : hd DescribeConfigsResponse :=
  results ← traverse (describe_config principal) (dcq_resources req);
  mret (mkDescConfigsResp 0 results).

Definition alter_config (principal : string) (validate_only : bool) (res : AlterConfigsResource)
    : hd AlterConfigsResourceResponse :=
  let rt := acr_resource_type res in
  let name := acr_resource_name res in
  '(is_auth, err_code) ← config_auth principal rt name OpAlterConfigs;
  if negb is_auth
  then mret (mkACRR err_code (Some "Authorization failed for AlterConfigs"%string) rt name)
  else if decide (rt = 2) then
    known ← gets (λ b, has_topic name (b_cluster b));
    if negb known then mret (mkACRR E_UnknownTopicOrPartition (Some "Topic does not exist"%string) rt name)
    else if validate_only then mret (mkACRR E_None None rt name)
    else
      r ← on_cluster (update_topic_configs name ((λ c, (alc_name c, alc_value c)) <$> acr_configs res));
      code_or r (λ _, mkACRR E_None None rt name)
        (λ code, mkACRR code (Some "Failed to update topic configs"%string) rt name)
  else if decide (rt = 4) then mret (mkACRR E_None None rt name)
  else mret (mkACRR E_InvalidRequest (Some (unsupported_resource rt)) rt name).

Definition api_alter_configs (principal : string) (req : AlterConfigsRequest) : hd AlterConfigsResponse :=
  responses ← traverse (alter_config principal (acq_validate_only req)) (acq_resources req);
  mret (mkAlterConfigsResp 0 responses).

Definition api_list_groups (principal : string) : hd ListGroupsResponse :=
  a ← allowed principal RtCluster cluster_name OpDescribe;
  if negb a then mret (mkListGroupsResp 0 E_ClusterAuthorizationFailed []) else
  g ← gets b_groups;
  mret (mkListGroupsResp 0 E_None ((λ kv, mkListedGroup kv.1 kv.2) <$> list_groups g)).

(** Splits the groups into those that [principal] may touch and the others. *)
Definition split_groups (principal : string) (op : AclOperation) (l : list string) : hd (list string * list string) :=
  flags ← traverse (λ gid, a ← allowed_or_cluster principal RtGroup gid op; mret (gid, a)) l;
  mret ((filter (λ ga : string * bool, ga.2 = true) flags).*1,
        (filter (λ ga : string * bool, ga.2 = false) flags).*1).

Definition api_describe_groups (principal : string) (req : DescribeGroupsRequest) : hd DescribeGroupsResponse :=
  '(query, refused) ← split_groups principal OpDescribe (dgq_groups req);
  g ← gets b_groups;
  mret (mkDescGroupsResp 0
    (((λ gid, mkDescGroup E_GroupAuthorizationFailed gid "" "" "" []) <$> refused) ++ describe_groups query g)).

Definition api_delete_groups (principal : string) (req : DeleteGroupsRequest) : hd DeleteGroupsResponse :=
  '(targets, refused) ← split_groups principal OpDelete (xgq_groups_names req);
  del_results ← on_groups (delete_groups targets);
  mret (mkDelGroupsResp 0
    (((λ gid, mkDelGroup gid E_GroupAuthorizationFailed) <$> refused)
       ++ ((λ kv, mkDelGroup kv.1 kv.2) <$> del_results))).

Definition delete_from (tp : TopicPartition) (offset : Z) : hd (res KafkaErrorCode Z) := λ b,
  let '(r, c, w) := delete_records tp offset (b_cluster b) (b_world b) in
  Some (Ok r, bset_world w (bset_cluster c b)).

Definition api_delete_records (principal : string) (req : DeleteRecordsRequest) : hd DeleteRecordsResponse :=
  topics ← traverse (λ t,
    a ← allowed_or_cluster principal RtTopic (drt_name t) OpDelete;
    parts ← traverse (λ p,
      if negb a then mret (mkDRPR (drp_partition_index p) (-1) E_TopicAuthorizationFailed) else
      r ← delete_from (mkTP (drt_name t) (drp_partition_index p)) (drp_offset p);
      code_or r (λ new_lw, mkDRPR (drp_partition_index p) new_lw E_None)
        (λ err, mkDRPR (drp_partition_index p) (-1) err)) (drt_partitions t);
    mret (mkDRTR (drt_name t) parts)) (drq_topics req);
  mret (mkDelRecordsResp 0 topics).

Definition expand_message (e : KafkaErrorCode) : string :=
  match e with
  | E_UnknownTopicOrPartition => "Topic does not exist"
  | E_InvalidPartitions => "Number of partitions must be greater than existing number of partitions"
  | E_InvalidRequest => "Invalid partition replica assignments"
  | _ => "Failed to expand partitions"
  end.

Definition api_create_partitions (principal : string) (req : CreatePartitionsRequest) : hd CreatePartitionsResponse :=
  results ← traverse (λ t,
    a ← allowed_or_cluster principal RtTopic (cpt_name t) OpAlter;
    if negb a then
      mret (mkCPTR (cpt_name t) E_TopicAuthorizationFailed
              (Some "Topic authorization failed: Alter required on Topic or Cluster"%string))
    else
      r ← on_cluster (create_partitions (cpt_name t) (cpt_count t) (cpt_assignments t) (cpq_validate_only req));
      code_or r (λ _, mkCPTR (cpt_name t) E_None None)
        (λ err, mkCPTR (cpt_name t) err (Some (expand_message err)))) (cpq_topic_partitions req);
  mret (mkCreatePartsResp 0 results).

(** ** Dispatch *)

(** A connection's view of the broker: its session is its own. *)
Abbreviation conn := (ConnectionAuthState * Broker W St)%type.

(** Every request but the two of SASL leaves the session as it is. *)
Definition keep {A} (session : ConnectionAuthState) (m : hd A) (f : A → Response) (b : Broker W St)
    : option (result Response * conn) :=
  match (x ← m; mret (f x)) b with
  | Some (r, b) => Some (r, (session, b))
  | None => None
  end.

(** The match of [handle_request] on the decoded request.  A request is
    executed as a whole: the locks that a handler takes and releases on the way
    are not steps here.  What other threads may do in between is modelled for
    appends ([Concurrent], [GroupCommit]) and for the operations on topics and
    partitions ([TopicThreads]). *)
Definition dispatch (env : Env) (req : Request) (st : conn) : option (result Response * conn) :=
  let '(session, b) := st in
  let p := default "ANONYMOUS"%string (principal session) in
  match req with
  | RqApiVersions _ => Some (Ok (RsApiVersions default_supported), st)
  | RqSaslHandshake m =>
      let '(resp, session) := sasl_handshake (b_auth b) session m in
      Some (Ok (RsSaslHandshake resp), (session, b))
  | RqSaslAuthenticate m =>
      match sasl_authenticate (b_auth b) (env_nonce_rng env) (env_salt_rng env) session m with
      | Ok (resp, session) => Some (Ok (RsSaslAuthenticate resp), (session, b))
      | Err e => Some (Err e, st)
      | Panic => Some (Panic, st)
      end
  | RqMetadata m => keep session (api_metadata p m) RsMetadata b
  | RqProduce m => keep session (api_produce env p m) RsProduce b
  | RqFetch m => keep session (api_fetch env p m) RsFetch b
  | RqFindCoordinator m => keep session (api_find_coordinator p m) RsFindCoordinator b
  | RqListOffsets m => keep session (api_list_offsets p m) RsListOffsets b
  | RqOffsetCommit m => keep session (api_offset_commit p m) RsOffsetCommit b
  | RqOffsetFetch m => keep session (api_offset_fetch p m) RsOffsetFetch b
  | RqHeartbeat m => keep session (api_heartbeat p m) RsHeartbeat b
  | RqLeaveGroup m => keep session (api_leave_group p m) RsLeaveGroup b
  | RqInitProducerId m => keep session (api_init_producer_id env p m) RsInitProducerId b
  | RqAddPartitionsToTxn m => keep session (api_add_partitions_to_txn env p m) RsAddPartitionsToTxn b
  | RqAddOffsetsToTxn m => keep session (api_add_offsets_to_txn p m) RsAddOffsetsToTxn b
  | RqEndTxn m => keep session (api_end_txn env p m) RsEndTxn b
  | RqDescribeAcls m => keep session (api_describe_acls p m) RsDescribeAcls b
  | RqCreateAcls m => keep session (api_create_acls p m) RsCreateAcls b
  | RqDeleteAcls m => keep session (api_delete_acls p m) RsDeleteAcls b
  | RqCreateTopics m => keep session (api_create_topics p m) RsCreateTopics b
  | RqDeleteTopics m => keep session (api_delete_topics p m) RsDeleteTopics b
  | RqDescribeConfigs m => keep session (api_describe_configs p m) RsDescribeConfigs b
  | RqAlterConfigs m => keep session (api_alter_configs p m) RsAlterConfigs b
  | RqListGroups m => keep session (api_list_groups p) RsListGroups b
  | RqDescribeGroups m => keep session (api_describe_groups p m) RsDescribeGroups b
  | RqDeleteGroups m => keep session (api_delete_groups p m) RsDeleteGroups b
  | RqDeleteRecords m => keep session (api_delete_records p m) RsDeleteRecords b
  | RqCreatePartitions m => keep session (api_create_partitions p m) RsCreatePartitions b
  end.

Definition rejected (session : ConnectionAuthState) (b : Broker W St) (key : ApiKey) : bool :=
  au_require_sasl (b_auth b) && negb (is_authenticated session)
  && bool_decide (key ≠ ApiApiVersions) && bool_decide (key ≠ ApiSaslHandshake)
  && bool_decide (key ≠ ApiSaslAuthenticate).

Definition handle_connection_request (env : Env) (header : RequestHeader) (body : bytes) (st : conn)
    : option (result bytes * conn) :=
  if rejected st.1 st.2 (rh_api_key header) then
    Some (Err (EProtocol ("Rejected unauthenticated request " +:+ api_key_debug (rh_api_key header)
            +:+ ": SASL authentication required on this broker")), st)
  else
    match decode_request (rh_api_key header) (rh_api_version header) body with
    | Err e => Some (Err e, st)
    | Panic => Some (Panic, st)
    | Ok (req, _) =>
        match dispatch env req st with
        | None => None
        | Some (Ok resp, st) =>
            Some (Ok (encode_response_header (rh_correlation_id header)
                        ++ encode_response (rh_api_version header) resp), st)
        | Some (Err e, st) => Some (Err e, st)
        | Some (Panic, st) => Some (Panic, st)
        end
    end.

Definition handle_connection_frame (env : Env) (frame : bytes) (st : conn) : option (result bytes * conn) :=
  match decode_request_header frame with
  | Err e => Some (Err e, st)
  | Panic => Some (Panic, st)
  | Ok (header, body) =>
      match handle_connection_request env header body st with
      | Some (Ok payload, st) => Some (Ok (put_32 (i32 (zlen payload)) ++ payload), st)
      | o => o
      end
  end.

Definition anonymous : ConnectionAuthState := Authenticated "ANONYMOUS".
Definition handle_frame (env : Env) (frame : bytes) (b : Broker W St) : option (result bytes * Broker W St) :=
  match handle_connection_frame env frame (anonymous, b) with
  | Some (r, (_, b)) => Some (r, b)
  | None => None
  end.

Definition handle_request (env : Env) (header : RequestHeader) (body : bytes) (b : Broker W St)
    : option (result bytes * Broker W St) :=
  match handle_connection_request env header body (anonymous, b) with
  | Some (r, (_, b)) => Some (r, b)
  | None => None
  end.

(** ** The connection loop

    [incoming] is what the client sends before it closes the connection; a
    request is handled once its frame is complete.  Each round consumes at
    least five bytes of it.  The bytes written back are collected in order. *)
Fixpoint process_connection (fuel : nat) (env : nat → Env) (round : nat) (incoming sent : bytes) (st : conn)
    : option (result unit * bytes * conn) :=
  match fuel with
  | O => None
  | S fuel =>
      if decide (zlen incoming < 4) then Some (Ok tt, sent, st) else
      let frame_len := u64 (i32 (from_be (take 4 incoming))) in
      let incoming := drop 4 incoming in
      if decide (frame_len = 0 ∨ frame_len > 64 * 1024 * 1024)
      then Some (Err (EProtocol ("Invalid frame length: " +:+ dec frame_len)), sent, st) else
      if decide (zlen incoming < frame_len) then Some (Err (EIo "early eof"), sent, st) else
      match handle_connection_frame (env round) (take (Z.to_nat frame_len) incoming) st with
      | None => None
      | Some (Err e, st) => Some (Err e, sent, st)
      | Some (Panic, st) => Some (Panic, sent, st)
      | Some (Ok response_frame, st) =>
          let sent := sent ++ response_frame in
          match st.1 with
          | Failed => Some (Ok tt, sent, st)
          | _ => process_connection fuel env (S round) (drop (Z.to_nat frame_len) incoming) sent st
          end
      end
  end.
End handlers.
