(* ===== verification/Server.v ===== *)
(** * Starting the server

    Models [crates/oxidemq-server/src/main.rs] up to the sockets: the options,
    the choice of the object store, the advertised address, the security
    settings and the engine that [run_server] builds from them, the admin
    application with the registry's routes merged in, and the command-line
    client; and the defaults of [crates/oxidemq-core/src/config.rs].  The
    environment variables are an argument; the AWS client is a parameter. *)

From Stdlib Require Import Strings.Byte.
From stdpp Require Import base numbers list strings sets gmap.
From S2P Require Import Prelude Bytes Text CoreTypes.
From S2P Require Import Wal FileWal LogCache BlockCache ObjectStore Stream Partition.
From S2P Require Import Cluster Txn Group Acl State Sasl SchemaRegistry Chaos Http Broker.

(** ** Configuration *)
Record BrokerConfig := mkBrokerConfig {
  bc_node_id : Z; bc_cluster_id : string; bc_host : string; bc_kafka_port : Z; bc_admin_port : Z }.
Record CacheConfig := mkCacheConfig {
  cc_log_cache_size_bytes : Z; cc_block_cache_size_bytes : Z; cc_prefetch_batch_count : Z }.
Record S3Config := mkS3Config {
  s3_endpoint_url : option string; s3_bucket : string; s3_region : string; s3_access_key_id : string;
  s3_secret_access_key : string; s3_force_path_style : bool; s3_max_object_size_bytes : Z;
  s3_compactor_interval_secs : Z }.

Record OxideConfig := mkOxideConfig {
  oc_broker : BrokerConfig; oc_wal : WalConfig; oc_s3 : S3Config; oc_cache : CacheConfig }.

Definition broker_config_default : BrokerConfig := mkBrokerConfig 1 "oxidemq-cluster-local" "0.0.0.0" 9092 8082.
Definition s3_config_default : S3Config :=
  mkS3Config (Some "http://localhost:4566"%string) "oxidemq-streams" "us-east-1" "test" "test" true
    (32 * 1024 * 1024) 30.
Definition cache_config_default : CacheConfig := mkCacheConfig (256 * 1024 * 1024) (512 * 1024 * 1024) 4.

Definition wal_config_default : WalConfig := mkConfig "./data/wal" (64 * 1024 * 1024) 500 4096 true false.
Definition config_default : OxideConfig :=
  mkOxideConfig broker_config_default wal_config_default s3_config_default cache_config_default.

(** ** Options *)
Record ServerOptions := mkOptions {
  so_host : string;
  so_kafka_port : Z;
  so_ssl_port : Z;
  so_enable_ssl : bool;
  so_tls_cert : option string;
  so_tls_key : option string;
  so_admin_port : Z;
  so_schema_registry_port : Z;
  so_enable_schema_registry : bool;
  so_enable_schema_validation : bool;
  so_enable_sasl : bool;
  so_require_sasl : bool;
  so_sasl_mechanisms : string;
  so_sasl_users : string;
  so_enable_acls : bool;
  so_super_users : string;
  so_allow_everyone_if_no_acl_found : bool }.

(** The defaults of the command line. *)
Definition default_options : ServerOptions :=
  mkOptions "0.0.0.0" 9092 9093 true None None 8082 8081 true false false false
    "PLAIN,SCRAM-SHA-256" "admin=admin-secret,user=user-secret" false "User:admin" false.

(** [std::env::var(..).ok()] *)
Abbreviation vars := (string → option string).

Inductive StorageChoice :=
| S3Client (bucket : string) (endpoint region : option string)
| InMemory.

Definition storage_choice (env : vars) : StorageChoice :=
  match env "OXIDEMQ_S3_BUCKET"%string with
  | Some bucket => S3Client bucket (env "OXIDEMQ_S3_ENDPOINT"%string) (env "OXIDEMQ_S3_REGION"%string)
  | None =>
      match env "OXIDEMQ_S3_ENDPOINT"%string with
      | Some endpoint => S3Client "oxidemq-data" (Some endpoint) None
      | None => InMemory
      end
  end.

Definition advertised_host (env : vars) (host : string) : string :=
  if decide (host = "0.0.0.0"%string) then default "127.0.0.1"%string (env "OXIDEMQ_ADVERTISED_HOST"%string) else host.
Definition advertised_port (env : vars) (kafka_port : Z) : Z :=
  default kafka_port (p ← env "OXIDEMQ_ADVERTISED_PORT"%string; parse_i32 p).

(** [s.split(',')] *)
Definition comma_parts (s : string) : list string := bytes_str <$> split_on "," (str_bytes s).

Definition mechanisms (spec : string) : list SaslMechanism :=
  let l := omap from_str_case_insensitive (comma_parts spec) in
  if decide (l = []) then [Plain; ScramSha256] else l.

Definition authenticator (opts : ServerOptions) : SaslAuthenticator :=
  let a := auth_new (mechanisms (so_sasl_mechanisms opts)) (so_require_sasl opts) in
  if so_enable_sasl opts || so_require_sasl opts || negb (bool_decide (so_sasl_users opts = ""%string))
  then load_user_list (so_sasl_users opts) a else a.

Definition super_user_set (spec : string) : gset string :=
  let s := list_to_set (filter (λ u, u ≠ ""%string) (str_trim <$> comma_parts spec)) : gset string in
  if decide (s = ∅) then {["User:admin"%string]} else s.

Definition authorizer (opts : ServerOptions) : AclAuthorizer :=
  authorizer_new (so_enable_acls opts) (super_user_set (so_super_users opts)) (so_allow_everyone_if_no_acl_found opts).

(** ** The engine of [run_server] *)
Section engine.
Context {St : Type} (open_storage : StorageChoice → option St).

(** The state layers; [expect] when the store cannot be opened. *)
Definition start_engine (env : vars) (opts : ServerOptions) : res unit (Broker MemoryWal.MemoryWal St) :=
  match open_storage (storage_choice env) with
  | None => Panic
  | Some storage =>
      let w := mkWorld MemoryWal.new storage (LC.new (cc_log_cache_size_bytes (oc_cache config_default)))
                 (BC.new (cc_block_cache_size_bytes (oc_cache config_default))) in
      let c := cluster_new (bc_node_id (oc_broker config_default)) (advertised_host env (so_host opts))
                 (advertised_port env (so_kafka_port opts)) (bc_cluster_id (oc_broker config_default)) in
      Ok (with_schema_validation (so_enable_schema_validation opts)
            (with_authorizer (authorizer opts)
              (with_authenticator (authenticator opts)
                (with_schema_registry registry_new
                  (with_chaos chaos_new (broker_new c coordinator_new w))))))
  end.
End engine.

(** ** The admin application *)
Section admin.
Context `{SerdeJson} `{HO : HashOrder} `{JsonBody}.

(** The admin routes with, when the registry is enabled, the registry's merged in;
    their paths are disjoint. *)
Definition admin_app (registry_enabled : bool) (now mono : Z) (m : Method) (path : list string) (body : bytes)
    (st : AppState * SchemaRegistry) : reply * (AppState * SchemaRegistry) :=
  let '(a, r) := st in
  match (if registry_enabled then registry_routes path else None) with
  | Some e => let '(out, r) := endpoint m e body r in (out, (a, r))
  | None => let '(out, a) := admin_router now mono m path body a in (out, (a, r))
  end.
End admin.

(** ** The command line *)

(** [to_lowercase]: no character outside ASCII has one of these names' letters as
    its lower case. *)
Definition chaos_target (target : string) : FaultTarget :=
  let t := to_ascii_lowercase target in
  if decide (t = "produce"%string) then TProduce
  else if decide (t = "fetch"%string) then TFetch
  else if decide (t = "wal"%string) then TWal
  else if decide (t = "s3"%string ∨ t = "s3storage"%string) then TS3Storage
  else TProduce.

Definition chaos_command (now_millis : Z) (target : string) (latency_ms : Z) (error_prob : f64) : ChaosRule :=
  mkRule ("cli-chaos-" +:+ dec now_millis) (chaos_target target) latency_ms error_prob None.

(** [Start] and the bare command carry the same options. *)
Inductive Commands :=
| Start (opts : ServerOptions)
| Status (addr : string)
| DumpState (addr : string)
| Chaos (addr target : string) (latency_ms : Z) (error_prob : f64).
Record Cli := mkCli { cli_command : option Commands; cli_options : ServerOptions }.

Inductive CliAction :=
| RunServer (opts : ServerOptions)
| HttpGet (addr path : string)
| HttpPost (addr path : string) (body : json).

Definition run_cli_command (now_millis : Z) (cli : Cli) : CliAction :=
  match cli_command cli with
  | Some (Status addr) => HttpGet addr "/_oxidemq/status"
  | Some (DumpState addr) => HttpGet addr "/_oxidemq/state/dump"
  | Some (Chaos addr target latency_ms error_prob) =>
      HttpPost addr "/_oxidemq/chaos/rules" (rule_json (chaos_command now_millis target latency_ms error_prob))
  | Some (Start opts) => RunServer opts
  | None => RunServer (cli_options cli)
  end.

Definition crlf : bytes := [x0d; x0a].
Definition http_get_request (addr path : string) : bytes :=
  str_bytes ("GET " +:+ path +:+ " HTTP/1.1") ++ crlf ++ str_bytes ("Host: " +:+ addr) ++ crlf
    ++ str_bytes "Connection: close" ++ crlf ++ crlf.
Definition http_post_request (addr path : string) (json_body : bytes) : bytes :=
  str_bytes ("POST " +:+ path +:+ " HTTP/1.1") ++ crlf ++ str_bytes ("Host: " +:+ addr) ++ crlf
    ++ str_bytes "Content-Type: application/json" ++ crlf
    ++ str_bytes ("Content-Length: " +:+ dec (zlen json_body)) ++ crlf
    ++ str_bytes "Connection: close" ++ crlf ++ crlf ++ json_body.

(** What follows the first blank line of a response, or all of it. *)
Definition http_body (resp : bytes) : bytes :=
  match find_sub (crlf ++ crlf) resp with
  | Some pos => drop (pos + 4) resp
  | None => resp
  end.
