(* ===== verification/Tls.v ===== *)
(** * The encrypted listener's certificate

    Models [create_tls_acceptor] and its helpers in
    [crates/oxidemq-server/src/tls.rs], and the settings with which
    [run_server] (main.rs) calls it.  Reading a file, parsing PEM, generating
    a key pair and checking that a key fits a certificate are the libraries'
    ([TlsLib]); an [anyhow] error is its chain of messages, outermost first. *)

From Stdlib Require Import Strings.Byte.
From stdpp Require Import base numbers list strings sets gmap.
From S2P Require Import Prelude Bytes CoreTypes Server.

Record TlsConfig := mkTls {
  cert_path : option string;
  key_path : option string;
  auto_generate : bool }.

Definition tls_config_default : TlsConfig := mkTls None None true.

(** A file is what a reader gets from it; a PEM certificate file is a sequence
    of items of which each parses or not. *)
Class TlsLib := {
  Cert : Type;
  PrivateKey : Type;
  ServerConfig : Type;
  open_file : string → string + bytes;
  pem_certs : bytes → list (string + Cert);
  pem_private_key : bytes → string + option PrivateKey;
  simple_self_signed : list string → string + (Cert * PrivateKey);
  with_single_cert : list Cert → PrivateKey → string + ServerConfig }.

Abbreviation anyhow := (res (list string)).

(** [.context(msg)?] *)
Definition context {A} (msg : string) (r : string + A) : anyhow A :=
  match r with inl e => Err [msg; e] | inr a => Ok a end.

Section acceptor.
Context `{LIB : TlsLib}.

(** [collect::<Result<Vec<_>, _>>()]: the first error, or all the items. *)
Fixpoint collect {A} (l : list (string + A)) : string + list A :=
  match l with
  | [] => inr []
  | inl e :: _ => inl e
  | inr a :: l => match collect l with inl e => inl e | inr l => inr (a :: l) end
  end.

Definition load_certs_and_key (cert_path key_path : string) : anyhow (list Cert * PrivateKey) :=
  cert_file ← context "Failed to open certificate file" (open_file cert_path);
  certs ← context "Failed to parse PEM certificate" (collect (pem_certs cert_file));
  key_file ← context "Failed to open private key file" (open_file key_path);
  key ← context "Failed to parse private key" (pem_private_key key_file);
  key ← ok_or key ["No private key found in PEM file"%string];
  Ok (certs, key).

Definition subject_alt_names : list string := ["localhost"; "127.0.0.1"; "0.0.0.0"]%string.

Definition generate_self_signed_cert : anyhow (list Cert * PrivateKey) :=
  '(cert, key) ← context "Failed to generate self-signed certificate" (simple_self_signed subject_alt_names);
  Ok ([cert], key).

Definition create_tls_acceptor (config : TlsConfig) : anyhow ServerConfig :=
  '(certs, key) ←
    match cert_path config, key_path config with
    | Some cert_file, Some key_file => load_certs_and_key cert_file key_file
    | _, _ =>
        if auto_generate config then generate_self_signed_cert
        else Err ["TLS enabled but no certificates provided and auto_generate is false"%string]
    end;
  context "Failed to configure rustls ServerConfig" (with_single_cert certs key).

(** The encrypted listener of [run_server]: none when it is disabled or the
    acceptor cannot be made, which is logged. *)
Definition ssl_acceptor (opts : ServerOptions) : option ServerConfig :=
  if so_enable_ssl opts then
    match create_tls_acceptor (mkTls (so_tls_cert opts) (so_tls_key opts) true) with
    | Ok acceptor => Some acceptor
    | _ => None
    end
  else None.

(** ** The connector of the benchmarks: it accepts any certificate *)
Inductive SignatureScheme := RSA_PKCS1_SHA256 | ECDSA_NISTP256_SHA256 | ED25519 | RSA_PSS_SHA256.

(** [ServerCertVerified] and [HandshakeSignatureValid] *)
Inductive assertion := Assertion.

(** What rustls asks of the verifier; the arguments that it ignores are the
    certificate, its chain, the server's name, the OCSP response, the time, the
    signed message and the signature. *)
Record ServerCertVerifier (Name Time Sig : Type) := mkVerifier {
  verify_server_cert : Cert → list Cert → Name → bytes → Time → string + assertion;
  verify_tls12_signature : bytes → Cert → Sig → string + assertion;
  verify_tls13_signature : bytes → Cert → Sig → string + assertion;
  supported_verify_schemes : list SignatureScheme }.

Definition InsecureCertVerifier {Name Time Sig : Type} : ServerCertVerifier Name Time Sig :=
  mkVerifier Name Time Sig (λ _ _ _ _ _, inr Assertion) (λ _ _ _, inr Assertion) (λ _ _ _, inr Assertion)
    [RSA_PKCS1_SHA256; ECDSA_NISTP256_SHA256; ED25519; RSA_PSS_SHA256].

(** The verifier and no client authentication. *)
Definition create_insecure_tls_connector {Name Time Sig : Type} : ServerCertVerifier Name Time Sig * option Cert :=
  (InsecureCertVerifier, None).

Lemma context_Ok {A} msg r (a : A) : context msg r = Ok a → r = inr a.
Proof. destruct r; by intros [= ->]. Qed.

Lemma collect_inr {A} (l : list (string + A)) as_ : collect l = inr as_ ↔ l = inr <$> as_.
Proof.
  revert as_. induction l as [|[e|a] l IH]; intros as_; simpl.
  - split; [by intros [= <-]|]. by destruct as_.
  - split; [done|]. by destruct as_.
  - destruct (collect l) as [e|l'] eqn:E.
    + split; [done|]. destruct as_ as [|a' as_]; [done|]. intros [= -> H]. by apply IH in H.
    + split; [intros [= <-]; simpl; f_equal; by apply IH|].
      destruct as_ as [|a' as_]; [done|]. intros [= -> H]. apply IH in H. by simplify_eq.
Qed.

(** The certificate of the encrypted listener.  When the operator gives
    both a certificate and a key file, a listener that comes up presents
    exactly the certificates of that file, every one of which parsed, with the
    key of the other: a file that is missing, damaged or without a key never
    falls back to a generated certificate.  When one of the two is not given,
    the listener presents one self-signed certificate for the local names. *)
Theorem ssl_certificate_source (opts : ServerOptions) sc :
  ssl_acceptor opts = Some sc →
  so_enable_ssl opts = true
  ∧ ((∃ cf kf cb kb certs key, so_tls_cert opts = Some cf ∧ so_tls_key opts = Some kf
        ∧ open_file cf = inr cb ∧ pem_certs cb = inr <$> certs
        ∧ open_file kf = inr kb ∧ pem_private_key kb = inr (Some key)
        ∧ with_single_cert certs key = inr sc)
     ∨ ((so_tls_cert opts = None ∨ so_tls_key opts = None)
        ∧ ∃ cert key, simple_self_signed subject_alt_names = inr (cert, key)
            ∧ with_single_cert [cert] key = inr sc)).
Proof.
  unfold ssl_acceptor. destruct (so_enable_ssl opts); [|done]. intros H. split; [done|].
  destruct (create_tls_acceptor _) as [sc'| |] eqn:E; simplify_eq. revert E. unfold create_tls_acceptor. cbn.
  assert (∀ x : anyhow (list Cert * PrivateKey), x = generate_self_signed_cert →
    ('(certs, key) ← x; context "Failed to configure rustls ServerConfig" (with_single_cert certs key)) = Ok sc →
    ∃ cert key, simple_self_signed subject_alt_names = inr (cert, key) ∧ with_single_cert [cert] key = inr sc) as Hg.
  { intros x ->. unfold generate_self_signed_cert. destruct (simple_self_signed _) as [e|[cert key]]; simpl; [done|].
    intros E%context_Ok. eauto. }
  destruct (so_tls_cert opts) as [cf|]; [|intros E; right; eauto].
  destruct (so_tls_key opts) as [kf|]; [|intros E; right; eauto].
  unfold load_certs_and_key. left. exists cf, kf. revert E.
  destruct (open_file cf) as [|cb] eqn:Hc; [done|]. simpl.
  destruct (collect (pem_certs cb)) as [|certs] eqn:Hcs; [done|]. simpl. apply collect_inr in Hcs.
  destruct (open_file kf) as [|kb] eqn:Hk; [done|]. simpl.
  destruct (pem_private_key kb) as [|[key|]] eqn:Hp; [done| |done]. simpl. intros E%context_Ok.
  by exists cb, kb, certs, key.
Qed.
End acceptor.

(** A library that reads two files. *)
#[local] Instance sample_lib : TlsLib := {|
  Cert := bytes; PrivateKey := bytes; ServerConfig := list bytes * bytes;
  open_file p := if decide (p = "cert.pem"%string) then inr [x01] else
                 if decide (p = "key.pem"%string) then inr [x02] else inl "not found"%string;
  pem_certs f := [inr f]; pem_private_key f := inr (Some f);
  simple_self_signed _ := inr ([x03], [x04]); with_single_cert cs k := inr (cs, k) |}.

Definition tls_options : ServerOptions :=
  mkOptions "0.0.0.0" 9092 9093 true (Some "cert.pem") (Some "key.pem") 8082 8081 true false false false
    "PLAIN" "" false "" false.

Lemma ssl_certificate_source_witness : so_enable_ssl tls_options = true.
Proof.
  exact (proj1 (ssl_certificate_source tls_options ([[x01]], [x02]) eq_refl)).
Defined.
