(* ===== verification/Bench.v ===== *)
(** * The benchmark client

    Models the producers of
    [crates/oxidemq-benchmarks/src/bin/oxidemq_bench.rs]: the batches each
    producer sends, what it does with the answers, and the choice of the
    percentiles, and the report.  The connections are parameters that answer each
    request; what the clock says (the latency of a request, the time of the whole
    run) is given with the answers.  The statistics are IEEE doubles, as
    [SpecFloat] defines them. *)

From Stdlib Require Import Strings.Byte Floats.SpecFloat.
From stdpp Require Import base numbers list strings sets sorting.
From S2P Require Import Prelude Bytes BytesUtil Text CoreTypes Chaos KafkaWire Batch MessageTypes.
From S2P Require Import MsgCodec MsgMeta MsgData MsgGroup MsgTxn MsgAuth MsgAdmin Messages MsgSafe.

Record Args := mkArgs {
  broker : string;
  topic : string;
  partitions : Z;
  producers : Z;
  records_per_producer : Z;
  record_size : Z;
  batch_size : Z;
  line_rate_gbps : f64;
  tls : bool;
  tls_server_name : string }.

Definition default_args : Args :=
  mkArgs "127.0.0.1:9092" "bench-2.5gbe" 100 16 10000 1024 50 (f64_div (f64_of 5) (f64_of 2)) false "localhost".

(** [s.ends_with(":9093")] *)
Definition use_tls (a : Args) : bool :=
  tls a || bool_decide (suffix (str_bytes ":9093") (str_bytes (broker a))).

Definition total_records (a : Args) : Z := u64 (producers a * records_per_producer a).
Definition total_bytes (a : Args) : Z := u64 (total_records a * record_size a).

(** [i32::rem_euclid], which panics on zero and on overflow. *)
Definition rem_euclid {E} (x n : Z) : res E Z :=
  if decide (n = 0 ∨ x = - 2 ^ 31 ∧ n = -1) then Panic else Ok (x mod Z.abs n).

Definition target_partition {E} (a : Args) (producer_idx batch_id : Z) : res E Z :=
  rem_euclid (i32 (u64 (u64 (producer_idx * 17) + batch_id))) (partitions a).

Definition bench_request (topic : string) (target_partition : Z) (records : bytes) : ProduceRequest :=
  mkProduceReq 1 10000 [mkTPD topic [mkPPD target_partition records]].

Definition bench_header (producer_idx batch_id : Z) : RequestHeader :=
  mkReqHeader ApiProduce 0 (i32 (u64 (u64 (producer_idx * 100000) + batch_id))) (Some "oxidemq-bench"%string).

(** The header, the body and the length in front. *)
Definition wire_buf (h : RequestHeader) (req : ProduceRequest) : bytes :=
  let frame := encode_request_header h ++ encode_ProduceRequest 0 req in
  put_32 (i32 (zlen frame)) ++ frame.

(** What the connection does with a request: it fails on the way out, before
    the length of the answer has come, or after it ([None]); or it answers, so many
    milliseconds after the request was sent. *)
Inductive answer := SendError | LengthError | Length (resp_len : Z) (body : option (bytes * f64)).

(** The state of one producer; [sent] has the requests that were answered. *)
Record producer (P : Type) := mkProducer {
  produced : Z;
  batch_id : Z;
  sent : list bytes;
  latencies_ms : list f64;
  peer : P }.
Arguments mkProducer {P}.
Arguments produced {P}.
Arguments batch_id {P}.
Arguments sent {P}.
Arguments latencies_ms {P}.
Arguments peer {P}.

Section producer.
Context `{Allocator} {P : Type} (connection : bytes → P → answer * P).
Context (a : Args) (producer_idx : Z) (payload : bytes).

(** The answer is decoded and dropped; what is left is whether that panics. *)
Definition read_answer (body : bytes) : bool :=
  match decode_response_header body with
  | Ok (_, rest) => is_Panic (decode_ProduceResponse 0 rest)
  | Err _ => false
  | Panic => true
  end.

(** One round of the loop: [None] is the [break]. *)
Definition round (p : producer P) : res unit (option (producer P)) :=
  let current_batch := Z.min (records_per_producer a - produced p) (batch_size a) in
  target ← target_partition a producer_idx (batch_id p);
  if negb (grants byte (u64 (current_batch * zlen payload))) then Panic else
  let batch_bytes := concat (replicate (Z.to_nat current_batch) payload) in
  let wire := wire_buf (bench_header producer_idx (batch_id p)) (bench_request (topic a) target batch_bytes) in
  let '(ans, peer') := connection wire (peer p) in
  match ans with
  | SendError | LengthError => Ok None
  | Length resp_len body =>
      if negb (grants byte (u64 resp_len)) then Panic else
      match body with
      | None => Ok None
      | Some (body, elapsed_ms) =>
          if read_answer body then Panic else
          Ok (Some (mkProducer (u64 (produced p + current_batch)) (u64 (batch_id p + 1)) (sent p ++ [wire])
                      (latencies_ms p ++ [elapsed_ms]) peer'))
      end
  end.

(** The loop; [None] when [fuel] rounds were not enough. *)
Fixpoint produce_loop (fuel : nat) (p : producer P) : option (res unit (producer P)) :=
  match fuel with
  | O => None
  | S fuel =>
      if decide (produced p < records_per_producer a) then
        match round p with
        | Ok (Some p) => produce_loop fuel p
        | Ok None => Some (Ok p)
        | Err e => Some (Err e)
        | Panic => Some Panic
        end
      else Some (Ok p)
  end.
End producer.

(** ** The whole run *)

(** How a task gets its stream: connecting to the broker, then, with TLS, the
    server name and the handshake. *)
Record link (P : Type) := mkLink {
  tcp_connect : option P;
  server_name_ok : string → bool;
  tls_connect : P → option P }.
Arguments mkLink {P}.
Arguments tcp_connect {P}.
Arguments server_name_ok {P}.
Arguments tls_connect {P}.

Definition open_stream {P} (a : Args) (l : link P) : option P :=
  tcp_stream ← tcp_connect l;
  if use_tls a then if server_name_ok l (tls_server_name a) then tls_connect l tcp_stream else None
  else Some tcp_stream.

(** The latencies of a task and what it added to the shared counter. *)
Definition task `{Allocator} {P} (connection : bytes → P → answer * P) (fuel : nat) (a : Args) (payload : bytes)
    (producer_idx : Z) (l : link P) : option (res unit (list f64 * Z)) :=
  match open_stream a l with
  | None => Some (Ok ([], 0))
  | Some stream =>
      match produce_loop connection a producer_idx payload fuel (mkProducer 0 0 [] [] stream) with
      | None => None
      | Some r => Some (p ← r; Ok (latencies_ms p, produced p))
      end
  end.

(** The tasks from [producer_idx] on. *)
Fixpoint tasks `{Allocator} {P} (connection : bytes → P → answer * P) (fuel : nat) (a : Args) (payload : bytes)
    (producer_idx : Z) (ls : list (link P)) : option (res unit (list (list f64 * Z))) :=
  match ls with
  | [] => Some (Ok [])
  | l :: ls =>
      match task connection fuel a payload producer_idx l, tasks connection fuel a payload (producer_idx + 1) ls with
      | Some r, Some rs => Some (x ← r; xs ← rs; Ok (x :: xs))
      | _, _ => None
      end
  end.

(** [x.round() as usize]: half away from zero, saturating, 0 for NaN. *)
Definition round_as_usize (x : f64) : Z :=
  match x with
  | S754_finite false m e =>
      Z.min usize_max (if decide (0 ≤ e) then Zpos m * 2 ^ e else (2 * Zpos m + 2 ^ (- e)) / (2 * 2 ^ (- e)))
  | S754_infinity false => usize_max
  | _ => 0
  end.

Definition f64_mul : f64 → f64 → f64 := SFmul 53 1024.

Definition percentile (sorted_data : list f64) (pct : f64) : res unit f64 :=
  if decide (sorted_data = []) then Ok (f64_of 0) else
  let idx := round_as_usize (f64_mul (f64_div pct (f64_of 100)) (f64_of (zlen sorted_data))) in
  let clamped := Z.min idx (zlen sorted_data - 1) in
  match sorted_data !! Z.to_nat clamped with Some x => Ok x | None => Panic end.

(** [a.partial_cmp(b).unwrap_or(Equal)] is not [Greater] *)
Definition f64_le (x y : f64) : Prop := SFcompare x y ≠ Some Gt.
#[export] Instance f64_le_dec : RelDecision f64_le.
Proof.
  intros x y. unfold f64_le. destruct (SFcompare x y) as [[]|]; first [by left | right; by intros H; apply H].
Defined.

Record report := mkReport {
  total_done : Z;
  records_per_sec : f64;
  mb_per_sec : f64;
  effective_gbps : f64;
  saturation_pct : f64;
  min_ms : f64;
  percentiles : list f64;
  max_ms : f64 }.

(** 50, 90, 95, 99 and 99.9 *)
Definition pcts : list f64 := [f64_of 50; f64_of 90; f64_of 95; f64_of 99; f64_div (f64_of 999) (f64_of 10)].

Definition make_report (a : Args) (elapsed_secs : f64) (results : list (list f64 * Z)) : res unit report :=
  let all_latencies := merge_sort f64_le (concat results.*1) in
  let total_done := u64 (zsum snd results) in
  let total_mb_done := f64_div (f64_of (u64 (total_done * record_size a))) (f64_mul (f64_of 1024) (f64_of 1024)) in
  let mb_per_sec := f64_div total_mb_done elapsed_secs in
  let effective_gbps := f64_div (f64_mul mb_per_sec (f64_of 8)) (f64_of 1000) in
  ps ← foldr (λ pct acc, x ← percentile all_latencies pct; xs ← acc; Ok (x :: xs)) (Ok []) pcts;
  Ok (mkReport total_done (f64_div (f64_of total_done) elapsed_secs) mb_per_sec effective_gbps
        (f64_mul (f64_div effective_gbps (line_rate_gbps a)) (f64_of 100))
        (default (f64_of 0) (head all_latencies)) ps (default (f64_of 0) (last all_latencies))).

(** [main]: the payload, the tasks (one link for each producer), the report. *)
Definition bench_main `{Allocator} {P} (connection : bytes → P → answer * P) (fuel : nat) (a : Args)
    (links : list (link P)) (elapsed_secs : f64) : option (res unit report) :=
  if negb (grants byte (record_size a)) then Some Panic else
  let payload := replicate (Z.to_nat (record_size a)) x42 in
  if negb (grants (list f64) (producers a)) then Some Panic else
  match tasks connection fuel a payload 0 links with
  | None => None
  | Some r => Some (results ← r; make_report a elapsed_secs results)
  end.

(** ** What the producers send *)

(** A request that the broker can take: one frame, within the broker's limit,
    that decodes to a Produce request for one partition of the topic. *)
Definition well_sent `{Allocator} (a : Args) (payload : bytes) (buf : bytes) : Prop :=
  ∃ frame h target n, (∀ k, decode_kafka_frame (buf ++ k) = Ok (Some frame, k))
    ∧ decode_message frame
        = Ok ((h, RqProduce (bench_request (topic a) target (concat (replicate n payload)))), [])
    ∧ rh_api_key h = ApiProduce ∧ 0 ≤ target < partitions a ∧ 0 < Z.of_nat n ≤ batch_size a.

Lemma zlen_copies n (payload : bytes) : zlen (concat (replicate n payload)) = Z.of_nat n * zlen payload.
Proof.
  induction n as [|n IH]; [done|]. cbn [replicate concat]. rewrite zlen_app, IH. lia.
Qed.

Lemma i32_in_range x : in_s 32 (i32 x).
Proof. apply wrap_s_range; lia. Qed.

Lemma bench_header_wf producer_idx batch_id : header_wf (bench_header producer_idx batch_id).
Proof.
  repeat split; cbn; try (apply i32_in_range); try lia; apply (bool_decide_unpack _); vm_compute; exact I.
Qed.

Lemma bench_header_decodes producer_idx batch_id body :
  decode_request_header (encode_request_header (bench_header producer_idx batch_id) ++ body)
    = Ok (bench_header producer_idx batch_id, body).
Proof.
  rewrite <- (request_header_decodes _ body (bench_header_wf producer_idx batch_id)).
  unfold client_tags. by rewrite decide_False by (intros [[=] _]).
Qed.

Lemma target_in_range {E} a producer_idx batch_id : 0 < partitions a →
  ∃ t, target_partition (E:=E) a producer_idx batch_id = Ok t ∧ 0 ≤ t < partitions a.
Proof.
  intros Hp. unfold target_partition, rem_euclid. rewrite decide_False by lia.
  eexists. split; [done|]. rewrite Z.abs_eq by lia. apply Z.mod_pos_bound; lia.
Qed.

Section producing.
Context `{AmpleMemory} {P : Type} (connection : bytes → P → answer * P) (up : P → Prop).
Context (a : Args) (producer_idx : Z) (payload : bytes).

(** The options are sensible, the largest batch fits a frame,
    and the connection stays up and answers with something decodable. *)
Class BenchOk := {
  bench_batch : 0 < batch_size a;
  bench_partitions : 0 < partitions a < 2 ^ 31;
  bench_records : 0 ≤ records_per_producer a < 2 ^ 64;
  bench_topic : wire_string (topic a);
  bench_fits : batch_size a * zlen payload + str_len (topic a) + 64 ≤ MAX_KAFKA_FRAME_SIZE;
  bench_answers wire p : up p → well_sent a payload wire →
    ∃ body ms p', connection wire p = (Length (zlen body) (Some (body, ms)), p')
      ∧ zlen body < 2 ^ 31 ∧ read_answer body = false ∧ up p' }.
Context `{!BenchOk}.

Lemma bench_well_sent batch_id target n : 0 ≤ target < partitions a → 0 < Z.of_nat n ≤ batch_size a →
  well_sent a payload (wire_buf (bench_header producer_idx batch_id)
    (bench_request (topic a) target (concat (replicate n payload)))).
Proof.
  intros Ht Hn. pose proof bench_partitions. pose proof bench_topic as Htop. pose proof bench_fits as Hfit.
  pose proof (zlen_nonneg payload). pose proof (str_len_nonneg (topic a)).
  set (records := concat (replicate n payload)).
  assert (zlen records ≤ batch_size a * zlen payload) as Hrec by (unfold records; rewrite zlen_copies; nia).
  set (req := bench_request (topic a) target records).
  assert (request_ok 0 (RqProduce req)) as Hok.
  { cbn. unfold ProduceRequest_ok, TopicProduceData_ok, PartitionProduceData_ok, arr_ok, wire_bytes, in_s, MAX_KAFKA_FRAME_SIZE in *.
    cbn. split; [lia|]. split; [lia|]. split; [done|]. split; [by apply ample|]. apply Forall_singleton.
    split; [done|]. split; [done|]. split; [by apply ample|]. apply Forall_singleton. cbn. lia. }
  pose proof (bench_header_wf producer_idx batch_id) as Hh.
  eexists _, (bench_header producer_idx batch_id), target, n. split; [|split]; [| |done].
  - intros k. apply decode_frame_full. unfold frame_ok.
    unfold encode_request_header, encode_ProduceRequest, req, bench_request, put_array,
      encode_TopicProduceData, encode_PartitionProduceData, put_array, write_string, write_bytes. cbn -[zlen records str_bytes].
    lens. cbn -[zlen records str_bytes]. lens.
    change (str_len "oxidemq-bench") with 13. lia.
  - unfold decode_message.
    erewrite reader_bind_ok by apply bench_header_decodes.
    erewrite reader_bind_ok; [reflexivity|].
    pose proof (request_reads 0 (RqProduce req) Hok []) as Hr. rewrite app_nil_r in Hr. exact Hr.
Qed.

(** A round sends the next batch and advances by it. *)
Lemma bench_round p : up (peer p) → 0 ≤ produced p < records_per_producer a →
  ∃ p' buf, round connection a producer_idx payload p = Ok (Some p') ∧ up (peer p')
    ∧ produced p' = produced p + Z.min (records_per_producer a - produced p) (batch_size a)
    ∧ sent p' = sent p ++ [buf] ∧ well_sent a payload buf.
Proof.
  intros Hup Hp. pose proof bench_batch. pose proof bench_partitions. pose proof bench_records. pose proof bench_fits.
  pose proof (zlen_nonneg payload). pose proof (str_len_nonneg (topic a)). unfold round, MAX_KAFKA_FRAME_SIZE in *.
  set (n := Z.min (records_per_producer a - produced p) (batch_size a)).
  assert (0 ≤ n * zlen payload < 2 ^ 31) by nia.
  destruct (target_in_range (E:=unit) a producer_idx (batch_id p)) as (target & -> & Ht); [lia|]. cbn [mbind res_bind].
  rewrite (wrap_u_small 64 (n * zlen payload)), ample by (unfold in_u; lia). cbn [negb].
  pose proof (bench_well_sent (batch_id p) target (Z.to_nat n) Ht ltac:(lia)) as Hw.
  destruct (bench_answers _ (peer p) Hup Hw) as (body & ms & peer' & -> & Hb & Hread & Hup').
  pose proof (zlen_nonneg body). rewrite (wrap_u_small 64 (zlen body)), ample by (unfold in_u; lia). cbn [negb].
  rewrite Hread. do 2 eexists. split; [done|]. split; [done|]. cbn [produced sent].
  rewrite wrap_u_small by (unfold in_u; lia). done.
Qed.

(** The benchmark's producers finish.  Whatever is left to produce, with a
    batch size and a partition count above zero, batches within the broker's
    frame limit, and a connection that keeps answering with a decodable
    response, the loop ends without a panic after sending exactly the requested
    number of records; each request it sends is one frame that the broker
    decodes to a Produce request for a partition of the topic in range. *)
Theorem bench_producer_finishes p : up (peer p) → 0 ≤ produced p ≤ records_per_producer a →
  Forall (well_sent a payload) (sent p) →
  ∃ p', produce_loop connection a producer_idx payload
          (S (Z.to_nat (records_per_producer a - produced p))) p = Some (Ok p')
    ∧ produced p' = records_per_producer a ∧ Forall (well_sent a payload) (sent p').
Proof.
  pose proof bench_batch as Hbatch.
  remember (Z.to_nat (records_per_producer a - produced p)) as fuel eqn:Hf.
  assert (records_per_producer a - produced p ≤ Z.of_nat fuel) as Hle by lia. clear Hf. revert p Hle.
  induction fuel as [|fuel IH]; intros p Hle Hup Hp Hs; cbn [produce_loop].
  - rewrite decide_False by lia. exists p. repeat split; [lia|done].
  - case_decide; [|exists p; repeat split; [lia|done]].
    destruct (bench_round p Hup) as (p' & buf & -> & Hup' & Hn & Hs' & Hbuf); [lia|].
    apply IH; [lia|done|lia|]. rewrite Hs'. by apply Forall_app_2; [|apply Forall_singleton].
Qed.
End producing.

(** With a batch size of zero the loop makes no progress: however many rounds
    it gets, the producer is still running. *)
Theorem bench_zero_batch_never_ends `{AmpleMemory} {P} (connection : bytes → P → answer * P) a idx payload fuel p :
  batch_size a = 0 → 0 < partitions a → 0 ≤ produced p < records_per_producer a → records_per_producer a < 2 ^ 64 →
  (∀ wire q, ∃ body ms q', connection wire q = (Length (zlen body) (Some (body, ms)), q')
     ∧ zlen body < 2 ^ 31 ∧ read_answer body = false) →
  produce_loop connection a idx payload fuel p = None.
Proof.
  intros Hb Hparts Hp Hr Hans. revert p Hp. induction fuel as [|fuel IH]; intros p Hp; [done|]. cbn [produce_loop].
  rewrite decide_True by lia. unfold round. rewrite Hb, Z.min_r by lia.
  destruct (target_in_range (E:=unit) a idx (batch_id p)) as (target & -> & _); [done|]. cbn [mbind res_bind].
  rewrite Z.mul_0_l, (wrap_u_small 64 0), grants_zero by done. cbn [negb].
  edestruct Hans as (body & ms & q & -> & Hlen & ->). pose proof (zlen_nonneg body).
  rewrite (wrap_u_small 64 (zlen body)), ample by (unfold in_u; lia). cbn [negb]. apply IH. cbn [produced].
  rewrite wrap_u_small by (unfold in_u; lia). lia.
Qed.

(** The percentiles are elements of the sample, whatever the rounding does. *)
Lemma round_as_usize_nonneg x : 0 ≤ round_as_usize x.
Proof.
  destruct x as [|[]| |[] m e]; cbn; try done. apply Z.min_glb; [done|]. case_decide; [apply Z.mul_nonneg_nonneg; [lia|apply Z.pow_nonneg; lia]|].
  apply Z.div_pos; pose proof (Z.pow_pos_nonneg 2 (- e)); lia.
Qed.

Theorem percentile_of_sample data pct : ∃ x, percentile data pct = Ok x ∧ (x = f64_of 0 ∧ data = [] ∨ x ∈ data).
Proof.
  unfold percentile. case_decide as Hd; [by exists (f64_of 0); auto|].
  assert (0 < zlen data) by (destruct data; [done|]; unfold zlen; cbn; lia).
  set (idx := round_as_usize _). assert (0 ≤ idx) by apply round_as_usize_nonneg.
  destruct (lookup_lt_is_Some_2 data (Z.to_nat (Z.min idx (zlen data - 1)))) as [x Hx]; [unfold zlen in *; lia|].
  rewrite Hx. exists x. split; [done|]. right. by eapply list_elem_of_lookup_2.
Qed.

Lemma make_report_Ok a secs results : ∃ rep, make_report a secs results = Ok rep
  ∧ total_done rep = u64 (zsum snd results)
  ∧ Forall (λ x, x = f64_of 0 ∨ x ∈ concat results.*1) (min_ms rep :: percentiles rep ++ [max_ms rep]).
Proof.
  unfold make_report. set (l := merge_sort f64_le (concat results.*1)).
  assert (∀ x, x ∈ l → x ∈ concat results.*1) as Hl by (intros x; unfold l; by rewrite merge_sort_Permutation).
  assert (∃ ps, foldr (λ pct acc, x ← percentile l pct; xs ← acc; Ok (x :: xs)) (Ok []) pcts = Ok ps
    ∧ Forall (λ x, x = f64_of 0 ∨ x ∈ concat results.*1) ps) as (ps & -> & Hps).
  { induction pcts as [|pct pcts IH]; [by exists []|]. cbn [foldr]. destruct IH as (ps & -> & Hps).
    destruct (percentile_of_sample l pct) as (x & -> & Hx). exists (x :: ps). split; [done|]. constructor; [|done].
    destruct Hx as [[-> _]|Hx]; [by left|right; by apply Hl]. }
  eexists. split; [done|]. split; [done|]. cbn [min_ms percentiles max_ms]. constructor.
  - destruct l as [|x l'] eqn:E; [by left|]. right. apply Hl. cbn. set_solver.
  - apply Forall_app. split; [done|]. apply Forall_singleton. destruct (last l) as [x|] eqn:E; [|by left].
    right. apply Hl. by apply last_Some_elem_of.
Qed.

(** The benchmark as a whole: with sensible options, links that open, and brokers
    that keep answering, the program ends without a panic and reports exactly the
    number of records asked for; the latencies that it prints are latencies that
    were measured. *)
Theorem bench_main_reports `{AmpleMemory} {P} (connection : bytes → P → answer * P) (up : P → Prop) a links secs :
  let payload := replicate (Z.to_nat (record_size a)) x42 in
  BenchOk connection up a payload → 0 ≤ record_size a < 2 ^ 31 → producers a < 2 ^ 31 → zlen links = producers a →
  Forall (λ l, ∃ p, open_stream a l = Some p ∧ up p) links → producers a * records_per_producer a < 2 ^ 64 →
  ∃ rep ls, bench_main connection (S (Z.to_nat (records_per_producer a))) a links secs = Some (Ok rep)
    ∧ total_done rep = total_records a
    ∧ Forall (λ x, x = f64_of 0 ∨ x ∈ (ls : list f64)) (min_ms rep :: percentiles rep ++ [max_ms rep]).
Proof.
  intros payload HB Hrs Hpr Hlen Hup Htot. assert (0 ≤ records_per_producer a < 2 ^ 64) as Hrec by (by eapply bench_records).
  assert (∀ idx, ∃ results, tasks connection (S (Z.to_nat (records_per_producer a))) a payload idx links = Some (Ok results)
    ∧ zsum snd results = zlen links * records_per_producer a) as Htasks.
  { clear Hlen Htot. induction Hup as [|l links (p & Ho & Hp) _ IH]; intros idx; cbn [tasks]; [by exists []|].
    destruct (IH (idx + 1)) as (results & -> & Hsum). unfold task. rewrite Ho.
    destruct (bench_producer_finishes connection up a idx payload (mkProducer 0 0 [] [] p)) as (q & Hq & Hprod & _);
      [done|cbn; lia|constructor|]. cbn [produced] in Hq. rewrite Z.sub_0_r in Hq. rewrite Hq. cbn [mbind res_bind].
    eexists. split; [done|]. rewrite zlen_cons. unfold zsum in *. cbn in *. rewrite Hprod, Hsum. lia. }
  destruct (Htasks 0) as (results & Ht & Hsum). pose proof (zlen_nonneg links).
  destruct (make_report_Ok a secs results) as (rep & Hrep & Hdone & Hlat).
  exists rep, (concat results.*1). split; [|split; [|done]].
  - unfold bench_main. rewrite !ample by lia. cbn [negb]. fold payload. rewrite Ht. cbn [mbind res_bind]. by rewrite Hrep.
  - rewrite Hdone, Hsum, Hlen. done.
Qed.

(** ** Concrete runs *)
#[local] Existing Instances roomy roomy_ample.

Definition tiny_args : Args := mkArgs "127.0.0.1:9093" "t" 3 1 5 2 2 (f64_of 1) false "localhost".
Definition tiny_payload : bytes := [x42; x42].
Definition tiny_answer : bytes := encode_response_header 7 ++ encode_ProduceResponse 0 (mkProduceResp [] 0).
Definition tiny_connection (wire : bytes) (n : nat) : answer * nat :=
  (Length (zlen tiny_answer) (Some (tiny_answer, f64_of (Z.of_nat n + 3))), S n).

#[local] Instance tiny_ok : BenchOk tiny_connection (λ _, True) tiny_args tiny_payload.
Proof.
  split.
  - done.
  - done.
  - done.
  - apply (bool_decide_unpack _). vm_compute. exact I.
  - apply (bool_decide_unpack _). vm_compute. exact I.
  - intros wire p _ _. exists tiny_answer, (f64_of (Z.of_nat p + 3)), (S p). by split; [|split; [vm_compute|split; [vm_compute|]]].
Qed.

Lemma bench_producer_finishes_witness :
  ∃ p', produce_loop tiny_connection tiny_args 0 tiny_payload 6 (mkProducer 0 0 [] [] 0%nat) = Some (Ok p')
    ∧ produced p' = 5 ∧ Forall (well_sent tiny_args tiny_payload) (sent p').
Proof.
  apply (bench_producer_finishes tiny_connection (λ _, True) tiny_args 0 tiny_payload (mkProducer 0 0 [] [] 0%nat)).
  - exact I.
  - cbn. lia.
  - constructor.
Defined.

Example tiny_run :
  (λ p, (produced p, batch_id p, length (sent p), peer p)) <$>
    match produce_loop tiny_connection tiny_args 0 tiny_payload 6 (mkProducer 0 0 [] [] 0%nat) with
    | Some (Ok p) => Some p | _ => None end = Some (5, 3, 3%nat, 3%nat).
Proof. vm_compute. reflexivity. Qed.

Example tiny_tls : use_tls tiny_args = true ∧ use_tls default_args = false.
Proof. split; vm_compute; reflexivity. Qed.

Lemma bench_zero_batch_never_ends_witness : ∀ fuel,
  produce_loop tiny_connection (mkArgs "b" "t" 3 1 5 2 0 (f64_of 1) false "localhost") 0 tiny_payload fuel (mkProducer 0 0 [] [] 0%nat) = None.
Proof.
  intros fuel. apply bench_zero_batch_never_ends; [done|done|cbn; lia|done|].
  intros wire q. exists tiny_answer, (f64_of (Z.of_nat q + 3)), (S q). by split; [|split; [vm_compute|vm_compute]].
Defined.

Definition tiny_links : list (link nat) := [mkLink (Some 0%nat) (λ _, true) Some].
Lemma bench_main_reports_witness :
  ∃ rep ls, bench_main tiny_connection 6 tiny_args tiny_links (f64_of 2) = Some (Ok rep)
    ∧ total_done rep = 5
    ∧ Forall (λ x, x = f64_of 0 ∨ x ∈ (ls : list f64)) (min_ms rep :: percentiles rep ++ [max_ms rep]).
Proof.
  apply (bench_main_reports tiny_connection (λ _, True) tiny_args tiny_links (f64_of 2)).
  - exact tiny_ok.
  - cbn. lia.
  - reflexivity.
  - reflexivity.
  - constructor; [|constructor]. exists 0%nat. split; [vm_compute; reflexivity|exact I].
  - reflexivity.
Defined.

(** The index of a percentile is rounded from the count, not from the last index:
    of latencies of 3, 4 and 5 milliseconds, the median that is printed is 5. *)
Theorem median_of_three_is_largest :
  percentile [f64_of 3; f64_of 4; f64_of 5] (f64_of 50) = Ok (f64_of 5)
  ∧ match bench_main tiny_connection 6 tiny_args tiny_links (f64_of 2) with
    | Some (Ok rep) => (min_ms rep, head (percentiles rep), max_ms rep) = (f64_of 3, Some (f64_of 5), f64_of 5)
    | _ => False
    end.
Proof. split; vm_compute; reflexivity. Qed.
