(* ===== verification/BrokerSpec.v ===== *)
(** * What the request handler guarantees

    Theorems on Broker.v: authentication gates every effect, authorization
    gates every change, and what is produced can be fetched. *)

From Stdlib Require Import Strings.Byte.
From stdpp Require Import base numbers list strings sets gmap.
From S2P Require Import Prelude Bytes Text Crc CoreTypes KafkaWire Batch MessageTypes.
From S2P Require Import Wal LogCache BlockCache ObjectStore Stream Partition.
From S2P Require Import MsgCodec MsgMeta MsgData MsgGroup MsgTxn MsgAuth MsgAdmin Messages MsgSafe.
From S2P Require Import Cluster Txn Group Acl Sasl SchemaRegistry Chaos Broker.

(** ** Authentication *)
Section authentication.
Context `{Allocator} `{HO : HashOrder} `{CompressionLib} `{ScramCrypto}.
Context {W St : Type} `{!WalEngine W, !ObjectStorage St}.
Implicit Types b : Broker W St.

Lemma decode_request_key key version body req rest :
  decode_request key version body = Ok (req, rest) → request_key req = key.
Proof.
  assert (∀ A (m : decoder A) (f : A → Request), (∀ x, request_key (f x) = key) →
    (x ← m; mret (f x)) body = Ok (req, rest) → request_key req = key) as Hmap.
  { intros A m f Hf. unfold mbind, reader_bind. destruct (m body) as [[x k]| |]; [|done..]. by intros [= <- <-]. }
  destruct key; cbn [decode_request]; first [done | by apply Hmap].
Qed.

(** The frame carries a SaslAuthenticate request with valid credentials. *)
Definition frame_proves (a : SaslAuthenticator) (session : ConnectionAuthState) (frame : bytes) : Prop :=
  ∃ header body req rest p,
    decode_request_header frame = Ok (header, body)
    ∧ decode_request (rh_api_key header) (rh_api_version header) body = Ok (RqSaslAuthenticate req, rest)
    ∧ proves a session (saq_auth_bytes req) p.

(** Before authentication a frame changes the session at most, and leaves it
    authenticated only with valid credentials. *)
Lemma unauthenticated_frame env frame session b r session' b' :
  au_require_sasl (b_auth b) = true → is_authenticated session = false →
  handle_connection_frame env frame (session, b) = Some (r, (session', b')) →
  b' = b ∧ (is_authenticated session' = false ∨ frame_proves (b_auth b) session frame).
Proof.
  intros Hreq Hs. unfold handle_connection_frame.
  destruct (decode_request_header frame) as [[header body]|e|] eqn:Eh; [|by intros [= <- <- <-]; auto..].
  unfold handle_connection_request, rejected. cbn [fst snd]. rewrite Hreq, Hs. cbn [andb negb].
  destruct (decide (rh_api_key header = ApiApiVersions ∨ rh_api_key header = ApiSaslHandshake
                    ∨ rh_api_key header = ApiSaslAuthenticate)) as [Hk|Hk].
  2: { rewrite !bool_decide_eq_true_2 by tauto. cbn. intros [= <- <- <-]. auto. }
  replace (bool_decide _ && bool_decide _ && bool_decide _) with false
    by (destruct Hk as [-> | [-> | ->]]; reflexivity).
  destruct (decode_request _ _ body) as [[req rest]|e|] eqn:Ed; [|by intros [= <- <- <-]; auto..].
  pose proof (decode_request_key _ _ _ _ _ Ed) as Hkey.
  destruct req as [m|m|m|m|m|m|m|m|m|m|m|m|m|m|m|m|m|m|m|m|m|m|m|m|m|m|m|m]; cbn [request_key] in Hkey;
    try (exfalso; rewrite <- Hkey in Hk; naive_solver); cbn [dispatch].
  - destruct (sasl_handshake (b_auth b) session m) as [resp s1] eqn:E. intros [= <- <- <-]. split; [done|]. left.
    unfold sasl_handshake in E. repeat case_match; simplify_eq/=; done.
  - intros [= <- <- <-]. auto.
  - destruct (sasl_authenticate _ _ _ session m) as [[resp s1]|e|] eqn:E; [|by intros [= <- <- <-]; auto..].
    intros [= <- <- <-]. split; [done|]. destruct s1 as [| | |p|]; [by left..| |by left]. right.
    apply sasl_authenticate_cases in E as [[Hp _]|[-> _]]; [|done].
    by exists header, body, m, rest, p.
Qed.

(** The client sent, after [pre], a frame that proves its identity to the session
    that serving [pre] has led to. *)
Definition client_proved (env : nat → Env) (round : nat) (incoming sent : bytes) (session : ConnectionAuthState)
    (b : Broker W St) : Prop :=
  ∃ pre len frame post fuel sent' session',
    incoming = pre ++ len ++ frame ++ post
    ∧ process_connection fuel env round pre sent (session, b) = Some (Ok tt, sent', (session', b))
    ∧ is_authenticated session' = false ∧ frame_proves (b_auth b) session' frame.

(** One round of the loop. *)
Lemma process_connection_frame fuel env round len frame rest sent st :
  length len = 4%nat → let n := u64 (i32 (from_be len)) in
  n = zlen frame → 0 < n ≤ 64 * 1024 * 1024 →
  process_connection (S fuel) env round (len ++ frame ++ rest) sent st =
    match handle_connection_frame (env round) frame st with
    | None => None
    | Some (Err e, st) => Some (Err e, sent, st)
    | Some (Panic, st) => Some (Panic, sent, st)
    | Some (Ok response_frame, st) =>
        match st.1 with
        | Failed => Some (Ok tt, sent ++ response_frame, st)
        | _ => process_connection fuel env (S round) rest (sent ++ response_frame) st
        end
    end.
Proof.
  intros Hl n Hn Hr. cbn [process_connection].
  rewrite decide_False by (rewrite zlen_app; unfold zlen at 1; rewrite Hl; pose proof (zlen_nonneg (frame ++ rest)); lia).
  assert (take 4 (len ++ frame ++ rest) = len) as -> by (rewrite <- Hl; apply take_app_length).
  assert (drop 4 (len ++ frame ++ rest) = frame ++ rest) as -> by (rewrite <- Hl; apply drop_app_length).
  fold n. rewrite decide_False by lia.
  rewrite decide_False by (rewrite zlen_app; pose proof (zlen_nonneg rest); lia).
  assert (Z.to_nat n = length frame) as -> by (rewrite Hn; unfold zlen; lia).
  by rewrite take_app_length, drop_app_length.
Qed.

(** Either the connection ends before a frame is handled, or it begins with one. *)
Lemma process_connection_cases fuel env round incoming sent st out :
  process_connection (S fuel) env round incoming sent st = Some out →
  (∃ r, out = (r, sent, st)) ∨
  (∃ len frame rest, incoming = len ++ frame ++ rest ∧ length len = 4%nat
     ∧ u64 (i32 (from_be len)) = zlen frame ∧ 0 < zlen frame ≤ 64 * 1024 * 1024).
Proof.
  cbn [process_connection]. case_decide as H4; [intros [= <-]; eauto|].
  set (n := u64 (i32 (from_be (take 4 incoming)))). case_decide as Hn; [intros [= <-]; eauto|].
  case_decide as Hl; [intros [= <-]; eauto|]. intros _. right.
  assert (0 ≤ n) as Hpos by (by apply (wrap_u_range 64)).
  exists (take 4 incoming), (take (Z.to_nat n) (drop 4 incoming)), (drop (Z.to_nat n) (drop 4 incoming)).
  assert (zlen (take (Z.to_nat n) (drop 4 incoming)) = n) as Hz.
  { unfold zlen in *. rewrite length_take. lia. }
  rewrite Hz. split_and!; [by rewrite !take_drop| |done|lia|lia].
  rewrite length_take. unfold zlen in H4. lia.
Qed.

Lemma no_effects_loop fuel env round incoming sent session b out sent' session' b' :
  au_require_sasl (b_auth b) = true → is_authenticated session = false →
  process_connection fuel env round incoming sent (session, b) = Some (out, sent', (session', b')) →
  b' = b ∧ is_authenticated session' = false ∨ client_proved env round incoming sent session b.
Proof.
  intros Hreq. revert round incoming sent session.
  induction fuel as [|fuel IH]; intros round incoming sent session Hs Hp; [done|].
  pose proof (process_connection_cases _ _ _ _ _ _ _ Hp) as [[r [= -> -> -> ->]]|(len & frame & rest & -> & Hl & Hn & Hr)]; [by left|].
  rewrite process_connection_frame in Hp by (done || lia).
  destruct (handle_connection_frame (env round) frame (session, b)) as [[r [s1 b1]]|] eqn:Eh; [|done].
  destruct (unauthenticated_frame _ _ _ _ _ _ _ Hreq Hs Eh) as [-> Hor].
  destruct Hor as [Hs1|Hproof].
  2: { right. exists [], len, frame, rest, 1%nat, sent, session. by split_and!. }
  destruct r as [response|e|]; [|by simplify_eq; left..].
  cbn [fst] in Hp. destruct s1 as [|m|scram|p|]; [..|by simplify_eq; left].
  all: destruct (IH _ _ _ _ Hs1 Hp) as [?|(pre & len' & frame' & post & fuel' & sent1 & s2 & -> & Hpre & ? & ?)]; [by left|right].
  all: exists (len ++ frame ++ pre), len', frame', post, (S fuel'), sent1, s2.
  all: split_and!; [by rewrite <- !app_assoc| |done|done].
  all: rewrite process_connection_frame by (done || lia); by rewrite Eh.
Qed.
End authentication.

(** ** Authorization *)
Section authorization.
Context `{Allocator} `{HO : HashOrder} `{CompressionLib} `{ScramCrypto}.
Context {W St : Type} `{!WalEngine W, !ObjectStorage St}.
Implicit Types b : Broker W St.
Context (p : string).

(** The access control list gives the principal nothing. *)
Definition denied (a : AclAuthorizer) : Prop := ∀ rt name op, authorize p client_host rt name op a = false.

(** For a principal without permissions the handler changes nothing; what it
    returns satisfies [Q]. *)
Definition quiet {A} (m : handler W St A) (Q : A → Prop) : Prop := ∀ b r b',
  denied (b_acl b) → m b = Some (r, b') → b' = b ∧ ∀ x, r = Ok x → Q x.

Lemma quiet_ret {A} (x : A) (Q : A → Prop) : Q x → quiet (mret x) Q.
Proof. intros HQ b r b' _ [= <- <-]. split; [done|]. by intros y [= <-]. Qed.

Lemma quiet_bind {A B} (m : handler W St A) (f : A → handler W St B) (P : A → Prop) (Q : B → Prop) :
  quiet m P → (∀ x, P x → quiet (f x) Q) → quiet (m ≫= f) Q.
Proof.
  intros Hm Hf b r b' Hd. unfold mbind, handler_bind.
  destruct (m b) as [[[x|e|] b1]|] eqn:E; [..|done].
  - destruct (Hm _ _ _ Hd E) as [-> HP]. by apply Hf; [apply HP|].
  - destruct (Hm _ _ _ Hd E) as [-> _]. by intros [= <- <-].
  - destruct (Hm _ _ _ Hd E) as [-> _]. by intros [= <- <-].
Qed.

Lemma quiet_gets {A} (f : Broker W St → A) : quiet (gets f) (λ _, True).
Proof. by intros b r b' _ [= <- <-]. Qed.
Lemma quiet_panic {A} (Q : A → Prop) : quiet panic Q.
Proof. by intros b r b' _ [= <- <-]. Qed.
Lemma quiet_diverge {A} (Q : A → Prop) : quiet (λ _, None) Q.
Proof. done. Qed.
Lemma quiet_code {A B} (r : res KafkaErrorCode A) (ok : A → B) err : quiet (code_or r ok err) (λ _, True).
Proof. destruct r; [by apply quiet_ret..|apply quiet_panic]. Qed.

Lemma quiet_allowed rt name op : quiet (allowed p rt name op) (λ a, a = false).
Proof. intros b r b' Hd [= <- <-]. split; [done|]. intros x [= <-]. apply Hd. Qed.

Lemma quiet_allowed_or_cluster rt name op : quiet (allowed_or_cluster p rt name op) (λ a, a = false).
Proof. eapply quiet_bind; [apply quiet_allowed|]. intros x ->. apply quiet_allowed. Qed.

Lemma quiet_each {A B} (f : A → handler W St B) l :
  (∀ x, quiet (f x) (λ _, True)) → quiet (traverse f l) (λ _, True).
Proof.
  intros Hf. induction l as [|x l IH]; [by apply quiet_ret|]. cbn [traverse].
  eapply quiet_bind; [apply Hf|]. intros y _. eapply quiet_bind; [apply IH|]. intros ys _. by apply quiet_ret.
Qed.

End authorization.

Create HintDb quiet.
#[export] Hint Resolve quiet_gets quiet_panic quiet_diverge quiet_code quiet_allowed quiet_allowed_or_cluster : quiet.

(** One step of a handler whose permissions have all come out negative. *)
Ltac quiet_step :=
  lazymatch goal with
  | |- quiet _ (mret _) _ => apply quiet_ret; try done
  | |- quiet _ (mbind _ _) _ =>
      first [eapply quiet_bind; [solve [eauto with quiet]|cbv beta; intros ? ?; simplify_eq/=]
            |eapply (quiet_bind _ _ _ (λ _, True)); [|intros ? _]]
  | |- quiet _ (if ?c then _ else _) _ => destruct c
  | |- quiet _ (match ?o with Some _ => _ | None => _ end) _ => destruct o
  | |- quiet _ (traverse _ _) _ => apply quiet_each; intros ?; cbv beta
  | |- quiet _ (match ?x with (_, _) => _ end) _ => destruct x
  | |- quiet _ _ _ => solve [eauto with quiet]
  end.

Section refusals.
Context `{Allocator} `{HO : HashOrder} `{CompressionLib} `{ScramCrypto}.
Context {W St : Type} `{!WalEngine W, !ObjectStorage St}.
Context (p : string).
Abbreviation quiet' m := (quiet (W:=W) (St:=St) p m (λ _, True)).

Lemma quiet_offset_commit m : quiet' (api_offset_commit p m).
Proof. unfold api_offset_commit. repeat quiet_step. Qed.
Lemma quiet_offset_fetch m : quiet' (api_offset_fetch p m).
Proof. unfold api_offset_fetch. repeat quiet_step. Qed.
Lemma quiet_heartbeat m : quiet' (api_heartbeat p m).
Proof. unfold api_heartbeat. repeat quiet_step. Qed.
Lemma quiet_leave_group m : quiet' (api_leave_group p m).
Proof. unfold api_leave_group. repeat quiet_step. Qed.
Lemma quiet_find_coordinator m : quiet' (api_find_coordinator p m).
Proof. unfold api_find_coordinator. repeat quiet_step. all: by repeat quiet_step. Qed.
Lemma quiet_list_offsets m : quiet' (api_list_offsets p m).
Proof. unfold api_list_offsets, list_offset. repeat quiet_step. Qed.
Lemma quiet_init_producer_id env m : ipq_transactional_id m ≠ None → quiet' (api_init_producer_id env p m).
Proof. intros Hid. unfold api_init_producer_id. destruct (ipq_transactional_id m); [|done]. repeat quiet_step. Qed.
Lemma quiet_add_partitions env m : quiet' (api_add_partitions_to_txn env p m).
Proof. unfold api_add_partitions_to_txn. repeat quiet_step. Qed.
Lemma quiet_add_offsets m : quiet' (api_add_offsets_to_txn p m).
Proof. unfold api_add_offsets_to_txn. repeat quiet_step. Qed.
Lemma quiet_end_txn env m : quiet' (api_end_txn env p m).
Proof. unfold api_end_txn. repeat quiet_step. Qed.
Lemma quiet_describe_acls m : quiet' (api_describe_acls p m).
Proof. unfold api_describe_acls. repeat quiet_step. Qed.
Lemma quiet_create_acls m : quiet' (api_create_acls p m).
Proof. unfold api_create_acls. repeat quiet_step. Qed.
Lemma quiet_delete_acls m : quiet' (api_delete_acls p m).
Proof. unfold api_delete_acls. repeat quiet_step. Qed.
Lemma quiet_create_topics m : quiet' (api_create_topics p m).
Proof. unfold api_create_topics, create_one_topic. repeat quiet_step. Qed.
Lemma quiet_delete_topics m : quiet' (api_delete_topics p m).
Proof. unfold api_delete_topics. repeat quiet_step. Qed.
Lemma quiet_config_auth rt name op :
  quiet (W:=W) (St:=St) p (config_auth p rt name op) (λ a, (rt = 2 ∨ rt = 4) → a.1 = false).
Proof. unfold config_auth. repeat case_decide; repeat quiet_step. all: naive_solver. Qed.
Lemma quiet_describe_configs m : quiet' (api_describe_configs p m).
Proof.
  unfold api_describe_configs. repeat quiet_step. unfold describe_config. eapply quiet_bind; [apply quiet_config_auth|].
  intros [a err] Ha. repeat quiet_step.
Qed.
Lemma quiet_alter_configs m : quiet' (api_alter_configs p m).
Proof.
  unfold api_alter_configs. repeat quiet_step. unfold alter_config. eapply quiet_bind; [apply quiet_config_auth|].
  intros [a err] Ha. cbn [fst] in Ha. destruct a; cbn [negb]; [|repeat quiet_step].
  rewrite !decide_False by (intros ?; discriminate Ha; auto). by apply quiet_ret.
Qed.
(** Nobody's groups are described or deleted. *)
Lemma quiet_split_groups op l : quiet (W:=W) (St:=St) p (split_groups p op l) (λ x, x.1 = []).
Proof.
  unfold split_groups. eapply (quiet_bind _ _ _ (Forall (λ ga : string * bool, ga.2 = false))).
  - induction l as [|g l IH]; [by apply quiet_ret|]. cbn [traverse].
    eapply (quiet_bind _ _ _ (λ ga : string * bool, ga.2 = false)); [repeat quiet_step|]. intros ga Hga.
    eapply quiet_bind; [apply IH|]. intros gas Hgas. apply quiet_ret. by constructor.
  - intros gas Hgas. apply quiet_ret. cbn [fst].
    induction Hgas as [|[g a] gas Ha _ IH]; [done|]. cbn in Ha. subst a. by rewrite filter_cons_False.
Qed.

Lemma quiet_describe_groups m : quiet' (api_describe_groups p m).
Proof.
  unfold api_describe_groups. eapply quiet_bind; [apply quiet_split_groups|]. intros [q refused] Hq. repeat quiet_step.
Qed.

Lemma quiet_delete_none : quiet' (on_groups (delete_groups [])).
Proof. intros b r b' _ [= <- <-]. by destruct b. Qed.

Lemma quiet_delete_groups m : quiet' (api_delete_groups p m).
Proof.
  unfold api_delete_groups. eapply quiet_bind; [apply quiet_split_groups|]. intros [q refused] Hq.
  cbn [fst] in Hq. subst q. eapply quiet_bind; [apply quiet_delete_none|]. intros ? _. by apply quiet_ret.
Qed.

Lemma quiet_list_groups : quiet' (api_list_groups p).
Proof. unfold api_list_groups. repeat quiet_step. Qed.
Lemma quiet_delete_records m : quiet' (api_delete_records p m).
Proof. unfold api_delete_records. repeat quiet_step. Qed.
Lemma quiet_create_partitions m : quiet' (api_create_partitions p m).
Proof. unfold api_create_partitions. repeat quiet_step. Qed.

Lemma quiet_produced env fault l : quiet' (traverse (λ t,
    a ← allowed p RtTopic (tpd_topic t) OpWrite;
    parts ← traverse (produce_partition env a fault (tpd_topic t)) (tpd_partitions t);
    mret (mkTPR (tpd_topic t) parts)) l).
Proof. unfold produce_partition. repeat quiet_step. Qed.

Lemma quiet_fetched env fault iso l : quiet' (traverse (λ t,
    a ← allowed p RtTopic (ft_topic t) OpRead;
    parts ← traverse (fetch_partition env a fault iso (ft_topic t)) (ft_partitions t);
    mret (mkFTR (ft_topic t) parts)) l).
Proof. unfold fetch_partition. repeat quiet_step. Qed.

Lemma quiet_metadata m : mq_allow_auto_topic_creation m = false → quiet' (api_metadata p m).
Proof.
  intros Hm. unfold api_metadata. rewrite Hm.
  eapply (quiet_bind _ _ _ (λ _, True)); [|intros; repeat quiet_step].
  intros b r b' _. unfold on_cluster.
  assert ((build_metadata_with_auto_create (mq_topics m) false (b_cluster b)).2 = b_cluster b) as Hc.
  { unfold build_metadata_with_auto_create.
    assert (∀ l st, (foldl (resolve_topic false) st l).2 = st.2) as Hf.
    { induction l as [|t l IH]; intros [[mp nf] c]; [done|]. cbn [foldl]. rewrite IH. cbn. by case_match. }
    specialize (Hf (default [] (mq_topics m)) (topic_map (mq_topics m) (b_cluster b), [], b_cluster b)).
    destruct (foldl _ _ _) as [[mp nf] c]. cbn in *. by subst c. }
  destruct (build_metadata_with_auto_create _ _ _) as [resp c]. cbn in Hc. subst c.
  intros [= <- <-]. split; [by destruct b|done].
Qed.
End refusals.

#[export] Hint Resolve quiet_offset_commit quiet_offset_fetch quiet_heartbeat quiet_leave_group
  quiet_find_coordinator quiet_list_offsets quiet_init_producer_id quiet_add_partitions quiet_add_offsets
  quiet_end_txn quiet_describe_acls quiet_create_acls quiet_delete_acls quiet_create_topics
  quiet_delete_topics quiet_describe_configs quiet_alter_configs quiet_describe_groups
  quiet_delete_groups quiet_list_groups quiet_delete_records quiet_create_partitions quiet_metadata : quiet.

Section guarded.
Context `{Allocator} `{HO : HashOrder} `{CompressionLib} `{ScramCrypto}.
Context {W St : Type} `{!WalEngine W, !ObjectStorage St}.
Implicit Types b : Broker W St.

(** The requests that change the broker without asking for a permission. *)
Definition unguarded (req : Request) : bool :=
  match req with
  | RqMetadata m => mq_allow_auto_topic_creation m
  | RqInitProducerId m => bool_decide (ipq_transactional_id m = None)
  | _ => false
  end.

Lemma keep_quiet {A} p (m : handler W St A) (f : A → Response) session b r session' b' :
  quiet p m (λ _, True) → denied p (b_acl b) → keep session m f b = Some (r, (session', b')) → b' = b.
Proof.
  intros Hm Hd. unfold keep.
  assert (quiet p (x ← m; mret (f x)) (λ _, True)) as Hq.
  { eapply quiet_bind; [done|]. intros. by apply quiet_ret. }
  destruct (mbind _ m b) as [[r1 b1]|] eqn:E; [|done]. intros [= <- <- <-]. by eapply Hq.
Qed.

(** The same, after the fault injector has been asked. *)
Lemma keep_quiet_chaos {A B} p target (g : result (option Z) → handler W St A) (k : A → handler W St B)
    (f : B → Response) session b r session' b' :
  (∀ fault, quiet p (g fault) (λ _, True)) → (∀ x, quiet p (k x) (λ _, True)) → denied p (b_acl b) →
  keep session (fault ← check_chaos target; x ← g fault; k x) f b = Some (r, (session', b')) →
  b' = bset_chaos (b_chaos b') b.
Proof.
  intros Hg Hk Hd. unfold keep. unfold mbind at 1 2, handler_bind at 1 2. unfold check_chaos.
  destruct (check_fault target (b_chaos b)) as [fault c].
  assert (quiet p (x ← g fault; k x) (λ _, True)) as Hq.
  { eapply quiet_bind; [done|]. intros. apply Hk. }
  assert (denied p (b_acl (bset_chaos c b))) as Hd' by done.
  destruct (mbind _ (g fault) (bset_chaos c b)) as [[[x|e|] b1]|] eqn:E; [..|done].
  all: destruct (Hq _ _ _ Hd' E) as [-> _]; by intros [= <- <- <-].
Qed.

Lemma bset_chaos_same b : bset_chaos (b_chaos b) b = b.
Proof. by destruct b. Qed.

Lemma dispatch_denied env req session b r session' b' :
  denied (default "ANONYMOUS"%string (principal session)) (b_acl b) → unguarded req = false →
  dispatch env req (session, b) = Some (r, (session', b')) → b' = bset_chaos (b_chaos b') b.
Proof.
  intros Hd Hu. set (p := default _ _) in *.
  assert (∀ A (m : handler W St A) f, quiet p m (λ _, True) →
    keep session m f b = Some (r, (session', b')) → b' = bset_chaos (b_chaos b') b) as Hkeep.
  { intros A m f Hm E. rewrite (keep_quiet p m f _ _ _ _ _ Hm Hd E). by rewrite bset_chaos_same. }
  destruct req as [m|m|m|m|m|m|m|m|m|m|m|m|m|m|m|m|m|m|m|m|m|m|m|m|m|m|m|m]; cbn [dispatch unguarded] in *; fold p.
  all: try (apply Hkeep; solve [eauto with quiet]).
  - apply keep_quiet_chaos with (p := p); [|intros; by apply quiet_ret|done]. intros. apply quiet_produced.
  - apply keep_quiet_chaos with (p := p); [|intros; by apply quiet_ret|done]. intros. apply quiet_fetched.
  - destruct (sasl_handshake _ _ _). intros [= <- <- <-]. by rewrite bset_chaos_same.
  - intros [= <- <- <-]. by rewrite bset_chaos_same.
  - apply Hkeep, quiet_init_producer_id. by apply bool_decide_eq_false in Hu.
  - destruct (sasl_authenticate _ _ _ _ _) as [[]| |]; intros [= <- <- <-]; by rewrite bset_chaos_same.
Qed.
End guarded.

(** ** Producing and fetching *)
Lemma batch_info_image im rest : image_wf im →
  ∃ pid, batch_info (im_bytes im ++ rest) = Some (im_attrs im, pid).
Proof.
  intros (Hb & He & Ha & Hr & Hp). unfold batch_info.
  assert (length (im_base im) = 8%nat ∧ length (im_epoch im) = 4%nat) as [Lb Le] by (unfold zlen in *; lia).
  pose proof (zlen_nonneg (im_payload im)). pose proof (zlen_nonneg rest).
  set (n4 := put_32 (49 + zlen (im_payload im))). set (crc := put_32 (compute_crc32c (im_crc_data im))).
  assert (length n4 = 4%nat ∧ length crc = 4%nat) as [L4 Lc] by (unfold n4, crc; by rewrite !length_to_be).
  assert (im_bytes im ++ rest = (im_base im ++ n4 ++ im_epoch im) ++ x02 :: (crc ++ put_16 (im_attrs im)
    ++ im_rest im ++ im_payload im ++ rest)) as ->.
  { unfold im_bytes, im_crc_data. change (put_8 2) with [x02]. unfold n4, crc. by rewrite <- !app_assoc. }
  assert (length (im_base im ++ n4 ++ im_epoch im) = 16%nat) as L16 by (rewrite !length_app; lia).
  set (pre := im_base im ++ n4 ++ im_epoch im) in *.
  rewrite decide_True; cycle 1.
  { split; [|by rewrite <- L16, list_lookup_middle]. rewrite !zlen_app, zlen_cons, !zlen_app.
    unfold zlen at 1 2. rewrite L16, Lc. rewrite zlen_to_be. lia. }
  eexists. do 2 f_equal. replace 21%nat with (length pre + (1 + length crc))%nat by lia.
  rewrite <- drop_drop, drop_app_length. cbn [Nat.add drop]. rewrite drop_app_length.
  change 2%nat with (length (put_16 (im_attrs im))) at 1.
  rewrite take_app_length, from_be_to_be. change (256 ^ Z.of_nat 2) with (2 ^ 16).
  by apply wrap_s_of_residue.
Qed.

Section produce_fetch.
Context `{Allocator} `{HO : HashOrder} `{CompressionLib} `{ScramCrypto}.
Context {W St : Type} `{!WalEngine W, !WalEngineLaws W, !ObjectStorage St, !ObjectStorageLaws St}.
Implicit Types b : Broker W St.

(** The partition that a request for [tp] works on. *)
Definition home (tp : TopicPartition) b : Partition := (get_or_create_partition tp (b_cluster b)).1.

Lemma get_or_create_again tp c :
  get_or_create_partition tp (get_or_create_partition tp c).2
    = ((get_or_create_partition tp c).1, (get_or_create_partition tp c).2).
Proof.
  unfold get_or_create_partition. destruct (cs_partitions c !! tp) as [P|] eqn:E; cbn.
  - by rewrite E.
  - by rewrite lookup_insert_eq.
Qed.

Lemma get_or_create_put tp P c : get_or_create_partition tp (put_partition tp P c) = (P, put_partition tp P c).
Proof. unfold get_or_create_partition. cbn. by rewrite lookup_insert_eq. Qed.

(** An accepted partition was appended to, and only that happened. *)
Lemma produce_partition_accepted env a fault topic part recs b base time start b' :
  let tp := mkTP topic part in
  produce_partition env a fault topic (mkPPD part recs) b = Some (Ok (mkPPR part E_None base time start), b') →
  ∃ P' w', append_records (env_now env (b_ticks b)) recs (home tp b) (b_world b) = (Ok (base, time), P', w')
    ∧ home tp b' = P' ∧ b_world b' = w' ∧ b_acl b' = b_acl b ∧ b_chaos b' = b_chaos b
    ∧ start = log_start_offset P'.
Proof.
  intros tp. unfold produce_partition. destruct a; cbn [negb]; [|done]. cbn [ppd_partition ppd_records]. fold tp.
  unfold mbind at 1, handler_bind at 1, ensure_partition, on_cluster. unfold home.
  destruct (get_or_create_partition tp (b_cluster b)) as [P c] eqn:E. cbn [fst].
  destruct fault; [done|]. destruct (decompress_record_batch recs) as [[d|e|]|]; [|done..].
  unfold mbind at 1, handler_bind at 1, gets at 1. case_match; [done|].
  unfold mbind at 1, handler_bind at 1, clock at 1. unfold mbind at 1, handler_bind at 1, append_to at 1.
  cbn [b_cluster bset_cluster bset_ticks b_ticks b_world].
  assert (get_or_create_partition tp c = (P, c)) as ->.
  { pose proof (get_or_create_again tp (b_cluster b)) as Hg. by rewrite E in Hg. }
  destruct (append_records _ _ _ _) as [[[[b_off a_time]|e|] P'] w'] eqn:Ea; [|done..].
  cbv iota beta. intros [= -> -> <- <-]. exists P', w'. cbn [b_cluster bset_cluster bset_world bset_ticks b_world b_acl b_chaos].
  by rewrite get_or_create_put.
Qed.

(** One topic, one partition. *)
Definition produce_one (acks timeout_ms : Z) (topic : string) (part : Z) (records : bytes) : ProduceRequest :=
  mkProduceReq acks timeout_ms [mkTPD topic [mkPPD part records]].
Definition produced_one (topic : string) (part base time start : Z) : ProduceResponse :=
  mkProduceResp [mkTPR topic [mkPPR part E_None base time start]] 0.
Definition fetch_one (isolation_level : Z) (topic : string) (part offset max_bytes : Z) : FetchRequest :=
  mkFetchReq 500 1 0x7FFFFFFF isolation_level [mkFT topic [mkFP part offset max_bytes]].
Definition fetched_one (topic : string) (part hw lso : Z) (records : bytes) : FetchResponse :=
  mkFetchResp 0 E_None [mkFTR topic [mkFPR part E_None hw lso records]].

Lemma api_produce_one env pr acks tmo topic part recs b base time start b' :
  api_produce env pr (produce_one acks tmo topic part recs) b = Some (Ok (produced_one topic part base time start), b') →
  ∃ b1 a fault, produce_partition env a fault topic (mkPPD part recs) b1
      = Some (Ok (mkPPR part E_None base time start), b')
    ∧ b_cluster b1 = b_cluster b ∧ b_world b1 = b_world b ∧ b_ticks b1 = b_ticks b ∧ b_acl b1 = b_acl b.
Proof.
  unfold api_produce, produce_one, produced_one. cbn [pq_topic_data traverse].
  unfold mbind at 1, handler_bind at 1, check_chaos.
  destruct (check_fault TProduce (b_chaos b)) as [fault c]. set (b1 := bset_chaos c b).
  unfold mbind, handler_bind, allowed, gets, mret, handler_ret. cbn [tpd_topic tpd_partitions traverse].
  unfold mbind, handler_bind, mret, handler_ret.
  destruct (produce_partition env _ _ topic (mkPPD part recs) b1) as [[[x|e|] b2]|] eqn:E; [|done..].
  intros [= -> <-].
  eexists b1, _, _. split; [exact E|]. done.
Qed.

Lemma api_fetch_one env pr iso topic part off maxb b batches w' :
  let P := home (mkTP topic part) b in
  authorize pr client_host RtTopic topic OpRead (b_acl b) = true →
  is_fault (check_fault TFetch (b_chaos b)).1 = false → env_fetch_compression env = None →
  read_records off (u64 maxb) P (b_world b) = (Ok batches, w') →
  ∃ b', api_fetch env pr (fetch_one iso topic part off maxb) b
    = Some (Ok (fetched_one topic part (high_watermark P) (last_stable_offset P)
        (concat (filter (λ ob : Z * bytes,
           visible iso (last_stable_offset P) (aborted_txns P) ob.1 ob.2 = true) batches).*2)), b').
Proof.
  intros P Hauth Hfault Henv Hread. unfold api_fetch, fetch_one, fetched_one. cbn [fq_topics traverse].
  unfold mbind at 1, handler_bind at 1, check_chaos.
  destruct (check_fault TFetch (b_chaos b)) as [fault c]. cbn [fst] in Hfault. set (b1 := bset_chaos c b).
  unfold mbind, handler_bind, allowed, gets, mret, handler_ret. cbn [ft_topic ft_partitions traverse fq_isolation_level].
  unfold mbind, handler_bind, mret, handler_ret.
  change (b_acl b1) with (b_acl b). rewrite Hauth, Hfault.
  unfold fetch_partition. cbn [negb fp_partition fp_fetch_offset fp_partition_max_bytes].
  unfold mbind, handler_bind, ensure_partition, on_cluster. change (b_cluster b1) with (b_cluster b).
  unfold P, home in *. destruct (get_or_create_partition _ _) as [Q c']. cbn [fst] in *.
  unfold read_from, mbind, handler_bind. change (b_world (bset_cluster c' b1)) with (b_world b). rewrite Hread.
  cbv iota beta. unfold mret, handler_ret, recompress. rewrite Henv. by eexists.
Qed.
(** Batches that do not begin with a control batch are shown to every consumer
    that reads uncommitted records. *)
Lemma visible_assigned base ims im lso aborted : Forall image_wf ims → head ims = Some im → Z.land (im_attrs im) 0x0020 = 0 →
  visible 0 lso aborted base (concat (im_bytes <$> assign base ims)) = true.
Proof.
  intros Hwf Him Hctrl. destruct ims as [|im' ims]; [done|]. injection Him as ->.
  apply Forall_cons in Hwf as [Hwf _]. cbn [assign]. rewrite fmap_cons. cbn [concat]. unfold visible.
  destruct (batch_info_image (rebase base im) (concat (im_bytes <$> assign (base + im_count im) ims))) as [pid ->].
  { destruct Hwf as (? & ? & ? & ? & ?). unfold rebase, image_wf. cbn. by rewrite zlen_to_be. }
  cbn [rebase im_attrs]. by rewrite Hctrl.
Qed.

End produce_fetch.

(** ** Responses *)
Section responses.
Context `{Allocator} `{HO : HashOrder} `{CompressionLib} `{ScramCrypto}.
Context {W St : Type} `{!WalEngine W, !ObjectStorage St}.
Implicit Types b : Broker W St.

(** What a client reads off a response frame's payload. *)
Definition decode_reply (key : ApiKey) (version : Z) : decoder (Z * Response) :=
  correlation_id ← decode_response_header;
  resp ← decode_response key version;
  mret (correlation_id, resp).

Lemma keep_ok {A} session (m : handler W St A) (f : A → Response) b resp st :
  keep session m f b = Some (Ok resp, st) → ∃ x, resp = f x.
Proof.
  unfold keep, mbind, handler_bind. destruct (m b) as [[[x|e|] b1]|]; [|done..].
  intros [= <- <-]. by exists x.
Qed.

Lemma dispatch_key env req st resp st' :
  dispatch env req st = Some (Ok resp, st') → response_key resp = request_key req.
Proof.
  destruct st as [session b].
  destruct req as [m|m|m|m|m|m|m|m|m|m|m|m|m|m|m|m|m|m|m|m|m|m|m|m|m|m|m|m]; cbn [dispatch].
  all: try (by intros [x ->]%keep_ok).
  - destruct (sasl_handshake _ _ _). by intros [= <- <-].
  - by intros [= <- <-].
  - destruct (sasl_authenticate _ _ _ _ _) as [[]| |]; by intros [= <- <-].
Qed.

Lemma request_header_correlation frame header body :
  decode_request_header frame = Ok (header, body) → in_s 32 (rh_correlation_id header).
Proof.
  unfold decode_request_header. unfold mbind at 1, reader_bind at 1, remaining at 1. case_decide; [done|].
  unfold mbind at 1, reader_bind at 1. destruct (get_s 2 frame) as [[key l1]| |]; [|done..].
  destruct (api_key_from_i16 key); [|done].
  unfold mbind at 1, reader_bind at 1. destruct (get_s 2 l1) as [[v l2]| |]; [|done..].
  unfold mbind at 1, reader_bind at 1. destruct (get_s 4 l2) as [[corr l3]| |] eqn:E; [|done..].
  unfold mbind at 1, reader_bind at 1. destruct (read_string l3) as [[cid l4]| |]; [|done..].
  unfold mbind at 1, reader_bind at 1, remaining at 1.
  unfold mbind at 1, reader_bind at 1. repeat case_match; try done; intros [= <- <-].
  all: by apply (get_s_inv 4) in E as [_ ?]; [|lia].
Qed.
End responses.

(** ** Properties *)
Section properties.
Context `{Allocator} `{HO : HashOrder} `{CompressionLib} `{ScramCrypto}.
Context {W St : Type} `{!WalEngine W, !WalEngineLaws W, !ObjectStorage St, !ObjectStorageLaws St}.
Implicit Types b : Broker W St.

(** Nothing happens before authentication.  On a broker that requires SASL,
    whatever bytes a client sends on a connection, either the broker's state is
    untouched and the connection is not authenticated, or at some point the
    client sent a SaslAuthenticate request that proved its identity to the
    session as it then was. *)
Theorem no_effects_before_authentication env fuel incoming b out sent session' b' :
  au_require_sasl (b_auth b) = true →
  process_connection fuel env 0 incoming [] (Unauthenticated, b) = Some (out, sent, (session', b')) →
  b' = b ∧ is_authenticated session' = false ∨ client_proved env 0 incoming [] Unauthenticated b.
Proof. intros Hr. by apply no_effects_loop. Qed.

(** C11: Authorization guards every change.  A request of a principal whom the
    access control list permits nothing leaves the broker as it was, up to the
    counter of injected faults; the only requests that do not ask for a
    permission are Metadata with automatic topic creation and InitProducerId
    without a transactional id. *)
Theorem denied_principal_changes_nothing env req session b r session' b' :
  denied (default "ANONYMOUS"%string (principal session)) (b_acl b) → unguarded req = false →
  dispatch env req (session, b) = Some (r, (session', b')) →
  b' = bset_chaos (b_chaos b') b.
Proof. apply dispatch_denied. Qed.

(** What is produced can be fetched.  When a produce request of well-formed
    batches is accepted, its base offset is the partition's high watermark, and
    a fetch from there that the principal is authorized for returns, before
    anything else, exactly these batches with their offsets assigned, and the
    new high watermark. *)
Theorem produce_then_fetch env env' pr acks tmo topic part ims b base time start b' max_bytes :
  let tp := mkTP topic part in
  let records := concat (im_bytes <$> ims) in
  api_produce env pr (produce_one acks tmo topic part records) b
    = Some (Ok (produced_one topic part base time start), b') →
  Forall image_wf ims → (∃ im, head ims = Some im ∧ Z.land (im_attrs im) 0x0020 = 0) → zlen records < 2 ^ 32 →
  0 ≤ log_start_offset (home tp b) ≤ high_watermark (home tp b) →
  high_watermark (home tp b) + offsets_taken ims < i64_max →
  wal_inv (wal (b_world b)) → in_u 64 (s_stream_id (stream (home tp b))) →
  cache_ok (log_cache (b_world b)) (zlen records) →
  authorize pr client_host RtTopic topic OpRead (b_acl b) = true →
  is_fault (check_fault TFetch (b_chaos b')).1 = false → env_fetch_compression env' = None →
  base = high_watermark (home tp b)
  ∧ ∃ lso more b'', api_fetch env' pr (fetch_one 0 topic part base max_bytes) b'
      = Some (Ok (fetched_one topic part (base + offsets_taken ims) lso
                    (concat (im_bytes <$> assign base ims) ++ more)), b'').
Proof.
  intros tp records Hprod Hwf (im & Him & Hctrl) Hlen Hst Hov Hw Hsid Hc Hauth Hfault Henv.
  apply api_produce_one in Hprod as (b1 & a & fault & Hp & Ec & Ew & Et & Ea).
  apply produce_partition_accepted in Hp as (P' & w' & Happ & Hhome & Hw' & Hacl & Hchaos & _).
  unfold home in Happ. rewrite Ec, Ew in Happ. fold tp in Happ. fold (home tp b) in Happ.
  assert (ims ≠ []) as Hne by (by destruct ims).
  destruct (append_assigns_offsets _ _ _ _ _ _ _ _ (u64 max_bytes) Happ Hne Hwf Hlen Hst Hov Hw Hsid Hc)
    as (Hb & Hhw & _ & _ & rest & Hread).
  split; [done|]. destruct (read_records base (u64 max_bytes) P' w') as [r w''] eqn:Er. cbn [fst] in Hread. subst r.
  destruct (api_fetch_one env' pr 0 topic part base max_bytes b' ((base, concat (im_bytes <$> assign base ims)) :: rest) w'')
    as [b'' Hf].
  - by rewrite Hacl, Ea.
  - done.
  - done.
  - by rewrite Hhome, Hw'.
  - rewrite Hf, Hhome, Hhw, <- Hb. rewrite filter_cons_True.
    + rewrite fmap_cons. cbn [concat snd]. by do 3 eexists.
    + by eapply visible_assigned.
Qed.

(** C22: Every answer can be read by its client.  A frame that is answered is
    answered with one frame, whose payload carries the request's correlation id
    and a response of the request's API; when the response fits the wire
    format, decoding it for the request's version gives it back. *)
Theorem served_frame_decodes env frame st out st' :
  handle_connection_frame env frame st = Some (Ok out, st') →
  ∃ header body resp, decode_request_header frame = Ok (header, body)
    ∧ response_key resp = rh_api_key header
    ∧ out = encode_kafka_frame (encode_response_header (rh_correlation_id header)
                                ++ encode_response (rh_api_version header) resp)
    ∧ (response_ok (rh_api_version header) resp → ∀ rest,
         decode_reply (rh_api_key header) (rh_api_version header)
             (encode_response_header (rh_correlation_id header)
              ++ encode_response (rh_api_version header) resp ++ rest)
           = Ok ((rh_correlation_id header, seen_response (rh_api_version header) resp), rest)).
Proof.
  unfold handle_connection_frame. destruct (decode_request_header frame) as [[header body]|e|] eqn:Eh; [|done..].
  unfold handle_connection_request. destruct (rejected _ _ _); [done|].
  destruct (decode_request _ _ body) as [[req rest]|e|] eqn:Ed; [|done..].
  destruct (dispatch env req st) as [[[resp|e|] st1]|] eqn:E; [|done..]. intros [= <- <-].
  pose proof (decode_request_key _ _ _ _ _ Ed) as Hk. apply dispatch_key in E. rewrite Hk in E.
  exists header, body, resp. split; [done|]. split; [exact E|]. split; [reflexivity|]. intros Hok k. unfold decode_reply.
  apply request_header_correlation in Eh.
  assert (∀ l, decode_response_header (encode_response_header (rh_correlation_id header) ++ l)
    = Ok (rh_correlation_id header, l)) as Hh.
  { intros l. unfold decode_response_header, encode_response_header. rewrite read_remaining.
    pose proof (zlen_nonneg l). rewrite decide_False by (rewrite zlen_app, zlen_to_be; lia). by apply reads_i32. }
  erewrite reader_bind_ok by apply Hh. rewrite <- E. by erewrite reader_bind_ok by by apply response_reads.
Qed.
End properties.

(** ** Concrete brokers *)
Import MemoryWal MemoryStore.
#[local] Existing Instances roomy stored_lib toy_crypto.

Abbreviation memory_broker := (Broker MemoryWal MemoryObjectStorage).
Definition demo_env : Env := mkEnv (λ n, 1700 + Z.of_nat n) (Some [x01]) (Some [x02]) None.
Definition demo_broker : memory_broker := broker_new demo_cluster coordinator_new demo_world.

(** SASL is required, and alice is the only user. *)
Definition sasl_broker : memory_broker :=
  with_authenticator (add_user "alice" "secret" (auth_new [Plain] true)) demo_broker.
(** The access control list is enabled and empty. *)
Definition locked_broker : memory_broker := with_authorizer (authorizer_new true ∅ false) demo_broker.

Definition frame_of (h : RequestHeader) (r : Request) : bytes :=
  encode_request_header h ++ encode_request (rh_api_version h) r.

Definition metadata_frame : bytes :=
  frame_of (mkReqHeader ApiMetadata 1 7 None) (RqMetadata (mkMetaReq (Some ["orders"%string]) true)).

Lemma no_effects_before_authentication_witness :
  let '(out, sent, (session', b')) :=
    default (Panic, [], (Failed, sasl_broker))
      (process_connection 3 (λ _, demo_env) 0
         (encode_kafka_frame metadata_frame) [] (Unauthenticated, sasl_broker)) in
  b' = sasl_broker ∧ is_authenticated session' = false
  ∨ client_proved (λ _, demo_env) 0
      (encode_kafka_frame metadata_frame) [] Unauthenticated sasl_broker.
Proof.
  refine (no_effects_before_authentication (λ _, demo_env) 3 _ sasl_broker _ _ _ _ _ _).
  - reflexivity.
  - vm_compute. reflexivity.
Defined.

Lemma denied_principal_changes_nothing_witness :
  let req := RqCreateTopics (mkCreateTopicsReq [mkCreatable "orders" 3 1 [] []] 1000 false) in
  ∃ r b', dispatch demo_env req (Authenticated "mallory", locked_broker) = Some (r, (Authenticated "mallory", b'))
    ∧ b' = bset_chaos (b_chaos b') locked_broker.
Proof.
  intros req. exists (Ok (RsCreateTopics (mkCreateTopicsResp 0 [mkCTR "orders" E_TopicAuthorizationFailed
    (Some "Topic authorization failed: Create required on Topic or Cluster"%string)]))), locked_broker.
  assert (dispatch demo_env req (Authenticated "mallory", locked_broker) = Some (_, (Authenticated "mallory", locked_broker)))
    as Hd by (vm_compute; reflexivity).
  split; [exact Hd|].
  apply (denied_principal_changes_nothing demo_env req (Authenticated "mallory") locked_broker _ _ _) in Hd; [exact Hd| |reflexivity].
  intros rt name op. vm_compute. reflexivity.
Defined.

Definition demo_produced := api_produce demo_env "alice" (produce_one 1 1000 "orders" 0 (concat (im_bytes <$> demo_batches))) demo_broker.
Definition after_produce : memory_broker :=
  match demo_produced with Some (_, b) => b | None => demo_broker end.

Lemma produce_then_fetch_witness :
  0 = high_watermark (home (mkTP "orders" 0) demo_broker)
  ∧ ∃ lso more b'', api_fetch demo_env "alice" (fetch_one 0 "orders" 0 0 4096) after_produce
      = Some (Ok (fetched_one "orders" 0 (0 + offsets_taken demo_batches) lso
                    (concat (im_bytes <$> assign 0 demo_batches) ++ more)), b'').
Proof.
  refine (produce_then_fetch demo_env demo_env "alice" 1 1000 "orders" 0 demo_batches demo_broker 0 1700 0
    after_produce 4096 _ _ _ _ _ _ _ _ _ _ _ _).
  - vm_compute. reflexivity.
  - apply (bool_decide_unpack _). vm_compute. exact I.
  - eexists. split; [reflexivity|]. vm_compute. reflexivity.
  - apply (bool_decide_unpack _). vm_compute. exact I.
  - apply (bool_decide_unpack _). vm_compute. exact I.
  - apply (bool_decide_unpack _). vm_compute. exact I.
  - exact wf_new.
  - apply (bool_decide_unpack _). vm_compute. exact I.
  - apply demo_cache_ok. apply (bool_decide_unpack _). vm_compute. exact I.
  - vm_compute. reflexivity.
  - vm_compute. reflexivity.
  - reflexivity.
Defined.

Definition versions_frame : bytes :=
  frame_of (mkReqHeader ApiApiVersions 0 7 None) (RqApiVersions (mkApiVersionsReq None None)).
Definition versions_reply : bytes :=
  encode_response_header 7 ++ encode_response 0 (RsApiVersions default_supported).

Lemma served_frame_decodes_witness :
  ∃ header body resp, decode_request_header versions_frame = Ok (header, body)
    ∧ response_key resp = rh_api_key header
    ∧ encode_kafka_frame versions_reply
      = encode_kafka_frame (encode_response_header (rh_correlation_id header)
                            ++ encode_response (rh_api_version header) resp)
    ∧ (response_ok (rh_api_version header) resp → ∀ rest,
         decode_reply (rh_api_key header) (rh_api_version header)
             (encode_response_header (rh_correlation_id header)
              ++ encode_response (rh_api_version header) resp ++ rest)
           = Ok ((rh_correlation_id header, seen_response (rh_api_version header) resp), rest)).
Proof.
  apply (served_frame_decodes demo_env versions_frame (Unauthenticated, sasl_broker)
    (encode_kafka_frame versions_reply) (Unauthenticated, sasl_broker)).
  vm_compute. reflexivity.
Defined.

(** ** Defects, on concrete histories *)

(** The requests of one client, one after the other; the last response. *)
Fixpoint serve (session : ConnectionAuthState) (reqs : list Request) (b : memory_broker)
    : option (Response * memory_broker) :=
  match reqs with
  | [] => None
  | [req] =>
      match dispatch demo_env req (session, b) with
      | Some (Ok resp, (_, b)) => Some (resp, b)
      | _ => None
      end
  | req :: reqs =>
      match dispatch demo_env req (session, b) with
      | Some (Ok _, (session, b)) => serve session reqs b
      | _ => None
      end
  end.
Definition last_response (reqs : list Request) (b : memory_broker) : option Response :=
  fst <$> serve (Authenticated "alice") reqs b.

(** Metadata creates topics for anyone.  A principal who is permitted nothing
    names a topic in a Metadata request: the response says that it is not
    authorized for the topic, but the topic now exists. *)
Theorem metadata_creates_without_permission :
  ∃ resp b', serve (Authenticated "mallory")
      [RqMetadata (mkMetaReq (Some ["orders"%string]) true)] locked_broker = Some (RsMetadata resp, b')
    ∧ tm_error_code <$> mr_topics resp = [E_TopicAuthorizationFailed]
    ∧ has_topic "orders" (b_cluster locked_broker) = false ∧ has_topic "orders" (b_cluster b') = true.
Proof. do 2 eexists. split; [vm_compute; reflexivity|]. split_and!; vm_compute; reflexivity. Qed.

(** Retries are stored twice.  A producer that sends the same batch (producer id,
    epoch and sequence number) again, as it does when an acknowledgement is
    lost, is given new offsets: the handler never consults the producer table. *)
Theorem produce_stores_retries :
  let batch := im_bytes (mkImage (put_64 0) (put_32 0) 0
    (put_32 1 ++ put_64 0 ++ put_64 0 ++ put_64 1000 ++ put_16 0 ++ put_32 0 ++ put_32 2) []) in
  let send := RqProduce (produce_one (-1) 1000 "orders" 0 batch) in
  last_response [send] demo_broker = Some (RsProduce (produced_one "orders" 0 0 1700 0))
  ∧ last_response [send; send] demo_broker = Some (RsProduce (produced_one "orders" 0 2 1701 0)).
Proof. split; vm_compute; reflexivity. Qed.

(** One transaction of producer 1000 with one batch, then its end. *)
Definition txn (batch : bytes) (committed : bool) : list Request :=
  [RqAddPartitionsToTxn (mkAddPartsReq "tx" 1000 0 [mkAPT "orders" [0]]);
   RqProduce (produce_one (-1) 1000 "orders" 0 batch);
   RqEndTxn (mkEndTxnReq "tx" 1000 0 committed)].
Definition txn_init : Request := RqInitProducerId (mkInitPidReq (Some "tx"%string) 1000 (-1) (-1)).
Definition read_committed : Request := RqFetch (fetch_one 1 "orders" 0 0 4096).

(** Committed transactions stay open.  The producer id of a batch is in its bytes
    43 to 50 (the record-batch codec and the control batches put it there), the
    partition and the fetch handler read bytes 39 to 46: the transaction of
    producer 1000 is filed under another id, its commit marker closes nothing,
    the last stable offset stays at its first record, and a consumer that reads
    committed records never sees it or anything after it. *)
Theorem committed_transaction_stays_open :
  from_be (take 8 (drop 43 demo_txn_batch)) = 1000 ∧ from_be (take 8 (drop 39 demo_txn_batch)) = 0
  ∧ last_response (txn_init :: txn demo_txn_batch true ++ [read_committed]) demo_broker
    = Some (RsFetch (fetched_one "orders" 0 3 0 [])).
Proof. split_and!; vm_compute; reflexivity. Qed.

(** The same batch with the producer id where the broker looks for it. *)
Definition misplaced_batch : bytes :=
  im_bytes (mkImage (put_64 0) (put_32 0) 0x10
    (put_32 1 ++ put_64 0 ++ put_32 0 ++ put_64 1000 ++ put_32 0 ++ put_16 0 ++ put_32 0 ++ put_32 2) []).

(** Committed records disappear.  Even when the producer id is found, a producer
    that aborts a transaction and then commits another one loses both: a
    consumer that reads committed records is shown neither, though the last
    stable offset has passed both. *)
Theorem read_committed_hides_committed :
  last_response (txn_init :: txn misplaced_batch true ++ [read_committed]) demo_broker
    = Some (RsFetch (fetched_one "orders" 0 3 3 misplaced_batch))
  ∧ last_response (txn_init :: txn misplaced_batch false ++ txn misplaced_batch true ++ [read_committed]) demo_broker
    = Some (RsFetch (fetched_one "orders" 0 6 6 [])).
Proof. split; vm_compute; reflexivity. Qed.

(** A request that only validates accepts what the real one rejects. *)
Theorem validate_only_accepts_too_many_partitions :
  let create validate_only :=
    RqCreateTopics (mkCreateTopicsReq [mkCreatable "orders" 20000 1 [] []] 1000 validate_only) in
  last_response [create true] demo_broker
    = Some (RsCreateTopics (mkCreateTopicsResp 0 [mkCTR "orders" E_None None]))
  ∧ last_response [create false] demo_broker
    = Some (RsCreateTopics (mkCreateTopicsResp 0 [mkCTR "orders" E_InvalidPartitions
        (Some "Number of partitions must be positive"%string)])).
Proof. split; vm_compute; reflexivity. Qed.
