(* ===== verification/BrokerLive.v ===== *)
(** * Which requests are answered

    Handlers and the connection loop of
    [crates/oxidemq-broker/src/handler.rs] that always return: every request
    but those whose record batches the batch scanner cannot get past. *)

From Stdlib Require Import Strings.Byte.
From stdpp Require Import base numbers list gmap strings.
From S2P Require Import Prelude Bytes Text CoreTypes KafkaWire Batch MessageTypes.
From S2P Require Import Wal LogCache BlockCache ObjectStore Stream Partition.
From S2P Require Import MsgCodec MsgMeta MsgData MsgGroup MsgTxn MsgAuth MsgAdmin Messages MsgSafe.
From S2P Require Import Cluster Txn Group Acl Sasl SchemaRegistry Chaos Broker BrokerSpec.

(** ** Handlers that return *)
Section total.
Context {W St : Type}.

Definition total {A} (m : handler W St A) : Prop := ∀ b, is_Some (m b).

Lemma total_ret {A} (x : A) : total (mret x).
Proof. by eexists. Qed.
Lemma total_bind {A B} (m : handler W St A) (f : A → handler W St B) :
  total m → (∀ x, total (f x)) → total (m ≫= f).
Proof.
  intros Hm Hf b. unfold mbind, handler_bind. destruct (Hm b) as [[[x|e|] b'] ->]; [apply Hf|by eexists..].
Qed.
Lemma total_gets {A} (f : Broker W St → A) : total (gets f).
Proof. by eexists. Qed.
Lemma total_panic {A} : total (A:=A) panic.
Proof. by eexists. Qed.
Lemma total_clock env : total (clock env).
Proof. by eexists. Qed.
Lemma total_allowed p rt name op : total (allowed p rt name op).
Proof. by eexists. Qed.
Lemma total_on_cluster {A} (f : ClusterState → A * ClusterState) : total (on_cluster f).
Proof. intros b. unfold on_cluster. destruct (f _). by eexists. Qed.
Lemma total_on_groups {A} (f : GroupCoordinator → A * GroupCoordinator) : total (on_groups f).
Proof. intros b. unfold on_groups. destruct (f _). by eexists. Qed.
Lemma total_on_txns {A} (f : TransactionCoordinator → A * TransactionCoordinator) : total (on_txns f).
Proof. intros b. unfold on_txns. destruct (f _). by eexists. Qed.
Lemma total_on_acl {A} (f : AclAuthorizer → A * AclAuthorizer) : total (on_acl f).
Proof. intros b. unfold on_acl. destruct (f _). by eexists. Qed.
Lemma total_code {A B} (r : res KafkaErrorCode A) (ok : A → B) err : total (code_or r ok err).
Proof. destruct r; by eexists. Qed.
Lemma total_each {A B} (f : A → handler W St B) l : (∀ x, x ∈ l → total (f x)) → total (traverse f l).
Proof.
  intros Hf. induction l as [|x l IH]; [apply total_ret|]. cbn [traverse].
  apply total_bind; [apply Hf; set_solver|]. intros y. apply total_bind; [apply IH; set_solver|].
  intros ys. apply total_ret.
Qed.
End total.

Create HintDb total.
#[export] Hint Resolve total_ret total_gets total_panic total_clock total_allowed total_on_cluster total_on_groups
  total_on_txns total_on_acl total_code : total.

(** One step of a handler. *)
Ltac head t := lazymatch t with ?f _ => head f | _ => t end.
Ltac total_step :=
  lazymatch goal with
  | |- total (mbind _ _) => apply total_bind; [|intros ?; cbv beta]
  | |- total (if ?c then _ else _) => destruct c
  | |- total (match ?o with Some _ => _ | None => _ end) => destruct o eqn:?
  | |- total (match ?r with Ok _ => _ | Err _ => _ | Panic => _ end) => destruct r
  | |- total (match ?x with (_, _) => _ end) => destruct x
  | |- total (traverse _ _) => apply total_each; intros ? ?; cbv beta
  | |- total ?m => first [solve [eauto with total] | let h := head m in unfold h; cbv beta zeta]
  end.
Ltac total := repeat total_step.

Section handlers.
Context `{Allocator} `{HO : HashOrder} `{CompressionLib} `{ScramCrypto} `{SerdeJson}.
Context {W St : Type} `{!WalEngine W, !ObjectStorage St}.
Implicit Types b : Broker W St.

Lemma total_append_to now tp recs : total (append_to (W:=W) (St:=St) now tp recs).
Proof.
  intros b. unfold append_to. destruct (get_or_create_partition _ _). destruct (append_records _ _ _ _) as [[? ?] ?].
  by eexists.
Qed.
Lemma total_read_from part off n : total (read_from (W:=W) (St:=St) part off n).
Proof. intros b. unfold read_from. destruct (read_records _ _ _ _). by eexists. Qed.
Lemma total_chaos t : total (check_chaos (W:=W) (St:=St) t).
Proof. intros b. unfold check_chaos. destruct (check_fault _ _). by eexists. Qed.
Lemma total_end_transaction now m : total (end_transaction (W:=W) (St:=St) now m).
Proof. intros b. unfold end_transaction. destruct (end_txn _ _ _ _ _ _ _ _) as [[[? ?] ?] ?]. by eexists. Qed.
Lemma total_delete_from tp off : total (delete_from (W:=W) (St:=St) tp off).
Proof. intros b. unfold delete_from. destruct (delete_records _ _ _ _) as [[? ?] ?]. by eexists. Qed.
Lemma total_ensure tp : total (ensure_partition (W:=W) (St:=St) tp).
Proof. apply total_on_cluster. Qed.
End handlers.
#[export] Hint Resolve total_append_to total_read_from total_chaos total_end_transaction total_delete_from total_ensure : total.

Section requests.
Context `{Allocator} `{HO : HashOrder} `{CompressionLib} `{ScramCrypto} `{SerdeJson}.
Context {W St : Type} `{!WalEngine W, !ObjectStorage St}.
Implicit Types b : Broker W St.

(** The scanner gets through the batches the request makes the broker read. *)
Definition scannable (env : Env) (req : Request) : Prop :=
  match req with
  | RqProduce m => ∀ t p, t ∈ pq_topic_data m → p ∈ tpd_partitions t → decompress_record_batch (ppd_records p) ≠ None
  | RqFetch _ => env_fetch_compression env = None
  | _ => True
  end.

Lemma total_produce env p m : scannable env (RqProduce m) → total (W:=W) (St:=St) (api_produce env p m).
Proof.
  intros Hs. total. by edestruct Hs.
Qed.

Lemma total_fetch env p m : scannable env (RqFetch m) → total (W:=W) (St:=St) (api_fetch env p m).
Proof. intros Hs. cbn in Hs. total; congruence. Qed.

Lemma keep_returns {A} session (m : handler W St A) (f : A → Response) b :
  total m → is_Some (keep session m f b).
Proof.
  intros Hm. unfold keep. assert (total (x ← m; mret (f x))) as Ht by (apply total_bind; [done|]; intros; apply total_ret).
  destruct (Ht b) as [[r b'] ->]. by eexists.
Qed.

Lemma dispatch_returns env req session b : scannable env req → is_Some (dispatch env req (session, b)).
Proof.
  intros Hs. destruct req; cbn [dispatch]; try (apply keep_returns; first [by apply total_produce|by apply total_fetch|total]).
  - destruct (sasl_handshake _ _ _). by eexists.
  - by eexists.
  - destruct (sasl_authenticate _ _ _ _ _) as [[? ?]| |]; by eexists.
Qed.

(** ** The connection *)

(** The complete length-prefixed frames of what the client sends; each takes at
    least the four bytes of its length. *)
Fixpoint client_frames (fuel : nat) (incoming : bytes) : list bytes :=
  match fuel with
  | O => []
  | S fuel =>
      if decide (zlen incoming < 4) then [] else
      let n := u64 (i32 (from_be (take 4 incoming))) in
      if decide (zlen (drop 4 incoming) < n) then [] else
      take (Z.to_nat n) (drop 4 incoming) :: client_frames fuel (drop (Z.to_nat n) (drop 4 incoming))
  end.

Definition frame_scannable (env : nat → Env) (frame : bytes) : Prop :=
  ∀ n header body req rest, decode_request_header frame = Ok (header, body) →
    decode_request (rh_api_key header) (rh_api_version header) body = Ok (req, rest) → scannable (env n) req.

Lemma frame_returns env n frame st : frame_scannable env frame → is_Some (handle_connection_frame (env n) frame st).
Proof.
  intros Hs. destruct st as [session b]. unfold handle_connection_frame.
  destruct (decode_request_header frame) as [[h body]| |] eqn:Eh; [|by eexists..].
  assert (is_Some (handle_connection_request (env n) h body (session, b))) as [[[| |] ?] ->]; [|by eexists..].
  unfold handle_connection_request. case_match; [by eexists|].
  destruct (decode_request _ _ body) as [[req rest]| |] eqn:Er; [|by eexists..].
  destruct (dispatch_returns (env n) req session b (Hs n h body req rest Eh Er)) as [[[| |] ?] ->]; by eexists.
Qed.

Lemma connection_loop env k round incoming sent st fuel fuel' :
  Forall (frame_scannable env) (client_frames k incoming) →
  (length incoming ≤ k)%nat → (length incoming < fuel)%nat → (length incoming < fuel')%nat →
  is_Some (process_connection fuel env round incoming sent st)
  ∧ process_connection fuel env round incoming sent st = process_connection fuel' env round incoming sent st.
Proof.
  revert fuel fuel' round incoming sent st.
  induction k as [|k IH]; intros [|fuel] [|fuel'] round incoming sent st Hs Hk Hf Hf'; try lia.
  { destruct incoming; cbn in Hk; [by eauto|lia]. }
  cbn [process_connection]. case_decide as H4; [by eauto|].
  set (n := u64 (i32 (from_be (take 4 incoming)))). case_decide as Hn; [by eauto|]. case_decide as Hl; [by eauto|].
  cbn [client_frames] in Hs. fold n in Hs. rewrite decide_False, decide_False in Hs by lia.
  apply Forall_cons in Hs as [Hfr Hs].
  destruct (frame_returns env round (take (Z.to_nat n) (drop 4 incoming)) st Hfr) as [[[out| |] st1] ->];
    [|by eauto..].
  destruct (IH fuel fuel' (S round) _ (sent ++ out) st1 Hs) as [? ?].
  1-3: rewrite !length_drop; unfold zlen in H4; lia.
  destruct st1.1; by eauto.
Qed.

(** C23: Every connection is served to its end.  Whatever a client sends, if the
    batch scanner gets through the records of its Produce requests (and fetched
    records are not recompressed), [process_connection] returns: the loop needs
    at most one round per byte received and no request keeps the handler in a
    loop, so the response, the error or the end of the connection is determined
    as soon as the fuel exceeds the number of bytes. *)
Theorem connection_terminates env incoming b fuel fuel' :
  Forall (frame_scannable env) (client_frames (length incoming) incoming) →
  (length incoming < fuel)%nat → (length incoming < fuel')%nat →
  (∃ out, process_connection fuel env 0 incoming [] (Unauthenticated, b) = Some out
        ∧ process_connection fuel' env 0 incoming [] (Unauthenticated, b) = Some out).
Proof.
  intros Hs Hf Hf'.
  destruct (connection_loop env (length incoming) 0 incoming [] (Unauthenticated, b) fuel fuel' Hs) as [[out Ho] He];
    [lia..|]. exists out. by rewrite <- He.
Qed.
End requests.

(** ** Witness *)
Import MemoryWal MemoryStore.
#[local] Existing Instances roomy stored_lib toy_crypto.

(** A client that asks for the versions, then for metadata. *)
Definition two_requests : bytes := encode_kafka_frame versions_frame ++ encode_kafka_frame metadata_frame.

Lemma connection_terminates_witness :
  ∃ out, process_connection 100 (λ _, demo_env) 0 two_requests [] (Unauthenticated, sasl_broker) = Some out
       ∧ process_connection 101 (λ _, demo_env) 0 two_requests [] (Unauthenticated, sasl_broker) = Some out.
Proof.
  refine (connection_terminates (λ _, demo_env) two_requests sasl_broker 100 101 _ _ _).
  - assert (client_frames (length two_requests) two_requests = [versions_frame; metadata_frame]) as ->
      by (vm_compute; reflexivity).
    repeat constructor; intros n header body req rest Hh Hr.
    all: vm_compute in Hh; injection Hh as <- <-; vm_compute in Hr; injection Hr as <- <-; exact I.
  - vm_compute. lia.
  - vm_compute. lia.
Defined.

(** ** A request that is never answered *)

(** One Produce request whose batch has length field -12 keeps the broker in the
    scan of that batch, whoever sends it and whatever the broker holds, as long
    as the sender may write to the topic. *)
Theorem produce_can_hang :
  dispatch demo_env (RqProduce (produce_one 1 1000 "orders" 0 stuck_batch)) (Authenticated "alice", demo_broker) = None.
Proof. vm_compute. reflexivity. Qed.
