(* ===== verification/System.v ===== *)
(** * The running server

    The server of [crates/oxidemq-server/src/main.rs] as a whole: the engine,
    the connections with their sessions, and the two HTTP servers, which share
    the engine's tables.  A step is one frame of one connection or one HTTP
    request, executed as a whole; the steps of different clients follow one
    another in any order.  The theorems are about every state that is reached in
    this way.  The server runs its requests on concurrent tasks, and a handler
    takes and releases several locks: what may happen between the locked sections
    of two requests is the subject of [Concurrent] (appends), [GroupCommit] (the
    WAL), [StartOffset] and [TopicThreads] (the partition table). *)

From Stdlib Require Import Strings.Byte.
From stdpp Require Import base numbers list strings sets gmap.
From S2P Require Import Prelude Bytes Text CoreTypes KafkaWire Batch MessageTypes.
From S2P Require Import Wal LogCache BlockCache ObjectStore Stream Partition.
From S2P Require Import MsgCodec MsgMeta MsgData MsgGroup MsgTxn MsgAuth MsgAdmin Messages.
From S2P Require Import Cluster Txn Group Acl State Sasl SchemaRegistry Chaos Http Broker Server.
From S2P Require Import MsgSafe BrokerSpec BrokerLive.

(** ** What a request does to the tables *)
Section tables.
Context {W St : Type}.
Implicit Types b : Broker W St.

(** The well-formedness of the broker's tables. *)
Record tables_ok b : Prop := {
  tk_cluster : cluster_ok (b_cluster b);
  tk_groups : groups_ok (b_groups b);
  tk_registry : reg_ok (b_registry b) }.

Definition next_id b : Z := cs_next_stream_id (b_cluster b).

(** The handler keeps the tables well-formed, takes at most [n] stream ids, and
    leaves the schema registry and the user table alone. *)
Definition keeps {A} (n : Z) (m : handler W St A) : Prop := ∀ b r b',
  tables_ok b → next_id b + n < 2 ^ 64 → m b = Some (r, b') →
  tables_ok b' ∧ next_id b' ≤ next_id b + n ∧ b_registry b' = b_registry b ∧ b_auth b' = b_auth b.

Lemma keeps_weaken {A} n n' (m : handler W St A) : keeps n m → n ≤ n' → keeps n' m.
Proof. intros Hm Hle b r b' Hok Hn E. destruct (Hm b r b' Hok ltac:(lia) E) as (? & ? & ? & ?). split_and!; done || lia. Qed.

Lemma keeps_same {A} (m : handler W St A) :
  (∀ b r b', m b = Some (r, b') → b_cluster b' = b_cluster b ∧ b_groups b' = b_groups b
     ∧ b_registry b' = b_registry b ∧ b_auth b' = b_auth b) → keeps 0 m.
Proof.
  intros Hm b r b' [H1 H2 H3] Hn E. destruct (Hm b r b' E) as (E1 & E2 & E3 & E4). unfold next_id.
  split_and!; [split; by rewrite ?E1, ?E2, ?E3|rewrite E1; lia|done..].
Qed.

Lemma keeps_ret {A} (x : A) : keeps 0 (mret x).
Proof. apply keeps_same. by intros b r b' [= <- <-]. Qed.
Lemma keeps_panic {A} : keeps (A:=A) 0 panic.
Proof. apply keeps_same. by intros b r b' [= <- <-]. Qed.
Lemma keeps_diverge {A} : keeps (A:=A) 0 (λ _, None).
Proof. by apply keeps_same. Qed.
Lemma keeps_gets {A} (f : Broker W St → A) : keeps 0 (gets f).
Proof. apply keeps_same. by intros b r b' [= <- <-]. Qed.
Lemma keeps_clock env : keeps 0 (clock env).
Proof. apply keeps_same. by intros b r b' [= <- <-]. Qed.
Lemma keeps_on_txns {A} (f : TransactionCoordinator → A * TransactionCoordinator) : keeps 0 (on_txns f).
Proof. apply keeps_same. intros b r b'. unfold on_txns. destruct (f _). by intros [= <- <-]. Qed.
Lemma keeps_on_acl {A} (f : AclAuthorizer → A * AclAuthorizer) : keeps 0 (on_acl f).
Proof. apply keeps_same. intros b r b'. unfold on_acl. destruct (f _). by intros [= <- <-]. Qed.
Lemma keeps_code {A B} (r : res KafkaErrorCode A) (ok : A → B) err : keeps 0 (code_or r ok err).
Proof. destruct r; [apply keeps_ret..|apply keeps_panic]. Qed.

Lemma keeps_bind {A B} n1 n2 (m : handler W St A) (f : A → handler W St B) :
  0 ≤ n1 → 0 ≤ n2 → keeps n1 m → (∀ x, keeps n2 (f x)) → keeps (n1 + n2) (m ≫= f).
Proof.
  intros H1 H2 Hm Hf b r b' Hok Hn. unfold mbind, handler_bind.
  destruct (m b) as [[[x|e|] b1]|] eqn:E; [| | |done].
  - destruct (Hm b _ b1 Hok ltac:(lia) E) as (Hok1 & Hn1 & R1 & A1). intros E2.
    destruct (Hf x b1 r b' Hok1 ltac:(lia) E2) as (? & ? & R2 & A2). split_and!; [done|lia|congruence..].
  - intros [= <- <-]. destruct (Hm b _ b1 Hok ltac:(lia) E) as (? & ? & ? & ?). split_and!; done || lia.
  - intros [= <- <-]. destruct (Hm b _ b1 Hok ltac:(lia) E) as (? & ? & ? & ?). split_and!; done || lia.
Qed.

(** The sum of the costs of a loop's rounds. *)
Definition total_cost {A} (cost : A → Z) (l : list A) : Z := foldr (λ x n, cost x + n) 0 l.

Lemma total_cost_nonneg {A} (cost : A → Z) l : (∀ x, 0 ≤ cost x) → 0 ≤ total_cost cost l.
Proof. intros Hc. unfold total_cost. induction l as [|x l IH]; [done|]. cbn. specialize (Hc x). lia. Qed.

Lemma keeps_each {A B} (cost : A → Z) (f : A → handler W St B) l :
  (∀ x, 0 ≤ cost x) → (∀ x, keeps (cost x) (f x)) → keeps (total_cost cost l) (traverse f l).
Proof.
  intros Hc Hf. induction l as [|x l IH]; [apply keeps_ret|]. cbn [traverse total_cost foldr].
  pose proof (total_cost_nonneg cost l Hc). fold (total_cost cost l).
  eapply keeps_bind; [done|done|apply Hf|]. intros y. replace (total_cost cost l) with (total_cost cost l + 0) by lia.
  eapply keeps_bind; [done|done|apply IH|]. intros ys. apply keeps_ret.
Qed.

Lemma keeps_each0 {A B} (f : A → handler W St B) l : (∀ x, keeps 0 (f x)) → keeps 0 (traverse f l).
Proof.
  intros Hf. eapply keeps_weaken; [by apply (keeps_each (λ _, 0))|]. unfold total_cost; clear Hf; induction l; cbn in *; lia.
Qed.

(** Steps of the cluster and of the groups. *)
Lemma keeps_on_cluster {A} n (f : ClusterState → A * ClusterState) :
  (∀ c, cluster_ok c → cs_next_stream_id c + n < 2 ^ 64 →
     cluster_ok (f c).2 ∧ cs_next_stream_id (f c).2 ≤ cs_next_stream_id c + n) → keeps n (on_cluster f).
Proof.
  intros Hf b r b' [H1 H2 H3] Hn. unfold on_cluster. destruct (f (b_cluster b)) as [x c] eqn:E.
  intros [= <- <-]. destruct (Hf _ H1 Hn) as [Hc Hle]. rewrite E in Hc, Hle. cbn in Hc, Hle.
  split_and!; [by split|done..].
Qed.

Lemma keeps_on_groups {A} (f : GroupCoordinator → A * GroupCoordinator) :
  (∀ g, groups_ok g → groups_ok (f g).2) → keeps 0 (on_groups f).
Proof.
  intros Hf b r b' [H1 H2 H3] Hn. unfold on_groups. destruct (f (b_groups b)) as [x g] eqn:E.
  intros [= <- <-]. specialize (Hf _ H2). rewrite E in Hf. split_and!; [by split|unfold next_id; cbn; lia|done..].
Qed.
End tables.

Create HintDb keeps.
#[export] Hint Resolve keeps_ret keeps_panic keeps_diverge keeps_gets keeps_clock keeps_on_txns keeps_on_acl keeps_code : keeps.

(** One step of a handler that creates nothing. *)
Ltac keeps_step :=
  lazymatch goal with
  | |- keeps 0 (mbind _ _) => apply (keeps_bind 0 0); [done|done| |intros ?; cbv beta]
  | |- keeps 0 (if ?c then _ else _) => destruct c
  | |- keeps 0 (match ?o with Some _ => _ | None => _ end) => destruct o
  | |- keeps 0 (match ?r with Ok _ => _ | Err _ => _ | Panic => _ end) => destruct r
  | |- keeps 0 (match ?x with (_, _) => _ end) => destruct x
  | |- keeps 0 (traverse _ _) => apply keeps_each0; intros ?; cbv beta
  | |- keeps 0 ?m => first [solve [eauto with keeps] | let h := head m in unfold h; cbv beta zeta]
  end.
Ltac keeps := repeat keeps_step.

Section handlers.
Context `{Allocator} `{HO : HashOrder} `{CompressionLib} `{ScramCrypto}.
Context {W St : Type} `{!WalEngine W, !ObjectStorage St}.
Abbreviation keeps' n m := (keeps (W:=W) (St:=St) n m).

Lemma keeps_allowed p rt name op : keeps' 0 (allowed p rt name op).
Proof. apply keeps_gets. Qed.
Lemma keeps_chaos t : keeps' 0 (check_chaos t).
Proof. apply keeps_same. intros b r b'. unfold check_chaos. destruct (check_fault _ _). by intros [= <- <-]. Qed.
Lemma keeps_read_from part off n : keeps' 0 (read_from part off n).
Proof. apply keeps_same. intros b r b'. unfold read_from. destruct (read_records _ _ _ _). by intros [= <- <-]. Qed.

(** The cluster's part of one operation of Cluster.v. *)
Lemma cop_run_cluster op c (w : World W St) : cluster_ok c → cs_next_stream_id c + creates op < 2 ^ 64 →
  cluster_ok (cop_run (c, w) op).1 ∧ cs_next_stream_id (cop_run (c, w) op).1 ≤ cs_next_stream_id c + creates op.
Proof. apply cop_run_ok. Qed.

Lemma keeps_ensure tp : keeps' 1 (ensure_partition tp).
Proof. apply keeps_on_cluster. intros c Hc Hn. by destruct (get_or_create_ok tp c Hc Hn) as (? & ? & _). Qed.

Lemma keeps_append_to now tp recs : keeps' 1 (append_to now tp recs).
Proof.
  intros b r b' [Hc0 Hg0 Hr0] Hn. pose proof (cop_run_cluster (CAppend tp now recs) (b_cluster b) (b_world b) Hc0 Hn) as Hc.
  cbn [cop_run creates] in Hc. unfold append_to. destruct (get_or_create_partition tp (b_cluster b)) as [p c].
  destruct (append_records now recs p (b_world b)) as [[o p'] w]. intros [= <- <-]. destruct Hc as [Hc Hle].
  split_and!; [by split|done..].
Qed.

Lemma keeps_delete_from tp off : keeps' 0 (delete_from tp off).
Proof.
  intros b r b' [Hc0 Hg0 Hr0] Hn. pose proof (cop_run_cluster (CDeleteRecords tp off) (b_cluster b) (b_world b) Hc0 Hn) as Hc.
  cbn [cop_run creates] in Hc. unfold delete_from. destruct (delete_records tp off (b_cluster b) (b_world b)) as [[o c] w].
  intros [= <- <-]. destruct Hc as [Hc Hle]. split_and!; [by split|done..].
Qed.
End handlers.
#[export] Hint Resolve keeps_allowed keeps_chaos keeps_read_from keeps_delete_from : keeps.

Section requests.
Context `{Allocator} `{HO : HashOrder} `{CompressionLib} `{ScramCrypto}.
Context {W St : Type} `{!WalEngine W, !ObjectStorage St}.
Abbreviation keeps' n m := (keeps (W:=W) (St:=St) n m).
Implicit Types b : Broker W St.

(** An upper bound on the stream ids that a request takes: one for each partition
    it names or, in the end of a transaction, that the transaction holds. *)
Definition request_cost b (req : Request) : Z :=
  match req with
  | RqProduce m => total_cost (λ t, total_cost (λ _, 2) (tpd_partitions t)) (pq_topic_data m)
  | RqFetch m => total_cost (λ t, total_cost (λ _, 1) (ft_partitions t)) (fq_topics m)
  | RqListOffsets m => total_cost (λ t, total_cost (λ _, 1) (lot_partitions t)) (loq_topics m)
  | RqMetadata m => zlen (default [] (mq_topics m))
  | RqEndTxn m =>
      match transactions (b_txns b) !! etq_transactional_id m with
      | Some meta => Z.of_nat (size (tx_partitions meta))
      | None => 0
      end
  | RqCreateTopics m => total_cost (λ _, 10000) (ctq_topics m)
  | RqCreatePartitions m => total_cost (λ _, 2 ^ 31 + 10000) (cpq_topic_partitions m)
  | _ => 0
  end.

Lemma keeps_bind0 {A B} n (m : handler W St A) (f : A → handler W St B) :
  0 ≤ n → keeps 0 m → (∀ x, keeps n (f x)) → keeps n (m ≫= f).
Proof. intros Hn Hm Hf. by apply (keeps_bind 0 n). Qed.
Lemma keeps_then0 {A B} n (m : handler W St A) (f : A → handler W St B) :
  0 ≤ n → keeps n m → (∀ x, keeps 0 (f x)) → keeps n (m ≫= f).
Proof. intros Hn Hm Hf. replace n with (n + 0) by lia. by apply keeps_bind. Qed.

Lemma keeps_produce_partition env a fault topic p : keeps' 2 (produce_partition env a fault topic p).
Proof.
  unfold produce_partition. destruct (negb a); [eapply keeps_weaken; [apply keeps_ret|lia]|].
  apply (keeps_bind 1 1); [done..|apply keeps_ensure|]. intros _.
  destruct fault; [eapply keeps_weaken; [apply keeps_ret|lia]|].
  destruct (decompress_record_batch _) as [[d|e|]|]; [|eapply keeps_weaken; [by eauto with keeps|lia]..].
  apply keeps_bind0; [done|apply keeps_gets|]. intros valid.
  destruct (negb valid); [eapply keeps_weaken; [apply keeps_ret|lia]|].
  apply keeps_bind0; [done|apply keeps_clock|]. intros now.
  apply keeps_then0; [done|apply keeps_append_to|]. intros [r partition]. keeps.
Qed.

Lemma keeps_nonneg_each {A B} k (f : A → handler W St B) l :
  0 ≤ k → (∀ x, keeps k (f x)) → keeps (total_cost (λ _, k) l) (traverse f l).
Proof. intros Hk Hf. by apply (keeps_each (λ _, k)). Qed.

Lemma const_cost_nonneg {A} k (l : list A) : 0 ≤ k → 0 ≤ total_cost (λ _, k) l.
Proof. intros Hk. by apply total_cost_nonneg. Qed.
#[local] Hint Resolve const_cost_nonneg total_cost_nonneg : core.
#[local] Hint Extern 1 (0 ≤ _) => lia : core.

Lemma keeps_produce env p m : keeps' (total_cost (λ t, total_cost (λ _, 2) (tpd_partitions t)) (pq_topic_data m))
  (api_produce env p m).
Proof.
  unfold api_produce. apply keeps_bind0; [auto|apply keeps_chaos|]. intros fault.
  apply keeps_then0; [auto| |intros; apply keeps_ret].
  apply (keeps_each (λ t, total_cost (λ _, 2) (tpd_partitions t))); [auto|]. intros t.
  apply keeps_bind0; [auto|apply keeps_allowed|]. intros a. apply keeps_then0; [auto| |intros; apply keeps_ret].
  apply keeps_nonneg_each; [done|]. intros x. apply keeps_produce_partition.
Qed.

Lemma keeps_fetch_partition env a fault iso topic p : keeps' 1 (fetch_partition env a fault iso topic p).
Proof.
  unfold fetch_partition. destruct (negb a); [eapply keeps_weaken; [apply keeps_ret|lia]|].
  apply keeps_then0; [done|apply keeps_ensure|]. intros partition. keeps.
Qed.

Lemma keeps_fetch env p m : keeps' (total_cost (λ t, total_cost (λ _, 1) (ft_partitions t)) (fq_topics m))
  (api_fetch env p m).
Proof.
  unfold api_fetch. apply keeps_bind0; [auto|apply keeps_chaos|]. intros fault.
  apply keeps_then0; [auto| |intros; apply keeps_ret].
  apply (keeps_each (λ t, total_cost (λ _, 1) (ft_partitions t))); [auto|]. intros t.
  apply keeps_bind0; [auto|apply keeps_allowed|]. intros a. apply keeps_then0; [auto| |intros; apply keeps_ret].
  apply keeps_nonneg_each; [done|]. intros x. apply keeps_fetch_partition.
Qed.

Lemma keeps_list_offsets p m : keeps' (total_cost (λ t, total_cost (λ _, 1) (lot_partitions t)) (loq_topics m))
  (api_list_offsets p m).
Proof.
  unfold api_list_offsets. apply keeps_then0; [auto| |intros; apply keeps_ret].
  apply (keeps_each (λ t, total_cost (λ _, 1) (lot_partitions t))); [auto|]. intros t.
  apply keeps_bind0; [auto|apply keeps_allowed|]. intros a. apply keeps_then0; [auto| |intros; apply keeps_ret].
  apply keeps_nonneg_each; [done|]. intros x. unfold list_offset.
  destruct (negb a); [eapply keeps_weaken; [apply keeps_ret|lia]|].
  apply keeps_then0; [done|apply keeps_ensure|]. intros partition. keeps.
Qed.

(** A cluster operation that is one of Cluster.v's. *)
Lemma keeps_cop {A} op (f : ClusterState → A * ClusterState) :
  (∀ c (w : World W St), (cop_run (c, w) op).1 = (f c).2) → keeps' (creates op) (on_cluster f).
Proof.
  intros Hf b r b' [Hc0 Hg0 Hr0] Hn. pose proof (cop_run_cluster op _ (b_world b) Hc0 Hn) as [Hc Hle].
  rewrite Hf in Hc, Hle. unfold on_cluster. destruct (f (b_cluster b)) as [x c]. intros [= <- <-].
  split_and!; [by split|done..].
Qed.

Lemma keeps_metadata p m : keeps' (zlen (default [] (mq_topics m))) (api_metadata p m).
Proof.
  unfold api_metadata. pose proof (zlen_nonneg (default [] (mq_topics m))).
  apply keeps_then0; [done| |intros resp; keeps].
  by apply (keeps_cop (CMetadata (mq_topics m) (mq_allow_auto_topic_creation m))).
Qed.

Lemma keeps_create_topics p m : keeps' (total_cost (λ _, 10000) (ctq_topics m)) (api_create_topics p m).
Proof.
  unfold api_create_topics. apply keeps_then0; [auto| |intros; apply keeps_ret].
  apply keeps_nonneg_each; [done|]. intros t. unfold create_one_topic.
  apply keeps_bind0; [done|unfold allowed_or_cluster; keeps|]. intros a.
  destruct (negb a); [eapply keeps_weaken; [apply keeps_ret|lia]|].
  destruct (ctq_validate_only m); [apply (keeps_weaken 0); [by keeps|lia]|].
  apply keeps_then0; [done| |intros; apply keeps_code]. by eapply (keeps_cop (CCreateTopic _ _ _ _)).
Qed.

Lemma keeps_delete_topic name : keeps' 0 (on_cluster (delete_topic name)).
Proof. by apply (keeps_cop (CDeleteTopic name)). Qed.
Lemma keeps_update_configs name l : keeps' 0 (on_cluster (update_topic_configs name l)).
Proof. by apply (keeps_cop (CUpdateConfigs name l)). Qed.
Lemma keeps_commit gid tp o : keeps' 0 (on_groups (λ g, (tt, commit_offset gid tp o g))).
Proof. apply keeps_on_groups. intros g. apply commit_ok. Qed.
Lemma keeps_leave gid mid : keeps' 0 (on_groups (handle_leave_group gid mid)).
Proof. apply keeps_on_groups. intros g. apply leave_ok. Qed.
Lemma keeps_delete_groups ids : keeps' 0 (on_groups (delete_groups ids)).
Proof.
  apply keeps_on_groups. induction ids as [|id ids IH]; intros g Hg; [done|]. cbn [delete_groups].
  pose proof (delete_group_ok id g Hg) as Hg1. destruct (delete_group id g) as [r g1].
  specialize (IH g1 Hg1). by destruct (delete_groups ids g1).
Qed.
#[local] Hint Resolve keeps_delete_topic keeps_update_configs keeps_commit keeps_leave keeps_delete_groups : keeps.

Lemma keeps_create_partitions p m :
  keeps' (total_cost (λ _, 2 ^ 31 + 10000) (cpq_topic_partitions m)) (api_create_partitions p m).
Proof.
  unfold api_create_partitions. apply keeps_then0; [auto| |intros; apply keeps_ret].
  apply keeps_nonneg_each; [done|]. intros t.
  apply keeps_bind0; [done|unfold allowed_or_cluster; keeps|]. intros a.
  destruct (negb a); [eapply keeps_weaken; [apply keeps_ret|lia]|].
  apply keeps_then0; [done| |intros; apply keeps_code]. by eapply (keeps_cop (CCreatePartitions _ _ _ _)).
Qed.

(** The markers of a transaction. *)
Lemma write_marker_ok now pid epoch committed tp c (w : World W St) :
  cluster_ok c → cs_next_stream_id c + 1 < 2 ^ 64 →
  let '(_, c', _) := write_marker now pid epoch committed tp c w in
  cluster_ok c' ∧ cs_next_stream_id c' ≤ cs_next_stream_id c + 1.
Proof.
  intros Hc Hn. destruct (get_or_create_ok tp c Hc Hn) as (Hc1 & Hn1 & Hl). unfold write_marker.
  destruct (get_or_create_partition tp c) as [p c1]. cbn [fst snd] in *.
  destruct (encode_control_batch _ _ _ _ _) as [ctrl| |]; [|done..].
  pose proof (append_records_frame now ctrl p w) as [Hs Ht].
  assert (∀ p', sid p' = sid p → topic_partition p' = topic_partition p →
    cluster_ok (put_partition tp p' c1) ∧ cs_next_stream_id (put_partition tp p' c1) ≤ cs_next_stream_id c + 1) as Hput.
  { intros p' ? ?. split; [by eapply put_partition_ok|done]. }
  destruct (append_records now ctrl p w) as [[[[bo t]|e|] p1] w1]; cbn [fst snd] in Hs, Ht; [|by apply Hput..].
  destruct committed; by apply Hput.
Qed.

Lemma write_markers_ok now pid epoch committed tps : ∀ c (w : World W St),
  cluster_ok c → cs_next_stream_id c + zlen tps < 2 ^ 64 →
  let '(_, c', _) := write_markers now pid epoch committed tps c w in
  cluster_ok c' ∧ cs_next_stream_id c' ≤ cs_next_stream_id c + zlen tps.
Proof.
  induction tps as [|tp tps IH]; intros c w Hc Hn; cbn [write_markers]; [unfold zlen; cbn; split; [done|lia]|].
  rewrite zlen_cons in *. pose proof (zlen_nonneg tps).
  pose proof (write_marker_ok now pid epoch committed tp c w Hc ltac:(lia)) as Hm.
  destruct (write_marker _ _ _ _ _ _ _) as [[[u|e|] c1] w1]; [|split; [by destruct Hm|lia]..].
  destruct Hm as [Hc1 Hn1]. specialize (IH c1 w1 Hc1 ltac:(lia)).
  destruct (write_markers _ _ _ _ _ _ _) as [[? c2] ?]. split; [by destruct IH|lia].
Qed.

(** What a step of the broker keeps. *)
Definition kept (n : Z) b b' : Prop :=
  tables_ok b' ∧ next_id b' ≤ next_id b + n ∧ b_registry b' = b_registry b ∧ b_auth b' = b_auth b.

Lemma zlen_hash_iter `{Countable K} {V} (m : gmap K V) : zlen (hash_iter m).*1 = Z.of_nat (size m).
Proof. unfold zlen. rewrite length_fmap, (Permutation_length (hash_iter_perm m)), length_map_to_list. done. Qed.

Lemma end_txn_cluster id pid epoch committed now t c (w : World W St) :
  let cost := match transactions t !! id with Some meta => Z.of_nat (size (tx_partitions meta)) | None => 0 end in
  cluster_ok c → cs_next_stream_id c + cost < 2 ^ 64 →
  let '(_, _, c', _) := end_txn id pid epoch committed now t c w in
  cluster_ok c' ∧ cs_next_stream_id c' ≤ cs_next_stream_id c + cost.
Proof.
  intros cost Hc Hn. unfold end_txn, check_producer. subst cost. destruct (transactions t !! id) as [meta|]; [|split; [done|lia]].
  repeat (case_decide; [split; [done|lia]|]).
  pose proof (write_markers_ok now pid epoch committed (hash_iter (tx_partitions meta)).*1 c w Hc) as Hw.
  rewrite zlen_hash_iter in Hw. specialize (Hw Hn).
  by destruct (write_markers _ _ _ _ _ _ _) as [[[u|e|] c1] w1].
Qed.

Lemma end_txn_kept env p m b r b' : tables_ok b → next_id b + request_cost b (RqEndTxn m) < 2 ^ 64 →
  api_end_txn env p m b = Some (r, b') → kept (request_cost b (RqEndTxn m)) b b'.
Proof.
  intros [Hc0 Hg0 Hr0] Hn. unfold api_end_txn, allowed, gets, clock, mbind, handler_bind. cbn [fst snd].
  destruct (negb _).
  { intros [= <- <-]. split_and!; [by split|unfold next_id; cbn in *; case_match; lia|done..]. }
  unfold end_transaction. cbn [b_txns bset_ticks b_cluster b_world b_registry b_groups b_acl b_auth].
  pose proof (end_txn_cluster (etq_transactional_id m) (etq_producer_id m) (etq_producer_epoch m) (etq_committed m)
    (env_now env (b_ticks b)) (b_txns b) (b_cluster b) (b_world b) Hc0 Hn) as Ht.
  destruct (end_txn _ _ _ _ _ _ _ _) as [[[out t] c] w]. destruct Ht as [Ht1 Ht2].
  destruct out as [u|e|]; intros [= <- <-]; (split_and!; [by split|done..]).
Qed.

Lemma dispatch_kept env req session b r session' b' : tables_ok b → next_id b + request_cost b req < 2 ^ 64 →
  dispatch env req (session, b) = Some (r, (session', b')) → kept (request_cost b req) b b'.
Proof.
  intros Hok Hn E.
  assert (∀ A n (m : handler W St A) (f : A → Response), keeps n m → next_id b + n < 2 ^ 64 →
    keep session m f b = Some (r, (session', b')) → 0 ≤ n → kept n b b') as Hkeep.
  { intros A n m f Hm Hn' Ek Hnn. unfold keep in Ek.
    destruct ((x ← m; mret (f x)) b) as [[o b1]|] eqn:E1; [|done]. injection Ek as <- <- <-.
    eapply (keeps_then0 n m (λ x, mret (f x)) Hnn Hm ltac:(intros; apply keeps_ret) b); done. }
  assert (∀ A (m : handler W St A) (f : A → Response), keeps 0 m → keep session m f b = Some (r, (session', b')) →
    next_id b + 0 < 2 ^ 64 → kept 0 b b') as Hkeep0 by (intros; by eapply Hkeep).
  assert (kept 0 b b) as Hsame by (split_and!; [done|lia|done..]).
  destruct req; cbn [dispatch request_cost] in *;
    try (eapply Hkeep0; [|exact E|done]; by keeps);
    try (eapply Hkeep; [| |exact E|]; [|done|]; by auto using keeps_produce, keeps_fetch, keeps_list_offsets,
           keeps_metadata, keeps_create_topics, keeps_create_partitions, zlen_nonneg).
  - destruct (sasl_handshake _ _ _). by simplify_eq.
  - by simplify_eq.
  - unfold keep, mbind, handler_bind in E. destruct (api_end_txn _ _ m b) as [[o b1]|] eqn:E1; [|done].
    pose proof (end_txn_kept _ _ m b o b1 Hok Hn E1) as Hk. destruct o; injection E as <- <- <-; exact Hk.
  - destruct (sasl_authenticate _ _ _ _ _) as [[? ?]| |]; by simplify_eq.
Qed.

(** ** Frames *)
Definition frame_cost b (frame : bytes) : Z :=
  match decode_request_header frame with
  | Ok (header, body) =>
      match decode_request (rh_api_key header) (rh_api_version header) body with
      | Ok (req, _) => request_cost b req
      | _ => 0
      end
  | _ => 0
  end.

Lemma request_cost_nonneg b req : 0 ≤ request_cost b req.
Proof. destruct req; cbn [request_cost]; try lia; auto using zlen_nonneg. case_match; lia. Qed.

Lemma frame_kept env frame session b r session' b' : tables_ok b → next_id b + frame_cost b frame < 2 ^ 64 →
  handle_connection_frame env frame (session, b) = Some (r, (session', b')) → kept (frame_cost b frame) b b'.
Proof.
  intros Hok Hn. unfold handle_connection_frame, handle_connection_request. unfold frame_cost in *.
  destruct (decode_request_header frame) as [[header body]| |]; [|by intros [= <- <- <-]; split_and!; try lia..].
  assert (kept (match decode_request (rh_api_key header) (rh_api_version header) body with
                | Ok (req, _) => request_cost b req | _ => 0 end) b b) as Hsame.
  { split_and!; [done| |done..]. destruct (decode_request _ _ body) as [[req ?]| |]; [|lia..].
    pose proof (request_cost_nonneg b req). lia. }
  destruct (rejected _ _ _); [by intros [= <- <- <-]|].
  destruct (decode_request _ _ body) as [[req rest]| |]; [|by intros [= <- <- <-]..].
  destruct (dispatch env req (session, b)) as [[[resp|e|] [s1 b1]]|] eqn:E; intros [= <- <- <-]; by eapply dispatch_kept.
Qed.
End requests.

(** ** The server *)
Record Server (W St : Type) := mkServer {
  sv_broker : Broker W St;
  sv_conns : gmap nat ConnectionAuthState;
  sv_registry_enabled : bool;
  sv_start_time : Z }.
Arguments mkServer {W St}.
Arguments sv_broker {W St}.
Arguments sv_conns {W St}.
Arguments sv_registry_enabled {W St}.
Arguments sv_start_time {W St}.

(** [env] holds what the clocks and the random source answer; [now] and [mono] are
    clock readings. *)
Inductive event :=
| Accept (cid : nat)
| Frame (env : Env) (cid : nat) (frame : bytes)
| Hangup (cid : nat)
| AdminHttp (now mono : Z) (m : Method) (path : list string) (body : bytes)
| RegistryHttp (m : Method) (path : list string) (body : bytes).

Section server.
Context `{Allocator} `{HO : HashOrder} `{CompressionLib} `{ScramCrypto} `{SerdeJson} `{JsonBody}.
Context {W St : Type} `{!WalEngine W, !ObjectStorage St}.
Abbreviation server := (Server W St).
Implicit Types s : server.

Definition server_new (b : Broker W St) (opts : ServerOptions) (start_time : Z) : server :=
  mkServer b ∅ (so_enable_schema_registry opts) start_time.

Definition set_conns (m : gmap nat ConnectionAuthState) s : server :=
  mkServer (sv_broker s) m (sv_registry_enabled s) (sv_start_time s).
Definition set_broker (b : Broker W St) s : server :=
  mkServer b (sv_conns s) (sv_registry_enabled s) (sv_start_time s).

(** The tables that the HTTP servers share with the engine. *)
Definition app_state s : AppState :=
  mkApp (b_cluster (sv_broker s)) (b_groups (sv_broker s)) (b_chaos (sv_broker s)) (sv_start_time s).
Definition put_app (a : AppState) (r : SchemaRegistry) s : server :=
  set_broker (with_schema_registry r
    (bset_chaos (ap_chaos a) (bset_groups (ap_groups a) (bset_cluster (ap_cluster a) (sv_broker s))))) s.

(** [None]: the process has aborted, or a request never returns.  A connection is
    closed when its frame cannot be handled or its authentication fails. *)
Definition server_step s (e : event) : option server :=
  match e with
  | Accept cid =>
      Some (if decide (is_Some (sv_conns s !! cid)) then s
            else set_conns (<[cid := Unauthenticated]> (sv_conns s)) s)
  | Hangup cid => Some (set_conns (delete cid (sv_conns s)) s)
  | Frame env cid frame =>
      match sv_conns s !! cid with
      | None => Some s
      | Some session =>
          if decide (zlen frame = 0 ∨ zlen frame > 64 * 1024 * 1024)
          then Some (set_conns (delete cid (sv_conns s)) s) else
          match handle_connection_frame env frame (session, sv_broker s) with
          | None | Some (Panic, _) => None
          | Some (Err _, (_, b)) => Some (set_conns (delete cid (sv_conns s)) (set_broker b s))
          | Some (Ok _, (Failed, b)) => Some (set_conns (delete cid (sv_conns s)) (set_broker b s))
          | Some (Ok _, (session, b)) => Some (set_conns (<[cid := session]> (sv_conns s)) (set_broker b s))
          end
      end
  | AdminHttp now mono m path body =>
      match admin_app (sv_registry_enabled s) now mono m path body (app_state s, b_registry (sv_broker s)) with
      | (Panic, _) => None
      | (_, (a, r)) => Some (put_app a r s)
      end
  | RegistryHttp m path body =>
      if sv_registry_enabled s then
        match schema_registry_router m path body (b_registry (sv_broker s)) with
        | (Panic, _) => None
        | (_, r) => Some (set_broker (with_schema_registry r (sv_broker s)) s)
        end
      else Some s
  end.

Fixpoint server_run (es : list event) s : option server :=
  match es with
  | [] => Some s
  | e :: es => s ← server_step s e; server_run es s
  end.

(** The stream ids that an event can take, and those of a run. *)
Definition body_cost (body : bytes) : Z :=
  match snapshot_body body with inr sn => zlen (sn_partitions sn) | inl _ => 0 end.
Definition event_cost s (e : event) : Z :=
  match e with
  | Frame _ _ frame => frame_cost (sv_broker s) frame
  | AdminHttp _ _ _ _ body => body_cost body
  | _ => 0
  end.
Fixpoint run_cost (es : list event) s : Z :=
  match es with
  | [] => 0
  | e :: es => event_cost s e + match server_step s e with Some s => run_cost es s | None => 0 end
  end.

(** ** HTTP requests *)
Lemma apply_partitions_ok l c : cluster_ok c → cs_next_stream_id c + zlen l < 2 ^ 64 →
  cluster_ok (foldl apply_partition c l) ∧ cs_next_stream_id (foldl apply_partition c l) ≤ cs_next_stream_id c + zlen l.
Proof.
  revert c. induction l as [|x l IH]; intros c Hc Hn; cbn; [unfold zlen; cbn; split; [done|lia]|].
  rewrite zlen_cons in *. pose proof (zlen_nonneg l).
  destruct (get_or_create_ok (mkTP (ps_topic x) (ps_partition x)) c Hc ltac:(lia)) as (Hc1 & Hn1 & _).
  destruct (IH _ Hc1 ltac:(lia)) as [? ?]. split; [done|]. unfold apply_partition in *. lia.
Qed.

Lemma apply_groups_ok l g : groups_ok g → groups_ok (foldl apply_group g l).
Proof.
  assert (∀ gid kvs g, groups_ok g → groups_ok (foldl (apply_offset gid) g kvs)) as Ho.
  { intros gid kvs. induction kvs as [|[k v] kvs IH]; intros g0 Hg; [done|]. cbn. apply IH. unfold apply_offset.
    repeat (case_match; try done). by apply commit_ok. }
  revert g. induction l as [|x l IH]; intros g Hg; [done|]. cbn. by apply IH, Ho.
Qed.

Lemma admin_kept now mono m path body a out a' :
  cluster_ok (ap_cluster a) → groups_ok (ap_groups a) → cs_next_stream_id (ap_cluster a) + body_cost body < 2 ^ 64 →
  admin_router now mono m path body a = (out, a') →
  cluster_ok (ap_cluster a') ∧ groups_ok (ap_groups a')
  ∧ cs_next_stream_id (ap_cluster a') ≤ cs_next_stream_id (ap_cluster a) + body_cost body.
Proof.
  intros Hc Hg Hn. set (P := λ x : AppState, cluster_ok (ap_cluster x) ∧ groups_ok (ap_groups x)
    ∧ cs_next_stream_id (ap_cluster x) ≤ cs_next_stream_id (ap_cluster a) + body_cost body).
  assert (0 ≤ body_cost body) as Hbc.
  { unfold body_cost. case_match; [done|apply zlen_nonneg]. }
  assert (P a) as Ha by (split_and!; [done..|lia]).
  assert (P (reset_state_handler a).2) as Hreset.
  { pose proof (ck_next _ Hc). split_and!; cbn; [|intros id cg; cbn; by rewrite lookup_empty|lia].
    split; cbn; [done|..]; intros *; by rewrite lookup_empty. }
  assert (P (with_body (snapshot_body body) (λ sn, load_state_handler sn a) a).2) as Hload.
  { unfold body_cost in *. unfold P, body_cost. destruct (snapshot_body body) as [|sn]; [done|]. cbn [with_body].
    destruct Hreset as (Hc1 & Hg1 & _). pose proof (ck_next _ Hc). unfold load_state_handler, apply_snapshot. cbn [snd ap_cluster ap_groups].
    destruct (apply_partitions_ok (sn_partitions sn) (Cluster.reset (ap_cluster a)) Hc1) as [? ?]; [cbn; lia|].
    split_and!; [done|by apply apply_groups_ok|]. cbn [Cluster.reset cs_next_stream_id set_next_stream_id] in *. lia. }
  assert (P (with_body (advertised_body body) (λ p, update_advertised_handler p a) a).2) as Hadv.
  { destruct (advertised_body body) as [|[h p]]; [done|]. destruct Hc. cbn. unfold P. cbn [ap_cluster ap_groups].
    destruct h, p; (split_and!; [by split|done|cbn; lia]). }
  intros E. change (P a'). replace a' with (admin_router now mono m path body a).2 by (by rewrite E). clear E.
  assert (P (with_body (rule_body body) (λ rule, add_chaos_handler rule a) a).2) as Hadd
    by (by destruct (rule_body body)).
  unfold admin_router. cbv zeta. repeat (case_decide; [first [case_decide; done | by destruct m]|]). done.
Qed.

(** ** Every step keeps the invariant *)
Lemma event_cost_nonneg s e : 0 ≤ event_cost s e.
Proof.
  destruct e as [|env cid frame| |now mono m path body|]; cbn [event_cost]; [done| |done| |done].
  - unfold frame_cost. repeat case_match; try done. apply request_cost_nonneg.
  - unfold body_cost. case_match; [done|apply zlen_nonneg].
Qed.

Definition step_ok (n : Z) (b b' : Broker W St) : Prop :=
  tables_ok b' ∧ next_id b' ≤ next_id b + n ∧ next_global_id (b_registry b') ≤ next_global_id (b_registry b) + 1
  ∧ b_auth b' = b_auth b.

Lemma step_ok_registry b (a : AppState) r n : 0 ≤ n → cluster_ok (ap_cluster a) → groups_ok (ap_groups a) →
  cs_next_stream_id (ap_cluster a) ≤ next_id b + n → reg_ok r → next_global_id r ≤ next_global_id (b_registry b) + 1 →
  step_ok n b (with_schema_registry r
    (bset_chaos (ap_chaos a) (bset_groups (ap_groups a) (bset_cluster (ap_cluster a) b)))).
Proof. intros. split_and!; [by split|done..]. Qed.

Lemma endpoint_ok m e body r out r' : reg_ok r → next_global_id r < 2 ^ 31 - 1 → endpoint m e body r = (out, r') →
  reg_ok r' ∧ next_global_id r' ≤ next_global_id r + 1.
Proof.
  intros Hr Hn E. destruct (endpoint_cases _ _ _ _ _ _ E) as [->|(_ & [o ->] & _)]; [split; [done|lia]|].
  by destruct (apply_op_ok r o Hr Hn) as (? & _ & ?).
Qed.

Lemma server_step_ok s e s' : tables_ok (sv_broker s) → next_id (sv_broker s) + event_cost s e < 2 ^ 64 →
  next_global_id (b_registry (sv_broker s)) < 2 ^ 31 - 1 → server_step s e = Some s' →
  step_ok (event_cost s e) (sv_broker s) (sv_broker s').
Proof.
  intros Hok Hn Hg. pose proof (event_cost_nonneg s e) as Hcost.
  assert (step_ok (event_cost s e) (sv_broker s) (sv_broker s)) as Hsame by (split_and!; [done|lia|lia|done]).
  destruct e as [cid|env cid frame|cid|now mono m path body|m path body]; cbn [server_step].
  - intros [= <-]. by case_decide.
  - destruct (sv_conns s !! cid) as [session|]; [|by intros [= <-]]. case_decide; [by intros [= <-]|].
    destruct (handle_connection_frame env frame (session, sv_broker s)) as [[out [session' b]]|] eqn:E; [|done].
    destruct (frame_kept _ _ _ _ _ _ _ Hok Hn E) as (H1' & H2' & H3' & H4').
    assert (step_ok (frame_cost (sv_broker s) frame) (sv_broker s) b) by (split_and!; [done|done|rewrite H3'; lia|done]).
    destruct out as [o|err|]; [destruct session'| |done]; by intros [= <-].
  - by intros [= <-].
  - destruct Hok as [Hc0 Hg0 Hr0]. unfold admin_app.
    destruct (if sv_registry_enabled s then registry_routes path else None) as [e|].
    + destruct (endpoint m e body (b_registry (sv_broker s))) as [out r] eqn:E.
      destruct (endpoint_ok _ _ _ _ _ _ Hr0 Hg E). destruct out; intros [= <-]; (apply (step_ok_registry _ (app_state s)); done || (unfold next_id; cbn [app_state ap_cluster]; lia)).
    + destruct (admin_router now mono m path body (app_state s)) as [out a] eqn:E.
      destruct (admin_kept now mono m path body (app_state s) out a Hc0 Hg0 Hn E) as (? & ? & ?).
      destruct out; intros [= <-]; apply step_ok_registry; done || lia.
  - destruct (sv_registry_enabled s); [|by intros [= <-]].
    destruct Hok as [Hc0 Hg0 Hr0].
    assert (∀ r, reg_ok r ∧ next_global_id r ≤ next_global_id (b_registry (sv_broker s)) + 1 →
      step_ok 0 (sv_broker s) (with_schema_registry r (sv_broker s))) as Hput.
    { intros r []. split_and!; [by split|unfold next_id; cbn; lia|done..]. }
    unfold schema_registry_router. destruct (route path) as [e|].
    2: { intros [= <-]. apply Hput. split; [done|lia]. }
    destruct (endpoint m e body (b_registry (sv_broker s))) as [out r] eqn:E.
    pose proof (endpoint_ok _ _ _ _ _ _ Hr0 Hg E). destruct out; intros [= <-]; by apply Hput.
Qed.

Lemma run_cost_nonneg es s : 0 ≤ run_cost es s.
Proof.
  revert s. induction es as [|e es IH]; intros s; cbn; [done|]. pose proof (event_cost_nonneg s e).
  destruct (server_step s e) as [s1|]; [specialize (IH s1)|]; lia.
Qed.

Lemma server_run_ok es : ∀ s s', tables_ok (sv_broker s) → next_id (sv_broker s) + run_cost es s < 2 ^ 64 →
  next_global_id (b_registry (sv_broker s)) + zlen es < 2 ^ 31 → server_run es s = Some s' →
  tables_ok (sv_broker s') ∧ b_auth (sv_broker s') = b_auth (sv_broker s).
Proof.
  induction es as [|e es IH]; intros s s' Hok Hn Hg; cbn [server_run run_cost] in *; [by intros [= <-]|].
  rewrite zlen_cons in Hg. pose proof (zlen_nonneg es). destruct (server_step s e) as [s1|] eqn:E; [|done].
  pose proof (run_cost_nonneg es s1).
  destruct (server_step_ok s e s1 Hok ltac:(lia) ltac:(lia) E) as (Hok1 & Hn1 & Hg1 & Ha1). cbn. intros Er.
  destruct (IH s1 s' Hok1 ltac:(lia) ltac:(lia) Er) as [? ->]. done.
Qed.

(** ** Sessions *)

(** A frame that leaves a session authenticated that was not proves the
    principal's identity. *)
Lemma frame_session env frame session (b : Broker W St) r p b' : is_authenticated session = false →
  handle_connection_frame env frame (session, b) = Some (r, (Authenticated p, b')) →
  frame_proves (b_auth b) session frame.
Proof.
  intros Hs. unfold handle_connection_frame, handle_connection_request.
  destruct (decode_request_header frame) as [[header body]|e|] eqn:Eh; [|by intros [= _ -> _]..].
  destruct (rejected _ _ _); [by intros [= _ -> _]|].
  destruct (decode_request _ _ body) as [[req rest]|e|] eqn:Ed; [|by intros [= _ -> _]..].
  destruct (dispatch env req (session, b)) as [[o [s1 b1]]|] eqn:E; [|done].
  intros E'. assert (s1 = Authenticated p) as -> by (destruct o; by simplify_eq). clear E'.
  assert (∀ A (m : handler W St A) (f : A → Response), keep session m f b = Some (o, (Authenticated p, b1)) → False) as Hk.
  { intros A m f. unfold keep. destruct ((x ← m; mret (f x)) b) as [[? ?]|]; [|done]. intros [= _ -> _]. done. }
  destruct req; cbn [dispatch] in E; try (exfalso; by eapply Hk).
  - destruct (sasl_handshake (b_auth b) session m) as [resp s1] eqn:Es. simplify_eq.
    unfold sasl_handshake in Es. repeat case_match; simplify_eq; done.
  - by simplify_eq.
  - destruct (sasl_authenticate _ _ _ session m) as [[resp s1]|e|] eqn:Es; simplify_eq; [|done..].
    apply sasl_authenticate_cases in Es as [[Hp _]|[-> _]]; [|done]. by exists header, body, m, rest, p.
Qed.

Lemma server_step_session s e s' cid p : server_step s e = Some s' → sv_conns s' !! cid = Some (Authenticated p) →
  (∃ q, sv_conns s !! cid = Some (Authenticated q))
  ∨ ∃ env frame session, e = Frame env cid frame ∧ sv_conns s !! cid = Some session
      ∧ is_authenticated session = false ∧ frame_proves (b_auth (sv_broker s)) session frame.
Proof.
  destruct e as [cid'|env cid' frame|cid'|now mono m path body|m path body]; cbn [server_step].
  - intros [= <-]. case_decide as Hd; [eauto|]. cbn. rewrite lookup_insert_Some. intros [[_ ?]|[_ ?]]; [done|eauto].
  - destruct (sv_conns s !! cid') as [session|] eqn:Hc; [|intros [= <-]; eauto].
    case_decide; [intros [= <-]; cbn; rewrite lookup_delete_Some; intros [_ ?]; eauto|].
    destruct (handle_connection_frame env frame (session, sv_broker s)) as [[out [session' b]]|] eqn:E; [|done].
    assert (∀ s1 : server, sv_conns s1 = <[cid':=session']> (sv_conns s) → sv_conns s1 !! cid = Some (Authenticated p) →
      (∃ q, sv_conns s !! cid = Some (Authenticated q))
      ∨ ∃ env0 frame0 session0, Frame env cid' frame = Frame env0 cid frame0 ∧ sv_conns s !! cid = Some session0
        ∧ is_authenticated session0 = false ∧ frame_proves (b_auth (sv_broker s)) session0 frame0) as Hins.
    { intros s1 ->. rewrite lookup_insert_Some. intros [[-> ->]|[_ ?]]; [|eauto].
      destruct (is_authenticated session) eqn:Ha; [destruct session; try done; eauto|]. right.
      exists env, frame, session. split_and!; [done..|]. by eapply frame_session. }
    assert (∀ s1 : server, sv_conns s1 = delete cid' (sv_conns s) → sv_conns s1 !! cid = Some (Authenticated p) →
      ∃ q, sv_conns s !! cid = Some (Authenticated q)) as Hdel.
    { intros s1 ->. rewrite lookup_delete_Some. intros [_ ?]. eauto. }
    destruct out as [o|err|]; [destruct session'| |done]; intros [= <-];
      first [exact (Hins (set_conns _ (set_broker b s)) eq_refl)
            |intros Hx; left; exact (Hdel (set_conns _ (set_broker b s)) eq_refl Hx)].
  - intros [= <-]. cbn. rewrite lookup_delete_Some. intros [_ ?]. eauto.
  - destruct (admin_app _ _ _ _ _ _ _) as [[| |] [a r]]; intros [= <-]; cbn; eauto.
  - destruct (sv_registry_enabled s); [|intros [= <-]; eauto].
    destruct (schema_registry_router _ _ _ _) as [[| |] r]; intros [= <-]; cbn; eauto.
Qed.

(** What only authenticated clients and HTTP requests can do. *)
Definition is_http (e : event) : bool :=
  match e with AdminHttp _ _ _ _ _ | RegistryHttp _ _ _ => true | _ => false end.

(** No frame of the run proves an identity to the session it reaches. *)
Definition nobody_proves (es : list event) s : Prop :=
  ∀ pre env cid frame post s1 session, es = pre ++ Frame env cid frame :: post →
    server_run pre s = Some s1 → sv_conns s1 !! cid = Some session →
    ¬ frame_proves (b_auth (sv_broker s1)) session frame.

Definition outsiders s : Prop := ∀ cid session, sv_conns s !! cid = Some session → is_authenticated session = false.

Lemma nobody_proves_step e es s s1 : server_step s e = Some s1 → nobody_proves (e :: es) s → nobody_proves es s1.
Proof.
  intros E Hn pre env cid frame post s2 session -> Hr. apply (Hn (e :: pre) env cid frame post s2); [done|].
  cbn. by rewrite E.
Qed.

Lemma http_step_broker s s' e s1 : is_http e = true → server_step s e = Some s1 → sv_broker s' = sv_broker s →
  sv_registry_enabled s' = sv_registry_enabled s → sv_start_time s' = sv_start_time s →
  ∃ s1', server_step s' e = Some s1' ∧ sv_broker s1' = sv_broker s1 ∧ b_auth (sv_broker s1) = b_auth (sv_broker s)
    ∧ sv_conns s1 = sv_conns s.
Proof.
  intros Hh E Hb He Ht. destruct e as [|env cid frame| |now mono m path body|m path body]; try done; cbn [server_step] in *.
  - unfold app_state. rewrite He, Hb, Ht. unfold app_state in E.
    destruct (admin_app _ _ _ _ _ _ _) as [[| |] [a r]]; simplify_eq; eexists; (split; [done|]); cbn; by rewrite Hb.
  - rewrite He, Hb. destruct (sv_registry_enabled s); [|simplify_eq; eauto].
    destruct (schema_registry_router _ _ _ _) as [[| |] r]; simplify_eq; eexists; (split; [done|]); cbn; by rewrite ?Hb.
Qed.

Lemma server_step_config s e s1 : server_step s e = Some s1 →
  sv_registry_enabled s1 = sv_registry_enabled s ∧ sv_start_time s1 = sv_start_time s.
Proof.
  destruct e as [cid|env cid frame|cid|now mono m path body|m path body]; cbn [server_step]; intros E.
  - simplify_eq. by case_decide.
  - destruct (sv_conns s !! cid); [|by simplify_eq]. case_decide; [by simplify_eq|].
    destruct (handle_connection_frame _ _ _) as [[[o|err|] [[] b]]|]; by simplify_eq.
  - by simplify_eq.
  - destruct (admin_app _ _ _ _ _ _ _) as [[| |] [a r]]; by simplify_eq.
  - destruct (sv_registry_enabled s) eqn:He; [|by simplify_eq].
    destruct (schema_registry_router _ _ _ _) as [[| |] r]; by simplify_eq.
Qed.

Lemma frame_step_broker s e s1 : au_require_sasl (b_auth (sv_broker s)) = true → outsiders s → is_http e = false →
  (∀ env cid frame session, e = Frame env cid frame → sv_conns s !! cid = Some session →
     ¬ frame_proves (b_auth (sv_broker s)) session frame) →
  server_step s e = Some s1 → sv_broker s1 = sv_broker s ∧ outsiders s1.
Proof.
  intros Hreq Ho Hh Hn E.
  assert (outsiders s1) as Ho1.
  { intros cid [|m|scram|p|] Hc; try done. destruct (server_step_session s e s1 cid p E Hc) as [[q Hq]|H'].
    - by apply Ho in Hq.
    - destruct H' as (env & frame & session & -> & Hs & _ & Hp). exfalso. by eapply Hn. }
  split; [|done]. destruct e as [cid|env cid frame|cid|now mono m path body|m path body]; cbn [server_step] in E; try done.
  - simplify_eq. by case_decide.
  - destruct (sv_conns s !! cid) as [session|] eqn:Hc; [|by simplify_eq]. case_decide; [by simplify_eq|].
    destruct (handle_connection_frame env frame (session, sv_broker s)) as [[out [session' b]]|] eqn:Ef; [|done].
    destruct (unauthenticated_frame _ _ _ _ _ _ _ Hreq (Ho _ _ Hc) Ef) as [-> _].
    destruct out as [o|err|]; [destruct session'| |done]; by simplify_eq.
  - by simplify_eq.
Qed.

Lemma outsiders_run es : ∀ s s' t, au_require_sasl (b_auth (sv_broker s)) = true → outsiders s → nobody_proves es s →
  sv_broker s' = sv_broker s → sv_registry_enabled s' = sv_registry_enabled s → sv_start_time s' = sv_start_time s →
  server_run es s = Some t → ∃ t', server_run (filter is_http es) s' = Some t' ∧ sv_broker t' = sv_broker t ∧ outsiders t.
Proof.
  induction es as [|e es IH]; intros s s' t Hreq Ho Hn Hb He Ht; [intros [= <-]; by exists s'|].
  cbn [server_run]. destruct (server_step s e) as [s1|] eqn:E; [|done]. intros Hr. change (server_run es s1 = Some t) in Hr.
  pose proof (nobody_proves_step e es s s1 E Hn) as Hn1. destruct (server_step_config s e s1 E) as [He1 Ht1].
  destruct (is_http e) eqn:Hh.
  - rewrite filter_cons_True by (by rewrite Hh). cbn [server_run].
    destruct (http_step_broker s s' e s1 Hh E Hb He Ht) as (s1' & E' & Hb' & Ha & Hc).
    destruct (server_step_config s' e s1' E') as [He1' Ht1']. rewrite E'. change (∃ t', server_run (filter is_http es) s1' = Some t' ∧ sv_broker t' = sv_broker t ∧ outsiders t).
    apply (IH s1); [by rewrite Ha|intros cid session; rewrite Hc; apply Ho|done|done|congruence|congruence|done].
  - rewrite filter_cons_False by (rewrite Hh; by intros []).
    destruct (frame_step_broker s e s1 Hreq Ho Hh) as [Hb1 Ho1]; [|done|].
    { intros env cid frame session -> Hs. by apply (Hn [] env cid frame es s). }
    apply (IH s1); [by rewrite Hb1|done|done|congruence|congruence|congruence|done].
Qed.
End server.

(** ** Properties *)
Section theorems.
Context `{Allocator} `{HO : HashOrder} `{CompressionLib} `{ScramCrypto} `{SerdeJson} `{JsonBody}.
Context {St : Type} `{!ObjectStorage St} (open_storage : StorageChoice → option St).
Import MemoryWal.

Lemma start_engine_ok env opts (b : Broker MemoryWal St) : start_engine open_storage env opts = Ok b →
  tables_ok b ∧ next_id b = 100 ∧ next_global_id (b_registry b) = 1 ∧ b_auth b = authenticator opts.
Proof.
  unfold start_engine. destruct (open_storage _); [|done]. intros [= <-]. split_and!; [|done..].
  split; [apply cluster_new_ok|by intros id cg|apply reg_ok_new].
Qed.

Lemma load_users_require spec a : au_require_sasl (load_user_list spec a) = au_require_sasl a.
Proof.
  unfold load_user_list. generalize (split_on "," (str_bytes spec)). intros l. revert a.
  induction l as [|x l IH]; intros a; [done|]. cbn [foldl]. rewrite IH. by destruct (split_once _ _) as [[? ?]|].
Qed.

(** C10: The tables stay well-formed.  Start the server with any options and let
    clients, administrators and registry users send any requests, executed one
    after the other in any order, as long as no request aborts the process and
    fewer than 2^64 stream ids and 2^31 schema ids are asked for: in every state
    reached between two requests, each partition is filed under its own name
    and two partitions never share a stream (requests that run at the same time
    keep this too as long as none of them resets the cluster, [topic_threads_agree];
    a reset that races with the creation of a partition breaks it,
    [reset_race_shares_stream]); each consumer group with members has
    one of them as its leader and is neither empty nor dead, and one without
    members has no leader; every schema id resolves to its own entry, and no two
    ids to the same schema and type; and the user table is that of the start. *)
Theorem server_tables_ok env opts start b es s :
  start_engine open_storage env opts = Ok b → server_run es (server_new b opts start) = Some s →
  100 + run_cost es (server_new b opts start) < 2 ^ 64 → zlen es < 2 ^ 31 - 1 →
  (∀ tp p, cs_partitions (b_cluster (sv_broker s)) !! tp = Some p → topic_partition p = tp)
  ∧ (∀ tp tp' p p', cs_partitions (b_cluster (sv_broker s)) !! tp = Some p →
       cs_partitions (b_cluster (sv_broker s)) !! tp' = Some p' → sid p = sid p' → tp = tp')
  ∧ (∀ id cg, groups (b_groups (sv_broker s)) !! id = Some cg →
       cg_state cg ≠ GDead ∧ (cg_members cg ≠ ∅ → cg_state cg ≠ GEmpty)
       ∧ match cg_leader_id cg with Some l => is_Some (cg_members cg !! l) | None => cg_members cg = ∅ end)
  ∧ (∀ id e, get_schema_by_id id (b_registry (sv_broker s)) = Some e → se_id e = id
       ∧ ∀ id' e', get_schema_by_id id' (b_registry (sv_broker s)) = Some e' →
           se_schema_type e' = se_schema_type e → se_schema e' = se_schema e → id' = id)
  ∧ b_auth (sv_broker s) = authenticator opts.
Proof.
  intros Hs Hr Hc Hn. destruct (start_engine_ok env opts b Hs) as (Hok & Hid & Hg & Ha).
  destruct (server_run_ok es (server_new b opts start) s) as [[H1' H2' H3'] H4'];
    [done|change (sv_broker _) with b; rewrite Hid; lia|change (sv_broker _) with b; rewrite Hg; lia|done|].
  split_and!.
  - apply H1'.
  - apply H1'.
  - intros id cg Hcg. destruct (H2' id cg Hcg) as [? ? ? ? ?]. done.
  - intros id e He. destruct (ok_globals _ H3' _ _ He) as [? Hf]. split; [done|]. intros id' e' He' Et Es.
    destruct (ok_globals _ H3' _ _ He') as [_ Hf']. unfold schema_key in Hf'. rewrite Et, Es in Hf'.
    unfold schema_key in Hf. congruence.
  - by rewrite H4'.
Qed.

(** C9: Outsiders change nothing.  On a server that requires SASL, whatever clients
    send on however many connections, in any order among any HTTP requests (each
    request is executed as a whole), as long as the process runs: if no frame of theirs carries valid credentials for the session it reaches, then no
    connection is authenticated, and the broker's state is exactly what the HTTP
    requests alone make of it. *)
Theorem server_outsiders_change_nothing env opts start b es s :
  start_engine open_storage env opts = Ok b → so_require_sasl opts = true →
  server_run es (server_new b opts start) = Some s → nobody_proves es (server_new b opts start) →
  (∀ cid session, sv_conns s !! cid = Some session → is_authenticated session = false)
  ∧ ∃ s', server_run (filter is_http es) (server_new b opts start) = Some s' ∧ sv_broker s' = sv_broker s.
Proof.
  intros Hs Hreq Hr Hn. destruct (start_engine_ok env opts b Hs) as (_ & _ & _ & Ha).
  assert (au_require_sasl (authenticator opts) = true) as Hau.
  { unfold authenticator. destruct (_ || _); [by rewrite load_users_require|done]. }
  destruct (outsiders_run es (server_new b opts start) (server_new b opts start) s) as (s' & Hr' & Hb & Ho);
    [by cbn; rewrite Ha|by intros cid session|done..|]. eauto.
Qed.
End theorems.

(** ** Witnesses *)
Section witnesses.
Import MemoryWal MemoryStore.
#[local] Existing Instances roomy stored_lib toy_crypto toy_json toy_bodies.

Definition secure_options : ServerOptions :=
  mkOptions "0.0.0.0" 9092 9093 true None None 8082 8081 true false true true
    "PLAIN,SCRAM-SHA-256" "admin=admin-secret" true "User:admin" false.
Definition demo_open (_ : StorageChoice) : option MemoryObjectStorage := Some MemoryStore.new.
Definition no_vars (_ : string) : option string := None.

Definition demo_engine : Broker MemoryWal MemoryObjectStorage :=
  match start_engine demo_open no_vars secure_options with
  | Ok b => b
  | _ => demo_broker
  end.
Definition demo_server : Server MemoryWal MemoryObjectStorage := server_new demo_engine secure_options 0.

(** Two clients and a registry user. *)
Definition demo_events : list event :=
  [Accept 1; Accept 2; Frame demo_env 1 versions_frame;
   RegistryHttp POST ["subjects"; "orders"; "versions"]%string (str_bytes "message Order");
   Frame demo_env 2 metadata_frame; Hangup 1].
Definition demo_last : Server MemoryWal MemoryObjectStorage := default demo_server (server_run demo_events demo_server).

Lemma server_tables_ok_witness :
  (∀ tp p, cs_partitions (b_cluster (sv_broker demo_last)) !! tp = Some p → topic_partition p = tp)
  ∧ (∀ tp tp' p p', cs_partitions (b_cluster (sv_broker demo_last)) !! tp = Some p →
       cs_partitions (b_cluster (sv_broker demo_last)) !! tp' = Some p' → sid p = sid p' → tp = tp')
  ∧ (∀ id cg, groups (b_groups (sv_broker demo_last)) !! id = Some cg →
       cg_state cg ≠ GDead ∧ (cg_members cg ≠ ∅ → cg_state cg ≠ GEmpty)
       ∧ match cg_leader_id cg with Some l => is_Some (cg_members cg !! l) | None => cg_members cg = ∅ end)
  ∧ (∀ id e, get_schema_by_id id (b_registry (sv_broker demo_last)) = Some e → se_id e = id
       ∧ ∀ id' e', get_schema_by_id id' (b_registry (sv_broker demo_last)) = Some e' →
           se_schema_type e' = se_schema_type e → se_schema e' = se_schema e → id' = id)
  ∧ b_auth (sv_broker demo_last) = authenticator secure_options.
Proof.
  refine (server_tables_ok demo_open no_vars secure_options 0 demo_engine demo_events demo_last _ _ _ _).
  - vm_compute. reflexivity.
  - vm_compute. reflexivity.
  - vm_compute. reflexivity.
  - vm_compute. reflexivity.
Defined.

Lemma server_outsiders_change_nothing_witness :
  get_schema_by_id 1 (b_registry (sv_broker demo_last)) ≠ None
  ∧ (∀ cid session, sv_conns demo_last !! cid = Some session → is_authenticated session = false)
  ∧ ∃ s', server_run (filter is_http demo_events) demo_server = Some s' ∧ sv_broker s' = sv_broker demo_last.
Proof.
  split; [vm_compute; discriminate|].
  refine (server_outsiders_change_nothing demo_open no_vars secure_options 0 demo_engine demo_events demo_last _ _ _ _).
  - vm_compute. reflexivity.
  - reflexivity.
  - vm_compute. reflexivity.
  - intros pre env cid frame post s1 session He _ _ (header & body & req & rest & p & Hh & Hd & _).
    assert (Frame env cid frame ∈ demo_events) as Hin by (rewrite He; set_solver).
    assert (frame = versions_frame ∨ frame = metadata_frame) as [-> | ->].
    { unfold demo_events in Hin.
      repeat (apply elem_of_cons in Hin as [Hin|Hin]; [first [discriminate Hin | injection Hin as _ _ ->; by auto]|]).
      by apply not_elem_of_nil in Hin. }
    + vm_compute in Hh. injection Hh as <- <-. vm_compute in Hd. discriminate.
    + vm_compute in Hh. injection Hh as <- <-. vm_compute in Hd. discriminate.
Defined.
End witnesses.
