(* ===== verification/Retention.v ===== *)
(** * Acknowledged records stay

    What a client was told is stored is still there after whatever the server
    does next.  The server keeps records in the log cache (its write-ahead log
    is never read back and nothing is uploaded), so that this holds as long as
    the cache does not overflow and nobody deletes the records: the invariant
    [held] says that a batch is at its offset and how much more can be appended
    before the cache or the offsets run out; every request spends a part of
    that, and every interleaving of requests keeps it. *)

From Stdlib Require Import Strings.Byte.
From stdpp Require Import base numbers list strings sets gmap.
From S2P Require Import Prelude Bytes Text CoreTypes KafkaWire Batch MessageTypes.
From S2P Require Import Wal S3Format LogCache BlockCache ObjectStore Stream Partition.
From S2P Require Import MsgCodec MsgMeta MsgData MsgGroup MsgTxn MsgAuth MsgAdmin Messages.
From S2P Require Import Cluster Txn Group Acl State Sasl SchemaRegistry Chaos Http Broker Server.
From S2P Require Import MsgSafe BrokerSpec BrokerLive System.

(** ** The log cache with room to spare *)
Section cache.
Context `{HO : HashOrder}.

Lemma trim_total sid up (c : LC.LogCache) : LC.wf c →
  LC.total (LC.streams (LC.trim sid up c)) ≤ LC.total (LC.streams c)
  ∧ LC.max_bytes (LC.trim sid up c) = LC.max_bytes c.
Proof.
  intros Hwf. split; [|unfold LC.trim; by repeat case_match]. unfold LC.trim.
  destruct (LC.streams c !! sid) as [m|] eqn:Hm; [|done]. unfold LC.wf in Hwf.
  rewrite LC.cache_trim_loop_spec; [|lia|].
  - cbn [LC.streams]. unfold LC.total. rewrite msum_insert, Hm.
    pose proof (LC.stream_size_filter (λ kv, up ≤ kv.1) m). lia.
  - rewrite Hwf. by apply (msum_le LC.stream_size (LC.streams c) sid m LC.stream_size_nonneg).
Qed.

(** Reading only counts. *)
Lemma read_range_frame sid start max (c : LC.LogCache) :
  let c' := (LC.read_range sid start max c).2 in
  LC.streams c' = LC.streams c ∧ LC.max_bytes c' = LC.max_bytes c ∧ LC.current_bytes c' = LC.current_bytes c.
Proof. unfold LC.read_range. by repeat case_match. Qed.
End cache.

(** ** Appending *)

Section append.
Context `{HO : HashOrder} {W St : Type} `{!WalEngine W, !ObjectStorage St}.
Implicit Types w : World W St.

(** What an append does to the partition and to the cache, whether or not the
    write-ahead log takes the record. *)
Lemma append_records_cache now recs p w r p' w' : append_records now recs p w = (r, p', w') →
  sid p' = sid p ∧ log_start_offset p' = log_start_offset p
  ∧ (log_cache w' = log_cache w
     ∨ ∃ patched count, patch_record_batches recs (high_watermark p) = Ok (patched, count)
         ∧ high_watermark p' = i64 (high_watermark p + Z.max count 1)
         ∧ log_cache w' = LC.put (sid p) (high_watermark p) patched (log_cache w)).
Proof.
  unfold append_records. fold (high_watermark p).
  destruct (patch_record_batches recs (high_watermark p)) as [[patched count]| |]; cbn [mbind res_bind].
  2-3: intros [= <- <- <-]; by eauto.
  destruct (txn_producer patched) as [x| |]; cbn [mbind res_bind].
  2-3: intros [= <- <- <-]; by eauto.
  set (p1 := match x with Some _ => _ | None => p end).
  assert (stream p1 = stream p) as -> by (by destruct x).
  unfold append_with_count. destruct (wal_append _ _ _ _) as [[y|e|] wl]; intros [= <- <- <-]; cbn; eauto 8.
Qed.

Lemma append_records_hw now recs p w r p' w' : append_records now recs p w = (r, p', w') →
  0 ≤ high_watermark p → high_watermark p + 2 ^ 32 * (zlen recs + 1) < i64_max →
  high_watermark p ≤ high_watermark p' ≤ high_watermark p + 2 ^ 32 * (zlen recs + 1).
Proof.
  intros E H0 Hb. pose proof (zlen_nonneg recs). revert E. unfold append_records. fold (high_watermark p).
  destruct (patch_record_batches recs (high_watermark p)) as [[patched count]| |] eqn:Ep; cbn [mbind res_bind].
  2-3: intros [= <- <- <-]; lia.
  destruct (patch_bound _ _ _ _ H0 Hb Ep) as [Hz Hc].
  destruct (txn_producer patched) as [x| |]; cbn [mbind res_bind].
  2-3: intros [= <- <- <-]; lia.
  set (p1 := match x with Some _ => _ | None => p end).
  assert (stream p1 = stream p) as -> by (by destruct x).
  assert (i64 (high_watermark p + Z.max count 1) = high_watermark p + count) as Hn.
  { rewrite Z.max_l by lia. apply wrap_s_small; [lia|]. unfold in_s, i64_max in *. change (64 - 1) with 63. lia. }
  unfold append_with_count. fold (high_watermark p). rewrite Hn.
  destruct (wal_append _ _ _ _) as [[y|e|] wl]; intros [= <- <- <-]; cbn; lia.
Qed.

(** A fetch leaves the cached records alone. *)
Lemma fetch_frame start max s w r w' : fetch start max s w = (r, w') →
  LC.streams (log_cache w') = LC.streams (log_cache w) ∧ LC.max_bytes (log_cache w') = LC.max_bytes (log_cache w)
  ∧ LC.current_bytes (log_cache w') = LC.current_bytes (log_cache w).
Proof.
  unfold fetch. case_decide; [by intros [= _ <-]|].
  pose proof (read_range_frame (s_stream_id s) start max (log_cache w)) as Hr.
  destruct (LC.read_range _ _ _ _) as [cached lc]. cbn [snd] in Hr.
  destruct cached; [by intros [= _ <-]|]. destruct (covering _ _) as [meta|]; [|by intros [= _ <-]].
  unfold fetch_object. destruct (BC.get _ _) as [[d|] bc]; [by intros [= _ <-]|].
  destruct (get_object _ _) as [[raw|e|] st]; [|by intros [= _ <-]..].
  destruct (decode_all raw); [|by intros [= _ <-]..]. destruct (foldl _ _ _). by intros [= _ <-].
Qed.
End append.

(** ** The invariant *)
Section held.
Context {W St : Type} (tp : TopicPartition) (o top : Z) (d : bytes).
Implicit Types b : Broker W St.

Abbreviation lc b := (log_cache (b_world b)).

(** The batch [d] is at offset [o] of [tp], up to [top]; [ids] more streams can be numbered,
    and [units] more bytes appended (a request costs one unit more than the
    bytes it appends) before the cache is full or an offset could overflow. *)
Record held (ids units : Z) b : Prop := {
  h_cluster : cluster_ok (b_cluster b);
  h_ids : next_id b + ids < 2 ^ 64;
  h_wf : LC.wf (lc b);
  h_max : LC.max_bytes (lc b) < 2 ^ 63;
  h_room : LC.total (LC.streams (lc b)) + units ≤ LC.max_bytes (lc b);
  h_at : ∃ p, cs_partitions (b_cluster b) !! tp = Some p
    ∧ LC.entry (LC.streams (lc b)) (sid p) o = Some d
    ∧ (∀ o' d', LC.entry (LC.streams (lc b)) (sid p) o' = Some d' → i64_min ≤ o' < i64_max)
    ∧ 0 ≤ log_start_offset p ≤ o ∧ o < top ≤ high_watermark p
    ∧ high_watermark p + 2 ^ 32 * units < i64_max }.

Lemma held_weaken i n j k b : held i n b → j ≤ i → k ≤ n → held j k b.
Proof. intros [? ? ? ? ? (p & ? & ? & ? & ? & ? & ?)]. split; [done|lia|done|done|lia|]. exists p. split_and!; try done; lia. Qed.

(** [m] takes at most [i] stream ids and [n] units, and keeps the batch. *)
Definition spends {A} (i n : Z) (m : handler W St A) : Prop := ∀ j k b r b',
  0 ≤ j → 0 ≤ k → held (i + j) (n + k) b → m b = Some (r, b') → held j k b'.

Lemma spends_weaken {A} i n i' n' (m : handler W St A) : spends i n m → i ≤ i' → n ≤ n' → spends i' n' m.
Proof. intros Hm Hi Hn j k b r b' Hj Hk Hh E. eapply Hm; [done|done| |done]. eapply held_weaken; [done|lia|lia]. Qed.

(** A step that touches neither the partitions nor the cache. *)
Lemma spends_same {A} (m : handler W St A) :
  (∀ b r b', m b = Some (r, b') → b_cluster b' = b_cluster b ∧ b_world b' = b_world b) → spends 0 0 m.
Proof.
  intros Hm j k b r b' Hj Hk Hh E. destruct (Hm b r b' E) as [E1 E2].
  change (0 + j) with j in Hh. change (0 + k) with k in Hh. destruct Hh.
  unfold next_id in *. split; unfold next_id; by rewrite ?E1, ?E2.
Qed.

Lemma spends_bind {A B} i1 n1 i2 n2 (m : handler W St A) (f : A → handler W St B) :
  0 ≤ i2 → 0 ≤ n2 → spends i1 n1 m → (∀ x, spends i2 n2 (f x)) → spends (i1 + i2) (n1 + n2) (m ≫= f).
Proof.
  intros Hi Hn Hm Hf j k b r b' Hj Hk Hh. unfold mbind, handler_bind.
  assert (∀ r1 b1, m b = Some (r1, b1) → held (i2 + j) (n2 + k) b1) as Hm1.
  { intros r1 b1. apply Hm; [lia|lia|]. eapply held_weaken; [done|lia|lia]. }
  destruct (m b) as [[[x|e|] b1]|] eqn:E; [| | |done].
  - intros E2. by eapply Hf; [..|exact (Hm1 _ _ eq_refl)|exact E2].
  - intros [= <- <-]. eapply held_weaken; [exact (Hm1 _ _ eq_refl)|lia|lia].
  - intros [= <- <-]. eapply held_weaken; [exact (Hm1 _ _ eq_refl)|lia|lia].
Qed.

Lemma spends_each {A B} (ci cn : A → Z) (f : A → handler W St B) l :
  (∀ x, 0 ≤ ci x) → (∀ x, 0 ≤ cn x) → (∀ x, x ∈ l → spends (ci x) (cn x) (f x)) →
  spends (total_cost ci l) (total_cost cn l) (traverse f l).
Proof.
  intros Hi Hn. induction l as [|x l IH]; intros Hf; [apply spends_same; by intros b r b' [= <- <-]|].
  cbn [traverse total_cost foldr]. fold (total_cost ci l) (total_cost cn l).
  pose proof (total_cost_nonneg ci l Hi). pose proof (total_cost_nonneg cn l Hn).
  apply spends_bind; [done|done|apply Hf; set_solver|]. intros y.
  replace (total_cost ci l) with (total_cost ci l + 0) by lia. replace (total_cost cn l) with (total_cost cn l + 0) by lia.
  apply spends_bind; [done|done|apply IH; set_solver|]. intros ys. apply spends_same. by intros b r b' [= <- <-].
Qed.
End held.

(** ** Steps on the partitions *)
Section steps.
Context `{Allocator} `{HO : HashOrder} `{CompressionLib} `{ScramCrypto}.
Context {W St : Type} `{!WalEngine W, !ObjectStorage St} (tp : TopicPartition) (o top : Z) (d : bytes).
Implicit Types b : Broker W St.
Abbreviation spends' i n m := (spends (W:=W) (St:=St) tp o top d i n m).

Lemma get_or_create_kept tp' c p : cs_partitions c !! tp = Some p →
  cs_partitions (get_or_create_partition tp' c).2 !! tp = Some p.
Proof.
  intros Hp. destruct (decide (tp = tp')) as [<-|Hne]; [|by rewrite get_or_create_other].
  unfold get_or_create_partition. by rewrite Hp.
Qed.

(** A step of the cluster's tables that leaves the partition alone. *)
Lemma spends_on_cluster {A} i (f : ClusterState → A * ClusterState) :
  (∀ c, cluster_ok c → cs_next_stream_id c + i < 2 ^ 64 →
     cluster_ok (f c).2 ∧ cs_next_stream_id (f c).2 ≤ cs_next_stream_id c + i) →
  (∀ c p, cs_partitions c !! tp = Some p → cs_partitions (f c).2 !! tp = Some p) → spends' i 0 (on_cluster f).
Proof.
  intros Hf Hp j k b r b' Hj Hk [H1' H2' H3' H4' H5' (p & Hl & Hrest)]. unfold next_id in *. unfold on_cluster.
  specialize (Hf (b_cluster b) H1' ltac:(lia)). specialize (Hp _ _ Hl).
  destruct (f (b_cluster b)) as [x c]. intros [= <- <-]. destruct Hf as [Hc Hle].
  split; try done; [unfold next_id; cbn in *; lia|]. by exists p.
Qed.

Lemma spends_ensure tp' : spends' 1 0 (ensure_partition tp').
Proof.
  apply spends_on_cluster; [|intros; by apply get_or_create_kept].
  intros c Hc Hn. by destruct (get_or_create_ok tp' c Hc Hn) as (? & ? & _).
Qed.

(** An append to any partition, as the tables and the cache see it. *)
Lemma held_append i n b tp' now recs p1 c1 r p2 w2 p3 :
  held tp o top d (1 + i) (zlen recs + 1 + n) b → 0 ≤ i → 0 ≤ n →
  get_or_create_partition tp' (b_cluster b) = (p1, c1) →
  append_records now recs p1 (b_world b) = (r, p2, w2) → stream p3 = stream p2 → topic_partition p3 = topic_partition p2 →
  held tp o top d i n (bset_world w2 (bset_cluster (put_partition tp' p3 c1) b)).
Proof.
  intros [H1' H2' H3' H4' H5' (p & Hl & He & Ho & Hst & Hhw & Hov)] Hi Hn Eg Ea Es Et. unfold next_id in *.
  pose proof (zlen_nonneg recs).
  pose proof (get_or_create_kept tp' (b_cluster b) p Hl) as Hl1.
  destruct (get_or_create_ok tp' (b_cluster b) H1' ltac:(lia)) as (Hc1 & Hn1 & Hp1).
  rewrite Eg in Hl1, Hc1, Hn1, Hp1. cbn [fst snd] in *.
  pose proof (append_records_frame now recs p1 (b_world b)) as [Hs2 Ht2].
  destruct (append_records_cache _ _ _ _ _ _ _ Ea) as (_ & Hstart & Hcache). rewrite Ea in Hs2, Ht2. cbn [fst snd] in Hs2, Ht2.
  assert (sid p3 = sid p1) as Hs3 by (unfold sid in *; congruence).
  assert (cluster_ok (put_partition tp' p3 c1)) as Hc2 by (eapply put_partition_ok; [done..|congruence]).
  assert (LC.wf (log_cache w2) ∧ LC.max_bytes (log_cache w2) = LC.max_bytes (log_cache (b_world b))
    ∧ LC.total (LC.streams (log_cache w2)) ≤ LC.total (LC.streams (log_cache (b_world b))) + zlen recs
    ∧ ∀ s' o', (s', o') ≠ (sid p1, high_watermark p1) →
        LC.entry (LC.streams (log_cache w2)) s' o' = LC.entry (LC.streams (log_cache (b_world b))) s' o')
    as (Hw1 & Hw2 & Hw3 & Hw4).
  { destruct Hcache as [->|(patched & count & Hp & _ & ->)]; [split_and!; try done; lia|].
    apply patch_length in Hp. destruct (LC.put_roomy (sid p1) (high_watermark p1) patched _ H3') as (? & ? & ? & Hent); [lia|lia|].
    split_and!; [done|done|lia|]. intros s' o' Hne. rewrite Hent, decide_False by naive_solver. done. }
  split; cbn [b_cluster b_world bset_world bset_cluster]; [done|unfold next_id; cbn; lia|done|lia|lia|].
  destruct (decide (tp' = tp)) as [->|Hne].
  - rewrite Hl1 in Hp1. injection Hp1 as ->.
    destruct (append_records_hw _ _ _ _ _ _ _ Ea) as [Hge Hle]; [lia|nia|].
    exists p3. unfold log_start_offset, high_watermark in *. rewrite Hs3, Es. cbn. rewrite lookup_insert_eq.
    split_and!; [done| | |lia|lia|lia|lia|nia].
    + rewrite Hw4; [done|]. intros [= ?]. unfold high_watermark in *. lia.
    + intros o' d'. destruct (decide (o' = s_next_offset (stream p1))) as [->|Hne].
      * intros _. unfold i64_min. lia.
      * rewrite Hw4; [apply Ho|]. unfold high_watermark. congruence.
  - exists p. cbn. rewrite lookup_insert_ne by done.
    assert (sid p1 ≠ sid p) as Hsid by (intros Hs; by apply Hne; eapply (ck_inj _ Hc1)).
    split_and!; [done| | |lia|lia|lia|lia|nia].
    + rewrite Hw4; [done|]. congruence.
    + intros o' d'. rewrite Hw4; [apply Ho|]. congruence.
Qed.

Lemma spends_append_to now tp' recs : spends' 1 (zlen recs + 1) (append_to now tp' recs).
Proof.
  intros j k b r b' Hj Hk Hh. unfold append_to.
  destruct (get_or_create_partition tp' (b_cluster b)) as [p1 c1] eqn:Eg.
  destruct (append_records now recs p1 (b_world b)) as [[r1 p2] w2] eqn:Ea. intros [= <- <-].
  by eapply held_append.
Qed.

Lemma spends_read_from p off n : spends' 0 0 (read_from p off n).
Proof.
  intros j k b r b' Hj Hk Hh. unfold read_from, read_records.
  destruct (fetch off n (stream p) (b_world b)) as [x w] eqn:E. intros [= <- <-].
  apply fetch_frame in E as (E1 & E2 & E3). change (0 + j) with j in Hh. change (0 + k) with k in Hh.
  destruct Hh as [H1' H2' H3' H4' H5' H6']. unfold LC.wf in *.
  split; cbn [b_world bset_world]; unfold LC.wf; rewrite ?E1, ?E2, ?E3; done.
Qed.

Lemma spends_delete_from tp' off : tp' ≠ tp → spends' 0 0 (delete_from tp' off).
Proof.
  intros Hne j k b r b' Hj Hk. change (0 + j) with j. change (0 + k) with k. intros Hh. unfold delete_from, delete_records, get_partition.
  destruct (cs_partitions (b_cluster b) !! tp') as [p1|] eqn:E1; [|intros [= <- <-]; by destruct b].
  case_decide; [intros [= <- <-]; by destruct b|]. case_decide; [intros [= <- <-]; by destruct b|].
  set (t := if decide (off = -1) then _ else _) in *. unfold log_start_offset in *.
  unfold advance_log_start_offset, advance_start_offset. rewrite decide_True by lia. intros [= <- <-].
  destruct Hh as [H1' H2' H3' H4' H5' (p & Hl & He & Ho & Hst & Hhw & Hov)].
  assert (s_stream_id (stream p1) ≠ sid p) as Hsid by (intros Hs; by apply Hne; eapply (ck_inj _ H1')).
  pose proof (trim_total (s_stream_id (stream p1)) t _ H3') as [Ht1 Ht2].
  pose proof (λ o', proj2 (LC.trim_entry (s_stream_id (stream p1)) t _ (sid p) o' H3')) as Hent.
  assert (∀ o', LC.entry (LC.streams (LC.trim (s_stream_id (stream p1)) t (log_cache (b_world b)))) (sid p) o'
    = LC.entry (LC.streams (log_cache (b_world b))) (sid p) o') as Hent'.
  { intros o'. rewrite Hent, decide_False by naive_solver. done. }
  split; cbn; [|done|apply (LC.trim_entry (s_stream_id (stream p1)) t _ 0 0 H3')|lia|lia|].
  - eapply put_partition_ok; try done.
  - exists p. rewrite lookup_insert_ne by done. rewrite Hent'. split_and!; try done; try lia.
    intros o' d'. rewrite Hent'. apply Ho.
Qed.
End steps.

Section basics.
Context {W St : Type} (tp : TopicPartition) (o top : Z) (d : bytes).
Abbreviation spends' i n m := (spends (W:=W) (St:=St) tp o top d i n m).

Lemma spends_ret {A} (x : A) : spends' 0 0 (mret x).
Proof. apply spends_same. by intros b r b' [= <- <-]. Qed.
Lemma spends_panic {A} : spends' 0 0 (panic (A:=A)).
Proof. apply spends_same. by intros b r b' [= <- <-]. Qed.
Lemma spends_diverge {A} : spends (A:=A) (W:=W) (St:=St) tp o top d 0 0 (λ _, None).
Proof. by apply spends_same. Qed.
Lemma spends_gets {A} (f : Broker W St → A) : spends' 0 0 (gets f).
Proof. apply spends_same. by intros b r b' [= <- <-]. Qed.
Lemma spends_clock env : spends' 0 0 (clock env).
Proof. apply spends_same. by intros b r b' [= <- <-]. Qed.
Lemma spends_on_txns {A} (f : TransactionCoordinator → A * TransactionCoordinator) : spends' 0 0 (on_txns f).
Proof. apply spends_same. intros b r b'. unfold on_txns. destruct (f _). by intros [= <- <-]. Qed.
Lemma spends_on_acl {A} (f : AclAuthorizer → A * AclAuthorizer) : spends' 0 0 (on_acl f).
Proof. apply spends_same. intros b r b'. unfold on_acl. destruct (f _). by intros [= <- <-]. Qed.
Lemma spends_on_groups {A} (f : GroupCoordinator → A * GroupCoordinator) : spends' 0 0 (on_groups f).
Proof. apply spends_same. intros b r b'. unfold on_groups. destruct (f _). by intros [= <- <-]. Qed.
Lemma spends_code {A B} (r : res KafkaErrorCode A) (ok : A → B) err : spends' 0 0 (code_or r ok err).
Proof. destruct r; [apply spends_ret..|apply spends_panic]. Qed.
Lemma spends_allowed p rt name op : spends' 0 0 (allowed p rt name op).
Proof. apply spends_gets. Qed.
Lemma spends_chaos t : spends' 0 0 (check_chaos t).
Proof. apply spends_same. intros b r b'. unfold check_chaos. destruct (check_fault _ _). by intros [= <- <-]. Qed.

Lemma spends_free {A} i n (m : handler W St A) : 0 ≤ i → 0 ≤ n → spends' 0 0 m → spends' i n m.
Proof. intros. by eapply spends_weaken. Qed.

Lemma spends_bind0 {A B} i n (m : handler W St A) (f : A → handler W St B) :
  0 ≤ i → 0 ≤ n → spends' 0 0 m → (∀ x, spends' i n (f x)) → spends' i n (m ≫= f).
Proof. intros Hi Hn Hm Hf. by apply (spends_bind tp o top d 0 0 i n). Qed.
Lemma spends_then0 {A B} i n (m : handler W St A) (f : A → handler W St B) :
  spends' i n m → (∀ x, spends' 0 0 (f x)) → spends' i n (m ≫= f).
Proof. intros Hm Hf. replace i with (i + 0) by lia. replace n with (n + 0) by lia. by apply spends_bind. Qed.

Lemma spends_each0 {A B} (f : A → handler W St B) l : (∀ x, x ∈ l → spends' 0 0 (f x)) → spends' 0 0 (traverse f l).
Proof.
  intros Hf. apply (spends_weaken tp o top d (total_cost (λ _, 0) l) (total_cost (λ _, 0) l)); [by apply spends_each| |].
  all: unfold total_cost; clear Hf; induction l; cbn in *; lia.
Qed.
End basics.

Create HintDb spends.
#[export] Hint Resolve spends_ret spends_panic spends_diverge spends_gets spends_clock spends_on_txns spends_on_acl
  spends_on_groups spends_code spends_allowed spends_chaos spends_read_from : spends.

(** One step of a handler that stores and creates nothing. *)
Ltac spends_step :=
  lazymatch goal with
  | |- spends _ _ _ _ 0 0 (mbind _ _) => apply spends_bind0; [done|done| |intros ?; cbv beta]
  | |- spends _ _ _ _ 0 0 (if ?c then _ else _) => destruct c
  | |- spends _ _ _ _ 0 0 (match ?x with Some _ => _ | None => _ end) => destruct x
  | |- spends _ _ _ _ 0 0 (match ?x with Ok _ => _ | Err _ => _ | Panic => _ end) => destruct x
  | |- spends _ _ _ _ 0 0 (match ?x with (_, _) => _ end) => destruct x
  | |- spends _ _ _ _ 0 0 (traverse _ _) => apply spends_each0; intros ? ?; cbv beta
  | |- spends _ _ _ _ 0 0 ?m => first [solve [eauto with spends] | let h := head m in unfold h; cbv beta zeta]
  end.
Ltac spends := repeat spends_step.

(** ** Requests *)
Section requests.
Context `{Allocator} `{HO : HashOrder} `{CompressionLib} `{ScramCrypto}.
Context {W St : Type} `{!WalEngine W, !ObjectStorage St} (tp : TopicPartition) (o top : Z) (d : bytes).
Implicit Types b : Broker W St.
Abbreviation spends' i n m := (spends (W:=W) (St:=St) tp o top d i n m).

(** A marker of a transaction has 74 bytes. *)
Definition marker_units : Z := 75.

Definition request_units b (req : Request) : Z :=
  match req with
  | RqProduce m => total_cost (λ t, total_cost (λ p, zlen (ppd_records p) + 1) (tpd_partitions t)) (pq_topic_data m)
  | RqEndTxn m =>
      match transactions (b_txns b) !! etq_transactional_id m with
      | Some meta => marker_units * Z.of_nat (size (tx_partitions meta))
      | None => 0
      end
  | _ => 0
  end.

(** The request does not delete from [tp]. *)
Definition spares (req : Request) : Prop :=
  match req with
  | RqDeleteTopics m => tp_topic tp ∉ dtq_topic_names m
  | RqDeleteRecords m =>
      Forall (λ t, Forall (λ p, mkTP (drt_name t) (drp_partition_index p) ≠ tp) (drt_partitions t)) (drq_topics m)
  | _ => True
  end.

Lemma spends_produce_partition env a fault topic p :
  spends' 2 (zlen (ppd_records p) + 1) (produce_partition env a fault topic p).
Proof.
  assert (0 ≤ zlen (ppd_records p) + 1) as Hz by (pose proof (zlen_nonneg (ppd_records p)); lia).
  unfold produce_partition. destruct (negb a); [apply spends_free; [done..|apply spends_ret]|].
  apply (spends_bind tp o top d 1 0 1); [done..|apply spends_ensure|]. intros _.
  destruct fault; [apply spends_free; [done..|apply spends_ret]|].
  destruct (decompress_record_batch _) as [[x|e|]|]; [|apply spends_free; [done..|by eauto with spends]..].
  apply spends_bind0; [done..|apply spends_gets|]. intros valid.
  destruct (negb valid); [apply spends_free; [done..|apply spends_ret]|].
  apply spends_bind0; [done..|apply spends_clock|]. intros now.
  apply spends_then0; [apply spends_append_to|]. intros [r partition]. spends.
Qed.

Lemma spends_produce env p m :
  spends' (total_cost (λ t, total_cost (λ _, 2) (tpd_partitions t)) (pq_topic_data m))
    (total_cost (λ t, total_cost (λ p, zlen (ppd_records p) + 1) (tpd_partitions t)) (pq_topic_data m))
    (api_produce env p m).
Proof.
  assert (∀ x : PartitionProduceData, 0 ≤ zlen (ppd_records x) + 1) as Hz by (intros x; pose proof (zlen_nonneg (ppd_records x)); lia).
  assert (∀ t, 0 ≤ total_cost (λ p, zlen (ppd_records p) + 1) (tpd_partitions t)) as Ht by (intros; by apply total_cost_nonneg).
  assert (∀ t, 0 ≤ total_cost (λ _, 2) (tpd_partitions t)) as Hi by (intros; by apply total_cost_nonneg).
  unfold api_produce. apply spends_bind0; [by apply total_cost_nonneg|by apply total_cost_nonneg|apply spends_chaos|].
  intros fault. apply spends_then0; [|intros; apply spends_ret].
  apply (spends_each tp o top d (λ t, total_cost (λ _, 2) (tpd_partitions t))
    (λ t, total_cost (λ p, zlen (ppd_records p) + 1) (tpd_partitions t))); [done..|]. intros t _.
  apply spends_bind0; [done..|apply spends_allowed|]. intros a. apply spends_then0; [|intros; apply spends_ret].
  apply (spends_each tp o top d (λ _, 2) (λ p, zlen (ppd_records p) + 1)); [done..|]. intros x _. apply spends_produce_partition.
Qed.
Lemma spends_each_ids {A B} k (f : A → handler W St B) l :
  0 ≤ k → (∀ x, x ∈ l → spends' k 0 (f x)) → spends' (total_cost (λ _, k) l) 0 (traverse f l).
Proof.
  intros Hk Hf. apply (spends_weaken tp o top d (total_cost (λ _, k) l) (total_cost (λ _, 0) l));
    [by apply spends_each|done|]. unfold total_cost. clear Hf. induction l; cbn in *; lia.
Qed.

(** Requests that go through the partitions of topics, one stream id each. *)
Lemma spends_each_topic {T A B C} (parts : T → list A) (g : T → A → bool → handler W St B)
    (perm : T → handler W St bool) (out : T → list B → C) l :
  (∀ t, spends' 0 0 (perm t)) → (∀ t x a, spends' 1 0 (g t x a)) →
  spends' (total_cost (λ t, total_cost (λ _, 1) (parts t)) l) 0
    (traverse (λ t, a ← perm t; ps ← traverse (λ x, g t x a) (parts t); mret (out t ps)) l).
Proof.
  intros Hp Hg. assert (∀ t, 0 ≤ total_cost (λ _, 1) (parts t)) as Ht by (intros; by apply total_cost_nonneg).
  apply (spends_weaken tp o top d (total_cost (λ t, total_cost (λ _, 1) (parts t)) l) (total_cost (λ _, 0) l)); [|done|].
  - apply spends_each; [done..|]. intros t _. apply spends_bind0; [done..|apply Hp|]. intros a.
    apply spends_then0; [|intros; apply spends_ret]. by apply spends_each_ids.
  - unfold total_cost. clear. induction l; cbn in *; lia.
Qed.

Lemma spends_fetch env p m : spends' (total_cost (λ t, total_cost (λ _, 1) (ft_partitions t)) (fq_topics m)) 0
  (api_fetch env p m).
Proof.
  unfold api_fetch. apply spends_bind0; [by do 2 (apply total_cost_nonneg; intros)|done|apply spends_chaos|].
  intros fault. apply spends_then0; [|intros; apply spends_ret].
  apply (spends_each_topic ft_partitions
    (λ t x a, fetch_partition env a (is_fault fault) (fq_isolation_level m) (ft_topic t) x)); [intros; apply spends_allowed|].
  intros t x a. unfold fetch_partition. destruct (negb a); [apply spends_free; [done..|apply spends_ret]|].
  apply spends_then0; [apply spends_ensure|]. intros partition. spends.
Qed.

Lemma spends_list_offsets p m : spends' (total_cost (λ t, total_cost (λ _, 1) (lot_partitions t)) (loq_topics m)) 0
  (api_list_offsets p m).
Proof.
  unfold api_list_offsets. apply spends_then0; [|intros; apply spends_ret].
  apply (spends_each_topic lot_partitions (λ t x a, list_offset a (lot_topic t) x)); [intros; apply spends_allowed|].
  intros t x a. unfold list_offset. destruct (negb a); [apply spends_free; [done..|apply spends_ret]|].
  apply spends_then0; [apply spends_ensure|]. intros partition. spends.
Qed.

(** A cluster operation that is one of Cluster.v's. *)
Lemma spends_cop {A} op (f : ClusterState → A * ClusterState) :
  (∀ c (w : World W St), (cop_run (c, w) op).1 = (f c).2) →
  (∀ c p, cs_partitions c !! tp = Some p → cs_partitions (f c).2 !! tp = Some p) → spends' (creates op) 0 (on_cluster f).
Proof.
  intros Hf Hp j k b. apply spends_on_cluster; [|done]. intros c Hc Hn. rewrite <- (Hf c (b_world b)). by apply cop_run_ok.
Qed.

Lemma provision_kept name lo hi c p : cs_partitions c !! tp = Some p →
  cs_partitions (provision name lo hi c) !! tp = Some p.
Proof.
  unfold provision. generalize (seqZ lo (hi - lo)). intros l. revert c.
  induction l as [|i l IH]; intros c Hc; [done|]. cbn. by apply IH, get_or_create_kept.
Qed.

Lemma metadata_kept req auto c p : cs_partitions c !! tp = Some p →
  cs_partitions (build_metadata_with_auto_create req auto c).2 !! tp = Some p.
Proof.
  intros Hc. unfold build_metadata_with_auto_create.
  assert (∀ l m nf c, cs_partitions c !! tp = Some p →
    cs_partitions (foldl (resolve_topic auto) (m, nf, c) l).2 !! tp = Some p) as Hf.
  { clear. induction l as [|t l IH]; intros m nf c Hc; [done|]. cbn [foldl]. unfold resolve_topic at 2.
    destruct (m !! t); [by apply IH|]. destruct auto; [|by apply IH]. by apply IH, get_or_create_kept. }
  specialize (Hf (default [] req) (topic_map req c) [] c Hc).
  by destruct (foldl _ _ _) as [[m nf] c'].
Qed.

Lemma create_topic_kept name n rf cfgs c p : cs_partitions c !! tp = Some p →
  cs_partitions (create_topic name n rf cfgs c).2 !! tp = Some p.
Proof.
  intros Hc. unfold create_topic. repeat (case_match; try done); by apply provision_kept.
Qed.

Lemma create_partitions_kept name n asg v c p : cs_partitions c !! tp = Some p →
  cs_partitions (create_partitions name n asg v c).2 !! tp = Some p.
Proof.
  intros Hc. unfold create_partitions. repeat (case_match; try done); by apply provision_kept.
Qed.

Lemma delete_topic_kept name c p : name ≠ tp_topic tp → cs_partitions c !! tp = Some p →
  cs_partitions (delete_topic name c).2 !! tp = Some p.
Proof.
  intros Hne Hc. unfold delete_topic. destruct (_ && _); cbn; apply map_lookup_filter_Some; split; cbn; congruence.
Qed.

Lemma spends_metadata p m : spends' (zlen (default [] (mq_topics m))) 0 (api_metadata p m).
Proof.
  unfold api_metadata. apply spends_then0; [|intros resp; spends].
  apply (spends_cop (CMetadata (mq_topics m) (mq_allow_auto_topic_creation m))); [done|]. intros. by apply metadata_kept.
Qed.

Lemma spends_create_topics p m : spends' (total_cost (λ _, 10000) (ctq_topics m)) 0 (api_create_topics p m).
Proof.
  unfold api_create_topics. apply spends_then0; [|intros; apply spends_ret]. apply spends_each_ids; [done|]. intros t _.
  unfold create_one_topic. apply spends_bind0; [done..|unfold allowed_or_cluster; spends|]. intros a.
  destruct (negb a); [apply spends_free; [done..|apply spends_ret]|].
  destruct (ctq_validate_only m); [apply spends_free; [done..|by spends]|].
  apply spends_then0; [|intros; apply spends_code]. eapply (spends_cop (CCreateTopic _ _ _ _)); [done|].
  intros. by apply create_topic_kept.
Qed.

Lemma spends_create_partitions p m :
  spends' (total_cost (λ _, 2 ^ 31 + 10000) (cpq_topic_partitions m)) 0 (api_create_partitions p m).
Proof.
  unfold api_create_partitions. apply spends_then0; [|intros; apply spends_ret]. apply spends_each_ids; [done|]. intros t _.
  apply spends_bind0; [done..|unfold allowed_or_cluster; spends|]. intros a.
  destruct (negb a); [apply spends_free; [done..|apply spends_ret]|].
  apply spends_then0; [|intros; apply spends_code]. eapply (spends_cop (CCreatePartitions _ _ _ _)); [done|].
  intros. by apply create_partitions_kept.
Qed.

Lemma spends_update_configs name l : spends' 0 0 (on_cluster (update_topic_configs name l)).
Proof.
  apply (spends_cop (CUpdateConfigs name l)); [done|]. intros c p Hc. unfold update_topic_configs. by destruct (negb _).
Qed.

#[local] Hint Resolve spends_update_configs : spends.

Lemma spends_delete_topics p m : spares (RqDeleteTopics m) → spends' 0 0 (api_delete_topics p m).
Proof.
  intros Hs. cbn in Hs. unfold api_delete_topics. apply spends_then0; [|intros; apply spends_ret]. apply spends_each0.
  intros name Hin. apply spends_bind0; [done..|unfold allowed_or_cluster; spends|]. intros a.
  destruct (negb a); [apply spends_ret|]. apply spends_then0; [|intros; apply spends_code].
  apply (spends_cop (CDeleteTopic name)); [done|]. intros. apply delete_topic_kept; [|done]. congruence.
Qed.

Lemma spends_delete_records p m : spares (RqDeleteRecords m) → spends' 0 0 (api_delete_records p m).
Proof.
  intros Hs. cbn in Hs. rewrite Forall_forall in Hs. unfold api_delete_records.
  apply spends_then0; [|intros; apply spends_ret]. apply spends_each0. intros t Ht. specialize (Hs t Ht).
  rewrite Forall_forall in Hs. apply spends_bind0; [done..|unfold allowed_or_cluster; spends|]. intros a.
  apply spends_then0; [|intros; apply spends_ret]. apply spends_each0. intros x Hx.
  destruct (negb a); [apply spends_ret|]. apply spends_then0; [|intros; apply spends_code].
  apply spends_delete_from. by apply Hs.
Qed.

(** *** Transaction markers *)
Lemma control_batch_zlen now pid epoch commit ctrl :
  encode_control_batch now 0 pid epoch commit = Ok ctrl → zlen ctrl = marker_units - 1.
Proof.
  rewrite encode_control_eq. intros [= <-]. rewrite (zlen_im_bytes _ (ctrl_image_wf now pid epoch commit)). by destruct commit.
Qed.

Lemma held_bset b t i n : held tp o top d i n b → held tp o top d i n (bset_txns t b).
Proof. intros []. by split. Qed.

Lemma held_marker i n b now pid epoch commit tp' r c w : held tp o top d (1 + i) (marker_units + n) b → 0 ≤ i → 0 ≤ n →
  write_marker now pid epoch commit tp' (b_cluster b) (b_world b) = (r, c, w) →
  held tp o top d i n (bset_world w (bset_cluster c b)).
Proof.
  intros Hh Hi Hn. unfold write_marker. destruct (get_or_create_partition tp' (b_cluster b)) as [p1 c1] eqn:Eg.
  destruct (encode_control_batch now 0 pid epoch commit) as [ctrl|e|] eqn:Ec.
  2-3: by rewrite encode_control_eq in Ec.
  apply control_batch_zlen in Ec.
  assert (held tp o top d (1 + i) (zlen ctrl + 1 + n) b) as Hh' by (eapply held_weaken; [done|lia|lia]).
  destruct (append_records now ctrl p1 (b_world b)) as [[[[base t]|e|] p2] w2] eqn:Ea; intros [= <- <- <-];
    (eapply held_append; [exact Hh'|done|done|exact Eg|exact Ea|..]); by destruct commit.
Qed.

Lemma held_markers now pid epoch commit tps : ∀ i n b r c w,
  held tp o top d (zlen tps + i) (marker_units * zlen tps + n) b → 0 ≤ i → 0 ≤ n →
  write_markers now pid epoch commit tps (b_cluster b) (b_world b) = (r, c, w) →
  held tp o top d i n (bset_world w (bset_cluster c b)).
Proof.
  induction tps as [|tp' tps IH]; intros i n b r c w Hh Hi Hn; cbn [write_markers].
  - intros [= <- <- <-]. rewrite zlen_nil in Hh. destruct b. eapply held_weaken; [exact Hh|lia|lia].
  - rewrite zlen_cons in Hh. pose proof (zlen_nonneg tps). unfold marker_units in *.
    destruct (write_marker _ _ _ _ _ _ _) as [[r1 c1] w1] eqn:Em.
    assert (held tp o top d (zlen tps + i) (75 * zlen tps + n) (bset_world w1 (bset_cluster c1 b))) as Hh1.
    { eapply held_marker; [|lia|lia|exact Em]. unfold marker_units. eapply held_weaken; [done|lia|lia]. }
    destruct r1 as [u|e|].
    + intros E. exact (IH i n _ r c w Hh1 Hi Hn E).
    + intros [= <- <- <-]. eapply held_weaken; [done|lia|lia].
    + intros [= <- <- <-]. eapply held_weaken; [done|lia|lia].
Qed.

Lemma held_end_txn env p m i n b r b' :
  held tp o top d (request_cost b (RqEndTxn m) + i) (request_units b (RqEndTxn m) + n) b → 0 ≤ i → 0 ≤ n →
  api_end_txn env p m b = Some (r, b') → held tp o top d i n b'.
Proof.
  intros Hh Hi Hn. unfold api_end_txn, allowed, gets, clock, mbind, handler_bind. cbn [fst snd].
  assert (0 ≤ request_cost b (RqEndTxn m) ∧ 0 ≤ request_units b (RqEndTxn m)) as [Hc Hu].
  { cbn. unfold marker_units. case_match; lia. }
  destruct (negb _); [intros [= <- <-]; eapply held_weaken; [done|lia|lia]|].
  unfold end_transaction. cbn [b_txns bset_ticks b_cluster b_world].
  set (b1 := bset_ticks (S (b_ticks b)) b).
  assert (∀ j k, held tp o top d j k b → held tp o top d j k b1) as Ht by (intros j k []; by split).
  destruct (end_txn _ _ _ _ _ _ _ _) as [[[out t] c] w] eqn:E. intros Er.
  assert (held tp o top d i n (bset_world w (bset_cluster c (bset_txns t b1)))) as Hgoal.
  2: { destruct out as [u|e|]; injection Er as <- <-; exact Hgoal. }
  clear Er. cbn [request_cost request_units] in *. revert E. unfold end_txn, check_producer.
  destruct (transactions (b_txns b) !! etq_transactional_id m) as [meta|].
  2: { intros [= <- <- <- <-]. apply (held_bset b1). by apply Ht. }
  assert (held tp o top d i n b1) as Hsame by (apply Ht; eapply held_weaken; [done|lia|lia]).
  repeat (case_decide; [intros [= <- <- <- <-]; by apply (held_bset b1)|]).
  destruct (write_markers _ _ _ _ _ _ _) as [[r1 c1] w1] eqn:Em. intros E.
  assert (held tp o top d i n (bset_world w1 (bset_cluster c1 b1))) as Hm.
  { eapply held_markers; [|done|done|exact Em]. rewrite zlen_hash_iter. apply Ht.
    eapply held_weaken; [done|lia|lia]. }
  destruct r1; injection E as <- <- <- <-; exact (held_bset _ _ _ _ Hm).
Qed.

(** *** All requests *)
Lemma request_units_nonneg b req : 0 ≤ request_units b req.
Proof.
  destruct req; cbn [request_units]; try done.
  - apply total_cost_nonneg. intros t. apply total_cost_nonneg. intros p. pose proof (zlen_nonneg (ppd_records p)). lia.
  - unfold marker_units. case_match; lia.
Qed.

Lemma dispatch_held env req session b i n r session' b' : spares req → 0 ≤ i → 0 ≤ n →
  held tp o top d (request_cost b req + i) (request_units b req + n) b →
  dispatch env req (session, b) = Some (r, (session', b')) → held tp o top d i n b'.
Proof.
  intros Hs Hi Hn Hh E.
  assert (∀ A ci cn (m : handler W St A) (f : A → Response), spends' ci cn m → held tp o top d (ci + i) (cn + n) b →
    keep session m f b = Some (r, (session', b')) → held tp o top d i n b') as Hkeep.
  { intros A ci cn m f Hm Hh' Ek. unfold keep in Ek.
    destruct ((x ← m; mret (f x)) b) as [[x b1]|] eqn:E1; [|done]. injection Ek as <- <- <-.
    by eapply (spends_then0 tp o top d ci cn m (λ x, mret (f x)) Hm ltac:(intros; apply spends_ret) i n b). }
  assert (held tp o top d i n b) as Hsame.
  { pose proof (request_cost_nonneg b req). pose proof (request_units_nonneg b req). eapply held_weaken; [done|lia|lia]. }
  destruct req; cbn [dispatch request_cost request_units] in *;
    try (eapply (Hkeep _ 0 0); [|exact Hh|exact E]; by spends);
    try (eapply Hkeep; [|exact Hh|exact E]; by auto using spends_produce, spends_fetch, spends_list_offsets,
           spends_metadata, spends_create_topics, spends_create_partitions, spends_delete_topics, spends_delete_records).
  - destruct (sasl_handshake _ _ _). by simplify_eq.
  - by simplify_eq.
  - unfold keep, mbind, handler_bind in E. destruct (api_end_txn _ _ m b) as [[x b1]|] eqn:E1; [|done].
    pose proof (held_end_txn _ _ m i n b x b1 Hh Hi Hn E1) as Hk. destruct x; injection E as <- <- <-; exact Hk.
  - destruct (sasl_authenticate _ _ _ _ _) as [[? ?]| |]; by simplify_eq.
Qed.
End requests.

(** ** The running server *)
Section server.
Context `{Allocator} `{HO : HashOrder} `{CompressionLib} `{ScramCrypto} `{SerdeJson} `{JsonBody}.
Context {W St : Type} `{!WalEngine W, !ObjectStorage St} (tp : TopicPartition) (o top : Z) (d : bytes).
Implicit Types (s : Server W St) (b : Broker W St).

Definition frame_units b (frame : bytes) : Z :=
  match decode_request_header frame with
  | Ok (header, body) =>
      match decode_request (rh_api_key header) (rh_api_version header) body with
      | Ok (req, _) => request_units b req
      | _ => 0
      end
  | _ => 0
  end.

Definition event_units s (e : event) : Z :=
  match e with Frame _ _ frame => frame_units (sv_broker s) frame | _ => 0 end.
Fixpoint run_units (es : list event) s : Z :=
  match es with
  | [] => 0
  | e :: es => event_units s e + match server_step s e with Some s => run_units es s | None => 0 end
  end.

(** The event neither deletes from [tp] nor replaces the broker's state. *)
Definition event_spares (e : event) : Prop :=
  match e with
  | Frame _ _ frame =>
      match decode_request_header frame with
      | Ok (header, body) =>
          match decode_request (rh_api_key header) (rh_api_version header) body with
          | Ok (req, _) => spares tp req
          | _ => True
          end
      | _ => True
      end
  | AdminHttp _ _ _ path _ =>
      path ≠ ["_oxidemq"; "state"; "reset"]%string ∧ path ≠ ["_oxidemq"; "state"; "load"]%string
  | _ => True
  end.

Lemma frame_units_nonneg b frame : 0 ≤ frame_units b frame.
Proof. unfold frame_units. repeat case_match; try done. apply request_units_nonneg. Qed.
Lemma frame_cost_nonneg b frame : 0 ≤ frame_cost b frame.
Proof. unfold frame_cost. repeat case_match; try done. apply request_cost_nonneg. Qed.

Lemma frame_held env cid frame session b i n r session' b' : event_spares (Frame env cid frame) → 0 ≤ i → 0 ≤ n →
  held tp o top d (frame_cost b frame + i) (frame_units b frame + n) b →
  handle_connection_frame env frame (session, b) = Some (r, (session', b')) → held tp o top d i n b'.
Proof.
  intros Hs Hi Hn Hh.
  assert (held tp o top d i n b) as Hsame.
  { pose proof (frame_cost_nonneg b frame). pose proof (frame_units_nonneg b frame). eapply held_weaken; [done|lia|lia]. }
  unfold handle_connection_frame, handle_connection_request. unfold frame_cost, frame_units, event_spares in *.
  destruct (decode_request_header frame) as [[header body]| |]; [|by intros [= <- <- <-]..].
  destruct (rejected _ _ _); [by intros [= <- <- <-]|].
  destruct (decode_request _ _ body) as [[req rest]| |]; [|by intros [= <- <- <-]..].
  destruct (dispatch env req (session, b)) as [[[resp|e|] [s1 b1]]|] eqn:E; intros [= <- <- <-]; by eapply dispatch_held.
Qed.

(** Administrators who do not replace the state leave the partitions alone. *)
Lemma admin_spares now mono m path body a out a' :
  path ≠ ["_oxidemq"; "state"; "reset"]%string → path ≠ ["_oxidemq"; "state"; "load"]%string →
  admin_router now mono m path body a = (out, a') →
  cs_partitions (ap_cluster a') = cs_partitions (ap_cluster a)
  ∧ cs_topics (ap_cluster a') = cs_topics (ap_cluster a)
  ∧ cs_next_stream_id (ap_cluster a') = cs_next_stream_id (ap_cluster a).
Proof.
  intros Hreset Hload E.
  set (P := λ x : AppState, cs_partitions (ap_cluster x) = cs_partitions (ap_cluster a)
    ∧ cs_topics (ap_cluster x) = cs_topics (ap_cluster a)
    ∧ cs_next_stream_id (ap_cluster x) = cs_next_stream_id (ap_cluster a)).
  assert (P a) as Ha by done.
  assert (P (with_body (advertised_body body) (λ p, update_advertised_handler p a) a).2) as Hadv.
  { destruct (advertised_body body) as [|[h p]]; [done|]. by destruct h, p. }
  assert (P (with_body (rule_body body) (λ rule, add_chaos_handler rule a) a).2) as Hadd
    by (by destruct (rule_body body)).
  change (P a'). replace a' with (admin_router now mono m path body a).2 by (by rewrite E). clear E.
  unfold admin_router. cbv zeta. repeat (case_decide; [first [done | case_decide; done | by destruct m]|]). done.
Qed.

Lemma held_tables i n b (a : AppState) r : held tp o top d i n b →
  cs_partitions (ap_cluster a) = cs_partitions (b_cluster b) → cs_topics (ap_cluster a) = cs_topics (b_cluster b) →
  cs_next_stream_id (ap_cluster a) = cs_next_stream_id (b_cluster b) →
  held tp o top d i n (with_schema_registry r
    (bset_chaos (ap_chaos a) (bset_groups (ap_groups a) (bset_cluster (ap_cluster a) b)))).
Proof.
  intros [[] ? ? ? ? ?] E1 E2 E3. unfold next_id in *. split; cbn [b_cluster b_world with_schema_registry bset_chaos bset_groups bset_cluster]; try done.
  - split; rewrite ?E1, ?E2, ?E3; done.
  - unfold next_id. cbn. by rewrite E3.
  - by rewrite E1.
Qed.

Lemma server_step_held s e s' i n : event_spares e → 0 ≤ i → 0 ≤ n →
  held tp o top d (event_cost s e + i) (event_units s e + n) (sv_broker s) →
  server_step s e = Some s' → held tp o top d i n (sv_broker s').
Proof.
  intros Hs Hi Hn Hh. pose proof (event_cost_nonneg s e) as Hcost.
  assert (held tp o top d i n (sv_broker s)) as Hsame.
  { assert (0 ≤ event_units s e) by (destruct e; cbn; try done; apply frame_units_nonneg). eapply held_weaken; [done|lia|lia]. }
  destruct e as [cid|env cid frame|cid|now mono m path body|m path body]; cbn [server_step].
  - intros [= <-]. by case_decide.
  - destruct (sv_conns s !! cid) as [session|]; [|by intros [= <-]]. case_decide; [by intros [= <-]|].
    destruct (handle_connection_frame env frame (session, sv_broker s)) as [[out [session' b]]|] eqn:E; [|done].
    pose proof (frame_held _ cid _ _ _ _ _ _ _ _ Hs Hi Hn Hh E) as Hk.
    destruct out as [x|err|]; [destruct session'| |done]; by intros [= <-].
  - by intros [= <-].
  - unfold admin_app. destruct (if sv_registry_enabled s then registry_routes path else None) as [e|].
    + destruct (endpoint m e body (b_registry (sv_broker s))) as [out r].
      destruct out; intros [= <-]; by apply (held_tables i n (sv_broker s) (app_state s)).
    + destruct (admin_router now mono m path body (app_state s)) as [out a] eqn:E. destruct Hs as [Hs1 Hs2].
      destruct (admin_spares _ _ _ _ _ _ _ _ Hs1 Hs2 E) as (? & ? & ?).
      destruct out; intros [= <-]; by apply held_tables.
  - destruct (sv_registry_enabled s); [|by intros [= <-]].
    assert (∀ r, held tp o top d i n (with_schema_registry r (sv_broker s))) as Hr by (intros r; destruct Hsame; by split).
    destruct (schema_registry_router _ _ _ _) as [[| |] r]; intros [= <-]; apply Hr.
Qed.

Lemma run_units_nonneg es s : 0 ≤ run_units es s.
Proof.
  revert s. induction es as [|e es IH]; intros s; cbn [run_units]; [done|].
  assert (0 ≤ event_units s e) by (destruct e; cbn; try done; apply frame_units_nonneg).
  destruct (server_step s e) as [s1|]; [specialize (IH s1)|]; lia.
Qed.

Lemma server_run_held es : ∀ s s' i n, Forall event_spares es → 0 ≤ i → 0 ≤ n →
  held tp o top d (run_cost es s + i) (run_units es s + n) (sv_broker s) →
  server_run es s = Some s' → held tp o top d i n (sv_broker s').
Proof.
  induction es as [|e es IH]; intros s s' i n Hs Hi Hn; cbn [server_run run_cost run_units]; [by intros Hh [= <-]|].
  apply Forall_cons in Hs as [He Hs]. intros Hh. destruct (server_step s e) as [s1|] eqn:E; [|done]. cbn [mbind option_bind].
  pose proof (run_cost_nonneg es s1). pose proof (run_units_nonneg es s1). intros Er.
  apply (IH s1 s' i n Hs Hi Hn); [|done]. eapply server_step_held; [exact He|lia|lia| |exact E].
  eapply held_weaken; [done|lia|lia].
Qed.
End server.

(** ** Produce, anything, fetch *)
Section theorems.
Context `{Allocator} `{HO : HashOrder} `{CompressionLib} `{ScramCrypto} `{SerdeJson} `{JsonBody}.
Context {W St : Type} `{!WalEngine W, !ObjectStorage St}.
Implicit Types (s : Server W St) (b : Broker W St).

(** The cache and the partition before a batch is produced. *)
Record ready (tp : TopicPartition) b : Prop := {
  rd_tables : tables_ok b;
  rd_wf : LC.wf (log_cache (b_world b));
  rd_max : LC.max_bytes (log_cache (b_world b)) < 2 ^ 63;
  rd_offs : ∀ o d, LC.entry (LC.streams (log_cache (b_world b))) (sid (home tp b)) o = Some d → i64_min ≤ o < i64_max;
  rd_start : 0 ≤ log_start_offset (home tp b) ≤ high_watermark (home tp b) }.

Lemma offsets_taken_bound ims : Forall image_wf ims → offsets_taken ims ≤ 2 ^ 32 * zlen (concat (im_bytes <$> ims)).
Proof.
  induction 1 as [|im ims Him _ IH]; [done|]. rewrite fmap_cons. cbn [concat].
  change (offsets_taken (im :: ims)) with (im_count im + offsets_taken ims).
  rewrite zlen_app, (zlen_im_bytes im Him). pose proof (zlen_nonneg (im_payload im)).
  assert (im_count im ≤ 2 ^ 32); [|lia].
  unfold im_count. pose proof (wrap_s_range 32 (from_be (take 4 (im_rest im))) ltac:(lia)) as [? ?].
  change (32 - 1) with 31 in *. lia.
Qed.

(** An acknowledged batch is held. *)
Lemma produce_held env pr acks tmo topic part ims b base time start b' ids units :
  let tp := mkTP topic part in
  let records := concat (im_bytes <$> ims) in
  ready tp b → ims ≠ [] → Forall image_wf ims → 0 ≤ ids → 0 ≤ units →
  next_id b + 2 + ids < 2 ^ 64 →
  LC.total (LC.streams (log_cache (b_world b))) + zlen records + units ≤ LC.max_bytes (log_cache (b_world b)) →
  high_watermark (home tp b) + 2 ^ 32 * (zlen records + 1 + units) < i64_max →
  api_produce env pr (produce_one acks tmo topic part records) b
    = Some (Ok (produced_one topic part base time start), b') →
  base = high_watermark (home tp b)
  ∧ held tp base (base + offsets_taken ims) (concat (im_bytes <$> assign base ims)) ids units b'.
Proof.
  intros tp records [Hok Hwf Hmax Hoffs Hst] Hne Him Hids Hunits Hid Hroom Hov Hprod.
  pose proof (zlen_nonneg records). pose proof (LC.total_nonneg (LC.streams (log_cache (b_world b)))).
  assert (tables_ok b' ∧ next_id b' ≤ next_id b + 2) as [[Hc' _ _] Hid'].
  { destruct (keeps_produce env pr (produce_one acks tmo topic part records) b _ b' Hok ltac:(cbn; lia) Hprod) as (? & Hle & _).
    split; [done|exact Hle]. }
  apply api_produce_one in Hprod as (b1 & a & fault & Hp & Ec & Ew & Et & Ea).
  apply produce_partition_accepted in Hp as (P' & w' & Happ & Hhome & Hw' & _ & _ & _).
  unfold home in Happ. rewrite Ec, Ew in Happ. fold tp in Happ. fold (home tp b) in Happ.
  assert (1 ≤ offsets_taken ims) as Hpos by (by apply offsets_taken_pos).
  destruct (append_records_cache _ _ _ _ _ _ _ Happ) as (Hsid & Hstart & Hcache).
  pose proof (offsets_taken_bound ims Him) as Htaken. fold records in Htaken.
  assert (patch_record_batches records (high_watermark (home tp b))
    = Ok (concat (im_bytes <$> assign (high_watermark (home tp b)) ims), offsets_taken ims)) as Hpt.
  { apply patch_record_batches_images; [done|done|lia|unfold i64_max in *; lia|fold records; lia]. }
  assert (base = high_watermark (home tp b) ∧ high_watermark P' = high_watermark (home tp b) + offsets_taken ims
    ∧ log_cache w' = LC.put (sid (home tp b)) base (concat (im_bytes <$> assign base ims)) (log_cache (b_world b)))
    as (-> & Hhw & Hlc).
  { clear Hcache. revert Happ. unfold append_records. fold (high_watermark (home tp b)). rewrite Hpt. cbn [mbind res_bind].
    destruct (txn_producer _) as [x| |]; [|done..]. cbn [mbind res_bind].
    set (p1 := match x with Some _ => _ | None => home tp b end).
    assert (stream p1 = stream (home tp b)) as -> by (by destruct x).
    assert (i64 (high_watermark (home tp b) + Z.max (offsets_taken ims) 1) = high_watermark (home tp b) + offsets_taken ims) as Hn.
    { rewrite Z.max_l by lia. apply wrap_s_small; [lia|]. unfold in_s, i64_max in *. change (64 - 1) with 63. lia. }
    unfold append_with_count. fold (high_watermark (home tp b)). rewrite Hn.
    destruct (wal_append _ _ _ _) as [[y|e|] wl]; [|done..]. by intros [= <- _ <- <-]. }
  split; [done|]. set (base := high_watermark (home tp b)) in *.
  assert (zlen (concat (im_bytes <$> assign base ims)) = zlen records) as Hz by (by apply zlen_assign).
  destruct (LC.put_roomy (sid (home tp b)) base (concat (im_bytes <$> assign base ims)) _ Hwf) as (H1' & H2' & H3' & H4');
    [lia|lia|]. rewrite <- Hlc in H1', H2', H3', H4'.
  assert (cs_partitions (b_cluster b') !! tp = Some P') as Hl.
  { revert Hhome. unfold home, get_or_create_partition. fold tp. destruct (cs_partitions (b_cluster b') !! tp) as [q|]; [by intros <-|].
    cbn. intros HP. exfalso. rewrite <- HP in Hhw. cbn in Hhw. lia. }
  split; rewrite ?Hw'; [done|lia|done|lia|lia|].
  exists P'. rewrite Hsid. split_and!; [done| | |lia|lia|lia|lia|lia].
  - rewrite H4'. by rewrite decide_True.
  - intros o' d'. rewrite H4'. case_decide as Hd; [|apply Hoffs]. destruct Hd as [_ ->]. intros _. unfold i64_min. lia.
Qed.

(** What is held is fetched first. *)
Lemma held_fetch env pr topic part o top d b max_bytes :
  held (mkTP topic part) o top d 0 0 b → (∀ lso aborted, visible 0 lso aborted o d = true) →
  authorize pr client_host RtTopic topic OpRead (b_acl b) = true →
  is_fault (check_fault TFetch (b_chaos b)).1 = false → env_fetch_compression env = None →
  ∃ hw lso more b', api_fetch env pr (fetch_one 0 topic part o max_bytes) b
      = Some (Ok (fetched_one topic part hw lso (d ++ more)), b') ∧ top ≤ hw.
Proof.
  intros [_ _ _ _ _ (p & Hl & He & Ho & Hst & Htop & _)] Hvis Hauth Hfault Henv.
  assert (home (mkTP topic part) b = p) as Hhome by (unfold home, get_or_create_partition; by rewrite Hl).
  destruct (read_range_head _ _ o (u64 max_bytes) d Ho He) as [rest Hr].
  destruct (read_records o (u64 max_bytes) p (b_world b)) as [x w'] eqn:Er.
  assert (x = Ok ((o, d) :: rest)) as ->.
  { revert Er. unfold read_records, fetch. unfold log_start_offset, high_watermark in *.
    rewrite decide_False by lia. fold (sid p). destruct (LC.read_range _ _ _ _) as [cached lc]. cbn [fst] in Hr.
    subst cached. by intros [= <- _]. }
  destruct (api_fetch_one env pr 0 topic part o max_bytes b ((o, d) :: rest) w') as [b' Hf]; [done..|by rewrite Hhome|].
  rewrite Hf, Hhome, filter_cons_True by apply Hvis. rewrite fmap_cons. cbn [concat snd].
  do 4 eexists. split; [reflexivity|]. lia.
Qed.

(** C8: Acknowledged records stay readable.  Let a produce request for one partition,
    of well-formed batches of which the first is not a control batch, be
    acknowledged at a base offset.  Then let any clients, administrators and
    registry users send any requests, executed one after the other in any order,
    that do not abort the process, delete from this partition or replace the
    broker's state; as long as what they append fits into the log cache and the
    offsets do not run out, a fetch of this partition alone at the base offset,
    with isolation level 0 (read uncommitted), by anyone who is authorized, with
    no chaos fault armed for Fetch and no recompression of fetched batches
    configured, returns exactly these batches first, with the offsets they were
    assigned, and the high watermark has not gone back.  (A fetch that reads
    committed records only may hide them, [read_committed_hides_committed].) *)
Theorem acknowledged_records_stay env env' pr pr' acks tmo topic part ims s base time start b es s' max_bytes :
  let tp := mkTP topic part in
  let records := concat (im_bytes <$> ims) in
  let cache := log_cache (b_world (sv_broker s)) in
  ready tp (sv_broker s) → Forall image_wf ims → (∃ im, head ims = Some im ∧ Z.land (im_attrs im) 0x0020 = 0) →
  api_produce env pr (produce_one acks tmo topic part records) (sv_broker s)
    = Some (Ok (produced_one topic part base time start), b) →
  server_run es (set_broker b s) = Some s' → Forall (event_spares tp) es →
  next_id (sv_broker s) + 2 + run_cost es (set_broker b s) < 2 ^ 64 →
  LC.total (LC.streams cache) + zlen records + run_units es (set_broker b s) ≤ LC.max_bytes cache →
  high_watermark (home tp (sv_broker s)) + 2 ^ 32 * (zlen records + 1 + run_units es (set_broker b s)) < i64_max →
  authorize pr' client_host RtTopic topic OpRead (b_acl (sv_broker s')) = true →
  is_fault (check_fault TFetch (b_chaos (sv_broker s'))).1 = false → env_fetch_compression env' = None →
  ∃ hw lso more b', api_fetch env' pr' (fetch_one 0 topic part base max_bytes) (sv_broker s')
      = Some (Ok (fetched_one topic part hw lso (concat (im_bytes <$> assign base ims) ++ more)), b')
    ∧ base + offsets_taken ims ≤ hw.
Proof.
  intros tp records cache Hready Him (im & Hhead & Hctrl) Hprod Hrun Hsp Hid Hroom Hov Hauth Hfault Henv.
  pose proof (run_cost_nonneg es (set_broker b s)). pose proof (run_units_nonneg es (set_broker b s)).
  destruct (produce_held env pr acks tmo topic part ims (sv_broker s) base time start b
    (run_cost es (set_broker b s)) (run_units es (set_broker b s)) Hready) as [_ Hh]; [by destruct ims|done..|].
  eapply held_fetch; [|by intros; eapply visible_assigned|done..].
  eapply (server_run_held _ _ _ _ es (set_broker b s) s' 0 0); [done..|by rewrite !Z.add_0_r|done].
Qed.
End theorems.

(** ** Witnesses *)
Section witnesses.
Import MemoryWal MemoryStore.
#[local] Existing Instances roomy stored_lib toy_crypto toy_json toy_bodies.

Definition open_server : Server MemoryWal MemoryObjectStorage := mkServer demo_broker ∅ true 0.
Definition produce_frame (topic : string) (records : bytes) : bytes :=
  frame_of (mkReqHeader ApiProduce 0 8 None) (RqProduce (produce_one 1 1000 topic 0 records)).

(** Another client produces to the same topic, creates one by asking for its
    metadata, and an administrator adds a schema and clears the chaos rules. *)
Definition busy_events : list event :=
  [Accept 1; Frame demo_env 1 (produce_frame "orders" (concat (im_bytes <$> demo_batches)));
   Frame demo_env 1 metadata_frame;
   RegistryHttp POST ["subjects"; "orders"; "versions"]%string (str_bytes "message Order");
   AdminHttp 1800 1800 POST ["_oxidemq"; "chaos"; "clear"]%string []; Hangup 1].
Definition busy_last : Server MemoryWal MemoryObjectStorage :=
  default open_server (server_run busy_events (set_broker after_produce open_server)).

Lemma demo_broker_ready : ready (mkTP "orders" 0) demo_broker.
Proof.
  split.
  - split; [apply cluster_new_ok|by intros id cg|apply reg_ok_new].
  - reflexivity.
  - reflexivity.
  - intros o d. change (LC.streams _) with (∅ : gmap Z (gmap Z bytes)). unfold LC.entry. by rewrite lookup_empty.
  - split; vm_compute; discriminate.
Qed.

Lemma acknowledged_records_stay_witness :
  ∃ hw lso more b', api_fetch demo_env "bob" (fetch_one 0 "orders" 0 0 4096) (sv_broker busy_last)
      = Some (Ok (fetched_one "orders" 0 hw lso (concat (im_bytes <$> assign 0 demo_batches) ++ more)), b')
    ∧ 0 + offsets_taken demo_batches ≤ hw.
Proof.
  refine (acknowledged_records_stay demo_env demo_env "alice" "bob" 1 1000 "orders" 0 demo_batches open_server 0 1700 0
    after_produce busy_events busy_last 4096 demo_broker_ready _ _ _ _ _ _ _ _ _ _ _).
  - apply (bool_decide_unpack _). vm_compute. exact I.
  - eexists. split; [reflexivity|]. vm_compute. reflexivity.
  - vm_compute. reflexivity.
  - vm_compute. reflexivity.
  - unfold busy_events. repeat (apply Forall_cons_2; [lazymatch goal with
      | |- event_spares _ (AdminHttp _ _ _ _ _) => split; discriminate
      | |- _ => vm_compute; exact I end|]). apply Forall_nil_2.
  - vm_compute. reflexivity.
  - vm_compute. discriminate.
  - vm_compute. reflexivity.
  - vm_compute. reflexivity.
  - vm_compute. reflexivity.
  - reflexivity.
Defined.

(** ** What the cache evicts is lost

    The cache holds the only copy: when other topics fill it, a fetch of records
    that were acknowledged answers with no error and no records. *)
Theorem eviction_loses_acknowledged :
  let first := RqProduce (produce_one (-1) 1000 "orders" 0 (concat (im_bytes <$> demo_batches))) in
  let other := RqProduce (produce_one (-1) 1000 "logs" 0 (repeat x00 1000)) in
  let read := RqFetch (fetch_one 0 "orders" 0 0 4096) in
  last_response [first] demo_broker = Some (RsProduce (produced_one "orders" 0 0 1700 0))
  ∧ last_response [first; read] demo_broker
    = Some (RsFetch (fetched_one "orders" 0 4 4 (concat (im_bytes <$> assign 0 demo_batches))))
  ∧ last_response [first; other; read] demo_broker = Some (RsFetch (fetched_one "orders" 0 4 4 [])).
Proof. split_and!; vm_compute; reflexivity. Qed.
End witnesses.
